(* ===== verification/_CoqProject ===== *)
-Q . S2P
Prelude.v
Float64.v
Partition.v
Util.v
XorSet.v
Platform.v
Bucket.v
Sketch.v
SketchOps.v
Dsu.v
DsuMT.v
Config.v
Graph.v
Forest.v
CCAlg.v
MergeInstr.v
Round.v
Region.v
Programs.v
RoundCorrect.v
Instructions.v
Boruvka.v
BoruvkaCorrect.v
Queries.v
Session.v
Correctness.v
Serial.v
Workers.v
WorkersCorrect.v
Driver.v
DriverCorrect.v
Verifier.v
VerifierCorrect.v
SampleChecks.v
Checked.v
CheckedCorrect.v
CheckedSound.v
SketchTesting.v
TestCorrectness.v
Destroy.v
Notify.v
Delete.v
ProcessStream.v
ProcessLive.v
MemLogic.v
Memory.v
