(* ===== verification/Prelude.v ===== *)
(** Verification development for GraphZeppelin (GraphStreamingCC).

    GraphZeppelin answers connectivity queries about a graph given as a stream of
    edge insertions and deletions. Every vertex has a linear sketch of the edges
    incident to it; adding the sketches of the vertices of a component gives a
    sketch of the edges leaving it, so Boruvka's algorithm runs on the sketches.
    A driver reads the stream with several threads, buffers the updates, and has
    worker threads apply them to the sketches in batches; insertions are also
    given to a disjoint set union that answers queries while nothing was deleted
    from its forest.

    * How code is modelled

    Definitions are executable functions named as in the source. An unsigned
    integer is an [N], and operations that can overflow wrap at their width; a
    [double] is binary64. A function that may fail returns an [outcome]: a value,
    an exception, an abort ([assert], [exit]), or [Undef] where C++ leaves the
    result undefined (an access out of bounds, an uninitialised read, a
    conversion out of range). A method is a state transformer [M S A] that keeps
    the state an exception leaves behind. Parallel code is a machine whose steps
    are single calls or accesses of shared memory, and theorems quantify over its
    schedules: the regions of a query in file Round, the disjoint set union in
    DsuMT, the workers in Workers, the driver in Driver. Non-atomic shared flags
    are treated as sequentially consistent, which favours the code.

    What is outside src/ is a class or a record with stated laws, each with a
    concrete instance for executions: the hash, the logarithm, the vector types
    and the build flags ([Platform] of file Platform), the work queue of the
    guttering system ([WorkQueue] of Workers), its buffers and the streams
    ([GutteringSystem] and [GraphStream] of Driver).

    * Files

    - Prelude: integers, outcomes, state transformers, arrays, loops, tactics.
      Float64: binary64 conversions and rounding lemmas. XorSet: sets under
      symmetric difference.
    - Util (src/src/util.cpp): packing an edge in an integer.
    - Partition (get_ith_partition, get_partition_idx of
      src/src/cc_sketch_alg.cpp): ranges of vertices per thread.
    - Bucket, Sketch, SketchOps (include/bucket.h, include/sketch.h,
      src/sketch.cpp). Sketch has the operations and the abstract view
      [represents], a set of indices; SketchOps the type safety of all call
      sequences.
    - Dsu, DsuMT (include/dsu.h): the two disjoint set unions, and the interface
      [UnionFind] with its laws, which both implement and the algorithm uses.
    - Config (include/cc_alg_configuration.h, include/driver_configuration.h and
      their sources).
    - Graph, Forest: the abstract graph of a stream, cuts, and the invariant of a
      spanning forest kept with a disjoint set union.
    - CCAlg (include/cc_sketch_alg.h, src/cc_sketch_alg.cpp): the object,
      construction, updates and batches, with the invariant [cc_inv] that relates
      it to the graph.
    - MergeInstr, Round, Boruvka: regrouping of the vertices, a round, and the
      queries (create_merge_instructions, perform_boruvka_round,
      boruvka_emulation, connected_components, point_query,
      calc_spanning_forest; src/return_types.cpp).
    - Region, Programs, RoundCorrect, Instructions, BoruvkaCorrect, Queries: their
      proofs. Region is the argument over schedules, against an interface that
      RoundCorrect instantiates twice.
    - Session: the abstract specification of the algorithm and the simulation.
      Correctness: the theorems about queries and sessions.
    - Serial: files (write_binary, the constructor from a file).
    - Workers, WorkersCorrect (include/worker_thread_group.h).
    - Driver, DriverCorrect (include/graph_sketch_driver.h), over Workers and
      CCAlg: the stream threads, the workers and the owner of the driver together.
    - Verifier, VerifierCorrect (include/test/graph_verifier.h,
      test/util/graph_verifier.cpp): the lossless checker of the test builds.
    - SampleChecks, Checked, CheckedCorrect, CheckedSound
      (src/cc_sketch_alg.cpp and include/cc_sketch_alg.h in builds with
      VERIFY_SAMPLES_F): the algorithm with its verifier. The code the builds
      share has the look-up of a sampled edge as a class ([SampleCheck] of file
      Round), which does nothing in the other files.
    - SketchTesting (tools/sketch_testing.cpp): the sampling experiment.
      TestCorrectness (tools/test_correctness.cpp): the experiment on paths, over
      Checked.
    - Destroy (the destructors of include/graph_sketch_driver.h and
      include/worker_thread_group.h): deleting the driver while the workers run,
      over Driver.
    - Notify (include/worker_thread_group.h): a finer machine of the workers, in
      which blocking is a step of its own and a wait needs a notification. In
      Workers a wait may end at any time, which is the right machine for safety;
      what a destructor promises to reach is shown in this one. Delete: the
      destructor of the driver over it.
    - ProcessStream, ProcessLive (tools/process_stream.cpp): the program, from its
      arguments to the destruction of its driver, over Driver, Notify and Delete,
      and that it can end.
    - MemLogic, Memory: a linear separation logic for blocks of memory (an
      instance of Iris's interface), and what the constructors, destructors and
      queries of all classes, and the workers while they run, allocate, access
      and free.

    * What the theorems show

    - Whole program: in every interleaving of stream threads, workers and driver
      no half of an update is lost or applied twice ([updates_conserved]); after
      prep_query the algorithm describes the graph of the stream
      ([prepared_query]), so every query answers for it ([driver_queries],
      [cached_query]). The flush must have started when no worker stood
      between an empty-handed [get_data] and its next call; that and reliable
      checksums are also the conditions of what follows. The program that
      processes a file prints the number of components of its graph
      ([process_stream_answers]), unless it is given no reader threads
      ([no_readers_no_edges]); and from every state it reaches it can go on until
      it has returned and destroyed its driver, or its first query throws, unless
      a worker has missed the notification of the destructor
      ([process_stream_can_end]).
    - Destruction: the driver can be deleted while its workers run; none acts
      once its group is gone, and what had left the buffers is applied unless a
      worker went by an old result ([destructor_safe]). Unless a worker has missed
      its notification, the destructor can always end without a spurious wake-up
      ([destructor_can_finish]); a worker can miss it, and then the destructor
      hangs ([destructor_can_hang]). Nothing is freed twice or used after it was
      freed, by the workers either, and only the worker sketches of a driver that
      was followed by another are lost ([memory_session]); with a smaller second
      driver the workers of the first leave their array
      ([second_driver_out_of_bounds]). [copied_answer_freed_twice] and
      [assigned_dsu_freed_twice] show copies the compiler adds that are not safe.
    - Algorithm: any sequence of calls refines the abstract graph
      ([session_refines]); each query answers with the components, a spanning
      forest or the connectivity of the graph, or throws OutOfSamplesException
      ([connected_components_correct], [spanning_forest_correct],
      [point_query_correct]); after a query that threw, batches are refused
      ([failed_query_locks]); insertions are answered without the sketches
      ([insertions_answer_from_cache]), and batches leave the sketches that
      single updates do ([batches_deliver]). Hash collisions enter as the hypothesis
      [query_ready]: no set of edges the run samples has a colliding checksum.
      It depends on the platform's hash, the seed and the graph, and it is shown
      to hold for concrete ones by computation.
    - Parallel parts: a round gives the same guarantee under every schedule
      ([round_any_schedule]), regrouping under every order of its atomic captures
      ([instructions_group_by_root]), concurrent merges are safe and complete
      ([mt_merges_safe], [mt_merges_complete]), and a flush whose workers do not
      hold a stale result drains the queue and can finish ([flush_drains],
      [flush_can_finish]). [flush_misses_batches] and [flush_can_hang] are runs
      of the code where that condition fails.
    - Sketches: linearity, soundness of samples, exhaustion of samples, type
      safety and serialisation. Files: [file_roundtrip].
    - Verifier: it accepts exactly the right answers ([components_verified],
      [forests_verified]), hence those of the algorithm; [verifier_goes_stale]
      shows the calls after which that fails. With it in the algorithm, sessions
      are unchanged while it holds the current graph ([checked_session_refines]),
      and an answer that is returned is right whatever the sketches hold and the
      hash does ([checked_answers_sound]).
    - Experiments: the one on samples reads counters that are not initialised; if
      they were zero, its report would be that of separate sketches
      ([testing_report]); [worst_is_not_lowest] shows what its choice of the worst
      line misses. The correctness tool counts every query, but in the default
      build none of them samples a sketch ([path_test_reports]).
    - Arithmetic: partitions and pairings, exact under stated bounds and shown to
      go wrong beyond them.

    * Fuel and bounds

    Queries loop until a round finds nothing; [boruvka_fuel] is one more than the
    number of samples of a sketch, and [query_terminates] shows that the loop has
    ended by then and that more fuel changes nothing. Searches in a disjoint set
    union get the number of elements as fuel, which the strict order on parents
    makes enough ([dsu_merges_connect]). All other loops are over ranges. Theorems
    about queries ask for a number of threads that divides the vertices exactly
    enough ([Partitioned]: powers of two and divisors of the vertex count, for
    instance); [partitions_inexact] shows why something must be asked.

    * What is not modelled

    - The guttering system, the streams, xxHash and libm: other repositories;
      they are parameters with laws.
    - Clocks and what is printed around results; the memory of library containers
      and a [new] that fails.
    - Probability: that queries succeed often is a statement about random hashes;
      here every run either throws or is right, for each fixed hash.
    - The order in which the threads of create_merge_instructions walk their hash
      tables is that of insertion; any order of their captures is allowed.
    - The unit tests and the benchmarks. *)
From stdpp Require Export base numbers list gmap sets relations option strings.

(** * Notations of the development *)

Declare Scope cxx_scope.
Delimit Scope cxx_scope with cxx.

(** * Machine integers

    Every unsigned C++ integer is an [N] kept below the power of two of its
    width; the operations that can wrap say so with [wrap]. *)

Definition wrap (bits x : N) : N := (x `mod` 2 ^ bits)%N.

Abbreviation u32 := (wrap 32).
Abbreviation u64 := (wrap 64).

(** Unsigned subtraction at a width. *)
Definition usub (bits x y : N) : N := wrap bits (x + 2 ^ bits - wrap bits y).

(** [(node_id_t) -1], [num_merge_needed = -1], ... *)
Definition umax (bits : N) : N := (2 ^ bits - 1)%N.

(** Conversion of a 64-bit unsigned value to [long] and back (LP64). *)
Definition to_long (x : N) : Z :=
  if (u64 x <? 2 ^ 63)%N then Z.of_N (u64 x) else (Z.of_N (u64 x) - 2 ^ 64)%Z.
Definition long_to_u64 (z : Z) : N := Z.to_N (z `mod` 2 ^ 64)%Z.

(** * Outcomes of C++ code *)

(** The exceptions the sources declare. *)
Inductive exn : Type :=
| OutOfSamplesException (seed num_samples sample_idx : N)
| UpdateLockedException
| BadEdgeException (err : string)
| IncorrectCCException (err : string)
| IncorrectForestException (err : string)
| DriverException (msg : string).

(** What [Sketch::sample] throws when the samples are used up. *)
Definition out_of_samples (e : exn) : Prop :=
  ∃ seed num_samples sample_idx, e = OutOfSamplesException seed num_samples sample_idx.

(** A call returns a value, throws, stops the process ([assert] in a debug
    build, [exit(EXIT_FAILURE)]), or has no defined result: an access outside
    an array, an out-of-range conversion, a loop that does not end. *)
Inductive outcome (A : Type) : Type :=
| Ok (a : A)
| Throw (e : exn)
| Abort
| Undef.
Arguments Ok {A} a.
Arguments Throw {A} e.
Arguments Abort {A}.
Arguments Undef {A}.

#[export] Instance outcome_ret : MRet outcome := λ A a, Ok a.
#[export] Instance outcome_bind : MBind outcome := λ A B k m,
  match m with
  | Ok a => k a
  | Throw e => Throw e
  | Abort => Abort
  | Undef => Undef
  end.

(** The value of a run known to succeed. *)
Definition from_outcome {A} `{Inhabited A} (o : outcome A) : A :=
  match o with Ok a => a | _ => inhabitant end.

(** Reading an array: outside its bounds the result is undefined. *)
Definition of_option {A} (o : option A) : outcome A :=
  match o with Some a => Ok a | None => Undef end.

(** Code that mutates an object of type [S] and may throw: the state reached
    when the exception leaves is kept, as C++ keeps it. *)
Definition M (S A : Type) : Type := S → S * outcome A.

#[export] Instance M_ret S : MRet (M S) := λ A a s, (s, Ok a).
#[export] Instance M_bind S : MBind (M S) := λ A B k m s,
  match m s with
  | (s', Ok a) => k a s'
  | (s', Throw e) => (s', Throw e)
  | (s', Abort) => (s', Abort)
  | (s', Undef) => (s', Undef)
  end.

Definition get {S} : M S S := λ s, (s, Ok s).
Definition gets {S A} (f : S → A) : M S A := λ s, (s, Ok (f s)).
Definition put {S} (s : S) : M S unit := λ _, (s, Ok tt).
Definition modify {S} (f : S → S) : M S unit := λ s, (f s, Ok tt).
Definition throw {S A} (e : exn) : M S A := λ s, (s, Throw e).
Definition lift {S A} (o : outcome A) : M S A := λ s, (s, o).

(** A loop that returns its state with its result. *)
Definition run_loop {S A} (f : S → outcome (S * A)) : M S A := λ s,
  match f s with
  | Ok (s', a) => (s', Ok a)
  | Throw e => (s, Throw e)
  | Abort => (s, Abort)
  | Undef => (s, Undef)
  end.

(** A call on a part of the state (a field of the object). *)
Definition zoom {S T A} (view : S → T) (set : T → S → S) (m : M T A) : M S A := λ s,
  let '(t, o) := m (view s) in (set t s, o).

(** [assert(b)]: compiled out when [NDEBUG] is defined. *)
Definition cassert {S} (NDEBUG b : bool) : M S unit :=
  λ s, if NDEBUG || b then (s, Ok tt) else (s, Abort).

Definition oassert (NDEBUG b : bool) : outcome unit :=
  if NDEBUG || b then Ok tt else Abort.

(** A [for] loop over the values of a list, left to right. *)
Fixpoint for_each {S A} (l : list A) (body : A → M S unit) : M S unit :=
  match l with
  | [] => mret tt
  | x :: l' => body x ≫= λ _, for_each l' body
  end.

(** The same loop over a value threaded through code that cannot throw past it. *)
Fixpoint ofold {S A} (body : A → S → outcome S) (l : list A) (s : S) : outcome S :=
  match l with
  | [] => mret s
  | x :: l' => body x s ≫= ofold body l'
  end.

(** * Arrays indexed by unsigned integers *)

#[export] Instance list_lookupN A : Lookup N A (list A) := λ i l, l !! N.to_nat i.
#[export] Instance list_insertN A : Insert N A (list A) := λ i x l, <[N.to_nat i := x]> l.

(** [start, start+1, ..., start+len-1]. *)
Definition seqN (start len : N) : list N :=
  N.of_nat <$> seq (N.to_nat start) (N.to_nat len).

(** * Lemmas on machine integers *)

Create HintDb zeppelin.
Create Rewrite HintDb zeppelin.

Lemma wrap_small w x : (x < 2 ^ w)%N → wrap w x = x.
Proof. intros H. by apply N.mod_small. Qed.

Lemma wrap_lt w x : (wrap w x < 2 ^ w)%N.
Proof. apply N.mod_lt. by apply N.pow_nonzero. Qed.

Lemma wrap_wrap w x : wrap w (wrap w x) = wrap w x.
Proof. apply wrap_small, wrap_lt. Qed.

Lemma usub_small w x y : (y ≤ x)%N → (x < 2 ^ w)%N → usub w x y = (x - y)%N.
Proof.
  intros Hy Hx. unfold usub. rewrite (wrap_small w y) by lia.
  unfold wrap. replace (x + 2 ^ w - y)%N with ((x - y) + 1 * 2 ^ w)%N by lia.
  rewrite N.Div0.mod_add. apply N.mod_small. lia.
Qed.

Lemma long_to_u64_to_long x : (x < 2 ^ 64)%N → long_to_u64 (to_long x) = x.
Proof.
  intros Hx. unfold long_to_u64, to_long. rewrite wrap_small by done.
  destruct (N.ltb_spec x (2 ^ 63)).
  - rewrite Z.mod_small by lia. lia.
  - replace (Z.of_N x - 2 ^ 64)%Z with (Z.of_N x + (-1) * 2 ^ 64)%Z by lia.
    rewrite Z_mod_plus_full, Z.mod_small by lia. lia.
Qed.

#[export] Hint Resolve wrap_lt : zeppelin.
#[export] Hint Rewrite wrap_wrap : zeppelin.

(** * Exclusive or *)

Lemma lxor_lt w x y : (x < 2 ^ w)%N → (y < 2 ^ w)%N → (N.lxor x y < 2 ^ w)%N.
Proof.
  intros Hx Hy. destruct (decide (N.lxor x y = 0%N)) as [->|Hne]; [lia|].
  assert (∀ z n, (z < 2 ^ w)%N → (w ≤ n)%N → N.testbit z n = false) as Hhi.
  { intros z n Hz Hn. destruct (decide (z = 0%N)) as [->|]; [apply N.bits_0|].
    apply N.bits_above_log2. apply N.log2_lt_pow2 in Hz; lia. }
  apply N.log2_lt_pow2; [lia|]. apply N.lt_nge. intros Hge.
  pose proof (N.bit_log2 _ Hne) as Hb.
  rewrite N.lxor_spec, (Hhi x), (Hhi y) in Hb by done. done.
Qed.

Lemma lxor_self_r x y : N.lxor (N.lxor x y) y = x.
Proof. by rewrite N.lxor_assoc, N.lxor_nilpotent, N.lxor_0_r. Qed.

Lemma lxor_eq_0 x y : N.lxor x y = 0%N ↔ x = y.
Proof.
  split; [apply N.lxor_eq|]. intros ->. apply N.lxor_nilpotent.
Qed.

#[export] Hint Resolve lxor_lt : zeppelin.

(** * Arrays *)

Lemma lookupN_eq {A} (l : list A) (i : N) : l !! i = l !! N.to_nat i.
Proof. done. Qed.

Lemma lookupN_lt_Some {A} (l : list A) (i : N) x :
  l !! i = Some x → (i < N.of_nat (length l))%N.
Proof. intros H%lookup_lt_Some. lia. Qed.

Lemma lookupN_lt_is_Some {A} (l : list A) (i : N) :
  (i < N.of_nat (length l))%N → is_Some (l !! i).
Proof. intros H. apply lookup_lt_is_Some. lia. Qed.

Lemma lookupN_ge_None {A} (l : list A) (i : N) :
  (N.of_nat (length l) ≤ i)%N → l !! i = None.
Proof. intros H. apply lookup_ge_None. lia. Qed.

Lemma lookupN_insert_eq {A} (l : list A) (i : N) x :
  (i < N.of_nat (length l))%N → <[i := x]> l !! i = Some x.
Proof. intros H. apply list_lookup_insert_eq. lia. Qed.

Lemma lookupN_insert_ne {A} (l : list A) (i j : N) x :
  i ≠ j → <[i := x]> l !! j = l !! j.
Proof. intros H. apply list_lookup_insert_ne. lia. Qed.

Lemma length_insertN {A} (l : list A) (i : N) x : length (<[i := x]> l) = length l.
Proof. apply length_insert. Qed.

Lemma list_eqN {A} (l1 l2 : list A) : (∀ i : N, l1 !! i = l2 !! i) → l1 = l2.
Proof.
  intros H. apply list_eq. intros i. specialize (H (N.of_nat i)).
  rewrite !lookupN_eq, !Nat2N.id in H. done.
Qed.

#[export] Hint Resolve lookupN_lt_is_Some : zeppelin.
#[export] Hint Rewrite @length_insertN : zeppelin.

(** * Ranges *)

Lemma elem_of_seqN x start len : x ∈ seqN start len ↔ (start ≤ x < start + len)%N.
Proof.
  unfold seqN. rewrite list_elem_of_fmap. setoid_rewrite elem_of_seq. split.
  - intros (n & -> & Hn). lia.
  - intros Hx. exists (N.to_nat x). lia.
Qed.

Lemma NoDup_seqN start len : NoDup (seqN start len).
Proof. apply NoDup_fmap; [intros ?? ?; lia|]. apply NoDup_seq. Qed.

Lemma length_seqN start len : length (seqN start len) = N.to_nat len.
Proof. unfold seqN. by rewrite length_fmap, length_seq. Qed.

Lemma lookup_seqN start len (i : N) : (i < len)%N → seqN start len !! i = Some (start + i)%N.
Proof.
  intros Hi. unfold seqN. rewrite lookupN_eq, list_lookup_fmap, lookup_seq_lt by lia.
  simpl. f_equal. lia.
Qed.

Lemma seqN_nil start : seqN start 0 = [].
Proof. done. Qed.

Lemma seqN_S_end start len : seqN start (N.succ len) = seqN start len ++ [(start + len)%N].
Proof.
  unfold seqN. replace (N.to_nat (N.succ len)) with (N.to_nat len + 1)%nat by lia.
  rewrite seq_app, fmap_app. simpl. do 2 f_equal. lia.
Qed.

Lemma seqN_cons start len : seqN start (N.succ len) = start :: seqN (N.succ start) len.
Proof.
  unfold seqN. rewrite !N2Nat.inj_succ. simpl. rewrite N2Nat.id. done.
Qed.

Lemma seqN_app start len1 len2 :
  seqN start (len1 + len2) = seqN start len1 ++ seqN (start + len1) len2.
Proof.
  unfold seqN. rewrite N2Nat.inj_add, seq_app, fmap_app. do 3 f_equal. lia.
Qed.

Lemma seqN_split start len d x rest : seqN start len = d ++ x :: rest →
  (length d < N.to_nat len)%nat ∧ x = (start + N.of_nat (length d))%N.
Proof.
  intros Hl. assert (length d < N.to_nat len)%nat as Hlen.
  { rewrite <-(length_seqN start len), Hl, length_app. simpl. lia. }
  split; [done|]. pose proof (lookup_seqN start len (N.of_nat (length d)) ltac:(lia)) as Hx.
  rewrite Hl, lookupN_eq, Nat2N.id, list_lookup_middle in Hx by done. by simplify_eq.
Qed.

#[export] Hint Resolve NoDup_seqN : zeppelin.
#[export] Hint Rewrite length_seqN : zeppelin.

(** * The monad *)

Lemma M_bind_Ok {S A B} (m : M S A) (k : A → M S B) s s' a :
  m s = (s', Ok a) → (m ≫= k) s = k a s'.
Proof. intros H. unfold mbind, M_bind. by rewrite H. Qed.

Lemma M_bind_gets {S A B} (f : S → A) (k : A → M S B) s : (gets f ≫= k) s = k (f s) s.
Proof. done. Qed.

Lemma M_bind_get {S B} (k : S → M S B) s : (get ≫= k) s = k s s.
Proof. done. Qed.

Lemma M_bind_mret {S A B} (a : A) (k : A → M S B) s : (mret a ≫= k) s = k a s.
Proof. done. Qed.

Lemma M_bind_modify {S B} (f : S → S) (k : unit → M S B) s : (modify f ≫= k) s = k tt (f s).
Proof. done. Qed.

Lemma M_bind_lift {S A B} (o : outcome A) (a : A) (k : A → M S B) s :
  o = Ok a → (lift o ≫= k) s = k a s.
Proof. by intros ->. Qed.

Lemma M_bind_cassert {S B} ndebug b (k : unit → M S B) s :
  b = true → (cassert ndebug b ≫= k) s = k tt s.
Proof. intros ->. unfold cassert, mbind, M_bind. by rewrite orb_true_r. Qed.

Lemma M_bind_inv {S A B} (m : M S A) (k : A → M S B) s s' b :
  (m ≫= k) s = (s', Ok b) → ∃ a s1, m s = (s1, Ok a) ∧ k a s1 = (s', Ok b).
Proof.
  unfold mbind, M_bind. destruct (m s) as [s1 []]; naive_solver.
Qed.

Lemma outcome_bind_inv {A B} (m : outcome A) (k : A → outcome B) b :
  m ≫= k = Ok b → ∃ a, m = Ok a ∧ k a = Ok b.
Proof. destruct m; naive_solver. Qed.

Lemma for_each_app {S A} (l1 l2 : list A) (body : A → M S unit) s :
  for_each (l1 ++ l2) body s = (for_each l1 body ≫= λ _, for_each l2 body) s.
Proof.
  revert s. induction l1 as [|x l1 IH]; intros s; [done|]. simpl.
  unfold mbind, M_bind in *. by destruct (body x s) as [? []].
Qed.

(** Loop rule: an invariant indexed by the part of the list already done. *)
Lemma for_each_inv {S A} (I : list A → S → Prop) (l : list A) (body : A → M S unit) :
  (∀ done x rest s, l = done ++ x :: rest → I done s →
     ∃ s', body x s = (s', Ok tt) ∧ I (done ++ [x]) s') →
  ∀ s, I [] s → ∃ s', for_each l body s = (s', Ok tt) ∧ I l s'.
Proof.
  intros Hstep.
  assert (∀ rest done s, l = done ++ rest → I done s →
    ∃ s', for_each rest body s = (s', Ok tt) ∧ I l s') as Hgen.
  { induction rest as [|x rest IH]; intros done s Hl HI.
    - exists s. rewrite app_nil_r in Hl. by subst.
    - destruct (Hstep done x rest s Hl HI) as (s1 & Hb & HI1). simpl.
      rewrite (M_bind_Ok _ _ _ _ _ Hb).
      apply (IH (done ++ [x])); [by rewrite <-app_assoc|done]. }
  intros s HI. by apply (Hgen l []).
Qed.

Lemma ofold_app {S A} (body : A → S → outcome S) l1 l2 s :
  ofold body (l1 ++ l2) s = ofold body l1 s ≫= ofold body l2.
Proof.
  revert s. induction l1 as [|x l1 IH]; intros s; [done|]. simpl.
  unfold mbind, outcome_bind in *. by destruct (body x s).
Qed.

(** Loop rule for [ofold]. *)
Lemma ofold_inv {S A} (I : list A → S → Prop) (l : list A) (body : A → S → outcome S) :
  (∀ done x rest s, l = done ++ x :: rest → I done s →
     ∃ s', body x s = Ok s' ∧ I (done ++ [x]) s') →
  ∀ s, I [] s → ∃ s', ofold body l s = Ok s' ∧ I l s'.
Proof.
  intros Hstep.
  assert (∀ rest done s, l = done ++ rest → I done s →
    ∃ s', ofold body rest s = Ok s' ∧ I l s') as Hgen.
  { induction rest as [|x rest IH]; intros done s Hl HI.
    - exists s. rewrite app_nil_r in Hl. by subst.
    - destruct (Hstep done x rest s Hl HI) as (s1 & Hb & HI1). simpl. rewrite Hb. simpl.
      apply (IH (done ++ [x])); [by rewrite <-app_assoc|done]. }
  intros s HI. by apply (Hgen l []).
Qed.

(** Loop rule over a range, with the invariant indexed by the counter. *)
Lemma ofold_range {S} (I : N → S → Prop) start len (body : N → S → outcome S) :
  (∀ k s, (k < len)%N → I k s → ∃ s', body (start + k)%N s = Ok s' ∧ I (k + 1)%N s') →
  ∀ s, I 0%N s → ∃ s', ofold body (seqN start len) s = Ok s' ∧ I len s'.
Proof.
  intros Hstep s HI.
  destruct (ofold_inv (λ d s, I (N.of_nat (length d)) s) (seqN start len) body)
    with (s := s) as (s' & Hs' & HI').
  - intros d x rest s1 Hl HI1.
    destruct (seqN_split _ _ _ _ _ Hl) as [Hlen ->].
    destruct (Hstep (N.of_nat (length d)) s1) as (s2 & Hb & HI2); [lia|done|].
    exists s2. split; [done|]. rewrite length_app. simpl.
    by replace (N.of_nat (length d + 1)) with (N.of_nat (length d) + 1)%N by lia.
  - done.
  - exists s'. split; [done|]. rewrite length_seqN, N2Nat.id in HI'. done.
Qed.

(** The same for [for_each]. *)
Lemma for_each_range {S} (I : N → S → Prop) start len (body : N → M S unit) :
  (∀ k s, (k < len)%N → I k s → ∃ s', body (start + k)%N s = (s', Ok tt) ∧ I (k + 1)%N s') →
  ∀ s, I 0%N s → ∃ s', for_each (seqN start len) body s = (s', Ok tt) ∧ I len s'.
Proof.
  intros Hstep s HI.
  destruct (for_each_inv (λ d s, I (N.of_nat (length d)) s) (seqN start len) body)
    with (s := s) as (s' & Hs' & HI').
  - intros d x rest s1 Hl HI1.
    destruct (seqN_split _ _ _ _ _ Hl) as [Hlen ->].
    destruct (Hstep (N.of_nat (length d)) s1) as (s2 & Hb & HI2); [lia|done|].
    exists s2. split; [done|]. rewrite length_app. simpl.
    by replace (N.of_nat (length d + 1)) with (N.of_nat (length d) + 1)%N by lia.
  - done.
  - exists s'. split; [done|]. rewrite length_seqN, N2Nat.id in HI'. done.
Qed.

(** Loop rule for [mapM]. *)
Lemma mapM_ok {A B} (f : A → outcome B) (R : A → B → Prop) (l : list A) :
  (∀ x, x ∈ l → ∃ y, f x = Ok y ∧ R x y) → ∃ k, mapM f l = Ok k ∧ Forall2 R l k.
Proof.
  induction l as [|x l IH]; intros H; [by exists []|].
  destruct (H x) as (y & E & Hy); [left|]. destruct IH as (k & Ek & Hk); [intros z Hz; apply H; by right|].
  exists (y :: k). cbn [mapM]. rewrite E. cbn [mbind outcome_bind]. rewrite Ek. split; [done|by constructor].
Qed.

(** * Definedness order

    Code that has a result keeps it when a part that had none gets one: [m] is
    below [m'] when they agree wherever [m] is defined. *)

Definition outcome_le {A} (o o' : outcome A) : Prop := o = Undef ∨ o = o'.
Definition M_le {S A} (m m' : M S A) : Prop := ∀ s, (m s).2 = Undef ∨ m s = m' s.

#[export] Instance outcome_le_refl A : Reflexive (@outcome_le A).
Proof. intros o. by right. Qed.
#[export] Instance M_le_refl S A : Reflexive (@M_le S A).
Proof. intros m s. by right. Qed.

Lemma outcome_bind_le {A B} (o o' : outcome A) (k k' : A → outcome B) :
  outcome_le o o' → (∀ a, outcome_le (k a) (k' a)) → outcome_le (o ≫= k) (o' ≫= k').
Proof. intros [->| ->] Hk; [by left|]. destruct o'; try by right. apply Hk. Qed.

Lemma M_bind_le {S A B} (m m' : M S A) (k k' : A → M S B) :
  M_le m m' → (∀ a, M_le (k a) (k' a)) → M_le (m ≫= k) (m' ≫= k').
Proof.
  intros Hm Hk s. unfold mbind, M_bind. destruct (Hm s) as [E|E].
  - destruct (m s) as [s' o]. simpl in E. subst. by left.
  - rewrite E. destruct (m' s) as [s' []]; try by right. apply Hk.
Qed.

Lemma lift_le {S A} (o o' : outcome A) : outcome_le o o' → M_le (lift (S := S) o) (lift o').
Proof. intros [->| ->] s; [by left|by right]. Qed.

Lemma zoom_le {S T A} (view : S → T) (set : T → S → S) (m m' : M T A) :
  M_le m m' → M_le (zoom view set m) (zoom view set m').
Proof.
  intros Hm s. unfold zoom. destruct (Hm (view s)) as [E|E]; [|right; by rewrite E].
  left. by destruct (m (view s)).
Qed.

Lemma ofold_le {S A} (body body' : A → S → outcome S) l : (∀ x s, outcome_le (body x s) (body' x s)) →
  ∀ s, outcome_le (ofold body l s) (ofold body' l s).
Proof.
  intros Hb. induction l as [|x l IH]; intros s; [by right|]. by apply outcome_bind_le.
Qed.

(** From where a measure can always be made smaller, the goal can be reached. *)
Lemma rtc_measure {A} (R : relation A) (I Goal : A → Prop) (m : A → nat) :
  (∀ x, I x → Goal x ∨ ∃ y, rtc R x y ∧ I y ∧ (m y < m x)%nat) → ∀ x, I x → ∃ y, rtc R x y ∧ I y ∧ Goal y.
Proof.
  intros Hm x. induction (well_founded_ltof _ m x) as [x _ IH]. intros Hx.
  destruct (Hm x Hx) as [Hg|(y & Hs & Hy & Hlt)]; [by exists x|].
  destruct (IH y Hlt Hy) as (z & Hz & ? & ?). exists z. split; [by etrans|done].
Qed.

(** * Tactics of the development *)

(** Case analysis on the boolean comparisons of the code. *)
Ltac bool_cases :=
  repeat match goal with
  | |- context [N.eqb ?x ?y] => destruct (N.eqb_spec x y)
  | |- context [N.ltb ?x ?y] => destruct (N.ltb_spec x y)
  | |- context [N.leb ?x ?y] => destruct (N.leb_spec x y)
  | H : context [N.eqb ?x ?y] |- _ => destruct (N.eqb_spec x y)
  | H : context [N.ltb ?x ?y] |- _ => destruct (N.ltb_spec x y)
  | H : context [N.leb ?x ?y] |- _ => destruct (N.leb_spec x y)
  end.

(** Invert the successful run of a sequence of calls. *)
Ltac run_inv :=
  repeat match goal with
  | H : (_ ≫= _) _ = (_, Ok _) |- _ =>
      let a := fresh "a" in let s := fresh "s" in
      apply M_bind_inv in H as (a & s & ? & H)
  | H : (_ ≫= _) = Ok _ |- _ =>
      let a := fresh "a" in apply outcome_bind_inv in H as (a & ? & H)
  | H : of_option ?o = Ok _ |- _ =>
      let E := fresh "E" in destruct o eqn:E; [|discriminate H]; simplify_eq/=
  | H : (_, _) = (_, _) |- _ => simplify_eq/=
  | H : mret _ = Ok _ |- _ => unfold mret, outcome_ret in H; simplify_eq/=
  end.
