(* ===== verification/Float64.v ===== *)
(** IEEE-754 binary64 arithmetic as the sources use it ([double]).

    The operations are those of the Standard Library's [SpecFloat] at
    precision 53 and exponent bound 1024; this file adds the conversions
    between unsigned integers and [double], [ceil], and the rounding lemmas
    (relative error 2^-53, monotonicity at integers) that the components
    doing arithmetic on [double] rely on. *)
From Stdlib Require Import Reals Psatz.
From Stdlib Require Import Floats.SpecFloat.
From S2P Require Import Prelude.

(** * Operations *)

Definition prec64 : Z := 53.
Definition emax64 : Z := 1024.

Abbreviation double := spec_float.

Definition dmul : double → double → double := SFmul prec64 emax64.
Definition ddiv : double → double → double := SFdiv prec64 emax64.
Definition dadd : double → double → double := SFadd prec64 emax64.
Definition dsqrt : double → double := SFsqrt prec64 emax64.

(** Implicit conversion of an unsigned integer (or a literal) to [double]. *)
Definition double_of_N (n : N) : double :=
  binary_normalize prec64 emax64 (Z.of_N n) 0 false.

(** The integer [ceil(d)] stands for; none for an infinity or a NaN. *)
Definition ceil_Z (d : double) : option Z :=
  match d with
  | S754_zero _ => Some 0%Z
  | S754_finite s m e =>
      let z := cond_Zopp s (Z.pos m) in
      Some (if (0 <=? e)%Z then z * 2 ^ e else - ((- z) / 2 ^ (- e)))%Z
  | _ => None
  end.

(** The integer a conversion to an integer type truncates [d] to. *)
Definition trunc_Z (d : double) : option Z :=
  match d with
  | S754_zero _ => Some 0%Z
  | S754_finite s m e =>
      Some (cond_Zopp s (if (0 <=? e)%Z then Z.pos m * 2 ^ e else Z.pos m / 2 ^ (- e)))%Z
  | _ => None
  end.

(** Conversion of the truncated value to a [w]-bit unsigned type: undefined
    outside the type's range ([conv.fpint]). *)
Definition to_unsigned (w : N) (z : option Z) : outcome N :=
  match z with
  | Some z => if (0 <=? z)%Z && (z <? 2 ^ Z.of_N w)%Z then Ok (Z.to_N z) else Undef
  | None => Undef
  end.

(** * The real value of a [double] *)

Open Scope R_scope.

Definition pow2 (e : Z) : R := powerRZ 2 e.
Arguments pow2 : simpl never.

Definition d2r (d : double) : R :=
  match d with
  | S754_finite s m e => IZR (cond_Zopp s (Z.pos m)) * pow2 e
  | _ => 0
  end.

Lemma pow2_pos e : 0 < pow2 e.
Proof. apply powerRZ_lt. lra. Qed.

Lemma pow2_add a b : pow2 (a + b) = pow2 a * pow2 b.
Proof. apply powerRZ_add. lra. Qed.

Lemma pow2_IZR e : (0 ≤ e)%Z → pow2 e = IZR (2 ^ e).
Proof.
  intros He. unfold pow2. rewrite <-(Z2Nat.id e) by done.
  rewrite <-pow_powerRZ, <-pow_IZR. done.
Qed.

Lemma pow2_opp e : pow2 (- e) = / pow2 e.
Proof. apply powerRZ_neg'. Qed.

Lemma pow2_0 : pow2 0 = 1.
Proof. done. Qed.

Lemma pow2_le a b : (a ≤ b)%Z → pow2 a <= pow2 b.
Proof.
  intros H. replace b with (a + (b - a))%Z by lia. rewrite pow2_add.
  rewrite (pow2_IZR (b - a)) by lia. pose proof (pow2_pos a).
  assert (1 <= IZR (2 ^ (b - a))).
  { apply IZR_le. pose proof (Z.pow_pos_nonneg 2 (b - a)). lia. }
  nra.
Qed.

Lemma pow2_lt_inv a b : pow2 a < pow2 b → (a < b)%Z.
Proof.
  intros H. destruct (Z_lt_le_dec a b); [done|].
  pose proof (pow2_le b a l). lra.
Qed.

(** * Rounding

    [(m, l)] locates the quotient [a / b]: [m] is its integer part and [l]
    says where the rest lies with respect to one half. *)

Definition located (a b : Z) (mrs : shr_record) : Prop :=
  let '(Build_shr_record m r s) := mrs in
  (0 ≤ m)%Z ∧ (0 < b)%Z ∧
  match r, s with
  | false, false => a = m * b
  | false, true => m * b < a ∧ 2 * (a - m * b) < b
  | true, false => 2 * (a - m * b) = b
  | true, true => b < 2 * (a - m * b) ∧ a - m * b < b
  end%Z.

Lemma located_shr_1 a b mrs : located a b mrs → located a (2 * b) (shr_1 mrs).
Proof.
  destruct mrs as [m r s]. destruct m as [|[p|p|]|p]; destruct r, s; simpl;
    intros (? & ? & ?); try lia; repeat split; try lia; nia.
Qed.

Lemma located_iter a p : ∀ b mrs, located a b mrs →
  located a (b * 2 ^ Z.pos p) (SpecFloat.iter_pos shr_1 p mrs).
Proof.
  induction p as [p IH|p IH|]; intros b mrs H; simpl SpecFloat.iter_pos.
  - replace (b * 2 ^ Z.pos p~1)%Z with (2 * b * 2 ^ Z.pos p * 2 ^ Z.pos p)%Z.
    { by apply IH, IH, located_shr_1. }
    replace (Z.pos p~1) with (1 + Z.pos p + Z.pos p)%Z by lia.
    rewrite !Z.pow_add_r by lia. lia.
  - replace (b * 2 ^ Z.pos p~0)%Z with (b * 2 ^ Z.pos p * 2 ^ Z.pos p)%Z.
    { by apply IH, IH. }
    replace (Z.pos p~0) with (Z.pos p + Z.pos p)%Z by lia.
    rewrite !Z.pow_add_r by lia. lia.
  - rewrite Z.mul_comm. by apply located_shr_1.
Qed.

Lemma located_shr a b mrs e n : (0 ≤ n)%Z → located a b mrs →
  located a (b * 2 ^ n) (shr mrs e n).1 ∧ (shr mrs e n).2 = (e + n)%Z.
Proof.
  intros Hn H. destruct n as [|p|p]; simpl; [|by split; [apply located_iter|]|lia].
  rewrite Z.mul_1_r, Z.add_0_r. done.
Qed.

(** [round_nearest_even] picks an integer within one half of [a / b]. *)
Lemma round_nearest a b mrs : located a b mrs →
  let k := round_nearest_even (shr_m mrs) (loc_of_shr_record mrs) in
  (0 ≤ k ∧ 2 * Z.abs (k * b - a) ≤ b ∧
   (∀ c, a ≤ c * b → k ≤ c) ∧ (∀ c, c * b ≤ a → c ≤ k))%Z.
Proof.
  destruct mrs as [m r s]. destruct r, s; simpl;
    intros (Hm & Hb & H); try (destruct (Z.even m)); repeat split;
    try lia; intros c Hc; try nia.
Qed.

Lemma digits2_bound m : (2 ^ (Z.pos (digits2_pos m) - 1) ≤ Z.pos m < 2 ^ Z.pos (digits2_pos m))%Z.
Proof.
  induction m as [m IH|m IH|]; simpl digits2_pos; [| |done];
    rewrite Pos2Z.inj_succ, Z.pow_succ_r by lia;
    replace (Z.succ (Z.pos (digits2_pos m)) - 1)%Z with (Z.succ (Z.pos (digits2_pos m) - 1))%Z by lia;
    rewrite Z.pow_succ_r by lia; lia.
Qed.

Lemma digits2_unique m d : (0 < d)%Z → (2 ^ (d - 1) ≤ Z.pos m < 2 ^ d)%Z →
  Z.pos (digits2_pos m) = d.
Proof.
  intros Hd [H1 H2]. pose proof (digits2_bound m) as [H3 H4].
  assert (2 ^ (Z.pos (digits2_pos m) - 1) < 2 ^ d)%Z as H5 by lia.
  assert (2 ^ (d - 1) < 2 ^ Z.pos (digits2_pos m))%Z as H6 by lia.
  apply Z.pow_lt_mono_r_iff in H5, H6; lia.
Qed.

Lemma fexp_normal d : (-1021 ≤ d)%Z → fexp prec64 emax64 d = (d - 53)%Z.
Proof. intros H. unfold fexp, SpecFloat.emin, prec64, emax64. lia. Qed.

(** The second normalisation of [binary_round_aux]: a 53-bit mantissa stays,
    2^53 becomes 2^52 with the next exponent. *)
Lemma renormalise sx k e : (2 ^ 52 ≤ k ≤ 2 ^ 53)%Z → (-1074 ≤ e ≤ 900)%Z →
  ∃ m' e', (let '(mrs'', e'') := shr_fexp prec64 emax64 k e loc_Exact in
    match shr_m mrs'' with
    | Z0 => S754_zero sx
    | Zpos m => if Z.leb e'' (Z.sub emax64 prec64) then S754_finite sx m e'' else S754_infinity sx
    | _ => S754_nan
    end) = S754_finite sx m' e' ∧ IZR (Z.pos m') * pow2 e' = IZR k * pow2 e ∧
    (e ≤ e')%Z.
Proof.
  intros Hk He. destruct k as [|k|k]; [lia| |lia].
  destruct (decide (Z.pos k = 2 ^ 53)%Z) as [E|E].
  - assert (k = 9007199254740992%positive) as -> by lia.
    unfold shr_fexp. change (Zdigits2 9007199254740992) with 54%Z.
    rewrite fexp_normal by lia.
    replace (54 + e - 53 - e)%Z with 1%Z by lia. simpl.
    unfold emax64, prec64. destruct (Z.leb_spec (e + 1) (1024 - 53)) as [|]; [|lia].
    eexists _, _. split; [done|]. split; [|lia].
    rewrite pow2_add. unfold pow2 at 2. simpl. rewrite Rmult_1_r. lra.
  - assert (Z.pos (digits2_pos k) = 53%Z) as Hd by (apply digits2_unique; lia).
    unfold shr_fexp. simpl Zdigits2. rewrite Hd, fexp_normal by lia.
    replace (53 + e - 53 - e)%Z with 0%Z by lia. simpl.
    unfold emax64, prec64. destruct (Z.leb_spec e (1024 - 53)) as [|]; [|lia].
    eexists _, _. split; [done|]. split; [done|lia].
Qed.

(** What a correctly rounded result [d] of the quotient [a / b], scaled by
    [2^e], is. *)
Definition rounds_to (a b e : Z) (d : double) : Prop :=
  ∃ k p m' e', d = S754_finite false m' e' ∧ (0 ≤ p)%Z ∧
    IZR (Z.pos m') * pow2 e' = IZR k * pow2 (e + p) ∧
    (2 * Z.abs (k * (b * 2 ^ p) - a) ≤ b * 2 ^ p)%Z ∧
    (∀ c, a ≤ c * (b * 2 ^ p) → k ≤ c)%Z ∧ (∀ c, c * (b * 2 ^ p) ≤ a → c ≤ k)%Z ∧
    ((p = 0 ∧ a = k * b) ∨ 2 ^ 52 ≤ k)%Z.

Lemma located_loc a b m l e n : located a b (shr_record_of_loc m l) → (n ≤ 0)%Z →
  shr (shr_record_of_loc m l) e n = (shr_record_of_loc m l, e).
Proof. intros _ Hn. by destruct n. Qed.

Lemma loc_record m l : loc_of_shr_record (shr_record_of_loc m l) = l ∧
  shr_m (shr_record_of_loc m l) = m.
Proof. by destruct l as [|[]]. Qed.

Lemma binary_round_aux_spec m l a b e :
  located a b (shr_record_of_loc (Z.pos m) l) →
  (l = loc_Exact ∨ 53 ≤ Z.pos (digits2_pos m))%Z →
  (-1021 ≤ Z.pos (digits2_pos m) + e ≤ 900)%Z →
  rounds_to a b e (binary_round_aux prec64 emax64 false (Z.pos m) e l).
Proof.
  intros Hloc Hl He. set (d := Z.pos (digits2_pos m)) in *.
  pose proof (digits2_bound m) as Hd. fold d in Hd.
  unfold binary_round_aux. unfold shr_fexp at 1. simpl Zdigits2. fold d.
  rewrite fexp_normal by lia. replace (d + e - 53 - e)%Z with (d - 53)%Z by lia.
  destruct (Z_le_gt_dec (d - 53) 0) as [Hn|Hn].
  - rewrite (located_loc a b) by done.
    destruct (round_nearest a b _ Hloc) as (Hk0 & Hk1 & Hk2 & Hk3).
    destruct (loc_record (Z.pos m) l) as [Ell Elm]. rewrite Ell, Elm in *.
    set (k := round_nearest_even (Z.pos m) l) in *.
    destruct Hl as [->|Hl].
    + destruct Hloc as (_ & Hb & Ha). unfold k in *; clear k. simpl round_nearest_even in *.
      unfold shr_fexp. simpl Zdigits2. fold d. rewrite fexp_normal by lia.
      rewrite (located_loc a b) by (done || lia). simpl.
      unfold emax64, prec64. destruct (Z.leb_spec e (1024 - 53)) as [|]; [|lia].
      exists (Z.pos m), 0%Z, m, e. rewrite Z.add_0_r, Z.mul_1_r.
      repeat split; auto with lia.
    + assert (d = 53%Z) as Ed by lia. rewrite Ed in *.
      assert (2 ^ 52 ≤ k ≤ 2 ^ 53)%Z as Hk.
      { assert (Z.pos m ≤ k ≤ Z.pos m + 1)%Z; [|lia].
        unfold k. destruct l as [|[]]; cbn [round_nearest_even]; try lia. destruct (Z.even (Z.pos m)); lia. }
      destruct (renormalise false k e) as (m' & e' & -> & Hv & _); [done|lia|].
      exists k, 0%Z, m', e'. rewrite Z.add_0_r, Z.mul_1_r.
      repeat split; auto with lia.
  - pose proof (located_shr a b _ e (d - 53) ltac:(lia) Hloc) as [Hloc' He'].
    destruct (shr _ e (d - 53)) as [mrs' e1]. simpl in Hloc', He'. subst e1.
    destruct (round_nearest _ _ _ Hloc') as (Hk0 & Hk1 & Hk2 & Hk3).
    set (k := round_nearest_even _ _) in *.
    assert (0 < 2 ^ (d - 53))%Z as HP by (apply Z.pow_pos_nonneg; lia).
    assert (2 ^ (d - 1) = 2 ^ 52 * 2 ^ (d - 53))%Z as E1
      by (rewrite <-Z.pow_add_r by lia; f_equal; lia).
    assert (2 ^ d = 2 ^ 53 * 2 ^ (d - 53))%Z as E2
      by (rewrite <-Z.pow_add_r by lia; f_equal; lia).
    assert (0 < b ∧ Z.pos m * b ≤ a < (Z.pos m + 1) * b)%Z as (Hb & Hab).
    { destruct l as [|[]]; simpl in Hloc; lia. }
    assert (2 ^ 52 ≤ k ≤ 2 ^ 53)%Z as Hk.
    { split; [apply Hk3; nia|apply Hk2; nia]. }
    destruct (renormalise false k (e + (d - 53))) as (m' & e' & -> & Hv & _); [done|lia|].
    exists k, (d - 53)%Z, m', e'. repeat split; auto; lia.
Qed.

(** * Consequences on real values *)

Section Rounds.
Context (a b e : Z) (d : double).
Context (Ha : (0 < a)%Z) (Hb : (0 < b)%Z) (Hd : rounds_to a b e d).

Let x : R := IZR a / IZR b * pow2 e.

(** The rounded value as an integer at the scale of the result. *)
Lemma rounds_scaled : ∃ k B q, d2r d = IZR k * pow2 q ∧ x = IZR a / IZR B * pow2 q ∧
  (0 < B)%Z ∧ (2 * Z.abs (k * B - a) ≤ B)%Z ∧
  (∀ c, a ≤ c * B → k ≤ c)%Z ∧ (∀ c, c * B ≤ a → c ≤ k)%Z ∧
  (a = k * B ∨ 2 ^ 52 ≤ k)%Z.
Proof using a b e d Ha Hb Hd.
  destruct Hd as (k & p & m' & e' & -> & Hp & Hv & H1 & H2 & H3 & H4).
  assert (0 < 2 ^ p)%Z as HP by (apply Z.pow_pos_nonneg; lia).
  exists k, (b * 2 ^ p)%Z, (e + p)%Z. split; [exact Hv|]. split; [|repeat split; auto; try nia].
  - unfold x. rewrite pow2_add, mult_IZR, (pow2_IZR p) by done.
    field. split; apply not_0_IZR; lia.
  - destruct H4 as [[-> ->]|]; [left; lia|by right].
Qed.

Lemma rounds_error : Rabs (d2r d - x) <= x * pow2 (-52).
Proof using a b e d Ha Hb Hd.
  destruct rounds_scaled as (k & B & q & -> & -> & HB & H1 & _ & _ & H4).
  pose proof (pow2_pos q) as Hq. set (P := pow2 q) in *.
  assert (0 < IZR B) as HB' by (by apply (IZR_lt 0)).
  assert (0 < IZR a) as Ha' by (by apply (IZR_lt 0)).
  assert (IZR k * P - IZR a / IZR B * P = (IZR (k * B - a) / IZR B) * P) as ->.
  { rewrite minus_IZR, mult_IZR. field. lra. }
  rewrite Rabs_mult, (Rabs_pos_eq P) by lra. unfold Rdiv at 1.
  rewrite Rabs_mult, Rabs_inv, (Rabs_pos_eq (IZR B)), <-abs_IZR by lra.
  assert (0 < / IZR B) by (by apply Rinv_0_lt_compat).
  replace (IZR a / IZR B * P * pow2 (-52)) with ((IZR a * pow2 (-52)) * / IZR B * P)
    by (field; lra).
  assert (IZR (Z.abs (k * B - a)) <= IZR a * pow2 (-52)) as Hle.
  { change (-52)%Z with (- (52))%Z. rewrite (pow2_opp 52), (pow2_IZR 52) by lia.
    apply (Rmult_le_reg_r (IZR (2 ^ 52))); [apply (IZR_lt 0); lia|].
    rewrite Rmult_assoc, Rinv_l, Rmult_1_r, <-mult_IZR by (apply not_0_IZR; lia).
    apply IZR_le. destruct H4 as [->|H4]; [replace (k * B - k * B)%Z with 0%Z by lia; lia|].
    nia. }
  apply Rmult_le_compat_r; [lra|]. apply Rmult_le_compat_r; lra.
Qed.

Lemma rounds_le_dyadic c j : (0 < c ≤ 2 ^ 52)%Z → x <= IZR c * pow2 j → d2r d <= IZR c * pow2 j.
Proof using a b e d Ha Hb Hd.
  intros Hc. destruct rounds_scaled as (k & B & q & -> & -> & HB & H1 & H2 & _ & H4).
  pose proof (pow2_pos q) as Hq. pose proof (pow2_pos j) as Hj. intros Hx.
  assert (0 < IZR B) as HB' by (by apply (IZR_lt 0)).
  destruct (Z_le_gt_dec q j) as [Hq0|Hq0].
  - assert (IZR c * pow2 j = IZR (c * 2 ^ (j - q)) * pow2 q) as E.
    { rewrite mult_IZR, <-pow2_IZR, Rmult_assoc, <-pow2_add by lia.
      do 2 f_equal. lia. }
    rewrite E in *. apply Rmult_le_compat_r; [lra|]. apply IZR_le, H2.
    apply Rmult_le_reg_r in Hx; [|lra]. apply le_IZR. rewrite mult_IZR.
    apply (Rmult_le_compat_r (IZR B)) in Hx; [|lra].
    unfold Rdiv in Hx. rewrite Rmult_assoc, Rinv_l in Hx; lra.
  - destruct H4 as [->|H4].
    + rewrite mult_IZR in Hx. unfold Rdiv in Hx.
      rewrite (Rmult_assoc (IZR k)), Rinv_r, Rmult_1_r in Hx; lra.
    + exfalso. replace q with (q - j + j)%Z in Hx by lia.
      rewrite pow2_add, <-Rmult_assoc in Hx. apply Rmult_le_reg_r in Hx; [|done].
      rewrite (pow2_IZR (q - j)) in Hx by lia.
      assert (2 ≤ 2 ^ (q - j))%Z as Hq2.
      { replace (q - j)%Z with (1 + (q - j - 1))%Z by lia. rewrite Z.pow_add_r by lia.
        assert (0 < 2 ^ (q - j - 1))%Z by (apply Z.pow_pos_nonneg; lia). lia. }
      assert (IZR a * IZR (2 ^ (q - j)) <= IZR c * IZR B) as Hx'.
      { apply (Rmult_le_compat_r (IZR B)) in Hx; [|lra].
        replace (IZR a / IZR B * IZR (2 ^ (q - j)) * IZR B)
          with (IZR a * IZR (2 ^ (q - j))) in Hx by (field; lra). done. }
      rewrite <-!mult_IZR in Hx'. apply le_IZR in Hx'. nia.
Qed.

Lemma rounds_ge_dyadic c j : (c ≤ 2 ^ 52)%Z → IZR c * pow2 j <= x → IZR c * pow2 j <= d2r d.
Proof using a b e d Ha Hb Hd.
  intros Hc. destruct rounds_scaled as (k & B & q & -> & -> & HB & H1 & _ & H3 & H4).
  pose proof (pow2_pos q) as Hq. pose proof (pow2_pos j) as Hj. intros Hx.
  assert (0 < IZR B) as HB' by (by apply (IZR_lt 0)).
  destruct (Z_le_gt_dec q j) as [Hq0|Hq0].
  - assert (IZR c * pow2 j = IZR (c * 2 ^ (j - q)) * pow2 q) as E.
    { rewrite mult_IZR, <-pow2_IZR, Rmult_assoc, <-pow2_add by lia.
      do 2 f_equal. lia. }
    rewrite E in *. apply Rmult_le_compat_r; [lra|]. apply IZR_le, H3.
    apply Rmult_le_reg_r in Hx; [|lra]. apply le_IZR. rewrite mult_IZR.
    apply (Rmult_le_compat_r (IZR B)) in Hx; [|lra].
    unfold Rdiv in Hx. rewrite Rmult_assoc, Rinv_l in Hx; lra.
  - destruct H4 as [->|H4].
    + rewrite mult_IZR in Hx. unfold Rdiv in Hx.
      rewrite (Rmult_assoc (IZR k)), Rinv_r, Rmult_1_r in Hx; lra.
    + replace q with (q - j + j)%Z by lia. rewrite pow2_add, <-Rmult_assoc.
      apply Rmult_le_compat_r; [lra|].
      rewrite (pow2_IZR (q - j)), <-mult_IZR by lia. apply IZR_le.
      assert (1 ≤ 2 ^ (q - j))%Z by (pose proof (Z.pow_pos_nonneg 2 (q - j)); lia). nia.
Qed.
End Rounds.

(** [d] is the correctly rounded image of the positive real [x]. *)
Definition correctly_rounded (d : double) (x : R) : Prop :=
  ∃ a b e, (0 < a)%Z ∧ (0 < b)%Z ∧ x = IZR a / IZR b * pow2 e ∧ rounds_to a b e d.

Definition pos_double (d : double) : Prop := ∃ m e, d = S754_finite false m e.

Lemma correctly_rounded_pos d x : correctly_rounded d x → pos_double d.
Proof. intros (a & b & e & _ & _ & _ & k & p & m & e' & -> & _). by exists m, e'. Qed.

Lemma correctly_rounded_error d x :
  correctly_rounded d x → Rabs (d2r d - x) <= x * pow2 (-52).
Proof. intros (a & b & e & Ha & Hb & -> & Hr). by apply rounds_error. Qed.

Lemma correctly_rounded_le d x c :
  correctly_rounded d x → (0 < c ≤ 2 ^ 52)%Z → x <= IZR c → d2r d <= IZR c.
Proof.
  intros (a & b & e & Ha & Hb & -> & Hr) Hc.
  pose proof (rounds_le_dyadic a b e d Ha Hb Hr c 0 Hc) as H.
  rewrite pow2_0, Rmult_1_r in H. done.
Qed.

Lemma correctly_rounded_ge d x c :
  correctly_rounded d x → (c ≤ 2 ^ 52)%Z → IZR c <= x → IZR c <= d2r d.
Proof.
  intros (a & b & e & Ha & Hb & -> & Hr) Hc.
  pose proof (rounds_ge_dyadic a b e d Ha Hb Hr c 0 Hc) as H.
  rewrite pow2_0, Rmult_1_r in H. done.
Qed.

(** A value of at most 52 bits is not changed by rounding. *)
Lemma correctly_rounded_exact d c j :
  correctly_rounded d (IZR c * pow2 j) → (0 < c ≤ 2 ^ 52)%Z → d2r d = IZR c * pow2 j.
Proof.
  intros (a & b & e & Ha & Hb & E & Hr) Hc. apply Rle_antisym.
  - apply (rounds_le_dyadic a b e); lra || done.
  - apply (rounds_ge_dyadic a b e); lra || lia || done.
Qed.

Lemma pos_double_value d : pos_double d → 0 < d2r d.
Proof.
  intros (m & e & ->). simpl. apply Rmult_lt_0_compat; [|apply pow2_pos].
  by apply (IZR_lt 0).
Qed.

(** The magnitude of a mantissa and exponent from their value. *)
Lemma magnitude m e lo hi : pow2 lo <= IZR (Z.pos m) * pow2 e <= pow2 hi →
  (lo < Z.pos (digits2_pos m) + e ≤ hi + 1)%Z.
Proof.
  intros [H1 H2]. pose proof (digits2_bound m) as [H3 H4].
  set (n := Z.pos (digits2_pos m)) in *. assert (0 < n)%Z by lia.
  apply IZR_le in H3. apply IZR_lt in H4. rewrite <-!pow2_IZR in H3, H4 by lia.
  pose proof (pow2_pos e).
  assert (pow2 (n - 1 + e) <= IZR (Z.pos m) * pow2 e) by (rewrite pow2_add; nra).
  assert (IZR (Z.pos m) * pow2 e < pow2 (n + e)) by (rewrite pow2_add; nra).
  split.
  - apply (pow2_lt_inv lo (n + e)). lra.
  - destruct (Z_lt_le_dec (hi + 1) (n + e)); [|lia].
    assert (pow2 (hi + 1) <= pow2 (n - 1 + e)) as Hp by (apply pow2_le; lia).
    rewrite pow2_add in Hp. change (pow2 1) with (2 * 1) in Hp.
    pose proof (pow2_pos hi). lra.
Qed.

Lemma dmul_correct x y : pos_double x → pos_double y →
  pow2 (-900) <= d2r x * d2r y <= pow2 800 →
  correctly_rounded (dmul x y) (d2r x * d2r y).
Proof.
  intros (mx & ex & ->) (my & ey & ->) Hr. simpl in Hr |- *.
  set (m := (mx * my)%positive).
  assert (IZR (Z.pos mx) * pow2 ex * (IZR (Z.pos my) * pow2 ey)
          = IZR (Z.pos m) * pow2 (ex + ey)) as E.
  { unfold m. rewrite Pos2Z.inj_mul, mult_IZR, pow2_add. lra. }
  rewrite E in *. apply magnitude in Hr.
  exists (Z.pos m), 1%Z, (ex + ey)%Z. split; [done|]. split; [done|]. split; [lra|].
  apply binary_round_aux_spec; [simpl; lia|by left|lia].
Qed.

Lemma located_div a b : (0 < b)%Z → (0 ≤ a)%Z →
  located a b (shr_record_of_loc (a / b) (new_location b (a mod b))).
Proof.
  intros Hb Ha. pose proof (Z.div_mod a b ltac:(lia)) as E.
  pose proof (Z.mod_pos_bound a b Hb) as Hm.
  assert (0 ≤ a / b)%Z by (apply Z.div_pos; lia).
  set (q := (a / b)%Z) in *. set (r := (a mod b)%Z) in *.
  unfold new_location, new_location_even, new_location_odd.
  destruct (Z.even b) eqn:Ev.
  - destruct (Z.eqb_spec r 0); simpl; [lia|].
    destruct (Z.compare_spec (2 * r) b); simpl; lia.
  - assert (Z.odd b = true) as Ho by (by rewrite <-Z.negb_even, Ev).
    apply Z.odd_spec in Ho as [c Hc].
    destruct (Z.eqb_spec r 0); simpl; [lia|].
    destruct (Z.compare_spec (2 * r + 1) b); simpl; lia.
Qed.

Lemma div_digits a m b : (0 < a)%Z →
  (2 ^ (Z.pos (digits2_pos b) + 52) ≤ a)%Z → (a / Z.pos b = Z.pos m)%Z →
  (53 ≤ Z.pos (digits2_pos m))%Z.
Proof.
  intros Ha Hb E. pose proof (digits2_bound b) as [_ Hb2].
  pose proof (digits2_bound m) as [_ Hm].
  destruct (Z_lt_le_dec (Z.pos (digits2_pos m)) 53) as [Hlt|]; [|done]. exfalso.
  assert (2 ^ Z.pos (digits2_pos m) ≤ 2 ^ 52)%Z by (apply Z.pow_le_mono_r; lia).
  rewrite Z.pow_add_r in Hb by lia.
  assert (2 ^ 52 ≤ a / Z.pos b)%Z; [|lia].
  apply Z.div_le_lower_bound; [lia|]. nia.
Qed.

Lemma ddiv_correct x y : pos_double x → pos_double y →
  pow2 (-400) <= d2r x / d2r y <= pow2 400 →
  correctly_rounded (ddiv x y) (d2r x / d2r y).
Proof.
  intros (m1 & e1 & ->) (m2 & e2 & ->) Hr.
  pose proof (digits2_bound m1) as [D1 D1']. pose proof (digits2_bound m2) as [D2 D2'].
  unfold ddiv, SFdiv, SFdiv_core_binary. cbn [Zdigits2].
  set (d1 := Z.pos (digits2_pos m1)) in *. set (d2 := Z.pos (digits2_pos m2)) in *.
  unfold d2r, cond_Zopp in *.
  assert (Hsub : pow2 (e1 - e2) = pow2 e1 / pow2 e2).
  { replace (e1 - e2)%Z with (e1 + - e2)%Z by lia. rewrite pow2_add, pow2_opp. done. }
  assert (HR : IZR (Z.pos m1) * pow2 e1 / (IZR (Z.pos m2) * pow2 e2)
    = IZR (Z.pos m1) / IZR (Z.pos m2) * pow2 (e1 - e2)).
  { rewrite Hsub. pose proof (pow2_pos e2). field. split; [lra|by apply not_0_IZR]. }
  rewrite HR in *. clear HR Hsub.
  assert (0 < IZR (Z.pos m2)) as Hm2 by (by apply (IZR_lt 0)).
  (* magnitude of the quotient *)
  assert (-402 ≤ d1 - d2 + (e1 - e2) ≤ 403)%Z as Hmag.
  { apply IZR_le in D1, D2. apply IZR_lt in D1', D2'.
    rewrite <-!pow2_IZR in * by lia. pose proof (pow2_pos (e1 - e2)) as Hp.
    destruct Hr as [Hr1 Hr2].
    apply (Rmult_le_compat_r (IZR (Z.pos m2))) in Hr1, Hr2; [|lra|lra].
    replace (IZR (Z.pos m1) / IZR (Z.pos m2) * pow2 (e1 - e2) * IZR (Z.pos m2))
      with (IZR (Z.pos m1) * pow2 (e1 - e2)) in * by (field; lra).
    pose proof (pow2_pos 400). pose proof (pow2_pos (-400)). split.
    - assert (pow2 (-400 + (d2 - 1)) < pow2 (d1 + (e1 - e2))) as Hx%pow2_lt_inv; [|lia].
      rewrite !pow2_add in *. nra.
    - assert (pow2 (d1 - 1 + (e1 - e2)) < pow2 (400 + d2)) as Hx%pow2_lt_inv; [|lia].
      rewrite !pow2_add in *. nra. }
  rewrite fexp_normal by lia.
  set (e' := Z.min (d1 + e1 - (d2 + e2) - 53) (e1 - e2)).
  set (s := (e1 - e2 - e')%Z). assert (0 ≤ s)%Z as Hs by lia.
  assert ((match s with Z0 => Z.pos m1 | Z.pos _ => Z.shiftl (Z.pos m1) s | Z.neg _ => 0%Z end)
    = Z.pos m1 * 2 ^ s)%Z as ->.
  { destruct s; [lia|by rewrite Z.shiftl_mul_pow2|lia]. }
  set (a := (Z.pos m1 * 2 ^ s)%Z).
  assert (2 ^ (d2 + 52) ≤ a)%Z as Ha.
  { transitivity (2 ^ (d1 - 1) * 2 ^ s)%Z; [|unfold a; nia].
    rewrite <-Z.pow_add_r by lia. apply Z.pow_le_mono_r; lia. }
  assert (0 < a)%Z as Ha0 by (pose proof (Z.pow_pos_nonneg 2 (d2 + 52)); lia).
  pose proof (located_div a (Z.pos m2) ltac:(lia) ltac:(lia)) as Hloc.
  pose proof (Z_div_mod a (Z.pos m2) ltac:(lia)) as Hdm.
  unfold Z.modulo, Z.div in Hloc. destruct (Z.div_eucl a (Z.pos m2)) as [q r] eqn:Hdiv.
  assert (a / Z.pos m2 = q)%Z as Eq by (unfold Z.div; by rewrite Hdiv).
  assert (2 ^ 52 ≤ q)%Z as Hq.
  { rewrite <-Eq. apply Z.div_le_lower_bound; [lia|].
    rewrite Z.pow_add_r in Ha by lia. nia. }
  destruct q as [|q|q]; [lia| |lia].
  assert (IZR (Z.pos m1) / IZR (Z.pos m2) * pow2 (e1 - e2) = IZR a / IZR (Z.pos m2) * pow2 e') as Ex.
  { unfold a. rewrite mult_IZR, <-pow2_IZR by lia.
    replace (e1 - e2)%Z with (s + e')%Z by lia. rewrite pow2_add. field. lra. }
  exists a, (Z.pos m2), e'. rewrite Ex in *. repeat (split; [done || lia|]).
  apply binary_round_aux_spec; [done| |].
  - right. by apply (div_digits a q m2).
  - pose proof (pow2_pos e') as He'.
    assert (IZR (Z.pos q) <= IZR a / IZR (Z.pos m2) < 2 * IZR (Z.pos q)) as [Hq1 Hq2].
    { assert (IZR (Z.pos q) * IZR (Z.pos m2) <= IZR a < 2 * IZR (Z.pos q) * IZR (Z.pos m2)).
      { rewrite <-!mult_IZR. split; [apply IZR_le; nia|apply IZR_lt; nia]. }
      split; [apply Rmult_le_reg_r with (IZR (Z.pos m2))|apply Rmult_lt_reg_r with (IZR (Z.pos m2))];
        try lra; unfold Rdiv; rewrite Rmult_assoc, Rinv_l; lra. }
    assert (pow2 (-401) <= IZR (Z.pos q) * pow2 e' <= pow2 400) as Hm%magnitude; [|lia].
    replace (-401)%Z with (-400 + -1)%Z by lia. rewrite pow2_add.
    change (pow2 (-1)) with (/ (2 * 1)). split; nra.
Qed.

Lemma double_of_N_small n : (0 < n ≤ 2 ^ 52)%N →
  pos_double (double_of_N n) ∧ d2r (double_of_N n) = IZR (Z.of_N n).
Proof.
  intros Hn. destruct n as [|p]; [lia|]. unfold double_of_N. cbn [Z.of_N binary_normalize].
  unfold binary_round, shl_align. pose proof (digits2_bound p) as [D D'].
  set (d := Z.pos (digits2_pos p)) in *.
  assert (1 ≤ d ≤ 53)%Z as Hd.
  { split; [lia|]. destruct (Z_lt_le_dec 53 d); [|done].
    assert (2 ^ 53 ≤ 2 ^ (d - 1))%Z by (apply Z.pow_le_mono_r; lia). lia. }
  rewrite fexp_normal by lia.
  replace (d + 0 - 53 - 0)%Z with (d - 53)%Z by lia.
  assert (∃ m e, (match d - 53 with
     | Z.neg d0 => (Pos.iter xO p d0, d + 0 - 53) | _ => (p, 0) end = (m, e) ∧
     e = d - 53 ∧ Z.pos m = Z.pos p * 2 ^ (53 - d))%Z) as (m & e & -> & -> & Hm).
  { destruct (d - 53)%Z as [|k|k] eqn:Ek; [|lia|].
    - exists p, 0%Z. replace (53 - d)%Z with 0%Z by lia. simpl. split; [done|]. lia.
    - eexists _, _. split; [done|]. split; [lia|].
      replace (53 - d)%Z with (Z.pos k) by lia. clear.
      rewrite Z.mul_comm. induction k as [|k IH] using Pos.peano_ind; [done|].
      rewrite Pos.iter_succ, Pos2Z.inj_xO, IH, Pos2Z.inj_succ, Z.pow_succ_r by lia. lia. }
  assert (Z.pos (digits2_pos m) = 53%Z) as Hm53.
  { apply digits2_unique; [lia|]. rewrite Hm.
    replace (2 ^ (53 - 1))%Z with (2 ^ (d - 1) * 2 ^ (53 - d))%Z
      by (rewrite <-Z.pow_add_r by lia; f_equal; lia).
    replace (2 ^ 53)%Z with (2 ^ d * 2 ^ (53 - d))%Z
      by (rewrite <-Z.pow_add_r by lia; f_equal; lia).
    assert (0 < 2 ^ (53 - d))%Z by (apply Z.pow_pos_nonneg; lia). nia. }
  assert (correctly_rounded
    (binary_round_aux prec64 emax64 false (Z.pos m) (d - 53) loc_Exact) (IZR (Z.pos p))) as Hc.
  { exists (Z.pos m), 1%Z, (d - 53)%Z. split; [done|]. split; [done|]. split.
    - rewrite Hm, mult_IZR, <-pow2_IZR by lia. unfold Rdiv.
      rewrite Rinv_1, Rmult_1_r, Rmult_assoc, <-pow2_add.
      replace (53 - d + (d - 53))%Z with 0%Z by lia. rewrite pow2_0. lra.
    - apply binary_round_aux_spec; [simpl; lia|by left|lia]. }
  split; [by eapply correctly_rounded_pos|]. apply Rle_antisym.
  - apply (correctly_rounded_le _ _ _ Hc); [lia|lra].
  - apply (correctly_rounded_ge _ _ _ Hc); [lia|lra].
Qed.

Lemma ceil_Z_spec d : pos_double d →
  ∃ z, ceil_Z d = Some z ∧ IZR z - 1 < d2r d <= IZR z.
Proof.
  intros (m & e & ->). unfold ceil_Z, d2r, cond_Zopp. eexists. split; [done|].
  destruct (Z.leb_spec 0 e).
  - rewrite pow2_IZR, <-mult_IZR by done. lra.
  - assert (0 < 2 ^ (- e))%Z as HP by (apply Z.pow_pos_nonneg; lia).
    set (P := (2 ^ (- e))%Z) in *. set (q := (- Z.pos m / P)%Z).
    assert (P * q ≤ - Z.pos m < P * q + P)%Z as Hq.
    { pose proof (Z.div_mod (- Z.pos m) P ltac:(lia)).
      pose proof (Z.mod_pos_bound (- Z.pos m) P HP). unfold q. lia. }
    replace e with (- - e)%Z by lia. rewrite pow2_opp, (pow2_IZR (- e)) by lia. fold P.
    apply (IZR_lt 0) in HP. rewrite opp_IZR.
    destruct Hq as [H1 H2]. apply IZR_le in H1. apply IZR_lt in H2.
    rewrite plus_IZR in H2. rewrite mult_IZR, opp_IZR in *.
    assert (IZR (Z.pos m) * / IZR P * IZR P = IZR (Z.pos m)) as E by (field; lra).
    split; [apply Rmult_lt_reg_r with (IZR P)|apply Rmult_le_reg_r with (IZR P)]; lra.
Qed.

Lemma trunc_Z_spec d : pos_double d →
  ∃ z, trunc_Z d = Some z ∧ IZR z <= d2r d < IZR z + 1.
Proof.
  intros (m & e & ->). unfold trunc_Z, d2r, cond_Zopp. eexists. split; [done|].
  destruct (Z.leb_spec 0 e).
  - rewrite pow2_IZR, <-mult_IZR by done. lra.
  - assert (0 < 2 ^ (- e))%Z as HP by (apply Z.pow_pos_nonneg; lia).
    set (P := (2 ^ (- e))%Z) in *. set (q := (Z.pos m / P)%Z).
    assert (P * q ≤ Z.pos m < P * q + P)%Z as Hq.
    { pose proof (Z.div_mod (Z.pos m) P ltac:(lia)).
      pose proof (Z.mod_pos_bound (Z.pos m) P HP). unfold q. lia. }
    replace e with (- - e)%Z by lia. rewrite pow2_opp, (pow2_IZR (- e)) by lia. fold P.
    apply (IZR_lt 0) in HP.
    destruct Hq as [H1 H2]. apply IZR_le in H1. apply IZR_lt in H2.
    rewrite plus_IZR in H2. rewrite mult_IZR in *.
    assert (IZR (Z.pos m) * / IZR P * IZR P = IZR (Z.pos m)) as E by (field; lra).
    split; [apply Rmult_le_reg_r with (IZR P)|apply Rmult_lt_reg_r with (IZR P)]; lra.
Qed.
