(* ===== verification/Partition.v ===== *)
(** Division of the vertices between the threads of a parallel region
    ([get_ith_partition] and [get_partition_idx] of src/cc_sketch_alg.cpp).

    The bounds are computed in [double]: this file proves how far they can be
    from the exact division of [\[0, length)], that they are exact when
    [length / divisions] has a [double] (in particular for a number of threads
    that divides the length or is a power of two), and that they are not in
    general. *)
From Stdlib Require Import Reals Psatz.
From Stdlib Require Import Floats.SpecFloat.
From S2P Require Import Prelude Float64.

(** * Definitions *)

Definition get_ith_partition (length i divisions : N) : outcome (N * N) :=
  let div_factor := ddiv (double_of_N length) (double_of_N divisions) in
  first ← to_unsigned 32 (ceil_Z (dmul div_factor (double_of_N i)));
  second ← to_unsigned 32 (ceil_Z (dmul div_factor (double_of_N (u64 (i + 1)))));
  mret (first, second).

Definition get_partition_idx (length idx divisions : N) : outcome N :=
  let div_factor := ddiv (double_of_N length) (double_of_N divisions) in
  to_unsigned 64 (trunc_Z (ddiv (double_of_N idx) div_factor)).

(** The exact bounds: [ceil(length * i / divisions)]. *)
Definition exact_bound (length i divisions : N) : N :=
  ((length * i + (divisions - 1)) / divisions)%N.

(** One bound of a partition, as the code computes it. *)
Definition partition_bound (length i divisions : N) : outcome N :=
  to_unsigned 32 (ceil_Z (dmul (ddiv (double_of_N length) (double_of_N divisions))
                               (double_of_N i))).

Lemma get_ith_partition_bounds n i T : (i < 2 ^ 64 - 1)%N →
  get_ith_partition n i T = s ← partition_bound n i T; e ← partition_bound n (i + 1) T; mret (s, e).
Proof. intros Hi. unfold get_ith_partition, partition_bound. by rewrite wrap_small by lia. Qed.

(** * Error of the bounds *)

Open Scope R_scope.

Definition rN (n : N) : R := IZR (Z.of_N n).

Lemma Rabs_bounds x y : Rabs x <= y → - y <= x <= y.
Proof. intros H. unfold Rabs in H. destruct (Rcase_abs x); lra. Qed.

Lemma pow2_m52 : pow2 (-52) = / 4503599627370496.
Proof. change (-52)%Z with (- (52))%Z. rewrite pow2_opp, pow2_IZR by lia. done. Qed.

Lemma quotient_range x y : 1 <= x <= 18446744073709551616 → 1 <= y <= 18446744073709551616 →
  / 18446744073709551616 <= x / y <= 18446744073709551616.
Proof.
  intros Hx Hy. split.
  - apply Rmult_le_reg_r with y; [lra|]. unfold Rdiv. rewrite Rmult_assoc, Rinv_l by lra.
    apply Rmult_le_reg_l with 18446744073709551616; [lra|].
    rewrite <-Rmult_assoc, Rinv_r by lra. nra.
  - apply Rmult_le_reg_r with y; [lra|]. unfold Rdiv. rewrite Rmult_assoc, Rinv_l by lra. nra.
Qed.

Lemma pow2_wide : pow2 (-400) <= / 18446744073709551616 ∧ 18446744073709551616 <= pow2 400
  ∧ pow2 (-900) <= / 18446744073709551616 ∧ 18446744073709551616 <= pow2 800.
Proof.
  assert (pow2 64 = 18446744073709551616) as E by (by rewrite pow2_IZR by lia).
  rewrite <-E, <-pow2_opp. repeat split; apply pow2_le; lia.
Qed.

Section Bounds.
Context (n T : N) (Hn : (0 < n < 2 ^ 32 - 1)%N) (HT : (0 < T < 2 ^ 16)%N).

Let rn : R := rN n.
Let rT : R := rN T.

Lemma rn_bounds : 1 <= rn <= 4294967295.
Proof using n T Hn HT. unfold rn, rN. split; [apply (IZR_le 1)|apply (IZR_le _ 4294967295)]; lia. Qed.

Lemma rT_bounds : 1 <= rT <= 65535.
Proof using n T Hn HT. unfold rT, rN. split; [apply (IZR_le 1)|apply (IZR_le _ 65535)]; lia. Qed.

(** [div_factor] is the correctly rounded quotient. *)
Lemma div_factor_correct :
  correctly_rounded (ddiv (double_of_N n) (double_of_N T)) (rn / rT).
Proof using n T Hn HT.
  destruct (double_of_N_small n) as [Pn Vn]; [lia|].
  destruct (double_of_N_small T) as [PT VT]; [lia|].
  pose proof rn_bounds. pose proof rT_bounds. pose proof pow2_wide.
  pose proof (quotient_range rn rT). unfold rn, rT, rN in *.
  rewrite <-Vn, <-VT in *. apply ddiv_correct; [done|done|lra].
Qed.

Lemma div_factor_error :
  Rabs (d2r (ddiv (double_of_N n) (double_of_N T)) - rn / rT) <= rn / rT * / 4503599627370496.
Proof using n T Hn HT.
  pose proof (correctly_rounded_error _ _ div_factor_correct) as H. by rewrite pow2_m52 in H.
Qed.

Let q : R := d2r (ddiv (double_of_N n) (double_of_N T)).

Lemma quot_bounds : / 65535 <= rn / rT <= 4294967295.
Proof using n T Hn HT.
  pose proof rn_bounds. pose proof rT_bounds. split.
  - apply Rmult_le_reg_r with rT; [lra|]. unfold Rdiv. rewrite Rmult_assoc, Rinv_l by lra. nra.
  - apply Rmult_le_reg_r with rT; [lra|]. unfold Rdiv. rewrite Rmult_assoc, Rinv_l by lra. nra.
Qed.

(** The product whose ceiling is the bound, for [i >= 1]. *)
Lemma product_correct (i : N) : (0 < i ≤ T)%N →
  correctly_rounded (dmul (ddiv (double_of_N n) (double_of_N T)) (double_of_N i)) (q * rN i).
Proof using n T Hn HT.
  intros Hi. destruct (double_of_N_small i) as [Pi Vi]; [lia|].
  pose proof (correctly_rounded_pos _ _ div_factor_correct) as Pq.
  pose proof (pos_double_value _ Pq). pose proof div_factor_error as He. fold q in He.
  pose proof quot_bounds. pose proof pow2_wide. apply Rabs_bounds in He.
  assert (1 <= rN i <= 65535).
  { unfold rN. split; [apply (IZR_le 1)|apply (IZR_le _ 65535)]; lia. }
  assert (/ 65536 <= q <= 4294967296) as Hq by lra.
  assert (/ 18446744073709551616 <= q * rN i <= 18446744073709551616) by nra.
  unfold q, rN in *. rewrite <-Vi in *. apply dmul_correct; [done|done|lra].
Qed.

Lemma product_error (i : N) : (0 < i ≤ T)%N →
  Rabs (d2r (dmul (ddiv (double_of_N n) (double_of_N T)) (double_of_N i)) - rn * rN i / rT)
    <= / 131072.
Proof using n T Hn HT.
  intros Hi. pose proof (correctly_rounded_error _ _ (product_correct i Hi)) as H.
  rewrite pow2_m52 in H. set (r := d2r (dmul _ _)) in *.
  pose proof div_factor_error as He. fold q in He. pose proof quot_bounds as Hb.
  pose proof rn_bounds as Hrn. pose proof rT_bounds as HrT.
  set (x := rn / rT) in *.
  assert (rn * rN i / rT = x * rN i) as -> by (unfold x; field; lra).
  assert (1 <= rN i <= rT).
  { unfold rT, rN. split; [apply (IZR_le 1)|apply IZR_le]; lia. }
  assert (x * rN i <= 4294967295).
  { unfold x. apply Rmult_le_reg_r with rT; [lra|].
    replace (rn / rT * rN i * rT) with (rn * rN i) by (field; lra). nra. }
  apply Rabs_bounds in H, He. apply Rabs_le. nra.
Qed.

Lemma bound_zero : partition_bound n 0 T = Ok 0%N.
Proof using n T Hn HT.
  destruct (correctly_rounded_pos _ _ div_factor_correct) as (m & e & E).
  unfold partition_bound. by rewrite E.
Qed.

(** The integer [z] the ceiling of the product can be. *)
Lemma ceil_product i : (0 < i ≤ T)%N → ∃ z,
  ceil_Z (dmul (ddiv (double_of_N n) (double_of_N T)) (double_of_N i)) = Some z ∧
  (0 ≤ z ≤ Z.of_N n + 1)%Z ∧
  IZR z - 1 < d2r (dmul (ddiv (double_of_N n) (double_of_N T)) (double_of_N i)) <= IZR z.
Proof using n T Hn HT.
  intros Hi. pose proof (correctly_rounded_pos _ _ (product_correct i Hi)) as Pp.
  pose proof (pos_double_value _ Pp) as Vp. pose proof (product_error i Hi) as He.
  destruct (ceil_Z_spec _ Pp) as (z & -> & Hz). exists z. split; [done|].
  split; [|exact Hz]. apply Rabs_bounds in He. pose proof rn_bounds. pose proof rT_bounds.
  assert (rn * rN i / rT <= rn).
  { apply Rmult_le_reg_r with rT; [lra|].
    replace (rn * rN i / rT * rT) with (rn * rN i) by (field; lra).
    apply Rmult_le_compat_l; [lra|]. apply IZR_le. lia. }
  assert (-1 < z < Z.of_N n + 2)%Z; [|lia].
  split; apply lt_IZR; rewrite ?plus_IZR; unfold rn, rN in *; lra.
Qed.

Lemma exact_quotient i : rn * rN i / rT = IZR (Z.of_N (n * i)) / rT.
Proof using n T Hn HT.
  unfold rn, rN. by rewrite <-mult_IZR, <-N2Z.inj_mul.
Qed.

Lemma bound_spec (i : N) : (i ≤ T)%N → ∃ c, partition_bound n i T = Ok c ∧
  (c = exact_bound n i T ∨
   (0 < i ∧ (n * i) `mod` T = 0 ∧ c = exact_bound n i T + 1))%N.
Proof using n T Hn HT.
  intros Hi. destruct (decide (i = 0)%N) as [->|Hi0].
  { rewrite bound_zero. exists 0%N. split; [done|]. left. unfold exact_bound.
    rewrite N.mul_0_r, N.div_small; lia. }
  destruct (ceil_product i ltac:(lia)) as (z & Hc & Hz & Hz').
  pose proof (product_error i ltac:(lia)) as He. rewrite exact_quotient in He.
  unfold partition_bound. rewrite Hc. unfold to_unsigned.
  assert (((0 <=? z) && (z <? 2 ^ Z.of_N 32))%Z = true) as ->
    by (change (2 ^ Z.of_N 32)%Z with 4294967296%Z; lia).
  exists (Z.to_N z). split; [done|].
  set (r := d2r (dmul _ _)) in *. set (X := (n * i)%N) in *. clearbody r.
  apply Rabs_bounds in He. pose proof rT_bounds as HrT.
  assert (HX : (X = T * (X / T) + X mod T)%N) by (apply N.div_mod; lia).
  assert (Hm : (X mod T < T)%N) by (apply N.mod_lt; lia).
  set (Q := (X / T)%N) in *. set (m := (X mod T)%N) in *.
  assert (IZR (Z.of_N X) / rT = rN Q + rN m / rT) as EX.
  { transitivity ((rT * rN Q + rN m) / rT); [|field; lra].
    f_equal. unfold rT, rN. rewrite <-mult_IZR, <-plus_IZR. f_equal. lia. }
  rewrite EX in He. clear EX.
  destruct (decide (m = 0)%N) as [Em|Em].
  - assert (exact_bound n i T = Q) as ->.
    { unfold exact_bound. fold X. rewrite HX, Em, N.add_0_r, N.mul_comm, N.div_add_l by lia.
      rewrite N.div_small; lia. }
    replace (rN m / rT) with 0 in He by (rewrite Em; unfold rN; simpl; field; lra).
    assert (Z.of_N Q - 1 < z < Z.of_N Q + 2)%Z; [|lia].
    split; apply lt_IZR; rewrite ?plus_IZR, ?minus_IZR; unfold rN in *; lra.
  - assert (exact_bound n i T = Q + 1)%N as ->.
    { unfold exact_bound. fold X. rewrite HX.
      replace (T * Q + m + (T - 1))%N with ((Q + 1) * T + (m - 1))%N by lia.
      rewrite N.div_add_l by lia. rewrite N.div_small; lia. }
    assert (/ 65536 <= rN m / rT <= 1 - / 65536) as Hf.
    { assert (1 <= rN m <= rT - 1).
      { unfold rT, rN. rewrite <-minus_IZR. split; [apply (IZR_le 1)|apply IZR_le]; lia. }
      assert (rN m / rT * rT = rN m) by (field; lra).
      split; apply Rmult_le_reg_r with rT; lra || nra. }
    left. assert (Z.of_N Q < z < Z.of_N Q + 2)%Z; [|lia].
    split; apply lt_IZR; rewrite ?plus_IZR; unfold rN in *; lra.
Qed.

Context (Hexact : (∃ k, T = 2 ^ k)%N ∨ (n `mod` T = 0)%N).

Lemma div_factor_exact : q = rn / rT.
Proof using n T Hn HT Hexact.
  pose proof div_factor_correct as Hc. pose proof rT_bounds.
  destruct Hexact as [[k Hk]|Hd].
  - assert (rn / rT = IZR (Z.of_N n) * pow2 (- Z.of_N k)) as E.
    { unfold rT, rN. rewrite Hk, N2Z.inj_pow, pow2_opp, pow2_IZR by lia. done. }
    rewrite E in *. apply correctly_rounded_exact; [done|lia].
  - assert (rn / rT = IZR (Z.of_N (n / T)) * pow2 0) as E.
    { rewrite pow2_0, Rmult_1_r. apply Rmult_eq_reg_r with rT; [|lra].
      unfold Rdiv. rewrite Rmult_assoc, Rinv_l, Rmult_1_r by lra.
      unfold rT, rn, rN. rewrite <-mult_IZR. f_equal.
      pose proof (N.div_mod n T). lia. }
    assert (n / T ≤ n)%N as H1 by (apply N.Div0.div_le_upper_bound; nia).
    assert (0 < n / T)%N as H2.
    { apply N.Div0.div_exact in Hd. destruct (decide (n / T = 0)%N) as [E0|]; [|lia].
      rewrite E0, N.mul_0_r in Hd. lia. }
    rewrite E in *. apply correctly_rounded_exact; [done|].
    clear -Hn H1 H2. set (k := (n / T)%N) in *. clearbody k. lia.
Qed.

Lemma bound_exact i : (i ≤ T)%N → partition_bound n i T = Ok (exact_bound n i T).
Proof using n T Hn HT Hexact.
  intros Hi. destruct (bound_spec i Hi) as (c & Hc & [->|(H0 & Hm & Ec)]); [done|].
  exfalso. destruct (ceil_product i ltac:(lia)) as (z & Hz0 & Hz & Hz').
  pose proof (product_correct i ltac:(lia)) as Hp. pose proof rT_bounds.
  unfold partition_bound in Hc. rewrite Hz0 in Hc. unfold to_unsigned in Hc.
  destruct ((0 <=? z) && (z <? 2 ^ Z.of_N 32))%Z; [|done]. injection Hc as Hc.
  rewrite div_factor_exact in Hp.
  assert ((n * i = T * (n * i / T))%N) as HX by (pose proof (N.div_mod (n * i) T); lia).
  set (Q := (n * i / T)%N) in *.
  assert (exact_bound n i T = Q) as EQ.
  { unfold exact_bound. rewrite HX, N.mul_comm, N.div_add_l by lia. rewrite N.div_small; lia. }
  assert (0 < Q ≤ n)%N as HQ by nia.
  assert (rn / rT * rN i = IZR (Z.of_N Q) * pow2 0) as E.
  { rewrite pow2_0, Rmult_1_r. apply Rmult_eq_reg_r with rT; [|lra].
    replace (rn / rT * rN i * rT) with (rn * rN i) by (field; lra).
    unfold rT, rn, rN. rewrite <-!mult_IZR. f_equal. lia. }
  rewrite E in Hp. apply correctly_rounded_exact in Hp; [|lia].
  rewrite pow2_0, Rmult_1_r in Hp. rewrite Hp in Hz'.
  assert (z - 1 < Z.of_N Q ≤ z)%Z; [|lia].
  split; [apply lt_IZR|apply le_IZR]; rewrite ?minus_IZR; lra.
Qed.

(** [idx / div_factor] truncates to the exact integer quotient. *)
Lemma partition_idx_exact idx : (idx < n)%N →
  get_partition_idx n idx T = Ok (idx * T / n)%N.
Proof using n T Hn HT Hexact.
  intros Hidx. unfold get_partition_idx.
  pose proof div_factor_exact as Hq. pose proof rn_bounds as Hrn. pose proof rT_bounds as HrT.
  pose proof quot_bounds as Hqb. pose proof (correctly_rounded_pos _ _ div_factor_correct) as Pq.
  destruct (decide (idx = 0)%N) as [->|Hi0].
  { destruct Pq as (m & e & ->). cbn -[N.div]. by rewrite N.Div0.div_0_l. }
  destruct (double_of_N_small idx) as [Pi Vi]; [lia|].
  assert (1 <= rN idx <= rn - 1) as Hri.
  { unfold rn, rN. rewrite <-minus_IZR. split; [apply (IZR_le 1)|apply IZR_le]; lia. }
  assert (rN idx / (rn / rT) = rN idx * rT / rn) as Ediv by (field; lra).
  assert (/ 4294967295 <= rN idx * rT / rn <= 65535) as Hrange.
  { split; apply Rmult_le_reg_r with rn; try lra; unfold Rdiv;
      rewrite Rmult_assoc, Rinv_l by lra; nra. }
  assert (correctly_rounded (ddiv (double_of_N idx) (ddiv (double_of_N n) (double_of_N T)))
    (rN idx * rT / rn)) as Hc.
  { rewrite <-Ediv, <-Hq. unfold q, rN. rewrite <-Vi. apply ddiv_correct; [done|done|].
    fold q. rewrite Hq, Vi. fold (rN idx). rewrite Ediv. pose proof pow2_wide. lra. }
  destruct (trunc_Z_spec _ (correctly_rounded_pos _ _ Hc)) as (z & -> & Hz).
  pose proof (correctly_rounded_error _ _ Hc) as He. rewrite pow2_m52 in He.
  apply Rabs_bounds in He. set (r := d2r (ddiv (double_of_N idx) _)) in *.
  set (Q := (idx * T / n)%N). set (m := ((idx * T) `mod` n)%N).
  assert (HX : (idx * T = n * Q + m)%N) by (apply N.div_mod; lia).
  assert (Hm : (m < n)%N) by (apply N.mod_lt; lia).
  assert (rN idx * rT / rn = rN Q + rN m / rn) as EX.
  { transitivity ((rn * rN Q + rN m) / rn); [|field; lra]. f_equal.
    unfold rT, rn, rN. rewrite <-!mult_IZR, <-plus_IZR. f_equal. lia. }
  assert (0 <= rN m <= rn - 1) as Hrm.
  { unfold rn, rN. rewrite <-minus_IZR. split; [apply (IZR_le 0)|apply IZR_le]; lia. }
  assert (0 <= rN m / rn <= 1 - / 4294967295) as Hf.
  { assert (rN m / rn * rn = rN m) by (field; lra).
    split; apply Rmult_le_reg_r with rn; lra || nra. }
  assert (Q < T)%N as HQ by (apply N.Div0.div_lt_upper_bound; nia).
  assert (rN Q <= r) as Hlow.
  { apply (correctly_rounded_ge _ _ (Z.of_N Q) Hc); [lia|]. rewrite EX. unfold rN in *. lra. }
  assert (z = Z.of_N Q) as ->.
  { assert (Z.of_N Q < z + 1 ∧ z < Z.of_N Q + 1)%Z; [|lia].
    split; apply lt_IZR; rewrite plus_IZR; unfold rN in *; lra. }
  unfold to_unsigned.
  assert (((0 <=? Z.of_N Q) && (Z.of_N Q <? 2 ^ Z.of_N 64))%Z = true) as ->.
  { change (2 ^ Z.of_N 64)%Z with 18446744073709551616%Z. clear -HQ HT. clearbody Q. lia. }
  f_equal. lia.
Qed.
End Bounds.

Close Scope R_scope.
Open Scope N_scope.

(** * The exact bounds *)

Lemma exact_bound_spec n i T c : 0 < T → exact_bound n i T ≤ c ↔ n * i ≤ c * T.
Proof.
  intros HT. unfold exact_bound.
  pose proof (N.div_mod (n * i + (T - 1)) T ltac:(lia)) as E.
  pose proof (N.mod_lt (n * i + (T - 1)) T ltac:(lia)) as Hm.
  set (Q := (n * i + (T - 1)) / T) in *. set (m := (n * i + (T - 1)) mod T) in *.
  split; intros H.
  - nia.
  - destruct (N.le_gt_cases Q c); [done|]. nia.
Qed.

Lemma exact_bound_0 n T : 0 < T → exact_bound n 0 T = 0.
Proof. intros HT. assert (exact_bound n 0 T ≤ 0); [|lia]. apply exact_bound_spec; lia. Qed.

Lemma exact_bound_last n T : 0 < T → exact_bound n T T = n.
Proof.
  intros HT. assert (exact_bound n T T ≤ n) by (apply exact_bound_spec; lia).
  destruct (N.eq_dec (exact_bound n T T) n) as [|Hne]; [done|].
  assert (exact_bound n T T ≤ n - 1) as H1 by lia. apply exact_bound_spec in H1; [|done]. nia.
Qed.

Lemma exact_bound_mono n i j T : 0 < T → i ≤ j → exact_bound n i T ≤ exact_bound n j T.
Proof.
  intros HT Hij. apply exact_bound_spec; [done|].
  pose proof (proj1 (exact_bound_spec n j T (exact_bound n j T) HT) ltac:(lia)). nia.
Qed.

Lemma exact_bound_strict n i T : 0 < T ≤ n → exact_bound n i T < exact_bound n (i + 1) T.
Proof.
  intros HT. apply N.nle_gt. intros H. apply exact_bound_spec in H; [|lia].
  set (c := exact_bound n i T) in *.
  assert (c ≤ c - 1 ∨ c = 0) as [Hc| ->]; [|lia|nia].
  destruct (N.eq_dec c 0); [by right|left].
  apply exact_bound_spec; [lia|]. nia.
Qed.

(** * The interface to the code that splits its work between threads *)

(** [length] vertices are split exactly between [divisions] threads. *)
Class ExactPartition (length divisions : N) : Prop := {
  ep_length : 0 < length < 2 ^ 32 - 1;
  ep_divisions : 0 < divisions < 2 ^ 16;
  ep_enough : divisions ≤ length;
  ep_exact : (∃ k, divisions = 2 ^ k) ∨ length mod divisions = 0
}.

#[export] Instance exact_partition_one length :
  TCEq (0 <? length) true → TCEq (length <? 2 ^ 32 - 1) true → ExactPartition length 1.
Proof.
  intros H1 H2. apply TCEq_eq, N.ltb_lt in H1. apply TCEq_eq, N.ltb_lt in H2.
  split; [done|lia|lia|]. left. by exists 0.
Qed.

Lemma exact_partition_bound length divisions i `{!ExactPartition length divisions} :
  i ≤ divisions → partition_bound length i divisions = Ok (exact_bound length i divisions).
Proof. apply bound_exact; [apply ep_length|apply ep_divisions|apply ep_exact]. Qed.

Lemma exact_partition length divisions i `{EP : !ExactPartition length divisions} :
  i < divisions → get_ith_partition length i divisions =
    Ok (exact_bound length i divisions, exact_bound length (i + 1) divisions).
Proof.
  intros Hi. pose proof (@ep_divisions _ _ EP).
  rewrite get_ith_partition_bounds by lia.
  rewrite (exact_partition_bound length divisions i), (exact_partition_bound length divisions (i + 1)) by lia. done.
Qed.

(** What the parallel regions rely on, however it is established: the bounds
    cut [\[0, length)] in non-empty parts that [get_partition_idx] finds. *)
Class Partitioned (length divisions : N) : Type := {
  pt_bound : N → N;
  pt_range : 0 < length < 2 ^ 32 ∧ 0 < divisions < 2 ^ 32;
  pt_first : pt_bound 0 = 0;
  pt_last : pt_bound divisions = length;
  pt_lt i : i < divisions → pt_bound i < pt_bound (i + 1);
  pt_get i : i < divisions → get_ith_partition length i divisions = Ok (pt_bound i, pt_bound (i + 1));
  pt_idx idx : idx < length → ∃ t, get_partition_idx length idx divisions = Ok t ∧ t < divisions ∧
    pt_bound t ≤ idx < pt_bound (t + 1)
}.

Lemma exact_partition_idx length divisions idx `{EP : !ExactPartition length divisions} :
  idx < length → ∃ t, get_partition_idx length idx divisions = Ok t ∧ t < divisions ∧
    exact_bound length t divisions ≤ idx < exact_bound length (t + 1) divisions.
Proof.
  pose proof (@ep_length _ _ EP) as Hn. pose proof (@ep_divisions _ _ EP) as HT.
  pose proof (@ep_enough _ _ EP) as HTn. intros Hidx.
  rewrite (partition_idx_exact length divisions) by (done || apply ep_exact).
  pose proof (N.div_mod (idx * divisions) length ltac:(lia)) as E.
  pose proof (N.mod_lt (idx * divisions) length ltac:(lia)) as Hm.
  set (t := idx * divisions / length) in *. set (m := (idx * divisions) mod length) in *.
  clearbody t m. assert (t < divisions) as Ht by nia. exists t. split; [done|]. split; [done|]. split.
  - apply exact_bound_spec; nia.
  - apply N.nle_gt. intros Hle. apply exact_bound_spec in Hle; [|lia]. nia.
Qed.

#[export] Instance exact_partitioned length divisions `{EP : !ExactPartition length divisions} :
  Partitioned length divisions.
Proof.
  pose proof (@ep_length _ _ EP) as Hn. pose proof (@ep_divisions _ _ EP) as HT.
  pose proof (@ep_enough _ _ EP) as HTn.
  refine {| pt_bound := λ i, exact_bound length i divisions |}.
  - lia.
  - apply exact_bound_0. lia.
  - apply exact_bound_last. lia.
  - intros i Hi. apply exact_bound_strict. lia.
  - intros i Hi. by apply exact_partition.
  - intros idx Hidx. by apply exact_partition_idx.
Defined.

Section Partitioned.
Context (n T : N) `{Partitioned n T}.

Lemma pt_mono i j : i ≤ j → j ≤ T → pt_bound i ≤ pt_bound j.
Proof using .
  intros Hij. induction j as [|j IH] using N.peano_ind; intros HT.
  - by replace i with 0 by lia.
  - destruct (decide (i = N.succ j)) as [->|]; [done|].
    etrans; [apply IH; lia|]. pose proof (pt_lt j ltac:(lia)). rewrite <-N.add_1_r. lia.
Qed.

Lemma pt_bound_le i : i ≤ T → pt_bound i ≤ n.
Proof using . intros Hi. rewrite <-pt_last at 2. by apply pt_mono. Qed.

(** The part an index is in is unique. *)
Lemma pt_unique t t' idx : t < T → t' < T →
  pt_bound t ≤ idx < pt_bound (t + 1) → pt_bound t' ≤ idx < pt_bound (t' + 1) → t = t'.
Proof using .
  intros Ht Ht' H1 H2. destruct (N.lt_trichotomy t t') as [Hlt|[?|Hlt]]; [|done|].
  - pose proof (pt_mono (t + 1) t' ltac:(lia) ltac:(lia)). lia.
  - pose proof (pt_mono (t' + 1) t ltac:(lia) ltac:(lia)). lia.
Qed.

Lemma pt_part_lt t : t < T → pt_bound t < n.
Proof using . intros Ht. pose proof (pt_lt t Ht). pose proof (pt_bound_le (t + 1) ltac:(lia)). lia. Qed.
End Partitioned.

(** * Properties *)

(** For any number of vertices and threads of realistic size the
    partitions start at 0, are contiguous and increasing, and the last one ends
    at [length] or, because of rounding, one past it. *)
Theorem partitions_contiguous length i divisions :
  0 < length < 2 ^ 32 - 1 → 0 < divisions < 2 ^ 16 → i < divisions →
  ∃ s e, get_ith_partition length i divisions = Ok (s, e) ∧ s ≤ e ∧
    (i = 0 → s = 0) ∧
    (i + 1 < divisions → ∃ e', get_ith_partition length (i + 1) divisions = Ok (e, e')) ∧
    (i + 1 = divisions → e = length ∨ e = length + 1).
Proof.
  intros Hn HT Hi. rewrite get_ith_partition_bounds by lia.
  destruct (bound_spec length divisions Hn HT i) as (s & Hs & Es); [lia|].
  destruct (bound_spec length divisions Hn HT (i + 1)) as (e & He & Ee); [lia|].
  rewrite Hs, He. exists s, e. split; [done|]. split; [|split; [|split]].
  - assert (exact_bound length i divisions ≤ exact_bound length (i + 1) divisions)
      by (apply exact_bound_mono; lia).
    destruct Es as [->|(_ & Hm & ->)]; [lia|].
    assert (exact_bound length i divisions < exact_bound length (i + 1) divisions); [|lia].
    apply N.nle_gt. intros Hle. apply exact_bound_spec in Hle; [|lia].
    apply N.Div0.div_exact in Hm.
    set (Q := length * i / divisions) in *. clearbody Q.
    assert (exact_bound length i divisions ≤ Q) as Hq by (apply exact_bound_spec; nia).
    nia.
  - intros ->. destruct Es as [->|]; [by rewrite exact_bound_0 by lia|lia].
  - intros Hi'. destruct (bound_spec length divisions Hn HT (i + 1 + 1)) as (e' & He' & _); [lia|].
    exists e'. rewrite get_ith_partition_bounds by lia. by rewrite He, He'.
  - intros E. rewrite E, exact_bound_last in Ee by lia. destruct Ee as [->|(_ & _ & ->)]; auto.
Qed.

Lemma partitions_contiguous_witness : ∃ s e, get_ith_partition 29 6 7 = Ok (s, e) ∧ s ≤ e.
Proof.
  destruct (partitions_contiguous 29 6 7) as (s & e & H & H' & _); [lia|lia|lia|eauto].
Defined.

(** C38. when [length / divisions] is representable (the number of threads is a
    power of two or divides the number of vertices), the partitions are
    non-empty, start at 0, end at [length], and [get_partition_idx] is the
    inverse of [get_ith_partition]: it returns the partition an index lies in. *)
Theorem partitions_exact length divisions idx `{EP : !ExactPartition length divisions} :
  (∀ i, i < divisions → ∃ s e, get_ith_partition length i divisions = Ok (s, e) ∧ s < e) ∧
  (∃ e, get_ith_partition length 0 divisions = Ok (0, e)) ∧
  (∃ s, get_ith_partition length (divisions - 1) divisions = Ok (s, length)) ∧
  (idx < length → ∃ t s e, get_partition_idx length idx divisions = Ok t ∧ t < divisions ∧
     get_ith_partition length t divisions = Ok (s, e) ∧ s ≤ idx < e).
Proof.
  pose proof (@ep_length _ _ EP) as Hn. pose proof (@ep_divisions _ _ EP) as HT.
  pose proof (@ep_enough _ _ EP) as HTn. split; [|split; [|split]].
  - intros i Hi. rewrite (exact_partition length divisions i) by done. eexists _, _. split; [done|].
    apply exact_bound_strict. lia.
  - rewrite (exact_partition length divisions 0) by lia. rewrite exact_bound_0 by lia. eauto.
  - rewrite (exact_partition length divisions (divisions - 1)) by lia. replace (divisions - 1 + 1) with divisions by lia.
    rewrite exact_bound_last by lia. eauto.
  - intros Hidx. destruct (exact_partition_idx length divisions idx Hidx) as (t & Et & Ht & Hr).
    exists t, (exact_bound length t divisions), (exact_bound length (t + 1) divisions).
    split; [done|]. split; [done|]. split; [by apply exact_partition|done].
Qed.

Lemma exact_partition_pow2 length k :
  0 < length < 2 ^ 32 - 1 → k < 16 → 2 ^ k ≤ length → ExactPartition length (2 ^ k).
Proof.
  intros Hn Hk Hle. split; [done| |done|left; eauto].
  split; [by apply N.neq_0_lt_0, N.pow_nonzero|]. apply N.pow_lt_mono_r; lia.
Qed.

Lemma partitions_exact_witness :
  ∃ t s e, get_partition_idx 29 17 8 = Ok t ∧ t < 8 ∧
    get_ith_partition 29 t 8 = Ok (s, e) ∧ s ≤ 17 < e.
Proof.
  destruct (partitions_exact 29 8 17 (EP := exact_partition_pow2 29 3 ltac:(lia) ltac:(lia) ltac:(lia)))
    as (_ & _ & _ & H). apply H. lia.
Defined.

(** Rounding breaks both functions for other thread counts. With 29
    vertices and 7 threads the last partition is [\[25, 30)], one past the end
    of the vertex range; with 18 vertices and 14 threads index 9 is in partition
    7 but [get_partition_idx] answers 6, so it is not the inverse of
    [get_ith_partition] that its comment promises. *)
Theorem partitions_inexact :
  get_ith_partition 29 6 7 = Ok (25, 30) ∧
  get_ith_partition 18 7 14 = Ok (9, 11) ∧ get_partition_idx 18 9 14 = Ok 6.
Proof. split; [|split]; vm_compute; reflexivity. Qed.
