(* ===== verification/Util.v ===== *)
(** The edge pairing functions and the conversions of src/util.cpp.

    An edge is sketched as one integer: [concat_pairing_fn] packs the two
    32-bit vertex ids of an undirected edge in 64 bits, smaller id first. *)
From S2P Require Import Prelude Float64.

Open Scope N_scope.

(** [Edge] of the stream library: the two endpoints. *)
Record Edge : Type := mkEdge { src : N; dst : N }.

#[export] Instance Edge_eq_dec : EqDecision Edge.
Proof. solve_decision. Defined.

(** [typedef uint32_t node_id_t], [typedef uint64_t edge_id_t]. *)
Definition num_bits : N := 32.
Definition is_node_id (i : N) : Prop := i < 2 ^ num_bits.

Definition double_to_ull (d epsilon : double) : outcome N :=
  to_unsigned 64 (trunc_Z (dadd d epsilon)).

Definition nondirectional_non_self_edge_pairing_fn (i j : N) : N :=
  let '(i, j) := if j <? i then (j, i) else (i, j) in
  let jm := usub 64 j 1 in
  let '(j, jm) := if N.land j 1 =? 0 then (u32 (N.shiftr j 1), jm) else (j, N.shiftr jm 1) in
  let j := u32 (u64 (j * jm)) in
  u32 (i + j).

Definition inv_nondir_non_self_edge_pairing_fn (idx : N) : outcome Edge :=
  let eidx := u64 (u64 (8 * idx) + 1) in
  eidx ← to_unsigned 64 (trunc_Z (dadd (dsqrt (double_of_N eidx)) (double_of_N 1)));
  let eidx := eidx / 2 in
  let j := eidx in
  let i := if N.land j 1 =? 0
    then usub 64 idx (u64 (N.shiftr j 1 * usub 64 j 1))
    else usub 64 idx (u64 (j * N.shiftr (usub 64 j 1) 1)) in
  mret (mkEdge (u32 i) (u32 j)).

Definition concat_pairing_fn (i j : N) : N :=
  let '(i, j) := if j <? i then (j, i) else (i, j) in
  N.lor (u64 (N.shiftl i num_bits)) j.

Definition inv_concat_pairing_fn (idx : N) : Edge :=
  let j := u32 (N.land idx 0xFFFFFFFF) in
  let i := u32 (N.shiftr idx num_bits) in
  mkEdge i j.

(** * Arithmetic reading of the packing *)

Lemma land_ones32 x : N.land x 0xFFFFFFFF = x mod 2 ^ 32.
Proof. change 0xFFFFFFFF with (N.ones 32). apply N.land_ones. Qed.

Lemma lor_shiftl_add i j : j < 2 ^ 32 → N.lor (N.shiftl i 32) j = i * 2 ^ 32 + j.
Proof.
  intros Hj. rewrite <-N.lxor_lor, <-N.add_nocarry_lxor, N.shiftl_mul_pow2; [done| |];
    apply N.bits_inj_0; intros n; rewrite N.land_spec.
  all: destruct (N.lt_ge_cases n 32) as [Hn|Hn];
    [rewrite N.shiftl_spec_low by done; done|].
  all: replace (N.testbit j n) with false; [by rewrite andb_false_r|].
  all: symmetry; destruct (decide (j = 0)) as [->|H0]; [apply N.bits_0|];
    apply N.bits_above_log2; apply N.log2_lt_pow2 in Hj; lia.
Qed.

Lemma concat_pairing_fn_eq i j : is_node_id i → is_node_id j →
  concat_pairing_fn i j = N.min i j * 2 ^ 32 + N.max i j.
Proof.
  unfold is_node_id, num_bits. intros Hi Hj. unfold concat_pairing_fn, num_bits.
  destruct (N.ltb_spec j i); rewrite wrap_small, lor_shiftl_add;
    rewrite ?N.shiftl_mul_pow2; lia.
Qed.

Lemma concat_pairing_fn_bound i j : is_node_id i → is_node_id j →
  concat_pairing_fn i j < 2 ^ 64.
Proof. intros Hi Hj. rewrite concat_pairing_fn_eq by done. unfold is_node_id, num_bits in *. lia. Qed.

Lemma concat_pairing_fn_comm i j : is_node_id i → is_node_id j →
  concat_pairing_fn i j = concat_pairing_fn j i.
Proof. intros Hi Hj. rewrite !concat_pairing_fn_eq by done. lia. Qed.

Lemma inv_concat_eq idx : idx < 2 ^ 64 →
  inv_concat_pairing_fn idx = mkEdge (idx / 2 ^ 32) (idx mod 2 ^ 32).
Proof.
  intros H. unfold inv_concat_pairing_fn, num_bits. rewrite land_ones32, N.shiftr_div_pow2.
  f_equal; apply wrap_small; [|by apply N.mod_lt]. apply N.Div0.div_lt_upper_bound. lia.
Qed.

Lemma inv_concat_concat i j : is_node_id i → is_node_id j →
  inv_concat_pairing_fn (concat_pairing_fn i j) = mkEdge (N.min i j) (N.max i j).
Proof.
  intros Hi Hj. rewrite inv_concat_eq by (by apply concat_pairing_fn_bound).
  rewrite concat_pairing_fn_eq by done. unfold is_node_id, num_bits in *.
  f_equal.
  - rewrite N.div_add_l, N.div_small by lia. lia.
  - rewrite N.add_comm, N.Div0.mod_add. apply N.mod_small. lia.
Qed.

Lemma concat_inv_concat idx : idx < 2 ^ 64 →
  src (inv_concat_pairing_fn idx) ≤ dst (inv_concat_pairing_fn idx) →
  concat_pairing_fn (src (inv_concat_pairing_fn idx)) (dst (inv_concat_pairing_fn idx)) = idx.
Proof.
  intros H. rewrite inv_concat_eq by done. simpl. intros Hle.
  assert (idx / 2 ^ 32 < 2 ^ 32) by (apply N.Div0.div_lt_upper_bound; lia).
  assert (idx mod 2 ^ 32 < 2 ^ 32) by (by apply N.mod_lt).
  rewrite concat_pairing_fn_eq by done. rewrite N.min_l, N.max_r by done.
  rewrite N.mul_comm. symmetry. by apply N.div_mod.
Qed.

#[export] Hint Resolve concat_pairing_fn_bound : zeppelin.

(** * The triangular pairing *)

Lemma land_1_eqb j : (N.land j 1 =? 0) = N.even j.
Proof.
  change 1 with (N.ones 1). rewrite N.land_ones. change (2 ^ 1) with 2.
  destruct (N.even j) eqn:E.
  - apply N.even_spec in E as [k ->]. rewrite N.mul_comm, N.Div0.mod_mul. done.
  - assert (N.odd j = true) as Ho by (by rewrite <-N.negb_even, E).
    apply N.odd_spec in Ho as [k ->].
    rewrite N.add_comm, N.mul_comm, N.Div0.mod_add. done.
Qed.

Lemma half_product j : 0 < j →
  (if N.even j then N.shiftr j 1 * (j - 1) else j * N.shiftr (j - 1) 1) = j * (j - 1) / 2.
Proof.
  intros Hj. rewrite !N.shiftr_div_pow2. change (2 ^ 1) with 2. destruct (N.even j) eqn:E.
  - apply N.even_spec in E as [k ->]. rewrite (N.mul_comm 2 k), N.div_mul by lia.
    replace (k * 2 * (k * 2 - 1)) with (k * (k * 2 - 1) * 2) by lia. by rewrite N.div_mul.
  - assert (N.odd j = true) as Ho by (by rewrite <-N.negb_even, E).
    apply N.odd_spec in Ho as [k ->]. rewrite N.add_sub, (N.mul_comm 2 k), N.div_mul by lia.
    replace ((k * 2 + 1) * (k * 2)) with ((k * 2 + 1) * k * 2) by lia. by rewrite N.div_mul.
Qed.

Lemma triangle_wrapped i j : is_node_id i → is_node_id j → i < j →
  nondirectional_non_self_edge_pairing_fn i j = u32 (i + j * (j - 1) / 2) ∧
  nondirectional_non_self_edge_pairing_fn j i = u32 (i + j * (j - 1) / 2).
Proof.
  unfold is_node_id, num_bits. intros Hi Hj Hij.
  assert (nondirectional_non_self_edge_pairing_fn i j = u32 (i + j * (j - 1) / 2)) as Hm.
  { unfold nondirectional_non_self_edge_pairing_fn.
    destruct (N.ltb_spec j i); [lia|]. rewrite land_1_eqb, usub_small by lia.
    pose proof (half_product j ltac:(lia)) as Hp. rewrite <-Hp. clear Hp.
    assert (∀ x, x ≤ j → N.shiftr x 1 ≤ x) as Hshr.
    { intros x _. rewrite N.shiftr_div_pow2. apply N.Div0.div_le_upper_bound. lia. }
    pose proof (Hshr j ltac:(lia)). pose proof (Hshr (j - 1) ltac:(lia)).
    destruct (N.even j).
    - rewrite (wrap_small 32 (N.shiftr j 1)), (wrap_small 64) by nia.
      unfold wrap. by rewrite N.Div0.add_mod_idemp_r.
    - rewrite (wrap_small 64) by nia. unfold wrap. by rewrite N.Div0.add_mod_idemp_r. }
  split; [done|]. rewrite <-Hm. unfold nondirectional_non_self_edge_pairing_fn.
  destruct (N.ltb_spec i j), (N.ltb_spec j i); (lia || done).
Qed.

(** * Properties *)

(** C39. packing is symmetric in its arguments, fits 64 bits, and unpacking
    gives back the endpoints in order; unpacking then packing is the identity on
    every id whose halves are ordered. Hence packing is injective on undirected
    edges. *)
Theorem concat_pairing_roundtrip i j idx :
  is_node_id i → is_node_id j → idx < 2 ^ 64 →
  concat_pairing_fn i j = concat_pairing_fn j i ∧ concat_pairing_fn i j < 2 ^ 64 ∧
  inv_concat_pairing_fn (concat_pairing_fn i j) = mkEdge (N.min i j) (N.max i j) ∧
  (src (inv_concat_pairing_fn idx) ≤ dst (inv_concat_pairing_fn idx) →
   concat_pairing_fn (src (inv_concat_pairing_fn idx)) (dst (inv_concat_pairing_fn idx)) = idx).
Proof.
  intros Hi Hj Hidx. split; [by apply concat_pairing_fn_comm|].
  split; [by apply concat_pairing_fn_bound|].
  split; [by apply inv_concat_concat|by apply concat_inv_concat].
Qed.

Lemma concat_pairing_roundtrip_witness :
  inv_concat_pairing_fn (concat_pairing_fn 4294967295 7) = mkEdge 7 4294967295.
Proof. apply (concat_pairing_roundtrip 4294967295 7 0); reflexivity. Defined.

(** The triangular pairing computes [i + j*(j-1)/2] modulo 2^32, although
    its result type has 64 bits: the product is stored in a 32-bit variable.
    Below [j = 92682] nothing wraps; beyond, distinct edges collide. *)
Theorem triangle_pairing_wraps :
  (∀ i j, is_node_id i → is_node_id j → i < j →
     nondirectional_non_self_edge_pairing_fn i j = u32 (i + j * (j - 1) / 2)) ∧
  (∀ i j, i < j → j < 92682 →
     nondirectional_non_self_edge_pairing_fn i j = i + j * (j - 1) / 2) ∧
  nondirectional_non_self_edge_pairing_fn 0 92683
    = nondirectional_non_self_edge_pairing_fn 329 333.
Proof.
  split; [|split; [|by vm_compute]].
  - intros i j Hi Hj Hij. by apply triangle_wrapped.
  - intros i j Hij Hj. destruct (triangle_wrapped i j) as [-> _];
      [unfold is_node_id, num_bits; lia..|].
    assert (j * (j - 1) / 2 ≤ 92681 * 92680 / 2) by (apply N.Div0.div_le_mono; nia).
    apply wrap_small. change (92681 * 92680 / 2) with 4294837540 in *. lia.
Qed.
