(* ===== verification/XorSet.v ===== *)
(** Finite sets under symmetric difference, and sums of exponent-two groups
    over them.

    A graph stream toggles edges, and a sketch is a linear map over the field
    with two elements: the set of edges is the vector, the symmetric difference
    is the addition. This file holds that algebra. *)
From S2P Require Import Prelude.

Definition symdiff {A} `{Countable A} (X Y : gset A) : gset A := (X ∖ Y) ∪ (Y ∖ X).

Infix "△" := symdiff (at level 50, left associativity) : stdpp_scope.

Lemma elem_of_symdiff {A} `{Countable A} (X Y : gset A) x :
  x ∈ X △ Y ↔ (x ∈ X ∧ (x ∉ Y)) ∨ ((x ∉ X) ∧ x ∈ Y).
Proof. unfold symdiff. set_solver. Qed.

#[export] Instance set_unfold_symdiff {A} `{Countable A} (X Y : gset A) x P Q :
  SetUnfoldElemOf x X P → SetUnfoldElemOf x Y Q →
  SetUnfoldElemOf x (X △ Y) ((P ∧ ¬ Q) ∨ (¬ P ∧ Q)).
Proof. intros [HP] [HQ]. constructor. by rewrite elem_of_symdiff, HP, HQ. Qed.

Section Symdiff.
Context {A : Type} `{Countable A}.
Implicit Types X Y Z : gset A.

#[export] Instance symdiff_comm : Comm (=) (symdiff (A := A)).
Proof. intros X Y. apply set_eq. intros x. rewrite !elem_of_symdiff. tauto. Qed.

#[export] Instance symdiff_assoc : Assoc (=) (symdiff (A := A)).
Proof.
  intros X Y Z. apply set_eq. intros x. rewrite !elem_of_symdiff.
  destruct (decide (x ∈ X)), (decide (x ∈ Y)), (decide (x ∈ Z)); tauto.
Qed.

#[export] Instance symdiff_empty_l : LeftId (=) (∅ : gset A) symdiff.
Proof. intros X. set_solver. Qed.

#[export] Instance symdiff_empty_r : RightId (=) (∅ : gset A) symdiff.
Proof. intros X. set_solver. Qed.

Lemma symdiff_diag X : X △ X = ∅.
Proof. set_solver. Qed.

Lemma symdiff_involutive X Y : X △ Y △ Y = X.
Proof. by rewrite <-(assoc symdiff), symdiff_diag, (right_id ∅ symdiff). Qed.

Lemma filter_symdiff (P : A → Prop) `{∀ x, Decision (P x)} X Y :
  filter P (X △ Y) = filter P X △ filter P Y.
Proof.
  apply set_eq. intros x. rewrite elem_of_symdiff, !elem_of_filter, elem_of_symdiff. tauto.
Qed.

Lemma filter_one (P : A → Prop) `{∀ x, Decision (P x)} x :
  filter P ({[ x ]} : gset A) = if decide (P x) then {[ x ]} else ∅.
Proof. apply set_eq. intros y. rewrite elem_of_filter. case_decide; set_solver. Qed.

Lemma filter_none (P : A → Prop) `{∀ x, Decision (P x)} : filter P (∅ : gset A) = ∅.
Proof. apply set_eq. intros y. rewrite elem_of_filter. set_solver. Qed.

(** The vector a stream of updates leads to: every update toggles its index. *)
Definition toggles (us : list A) : gset A := foldl (λ X u, X △ {[ u ]}) ∅ us.

Lemma toggles_snoc us u : toggles (us ++ [u]) = toggles us △ {[ u ]}.
Proof. unfold toggles. by rewrite foldl_app. Qed.

Lemma toggles_app us vs : toggles (us ++ vs) = toggles us △ toggles vs.
Proof.
  induction vs as [|v vs IH] using rev_ind.
  - rewrite app_nil_r. change (toggles []) with (∅ : gset A).
    by rewrite (right_id ∅ symdiff).
  - by rewrite (assoc (++)), !toggles_snoc, IH, (assoc symdiff).
Qed.

Lemma toggles_cons u us : toggles (u :: us) = {[ u ]} △ toggles us.
Proof.
  change (u :: us) with ([u] ++ us). rewrite toggles_app. f_equal.
  unfold toggles. simpl. by rewrite (left_id ∅ symdiff).
Qed.

(** Only the number of occurrences of each index counts, not the order. *)
Lemma toggles_perm us vs : us ≡ₚ vs → toggles us = toggles vs.
Proof.
  induction 1 as [|x us vs _ IH|x y us|us vs ws _ IH1 _ IH2].
  - done.
  - by rewrite !toggles_cons, IH.
  - rewrite !toggles_cons, !(assoc symdiff). by rewrite (comm symdiff {[ y ]}).
  - by rewrite IH1.
Qed.

Lemma toggles_cancel us x vs : toggles (us ++ x :: vs ++ [x]) = toggles (us ++ vs).
Proof.
  assert (us ++ x :: vs ++ [x] ≡ₚ (us ++ vs) ++ [x; x]) as E.
  { rewrite <-(app_assoc us). apply Permutation_app_head.
    rewrite Permutation_cons_append, <-app_assoc. done. }
  rewrite (toggles_perm _ _ E), toggles_app, !toggles_cons.
  change (toggles []) with (∅ : gset A).
  by rewrite (right_id ∅ symdiff {[ x ]}), symdiff_diag, (right_id ∅ symdiff).
Qed.

Lemma toggles_NoDup us : NoDup us → toggles us = list_to_set us.
Proof.
  induction 1 as [|x us Hx _ IH]; [done|]. rewrite toggles_cons, IH. simpl. apply set_eq. intros y.
  rewrite elem_of_symdiff, elem_of_union, elem_of_singleton, elem_of_list_to_set.
  destruct (decide (y = x)) as [->|]; naive_solver.
Qed.

Lemma toggles_filter (Q : A → Prop) `{∀ x, Decision (Q x)} us :
  toggles (filter Q us) = filter Q (toggles us).
Proof.
  induction us as [|u us IH] using rev_ind; [symmetry; apply filter_none|].
  rewrite filter_app, toggles_snoc, filter_symdiff, filter_one, <-IH, filter_cons, filter_nil.
  case_decide; [by rewrite toggles_snoc|]. by rewrite app_nil_r, (right_id ∅ symdiff).
Qed.
End Symdiff.

(** * Sums over a set in a group of exponent two *)

Section XorSum.
Context {A B : Type} `{Countable A} (op : B → B → B) (zero : B) (f : A → B).
Context `{!Comm (=) op, !Assoc (=) op, !LeftId (=) zero op}.
Context (op_nilpotent : ∀ b, op b b = zero).

Definition xor_sum (X : gset A) : B := set_fold (λ x acc, op (f x) acc) zero X.

Lemma xor_sum_empty : xor_sum ∅ = zero.
Proof using . apply set_fold_empty. Qed.

Lemma xor_sum_singleton x : xor_sum {[ x ]} = f x.
Proof using Comm0 LeftId0.
  unfold xor_sum. rewrite set_fold_singleton, (comm op). apply left_id, _.
Qed.

Let add (x : A) (acc : B) : B := op (f x) acc.

Lemma fold_add_union b (X Y : gset A) : X ## Y →
  set_fold add b (X ∪ Y) = set_fold add (set_fold add b X) Y.
Proof using Comm0 Assoc0.
  intros Hdisj. apply (set_fold_disj_union_strong (=)); [by intros ? ? ? ->| |done].
  intros x y b' _ _ _. unfold add. rewrite !(assoc op). by rewrite (comm op (f x)).
Qed.

Lemma fold_add_acc b c (X : gset A) : set_fold add (op b c) X = op b (set_fold add c X).
Proof using Comm0 Assoc0.
  apply (set_fold_comm_acc_strong (=) add (op b)); [by intros ? ? ? ->|].
  intros x y _. unfold add. rewrite !(assoc op). by rewrite (comm op (f x)).
Qed.

Lemma xor_sum_disj_union X Y : X ## Y → xor_sum (X ∪ Y) = op (xor_sum X) (xor_sum Y).
Proof using Comm0 Assoc0 LeftId0.
  intros Hdisj. unfold xor_sum. fold add. rewrite fold_add_union by done.
  rewrite <-fold_add_acc. f_equal. rewrite (comm op). by rewrite (left_id zero op).
Qed.

Lemma xor_sum_symdiff X Y : xor_sum (X △ Y) = op (xor_sum X) (xor_sum Y).
Proof using Comm0 Assoc0 LeftId0 op_nilpotent.
  assert (X = (X ∖ Y) ∪ (X ∩ Y)) as EX.
  { apply set_eq. intros x. destruct (decide (x ∈ Y)); set_solver. }
  assert (Y = (Y ∖ X) ∪ (X ∩ Y)) as EY.
  { apply set_eq. intros x. destruct (decide (x ∈ X)); set_solver. }
  transitivity (op (xor_sum ((X ∖ Y) ∪ (X ∩ Y))) (xor_sum ((Y ∖ X) ∪ (X ∩ Y)))).
  - unfold symdiff. rewrite !xor_sum_disj_union by set_solver.
    set (a := xor_sum (X ∖ Y)). set (b := xor_sum (Y ∖ X)). set (c := xor_sum (X ∩ Y)).
    rewrite (comm op b c), (assoc op (op a c)), <-(assoc op a c c), op_nilpotent.
    by rewrite (comm op a zero), (left_id zero op).
  - by rewrite <-EX, <-EY.
Qed.

Lemma xor_sum_toggle X x : xor_sum (X △ {[ x ]}) = op (xor_sum X) (f x).
Proof using Comm0 Assoc0 LeftId0 op_nilpotent.
  by rewrite xor_sum_symdiff, xor_sum_singleton.
Qed.
End XorSum.
