(* ===== verification/Platform.v ===== *)
(** What the sources take from outside src/: the widths of the vector types,
    the hash function, the binary logarithm, the build flags.

    [vec_t] and [vec_hash_t] are typedefs of the stream library's
    graph_zeppelin_common.h, [XXH3_64bits_withSeed] is xxHash, [log2] is libm;
    none of them is in this repository, so they are the fields of a class every
    component is parameterised by. [PlatformLaws] states what the code relies on. *)
From S2P Require Import Prelude Float64.

Open Scope N_scope.

(** * Object representation of integers (little endian) *)

Fixpoint le_bytes (n : nat) (x : N) : list N :=
  match n with
  | O => []
  | S n => x mod 256 :: le_bytes n (x / 256)
  end.

Fixpoint le_value (bs : list N) : N :=
  match bs with
  | [] => 0
  | b :: bs => b + 256 * le_value bs
  end.

Lemma length_le_bytes n x : length (le_bytes n x) = n.
Proof. revert x. induction n as [|n IH]; intros x; simpl; auto. Qed.

Lemma pow_bytes_succ n : 2 ^ (8 * N.of_nat (S n)) = 256 * 2 ^ (8 * N.of_nat n).
Proof.
  replace (8 * N.of_nat (S n)) with (8 + 8 * N.of_nat n) by lia. by rewrite N.pow_add_r.
Qed.

Lemma le_value_bytes n x : x < 2 ^ (8 * N.of_nat n) → le_value (le_bytes n x) = x.
Proof.
  revert x. induction n as [|n IH]; intros x Hx; simpl.
  - change (2 ^ (8 * N.of_nat 0)) with 1 in Hx. lia.
  - rewrite pow_bytes_succ in Hx. rewrite IH by (apply N.Div0.div_lt_upper_bound; lia).
    pose proof (N.div_mod x 256). lia.
Qed.

Lemma le_bytes_inj n x y : x < 2 ^ (8 * N.of_nat n) → y < 2 ^ (8 * N.of_nat n) →
  le_bytes n x = le_bytes n y → x = y.
Proof.
  intros Hx Hy E. by rewrite <-(le_value_bytes n x), <-(le_value_bytes n y), E.
Qed.

#[export] Hint Rewrite length_le_bytes : zeppelin.

(** * The platform *)

Class Platform : Type := {
  vec_bytes : nat;                              (** [sizeof(vec_t)] *)
  vec_hash_bytes : nat;                         (** [sizeof(vec_hash_t)] *)
  XXH3_64bits_withSeed : list N → N → N;        (** bytes hashed, seed *)
  log2 : double → double;                       (** libm *)
  L0_SAMPLING : bool;                           (** build flags of CMakeLists.txt *)
  NO_EAGER_DSU : bool;
  NDEBUG : bool
}.

Definition vec_bits `{Platform} : N := 8 * N.of_nat vec_bytes.
Definition vec_hash_bits `{Platform} : N := 8 * N.of_nat vec_hash_bytes.

(** A [vec_t] holds an edge id; a checksum has between 1 and 8 bytes; the hash
    returns 64 bits. *)
Class PlatformLaws (P : Platform) : Prop := {
  vec_bytes_8 : vec_bytes = 8%nat;
  vec_hash_bytes_range : (1 ≤ vec_hash_bytes ≤ 8)%nat;
  XXH3_range bs seed : XXH3_64bits_withSeed bs seed < 2 ^ 64
}.

(** [typedef uint64_t col_hash_t]. *)
Definition col_hash_bytes : N := 8.

Definition vec_hash `{Platform} := XXH3_64bits_withSeed.
Definition col_hash `{Platform} := XXH3_64bits_withSeed.

(** The bytes of a [vec_t] object. *)
Definition vec_object `{Platform} (x : N) : list N := le_bytes vec_bytes x.

(** A concrete platform for executions: 8-byte vectors and checksums, a
    multiplicative mixing of the bytes and the seed, and the integer logarithm
    on powers of two. *)
Definition mix (h x : N) : N :=
  let y := u64 (N.lxor h x * 0x9E3779B97F4A7C15) in
  N.lxor y (N.shiftr y 29).

Definition toy_hash (bs : list N) (seed : N) : N :=
  let x := le_value bs in
  u64 (mix (mix (u64 (seed + 0x165667B19E3779F9)) x) (u64 (x * x + seed))).

Definition toy_log2 (d : double) : double :=
  match trunc_Z d with
  | Some z => double_of_N (N.log2_up (Z.to_N z))
  | None => SpecFloat.S754_nan
  end.

Definition toy_platform (l0 no_eager ndebug : bool) : Platform := {|
  vec_bytes := 8; vec_hash_bytes := 8;
  XXH3_64bits_withSeed := toy_hash; log2 := toy_log2;
  L0_SAMPLING := l0; NO_EAGER_DSU := no_eager; NDEBUG := ndebug
|}.

#[export] Instance toy_platform_laws l0 no_eager ndebug :
  PlatformLaws (toy_platform l0 no_eager ndebug).
Proof.
  split; [done|simpl; lia|]. intros bs seed. unfold XXH3_64bits_withSeed, toy_platform.
  apply wrap_lt.
Qed.
