(* ===== verification/Bucket.v ===== *)
(** Buckets (include/bucket.h): the xor of a set of indices and the xor of
    their checksums. *)
From S2P Require Import Prelude Float64 Platform XorSet.

Open Scope N_scope.

Record Bucket : Type := mkBucket { alpha : N; gamma : N }.

#[export] Instance Bucket_eq_dec : EqDecision Bucket.
Proof. solve_decision. Defined.

(** [__builtin_ctzll]: number of trailing zero bits, for a non-zero argument. *)
Fixpoint pos_ctz (p : positive) : N :=
  match p with
  | xO p => 1 + pos_ctz p
  | _ => 0
  end.

Definition ctzll (x : N) : outcome N :=
  match x with
  | N0 => Undef
  | Npos p => Ok (pos_ctz p)
  end.

(** [1ull << n]: defined for shifts below the width. *)
Definition shl1 (n : N) : outcome N := if n <? 64 then Ok (N.shiftl 1 n) else Undef.

Section Bucket.
Context `{P : Platform}.

Definition col_hash_bits : N := col_hash_bytes * 8.

Definition get_index_depth (update_idx : N) (seed_and_col : Z) (max_depth : N) : outcome N :=
  let depth_hash := col_hash (vec_object update_idx) (long_to_u64 seed_and_col) in
  top ← shl1 max_depth;
  let depth_hash := N.lor depth_hash top in
  ctzll depth_hash.

Definition get_index_hash (update_idx : N) (sketch_seed : Z) : N :=
  wrap vec_hash_bits (vec_hash (vec_object update_idx) (long_to_u64 sketch_seed)).

Definition is_good (bucket : Bucket) (sketch_seed : Z) : bool :=
  gamma bucket =? get_index_hash (alpha bucket) sketch_seed.

Definition bucket_update (bucket : Bucket) (update_idx update_hash : N) : Bucket :=
  mkBucket (N.lxor (alpha bucket) update_idx) (N.lxor (gamma bucket) update_hash).
End Bucket.

(** * Buckets as a group *)

Definition bucket_zero : Bucket := mkBucket 0 0.

(** [a.alpha ^= b.alpha; a.gamma ^= b.gamma]. *)
Definition bucket_xor (a b : Bucket) : Bucket := bucket_update a (alpha b) (gamma b).

#[export] Instance bucket_xor_comm : Comm (=) bucket_xor.
Proof. intros [] []. unfold bucket_xor, bucket_update. simpl. f_equal; apply N.lxor_comm. Qed.

#[export] Instance bucket_xor_assoc : Assoc (=) bucket_xor.
Proof.
  intros [] [] []. unfold bucket_xor, bucket_update. simpl.
  f_equal; symmetry; apply N.lxor_assoc.
Qed.

#[export] Instance bucket_xor_left_id : LeftId (=) bucket_zero bucket_xor.
Proof. by intros []. Qed.

Lemma bucket_xor_nilpotent b : bucket_xor b b = bucket_zero.
Proof.
  destruct b. unfold bucket_xor, bucket_update, bucket_zero. simpl. by rewrite !N.lxor_nilpotent.
Qed.

#[export] Instance bucket_xor_right_id : RightId (=) bucket_zero bucket_xor.
Proof. intros b. rewrite (comm bucket_xor). apply (left_id bucket_zero bucket_xor). Qed.

(** * Depths *)

Lemma ctz_spec p : N.testbit (Npos p) (pos_ctz p) = true ∧
  (∀ i, i < pos_ctz p → N.testbit (Npos p) i = false).
Proof.
  induction p as [p IH|p [IH1 IH2]|]; simpl pos_ctz; try (split; [done|intros i Hi; lia]).
  change (Npos p~0) with (2 * Npos p). split.
  - rewrite N.add_comm, N.add_1_r, N.testbit_even_succ by lia. done.
  - intros i Hi. destruct (decide (i = 0)) as [->|]; [by rewrite N.testbit_even_0|].
    replace i with (N.succ (i - 1)) by lia. rewrite N.testbit_even_succ by lia.
    apply IH2. lia.
Qed.

Lemma ctzll_le x n : N.testbit x n = true → ∃ d, ctzll x = Ok d ∧ d ≤ n.
Proof.
  destruct x as [|p]; [by rewrite N.bits_0|]. intros Hn.
  exists (pos_ctz p). split; [done|]. destruct (N.le_gt_cases (pos_ctz p) n); [done|].
  destruct (ctz_spec p) as [_ H2]. by rewrite H2 in Hn.
Qed.

Section Depth.
Context `{P : Platform}.

(** The depth is defined, and at most [max_depth], as the comment says. *)
Lemma get_index_depth_le x s m : m < 64 → ∃ d, get_index_depth x s m = Ok d ∧ d ≤ m.
Proof.
  intros Hm. unfold get_index_depth, shl1. apply N.ltb_lt in Hm as E. rewrite E. simpl.
  apply ctzll_le. rewrite N.lor_spec, N.shiftl_1_l, N.pow2_bits_true. apply orb_true_r.
Qed.

Lemma get_index_depth_undef x s m : 64 ≤ m → get_index_depth x s m = Undef.
Proof.
  intros Hm. unfold get_index_depth, shl1. destruct (N.ltb_spec m 64); [lia|done].
Qed.
End Depth.

(** * Checksummed indices *)

Section Checksum.
Context `{P : Platform} (seed : N).

(** What one occurrence of an index adds to a bucket. *)
Definition index_bucket (x : N) : Bucket := mkBucket x (get_index_hash x (to_long seed)).

(** The bucket holding the indices of a set. *)
Definition set_bucket (X : gset N) : Bucket := xor_sum bucket_xor bucket_zero index_bucket X.

Lemma set_bucket_empty : set_bucket ∅ = bucket_zero.
Proof. apply xor_sum_empty. Qed.

Lemma set_bucket_singleton x : set_bucket {[ x ]} = index_bucket x.
Proof. apply xor_sum_singleton; apply _. Qed.

Lemma set_bucket_symdiff X Y : set_bucket (X △ Y) = bucket_xor (set_bucket X) (set_bucket Y).
Proof. apply xor_sum_symdiff; try apply _. apply bucket_xor_nilpotent. Qed.

Lemma set_bucket_toggle X x :
  set_bucket (X △ {[ x ]}) = bucket_update (set_bucket X) x (get_index_hash x (to_long seed)).
Proof. by rewrite set_bucket_symdiff, set_bucket_singleton. Qed.

Lemma index_bucket_good x : is_good (index_bucket x) (to_long seed) = true.
Proof. unfold is_good, index_bucket. simpl. apply N.eqb_refl. Qed.

(** The checksum tells the truth about the bucket of [X]: it is zero only if [X]
    is empty, and passes the test only if [X] is a singleton. For a given set
    and a random seed this fails with the probability of a hash collision; it
    is the event the failure analysis of the sketches bounds. *)
Definition bucket_reliable (X : gset N) : Prop :=
  (set_bucket X = bucket_zero → X = ∅) ∧
  (is_good (set_bucket X) (to_long seed) = true → ∃ x, X = {[ x ]}).

Definition bucket_reliable_b (X : gset N) : bool :=
  let b := set_bucket X in
  (negb ((alpha b =? 0) && (gamma b =? 0)) || (size X =? 0)%nat) &&
  (negb (is_good b (to_long seed)) || (size X =? 1)%nat).

Lemma bucket_reliable_b_spec X : bucket_reliable_b X = true → bucket_reliable X.
Proof.
  unfold bucket_reliable_b. rewrite andb_true_iff, !orb_true_iff, !negb_true_iff, !Nat.eqb_eq.
  intros [H1 H2]. split; intros E; rewrite E in *.
  - destruct H1 as [|H1]; [done|]. apply leibniz_equiv, size_empty_inv. done.
  - destruct H2 as [|H2]; [done|]. apply size_1_elem_of in H2 as [x Hx].
    exists x. by apply leibniz_equiv.
Qed.

(** No false positive on the subsets of [G], a stronger condition that only a
    small [G] can meet. *)
Definition collision_free (G : gset N) : Prop := ∀ X, X ⊆ G → bucket_reliable X.

Lemma collision_free_subseteq G G' : G' ⊆ G → collision_free G → collision_free G'.
Proof. intros HG Hc X HX. apply Hc. set_solver. Qed.
End Checksum.

(** * Deciding [collision_free] *)

Fixpoint sublists {A} (l : list A) : list (list A) :=
  match l with
  | [] => [[]]
  | x :: l => sublists l ++ ((x ::.) <$> sublists l)
  end.

Lemma filter_sublist {A} (Q : A → Prop) `{∀ x, Decision (Q x)} (l : list A) :
  filter Q l ∈ sublists l.
Proof.
  induction l as [|x l IH]; simpl; [by apply list_elem_of_singleton|].
  rewrite filter_cons. case_decide.
  - apply elem_of_app. right. by apply list_elem_of_fmap_2.
  - apply elem_of_app. by left.
Qed.

Definition collision_free_check `{P : Platform} (seed : N) (l : list N) : bool :=
  forallb (λ sub, bucket_reliable_b seed (list_to_set sub)) (sublists l).

Lemma collision_free_decide `{P : Platform} seed l :
  collision_free_check seed l = true → collision_free seed (list_to_set l).
Proof.
  unfold collision_free_check. rewrite forallb_forall. intros Hc X HX.
  assert (X = list_to_set (filter (.∈ X) l)) as EX.
  { apply set_eq. intros x. rewrite elem_of_list_to_set, list_elem_of_filter.
    split; [|tauto]. intros Hx. split; [done|]. apply HX in Hx. by apply elem_of_list_to_set in Hx. }
  rewrite EX. apply bucket_reliable_b_spec, Hc, list_elem_of_In, filter_sublist.
Qed.
