(* ===== verification/Sketch.v ===== *)
(** Sketches (include/sketch.h, src/sketch.cpp): CubeSketch and CameoSketch.

    Definitions first: one per constructor and method, with the loops and the
    guards of the source. Then the abstract view: a sketch is the image of a set
    of indices under a linear map ([represents]), which every operation respects,
    and sampling returns an element of that set. *)
From S2P Require Import Prelude Float64 Platform XorSet Bucket.
From Stdlib Require Import Floats.SpecFloat.

Open Scope N_scope.

Inductive SampleResult : Type := GOOD | ZERO | FAIL.

#[export] Instance SampleResult_eq_dec : EqDecision SampleResult.
Proof. solve_decision. Defined.

Record SketchSample : Type := mkSample { sample_index : N; sample_result : SampleResult }.

Record ExhaustiveSketchSample : Type :=
  mkExhaustive { sample_idxs : gset N; exhaustive_result : SampleResult }.

Record Sketch : Type := mkSketch {
  sk_seed : N;
  num_samples : N;
  cols_per_sample : N;
  num_columns : N;
  bkt_per_col : N;
  num_buckets : N;
  sample_idx : N;
  buckets : list Bucket
}.

#[export] Instance Sketch_inhabited : Inhabited Sketch :=
  populate (mkSketch 0 0 0 0 0 0 0 []).

Definition set_buckets (bs : list Bucket) (s : Sketch) : Sketch :=
  mkSketch (sk_seed s) (num_samples s) (cols_per_sample s) (num_columns s) (bkt_per_col s)
    (num_buckets s) (sample_idx s) bs.

Definition set_sample_idx (i : N) (s : Sketch) : Sketch :=
  mkSketch (sk_seed s) (num_samples s) (cols_per_sample s) (num_columns s) (bkt_per_col s)
    (num_buckets s) i (buckets s).

(** * Sizes *)

(** [std::ceil] on [double]. *)
Definition dceil (d : double) : double :=
  match ceil_Z d with
  | Some z => binary_normalize prec64 emax64 z 0 false
  | None => d
  end.

Section Sizes.
Context `{P : Platform}.

Definition calc_vector_length (num_vertices : N) : outcome N :=
  to_unsigned vec_bits (trunc_Z (dceil
    (ddiv (dmul (double_of_N num_vertices) (double_of_N (usub 32 num_vertices 1)))
          (double_of_N 2)))).

(** The literal [0.8]. *)
Definition lit_0_8 : double := S754_finite false 7205759403792794 (-53).

Definition num_samples_div : double :=
  if L0_SAMPLING
  then SFsub prec64 emax64 (log2 (double_of_N 3)) (double_of_N 1)
  else SFsub prec64 emax64 (double_of_N 1)
         (log2 (SFsub prec64 emax64 (double_of_N 2) lit_0_8)).

Definition default_cols_per_sample : N := if L0_SAMPLING then 7 else 1.

Definition calc_cc_samples (num_vertices : N) (f : double) : outcome N :=
  c ← to_unsigned 64 (trunc_Z (dceil
        (ddiv (dmul f (log2 (double_of_N num_vertices))) num_samples_div)));
  mret (N.max 18 c).

Definition calc_bkt_per_col (n : N) : outcome N :=
  to_unsigned 64 (trunc_Z (dadd (dceil (log2 (double_of_N n))) (double_of_N 1))).
End Sizes.

(** [sizeof(Bucket)]: the struct is packed. *)
Definition bucket_bytes `{Platform} : nat := vec_bytes + vec_hash_bytes.

Definition bucket_array_bytes `{Platform} (s : Sketch) : N :=
  u64 (num_buckets s * N.of_nat bucket_bytes).

Definition column_seed (s : Sketch) (column_idx : N) : N :=
  u64 (sk_seed s + u64 (column_idx * 5)).

Definition checksum_seed (s : Sketch) : N := sk_seed s.

Definition reset_sample_state (s : Sketch) : Sketch := set_sample_idx 0 s.

(** * Constructors *)

Section Sketch.
Context `{P : Platform}.

(** The members computed by every constructor from its arguments. *)
Definition sketch_layout (vector_len seed samples cols : N) : outcome Sketch :=
  let columns := u64 (samples * cols) in
  bkts ← calc_bkt_per_col vector_len;
  let total := u64 (u64 (columns * bkts) + 1) in
  mret (mkSketch seed samples cols columns bkts total 0 []).

Definition Sketch_new (vector_len seed samples cols : N) : outcome Sketch :=
  s ← sketch_layout vector_len seed samples cols;
  mret (set_buckets (replicate (N.to_nat (num_buckets s)) bucket_zero) s).

(** Copy constructor: [sample_idx] keeps its default initialiser. *)
Definition Sketch_copy (s : Sketch) : Sketch := set_sample_idx 0 s.

(** ** Serialisation: the object representation of the bucket array *)

Definition bucket_object (b : Bucket) : list N :=
  le_bytes vec_bytes (alpha b) ++ le_bytes vec_hash_bytes (gamma b).

Definition serialize (s : Sketch) : list N := buckets s ≫= bucket_object.

Definition bucket_of_object (bs : list N) : Bucket :=
  mkBucket (le_value (take vec_bytes bs)) (le_value (take vec_hash_bytes (drop vec_bytes bs))).

(** [istream::read] of [n] buckets; a short stream leaves them unset. *)
Fixpoint read_buckets (n : nat) (stream : list N) : outcome (list Bucket * list N) :=
  match n with
  | O => mret ([], stream)
  | S n =>
      if (bucket_bytes <=? length stream)%nat then
        '(bs, rest) ← read_buckets n (drop bucket_bytes stream);
        mret (bucket_of_object (take bucket_bytes stream) :: bs, rest)
      else Undef
  end.

Definition Sketch_deserialize (vector_len seed samples cols : N) (stream : list N)
    : outcome (Sketch * list N) :=
  s ← sketch_layout vector_len seed samples cols;
  '(bs, rest) ← read_buckets (N.to_nat (num_buckets s)) stream;
  mret (set_buckets bs s, rest).

(** ** Updates *)

(** [Bucket_Boruvka::update(buckets[bucket_id], update_idx, checksum)]. *)
Definition update_bucket (update_idx checksum bucket_id : N) (bs : list Bucket)
    : outcome (list Bucket) :=
  b ← of_option (bs !! bucket_id);
  mret (<[bucket_id := bucket_update b update_idx checksum]> bs).

Definition index_depth (s : Sketch) (update_idx i : N) : outcome N :=
  get_index_depth update_idx (to_long (column_seed s i)) (wrap vec_hash_bits (bkt_per_col s)).

(** Body of the column loop, CubeSketch: every depth up to the index's. *)
Definition update_column_cube (s : Sketch) (update_idx checksum i : N) (bs : list Bucket)
    : outcome (list Bucket) :=
  depth ← index_depth s update_idx i;
  if depth <? bkt_per_col s then
    ofold (λ j, update_bucket update_idx checksum (u64 (u64 (i * bkt_per_col s) + j)))
      (seqN 0 (depth + 1)) bs
  else mret bs.

(** Body of the column loop, CameoSketch: the index's depth only. *)
Definition update_column_cameo (s : Sketch) (update_idx checksum i : N) (bs : list Bucket)
    : outcome (list Bucket) :=
  depth ← index_depth s update_idx i;
  let bucket_id := u64 (u64 (i * bkt_per_col s) + depth) in
  if depth <? bkt_per_col s then update_bucket update_idx checksum bucket_id bs
  else mret bs.

(** [for (unsigned i = 0; i < num_columns; ++i)] does not end when
    [num_columns] exceeds the range of [unsigned]. *)
Definition sketch_update (s : Sketch) (update_idx : N) : outcome Sketch :=
  let checksum := get_index_hash update_idx (to_long (checksum_seed s)) in
  bs ← update_bucket update_idx checksum (usub 64 (num_buckets s) 1) (buckets s);
  if num_columns s <=? 2 ^ 32 then
    bs ← ofold ((if L0_SAMPLING then update_column_cube else update_column_cameo)
                  s update_idx checksum)
           (seqN 0 (num_columns s)) bs;
    mret (set_buckets bs s)
  else Undef.

Definition zero_contents (s : Sketch) : outcome Sketch :=
  bs ← ofold (λ i bs, _ ← of_option (bs !! i); mret (<[i := bucket_zero]> bs))
         (seqN 0 (num_buckets s)) (buckets s);
  mret (reset_sample_state (set_buckets bs s)).

(** ** Sampling *)

(** The buckets of a sample, in the order of the two nested loops. *)
Definition sample_buckets (s : Sketch) (first_column : N) : list N :=
  i ← seqN 0 (cols_per_sample s);
  j ← seqN 0 (bkt_per_col s);
  [u64 (u64 (u64 (i + first_column) * bkt_per_col s) + j)].

(** First good bucket of a list of bucket ids. *)
Fixpoint find_good (s : Sketch) (ids : list N) : outcome SketchSample :=
  match ids with
  | [] => mret (mkSample 0 FAIL)
  | bucket_id :: ids =>
      b ← of_option (buckets s !! bucket_id);
      if is_good b (to_long (checksum_seed s)) then mret (mkSample (alpha b) GOOD)
      else find_good s ids
  end.

Definition sketch_sample : M Sketch SketchSample := λ s,
  if num_samples s <=? sample_idx s
  then (s, Throw (OutOfSamplesException (sk_seed s) (num_samples s) (sample_idx s)))
  else
    let idx := sample_idx s in
    let s := set_sample_idx (u64 (sample_idx s + 1)) s in
    let first_column := u64 (idx * cols_per_sample s) in
    (s, det ← of_option (buckets s !! usub 64 (num_buckets s) 1);
        if (alpha det =? 0) && (gamma det =? 0) then mret (mkSample 0 ZERO)
        else if is_good det (to_long (checksum_seed s)) then mret (mkSample (alpha det) GOOD)
        else find_good s (sample_buckets s first_column)).

(** The good buckets' indices. *)
Fixpoint collect_good (s : Sketch) (ids : list N) (ret : gset N) : outcome (gset N) :=
  match ids with
  | [] => mret ret
  | bucket_id :: ids =>
      b ← of_option (buckets s !! bucket_id);
      collect_good s ids
        (if is_good b (to_long (checksum_seed s)) then ret ∪ {[ alpha b ]} else ret)
  end.

Definition exhaustive_sample : M Sketch ExhaustiveSketchSample := λ s,
  if num_samples s <=? sample_idx s
  then (s, Throw (OutOfSamplesException (sk_seed s) (num_samples s) (sample_idx s)))
  else
    let idx := sample_idx s in
    let s := set_sample_idx (u64 (sample_idx s + 1)) s in
    let first_column := u64 (idx * cols_per_sample s) in
    (s, det ← of_option (buckets s !! usub 64 (num_buckets s) 1);
        if (alpha det =? 0) && (gamma det =? 0) then mret (mkExhaustive ∅ ZERO)
        else if is_good det (to_long (checksum_seed s))
        then mret (mkExhaustive {[ alpha det ]} GOOD)
        else
          ret ← collect_good s (sample_buckets s first_column) ∅;
          mret (mkExhaustive ret (if N.of_nat (size ret) =? 0 then FAIL else GOOD))).

(** ** Merging *)

(** [buckets[id] ^= other[id]], both members. *)
Definition merge_bucket (other : list Bucket) (id : N) (bs : list Bucket)
    : outcome (list Bucket) :=
  o ← of_option (other !! id);
  update_bucket (alpha o) (gamma o) id bs.

Definition sketch_merge (s other : Sketch) : outcome Sketch :=
  bs ← ofold (merge_bucket (buckets other)) (seqN 0 (num_buckets s)) (buckets s);
  mret (set_buckets bs s).

Definition range_merge (other : Sketch) (start_sample n_samples : N) : M Sketch unit := λ s,
  if num_samples s <? u64 (start_sample + n_samples)
  then (_ ← cassert NDEBUG false; modify (set_sample_idx (num_samples s))) s
  else
    let s := set_sample_idx (N.max (sample_idx s) start_sample) s in
    let start_bucket_id := u64 (u64 (start_sample * cols_per_sample s) * bkt_per_col s) in
    let n_buckets := u64 (u64 (n_samples * cols_per_sample s) * bkt_per_col s) in
    match
      bs ← merge_bucket (buckets other) (usub 64 (num_buckets s) 1) (buckets s);
      ofold (λ i, merge_bucket (buckets other) (u64 (start_bucket_id + i)))
        (seqN 0 n_buckets) bs
    with
    | Ok bs => (set_buckets bs s, Ok tt)
    | Throw e => (s, Throw e)
    | Abort => (s, Abort)
    | Undef => (s, Undef)
    end.

Definition merge_raw_bucket_buffer (s : Sketch) (raw_buckets : list Bucket) : outcome Sketch :=
  bs ← ofold (merge_bucket raw_buckets) (seqN 0 (num_buckets s)) (buckets s);
  mret (set_buckets bs s).

(** ** Comparison *)

Fixpoint buckets_eq (bs1 bs2 : list Bucket) (ids : list N) : outcome bool :=
  match ids with
  | [] => mret true
  | i :: ids =>
      b1 ← of_option (bs1 !! i);
      b2 ← of_option (bs2 !! i);
      if negb (alpha b1 =? alpha b2) || negb (gamma b1 =? gamma b2) then mret false
      else buckets_eq bs1 bs2 ids
  end.

Definition sketch_eqb (s1 s2 : Sketch) : outcome bool :=
  if negb (num_buckets s1 =? num_buckets s2) || negb (sk_seed s1 =? sk_seed s2)
  then mret false
  else buckets_eq (buckets s1) (buckets s2) (seqN 0 (num_buckets s1)).
End Sketch.

(** * Pointwise updates of the bucket array *)

(** [bs'] is [bs] with [f id] applied to the buckets [D] selects. *)
Definition updated (D : N → bool) (f : N → Bucket → Bucket) (bs bs' : list Bucket) : Prop :=
  length bs' = length bs ∧
  ∀ id : N, bs' !! id = (λ b, if D id then f id b else b) <$> bs !! id.

Section Updated.
Context (f : N → Bucket → Bucket).

Lemma updated_none D bs : (∀ id, id < N.of_nat (length bs) → D id = false) → updated D f bs bs.
Proof.
  intros HD. split; [done|]. intros id. destruct (bs !! id) as [b|] eqn:E; [|done].
  simpl. rewrite HD; [done|]. by eapply lookupN_lt_Some.
Qed.

Lemma updated_one D bs (id : N) b : bs !! id = Some b →
  (∀ j, D j = true ↔ j = id) → updated D f bs (<[id := f id b]> bs).
Proof.
  intros Hb HD. split; [by autorewrite with zeppelin|]. intros j.
  destruct (decide (j = id)) as [->|Hne].
  - rewrite lookupN_insert_eq by (by eapply lookupN_lt_Some). rewrite Hb. simpl.
    by rewrite (proj2 (HD id)).
  - rewrite lookupN_insert_ne by done. destruct (bs !! j) as [c|]; [|done]. simpl.
    destruct (D j) eqn:E; [|done]. by apply HD in E.
Qed.

Lemma updated_trans D1 D2 D bs1 bs2 bs3 :
  updated D1 f bs1 bs2 → updated D2 f bs2 bs3 →
  (∀ id, D id = D1 id || D2 id) → (∀ id, D1 id && D2 id = false) →
  updated D f bs1 bs3.
Proof.
  intros [L1 H1] [L2 H2] HD Hdisj. split; [congruence|]. intros id.
  rewrite H2, H1, HD. destruct (bs1 !! id) as [b|]; [|done]. simpl. f_equal.
  specialize (Hdisj id). by destruct (D1 id), (D2 id).
Qed.

Lemma updated_ext D D' bs bs' :
  (∀ id, id < N.of_nat (length bs) → D id = D' id) → updated D f bs bs' → updated D' f bs bs'.
Proof.
  intros HD [L H]. split; [done|]. intros id. rewrite H.
  destruct (bs !! id) as [b|] eqn:E; [|done]. simpl. rewrite HD; [done|].
  by eapply lookupN_lt_Some.
Qed.

(** A loop whose iterations touch disjoint buckets. *)
Lemma updated_loop (E : N → N → bool) (D : N → N → bool) start len body bs0 :
  (∀ id, E 0 id = false) →
  (∀ k id, k < len → E (k + 1) id = E k id || D k id) →
  (∀ k id, k < len → E k id && D k id = false) →
  (∀ k bs, k < len → length bs = length bs0 →
     ∃ bs', body (start + k) bs = Ok bs' ∧ updated (D k) f bs bs') →
  ∃ bs', ofold body (seqN start len) bs0 = Ok bs' ∧ updated (E len) f bs0 bs'.
Proof.
  intros HE0 HES Hdisj Hbody.
  destruct (ofold_range (λ k bs, k ≤ len ∧ updated (E k) f bs0 bs) start len body) with (s := bs0)
    as (bs' & Hb & _ & HI).
  - intros k bs Hk [_ HU]. destruct (Hbody k bs Hk) as (bs1 & Hb1 & HU1); [apply HU|].
    exists bs1. split; [done|]. split; [lia|].
    eapply updated_trans; [done|done| |]; intros id; auto.
  - split; [lia|]. apply updated_none. auto.
  - eauto.
Qed.
End Updated.

(** * Well-formed sketches *)

Record wf_sketch (s : Sketch) : Prop := {
  wf_seed : sk_seed s < 2 ^ 64;
  wf_columns : num_columns s = num_samples s * cols_per_sample s;
  wf_columns_bound : num_columns s ≤ 2 ^ 32;
  wf_bkt : 1 ≤ bkt_per_col s < 64;
  wf_total : num_buckets s = num_columns s * bkt_per_col s + 1;
  wf_length : length (buckets s) = N.to_nat (num_buckets s)
}.

Lemma wf_total_bound s : wf_sketch s → num_buckets s ≤ 2 ^ 38.
Proof.
  intros H. rewrite (wf_total s H). pose proof (wf_columns_bound s H). pose proof (wf_bkt s H). nia.
Qed.

(** The members no method changes. *)
Definition same_layout (s1 s2 : Sketch) : Prop :=
  sk_seed s1 = sk_seed s2 ∧ num_samples s1 = num_samples s2 ∧
  cols_per_sample s1 = cols_per_sample s2 ∧ num_columns s1 = num_columns s2 ∧
  bkt_per_col s1 = bkt_per_col s2 ∧ num_buckets s1 = num_buckets s2.

#[export] Instance same_layout_equivalence : Equivalence same_layout.
Proof.
  unfold same_layout. split; [intros s; tauto|intros s1 s2 H; intuition congruence|].
  intros s1 s2 s3 H1 H2. intuition congruence.
Qed.

Lemma wf_sketch_layout s s' : wf_sketch s → same_layout s s' →
  length (buckets s') = length (buckets s) → wf_sketch s'.
Proof.
  intros [] (E1 & E2 & E3 & E4 & E5 & E6) HL. split; rewrite <-?E1, <-?E4, <-?E5, <-?E6; try done.
  - by rewrite <-E2, <-E3.
  - congruence.
Qed.

Lemma same_layout_set_buckets s bs : same_layout s (set_buckets bs s).
Proof. by unfold same_layout. Qed.

Lemma same_layout_set_sample_idx s i : same_layout s (set_sample_idx i s).
Proof. by unfold same_layout. Qed.

Lemma wf_set_buckets s bs : wf_sketch s → length bs = length (buckets s) →
  wf_sketch (set_buckets bs s).
Proof. intros Hwf HL. apply (wf_sketch_layout s); [done|done|exact HL]. Qed.

Lemma wf_set_sample_idx s i : wf_sketch s → wf_sketch (set_sample_idx i s).
Proof. intros Hwf. apply (wf_sketch_layout s); done. Qed.

#[export] Hint Resolve wf_set_buckets wf_set_sample_idx : zeppelin.
#[export] Hint Resolve same_layout_set_buckets same_layout_set_sample_idx : zeppelin.

(** * The effect of an update *)

(** Does an update of index [x] touch bucket [j] of column [i]? *)
Definition column_hit `{Platform} (s : Sketch) (x i j : N) : bool :=
  match index_depth s x i with
  | Ok d => (d <? bkt_per_col s) && (if L0_SAMPLING then j <=? d else j =? d)
  | _ => false
  end.

(** ... bucket [id] of the array? *)
Definition hits `{Platform} (s : Sketch) (x id : N) : bool :=
  (id =? num_buckets s - 1) || column_hit s x (id / bkt_per_col s) (id mod bkt_per_col s).

Lemma hits_layout `{Platform} s s' x id : same_layout s s' → hits s x id = hits s' x id.
Proof.
  intros (E1 & E2 & E3 & E4 & E5 & E6).
  unfold hits, column_hit, index_depth, column_seed. by rewrite E1, E5, E6.
Qed.

(** Division of a bucket id in column and depth. *)
Lemma div_bucket b i j : j < b → (i * b + j) / b = i ∧ (i * b + j) mod b = j.
Proof.
  intros Hj. split.
  - rewrite N.div_add_l, N.div_small by lia. lia.
  - rewrite N.add_comm, N.Div0.mod_add. by apply N.mod_small.
Qed.

Lemma bucket_div b id i j : 0 < b → id / b = i → id mod b = j → id = i * b + j.
Proof. intros Hb <- <-. pose proof (N.div_mod id b). lia. Qed.

Section UpdateSpec.
Context `{P : Platform} `{!PlatformLaws P} (s : Sketch) (Hwf : wf_sketch s).

Lemma wrap_bkt : wrap vec_hash_bits (bkt_per_col s) = bkt_per_col s.
Proof using P PlatformLaws0 s Hwf.
  apply wrap_small. pose proof (wf_bkt s Hwf). pose proof vec_hash_bytes_range.
  assert (2 ^ 8 ≤ 2 ^ vec_hash_bits); [|lia].
  apply N.pow_le_mono_r; [lia|]. unfold vec_hash_bits. lia.
Qed.

Lemma index_depth_ok x i : ∃ d, index_depth s x i = Ok d ∧ d ≤ bkt_per_col s.
Proof using P PlatformLaws0 s Hwf.
  unfold index_depth. rewrite wrap_bkt. apply get_index_depth_le, (wf_bkt s Hwf).
Qed.

Lemma bucket_id_ok i j : i < num_columns s → j < bkt_per_col s →
  u64 (u64 (i * bkt_per_col s) + j) = i * bkt_per_col s + j ∧
  i * bkt_per_col s + j < num_buckets s - 1.
Proof using s Hwf.
  intros Hi Hj. pose proof (wf_columns_bound s Hwf). pose proof (wf_bkt s Hwf).
  rewrite (wf_total s Hwf). assert (i * bkt_per_col s + j < num_columns s * bkt_per_col s) by nia.
  assert (num_columns s * bkt_per_col s ≤ 2 ^ 32 * 64) by nia.
  split; [|lia].
  set (p := i * bkt_per_col s) in *. set (q := num_columns s * bkt_per_col s) in *.
  clearbody p q. rewrite (wrap_small 64 p) by lia. apply wrap_small. lia.
Qed.

Context (x h : N).
Let f : N → Bucket → Bucket := λ _ b, bucket_update b x h.

Lemma update_bucket_ok id bs : (id < N.of_nat (length bs)) →
  ∃ bs', update_bucket x h id bs = Ok bs' ∧ updated (λ j, j =? id) f bs bs'.
Proof using .
  intros Hid. destruct (lookupN_lt_is_Some bs id Hid) as [b Hb].
  unfold update_bucket. rewrite Hb. eexists. split; [done|].
  apply (updated_one f); [done|]. intros j. apply N.eqb_eq.
Qed.

Lemma update_column_ok i bs : i < num_columns s → length bs = length (buckets s) →
  ∃ bs', (if L0_SAMPLING then update_column_cube else update_column_cameo) s x h i bs = Ok bs' ∧
    updated (λ id, (id / bkt_per_col s =? i) && column_hit s x i (id mod bkt_per_col s)) f bs bs'.
Proof using P PlatformLaws0 s Hwf.
  intros Hi HL. rewrite (wf_length s Hwf) in HL. pose proof (wf_bkt s Hwf) as Hb.
  destruct (index_depth_ok x i) as (d & Hd & _). unfold column_hit.
  unfold update_column_cube, update_column_cameo.
  destruct L0_SAMPLING; rewrite !Hd; simpl.
  - destruct (N.ltb_spec d (bkt_per_col s)) as [Hlt|Hge]; simpl.
    + destruct (updated_loop f (λ j id, (id / bkt_per_col s =? i) && (id mod bkt_per_col s <? j))
        (λ j id, id =? i * bkt_per_col s + j) 0 (d + 1)
        (λ j, update_bucket x h (u64 (u64 (i * bkt_per_col s) + j))) bs)
        as (bs' & -> & HU).
      * intros id. destruct (N.ltb_spec (id mod bkt_per_col s) 0) as [H0|];
          [by apply N.nlt_0_r in H0|apply andb_false_r].
      * intros j id Hj. destruct (N.eqb_spec id (i * bkt_per_col s + j)) as [->|Hne].
        { destruct (div_bucket (bkt_per_col s) i j) as [-> ->]; [lia|]. bool_cases; lia || done. }
        rewrite orb_false_r. destruct (N.eqb_spec (id / bkt_per_col s) i) as [E|]; [|done].
        simpl. pose proof (bucket_div (bkt_per_col s) id i _ ltac:(lia) E eq_refl) as Hid.
        set (m := id mod bkt_per_col s) in *. clearbody m.
        assert (m ≠ j) by (intros ->; lia). bool_cases; lia || done.
      * intros j id Hj. destruct (N.eqb_spec id (i * bkt_per_col s + j)) as [->|];
          [|by rewrite andb_false_r].
        destruct (div_bucket (bkt_per_col s) i j) as [-> ->]; [lia|]. bool_cases; lia || done.
      * intros j bs1 Hj HL1. destruct (bucket_id_ok i j) as [E1 E2]; [done|lia|].
        rewrite N.add_0_l, E1. apply update_bucket_ok. lia.
      * exists bs'. split; [done|]. eapply updated_ext; [|done]. intros id _. simpl.
        f_equal. bool_cases; lia || done.
    + exists bs. split; [done|]. apply updated_none. intros id _. by rewrite andb_false_r.
  - destruct (N.ltb_spec d (bkt_per_col s)) as [Hlt|Hge]; simpl.
    + destruct (bucket_id_ok i d) as [E1 E2]; [done|lia|]. rewrite E1.
      destruct (update_bucket_ok (i * bkt_per_col s + d) bs) as (bs' & -> & HU); [lia|].
      exists bs'. split; [done|]. eapply updated_ext; [|done]. intros id _. simpl.
      destruct (N.eqb_spec id (i * bkt_per_col s + d)) as [->|Hne].
      * destruct (div_bucket (bkt_per_col s) i d) as [-> ->]; [lia|]. by rewrite !N.eqb_refl.
      * destruct (N.eqb_spec (id / bkt_per_col s) i) as [E|]; [|done]. simpl.
        pose proof (bucket_div (bkt_per_col s) id i _ ltac:(lia) E eq_refl) as Hid.
        set (m := id mod bkt_per_col s) in *. clearbody m.
        destruct (N.eqb_spec m d) as [->|]; [|done]. lia.
    + exists bs. split; [done|]. apply updated_none. intros id _. by rewrite andb_false_r.
Qed.
End UpdateSpec.

Section UpdateWhole.
Context `{P : Platform} `{!PlatformLaws P}.

Lemma div_lt_columns s id : wf_sketch s → id < num_buckets s →
  (id / bkt_per_col s <? num_columns s) = negb (id =? num_buckets s - 1).
Proof using .
  intros Hwf Hid. pose proof (wf_bkt s Hwf). rewrite (wf_total s Hwf) in *.
  destruct (N.eqb_spec id (num_columns s * bkt_per_col s + 1 - 1)) as [->|Hne]; simpl.
  - rewrite N.add_sub, N.div_mul by lia. apply N.ltb_irrefl.
  - apply N.ltb_lt, N.Div0.div_lt_upper_bound. lia.
Qed.

(** An update succeeds, keeps the layout, and xors the index and its checksum
    into exactly the buckets it hits. *)
Lemma sketch_update_ok s x : wf_sketch s →
  ∃ bs, sketch_update s x = Ok (set_buckets bs s) ∧
    updated (hits s x)
      (λ _ b, bucket_update b x (get_index_hash x (to_long (checksum_seed s)))) (buckets s) bs.
Proof using P PlatformLaws0.
  intros Hwf. unfold sketch_update. set (h := get_index_hash _ _).
  pose proof (wf_total_bound s Hwf) as HB. pose proof (wf_length s Hwf) as HL.
  pose proof (wf_bkt s Hwf) as Hb.
  assert (0 < num_buckets s) as H0 by (rewrite (wf_total s Hwf); lia).
  rewrite usub_small by lia.
  destruct (update_bucket_ok x h (num_buckets s - 1) (buckets s)) as (bs1 & -> & HU1); [lia|].
  simpl. destruct (N.leb_spec (num_columns s) (2 ^ 32)) as [_|Hc];
    [|pose proof (wf_columns_bound s Hwf); lia].
  destruct (updated_loop (λ _ b, bucket_update b x h)
    (λ k id, (id / bkt_per_col s <? k) && column_hit s x (id / bkt_per_col s) (id mod bkt_per_col s))
    (λ k id, (id / bkt_per_col s =? k) && column_hit s x k (id mod bkt_per_col s))
    0 (num_columns s)
    ((if L0_SAMPLING then update_column_cube else update_column_cameo) s x h) bs1)
    as (bs2 & Hbs2 & HU2).
  - intros id. destruct (N.ltb_spec (id / bkt_per_col s) 0) as [H|]; [|done].
    by apply N.nlt_0_r in H.
  - intros k id Hk. set (q := id / bkt_per_col s). clearbody q.
    destruct (N.eqb_spec q k) as [->|Hne]; simpl.
    + rewrite (proj2 (N.ltb_lt k (k + 1))), N.ltb_irrefl by lia. done.
    + rewrite orb_false_r. f_equal. bool_cases; lia || done.
  - intros k id Hk. set (q := id / bkt_per_col s). clearbody q.
    destruct (N.eqb_spec q k) as [->|Hne]; [by rewrite N.ltb_irrefl|]. by rewrite andb_false_r.
  - intros k bs Hk Hlen. rewrite N.add_0_l. apply update_column_ok; try done.
    rewrite Hlen. apply HU1.
  - rewrite Hbs2. exists bs2. split; [done|].
    eapply updated_ext; [|eapply updated_trans; [exact HU1|exact HU2|done|]].
    + intros id Hid. simpl. unfold hits. rewrite div_lt_columns by (done || lia).
      by destruct (id =? num_buckets s - 1).
    + intros id. simpl. destruct (N.eqb_spec id (num_buckets s - 1)) as [->|]; [|done].
      rewrite div_lt_columns by (done || lia). by rewrite N.eqb_refl.
Qed.

(** Merging xors the other array's buckets into the ones a loop covers. *)
Lemma merge_bucket_ok other id bs :
  id < N.of_nat (length bs) → id < N.of_nat (length other) →
  ∃ bs', merge_bucket other id bs = Ok bs' ∧
    updated (λ j, j =? id)
      (λ j b, bucket_xor b (default bucket_zero (other !! j))) bs bs'.
Proof using .
  intros H1 H2. destruct (lookupN_lt_is_Some bs id H1) as [b Hb].
  destruct (lookupN_lt_is_Some other id H2) as [o Ho].
  unfold merge_bucket, update_bucket. rewrite Ho. simpl. rewrite Hb. eexists. split; [done|].
  replace (bucket_update b (alpha o) (gamma o))
    with (bucket_xor b (default bucket_zero (other !! id))) by (by rewrite Ho).
  apply (updated_one (λ j b, bucket_xor b (default bucket_zero (other !! j)))); [done|].
  intros j. apply N.eqb_eq.
Qed.

Lemma merge_range_ok other start len (g : N → N) bs :
  (∀ k, k < len → g k = start + k) →
  start + len ≤ N.of_nat (length bs) → start + len ≤ N.of_nat (length other) →
  ∃ bs', ofold (λ i, merge_bucket other (g i)) (seqN 0 len) bs = Ok bs' ∧
    updated (λ id, (start <=? id) && (id <? start + len))
      (λ j b, bucket_xor b (default bucket_zero (other !! j))) bs bs'.
Proof using .
  intros Hg H1 H2.
  destruct (updated_loop (λ j b, bucket_xor b (default bucket_zero (other !! j)))
    (λ k id, (start <=? id) && (id <? start + k)) (λ k id, id =? start + k) 0 len
    (λ i, merge_bucket other (g i)) bs) as (bs' & -> & HU).
  - intros id. bool_cases; lia || done.
  - intros k id Hk. bool_cases; lia || done.
  - intros k id Hk. bool_cases; lia || done.
  - intros k bs1 Hk HL. rewrite N.add_0_l, Hg by done. apply merge_bucket_ok; lia.
  - eauto.
Qed.
End UpdateWhole.

(** * The abstract view: a linear image of a set of indices *)

Section Represents.
Context `{P : Platform} `{!PlatformLaws P}.

(** The buckets [D] selects hold exactly the indices of [X] that hit them. *)
Definition represents_on (D : N → Prop) (s : Sketch) (X : gset N) : Prop :=
  ∀ id, id < num_buckets s → D id →
    buckets s !! id = Some (set_bucket (sk_seed s) (filter (λ x, hits s x id = true) X)).

Definition represents : Sketch → gset N → Prop := represents_on (λ _, True).

Lemma represents_on_weaken (D D' : N → Prop) s X :
  (∀ id, D' id → D id) → represents_on D s X → represents_on D' s X.
Proof using . intros HD H id Hid HD'. auto. Qed.

Lemma filter_hits_layout s s' id (X : gset N) : same_layout s s' →
  filter (λ x, hits s x id = true) X = filter (λ x, hits s' x id = true) X.
Proof using .
  intros HL. apply set_eq. intros x. rewrite !elem_of_filter.
  by rewrite (hits_layout s s' x id HL).
Qed.

Lemma represents_on_sample_idx D s X i :
  represents_on D s X ↔ represents_on D (set_sample_idx i s) X.
Proof using . done. Qed.

(** The buckets of sample number [r]: the deterministic bucket and the columns
    of the sample. *)
Definition in_sample (s : Sketch) (r id : N) : Prop :=
  id = num_buckets s - 1 ∨
  r * cols_per_sample s * bkt_per_col s ≤ id < (r + 1) * cols_per_sample s * bkt_per_col s.

Lemma represents_update s x X : wf_sketch s → represents s X →
  ∃ s', sketch_update s x = Ok s' ∧ wf_sketch s' ∧ same_layout s s' ∧
    sample_idx s' = sample_idx s ∧ represents s' (X △ {[ x ]}).
Proof using P PlatformLaws0.
  intros Hwf HX. destruct (sketch_update_ok s x Hwf) as (bs & -> & HL & HU).
  exists (set_buckets bs s). split; [done|]. split.
  { by apply wf_set_buckets. }
  split; [done|]. split; [done|].
  intros id Hid _. simpl. rewrite HU, (HX id Hid I). simpl. f_equal.
  rewrite (filter_hits_layout (set_buckets bs s) s) by (by unfold same_layout).
  rewrite filter_symdiff, filter_one. destruct (hits s x id) eqn:Eh.
  - rewrite decide_True by done. by rewrite set_bucket_toggle.
  - rewrite decide_False by done. by rewrite (right_id ∅ symdiff).
Qed.

(** Xoring the buckets of two sketches of one layout adds their sets. *)
Lemma represents_xor D s s2 X Y bs : wf_sketch s → same_layout s s2 →
  represents_on D s X → represents_on D s2 Y →
  (∀ id, id < num_buckets s → D id →
     bs !! id = (λ b, bucket_xor b (default bucket_zero (buckets s2 !! id))) <$> buckets s !! id) →
  represents_on D (set_buckets bs s) (X △ Y).
Proof using .
  intros Hwf HL HX HY Hbs id Hid HD. simpl in *. rewrite Hbs by done.
  rewrite HX by done. rewrite HY by (done || (destruct HL as (_&_&_&_&_&E); congruence)).
  simpl. f_equal. destruct HL as (E & HL).
  rewrite <-(filter_hits_layout s s2) by done. rewrite <-E.
  by rewrite <-set_bucket_symdiff, <-filter_symdiff.
Qed.

Lemma sketch_merge_ok s s2 X Y : wf_sketch s → wf_sketch s2 → same_layout s s2 →
  represents s X → represents s2 Y →
  ∃ s', sketch_merge s s2 = Ok s' ∧ wf_sketch s' ∧ same_layout s s' ∧
    sample_idx s' = sample_idx s ∧ represents s' (X △ Y).
Proof using .
  intros Hwf Hwf2 HL HX HY. unfold sketch_merge.
  pose proof (wf_length s Hwf) as L1. pose proof (wf_length s2 Hwf2) as L2.
  assert (num_buckets s2 = num_buckets s) as En by (destruct HL as (_&_&_&_&_&?); done).
  destruct (merge_range_ok (buckets s2) 0 (num_buckets s) (λ i, i) (buckets s))
    as (bs & Hbs & HLb & HU); [lia..|].
  assert (ofold (merge_bucket (buckets s2)) (seqN 0 (num_buckets s)) (buckets s) = Ok bs)
    as -> by exact Hbs.
  exists (set_buckets bs s). split; [done|]. split; [by apply wf_set_buckets|].
  split; [done|]. split; [done|].
  apply (represents_xor _ s s2); try done. intros id Hid _.
  rewrite HU. replace ((0 <=? id) && (id <? 0 + num_buckets s)) with true; [done|].
  bool_cases; lia || done.
Qed.

Lemma merge_raw_ok s s2 X Y : wf_sketch s → wf_sketch s2 → same_layout s s2 →
  represents s X → represents s2 Y →
  ∃ s', merge_raw_bucket_buffer s (buckets s2) = Ok s' ∧ wf_sketch s' ∧ same_layout s s' ∧
    sample_idx s' = sample_idx s ∧ represents s' (X △ Y).
Proof using . apply sketch_merge_ok. Qed.

Lemma range_merge_ok s s2 r X Y :
  wf_sketch s → wf_sketch s2 → same_layout s s2 → r < num_samples s →
  num_samples s ≤ 2 ^ 32 → cols_per_sample s ≤ 2 ^ 32 →
  represents_on (in_sample s r) s X → represents_on (in_sample s r) s2 Y →
  ∃ s', range_merge s2 r 1 s = (s', Ok tt) ∧ wf_sketch s' ∧ same_layout s s' ∧
    sample_idx s' = N.max (sample_idx s) r ∧ represents_on (in_sample s r) s' (X △ Y).
Proof using .
  intros Hwf Hwf2 HL Hr Hns Hcols HX HY. unfold range_merge.
  pose proof (wf_length s Hwf) as L1. pose proof (wf_length s2 Hwf2) as L2.
  pose proof (wf_total_bound s Hwf) as HB. pose proof (wf_bkt s Hwf) as Hb.
  assert (num_buckets s2 = num_buckets s) as En by (destruct HL as (_&_&_&_&_&?); done).
  pose proof (wf_total s Hwf) as Htot. pose proof (wf_columns s Hwf) as Hc.
  pose proof (wf_columns_bound s Hwf) as Hc32.
  rewrite (wrap_small 64 (r + 1)) by lia. rewrite (proj2 (N.ltb_ge _ _)) by lia.
  set (c := cols_per_sample s) in *. set (b := bkt_per_col s) in *.
  assert (r * c + c ≤ num_columns s) as Hrc by nia.
  assert (r * c * b + c * b ≤ num_buckets s - 1) as Hrcb by (rewrite Htot; nia).
  cbn [set_sample_idx cols_per_sample bkt_per_col num_buckets buckets].
  fold c b. rewrite N.mul_1_l.
  rewrite (wrap_small 64 c), (wrap_small 64 (r * c)) by lia.
  assert (c * b < 2 ^ 64) as Hcb by nia. assert (r * c * b < 2 ^ 64) as Hrb by nia.
  rewrite (wrap_small 64 (c * b)), (wrap_small 64 (r * c * b)) by done.
  rewrite usub_small by lia.
  destruct (merge_bucket_ok (buckets s2) (num_buckets s - 1) (buckets s))
    as (bs1 & -> & HU1); [lia..|]. simpl.
  destruct (merge_range_ok (buckets s2) (r * c * b) (c * b)
    (λ i, u64 (r * c * b + i)) bs1) as (bs2 & Hm & HU2).
  { intros k Hk. apply wrap_small. lia. }
  { rewrite (proj1 HU1). lia. }
  { lia. }
  rewrite Hm. clear Hm.
  pose proof (updated_trans _ _ _ (λ id, (id =? num_buckets s - 1) ||
     ((r * c * b <=? id) && (id <? r * c * b + c * b))) _ _ _ HU1 HU2) as [HLb HU].
  { done. }
  { intros id. bool_cases; lia || done. }
  eexists. split; [done|].
  split; [by apply wf_set_buckets; [apply wf_set_sample_idx|]|]. split; [done|].
  split; [done|]. apply represents_on_sample_idx with (i := sample_idx s).
  apply (represents_xor _ s s2); try done. intros id Hid Hin. rewrite HU.
  replace ((id =? num_buckets s - 1) || _) with true; [done|]. symmetry. destruct Hin as [->|Hin].
  - by rewrite N.eqb_refl.
  - fold c b in Hin. bool_cases; simpl; lia || done.
Qed.

Lemma zero_contents_ok s : wf_sketch s →
  ∃ s', zero_contents s = Ok s' ∧ wf_sketch s' ∧ same_layout s s' ∧ sample_idx s' = 0 ∧
    represents s' ∅.
Proof using .
  intros Hwf. unfold zero_contents. pose proof (wf_length s Hwf) as HL.
  destruct (updated_loop (λ _ _, bucket_zero) (λ k id, id <? k) (λ k id, id =? k)
    0 (num_buckets s)
    (λ i bs, _ ← of_option (bs !! i); mret (<[i := bucket_zero]> bs)) (buckets s))
    as (bs & -> & HLb & HU).
  - intros id. destruct (N.ltb_spec id 0) as [H|]; [by apply N.nlt_0_r in H|done].
  - intros k id Hk. bool_cases; lia || done.
  - intros k id Hk. bool_cases; lia || done.
  - intros k bs Hk Hlen. rewrite N.add_0_l.
    destruct (lookupN_lt_is_Some bs k) as [b Hb]; [lia|]. rewrite Hb.
    eexists. split; [done|]. apply (updated_one (λ _ _, bucket_zero)) with (b := b); [done|].
    intros j. apply N.eqb_eq.
  - eexists. split; [done|]. split; [by apply wf_set_sample_idx, wf_set_buckets|].
    split; [done|]. split; [done|]. intros id Hid _. simpl. simpl in Hid. rewrite HU.
    destruct (lookupN_lt_is_Some (buckets s) id) as [b ->]; [lia|]. simpl.
    rewrite (proj2 (N.ltb_lt _ _)) by done. by rewrite filter_none, set_bucket_empty.
Qed.

Lemma Sketch_new_ok vector_len seed samples cols s :
  Sketch_new vector_len seed samples cols = Ok s →
  seed < 2 ^ 64 → samples * cols ≤ 2 ^ 32 → 1 ≤ bkt_per_col s < 64 →
  wf_sketch s ∧ represents s ∅ ∧ sample_idx s = 0 ∧
  sk_seed s = seed ∧ num_samples s = samples ∧ cols_per_sample s = cols.
Proof using .
  unfold Sketch_new, sketch_layout. intros H Hseed Hsc Hb.
  destruct (calc_bkt_per_col vector_len) as [b| | |]; try done.
  cbn -[wrap] in H. injection H as <-. cbn -[wrap] in Hb |- *.
  rewrite (wrap_small 64 (samples * cols)) by lia.
  assert (samples * cols * b ≤ 2 ^ 32 * 64) as Hp by nia.
  set (p := samples * cols * b) in *. rewrite (wrap_small 64 p), (wrap_small 64 (p + 1)) by lia.
  split; [|split]; [|intros id Hid _; simpl in *|done].
  - split; simpl; try done; try lia. by rewrite length_replicate.
  - rewrite filter_none, set_bucket_empty, lookupN_eq.
    rewrite lookup_replicate_2 by lia. done.
Qed.
End Represents.

(** * Sampling *)

Section Sampling.
Context `{P : Platform} `{!PlatformLaws P}.

Lemma find_good_spec s ids : (∀ id, id ∈ ids → is_Some (buckets s !! id)) →
  ∃ r, find_good s ids = Ok r ∧
    ((∃ id b, id ∈ ids ∧ buckets s !! id = Some b ∧ r = mkSample (alpha b) GOOD ∧
        is_good b (to_long (checksum_seed s)) = true) ∨
     (r = mkSample 0 FAIL ∧ ∀ id b, id ∈ ids → buckets s !! id = Some b →
        is_good b (to_long (checksum_seed s)) = false)).
Proof using .
  induction ids as [|id ids IH]; intros Hs; simpl.
  - eexists. split; [done|]. right. split; [done|]. intros id b Hid. by apply not_elem_of_nil in Hid.
  - destruct (Hs id) as [b Hb]; [left|]. rewrite Hb. simpl.
    destruct (is_good b _) eqn:Eg.
    + eexists. split; [done|]. left. exists id, b. split; [left|done].
    + destruct IH as (r & -> & [(id' & b' & Hin & H)|[-> H]]).
      { intros id' Hin. apply Hs. by right. }
      * eexists. split; [done|]. left. exists id', b'. split; [by right|done].
      * eexists. split; [done|]. right. split; [done|].
        intros id' b' [->|Hin]%elem_of_cons Hb'; [congruence|eauto].
Qed.

Lemma collect_good_spec s ids ret : (∀ id, id ∈ ids → is_Some (buckets s !! id)) →
  ∃ ret', collect_good s ids ret = Ok ret' ∧
    ∀ x, x ∈ ret' ↔ x ∈ ret ∨ ∃ id b, id ∈ ids ∧ buckets s !! id = Some b ∧ x = alpha b ∧
        is_good b (to_long (checksum_seed s)) = true.
Proof using P PlatformLaws0.
  revert ret. induction ids as [|id ids IH]; intros ret Hs; simpl.
  - eexists. split; [done|]. intros x. split; [by left|].
    intros [?|(id & b & Hid & _)]; [done|]. by apply not_elem_of_nil in Hid.
  - destruct (Hs id) as [b Hb]; [left|]. rewrite Hb. simpl.
    destruct (IH (if is_good b (to_long (checksum_seed s)) then ret ∪ {[ alpha b ]} else ret))
      as (ret' & -> & Hret).
    { intros id' Hin. apply Hs. by right. }
    eexists. split; [done|]. intros x. rewrite Hret. split.
    + intros [Hx|(id' & b' & Hin & H)].
      * destruct (is_good b _) eqn:Eg; [|by left].
        apply elem_of_union in Hx as [?|Hx%elem_of_singleton]; [by left|]. subst x.
        right. exists id, b. split; [left|done].
      * right. exists id', b'. split; [by right|done].
    + intros [Hx|(id' & b' & [->|Hin]%elem_of_cons & Hb' & -> & Eg)].
      * left. destruct (is_good b _); set_solver.
      * simplify_eq. rewrite Eg. left. set_solver.
      * right. eauto 10.
Qed.

(** The ids the nested loops of a sample visit are the columns of that sample. *)
Lemma elem_of_sample_buckets s id : wf_sketch s → sample_idx s < num_samples s →
  num_samples s ≤ 2 ^ 32 → cols_per_sample s ≤ 2 ^ 32 →
  id ∈ sample_buckets s (u64 (sample_idx s * cols_per_sample s)) →
  id < num_buckets s ∧ in_sample s (sample_idx s) id.
Proof using .
  intros Hwf Hr Hns Hcols Hid. unfold sample_buckets in Hid.
  apply list_elem_of_bind in Hid as (i & Hid & Hi).
  apply list_elem_of_bind in Hid as (j & Hid & Hj). apply list_elem_of_singleton in Hid.
  apply elem_of_seqN in Hi, Hj.
  pose proof (wf_columns s Hwf) as Hc. pose proof (wf_columns_bound s Hwf) as Hc32.
  pose proof (wf_bkt s Hwf) as Hb. set (r := sample_idx s) in *.
  assert (r * cols_per_sample s + cols_per_sample s ≤ num_columns s) as Hrc by nia.
  assert (u64 (i + u64 (r * cols_per_sample s)) = i + r * cols_per_sample s) as E.
  { rewrite (wrap_small 64 (r * cols_per_sample s)) by lia. apply wrap_small. lia. }
  rewrite E in Hid. clear E.
  destruct (bucket_id_ok s Hwf (i + r * cols_per_sample s) j) as [E1 E2]; [lia..|].
  rewrite E1 in Hid. subst id. split; [lia|]. right. fold r. nia.
Qed.

(** While samples remain, sampling returns, whatever the buckets hold. *)
Lemma sample_returns s : wf_sketch s → sample_idx s < num_samples s ≤ 2 ^ 32 → cols_per_sample s ≤ 2 ^ 32 →
  ∃ r, sketch_sample s = (set_sample_idx (sample_idx s + 1) s, Ok r).
Proof using .
  intros Hwf [Hlt Hns] Hcols. unfold sketch_sample. rewrite (proj2 (N.leb_gt _ _)) by done.
  rewrite (wrap_small 64 (sample_idx s + 1)) by lia. set (s1 := set_sample_idx (sample_idx s + 1) s).
  pose proof (wf_length s Hwf). pose proof (wf_total s Hwf). pose proof (wf_total_bound s Hwf).
  destruct (lookupN_lt_is_Some (buckets s1) (usub 64 (num_buckets s1) 1)) as [det ->].
  { change (num_buckets s1) with (num_buckets s). change (buckets s1) with (buckets s). rewrite usub_small by lia. lia. }
  cbn [of_option mbind outcome_bind]. destruct (_ && _); [by eexists|]. destruct (is_good _ _); [by eexists|].
  destruct (find_good_spec s1 (sample_buckets s1 (u64 (sample_idx s * cols_per_sample s1)))) as (r & -> & _); [|by eexists].
  intros id Hid. apply (elem_of_sample_buckets s) in Hid as [Hid _]; [|done..]. apply lookupN_lt_is_Some.
  change (buckets s1) with (buckets s). lia.
Qed.

(** The checksums of the buckets sample [r] of a sketch of [X] looks at tell the
    truth: the deterministic bucket (all of [X]) and those of its columns. *)
Definition sample_reliable (s : Sketch) (r : N) (X : gset N) : Prop :=
  ∀ id, id < num_buckets s → in_sample s r id →
    bucket_reliable (sk_seed s) (filter (λ x, hits s x id = true) X).

Lemma sample_reliable_collision_free s r X G :
  collision_free (sk_seed s) G → X ⊆ G → sample_reliable s r X.
Proof using .
  intros Hc HX id _ _. apply Hc. intros x Hx. apply HX. by apply elem_of_filter in Hx as [_ ?].
Qed.

Lemma hits_det s x : hits s x (num_buckets s - 1) = true.
Proof using . unfold hits. by rewrite N.eqb_refl. Qed.

Lemma filter_hits_det s (X : gset N) : filter (λ x, hits s x (num_buckets s - 1) = true) X = X.
Proof using . apply set_eq. intros x. rewrite elem_of_filter, hits_det. tauto. Qed.

Lemma sample_reliable_layout s s' r X :
  same_layout s s' → sample_reliable s r X → sample_reliable s' r X.
Proof using .
  intros HL H id Hid Hin. pose proof HL as (E1 & E2 & E3 & E4 & E5 & E6).
  rewrite <-(filter_hits_layout s s') by done. rewrite <-E1. apply H; [by rewrite E6|].
  unfold in_sample in *. by rewrite E3, E5, E6.
Qed.

Lemma sample_reliable_det s r X : wf_sketch s → sample_reliable s r X → bucket_reliable (sk_seed s) X.
Proof using .
  intros Hwf H. rewrite <-(filter_hits_det s X). apply H; [|by left].
  rewrite (wf_total s Hwf). lia.
Qed.

(** What a sample of a set must be, when its checksums tell the truth. *)
Definition sample_spec (X : gset N) (r : SketchSample) : Prop :=
  match sample_result r with
  | ZERO => X = ∅ ∧ sample_index r = 0
  | GOOD => sample_index r ∈ X
  | FAIL => X ≠ ∅ ∧ (¬ ∃ x, X = {[ x ]}) ∧ sample_index r = 0
  end.

Lemma good_bucket_in s X id b :
  bucket_reliable (sk_seed s) (filter (λ x, hits s x id = true) X) →
  buckets s !! id = Some b →
  b = set_bucket (sk_seed s) (filter (λ x, hits s x id = true) X) →
  is_good b (to_long (checksum_seed s)) = true → alpha b ∈ X.
Proof using .
  intros [_ Hs] Hb -> Hg.
  destruct (Hs Hg) as [x Ex]. rewrite Ex, set_bucket_singleton. simpl.
  assert (x ∈ filter (λ x, hits s x id = true) X) as Hx by (rewrite Ex; by apply elem_of_singleton).
  by apply elem_of_filter in Hx as [_ ?].
Qed.

(** The deterministic bucket holds the whole set. *)
Lemma det_bucket s D X : wf_sketch s → D (num_buckets s - 1) → represents_on D s X →
  buckets s !! usub 64 (num_buckets s) 1 = Some (set_bucket (sk_seed s) X).
Proof using .
  intros Hwf HD HX. pose proof (wf_total_bound s Hwf). pose proof (wf_total s Hwf).
  rewrite usub_small by lia. rewrite HX by (done || lia). by rewrite filter_hits_det.
Qed.

Lemma zero_bucket_test b : (alpha b =? 0) && (gamma b =? 0) = true ↔ b = bucket_zero.
Proof using .
  destruct b as [a g]. rewrite andb_true_iff, !N.eqb_eq. simpl. unfold bucket_zero.
  split; [by intros [-> ->]|by intros [= -> ->]].
Qed.

Lemma sketch_sample_ok s X :
  wf_sketch s → sample_idx s < num_samples s ≤ 2 ^ 32 → cols_per_sample s ≤ 2 ^ 32 →
  represents_on (in_sample s (sample_idx s)) s X → sample_reliable s (sample_idx s) X →
  ∃ r, sketch_sample s = (set_sample_idx (sample_idx s + 1) s, Ok r) ∧ sample_spec X r.
Proof using .
  intros Hwf [Hlt Hns] Hcols HX Hcf. unfold sketch_sample.
  rewrite (proj2 (N.leb_gt _ _)) by done. rewrite (wrap_small 64 (sample_idx s + 1)) by lia.
  set (s1 := set_sample_idx (sample_idx s + 1) s).
  change (usub 64 (num_buckets s1) 1) with (usub 64 (num_buckets s) 1).
  change (buckets s1) with (buckets s).
  rewrite (det_bucket s _ X Hwf (or_introl eq_refl) HX).
  destruct (sample_reliable_det s _ X Hwf Hcf) as [Hz Hg]. simpl.
  destruct (_ && _) eqn:Ez.
  { apply zero_bucket_test in Ez. eexists. split; [done|]. split; [by apply Hz|done]. }
  change (checksum_seed s1) with (sk_seed s).
  destruct (is_good _ _) eqn:Eg.
  { eexists. split; [done|]. destruct (Hg eq_refl) as [x ->]. unfold sample_spec. simpl.
    rewrite set_bucket_singleton. by apply elem_of_singleton. }
  change (sample_buckets s1) with (sample_buckets s). change (cols_per_sample s1) with (cols_per_sample s).
  assert (∀ id, id ∈ sample_buckets s (u64 (sample_idx s * cols_per_sample s)) →
    buckets s !! id = Some (set_bucket (sk_seed s) (filter (λ x, hits s x id = true) X))) as Hids.
  { intros id Hid. apply elem_of_sample_buckets in Hid as [H1 H2]; [|done..]. by apply HX. }
  assert (∀ id, id ∈ sample_buckets s (u64 (sample_idx s * cols_per_sample s)) →
    bucket_reliable (sk_seed s) (filter (λ x, hits s x id = true) X)) as Hrel.
  { intros id Hid. apply elem_of_sample_buckets in Hid as [H1 H2]; [|done..]. by apply Hcf. }
  destruct (find_good_spec s1 (sample_buckets s (u64 (sample_idx s * cols_per_sample s))))
    as (r & -> & Hr).
  { intros id Hid. change (buckets s1) with (buckets s). rewrite Hids by done. eauto. }
  exists r. split; [done|]. destruct Hr as [(id & b & Hid & Hb & -> & Hgood)|[-> _]].
  - change (buckets s1) with (buckets s) in Hb. unfold sample_spec. simpl.
    pose proof (Hids id Hid) as Hb'. rewrite Hb in Hb'.
    apply (good_bucket_in s X id b); [by apply Hrel|done|by injection Hb'|done].
  - unfold sample_spec. simpl. split; [|split; [|done]].
    + intros ->. by rewrite set_bucket_empty in Ez.
    + intros [x ->]. rewrite set_bucket_singleton in Eg.
      by rewrite index_bucket_good in Eg.
Qed.
End Sampling.

(** * Serialisation and comparison *)

Section Serial.
Context `{P : Platform}.

(** A bucket whose members fit their types. *)
Definition bucket_fits (b : Bucket) : Prop := alpha b < 2 ^ vec_bits ∧ gamma b < 2 ^ vec_hash_bits.

Lemma length_bucket_object b : length (bucket_object b) = bucket_bytes.
Proof using . unfold bucket_object, bucket_bytes. by rewrite length_app, !length_le_bytes. Qed.

Lemma bucket_object_roundtrip b : bucket_fits b → bucket_of_object (bucket_object b) = b.
Proof using .
  intros [H1 H2]. destruct b as [a g]. unfold bucket_of_object, bucket_object. simpl in *.
  rewrite take_app_length', drop_app_length' by (by rewrite length_le_bytes).
  rewrite take_ge by (by rewrite length_le_bytes). by rewrite !le_value_bytes.
Qed.

Lemma read_buckets_serialize bs rest : Forall bucket_fits bs →
  read_buckets (length bs) ((bs ≫= bucket_object) ++ rest) = Ok (bs, rest).
Proof using .
  induction 1 as [|b bs Hb _ IH]; [done|]. cbn [length read_buckets].
  change ((b :: bs) ≫= bucket_object) with (bucket_object b ++ (bs ≫= bucket_object)).
  rewrite <-app_assoc. rewrite (proj2 (Nat.leb_le _ _)) by (rewrite length_app, length_bucket_object; lia).
  rewrite drop_app_length', take_app_length' by (by rewrite length_bucket_object).
  rewrite IH. simpl. by rewrite bucket_object_roundtrip.
Qed.

Lemma lookupN_seqN_forall {A} (l1 l2 : list A) (n : N) :
  length l1 = N.to_nat n → length l2 = N.to_nat n →
  (∀ i, i ∈ seqN 0 n → l1 !! i = l2 !! i) → l1 = l2.
Proof using .
  intros H1 H2 H. apply list_eqN. intros i. destruct (N.lt_ge_cases i n).
  - apply H, elem_of_seqN. lia.
  - rewrite !lookupN_ge_None by lia. done.
Qed.

Lemma buckets_eq_spec bs1 bs2 ids :
  (∀ i, i ∈ ids → is_Some (bs1 !! i) ∧ is_Some (bs2 !! i)) →
  ∃ r, buckets_eq bs1 bs2 ids = Ok r ∧ (r = true ↔ ∀ i, i ∈ ids → bs1 !! i = bs2 !! i).
Proof using .
  induction ids as [|i ids IH]; intros Hs; simpl.
  - exists true. split; [done|]. split; [|done]. intros _ i Hi. by apply not_elem_of_nil in Hi.
  - destruct (Hs i) as [[b1 E1] [b2 E2]]; [left|]. rewrite E1, E2. simpl.
    destruct (decide (b1 = b2)) as [->|Hne].
    + rewrite !N.eqb_refl. simpl. destruct IH as (r & -> & Hr); [intros j Hj; apply Hs; by right|].
      exists r. split; [done|]. rewrite Hr. split; intros H j.
      * intros [->|Hj]%elem_of_cons; [congruence|auto].
      * intros Hj. apply H. by right.
    + exists false. split.
      * destruct b1 as [a1 g1], b2 as [a2 g2]. simpl.
        destruct (N.eqb_spec a1 a2), (N.eqb_spec g1 g2); simpl; congruence || done.
      * split; [done|]. intros H. specialize (H i ltac:(left)). congruence.
Qed.
End Serial.

Lemma sketch_eta s : s = mkSketch (sk_seed s) (num_samples s) (cols_per_sample s) (num_columns s)
  (bkt_per_col s) (num_buckets s) (sample_idx s) (buckets s).
Proof. by destruct s. Qed.

(** Two sketches of one layout that represent one set are equal bucket for bucket. *)
Lemma represents_unique `{P : Platform} s1 s2 X :
  wf_sketch s1 → wf_sketch s2 → same_layout s1 s2 → represents s1 X → represents s2 X →
  buckets s1 = buckets s2.
Proof.
  intros W1 W2 HL H1 H2. assert (num_buckets s2 = num_buckets s1) as En
    by (destruct HL as (_&_&_&_&_&?); done).
  apply (lookupN_seqN_forall _ _ (num_buckets s1)).
  - apply W1.
  - rewrite <-En. apply W2.
  - intros i [_ Hi]%elem_of_seqN. rewrite H1, H2 by (done || lia).
    destruct HL as (E & HL). rewrite E. by rewrite (filter_hits_layout s1 s2).
Qed.

Section Fits.
Context `{P : Platform}.

Lemma set_bucket_fits seed X : (∀ x, x ∈ X → x < 2 ^ vec_bits) → bucket_fits (set_bucket seed X).
Proof using .
  induction X as [|x X Hx IH] using set_ind_L; intros Hlt.
  - rewrite set_bucket_empty. split; apply N.neq_0_lt_0, N.pow_nonzero; done.
  - assert ({[ x ]} ∪ X = X △ {[ x ]}) as -> by set_solver.
    destruct IH as [IH1 IH2]; [intros y Hy; apply Hlt; set_solver|].
    rewrite set_bucket_toggle. split; simpl; apply lxor_lt; try done.
    + apply Hlt. set_solver.
    + apply wrap_lt.
Qed.

Lemma represents_fits s X : wf_sketch s → represents s X →
  (∀ x, x ∈ X → x < 2 ^ vec_bits) → Forall bucket_fits (buckets s).
Proof using .
  intros Hwf HX Hlt. apply Forall_forall. intros b Hb.
  apply list_elem_of_lookup in Hb as [i Hi]. pose proof (lookup_lt_Some _ _ _ Hi) as Hi'.
  rewrite (wf_length s Hwf) in Hi'.
  pose proof (HX (N.of_nat i) ltac:(lia) I) as E. rewrite lookupN_eq, Nat2N.id, Hi in E.
  injection E as ->. apply set_bucket_fits. intros x Hx.
  apply elem_of_filter in Hx as [_ Hx]. auto.
Qed.
End Fits.

(** * Properties *)

(** Processing a stream of updates. *)
Definition sketch_stream `{P : Platform} (us : list N) (s : Sketch) : outcome Sketch :=
  ofold (λ u s, sketch_update s u) us s.

Section Streams.
Context `{P : Platform} `{!PlatformLaws P}.

Lemma sketch_stream_ok us : ∀ s X, wf_sketch s → represents s X →
  ∃ s', sketch_stream us s = Ok s' ∧ wf_sketch s' ∧ same_layout s s' ∧
    sample_idx s' = sample_idx s ∧ represents s' (X △ toggles us).
Proof using P PlatformLaws0.
  unfold sketch_stream. induction us as [|u us IH]; intros s X Hwf HX; simpl.
  - exists s. split; [done|]. split; [done|]. split; [done|]. split; [done|].
    change (toggles []) with (∅ : gset N). by rewrite (right_id ∅ symdiff).
  - destruct (represents_update s u X Hwf HX) as (s1 & -> & W1 & L1 & I1 & R1). simpl.
    destruct (IH s1 _ W1 R1) as (s2 & -> & W2 & L2 & I2 & R2). exists s2.
    split; [done|]. split; [done|]. split; [by transitivity s1|]. split; [congruence|].
    by rewrite toggles_cons, (assoc symdiff).
Qed.
End Streams.

(** C29. a sketch is a linear map of the vector its stream defines. From the
    constructor on, every stream of updates is processed without leaving the
    bucket array; the sketch reached depends only on which indices occur an odd
    number of times; and merging the sketches of two streams gives, bucket for
    bucket, the sketch of the concatenated stream. *)
Theorem sketch_linear `{P : Platform} `{!PlatformLaws P} vector_len seed samples cols s0 us vs us' :
  Sketch_new vector_len seed samples cols = Ok s0 →
  seed < 2 ^ 64 → samples * cols ≤ 2 ^ 32 → 1 ≤ bkt_per_col s0 < 64 →
  toggles us' = toggles us →
  ∃ s t w, sketch_stream us s0 = Ok s ∧ sketch_stream us' s0 = Ok s ∧
    sketch_stream vs s0 = Ok t ∧ sketch_stream (us ++ vs) s0 = Ok w ∧ sketch_merge s t = Ok w ∧
    represents s (toggles us).
Proof.
  intros Hnew Hseed Hcols Hbkt Htog.
  destruct (Sketch_new_ok _ _ _ _ _ Hnew) as (W0 & R0 & _); [done..|].
  destruct (sketch_stream_ok us s0 ∅ W0 R0) as (s & Es & Ws & Ls & Is & Rs).
  destruct (sketch_stream_ok us' s0 ∅ W0 R0) as (s' & Es' & Ws' & Ls' & Is' & Rs').
  destruct (sketch_stream_ok vs s0 ∅ W0 R0) as (t & Et & Wt & Lt & It & Rt).
  destruct (sketch_stream_ok (us ++ vs) s0 ∅ W0 R0) as (w & Ew & Ww & Lw & Iw & Rw).
  rewrite (left_id ∅ symdiff) in Rs, Rs', Rt, Rw.
  assert (same_layout s t) as Lst by (transitivity s0; [symmetry|]; done).
  destruct (sketch_merge_ok s t _ _ Ws Wt Lst Rs Rt) as (m & Em & Wm & Lm & Im & Rm).
  exists s, t, w. split; [done|]. split; [|split; [done|split; [done|split; [|done]]]].
  - rewrite Htog in Rs'. rewrite Es'. f_equal. rewrite (sketch_eta s), (sketch_eta s').
    assert (same_layout s' s) as L by (transitivity s0; [symmetry|]; done).
    rewrite (represents_unique s' s _ Ws' Ws L Rs' Rs), Is', <-Is.
    destruct L as (->&->&->&->&->&->). done.
  - rewrite toggles_app in Rw. rewrite Em. f_equal. rewrite (sketch_eta m), (sketch_eta w).
    assert (same_layout m w) as L.
    { transitivity s; [by symmetry|]. transitivity s0; [by symmetry|done]. }
    rewrite (represents_unique m w _ Wm Ww L Rm Rw), Im, Is, <-Iw.
    destruct L as (->&->&->&->&->&->). done.
Qed.

(** A small sketch to run the operations on: CameoSketch, vector length 100,
    seed 7, two samples of one column. *)
Definition demo_platform : Platform := toy_platform false false true.

Definition demo_sketch : outcome Sketch := @Sketch_new demo_platform 100 7 2 1.

Lemma sketch_linear_witness : ∃ s t w,
  @sketch_stream demo_platform [5; 9; 5] (from_outcome demo_sketch) = Ok s ∧
  @sketch_stream demo_platform [4] (from_outcome demo_sketch) = Ok t ∧
  @sketch_stream demo_platform [5; 9; 5; 4] (from_outcome demo_sketch) = Ok w ∧
  sketch_merge s t = Ok w.
Proof.
  destruct (@sketch_linear demo_platform _ 100 7 2 1 (from_outcome demo_sketch)
    [5; 9; 5] [4] [9]) as (s & t & w & H1 & _ & H2 & H3 & H4 & _).
  - vm_compute. reflexivity.
  - reflexivity.
  - vm_compute. discriminate.
  - vm_compute. split; [discriminate|reflexivity].
  - vm_compute. reflexivity.
  - eauto 10.
Defined.

(** C31. a sample is sound. If the checksums of the buckets a sample looks at
    tell the truth, sampling never throws while samples remain, consumes one
    sample, and returns: [ZERO] only for the empty set, [GOOD] with an element of
    the set, [FAIL] only when the set has several elements. A single element is
    therefore always found. *)
Theorem sample_sound `{P : Platform} `{!PlatformLaws P} s X :
  wf_sketch s → represents s X → sample_reliable s (sample_idx s) X →
  sample_idx s < num_samples s ≤ 2 ^ 32 → cols_per_sample s ≤ 2 ^ 32 →
  ∃ r, sketch_sample s = (set_sample_idx (sample_idx s + 1) s, Ok r) ∧ sample_spec X r ∧
    (sample_result r = ZERO ↔ X = ∅) ∧ (∀ x, X = {[ x ]} → r = mkSample x GOOD).
Proof.
  intros Hwf HX Hcf Hidx Hcols.
  destruct (sketch_sample_ok s X Hwf Hidx Hcols) as (r & -> & Hr); [|done|].
  { by apply (represents_on_weaken (λ _, True)). }
  exists r. split; [done|]. split; [done|]. destruct r as [i []]; unfold sample_spec in Hr; simpl in *.
  - split; [split; [done|]; set_solver|]. intros x ->. f_equal. set_solver.
  - destruct Hr as [-> ->]. split; [done|]. intros x Hx. set_solver.
  - destruct Hr as (H1 & H2 & ->). split; [split; [done|tauto]|]. intros x ->. exfalso. eauto.
Qed.

Lemma sample_sound_witness :
  ∃ s r, @sketch_stream demo_platform [5; 9; 5] (from_outcome demo_sketch) = Ok s ∧
    (@sketch_sample demo_platform s).2 = Ok r ∧ r = mkSample 9 GOOD.
Proof.
  destruct (@Sketch_new_ok demo_platform 100 7 2 1 (from_outcome demo_sketch))
    as (W & R & I & _); [vm_compute; (reflexivity || discriminate || (split; [discriminate|reflexivity]))..|].
  destruct (@sketch_stream_ok demo_platform _ [5; 9; 5] _ _ W R) as (s & Es & Ws & Ls & Is & Rs).
  destruct (@sample_sound demo_platform _ s {[ 9 ]}) as (r & Er & _ & _ & Hr).
  - exact Ws.
  - replace {[ 9 ]} with (∅ △ toggles [5; 9; 5] : gset N) by (vm_compute; reflexivity). exact Rs.
  - apply (@sample_reliable_collision_free demo_platform) with (G := {[ 9 ]}); [|done].
    replace (sk_seed s) with 7 by (destruct Ls as [<- _]; reflexivity).
    apply (@collision_free_decide demo_platform 7 [9]). vm_compute. reflexivity.
  - rewrite Is, I. replace (num_samples s) with 2 by (destruct Ls as (_ & <- & _); reflexivity).
    split; [reflexivity|discriminate].
  - replace (cols_per_sample s) with 1 by (destruct Ls as (_ & _ & <- & _); reflexivity).
    discriminate.
  - exists s, r. rewrite Er. split; [exact Es|]. split; [reflexivity|]. by apply Hr.
Defined.

(** An exhaustive sample is sound: every index it returns is an element of
    the represented set, [ZERO] means the set is empty, [FAIL] that nothing was
    found, and a [GOOD] result is not empty. *)
Theorem exhaustive_sample_sound `{P : Platform} `{!PlatformLaws P} s X :
  wf_sketch s → represents s X → sample_reliable s (sample_idx s) X →
  sample_idx s < num_samples s ≤ 2 ^ 32 → cols_per_sample s ≤ 2 ^ 32 →
  ∃ r, exhaustive_sample s = (set_sample_idx (sample_idx s + 1) s, Ok r) ∧
    sample_idxs r ⊆ X ∧
    (exhaustive_result r = ZERO ↔ X = ∅) ∧
    (exhaustive_result r = GOOD ↔ sample_idxs r ≠ ∅).
Proof.
  intros Hwf HX Hcf [Hlt Hns] Hcols. unfold exhaustive_sample.
  rewrite (proj2 (N.leb_gt _ _)) by done. rewrite (wrap_small 64 (sample_idx s + 1)) by lia.
  set (s1 := set_sample_idx (sample_idx s + 1) s).
  change (usub 64 (num_buckets s1) 1) with (usub 64 (num_buckets s) 1).
  change (buckets s1) with (buckets s).
  rewrite (det_bucket s _ X Hwf I HX).
  destruct (sample_reliable_det s _ X Hwf Hcf) as [Hz Hg]. simpl.
  destruct (_ && _) eqn:Ez.
  { apply zero_bucket_test in Ez. eexists. split; [done|]. simpl. rewrite (Hz Ez). set_solver. }
  assert (X ≠ ∅) as Hne by (intros ->; by rewrite set_bucket_empty in Ez).
  change (checksum_seed s1) with (sk_seed s).
  destruct (is_good _ _) eqn:Eg.
  { eexists. split; [done|]. destruct (Hg eq_refl) as [x ->]. simpl.
    rewrite set_bucket_singleton. simpl. set_solver. }
  change (sample_buckets s1) with (sample_buckets s).
  change (cols_per_sample s1) with (cols_per_sample s).
  assert (∀ id, id ∈ sample_buckets s (u64 (sample_idx s * cols_per_sample s)) →
    buckets s !! id = Some (set_bucket (sk_seed s) (filter (λ x, hits s x id = true) X))) as Hids.
  { intros id Hid. apply elem_of_sample_buckets in Hid as [H1 H2]; [|done..]. by apply HX. }
  assert (∀ id, id ∈ sample_buckets s (u64 (sample_idx s * cols_per_sample s)) →
    bucket_reliable (sk_seed s) (filter (λ x, hits s x id = true) X)) as Hrel.
  { intros id Hid. apply elem_of_sample_buckets in Hid as [H1 H2]; [|done..]. by apply Hcf. }
  destruct (collect_good_spec s1 (sample_buckets s (u64 (sample_idx s * cols_per_sample s))) ∅)
    as (ret & -> & Hret).
  { intros id Hid. change (buckets s1) with (buckets s). rewrite Hids by done. eauto. }
  eexists. split; [done|]. simpl. split.
  - intros x [Hx|(id & b & Hid & Hb & -> & Hgood)]%Hret; [set_solver|].
    change (buckets s1) with (buckets s) in Hb. pose proof (Hids id Hid) as Hb'.
    rewrite Hb in Hb'. apply (good_bucket_in s X id b); [by apply Hrel|done|by injection Hb'|done].
  - destruct (N.eqb_spec (N.of_nat (size ret)) 0) as [E|E].
    + split; [done|]. split; [done|]. intros H. exfalso. apply H.
      apply leibniz_equiv, size_empty_inv. lia.
    + split; [done|]. split; [|done]. intros _ ->. by rewrite size_empty in E.
Qed.

Lemma demo_stream_facts : ∃ s, @sketch_stream demo_platform [5; 9; 5] (from_outcome demo_sketch) = Ok s ∧
  wf_sketch s ∧ @represents demo_platform s {[ 9 ]} ∧ @sample_reliable demo_platform s (sample_idx s) {[ 9 ]} ∧
  sample_idx s < num_samples s ≤ 2 ^ 32 ∧ cols_per_sample s ≤ 2 ^ 32.
Proof.
  destruct (@Sketch_new_ok demo_platform 100 7 2 1 (from_outcome demo_sketch))
    as (W & R & I & _); [vm_compute; (reflexivity || discriminate || (split; [discriminate|reflexivity]))..|].
  destruct (@sketch_stream_ok demo_platform _ [5; 9; 5] _ _ W R) as (s & Es & Ws & Ls & Is & Rs).
  exists s. split; [exact Es|]. split; [exact Ws|]. split.
  { replace {[ 9 ]} with (∅ △ toggles [5; 9; 5] : gset N) by (vm_compute; reflexivity). exact Rs. }
  split.
  { apply (@sample_reliable_collision_free demo_platform) with (G := {[ 9 ]}); [|done].
    destruct Ls as (<- & _). apply (@collision_free_decide demo_platform 7 [9]).
    vm_compute. reflexivity. }
  destruct Ls as (_ & <- & <- & _). rewrite Is, I.
  vm_compute. repeat split; reflexivity || discriminate.
Qed.

Lemma exhaustive_sample_sound_witness : ∃ s r,
  @sketch_stream demo_platform [5; 9; 5] (from_outcome demo_sketch) = Ok s ∧
  (@exhaustive_sample demo_platform s).2 = Ok r ∧ sample_idxs r ⊆ {[ 9 ]}.
Proof.
  destruct demo_stream_facts as (s & Es & H1 & H2 & H3 & H4 & H5).
  destruct (@exhaustive_sample_sound demo_platform _ s {[ 9 ]} H1 H2 H3 H4 H5) as (r & Er & Hr & _).
  exists s, r. rewrite Er. split; [exact Es|]. split; [reflexivity|exact Hr].
Defined.

(** Taking a sample is never the identity on the counter, not even at its end. *)
Lemma sample_idx_moves s : set_sample_idx (u64 (sample_idx s + 1)) s ≠ s.
Proof.
  intros E. apply (f_equal sample_idx) in E. simpl in E. pose proof (wrap_lt 64 (sample_idx s + 1)).
  destruct (N.lt_ge_cases (sample_idx s + 1) (2 ^ 64)) as [Hs|Hs].
  - rewrite wrap_small in E by done. lia.
  - unfold wrap in E. pose proof (N.div_mod (sample_idx s + 1) (2 ^ 64)).
    pose proof (N.mod_lt (sample_idx s + 1) (2 ^ 64)). lia.
Qed.

(** C35. Sampling is a counter. Both kinds of sample throw
    [OutOfSamplesException], leaving the sketch as it is, exactly when
    [num_samples] samples were taken; before that neither throws anything, and
    both count the sample. [reset_sample_state] makes the sketch samplable again.
    A range merge beyond the last sample puts the sketch in the exhausted state in
    a build without assertions, and stops the program in one with them. *)
Theorem sample_exhaustion `{P : Platform} s other start n :
  let exhausted := OutOfSamplesException (sk_seed s) (num_samples s) (sample_idx s) in
  (num_samples s ≤ sample_idx s ↔ sketch_sample s = (s, Throw exhausted)) ∧
  (num_samples s ≤ sample_idx s ↔ exhaustive_sample s = (s, Throw exhausted)) ∧
  (sample_idx s < num_samples s →
     (sketch_sample s).1 = set_sample_idx (u64 (sample_idx s + 1)) s ∧
     (exhaustive_sample s).1 = set_sample_idx (u64 (sample_idx s + 1)) s ∧
     (∀ e, (sketch_sample s).2 ≠ Throw e) ∧ (∀ e, (exhaustive_sample s).2 ≠ Throw e)) ∧
  (0 < num_samples s → sample_idx (reset_sample_state s) < num_samples (reset_sample_state s)) ∧
  (num_samples s < u64 (start + n) →
     range_merge other start n s =
       if NDEBUG then (set_sample_idx (num_samples s) s, Ok tt) else (s, Abort)).
Proof.
  intros exhausted.
  assert (∀ ids e, find_good (set_sample_idx (u64 (sample_idx s + 1)) s) ids ≠ Throw e) as Hfind.
  { intros ids e. induction ids as [|id ids IH]; [done|]. simpl. destruct (_ !! id); [|done]. simpl. by destruct (is_good _ _). }
  assert (∀ ids ret e, collect_good (set_sample_idx (u64 (sample_idx s + 1)) s) ids ret ≠ Throw e) as Hcollect.
  { induction ids as [|id ids IH]; intros ret e; [done|]. simpl. destruct (_ !! id); [|done]. apply IH. }
  unfold sketch_sample, exhaustive_sample. destruct (N.leb_spec (num_samples s) (sample_idx s)) as [H|H].
  - split_and!; try done; [lia|]. intros Hr. unfold range_merge, cassert. rewrite (proj2 (N.ltb_lt _ _)) by done. by destruct NDEBUG.
  - split_and!; try done.
    + split; [lia|]. intros E. by destruct (sample_idx_moves s); injection E.
    + split; [lia|]. intros E. by destruct (sample_idx_moves s); injection E.
    + intros _. split; [done|]. split; [done|]. cbn [snd]. destruct (buckets _ !! _) as [det|]; [|done]. cbn [of_option mbind outcome_bind].
      destruct (_ && _); [done|]. destruct (is_good _ _); [done|]. split; [intros e; apply Hfind|]. intros e.
      set (ids := sample_buckets _ _). specialize (Hcollect ids ∅). destruct (collect_good _ ids ∅); try done. naive_solver.
    + intros Hr. unfold range_merge, cassert. rewrite (proj2 (N.ltb_lt _ _)) by done. by destruct NDEBUG.
Qed.

Lemma sample_exhaustion_witness : ∃ e,
  (@sketch_sample demo_platform (set_sample_idx 2 (from_outcome demo_sketch))).2 = Throw e.
Proof.
  destruct (@sample_exhaustion demo_platform (set_sample_idx 2 (from_outcome demo_sketch))
    (from_outcome demo_sketch) 2 1) as (H & _). eexists.
  rewrite (proj1 H); [reflexivity|]. vm_compute. discriminate.
Defined.

Lemma Sketch_deserialize_serialize `{P : Platform} vector_len s l X rest :
  wf_sketch s → represents s X → (∀ x, x ∈ X → x < 2 ^ vec_bits) →
  sketch_layout vector_len (sk_seed s) (num_samples s) (cols_per_sample s) = Ok l →
  same_layout l s →
  Sketch_deserialize vector_len (sk_seed s) (num_samples s) (cols_per_sample s)
    (serialize s ++ rest) = Ok (set_sample_idx 0 s, rest).
Proof.
  intros Hwf HX Hlt Hl HL. unfold Sketch_deserialize. rewrite Hl. simpl.
  assert (num_buckets l = num_buckets s) as -> by (destruct HL as (_&_&_&_&_&?); done).
  rewrite <-(wf_length s Hwf). unfold serialize.
  rewrite read_buckets_serialize by (by eapply represents_fits). simpl. do 2 f_equal.
  rewrite (sketch_eta (set_buckets (buckets s) l)). simpl. destruct HL as (->&->&->&->&->&->).
  unfold sketch_layout in Hl. destruct (calc_bkt_per_col vector_len); try done.
  injection Hl as <-. done.
Qed.

(** Writing a sketch and reading it back with the same parameters restores
    every bucket, whatever follows in the stream, and starts with no sample
    taken. *)
Theorem sketch_serial_roundtrip `{P : Platform} vector_len s l X rest :
  wf_sketch s → represents s X → (∀ x, x ∈ X → x < 2 ^ vec_bits) →
  sketch_layout vector_len (sk_seed s) (num_samples s) (cols_per_sample s) = Ok l →
  same_layout l s →
  Sketch_deserialize vector_len (sk_seed s) (num_samples s) (cols_per_sample s)
    (serialize s ++ rest) = Ok (set_sample_idx 0 s, rest).
Proof. apply Sketch_deserialize_serialize. Qed.

Lemma sketch_serial_roundtrip_witness : ∃ s,
  @sketch_stream demo_platform [5; 9; 5] (from_outcome demo_sketch) = Ok s ∧
  @Sketch_deserialize demo_platform 100 7 2 1 (@serialize demo_platform s ++ [1; 2])
    = Ok (set_sample_idx 0 s, [1; 2]).
Proof.
  destruct (@Sketch_new_ok demo_platform 100 7 2 1 (from_outcome demo_sketch))
    as (W & R & I & _); [vm_compute; (reflexivity || discriminate || (split; [discriminate|reflexivity]))..|].
  destruct (@sketch_stream_ok demo_platform _ [5; 9; 5] _ _ W R) as (s & Es & Ws & Ls & Is & Rs).
  exists s. split; [exact Es|]. pose proof Ls as (E1 & E2 & E3 & _).
  change 7 with (sk_seed (from_outcome demo_sketch)).
  change 2 with (num_samples (from_outcome demo_sketch)) at 1.
  change 1 with (cols_per_sample (from_outcome demo_sketch)) at 1.
  rewrite E1, E2, E3.
  eapply (@sketch_serial_roundtrip demo_platform 100 s (set_buckets [] (from_outcome demo_sketch)));
    [exact Ws|exact Rs| | |].
  - intros x Hx. replace (∅ △ toggles [5; 9; 5] : gset N) with ({[ 9 ]} : gset N) in Hx
      by (vm_compute; reflexivity).
    apply elem_of_singleton in Hx as ->. reflexivity.
  - rewrite <-E1, <-E2, <-E3. vm_compute. reflexivity.
  - exact Ls.
Defined.

(** [operator==] reads no bucket out of bounds on well-formed sketches and
    answers whether size, seed and every bucket agree. *)
Theorem sketch_eqb_spec s1 s2 : wf_sketch s1 → wf_sketch s2 →
  ∃ r, sketch_eqb s1 s2 = Ok r ∧
    (r = true ↔ num_buckets s1 = num_buckets s2 ∧ sk_seed s1 = sk_seed s2 ∧
                buckets s1 = buckets s2).
Proof.
  intros W1 W2. unfold sketch_eqb.
  destruct (N.eqb_spec (num_buckets s1) (num_buckets s2)) as [En|Hn]; simpl;
    [|exists false; split; [done|]; split; [done|tauto]].
  destruct (N.eqb_spec (sk_seed s1) (sk_seed s2)) as [Es|Hs]; simpl;
    [|exists false; split; [done|]; split; [done|tauto]].
  pose proof (wf_length s1 W1) as L1. pose proof (wf_length s2 W2) as L2. rewrite <-En in L2.
  destruct (buckets_eq_spec (buckets s1) (buckets s2) (seqN 0 (num_buckets s1))) as (r & -> & Hr).
  { intros i [_ Hi]%elem_of_seqN. split; apply lookupN_lt_is_Some; lia. }
  exists r. split; [done|]. rewrite Hr. split.
  - intros H. split; [done|]. split; [done|]. by apply (lookupN_seqN_forall _ _ (num_buckets s1)).
  - intros (_ & _ & ->) i _. done.
Qed.

Lemma sketch_eqb_spec_witness :
  ∃ r, sketch_eqb (from_outcome demo_sketch) (from_outcome demo_sketch) = Ok r ∧ r = true.
Proof.
  destruct (@Sketch_new_ok demo_platform 100 7 2 1 (from_outcome demo_sketch))
    as (W & _); [vm_compute; (reflexivity || discriminate || (split; [discriminate|reflexivity]))..|].
  destruct (sketch_eqb_spec _ _ W W) as (r & Hr & H). exists r. split; [exact Hr|].
  apply H. repeat split; reflexivity.
Defined.
