(* ===== verification/SketchOps.v ===== *)
(** Type safety of [Sketch].

    Whatever sequence of methods is called on a sketch, with arguments in the
    range of their types and sketches of the same layout, the members stay in
    the range of theirs, no index leaves the bucket array, and the only failures
    are the documented ones. Unlike the theorems of file Sketch this says
    nothing about contents, so it needs no assumption on the hash. *)
From S2P Require Import Prelude Float64 Platform XorSet Bucket Sketch.

Open Scope N_scope.

Section Ops.
Context `{P : Platform}.

Inductive sketch_op : Type :=
| OpUpdate (update_idx : N)
| OpMerge (other : Sketch)
| OpRangeMerge (other : Sketch) (start_sample n_samples : N)
| OpMergeRaw (raw_buckets : list Bucket)
| OpZero
| OpSample
| OpExhaustive
| OpReset
| OpCopy.

Definition in_place (f : Sketch → outcome Sketch) : M Sketch unit := run_loop (λ s, s ← f s; mret (s, tt)).

Definition run_op (o : sketch_op) : M Sketch unit :=
  match o with
  | OpUpdate x => in_place (λ s, sketch_update s x)
  | OpMerge other => in_place (λ s, sketch_merge s other)
  | OpRangeMerge other start n => range_merge other start n
  | OpMergeRaw raw => in_place (λ s, merge_raw_bucket_buffer s raw)
  | OpZero => in_place zero_contents
  | OpSample => _ ← sketch_sample; mret tt
  | OpExhaustive => _ ← exhaustive_sample; mret tt
  | OpReset => modify reset_sample_state
  | OpCopy => modify Sketch_copy
  end.

(** The objects methods work on. *)
Record typed_sketch (s : Sketch) : Prop := {
  ty_wf : wf_sketch s;
  ty_buckets : Forall bucket_fits (buckets s);
  ty_sizes : num_samples s ≤ 2 ^ 32 ∧ cols_per_sample s ≤ 2 ^ 32;
  ty_idx : sample_idx s ≤ num_samples s
}.

(** What a caller owes. *)
Definition op_ok (s : Sketch) (o : sketch_op) : Prop :=
  match o with
  | OpUpdate x => x < 2 ^ vec_bits
  | OpMerge other => typed_sketch other ∧ same_layout s other
  | OpRangeMerge other start n => typed_sketch other ∧ same_layout s other ∧ start + n < 2 ^ 64
  | OpMergeRaw raw => length raw = N.to_nat (num_buckets s) ∧ Forall bucket_fits raw
  | _ => True
  end.

(** How a call may end. *)
Definition documented (s : Sketch) (o : sketch_op) (r : outcome unit) : Prop :=
  match r with
  | Ok _ => True
  | Throw e => (o = OpSample ∨ o = OpExhaustive) ∧ sample_idx s = num_samples s ∧
      e = OutOfSamplesException (sk_seed s) (num_samples s) (sample_idx s)
  | Abort => NDEBUG = false ∧ ∃ other start n, o = OpRangeMerge other start n ∧ num_samples s < start + n
  | Undef => False
  end.

(** ** Printing *)

(** A printed bucket: its two members, and whether it is good. *)
Definition print_bucket (s : Sketch) (bkt : Bucket) : N * N * bool :=
  (alpha bkt, gamma bkt, is_good bkt (to_long (checksum_seed s))).

(** [unsigned bucket_id] keeps the low 32 bits. *)
Definition print_at (s : Sketch) (i j : N) : outcome (N * N * bool) :=
  let bucket_id := wrap 32 (u64 (u64 (i * bkt_per_col s) + j)) in
  bkt ← of_option (buckets s !! bucket_id);
  mret (print_bucket s bkt).

(** [operator<<]: the deterministic bucket, and a block of lines per column. *)
Definition print_sketch (s : Sketch) : outcome ((N * N * bool) * list (list (N * N * bool))) :=
  bkt ← of_option (buckets s !! usub 64 (num_buckets s) 1);
  blocks ← ofold (λ i blocks,
             block ← ofold (λ j block, line ← print_at s i j; mret (block ++ [line])) (seqN 0 (bkt_per_col s)) [];
             mret (blocks ++ [block])) (seqN 0 (num_columns s)) [];
  mret (print_bucket s bkt, blocks).
End Ops.

Section Types.
Context `{P : Platform} `{!PlatformLaws P}.
Implicit Type s : Sketch.

Lemma bucket_zero_fits : bucket_fits bucket_zero.
Proof using . split; apply N.neq_0_lt_0, N.pow_nonzero; done. Qed.

Lemma bucket_update_fits b x h : bucket_fits b → x < 2 ^ vec_bits → h < 2 ^ vec_hash_bits →
  bucket_fits (bucket_update b x h).
Proof using . intros [? ?] ? ?. split; simpl; by apply lxor_lt. Qed.

Lemma bucket_xor_fits b c : bucket_fits b → bucket_fits c → bucket_fits (bucket_xor b c).
Proof using . intros Hb [? ?]. by apply bucket_update_fits. Qed.

Lemma default_fits (bs : list Bucket) (id : N) : Forall bucket_fits bs → bucket_fits (default bucket_zero (bs !! id)).
Proof using .
  intros Hbs. destruct (bs !! id) as [b|] eqn:E; [|apply bucket_zero_fits].
  by apply (Forall_lookup_1 _ _ _ _ Hbs E).
Qed.

Lemma updated_fits D f bs bs' : (∀ id b, bucket_fits b → bucket_fits (f id b)) → updated D f bs bs' →
  Forall bucket_fits bs → Forall bucket_fits bs'.
Proof using .
  intros Hf [_ HU] Hbs. apply Forall_lookup. intros i b Hi. specialize (HU (N.of_nat i)).
  rewrite !lookupN_eq, !Nat2N.id, Hi in HU. destruct (bs !! i) as [c|] eqn:Ec; [|done]. injection HU as ->.
  pose proof (Forall_lookup_1 _ _ _ _ Hbs Ec) as Hc. destruct (D (N.of_nat i)); auto.
Qed.

(** Replacing the buckets keeps an object well-typed. *)
Lemma typed_set_buckets s bs : typed_sketch s → length bs = length (buckets s) → Forall bucket_fits bs →
  typed_sketch (set_buckets bs s).
Proof using . intros [Hwf _ Hsz Hi] HL Hbs. split; try done. by apply wf_set_buckets. Qed.

Lemma typed_set_sample_idx s i : typed_sketch s → i ≤ num_samples s → typed_sketch (set_sample_idx i s).
Proof using . intros [Hwf Hb Hsz _] Hi. split; try done. by apply wf_set_sample_idx. Qed.

(** What a call leaves. *)
Definition step_ok s (o : sketch_op) : Prop :=
  let '(s', r) := run_op o s in typed_sketch s' ∧ same_layout s s' ∧ documented s o r.

Lemma in_place_ok s o f bs D g : run_op o = in_place f → f s = Ok (set_buckets bs s) → typed_sketch s →
  updated D g (buckets s) bs → (∀ id b, bucket_fits b → bucket_fits (g id b)) → step_ok s o.
Proof using .
  intros Eo Ef Ht HU Hg. unfold step_ok. rewrite Eo. unfold in_place, run_loop. rewrite Ef. simpl.
  split; [|by split]. apply typed_set_buckets; [done|apply HU|]. apply (updated_fits D g (buckets s)); [done..|apply Ht].
Qed.

Lemma merge_all_ok s (other : list Bucket) : typed_sketch s → length other = N.to_nat (num_buckets s) →
  ∃ bs, ofold (merge_bucket other) (seqN 0 (num_buckets s)) (buckets s) = Ok bs ∧
    updated (λ id, (0 <=? id) && (id <? 0 + num_buckets s)) (λ j b, bucket_xor b (default bucket_zero (other !! j))) (buckets s) bs.
Proof using .
  intros Ht HL. pose proof (wf_length s (ty_wf s Ht)).
  exact (merge_range_ok other 0 (num_buckets s) (λ i, i) (buckets s) (λ k _, eq_sym (N.add_0_l k)) ltac:(lia) ltac:(lia)).
Qed.

Lemma sketch_merge_step_ok s o other : run_op o = in_place (λ s, bs ← ofold (merge_bucket other) (seqN 0 (num_buckets s)) (buckets s);
    mret (set_buckets bs s)) → typed_sketch s → length other = N.to_nat (num_buckets s) → Forall bucket_fits other → step_ok s o.
Proof using .
  intros Eo Ht HL Hf. destruct (merge_all_ok s other Ht HL) as (bs & E & HU).
  assert ((bs ← ofold (merge_bucket other) (seqN 0 (num_buckets s)) (buckets s); mret (set_buckets bs s)) =
    Ok (set_buckets bs s)) as Ef by (by rewrite E).
  apply (in_place_ok s o _ bs _ _ Eo Ef Ht HU). intros id b Hb. by apply bucket_xor_fits, default_fits.
Qed.

Lemma range_merge_step_ok s other start n : typed_sketch s → typed_sketch other → same_layout s other →
  start + n < 2 ^ 64 → step_ok s (OpRangeMerge other start n).
Proof using .
  intros Ht Ht2 HL Hsn. unfold step_ok. cbn [run_op]. unfold range_merge. rewrite (wrap_small 64 (start + n)) by done.
  destruct (N.ltb_spec (num_samples s) (start + n)) as [Hlt|Hge].
  - unfold cassert, mbind, M_bind. rewrite orb_false_r. destruct NDEBUG eqn:En; simpl.
    + split; [by apply typed_set_sample_idx|by split].
    + split; [done|]. split; [done|]. split; [done|]. by exists other, start, n.
  - pose proof Ht as [Hwf Hb [Hns Hcols] Hi]. pose proof (wf_length s Hwf) as L1. pose proof (wf_length other (ty_wf _ Ht2)) as L2.
    assert (num_buckets other = num_buckets s) as En by (destruct HL as (_&_&_&_&_&?); done). rewrite En in L2.
    pose proof (wf_total_bound s Hwf) as HB. pose proof (wf_bkt s Hwf) as Hbk. pose proof (wf_total s Hwf) as Htot.
    pose proof (wf_columns s Hwf) as Hc. pose proof (wf_columns_bound s Hwf) as Hc32.
    cbn [set_sample_idx cols_per_sample bkt_per_col num_buckets buckets].
    set (c := cols_per_sample s) in *. set (b := bkt_per_col s) in *.
    assert (start * c + n * c ≤ num_columns s) as Hrc by (rewrite Hc, <-N.mul_add_distr_r; by apply N.mul_le_mono_r).
    assert (start * c * b + n * c * b ≤ num_buckets s - 1) as Hrcb.
    { rewrite Htot, <-N.mul_add_distr_r, N.add_sub. by apply N.mul_le_mono_r. }
    rewrite (wrap_small 64 (start * c)), (wrap_small 64 (n * c)) by lia.
    rewrite (wrap_small 64 (start * c * b)), (wrap_small 64 (n * c * b)), usub_small by lia.
    destruct (merge_bucket_ok (buckets other) (num_buckets s - 1) (buckets s)) as (bs1 & -> & HU1); [lia..|].
    cbn [mbind outcome_bind].
    destruct (merge_range_ok (buckets other) (start * c * b) (n * c * b) (λ i, u64 (start * c * b + i)) bs1) as (bs2 & -> & HU2).
    { intros k Hk. apply wrap_small. lia. }
    { rewrite (proj1 HU1). lia. }
    { lia. }
    assert (∀ id x, bucket_fits x → bucket_fits (bucket_xor x (default bucket_zero (buckets other !! id)))) as Hx.
    { intros id x Hxf. apply bucket_xor_fits; [done|]. apply default_fits, Ht2. }
    split; [|by split]. apply typed_set_buckets.
    + apply typed_set_sample_idx; [done|]. lia.
    + simpl. rewrite (proj1 HU2). apply HU1.
    + apply (updated_fits _ _ _ _ Hx HU2), (updated_fits _ _ _ _ Hx HU1), Hb.
Qed.

(** Sampling reads inside the array. *)
Lemma sample_ids_ok s : typed_sketch s → sample_idx s < num_samples s →
  ∀ id, id ∈ sample_buckets s (u64 (sample_idx s * cols_per_sample s)) → is_Some (buckets s !! id).
Proof using .
  intros [Hwf _ [Hns Hcols] _] Hlt id Hid. apply elem_of_sample_buckets in Hid as [Hid _]; [|done..].
  apply lookupN_lt_is_Some. pose proof (wf_length s Hwf). lia.
Qed.

Lemma det_lookup s : typed_sketch s → is_Some (buckets s !! usub 64 (num_buckets s) 1).
Proof using .
  intros [Hwf _ _ _]. pose proof (wf_length s Hwf). pose proof (wf_total s Hwf). pose proof (wf_total_bound s Hwf).
  rewrite usub_small by lia. apply lookupN_lt_is_Some. lia.
Qed.

Lemma sample_step_ok s : typed_sketch s → step_ok s OpSample.
Proof using PlatformLaws0.
  intros Ht. unfold step_ok. cbn [run_op]. unfold mbind, M_bind. pose proof (ty_idx s Ht) as Hi.
  destruct (N.leb_spec (num_samples s) (sample_idx s)) as [Hge|Hlt].
  - unfold sketch_sample. rewrite (proj2 (N.leb_le _ _)) by done. split; [done|]. split; [done|]. split; [by left|]. split; [lia|done].
  - pose proof (ty_sizes s Ht) as [Hns Hcols]. destruct (sample_returns s) as (r & ->); [apply Ht|done..|].
    split; [apply typed_set_sample_idx; [done|lia]|done].
Qed.

Lemma exhaustive_step_ok s : typed_sketch s → step_ok s OpExhaustive.
Proof using PlatformLaws0.
  intros Ht. unfold step_ok. cbn [run_op]. unfold mbind, M_bind, exhaustive_sample. pose proof (ty_idx s Ht) as Hi.
  destruct (N.leb_spec (num_samples s) (sample_idx s)) as [Hge|Hlt].
  - split; [done|]. split; [done|]. split; [by right|]. split; [lia|done].
  - pose proof (ty_sizes s Ht) as [Hns _]. rewrite (wrap_small 64 (sample_idx s + 1)) by lia.
    set (s1 := set_sample_idx (sample_idx s + 1) s).
    assert (typed_sketch s1) as Ht1 by (apply typed_set_sample_idx; [done|lia]).
    assert (typed_sketch s1 ∧ same_layout s s1 ∧ True) as Hend by done.
    destruct (det_lookup s1 Ht1) as [det ->]. cbn [of_option mbind outcome_bind].
    destruct (_ && _); [exact Hend|]. destruct (is_good _ _); [exact Hend|].
    destruct (collect_good_spec s1 (sample_buckets s1 (u64 (sample_idx s * cols_per_sample s1))) ∅) as (r & -> & _); [|exact Hend].
    exact (sample_ids_ok s Ht Hlt).
Qed.

Lemma zero_step_ok s : typed_sketch s → step_ok s OpZero.
Proof using PlatformLaws0.
  intros Ht. unfold step_ok. cbn [run_op]. unfold in_place, run_loop.
  destruct (zero_contents_ok s (ty_wf s Ht)) as (s' & -> & Hwf & HL & Hi & HR). cbn [mbind outcome_bind].
  split; [|by split]. pose proof (ty_sizes s Ht) as Hsz. pose proof HL as (_ & E2 & E3 & _).
  split; [done|apply (represents_fits s' ∅); [done|done|set_solver]|by rewrite <-E2, <-E3|rewrite Hi; lia].
Qed.

Lemma run_op_ok s o : typed_sketch s → op_ok s o → step_ok s o.
Proof using PlatformLaws0.
  intros Ht Ho. destruct o as [x|other|other start n|raw| | | | |]; simpl in Ho.
  - destruct (sketch_update_ok s x (ty_wf s Ht)) as (bs & E & HU).
    apply (in_place_ok s (OpUpdate x) _ bs _ _ eq_refl E Ht HU). intros id b Hb. apply bucket_update_fits; [done|done|apply wrap_lt].
  - destruct Ho as [Ht2 HL]. apply (sketch_merge_step_ok s (OpMerge other) (buckets other) eq_refl Ht); [|apply Ht2].
    rewrite (wf_length _ (ty_wf _ Ht2)). by destruct HL as (_&_&_&_&_&->).
  - destruct Ho as (? & ? & ?). by apply range_merge_step_ok.
  - destruct Ho as [HL Hf]. by apply (sketch_merge_step_ok s (OpMergeRaw raw) raw eq_refl Ht).
  - by apply zero_step_ok.
  - by apply sample_step_ok.
  - by apply exhaustive_step_ok.
  - split; [|by split]. by apply typed_set_sample_idx, N.le_0_l.
  - split; [|by split]. by apply typed_set_sample_idx, N.le_0_l.
Qed.

Lemma op_ok_layout s s' o : same_layout s s' → op_ok s o → op_ok s' o.
Proof using .
  intros HL. assert (∀ other, same_layout s other → same_layout s' other) as Ho.
  { intros other H. etrans; [symmetry; exact HL|done]. }
  destruct o; simpl; try done; [naive_solver..|]. destruct HL as (_&_&_&_&_&<-). done.
Qed.

(** ** Printing *)

Lemma take_S_lookup {A} (l : list A) (k : N) x : l !! k = Some x → take (N.to_nat (k + 1)) l = take (N.to_nat k) l ++ [x].
Proof using . rewrite lookupN_eq. intros Hx. replace (N.to_nat (k + 1)) with (S (N.to_nat k)) by lia. by apply take_S_r. Qed.

(** While the number of buckets fits [unsigned], printing shows all of them. *)
Lemma print_sketch_ok s : wf_sketch s → num_buckets s ≤ 2 ^ 32 → ∃ last blocks, print_sketch s = Ok (last, blocks) ∧
  concat blocks ++ [last] = print_bucket s <$> buckets s.
Proof using .
  intros Hwf H32. pose proof (wf_total s Hwf) as Ht. pose proof (wf_length s Hwf) as HL. pose proof (wf_bkt s Hwf) as Hb.
  set (m := bkt_per_col s) in *. set (c := num_columns s) in *.
  assert (∀ i j, i < c → j < m → ∃ bkt, buckets s !! (i * m + j) = Some bkt ∧ print_at s i j = Ok (print_bucket s bkt)) as Hat.
  { intros i j Hi Hj. assert (i * m + j < c * m) as Hlt by nia. destruct (lookupN_lt_is_Some (buckets s) (i * m + j)) as [bkt Hbkt]; [lia|].
    exists bkt. split; [done|]. unfold print_at. fold m. rewrite (wrap_small 64 (i * m)), (wrap_small 64), (wrap_small 32) by lia. by rewrite Hbkt. }
  destruct (lookupN_lt_is_Some (buckets s) (c * m)) as [det Hdet]; [lia|].
  unfold print_sketch. rewrite usub_small by lia. rewrite Ht, N.add_sub. fold m c. rewrite Hdet. cbn [of_option mbind outcome_bind].
  destruct (ofold_range (λ i blocks, concat blocks = print_bucket s <$> take (N.to_nat (i * m)) (buckets s)) 0 c
    (λ i blocks, block ← ofold (λ j block, line ← print_at s i j; mret (block ++ [line])) (seqN 0 m) []; mret (blocks ++ [block])))
    with (s := [] : list (list (N * N * bool))) as (blocks & -> & Hbl); [|done|].
  - intros i blocks Hi Hbl. rewrite N.add_0_l.
    destruct (ofold_range (λ j block, concat blocks ++ block = print_bucket s <$> take (N.to_nat (i * m + j)) (buckets s)) 0 m
      (λ j block, line ← print_at s i j; mret (block ++ [line]))) with (s := [] : list (N * N * bool)) as (block & -> & Hblock).
    + intros j block Hj E. rewrite N.add_0_l. destruct (Hat i j Hi Hj) as (bkt & Hbkt & ->). cbn [mbind outcome_bind].
      eexists. split; [done|]. by rewrite N.add_assoc, (take_S_lookup _ _ _ Hbkt), fmap_app, <-E, <-app_assoc.
    + by rewrite N.add_0_r, app_nil_r.
    + cbn [mbind outcome_bind]. eexists. split; [done|]. rewrite concat_app. cbn [concat]. rewrite app_nil_r, Hblock.
      by replace ((i + 1) * m) with (i * m + m) by lia.
  - cbn [mbind outcome_bind]. eexists _, _. split; [done|]. rewrite Hbl. change [print_bucket s det] with (print_bucket s <$> [det]).
    rewrite <-fmap_app, <-(take_S_lookup _ _ _ Hdet), firstn_all2 by lia. done.
Qed.
End Types.

(** * Properties *)

(** C30. Sketches are type safe. After any sequence of calls on a new sketch
    with arguments in range, sizes and indices are in range, every bucket's words
    fit their types and the layout is the constructor's; one more call returns,
    or throws [OutOfSamplesException] because the samples are used up, or stops
    in an assertion because a range of samples does not exist: it never reads or
    writes outside the array. *)
Theorem sketch_type_safe `{P : Platform} `{!PlatformLaws P} vector_len seed samples cols s0 ops o
    (Hnew : Sketch_new vector_len seed samples cols = Ok s0) (Hseed : seed < 2 ^ 64) (Hcols : samples * cols ≤ 2 ^ 32)
    (Hsizes : samples ≤ 2 ^ 32 ∧ cols ≤ 2 ^ 32) (Hbkt : 1 ≤ bkt_per_col s0 < 64)
    (Hops : Forall (op_ok s0) ops) (Ho : op_ok s0 o) :
  let s := foldl (λ s o, (run_op o s).1) s0 ops in
  typed_sketch s ∧ same_layout s0 s ∧ typed_sketch (run_op o s).1 ∧ documented s o (run_op o s).2.
Proof.
  destruct (Sketch_new_ok _ _ _ _ _ Hnew Hseed Hcols Hbkt) as (Hwf & HR & Hi & _ & Es & Ec).
  assert (typed_sketch s0) as Ht0.
  { split; [done|by apply (represents_fits s0 ∅); [| |set_solver]|by rewrite Es, Ec|rewrite Hi; lia]. }
  assert (∀ s, typed_sketch s → same_layout s0 s → Forall (op_ok s0) ops →
    typed_sketch (foldl (λ s o, (run_op o s).1) s ops) ∧ same_layout s0 (foldl (λ s o, (run_op o s).1) s ops)) as Hrun.
  { clear Hops. induction ops as [|o' ops IH]; intros s Ht HL Hops; [done|]. apply Forall_cons in Hops as [Ho' Hops].
    pose proof (run_op_ok s o' Ht (op_ok_layout _ _ _ HL Ho')) as Hstep. unfold step_ok in Hstep. simpl.
    destruct (run_op o' s) as [s1 r1]. destruct Hstep as (Ht1 & HL1 & _). apply IH; [done|by etrans|done]. }
  intros s. destruct (Hrun s0 Ht0 (reflexivity _) Hops) as [Ht HL]. fold s in Ht, HL. split; [done|]. split; [done|].
  pose proof (run_op_ok s o Ht (op_ok_layout _ _ _ HL Ho)) as Hstep. unfold step_ok in Hstep.
  destruct (run_op o s) as [s1 r1]. naive_solver.
Qed.

(** Two updates, two samples with a merge in between: the third sample throws. *)
Definition demo_ops : list sketch_op :=
  [OpUpdate 5; OpUpdate 9; OpSample; OpMerge (from_outcome demo_sketch); OpSample].
Definition after_ops : Sketch := foldl (λ s o, (@run_op demo_platform o s).1) (from_outcome demo_sketch) demo_ops.

Lemma sketch_type_safe_witness : @typed_sketch demo_platform after_ops ∧
  (@run_op demo_platform OpExhaustive after_ops).2 = Throw (OutOfSamplesException 7 2 2).
Proof.
  assert (@Sketch_new demo_platform 100 7 2 1 = Ok (from_outcome demo_sketch)) as E by (vm_compute; reflexivity).
  assert (1 ≤ bkt_per_col (from_outcome demo_sketch) < 64) as Hb by (vm_compute; split; [discriminate|reflexivity]).
  destruct (@sketch_type_safe demo_platform _ 100 7 2 1 _ [] OpReset E) as (Hnew & _);
    [reflexivity|discriminate|split; discriminate|exact Hb|constructor|exact I|].
  destruct (@sketch_type_safe demo_platform _ 100 7 2 1 _ demo_ops OpExhaustive E) as (Ht & _);
    [reflexivity|discriminate|split; discriminate|exact Hb| |exact I|].
  - constructor; [reflexivity|]. constructor; [reflexivity|]. constructor; [exact I|].
    constructor; [split; [exact Hnew|reflexivity]|]. constructor; [exact I|constructor].
  - split; [exact Ht|]. vm_compute. reflexivity.
Defined.
