(* ===== verification/Dsu.v ===== *)
(** Disjoint set union (include/dsu.h), single threaded.

    The parent array is a forest whose edges go up a fixed strict order
    ([outranks]: higher priority, then smaller id). That order gives the
    termination of [find_root] and the correctness of path halving and linking;
    it is also what the concurrent version (file DsuMT) relies on.

    The interface [UnionFind] is what the sketch algorithm and the verifier use:
    a root function that [find_root] computes and that [merge] changes only by
    sending one class to the other. *)
From S2P Require Import Prelude Platform.

Open Scope N_scope.

Record DSUMergeRet : Type := mkMergeRet { merged : bool; mroot : N; mchild : N }.

(** * Forests over a fixed order *)

Section Forest.
Context (n : N) (prio : list N).

Definition priority_of (u : N) : N := default 0 (prio !! u).

(** [v] is preferred to [u] as a root. *)
Definition outranks (v u : N) : Prop :=
  priority_of u < priority_of v ∨ (priority_of u = priority_of v ∧ v < u).

#[export] Instance outranks_dec v u : Decision (outranks v u).
Proof using . apply _. Defined.

Lemma outranks_irrefl u : ¬ outranks u u.
Proof using . unfold outranks. lia. Qed.

Lemma outranks_trans w v u : outranks w v → outranks v u → outranks w u.
Proof using . unfold outranks. lia. Qed.

Lemma outranks_total u v : u ≠ v → outranks u v ∨ outranks v u.
Proof using . unfold outranks. lia. Qed.

(** Number of items that outrank [u]: the measure of every climb. *)
Definition rank (u : N) : nat := length (filter (λ v, outranks v u) (seqN 0 n)).

Lemma rank_le u : (rank u ≤ N.to_nat n)%nat.
Proof using . unfold rank. rewrite length_filter, length_seqN. done. Qed.

Lemma rank_lt v u : v < n → outranks v u → (rank v < rank u)%nat.
Proof using .
  intros Hv Hvu. unfold rank.
  apply Nat.lt_le_trans with (length (v :: filter (λ w, outranks w v) (seqN 0 n))); [simpl; lia|].
  apply submseteq_length, NoDup_submseteq.
  - apply NoDup_cons. split; [|apply NoDup_filter, NoDup_seqN].
    rewrite list_elem_of_filter. intros [H _]. by apply outranks_irrefl in H.
  - intros w [->|Hw]%elem_of_cons; apply list_elem_of_filter.
    + split; [done|]. apply elem_of_seqN. lia.
    + apply list_elem_of_filter in Hw as [H1 H2]. split; [by eapply outranks_trans|done].
Qed.

(** ** The forest a parent array describes *)

Definition forest (parent : list N) : Prop :=
  length parent = N.to_nat n ∧
  ∀ u p, parent !! u = Some p → p < n ∧ (p = u ∨ outranks p u).

Definition par (parent : list N) (u : N) : N := default u (parent !! u).

(** The root of [u]: [n] steps up are enough. *)
Definition root (parent : list N) (u : N) : N := Nat.iter (N.to_nat n) (par parent) u.

Context (parent : list N) (Hf : forest parent).

Lemma forest_lookup u : u < n → parent !! u = Some (par parent u).
Proof using n prio parent Hf.
  intros Hu. destruct (lookupN_lt_is_Some parent u) as [p Hp]; [destruct Hf; lia|].
  unfold par. by rewrite Hp.
Qed.

Lemma par_lt u : u < n → par parent u < n.
Proof using n prio parent Hf. intros Hu. by apply (proj2 Hf u), forest_lookup. Qed.

Lemma par_outranks u : u < n → par parent u = u ∨ outranks (par parent u) u.
Proof using n prio parent Hf. intros Hu. by apply (proj2 Hf u), forest_lookup. Qed.

Lemma iter_par_lt k u : u < n → Nat.iter k (par parent) u < n.
Proof using n prio parent Hf. intros Hu. induction k as [|k IH]; simpl; [done|]. by apply par_lt. Qed.

Lemma iter_par_fixed k u : u < n → (rank u ≤ k)%nat →
  par parent (Nat.iter k (par parent) u) = Nat.iter k (par parent) u.
Proof using n prio parent Hf.
  revert u. induction k as [|k IH]; intros u Hu Hr.
  - simpl. destruct (par_outranks u Hu) as [|H]; [done|].
    apply rank_lt in H; [lia|by apply par_lt].
  - rewrite !Nat.iter_succ_r. destruct (par_outranks u Hu) as [E|H].
    + rewrite E. assert (∀ j, Nat.iter j (par parent) u = u) as ->; [|done].
      intros j. induction j as [|j IHj]; [done|]. simpl. by rewrite IHj.
    + apply IH; [by apply par_lt|]. apply rank_lt in H; [lia|by apply par_lt].
Qed.

Lemma root_lt u : u < n → root parent u < n.
Proof using n prio parent Hf. apply iter_par_lt. Qed.

Lemma par_root u : u < n → par parent (root parent u) = root parent u.
Proof using n prio parent Hf. intros Hu. apply iter_par_fixed; [done|apply rank_le]. Qed.

Lemma root_of_fixed u : par parent u = u → root parent u = u.
Proof using .
  intros E. unfold root. induction (N.to_nat n) as [|k IH]; [done|]. simpl. by rewrite IH.
Qed.

Lemma root_par u : u < n → root parent (par parent u) = root parent u.
Proof using n prio parent Hf.
  intros Hu. unfold root. rewrite <-Nat.iter_succ_r. exact (par_root u Hu).
Qed.

Lemma root_idemp u : u < n → root parent (root parent u) = root parent u.
Proof using n prio parent Hf. intros Hu. by apply root_of_fixed, par_root. Qed.

Lemma root_fixed_iff u : u < n → root parent u = u ↔ par parent u = u.
Proof using n prio parent Hf.
  intros Hu. split; [|apply root_of_fixed]. intros E. rewrite <-E. by apply par_root.
Qed.

(** The root is the only function constant along parents and fixing roots. *)
Lemma root_unique (f : N → N) :
  (∀ u, u < n → f (par parent u) = f u) →
  (∀ u, u < n → par parent u = u → f u = u) →
  ∀ u, u < n → f u = root parent u.
Proof using n prio parent Hf.
  intros H1 H2 u Hu. assert (f (root parent u) = f u) as E.
  { unfold root. induction (N.to_nat n) as [|k IH]; [done|]. simpl.
    rewrite H1 by (by apply iter_par_lt). done. }
  rewrite <-E. apply H2; [by apply root_lt|by apply par_root].
Qed.

Lemma root_outranks u : u < n → root parent u = u ∨ outranks (root parent u) u.
Proof using n prio parent Hf.
  intros Hu. unfold root. induction (N.to_nat n) as [|k IH]; [by left|]. simpl.
  destruct (par_outranks (Nat.iter k (par parent) u)) as [->|H]; [by apply iter_par_lt|done|].
  right. destruct IH as [E|IH]; [by rewrite E in H |- *|]. by eapply outranks_trans.
Qed.
End Forest.

(** The step of path halving goes up. *)
Lemma grandparent_outranks n prio parent u :
  forest n prio parent → u < n → par parent (par parent u) ≠ par parent u →
  outranks prio (par parent (par parent u)) u ∧ par parent u ≠ u.
Proof.
  intros Hf Hu Hne. assert (par parent u ≠ u) as Hpu by (intros E; by rewrite !E in Hne).
  split; [|done]. destruct (par_outranks _ _ _ Hf u Hu) as [|H1]; [done|].
  destruct (par_outranks _ _ _ Hf (par parent u)) as [|H2]; [by eapply par_lt|done|].
  by eapply outranks_trans.
Qed.

(** ** Changing one parent *)

Lemma par_insert parent (u p x : N) : (u < N.of_nat (length parent)) →
  par (<[u := p]> parent) x = if decide (x = u) then p else par parent x.
Proof.
  intros Hu. unfold par. case_decide as E.
  - subst x. by rewrite lookupN_insert_eq.
  - by rewrite lookupN_insert_ne.
Qed.

Lemma forest_insert n prio parent (u p : N) :
  forest n prio parent → u < n → p < n → outranks prio p u → forest n prio (<[u := p]> parent).
Proof.
  intros [HL Hf] Hu Hp Ho. split; [by rewrite length_insertN|].
  intros x q Hx. destruct (decide (x = u)) as [->|Hne].
  - rewrite lookupN_insert_eq in Hx by lia. injection Hx as <-. auto.
  - rewrite lookupN_insert_ne in Hx by done. eauto.
Qed.

(** Redirecting a non-root to another vertex of its tree keeps every root. *)
Lemma root_redirect n prio parent (u p : N) :
  forest n prio parent → u < n → p < n → outranks prio p u →
  par parent u ≠ u → root n parent p = root n parent u →
  ∀ x, x < n → root n (<[u := p]> parent) x = root n parent x.
Proof.
  intros Hf Hu Hp Ho Hnr Hroot x Hx. symmetry.
  apply (root_unique n prio (<[u := p]> parent)); [by apply forest_insert| | |done].
  - intros y Hy. rewrite par_insert by (destruct Hf; lia). case_decide as E.
    + subst y. done.
    + by eapply root_par.
  - intros y Hy. rewrite par_insert by (destruct Hf; lia). case_decide as E.
    + subst y. intros ->. by apply outranks_irrefl in Ho.
    + apply root_of_fixed.
Qed.

(** Hanging root [b] under [a] sends the class of [b] to the root of [a]. *)
Lemma root_link n prio parent (a b : N) :
  forest n prio parent → a < n → b < n → outranks prio a b → par parent b = b →
  root n parent a ≠ b ∧
  ∀ x, x < n → root n (<[b := a]> parent) x =
    if root n parent x =? b then root n parent a else root n parent x.
Proof.
  intros Hf Ha Hb Ho Eb.
  assert (root n parent a ≠ b) as Hab.
  { intros E. destruct (root_outranks _ _ _ Hf a Ha) as [E'|H]; rewrite E in *;
      [subst a|]; eapply outranks_irrefl; [exact Ho|by eapply outranks_trans]. }
  split; [done|]. intros x Hx. symmetry.
  set (f := λ x, if root n parent x =? b then root n parent a else root n parent x).
  change (f x = root n (<[b := a]> parent) x).
  apply (root_unique n prio (<[b := a]> parent)); [by apply forest_insert| | |done]; unfold f.
  - intros y Hy. rewrite par_insert by (destruct Hf; lia). case_decide as E.
    + subst y. rewrite (root_of_fixed n parent b Eb), N.eqb_refl. bool_cases; done.
    + by rewrite (root_par n prio) by done.
  - intros y Hy. rewrite par_insert by (destruct Hf; lia). case_decide as E.
    + intros ->. subst y. by apply outranks_irrefl in Ho.
    + intros Ey. rewrite (root_of_fixed n parent y Ey). by destruct (N.eqb_spec y b).
Qed.

(** * The interface of a disjoint set union *)

Class UnionFind (D : Type) : Type := {
  uf_new : N → (N → N) → D;      (** the size, and the generator's values *)
  uf_size : D → N;
  uf_find_root : N → M D N;
  uf_merge : N → N → M D DSUMergeRet;
  uf_reset : D → D
}.

(** What a merge of [u] and [v] answers and does to the roots. *)
Definition merge_effect (root_of root_of' : N → N) (size u v : N) (r : DSUMergeRet) : Prop :=
  (root_of u = root_of v ∧ r = mkMergeRet false 0 0 ∧
     ∀ x, x < size → root_of' x = root_of x) ∨
  (root_of u ≠ root_of v ∧ merged r = true ∧
     ((mroot r = root_of u ∧ mchild r = root_of v) ∨
      (mroot r = root_of v ∧ mchild r = root_of u)) ∧
     ∀ x, x < size → root_of' x = if root_of x =? mchild r then mroot r else root_of x).

Class UnionFindLaws (D : Type) `{UnionFind D} : Type := {
  uf_ok : D → Prop;
  uf_root : D → N → N;
  uf_new_ok n prio_gen :
    uf_ok (uf_new n prio_gen) ∧ uf_size (uf_new n prio_gen) = n ∧
    ∀ x, x < n → uf_root (uf_new n prio_gen) x = x;
  uf_root_lt d u : uf_ok d → u < uf_size d → uf_root d u < uf_size d;
  uf_root_idemp d u : uf_ok d → u < uf_size d → uf_root d (uf_root d u) = uf_root d u;
  uf_find_ok d u : uf_ok d → u < uf_size d →
    ∃ d', uf_find_root u d = (d', Ok (uf_root d u)) ∧ uf_ok d' ∧ uf_size d' = uf_size d ∧
          ∀ x, x < uf_size d → uf_root d' x = uf_root d x;
  uf_merge_ok d u v : uf_ok d → u < uf_size d → v < uf_size d →
    ∃ d' r, uf_merge u v d = (d', Ok r) ∧ uf_ok d' ∧ uf_size d' = uf_size d ∧
            merge_effect (uf_root d) (uf_root d') (uf_size d) u v r;
  uf_merge_range d u v : uf_ok d → uf_size d ≤ u ∨ uf_size d ≤ v →
    (uf_merge u v d).2 = Abort ∨ (uf_merge u v d).2 = Undef;
  uf_reset_ok d : uf_ok d →
    uf_ok (uf_reset d) ∧ uf_size (uf_reset d) = uf_size d ∧
    ∀ x, x < uf_size d → uf_root (uf_reset d) x = x
}.

(** ** Clients of the interface: connectivity *)

(** [u] and [v] are connected by the pairs of [es]. *)
Definition pair_connected (es : list (N * N)) : N → N → Prop :=
  rtsc (λ x y, (x, y) ∈ es).

(** A list of pairs none of which joins vertices its successors already join. *)
Fixpoint acyclic_pairs (es : list (N * N)) : Prop :=
  match es with
  | [] => True
  | (u, v) :: es => ¬ pair_connected es u v ∧ acyclic_pairs es
  end.

#[export] Instance pair_connected_equiv es : Equivalence (pair_connected es).
Proof. apply rtsc_equivalence. Qed.

Lemma pair_connected_in es u v : (u, v) ∈ es → pair_connected es u v.
Proof. intros Hin. by apply rtsc_lr. Qed.

(** Induction: a relation closed under the pairs contains [pair_connected]. *)
Lemma pair_connected_ind (R : relation N) `{!Equivalence R} es :
  (∀ x y, (x, y) ∈ es → R x y) → ∀ x y, pair_connected es x y → R x y.
Proof.
  intros Hes x y Hxy. induction Hxy as [x|x y z Hst _ IH]; [reflexivity|].
  etrans; [|exact IH]. destruct Hst as [Hst|Hst]; [by apply Hes|symmetry; by apply Hes].
Qed.

Lemma pair_connected_mono es es' x y :
  es ⊆ es' → pair_connected es x y → pair_connected es' x y.
Proof.
  intros Hsub. apply pair_connected_ind; [apply _|]. intros a b Hab.
  by apply pair_connected_in, Hsub.
Qed.

Lemma pair_connected_nil x y : pair_connected [] x y ↔ x = y.
Proof.
  split; [|by intros ->]. apply (pair_connected_ind eq). set_solver.
Qed.

(** The connectivity after one more pair. *)
Definition joined (R : relation N) (u v x y : N) : Prop :=
  R x y ∨ (R x u ∧ R v y) ∨ (R x v ∧ R u y).

Lemma joined_equiv (R : relation N) u v : Equivalence R → Equivalence (joined R u v).
Proof.
  intros [Hr Hs Ht]. unfold joined. split.
  - intros a. by left.
  - intros a b. naive_solver.
  - intros a b c [E|[[E1 E2]|[E1 E2]]] [F|[[F1 F2]|[F1 F2]]]; eauto 10.
Qed.

Lemma pair_connected_cons u v es x y :
  pair_connected ((u, v) :: es) x y ↔ joined (pair_connected es) u v x y.
Proof.
  split.
  - apply (pair_connected_ind _ (Equivalence0 := joined_equiv _ _ _ _)).
    intros a b [[= -> ->]|Hab]%elem_of_cons; [right; left; by split|left].
    by apply pair_connected_in.
  - assert (∀ a b, pair_connected es a b → pair_connected ((u, v) :: es) a b) as Hm.
    { intros a b. apply pair_connected_mono. set_solver. }
    assert (pair_connected ((u, v) :: es) u v) as Huv by (apply pair_connected_in; set_solver).
    intros [E|[[E1 E2]|[E1 E2]]]; [by apply Hm|..].
    + etrans; [by apply Hm|]. etrans; [exact Huv|by apply Hm].
    + etrans; [by apply Hm|]. etrans; [symmetry; exact Huv|by apply Hm].
Qed.

Section Tracking.
Context `{UnionFindLaws D}.

(** The structure's classes are the components of the pairs merged so far. *)
Definition uf_tracks (d : D) (es : list (N * N)) : Prop :=
  uf_ok d ∧ ∀ x y, x < uf_size d → y < uf_size d →
    uf_root d x = uf_root d y ↔ pair_connected es x y.

Lemma uf_tracks_reset d : uf_ok d → uf_tracks (uf_reset d) [].
Proof using Type.
  intros Hd. destruct (uf_reset_ok d Hd) as (Hok & Hs & Hr). split; [done|].
  intros x y Hx Hy. rewrite Hs in Hx, Hy. rewrite !Hr, pair_connected_nil by done. done.
Qed.

Lemma uf_tracks_new n prio_gen : uf_tracks (uf_new n prio_gen) [].
Proof using Type.
  destruct (uf_new_ok n prio_gen) as (Hok & Hs & Hr). split; [done|].
  intros x y Hx Hy. rewrite Hs in Hx, Hy. rewrite !Hr, pair_connected_nil by done. done.
Qed.

Lemma uf_tracks_ok d es : uf_tracks d es → uf_ok d.
Proof using Type. by intros [? _]. Qed.

(** Only the connectivity counts. *)
Lemma uf_tracks_ext d es es' :
  (∀ x y, pair_connected es x y ↔ pair_connected es' x y) → uf_tracks d es → uf_tracks d es'.
Proof using Type. intros Hes [Hok Ht]. split; [done|]. intros x y Hx Hy. by rewrite Ht, Hes. Qed.

Lemma uf_find_tracks d es u : uf_tracks d es → u < uf_size d →
  ∃ d', uf_find_root u d = (d', Ok (uf_root d u)) ∧ uf_tracks d' es ∧
        uf_size d' = uf_size d ∧ (∀ x, x < uf_size d → uf_root d' x = uf_root d x) ∧
        uf_root d u < uf_size d ∧ pair_connected es u (uf_root d u).
Proof using Type.
  intros [Hok Ht] Hu. destruct (uf_find_ok d u Hok Hu) as (d' & E & Hok' & Hs & Hr).
  exists d'. split; [done|]. repeat split; try done.
  - rewrite Hs in *. rewrite !Hr by done. by apply Ht.
  - rewrite Hs in *. rewrite !Hr by done. by apply Ht.
  - by apply uf_root_lt.
  - apply Ht; [done|by apply uf_root_lt|]. symmetry. by apply uf_root_idemp.
Qed.

Lemma uf_merge_tracks d es u v :
  uf_tracks d es → u < uf_size d → v < uf_size d →
  ∃ d' r, uf_merge u v d = (d', Ok r) ∧ uf_tracks d' ((u, v) :: es) ∧
          uf_size d' = uf_size d ∧ (merged r = false ↔ pair_connected es u v).
Proof using Type.
  intros [Hok Ht] Hu Hv.
  destruct (uf_merge_ok d u v Hok Hu Hv) as (d' & r & E & Hok' & Hs & Heff).
  exists d', r. split; [done|]. rewrite <-(Ht u v) by done. unfold uf_tracks. rewrite Hs.
  destruct Heff as [(Euv & -> & Hr)|(Nuv & Hm & Hrc & Hr)].
  - split; [|done]. split; [done|]. intros x y Hx Hy.
    rewrite !Hr, pair_connected_cons by done. unfold joined. rewrite <-!Ht by done. split.
    + intros ?. by left.
    + intros [?|[[? ?]|[? ?]]]; congruence.
  - split; [|split; [done|by rewrite Hm]]. split; [done|]. intros x y Hx Hy.
    rewrite !Hr, pair_connected_cons by done. unfold joined. rewrite <-!Ht by done.
    pose proof (uf_root_idemp d u Hok Hu). pose proof (uf_root_idemp d v Hok Hv).
    destruct Hrc as [[-> ->]|[-> ->]]; bool_cases; split;
      first [ intros HH;
              first [left; congruence|right; left; split; congruence
                    |right; right; split; congruence]
            | intros [?|[[? ?]|[? ?]]]; congruence ].
Qed.
End Tracking.

(** * DisjointSetUnion *)

Record DSU : Type := mkDSU { dsu_n : N; dsu_parent : list N; dsu_priority : list N }.

Section DisjointSetUnion.
Context `{Platform}.

(** Constructor; [prio_gen i] is the value its [i]th call returns, cut to [T]. *)
Definition DSU_new (n : N) (prio_gen : N → N) : DSU :=
  mkDSU n (seqN 0 n) ((λ i, u32 (prio_gen i)) <$> seqN 0 n).

(** Copy constructor: the first [n] cells of each array. *)
Definition DSU_copy (oth : DSU) : outcome DSU :=
  ofold (λ i d,
    p ← of_option (dsu_parent oth !! i);
    q ← of_option (dsu_priority oth !! i);
    mret (mkDSU (dsu_n d) (dsu_parent d ++ [p]) (dsu_priority d ++ [q])))
    (seqN 0 (dsu_n oth)) (mkDSU (dsu_n oth) [] []).

(** Move constructor: the new object and what is left of the old one. *)
Definition DSU_move (oth : DSU) : DSU * DSU :=
  (mkDSU (dsu_n oth) (dsu_parent oth) (dsu_priority oth), mkDSU 0 [] []).

Definition set_parent (u p : N) (d : DSU) : DSU :=
  mkDSU (dsu_n d) (<[u := p]> (dsu_parent d)) (dsu_priority d).

Definition parent_at (d : DSU) (u : N) : outcome N := of_option (dsu_parent d !! u).

Definition order_edge (d : DSU) (a b : N) : outcome (N * N) :=
  pa ← of_option (dsu_priority d !! a);
  pb ← of_option (dsu_priority d !! b);
  let '(a, b, pa, pb) := if (pa =? pb) && (b <? a) then (b, a, pb, pa) else (a, b, pa, pb) in
  mret (if pa <? pb then (b, a) else (a, b)).

(** Path halving. [fuel] bounds the iterations; [find_root_total] shows that
    [n] of them are enough. *)
Fixpoint find_root_loop (fuel : nat) (u : N) (d : DSU) : outcome (DSU * N) :=
  p ← parent_at d u;
  pp ← parent_at d p;
  if pp =? p then mret (d, p)
  else match fuel with
  | O => Undef
  | S fuel =>
      let d := set_parent u pp d in
      u ← parent_at d u;
      find_root_loop fuel u d
  end.

Definition find_root (u : N) : M DSU N :=
  n ← gets dsu_n;
  _ ← cassert NDEBUG (u <? n);
  run_loop (find_root_loop (N.to_nat n) u).

Definition merge (u v : N) : M DSU DSUMergeRet :=
  a ← find_root u;
  b ← find_root v;
  n ← gets dsu_n;
  _ ← cassert NDEBUG (a <? n);
  _ ← cassert NDEBUG (b <? n);
  if a =? b then mret (mkMergeRet false 0 0)
  else
    d ← get;
    '(a, b) ← lift (order_edge d a b);
    _ ← modify (set_parent b a);
    mret (mkMergeRet true a b).

Definition reset (d : DSU) : DSU :=
  mkDSU (dsu_n d) (foldl (λ p i, <[i := i]> p) (dsu_parent d) (seqN 0 (dsu_n d)))
    (dsu_priority d).
End DisjointSetUnion.

(** ** Correctness *)

Section DSU_laws.
Context `{Platform}.

Definition dsu_wf (d : DSU) : Prop :=
  forest (dsu_n d) (dsu_priority d) (dsu_parent d) ∧
  length (dsu_priority d) = N.to_nat (dsu_n d).

Definition dsu_root (d : DSU) : N → N := root (dsu_n d) (dsu_parent d).

(** Same object up to the shape of its trees. *)
Definition dsu_equiv (d d' : DSU) : Prop :=
  dsu_wf d' ∧ dsu_n d' = dsu_n d ∧ dsu_priority d' = dsu_priority d ∧
  ∀ x, x < dsu_n d → dsu_root d' x = dsu_root d x.

Lemma dsu_equiv_refl d : dsu_wf d → dsu_equiv d d.
Proof using . by unfold dsu_equiv. Qed.

Lemma dsu_equiv_trans d1 d2 d3 : dsu_equiv d1 d2 → dsu_equiv d2 d3 → dsu_equiv d1 d3.
Proof using .
  intros (_ & E1 & P1 & R1) (W & E2 & P2 & R2). split_and!; [done|congruence|congruence|].
  intros x Hx. rewrite R2, R1; congruence.
Qed.

Lemma parent_at_ok d u : dsu_wf d → u < dsu_n d → parent_at d u = Ok (par (dsu_parent d) u).
Proof using . intros [Hf _] Hu. unfold parent_at. by rewrite (forest_lookup _ _ _ Hf u Hu). Qed.

Lemma parent_at_set d u p : dsu_wf d → u < dsu_n d → parent_at (set_parent u p d) u = Ok p.
Proof using .
  intros [[HL _] _] Hu. unfold parent_at, set_parent. simpl. by rewrite lookupN_insert_eq by lia.
Qed.

Lemma find_root_loop_ok fuel u d :
  dsu_wf d → u < dsu_n d → (rank (dsu_n d) (dsu_priority d) u ≤ fuel)%nat →
  ∃ d', find_root_loop fuel u d = Ok (d', dsu_root d u) ∧ dsu_equiv d d'.
Proof using .
  revert u d. induction fuel as [|fuel IH]; intros u d Hd Hu Hrank; pose proof Hd as [Hf HP];
    set (p := par (dsu_parent d) u) in *; assert (p < dsu_n d) as Hp by (by eapply par_lt);
    set (pp := par (dsu_parent d) p) in *; assert (pp < dsu_n d) as Hpp by (by eapply par_lt);
    cbn [find_root_loop]; rewrite (parent_at_ok d u) by done; fold p; simpl;
    rewrite (parent_at_ok d p) by done; fold pp; simpl; destruct (N.eqb_spec pp p) as [E|E].
  1, 3: exists d; split; [|by apply dsu_equiv_refl]; do 2 f_equal; unfold dsu_root;
    rewrite <-(root_par _ _ _ Hf u Hu); fold p; symmetry; by apply root_of_fixed.
  all: destruct (grandparent_outranks _ _ _ u Hf Hu E) as [Ho Hpu];
    pose proof (rank_lt _ _ pp u Hpp Ho) as Hlt.
  - lia.
  - assert (dsu_equiv d (set_parent u pp d)) as Heq.
    { split_and!; [|done|done|].
      - split; [by apply forest_insert|done].
      - apply (root_redirect _ _ _ _ _ Hf Hu Hpp Ho); [done|].
        unfold pp. rewrite (root_par _ _ _ Hf) by done. by eapply root_par. }
    rewrite parent_at_set by done. simpl.
    destruct (IH pp (set_parent u pp d)) as (d' & -> & Heq'); [apply Heq|done|simpl; lia|].
    exists d'. split; [|by eapply dsu_equiv_trans]. do 2 f_equal.
    destruct Heq as (_ & _ & _ & ->); [|done]. unfold dsu_root, pp.
    rewrite (root_par _ _ _ Hf) by done. by eapply root_par.
Qed.

(** [find_root] always ends, within [n] iterations. *)
Lemma find_root_ok u d : dsu_wf d → u < dsu_n d →
  ∃ d', find_root u d = (d', Ok (dsu_root d u)) ∧ dsu_equiv d d'.
Proof using .
  intros Hd Hu. destruct (find_root_loop_ok (N.to_nat (dsu_n d)) u d Hd Hu) as (d' & E & He).
  { apply rank_le. }
  exists d'. split; [|done]. unfold find_root.
  rewrite M_bind_gets, M_bind_cassert by (by apply N.ltb_lt). unfold run_loop. by rewrite E.
Qed.

Lemma order_edge_ok d a b : dsu_wf d → a < dsu_n d → b < dsu_n d → a ≠ b →
  ∃ a' b', order_edge d a b = Ok (a', b') ∧ outranks (dsu_priority d) a' b' ∧
           ((a' = a ∧ b' = b) ∨ (a' = b ∧ b' = a)).
Proof using .
  intros [_ HP] Ha Hb Hne. unfold order_edge, outranks, priority_of.
  destruct (lookupN_lt_is_Some (dsu_priority d) a) as [pa Ea]; [lia|].
  destruct (lookupN_lt_is_Some (dsu_priority d) b) as [pb Eb]; [lia|].
  rewrite Ea, Eb. simpl. destruct (N.eqb_spec pa pb) as [->|Hp]; simpl.
  - destruct (N.ltb_spec b a); simpl; rewrite N.ltb_irrefl; eexists _, _; split_and!; auto;
      rewrite Ea, Eb; simpl; right; lia.
  - destruct (N.ltb_spec pa pb); eexists _, _; split_and!; auto; rewrite Ea, Eb; simpl; lia.
Qed.

Lemma dsu_root_lt d u : dsu_wf d → u < dsu_n d → dsu_root d u < dsu_n d.
Proof using . intros [Hf _]. by eapply root_lt. Qed.

Lemma dsu_root_idemp d u : dsu_wf d → u < dsu_n d → dsu_root d (dsu_root d u) = dsu_root d u.
Proof using . intros [Hf _]. by eapply root_idemp. Qed.

(** The two searches that start a merge. *)
Lemma find_both_ok u v d : dsu_wf d → u < dsu_n d → v < dsu_n d →
  ∃ d1 d2, find_root u d = (d1, Ok (dsu_root d u)) ∧
           find_root v d1 = (d2, Ok (dsu_root d v)) ∧ dsu_equiv d d2.
Proof using .
  intros Hd Hu Hv. destruct (find_root_ok u d Hd Hu) as (d1 & E1 & Q1).
  pose proof Q1 as (W1 & N1 & P1 & R1).
  destruct (find_root_ok v d1 W1) as (d2 & E2 & Q2); [by rewrite N1|].
  exists d1, d2. rewrite R1 in E2 by done. split_and!; [done|done|by eapply dsu_equiv_trans].
Qed.

(** The link that ends it. *)
Lemma link_ok d a b :
  dsu_wf d → a < dsu_n d → b < dsu_n d → outranks (dsu_priority d) a b →
  dsu_root d a = a → dsu_root d b = b →
  dsu_wf (set_parent b a d) ∧
  ∀ x, x < dsu_n d →
    dsu_root (set_parent b a d) x = if dsu_root d x =? b then a else dsu_root d x.
Proof using .
  intros [Hf HP] Ha Hb Ho Fa Fb. split; [split; [by apply forest_insert|done]|].
  intros x Hx. destruct (root_link _ _ _ a b Hf Ha Hb Ho) as [_ R]; [by eapply root_fixed_iff|].
  unfold dsu_root in *. simpl. by rewrite R, Fa.
Qed.

Lemma merge_ok u v d : dsu_wf d → u < dsu_n d → v < dsu_n d →
  ∃ d' r, merge u v d = (d', Ok r) ∧ dsu_wf d' ∧ dsu_n d' = dsu_n d ∧
          merge_effect (dsu_root d) (dsu_root d') (dsu_n d) u v r.
Proof using .
  intros Hd Hu Hv. unfold merge.
  destruct (find_both_ok u v d Hd Hu Hv) as (d1 & d2 & E1 & E2 & W & N & P & R).
  rewrite (M_bind_Ok _ _ _ _ _ E1), (M_bind_Ok _ _ _ _ _ E2).
  pose proof (dsu_root_lt d u Hd Hu) as Ha. pose proof (dsu_root_idemp d u Hd Hu) as Fa.
  pose proof (dsu_root_lt d v Hd Hv) as Hb. pose proof (dsu_root_idemp d v Hd Hv) as Fb.
  unfold merge_effect. set (a := dsu_root d u) in *. set (b := dsu_root d v) in *.
  clearbody a b. rewrite M_bind_gets, !M_bind_cassert by (apply N.ltb_lt; by rewrite N).
  destruct (N.eqb_spec a b) as [Hab|Hab].
  { exists d2, (mkMergeRet false 0 0). split_and!; [done|done|done|]. by left. }
  rewrite <-N in Ha, Hb.
  destruct (order_edge_ok d2 a b W Ha Hb Hab) as (a' & b' & Eo & Ho & Hc).
  rewrite M_bind_get, (M_bind_lift _ _ _ _ Eo).
  rewrite <-R in Fa, Fb by congruence.
  destruct (link_ok d2 a' b' W) as [W' R']; [by destruct Hc as [[-> ->]|[-> ->]]..|].
  exists (set_parent b' a' d2), (mkMergeRet true a' b').
  split_and!; [done|done|done|]. right. split_and!; [done|done|simpl; tauto|].
  intros x Hx. simpl. rewrite R', R by congruence. done.
Qed.

Lemma reset_parent n k parent :
  length parent = N.to_nat n → k ≤ n →
  let parent' := foldl (λ p i, <[i := i]> p) parent (seqN 0 k) in
  length parent' = N.to_nat n ∧ ∀ i : N, i < k → parent' !! i = Some i.
Proof using .
  intros HL. induction k as [|k IH] using N.peano_ind; intros Hk; [split; [done|lia]|].
  rewrite seqN_S_end, foldl_app. simpl. destruct IH as [IHL IHi]; [lia|].
  set (p := foldl _ parent (seqN 0 k)) in *. split; [by rewrite length_insertN|].
  intros i Hi. destruct (decide (i = k)) as [->|Hne].
  - rewrite N.add_0_l. apply lookupN_insert_eq. lia.
  - rewrite lookupN_insert_ne by lia. apply IHi. lia.
Qed.

Lemma reset_ok d : dsu_wf d →
  dsu_wf (reset d) ∧ ∀ x, x < dsu_n d → dsu_root (reset d) x = x.
Proof using .
  intros [[HL Hf] HP]. destruct (reset_parent (dsu_n d) (dsu_n d) (dsu_parent d) HL) as [HL' Hi];
    [lia|]. unfold dsu_wf, dsu_root, reset, forest. simpl. split; [split; [split; [done|]|done]|].
  - intros u p Hu. assert (u < dsu_n d) as Hlt.
    { apply lookupN_lt_Some in Hu. rewrite HL' in Hu. lia. }
    rewrite Hi in Hu by done. injection Hu as <-. auto.
  - intros x Hx. apply root_of_fixed. unfold par. by rewrite Hi.
Qed.

Lemma DSU_new_ok n prio_gen :
  dsu_wf (DSU_new n prio_gen) ∧ ∀ x, x < n → dsu_root (DSU_new n prio_gen) x = x.
Proof using .
  assert (∀ i, i < n → seqN 0 n !! i = Some i) as Hi by (intros; by rewrite lookup_seqN by done).
  unfold DSU_new, dsu_wf, forest, dsu_root. simpl.
  rewrite length_fmap, length_seqN. split; [split; [split; [done|]|done]|].
  - intros u p Hu. assert (u < n) as Hlt.
    { apply lookupN_lt_Some in Hu. rewrite length_seqN in Hu. lia. }
    rewrite Hi in Hu by done. injection Hu as <-. auto.
  - intros x Hx. apply root_of_fixed. unfold par. by rewrite Hi.
Qed.

(** Out of range nothing is found. *)
Lemma find_root_out u d : dsu_wf d → dsu_n d ≤ u →
  find_root u d = (d, Abort) ∨ find_root u d = (d, Undef).
Proof using .
  intros [[HL _] _] Hu. unfold find_root. rewrite M_bind_gets, (proj2 (N.ltb_ge _ _) Hu).
  assert (dsu_parent d !! u = None) as E by (apply lookupN_ge_None; lia).
  assert (parent_at d u = Undef) as Ep by (unfold parent_at; by rewrite E).
  unfold cassert. destruct (NDEBUG || false); [right|by left]. unfold mbind, M_bind, run_loop.
  destruct (N.to_nat (dsu_n d)); cbn [find_root_loop]; by rewrite Ep.
Qed.

Lemma merge_out u v d : dsu_wf d → dsu_n d ≤ u ∨ dsu_n d ≤ v →
  (merge u v d).2 = Abort ∨ (merge u v d).2 = Undef.
Proof using .
  intros Hd Huv. unfold merge, mbind, M_bind. destruct (N.lt_ge_cases u (dsu_n d)) as [Hu|Hu].
  - destruct Huv as [?|Hv]; [lia|]. destruct (find_root_ok u d Hd Hu) as (d' & -> & Hd' & Hn & _).
    rewrite <-Hn in Hv.
    destruct (find_root_out v d' Hd' Hv) as [-> | ->]; [by left|by right].
  - destruct (find_root_out u d Hd Hu) as [-> | ->]; [by left|by right].
Qed.

#[export] Instance DSU_uf : UnionFind DSU := {
  uf_new := DSU_new; uf_size := dsu_n; uf_find_root := find_root; uf_merge := merge;
  uf_reset := reset }.

#[export] Instance DSU_uf_laws : UnionFindLaws DSU.
Proof using Type.
  refine {| uf_ok := dsu_wf; uf_root := dsu_root |}; 
    cbn [uf_new uf_size uf_find_root uf_merge uf_reset DSU_uf].
  - intros n prio_gen. destruct (DSU_new_ok n prio_gen). eauto.
  - apply dsu_root_lt.
  - apply dsu_root_idemp.
  - intros d u Hd Hu. destruct (find_root_ok u d Hd Hu) as (d' & E & W & N & P & R). eauto 10.
  - intros d u v. apply merge_ok.
  - intros d u v. apply merge_out.
  - intros d Hd. destruct (reset_ok d Hd). eauto.
Defined.

Lemma DSU_copy_ok d : dsu_wf d → DSU_copy d = Ok d.
Proof using .
  intros [[HL Hf] HP]. unfold DSU_copy.
  destruct (ofold_range (λ k c, c = mkDSU (dsu_n d) (take (N.to_nat k) (dsu_parent d))
    (take (N.to_nat k) (dsu_priority d))) 0 (dsu_n d)
    (λ i c, p ← of_option (dsu_parent d !! i); q ← of_option (dsu_priority d !! i);
      mret (mkDSU (dsu_n c) (dsu_parent c ++ [p]) (dsu_priority c ++ [q]))))
    with (s := mkDSU (dsu_n d) [] []) as (s' & -> & ->); [|done|].
  - intros k c Hk ->. rewrite N.add_0_l.
    destruct (lookupN_lt_is_Some (dsu_parent d) k) as [p Ep]; [lia|].
    destruct (lookupN_lt_is_Some (dsu_priority d) k) as [q Eq]; [lia|].
    rewrite Ep, Eq. simpl. eexists. split; [done|].
    replace (N.to_nat (k + 1)) with (S (N.to_nat k)) by lia.
    by rewrite (take_S_r _ _ p), (take_S_r _ _ q).
  - rewrite !firstn_all2 by lia. by destruct d.
Qed.
End DSU_laws.

(** * Properties *)

(** C34. A fresh structure after any sequence of merges in range: every call
    returns, and two later searches answer the same root exactly when the
    merged pairs connect their arguments. *)
Theorem dsu_merges_connect `{Platform} (n : N) (prio_gen : N → N) (es : list (N * N))
    (Hes : Forall (λ '(u, v), u < n ∧ v < n) es) (u v : N) (Hu : u < n) (Hv : v < n) :
  ∃ d d1 d2 r1 r2,
    for_each es (λ '(x, y), _ ← merge x y; mret tt) (DSU_new n prio_gen) = (d, Ok tt) ∧
    find_root u d = (d1, Ok r1) ∧ find_root v d1 = (d2, Ok r2) ∧
    r1 < n ∧ r2 < n ∧ (r1 = r2 ↔ pair_connected es u v).
Proof.
  destruct (for_each_inv (λ done d, uf_size d = n ∧ uf_tracks d done) es
    (λ '(x, y), _ ← merge x y; mret tt)) with (s := DSU_new n prio_gen) as (d & E & Hn & Ht).
  - intros pre [x y] rest d -> [Hn Ht]. rewrite Forall_app, Forall_cons in Hes.
    destruct Hes as (_ & [Hx Hy] & _).
    destruct (uf_merge_tracks d pre x y Ht) as (d' & r & E & Ht' & Hn' & _); [by rewrite Hn..|].
    exists d'. split; [by rewrite (M_bind_Ok _ _ _ _ _ E)|]. split; [congruence|].
    eapply uf_tracks_ext; [|exact Ht']. intros a b.
    split; apply pair_connected_mono; set_solver.
  - split; [done|]. destruct (DSU_new_ok n prio_gen) as [W R]. split; [exact W|].
    intros x y Hx Hy. change (uf_root ?d ?z) with (dsu_root d z).
    rewrite !R, pair_connected_nil by done. done.
  - destruct Ht as [W Ht]. change (dsu_wf d) in W. change (dsu_n d = n) in Hn.
    destruct (find_both_ok u v d W) as (d1 & d2 & E1 & E2 & _); [congruence..|].
    exists d, d1, d2, (dsu_root d u), (dsu_root d v). split_and!; [done|done|done|..].
    1,2: rewrite <-Hn; by apply dsu_root_lt; [|congruence].
    apply Ht; unfold uf_size, DSU_uf; congruence.
Qed.

Lemma dsu_merges_connect_witness :
  let _ := toy_platform true false false in
  ∃ d d1 d2 r1 r2,
    for_each [(0, 3); (4, 1); (3, 4)] (λ '(x, y), _ ← merge x y; mret tt)
      (DSU_new 5 (λ i, i * 7 mod 3)) = (d, Ok tt) ∧
    find_root 0 d = (d1, Ok r1) ∧ find_root 2 d1 = (d2, Ok r2) ∧
    r1 < 5 ∧ r2 < 5 ∧ (r1 = r2 ↔ pair_connected [(0, 3); (4, 1); (3, 4)] 0 2).
Proof.
  intros P. apply (dsu_merges_connect 5 (λ i, i * 7 mod 3) [(0, 3); (4, 1); (3, 4)]);
    [repeat constructor|reflexivity|reflexivity].
Defined.
