(* ===== verification/DsuMT.v ===== *)
(** Disjoint set union for concurrent merges (include/dsu.h, DisjointSetUnion_MT).

    Two models of the same code. Sequentially ([mt_merge] and the [UnionFind]
    instance on [DSU_MT]) the compare-and-swap may fail spuriously a finite
    number of times. Concurrently ([mt_step]) any number of merge calls run at
    once, one atomic access of the parent array per step, in any interleaving:
    [std::atomic] accesses without a memory order are sequentially consistent. *)
From S2P Require Import Prelude Platform Dsu.

Open Scope N_scope.

(** * One thread *)

(** [mt_spurious] lists the outcomes of the coming [compare_exchange_weak]
    calls on an unchanged cell; [true] is a spurious failure. Past its end they
    succeed. *)
Record DSU_MT : Type := mkDSU_MT { mt_dsu : DSU; mt_spurious : list bool }.

Section Sequential.
Context `{Platform}.

Definition mt_set_dsu (d : DSU) (m : DSU_MT) : DSU_MT := mkDSU_MT d (mt_spurious m).

Definition on_dsu {A} (m : M DSU A) : M DSU_MT A := zoom mt_dsu mt_set_dsu m.

Definition next_spurious : M DSU_MT bool := λ m,
  match mt_spurious m with
  | [] => (m, Ok false)
  | s :: ss => (mkDSU_MT (mt_dsu m) ss, Ok s)
  end.

(** [parent[b].compare_exchange_weak(b, a)]: success, and the new [b]. *)
Definition compare_exchange_weak (b a : N) : M DSU_MT (bool * N) :=
  d ← gets mt_dsu;
  pb ← lift (parent_at d b);
  spurious ← (if pb =? b then next_spurious else mret true : M DSU_MT bool);
  if spurious : bool then mret (false, pb)
  else _ ← on_dsu (modify (set_parent b a)); mret (true, b).

(** One iteration of the loop of [merge]; [again] is the next one. *)
Definition mt_merge_body (again : N → N → M DSU_MT DSUMergeRet) (a b : N) :
    M DSU_MT DSUMergeRet :=
  a ← on_dsu (find_root a);
  b ← on_dsu (find_root b);
  if a =? b then mret (mkMergeRet false 0 0)
  else
    n ← gets (λ m, dsu_n (mt_dsu m));
    _ ← cassert NDEBUG (a <? n);
    _ ← cassert NDEBUG (b <? n);
    d ← gets mt_dsu;
    '(a, b) ← lift (order_edge d a b);
    '(ok, b) ← compare_exchange_weak b a;
    if ok : bool then mret (mkMergeRet true a b) else again a b.

Fixpoint mt_merge_loop (fuel : nat) : N → N → M DSU_MT DSUMergeRet :=
  mt_merge_body (match fuel with
  | O => λ _ _, lift Undef
  | S fuel => mt_merge_loop fuel
  end).

(** Without other threads only the spurious failures repeat the loop. *)
Definition mt_merge (a b : N) : M DSU_MT DSUMergeRet :=
  k ← gets (λ m, length (mt_spurious m));
  mt_merge_loop k a b.

Definition mt_reset (m : DSU_MT) : DSU_MT := mt_set_dsu (reset (mt_dsu m)) m.

(** Constructor and copy constructor. *)
Definition DSU_MT_new (n : N) (prio_gen : N → N) : DSU_MT :=
  mkDSU_MT (DSU_new n prio_gen) [].

Definition DSU_MT_copy (oth : DSU_MT) : outcome DSU_MT :=
  d ← DSU_copy (mt_dsu oth); mret (mkDSU_MT d []).

(** ** The sequential calls implement the interface *)

Lemma on_dsu_Ok {A} (m : M DSU A) s d' (a : A) :
  m (mt_dsu s) = (d', Ok a) → on_dsu m s = (mt_set_dsu d' s, Ok a).
Proof using Type. intros E. unfold on_dsu, zoom. by rewrite E. Qed.

Lemma mt_cas_ok s a b : dsu_wf (mt_dsu s) → b < dsu_n (mt_dsu s) →
  dsu_root (mt_dsu s) b = b →
  (∃ ss, mt_spurious s = true :: ss ∧
     compare_exchange_weak b a s = (mkDSU_MT (mt_dsu s) ss, Ok (false, b))) ∨
  (∃ ss, compare_exchange_weak b a s =
     (mkDSU_MT (set_parent b a (mt_dsu s)) ss, Ok (true, b))).
Proof using Type.
  intros W Hb Fb. unfold compare_exchange_weak, gets, lift, mbind, M_bind.
  rewrite (parent_at_ok _ b W Hb), (proj1 (root_fixed_iff _ _ _ (proj1 W) b Hb) Fb), N.eqb_refl.
  unfold next_spurious. destruct (mt_spurious s) as [|[] ss] eqn:E; eauto.
Qed.

(** One iteration: the roots are equal, or linked, or a spurious failure was
    used up and the loop goes on from the roots. *)
Lemma mt_merge_body_ok again u v s : dsu_wf (mt_dsu s) →
  u < dsu_n (mt_dsu s) → v < dsu_n (mt_dsu s) →
  (∃ s' r, mt_merge_body again u v s = (s', Ok r) ∧ dsu_wf (mt_dsu s') ∧
     dsu_n (mt_dsu s') = dsu_n (mt_dsu s) ∧
     merge_effect (dsu_root (mt_dsu s)) (dsu_root (mt_dsu s')) (dsu_n (mt_dsu s)) u v r) ∨
  (∃ s' a b, mt_merge_body again u v s = again a b s' ∧
     dsu_equiv (mt_dsu s) (mt_dsu s') ∧ mt_spurious s = true :: mt_spurious s' ∧
     ((a = dsu_root (mt_dsu s) u ∧ b = dsu_root (mt_dsu s) v) ∨
      (a = dsu_root (mt_dsu s) v ∧ b = dsu_root (mt_dsu s) u))).
Proof using Type.
  intros W Hu Hv. unfold mt_merge_body.
  destruct (find_both_ok u v _ W Hu Hv) as (d1 & d2 & E1 & E2 & Q).
  pose proof Q as (W2 & N2 & _ & R2).
  rewrite (M_bind_Ok _ _ _ _ _ (on_dsu_Ok _ _ _ _ E1)).
  rewrite (M_bind_Ok _ _ _ _ _ (on_dsu_Ok _ (mt_set_dsu d1 s) _ _ E2)).
  pose proof (dsu_root_lt _ u W Hu) as Ha. pose proof (dsu_root_idemp _ u W Hu) as Fa.
  pose proof (dsu_root_lt _ v W Hv) as Hb. pose proof (dsu_root_idemp _ v W Hv) as Fb.
  unfold merge_effect. set (a := dsu_root _ u) in *. set (b := dsu_root _ v) in *.
  clearbody a b. set (s2 := mt_set_dsu d2 _).
  assert (mt_dsu s2 = d2 ∧ mt_spurious s2 = mt_spurious s) as [Ed Ess] by done.
  clearbody s2. destruct (N.eqb_spec a b) as [Hab|Hab].
  { left. exists s2, (mkMergeRet false 0 0). rewrite Ed. split_and!; [done..|by left]. }
  rewrite <-R2 in Fa, Fb by done. rewrite <-N2 in Ha, Hb.
  destruct (order_edge_ok d2 a b W2 Ha Hb Hab) as (a' & b' & Eo & Ho & Hc).
  rewrite M_bind_gets, !M_bind_cassert, M_bind_gets by (apply N.ltb_lt; by rewrite Ed).
  rewrite (M_bind_lift _ (a', b')) by (by rewrite Ed).
  assert (b' < dsu_n d2 ∧ dsu_root d2 b' = b') as [Hb' Fb'] by (by destruct Hc as [[-> ->]|[-> ->]]).
  rewrite <-Ed in Hb', Fb', W2.
  destruct (mt_cas_ok s2 a' b' W2 Hb' Fb') as [(ss & Es & Ec)|(ss & Ec)];
    rewrite (M_bind_Ok _ _ _ _ _ Ec).
  - right. exists (mkDSU_MT (mt_dsu s2) ss), a', b'. rewrite <-Ess, Es. simpl. rewrite Ed.
    split_and!; done.
  - left. rewrite Ed in *. eexists _, (mkMergeRet true a' b'). split; [reflexivity|]. simpl.
    destruct (link_ok d2 a' b' W2) as [W' R']; [by destruct Hc as [[-> ->]|[-> ->]]..|].
    split_and!; [done|done|]. right. split_and!; [done|done|tauto|].
    intros x Hx. by rewrite R', R2 by congruence.
Qed.

(** A merge may be started from the roots of its arguments. *)
Lemma merge_effect_from_roots d d' s' a b u v r :
  dsu_wf d → u < dsu_n d → v < dsu_n d → dsu_equiv d d' →
  (a = dsu_root d u ∧ b = dsu_root d v) ∨ (a = dsu_root d v ∧ b = dsu_root d u) →
  merge_effect (dsu_root d') (dsu_root s') (dsu_n d') a b r →
  merge_effect (dsu_root d) (dsu_root s') (dsu_n d) u v r.
Proof using Type.
  intros W Hu Hv (_ & N' & _ & R') Hab. unfold merge_effect. rewrite N'.
  assert (∀ w, w < dsu_n d → dsu_root d' (dsu_root d w) = dsu_root d w) as RR.
  { intros w Hw. rewrite R' by (by apply dsu_root_lt). by apply dsu_root_idemp. }
  destruct Hab as [[-> ->]|[-> ->]]; rewrite !RR by done.
  - intros [(E & -> & R)|(E & Em & Ec & R)]; [left|right]; split_and!; try done;
      intros x Hx; rewrite R, R' by done; done.
  - intros [(E & -> & R)|(E & Em & Ec & R)]; [left|right]; split_and!; try done; try tauto;
      intros x Hx; rewrite R, R' by done; done.
Qed.

Lemma mt_merge_loop_ok k u v s : dsu_wf (mt_dsu s) →
  u < dsu_n (mt_dsu s) → v < dsu_n (mt_dsu s) → (length (mt_spurious s) ≤ k)%nat →
  ∃ s' r, mt_merge_loop k u v s = (s', Ok r) ∧ dsu_wf (mt_dsu s') ∧
          dsu_n (mt_dsu s') = dsu_n (mt_dsu s) ∧
          merge_effect (dsu_root (mt_dsu s)) (dsu_root (mt_dsu s')) (dsu_n (mt_dsu s)) u v r.
Proof using Type.
  revert u v s. induction k as [|k IH]; intros u v s W Hu Hv Hk; cbn [mt_merge_loop];
    match goal with |- context [mt_merge_body ?ag _ _ _] =>
      destruct (mt_merge_body_ok ag u v s W Hu Hv)
        as [?|(s1 & a & b & -> & Q & Es & Hab)]; [done|] end;
    rewrite Es in Hk; simpl in Hk; [lia|].
  pose proof Q as (W1 & N1 & _ & _).
  destruct (IH a b s1) as (s' & r & -> & W' & N' & Heff); [done|..|lia|].
  1,2: rewrite N1; by destruct Hab as [[-> ->]|[-> ->]]; apply dsu_root_lt.
  exists s', r. split_and!; [done|done|congruence|]. by eapply merge_effect_from_roots.
Qed.

Lemma mt_merge_out u v m : dsu_wf (mt_dsu m) → dsu_n (mt_dsu m) ≤ u ∨ dsu_n (mt_dsu m) ≤ v →
  (mt_merge u v m).2 = Abort ∨ (mt_merge u v m).2 = Undef.
Proof using .
  intros Hd Huv. unfold mt_merge. rewrite M_bind_gets.
  assert (∀ again, (mt_merge_body again u v m).2 = Abort ∨ (mt_merge_body again u v m).2 = Undef) as Hb.
  { intros again. unfold mt_merge_body, on_dsu, zoom, mbind, M_bind.
    destruct (N.lt_ge_cases u (dsu_n (mt_dsu m))) as [Hu|Hu].
    - destruct Huv as [?|Hv]; [lia|]. destruct (find_root_ok u _ Hd Hu) as (d' & -> & Hd' & Hn & _).
      cbn [mt_dsu mt_set_dsu]. rewrite <-Hn in Hv.
      destruct (find_root_out v d' Hd' Hv) as [-> | ->]; [by left|by right].
    - destruct (find_root_out u _ Hd Hu) as [-> | ->]; [by left|by right]. }
  destruct (length (mt_spurious m)); cbn [mt_merge_loop]; apply Hb.
Qed.

#[export] Instance DSU_MT_uf : UnionFind DSU_MT := {
  uf_new := DSU_MT_new; uf_size m := dsu_n (mt_dsu m); uf_find_root u := on_dsu (find_root u);
  uf_merge := mt_merge; uf_reset := mt_reset }.

#[export] Instance DSU_MT_uf_laws : UnionFindLaws DSU_MT.
Proof using Type.
  refine {| uf_ok := λ m, dsu_wf (mt_dsu m); uf_root := λ m, dsu_root (mt_dsu m) |};
    cbn [uf_new uf_size uf_find_root uf_merge uf_reset DSU_MT_uf].
  - intros n prio_gen. destruct (DSU_new_ok n prio_gen). eauto.
  - intros m u. apply dsu_root_lt.
  - intros m u. apply dsu_root_idemp.
  - intros m u W Hu. destruct (find_root_ok u _ W Hu) as (d' & E & W' & N' & _ & R).
    exists (mt_set_dsu d' m). split; [by apply on_dsu_Ok|]. done.
  - intros m u v W Hu Hv. unfold mt_merge, gets.
    destruct (mt_merge_loop_ok (length (mt_spurious m)) u v m W Hu Hv)
      as (s' & r & E & H'); [lia|]. exists s', r. split; [exact E|exact H'].
  - intros m u v. apply mt_merge_out.
  - intros m W. destruct (reset_ok _ W). eauto.
Defined.
End Sequential.

(** * Many threads *)

(** Where a [find_root(u)] stands; each constructor waits for one atomic access. *)
Inductive find_pc : Type :=
| FLoad1                (** condition: load [parent[u]] *)
| FLoad2 (x1 : N)       (** condition: load [parent[x1]] *)
| FLoad3 (x2 : N)       (** condition: load [parent[u]], compare with [x2] *)
| FLoad4                (** body: load [parent[u]] *)
| FLoad5 (x4 : N)       (** body: load [parent[x4]] *)
| FStore (x5 : N)       (** body: store [x5] in [parent[u]] *)
| FMove                 (** body: [u = parent[u]] *)
| FRet.                 (** [return parent[u]] *)

(** One access of [find_root(u)]: the parent array after it, and the state of
    the search or its result. *)
Definition find_step (parent : list N) (u : N) (pc : find_pc) :
    outcome (list N * ((N * find_pc) + N)) :=
  match pc with
  | FLoad1 => x1 ← of_option (parent !! u); mret (parent, inl (u, FLoad2 x1))
  | FLoad2 x1 => x2 ← of_option (parent !! x1); mret (parent, inl (u, FLoad3 x2))
  | FLoad3 x2 =>
      x3 ← of_option (parent !! u);
      mret (parent, inl (u, if x2 =? x3 then FRet else FLoad4))
  | FLoad4 => x4 ← of_option (parent !! u); mret (parent, inl (u, FLoad5 x4))
  | FLoad5 x4 => x5 ← of_option (parent !! x4); mret (parent, inl (u, FStore x5))
  | FStore x5 => mret (<[u := x5]> parent, inl (u, FMove))
  | FMove => u' ← of_option (parent !! u); mret (parent, inl (u', FLoad1))
  | FRet => r ← of_option (parent !! u); mret (parent, inr r)
  end.

(** Where a call [merge(a, b)] stands. *)
Inductive merge_pc : Type :=
| MFindA (u : N) (pc : find_pc) (b : N)     (** [a = find_root(a)] *)
| MFindB (a : N) (u : N) (pc : find_pc)     (** [b = find_root(b)] *)
| MCas (a b : N)                            (** ordered, before the CAS *)
| MDone (r : DSUMergeRet).

(** One step of a call. [spurious]: this CAS fails on an unchanged cell. *)
Definition merge_step (priority : list N) (spurious : bool) (parent : list N) (pc : merge_pc) :
    outcome (list N * merge_pc) :=
  match pc with
  | MFindA u pc b =>
      '(parent, s) ← find_step parent u pc;
      mret (parent, match s with
                    | inl (u, pc) => MFindA u pc b
                    | inr a => MFindB a b FLoad1
                    end)
  | MFindB a u pc =>
      '(parent, s) ← find_step parent u pc;
      match s with
      | inl (u, pc) => mret (parent, MFindB a u pc)
      | inr b =>
          if a =? b then mret (parent, MDone (mkMergeRet false 0 0))
          else
            '(a, b) ← order_edge (mkDSU (N.of_nat (length parent)) parent priority) a b;
            mret (parent, MCas a b)
      end
  | MCas a b =>
      pb ← of_option (parent !! b);
      if (pb =? b) && negb spurious then mret (<[b := a]> parent, MDone (mkMergeRet true a b))
      else mret (parent, MFindA a FLoad1 pb)
  | MDone r => mret (parent, MDone r)
  end.

(** The calls in flight with their arguments, over the shared parent array. *)
Record mt_call : Type := mkCall { call_u : N; call_v : N; call_pc : merge_pc }.
Record mt_state : Type := mkMT { mt_parent : list N; mt_calls : list mt_call }.

Definition mt_start (parent : list N) (requests : list (N * N)) : mt_state :=
  mkMT parent ((λ '(u, v), mkCall u v (MFindA u FLoad1 v)) <$> requests).

(** The executable step of the [i]th call. *)
Definition mt_step_call (priority : list N) (i : nat) (spurious : bool) (s : mt_state) :
    outcome mt_state :=
  c ← of_option (mt_calls s !! i);
  '(parent, pc) ← merge_step priority spurious (mt_parent s) (call_pc c);
  mret (mkMT parent (<[i := mkCall (call_u c) (call_v c) pc]> (mt_calls s))).

(** Any unfinished call may take the next step. *)
Inductive mt_step (priority : list N) : relation mt_state :=
| mt_step_intro i spurious c s s' :
    mt_calls s !! i = Some c → (∀ r, call_pc c ≠ MDone r) →
    mt_step_call priority i spurious s = Ok s' →
    mt_step priority s s'.

(** Arguments of the calls that answered [merged = true]. *)
Definition did_link (pc : merge_pc) : bool :=
  match pc with MDone r => merged r | _ => false end.

Definition linked (s : mt_state) : list (N * N) :=
  (λ c, (call_u c, call_v c)) <$> filter (λ c, did_link (call_pc c) = true) (mt_calls s).

Lemma linked_insert (i : nat) c pc parent parent' calls :
  calls !! i = Some c → did_link (call_pc c) = false →
  linked (mkMT parent' (<[i := mkCall (call_u c) (call_v c) pc]> calls)) ≡ₚ
  (if did_link pc then [(call_u c, call_v c)] else []) ++ linked (mkMT parent calls).
Proof.
  intros Hi Hc. unfold linked. simpl. rewrite <-(take_drop_middle calls i c Hi) at 2.
  rewrite insert_take_drop by (by apply (lookup_lt_Some _ _ c)).
  rewrite !filter_app, !fmap_app, !filter_cons. simpl. rewrite Hc.
  destruct (did_link pc) eqn:E; simpl; [|done].
  by rewrite Permutation_middle.
Qed.

(** ** What a thread may rely on *)

Section Guarantee.
Context (n : N) (priority : list N).

(** Two vertices of one tree; a vertex that is no longer a root. *)
Definition same (parent : list N) (x y : N) : Prop := root n parent x = root n parent y.
Definition nonroot (parent : list N) (u : N) : Prop := par parent u ≠ u.

(** Every step of every thread keeps the forest, keeps trees together and
    never makes a root out of an inner vertex. *)
Definition evolves (parent parent' : list N) : Prop :=
  forest n priority parent' ∧
  (∀ x y, x < n → y < n → same parent x y → same parent' x y) ∧
  (∀ u, u < n → nonroot parent u → nonroot parent' u).

(** Invariant of a search for the root of [u0]. *)
Definition find_inv (parent : list N) (u0 u : N) (pc : find_pc) : Prop :=
  u < n ∧ same parent u0 u ∧
  match pc with
  | FLoad1 | FMove | FRet => True
  | FLoad2 x | FLoad3 x => x < n ∧ same parent x u ∧ (x ≠ u → nonroot parent u)
  | FLoad4 => nonroot parent u
  | FLoad5 x | FStore x =>
      x < n ∧ same parent x u ∧ nonroot parent u ∧ outranks priority x u
  end.

(** [a] and [b] stand for the two arguments, in some order. *)
Definition ends (parent : list N) (u v a b : N) : Prop :=
  a < n ∧ b < n ∧
  ((same parent a u ∧ same parent b v) ∨ (same parent a v ∧ same parent b u)).

Definition call_inv (parent : list N) (c : mt_call) : Prop :=
  call_u c < n ∧ call_v c < n ∧
  match call_pc c with
  | MFindA u pc b => ∃ a, ends parent (call_u c) (call_v c) a b ∧ find_inv parent a u pc
  | MFindB a u pc => ∃ b, ends parent (call_u c) (call_v c) a b ∧ find_inv parent b u pc
  | MCas a b => ends parent (call_u c) (call_v c) a b ∧ outranks priority a b
  | MDone r => same parent (call_u c) (call_v c)
  end.

Lemma evolves_refl parent : forest n priority parent → evolves parent parent.
Proof using . by unfold evolves. Qed.

Lemma find_inv_evolves parent parent' u0 u pc :
  u0 < n → evolves parent parent' → find_inv parent u0 u pc → find_inv parent' u0 u pc.
Proof using .
  intros H0 (_ & Hs & Hn) (Hu & Hsu & Hpc). split_and!; [done|by apply Hs|].
  destruct pc; naive_solver.
Qed.

Lemma ends_evolves parent parent' u v a b :
  u < n → v < n → evolves parent parent' → ends parent u v a b → ends parent' u v a b.
Proof using . intros Hu Hv (_ & Hs & _) (Ha & Hb & He). unfold ends. naive_solver. Qed.

Lemma call_inv_evolves parent parent' c :
  evolves parent parent' → call_inv parent c → call_inv parent' c.
Proof using .
  intros He (Hu & Hv & Hc). split_and!; [done|done|]. pose proof He as (_ & Hs & _).
  destruct (call_pc c) as [u pc b|a u pc|a b|r].
  - destruct Hc as (a & Hends & Hf). exists a. pose proof Hends as (? & ? & _).
    split; [by eapply ends_evolves|by eapply find_inv_evolves].
  - destruct Hc as (b & Hends & Hf). exists b. pose proof Hends as (? & ? & _).
    split; [by eapply ends_evolves|by eapply find_inv_evolves].
  - destruct Hc. split; [by eapply ends_evolves|done].
  - by apply Hs.
Qed.

Lemma evolves_same parent parent' :
  forest n priority parent' → (∀ x, x < n → root n parent' x = root n parent x) →
  (∀ u, u < n → nonroot parent u → nonroot parent' u) → evolves parent parent'.
Proof using . intros Hf R Hn. split_and!; [done| |done]. intros x y Hx Hy. unfold same. by rewrite !R. Qed.

(** ** One step of a search *)

Lemma find_step_ok parent u0 u pc :
  forest n priority parent → u0 < n → find_inv parent u0 u pc →
  ∃ parent' s, find_step parent u pc = Ok (parent', s) ∧
    evolves parent parent' ∧ (∀ x, x < n → root n parent' x = root n parent x) ∧
    match s with
    | inl (u', pc') => find_inv parent' u0 u' pc'
    | inr r => r < n ∧ same parent' u0 r
    end.
Proof using .
  intros Hf Hu0 (Hu & Hs & Hpc). unfold find_step.
  pose proof (evolves_refl parent Hf) as Hrefl.
  pose proof (forest_lookup _ _ _ Hf u Hu) as Lu. pose proof (par_lt _ _ _ Hf u Hu) as Pu.
  pose proof (root_par _ _ _ Hf u Hu) as Ru. pose proof (par_outranks _ _ _ Hf u Hu) as Ou.
  destruct pc as [|x|x| |x|x| |]; cbn [find_inv] in *.
  - rewrite Lu. simpl. eexists _, _. split_and!; [done|done|done|]. unfold find_inv.
    split_and!; done.
  - destruct Hpc as (Hx & Sx & Nx). pose proof (par_lt _ _ _ Hf x Hx).
    rewrite (forest_lookup _ _ _ Hf x Hx). simpl. eexists _, _. split_and!; [done..|].
    unfold find_inv. split_and!; [done|done|done| |].
    + unfold same. by rewrite (root_par _ _ _ Hf).
    + intros Hne. destruct (decide (x = u)) as [->|]; [done|auto].
  - destruct Hpc as (Hx & Sx & Nx). rewrite Lu. simpl. eexists _, _. split_and!; [done..|].
    destruct (N.eqb_spec x (par parent u)) as [E|E]; unfold find_inv; split_and!; try done.
    unfold nonroot. intros E'. destruct (decide (x = u)) as [->|Hne]; [congruence|].
    by apply Nx in Hne.
  - rewrite Lu. simpl. eexists _, _. split_and!; [done..|]. unfold find_inv.
    split_and!; try done. by destruct Ou.
  - destruct Hpc as (Hx & Sx & Nu & Ox). pose proof (par_lt _ _ _ Hf x Hx).
    rewrite (forest_lookup _ _ _ Hf x Hx). simpl. eexists _, _. split_and!; [done..|].
    unfold find_inv. split_and!; try done.
    + unfold same. by rewrite (root_par _ _ _ Hf).
    + destruct (par_outranks _ _ _ Hf x Hx) as [->|]; [done|by eapply outranks_trans].
  - destruct Hpc as (Hx & Sx & Nu & Ox).
    pose proof (root_redirect _ _ _ u x Hf Hu Hx Ox Nu Sx) as R.
    assert (forest n priority (<[u := x]> parent)) as Hf' by (by apply forest_insert).
    eexists _, _. split; [done|]. split; [apply evolves_same; [done|done|]|split; [done|]].
    + intros y Hy Ny. unfold nonroot. rewrite par_insert by (destruct Hf; lia).
      case_decide as E; [|done]. subst y. intros ->. by apply outranks_irrefl in Ox.
    + unfold find_inv. split_and!; [done| |done]. unfold same in *. by rewrite !R.
  - rewrite Lu. simpl. eexists _, _. split_and!; [done..|]. unfold find_inv, same in *.
    split_and!; [done|congruence|done].
  - rewrite Lu. simpl. eexists _, _. split_and!; try done.
    unfold same in *. by rewrite Hs, <-Ru.
Qed.

Lemma ends_find_a parent u v a b r : ends parent u v a b → r < n → same parent a r →
  ends parent u v r b.
Proof using . unfold ends, same. intros (? & ? & [[]|[]]) ? ?; split_and!; try done; [left|right]; split; congruence. Qed.

Lemma ends_find_b parent u v a b r : ends parent u v a b → r < n → same parent b r →
  ends parent u v a r.
Proof using . unfold ends, same. intros (? & ? & [[]|[]]) ? ?; split_and!; try done; [left|right]; split; congruence. Qed.

Lemma ends_swap parent u v a b : ends parent u v a b → ends parent u v b a.
Proof using . unfold ends. tauto. Qed.

Lemma ends_same parent u v a : ends parent u v a a → same parent u v.
Proof using . unfold ends, same. intros (_ & _ & [[]|[]]); congruence. Qed.

(** What a step does to the classes: nothing, or it joins those of [u] and [v]. *)
Definition classes_effect (parent parent' : list N) (u v : N) (link : bool) : Prop :=
  if link then
    ¬ same parent u v ∧
    ∀ x y, x < n → y < n → same parent' x y ↔ joined (same parent) u v x y
  else ∀ x y, x < n → y < n → same parent' x y ↔ same parent x y.

Lemma classes_effect_roots parent parent' u v :
  (∀ x, x < n → root n parent' x = root n parent x) → classes_effect parent parent' u v false.
Proof using . intros R x y Hx Hy. unfold same. by rewrite !R. Qed.

(** ** The compare-and-swap *)

Lemma cas_link_ok parent u v a b :
  forest n priority parent → u < n → v < n → ends parent u v a b →
  outranks priority a b → par parent b = b →
  evolves parent (<[b := a]> parent) ∧ same (<[b := a]> parent) u v ∧
  classes_effect parent (<[b := a]> parent) u v true.
Proof using .
  intros Hf Hu Hv (Ha & Hb & He) Ho Fb.
  destruct (root_link _ _ _ a b Hf Ha Hb Ho Fb) as [Nab R].
  assert (root n parent b = b) as Rb by (by apply root_of_fixed).
  unfold evolves, classes_effect, same, joined in *. split_and!.
  - by apply forest_insert.
  - intros x y Hx Hy E. by rewrite !R, E.
  - intros x Hx Nx. unfold nonroot. rewrite par_insert by (destruct Hf; lia).
    case_decide as E; [|done]. by subst x.
  - rewrite !R by done. destruct He as [[E1 E2]|[E1 E2]]; rewrite <-E1, <-E2, Rb;
      by bool_cases.
  - destruct He as [[E1 E2]|[E1 E2]]; congruence.
  - intros x y Hx Hy. rewrite !R by done.
    destruct He as [[E1 E2]|[E1 E2]]; rewrite <-E1, <-E2, Rb; bool_cases; split;
      first [ intros ?; first [left; congruence|right; left; split; congruence
                              |right; right; split; congruence]
            | intros [?|[[? ?]|[? ?]]]; congruence ].
Qed.

(** ** One step of a call *)

Lemma merge_step_ok spurious parent c :
  forest n priority parent → length priority = N.to_nat n → call_inv parent c →
  (∀ r, call_pc c ≠ MDone r) →
  ∃ parent' pc, merge_step priority spurious parent (call_pc c) = Ok (parent', pc) ∧
    evolves parent parent' ∧ call_inv parent' (mkCall (call_u c) (call_v c) pc) ∧
    classes_effect parent parent' (call_u c) (call_v c) (did_link pc).
Proof using .
  intros Hf HP (Hu & Hv & Hc) Hnd. unfold call_inv.
  pose proof (evolves_refl parent Hf) as Hrefl.
  destruct (call_pc c) as [x pc b|a x pc|a b|r]; cbn [merge_step]; [..|by destruct (Hnd r)].
  - destruct Hc as (a & He & Hi). pose proof He as (Ha & Hb & _).
    destruct (find_step_ok parent a x pc Hf Ha Hi) as (parent' & s & -> & Hev & R & Hs).
    simpl. apply ends_evolves with (parent' := parent') in He; [|done..].
    destruct s as [[x' pc']|r]; eexists _, _; (split; [done|]); cbn [call_u call_v call_pc].
    + split_and!; try done; [by exists a|by apply classes_effect_roots].
    + destruct Hs as [Hr Hs]. split_and!; try done; [|by apply classes_effect_roots].
      exists b. split; [by eapply ends_find_a|]. by unfold find_inv.
  - destruct Hc as (b & He & Hi). pose proof He as (Ha & Hb & _).
    destruct (find_step_ok parent b x pc Hf Hb Hi) as (parent' & s & -> & Hev & R & Hs).
    simpl. apply ends_evolves with (parent' := parent') in He; [|done..].
    pose proof (classes_effect_roots parent parent' (call_u c) (call_v c) R).
    destruct s as [[x' pc']|r]; [|destruct Hs as [Hr Hs]; destruct (N.eqb_spec a r) as [<-|Hne]].
    + eexists _, _; (split; [done|]); cbn [call_u call_v call_pc]. split_and!; try done. by exists b.
    + eexists _, _; (split; [done|]); cbn [call_u call_v call_pc]. split_and!; try done.
      eapply ends_same, ends_find_b; [exact He|done|done].
    + destruct (order_edge_ok (mkDSU (N.of_nat (length parent')) parent' priority) a r)
        as (a' & b' & -> & Ho & Hab); try done.
      { destruct Hev as [[HL Hev] _]. unfold dsu_wf. cbn [dsu_n dsu_priority dsu_parent].
        rewrite HL, N2Nat.id. done. }
      1,2: destruct Hev as [[HL _] _]; simpl; lia.
      simpl. eexists _, _; (split; [done|]); cbn [call_u call_v call_pc]. split_and!; try done.
      apply ends_find_b with (r := r) in He; [|done..].
      destruct Hab as [[-> ->]|[-> ->]]; [done|by apply ends_swap].
  - destruct Hc as (He & Ho). pose proof He as (Ha & Hb & _).
    rewrite (forest_lookup _ _ _ Hf b Hb). simpl.
    destruct (N.eqb_spec (par parent b) b) as [Fb|Fb]; [destruct spurious|]; simpl.
    2: { destruct (cas_link_ok parent (call_u c) (call_v c) a b) as (Hev & Hs & Hcl); try done.
         eexists _, _; (split; [done|]); cbn [call_u call_v call_pc]. split_and!; done. }
    all: eexists _, _; (split; [done|]); cbn [call_u call_v call_pc]; split_and!; try done.
    all: exists a; (split; [|by unfold find_inv]).
    + by rewrite Fb.
    + apply (ends_find_b _ _ _ a b); [done|by eapply par_lt|].
      unfold same. by rewrite (root_par _ _ _ Hf).
Qed.
End Guarantee.

(** * Every interleaving *)

Section Interleavings.
Context (n : N) (priority : list N) (HP : length priority = N.to_nat n).

(** The classes are the components of the links made, and the links, in the
    order of their compare-and-swaps, close no cycle. *)
Definition mt_inv (s : mt_state) : Prop :=
  forest n priority (mt_parent s) ∧
  (∀ (i : nat) c, mt_calls s !! i = Some c → call_inv n priority (mt_parent s) c) ∧
  ∃ log, log ≡ₚ linked s ∧ acyclic_pairs log ∧
    ∀ x y, x < n → y < n → same n (mt_parent s) x y ↔ pair_connected log x y.

Lemma log_link log parent parent' u v link :
  u < n → v < n → classes_effect n parent parent' u v link → acyclic_pairs log →
  (∀ x y, x < n → y < n → same n parent x y ↔ pair_connected log x y) →
  let log' := (if link then [(u, v)] else []) ++ log in
  acyclic_pairs log' ∧
  ∀ x y, x < n → y < n → same n parent' x y ↔ pair_connected log' x y.
Proof using .
  intros Hu Hv Hcl Hac Hlog. unfold classes_effect in Hcl. destruct link; simpl.
  - destruct Hcl as [Hnew Hcl]. rewrite <-Hlog by done. split; [done|].
    intros x y Hx Hy. rewrite Hcl, pair_connected_cons by done. unfold joined.
    by rewrite !Hlog.
  - split; [done|]. intros x y Hx Hy. by rewrite Hcl, Hlog.
Qed.

Lemma mt_step_inv s s' : mt_inv s → mt_step priority s s' → mt_inv s'.
Proof using n priority HP.
  intros HI Hst. destruct Hst as [i spurious c s0 s1 Hi Hnd Hstep].
  destruct HI as (Hf & Hcalls & log & Hperm & Hac & Hlog).
  pose proof (Hcalls i c Hi) as Hc. pose proof Hc as (Hu & Hv & _).
  destruct (merge_step_ok n priority spurious (mt_parent s0) c Hf HP Hc Hnd)
    as (parent' & pc & E & Hev & Hc' & Hcl).
  unfold mt_step_call in Hstep. rewrite Hi in Hstep. simpl in Hstep. rewrite E in Hstep.
  simpl in Hstep. injection Hstep as <-. unfold mt_inv. cbn [mt_parent mt_calls].
  split_and!; [apply Hev| |].
  - intros j d Hj. destruct (decide (j = i)) as [->|Hne].
    + rewrite list_lookup_insert_eq in Hj by (by apply (lookup_lt_Some _ _ c)). by injection Hj as <-.
    + rewrite list_lookup_insert_ne in Hj by done. by eapply call_inv_evolves, Hcalls.
  - destruct (log_link log _ _ _ _ _ Hu Hv Hcl Hac Hlog) as [Hac' Hlog'].
    eexists. split_and!; [|exact Hac'|exact Hlog'].
    assert (did_link (call_pc c) = false) as Hdl by (destruct (call_pc c); naive_solver).
    rewrite (linked_insert i c pc (mt_parent s0) parent') by done. rewrite Hperm. by destruct s0.
Qed.

Lemma mt_start_inv requests :
  Forall (λ '(u, v), u < n ∧ v < n) requests → mt_inv (mt_start (seqN 0 n) requests).
Proof using n priority HP.
  intros Hr. assert (∀ i, i < n → seqN 0 n !! i = Some i) as Hi.
  { intros i Hi. by rewrite lookup_seqN by done. }
  assert (∀ x, x < n → root n (seqN 0 n) x = x) as Hroot.
  { intros x Hx. apply root_of_fixed. unfold par. by rewrite Hi. }
  unfold mt_inv, mt_start. cbn [mt_parent mt_calls]. split_and!.
  - split; [by rewrite length_seqN|]. intros u p Hp.
    assert (u < n) as Hu by (apply lookupN_lt_Some in Hp; rewrite length_seqN in Hp; lia).
    rewrite Hi in Hp by done. injection Hp as <-. auto.
  - intros i c Hc. apply list_lookup_fmap_Some in Hc as ([u v] & -> & Hc).
    rewrite Forall_lookup in Hr. destruct (Hr _ _ Hc) as [Hu Hv].
    unfold call_inv. cbn [call_u call_v call_pc]. split_and!; [done|done|]. exists u.
    unfold ends, find_inv, same. split_and!; try done. by left.
  - exists []. split_and!; [|done|].
    + unfold linked. cbn [mt_calls]. clear Hr.
      induction requests as [|[u v] rs IH]; simpl; [done|]. rewrite filter_cons. simpl. exact IH.
    + intros x y Hx Hy. unfold same. rewrite !Hroot, pair_connected_nil by done. done.
Qed.

Lemma mt_reach_inv s s' : mt_inv s → rtc (mt_step priority) s s' → mt_inv s'.
Proof using n priority HP. intros Hi Hst. induction Hst; [done|]. eauto using mt_step_inv. Qed.

(** The arguments of the calls never change. *)
Definition mt_requests (s : mt_state) : list (N * N) :=
  (λ c, (call_u c, call_v c)) <$> mt_calls s.

Lemma mt_step_requests s s' : mt_step priority s s' → mt_requests s' = mt_requests s.
Proof using .
  intros [i spurious c s0 s1 Hi _ Hstep]. unfold mt_step_call in Hstep. rewrite Hi in Hstep.
  simpl in Hstep. destruct (merge_step _ _ _ _) as [[p pc]| | |]; [|done..]. simpl in Hstep.
  injection Hstep as <-. unfold mt_requests. cbn [mt_calls]. rewrite list_fmap_insert. simpl.
  apply list_insert_id. by rewrite list_lookup_fmap, Hi.
Qed.

Lemma mt_reach_requests s s' : rtc (mt_step priority) s s' → mt_requests s' = mt_requests s.
Proof using . induction 1 as [|s1 s2 s3 Hst _ IH]; [done|]. rewrite IH. by apply mt_step_requests. Qed.
End Interleavings.

(** C32. Concurrent merges, at every moment of every interleaving: the pairs
    whose call answered [merged = true] close no cycle (in the order of their
    compare-and-swaps), two vertices are in the same tree exactly when those
    pairs connect them, a finished call's arguments are in the same tree, and
    every unfinished call can take its next step, whatever the weak
    compare-and-swap does. *)
Theorem mt_merges_safe (n : N) (priority : list N) (requests : list (N * N)) (s : mt_state)
    (HP : length priority = N.to_nat n)
    (Hr : Forall (λ '(u, v), u < n ∧ v < n) requests)
    (Hs : rtc (mt_step priority) (mt_start (seqN 0 n) requests) s) :
  (∃ log, log ≡ₚ linked s ∧ acyclic_pairs log) ∧
  (∀ x y, x < n → y < n →
     root n (mt_parent s) x = root n (mt_parent s) y ↔ pair_connected (linked s) x y) ∧
  (∀ (i : nat) c, mt_calls s !! i = Some c →
     match call_pc c with
     | MDone _ => root n (mt_parent s) (call_u c) = root n (mt_parent s) (call_v c)
     | _ => ∀ spurious, ∃ s', mt_step_call priority i spurious s = Ok s' ∧ mt_step priority s s'
     end).
Proof.
  destruct (mt_reach_inv n priority HP _ s (mt_start_inv n priority HP requests Hr) Hs)
    as (Hf & Hcalls & log & Hperm & Hac & Hlog).
  split_and!; [by exists log| |].
  - intros x y Hx Hy. unfold same in Hlog. rewrite Hlog by done.
    split; apply pair_connected_mono; intros e; by rewrite Hperm.
  - intros i c Hi. pose proof (Hcalls i c Hi) as Hc.
    assert ((∀ r, call_pc c ≠ MDone r) → ∀ spurious,
      ∃ s', mt_step_call priority i spurious s = Ok s' ∧ mt_step priority s s') as Hgo.
    { intros Hnd spurious.
      destruct (merge_step_ok n priority spurious (mt_parent s) c Hf HP Hc Hnd)
        as (parent' & pc & E & _).
      assert (mt_step_call priority i spurious s =
        Ok (mkMT parent' (<[i := mkCall (call_u c) (call_v c) pc]> (mt_calls s)))) as Hst.
      { unfold mt_step_call. rewrite Hi. simpl. by rewrite E. }
      eexists. split; [exact Hst|]. by eapply mt_step_intro. }
    destruct (call_pc c) eqn:E; try (apply Hgo; naive_solver). destruct Hc as (_ & _ & Hc).
    by rewrite E in Hc.
Qed.

(** C33. When all calls have returned, two vertices are in the same tree exactly
    when the requested pairs connect them, whatever the interleaving was. *)
Theorem mt_merges_complete (n : N) (priority : list N) (requests : list (N * N)) (s : mt_state)
    (HP : length priority = N.to_nat n)
    (Hr : Forall (λ '(u, v), u < n ∧ v < n) requests)
    (Hs : rtc (mt_step priority) (mt_start (seqN 0 n) requests) s)
    (Hdone : ∀ (i : nat) c, mt_calls s !! i = Some c → ∃ r, call_pc c = MDone r)
    (x y : N) (Hx : x < n) (Hy : y < n) :
  root n (mt_parent s) x = root n (mt_parent s) y ↔ pair_connected requests x y.
Proof.
  destruct (mt_reach_inv n priority HP _ s (mt_start_inv n priority HP requests Hr) Hs)
    as (Hf & Hcalls & log & Hperm & Hac & Hlog).
  apply mt_reach_requests in Hs.
  assert (mt_requests s = requests) as Hreq.
  { rewrite Hs. unfold mt_requests, mt_start. cbn [mt_calls]. rewrite <-list_fmap_compose.
    rewrite <-(list_fmap_id requests) at 2. apply list_fmap_ext. by intros ? [u v] _. }
  unfold same in Hlog. rewrite Hlog by done. rewrite <-Hreq. split.
  - apply pair_connected_mono. intros e. rewrite Hperm. unfold linked, mt_requests.
    rewrite !list_elem_of_fmap. intros (c & -> & Hc%list_elem_of_filter). exists c. tauto.
  - apply pair_connected_ind; [apply _|]. intros u v Huv.
    unfold mt_requests in Huv. apply list_elem_of_fmap in Huv as (c & [= -> ->] & Hc).
    apply list_elem_of_lookup in Hc as [i Hi]. destruct (Hdone i c Hi) as [r Er].
    destruct (Hcalls i c Hi) as (Hu & Hv & Hsame). rewrite Er in Hsame. by apply Hlog.
Qed.

(** A schedule says which call steps next and whether its compare-and-swap
    fails spuriously. *)
Fixpoint mt_run (priority : list N) (schedule : list (nat * bool)) (s : mt_state) :
    outcome mt_state :=
  match schedule with
  | [] => mret s
  | (i, spurious) :: schedule =>
      c ← of_option (mt_calls s !! i);
      match call_pc c with
      | MDone _ => mt_run priority schedule s
      | _ => s ← mt_step_call priority i spurious s; mt_run priority schedule s
      end
  end.

Lemma mt_run_reach priority schedule s s' :
  mt_run priority schedule s = Ok s' → rtc (mt_step priority) s s'.
Proof.
  revert s. induction schedule as [|[i spurious] schedule IH]; intros s Hrun.
  - injection Hrun as <-. constructor.
  - cbn [mt_run] in Hrun. destruct (mt_calls s !! i) as [c|] eqn:Hi; [|done]. simpl in Hrun.
    destruct (call_pc c) eqn:Hpc; [..|by apply IH].
    all: destruct (mt_step_call priority i spurious s) as [s1| | |] eqn:Hst; [|done..].
    all: eapply rtc_l; [eapply mt_step_intro; [exact Hi|by rewrite Hpc|exact Hst]|by apply IH].
Qed.

(** Three calls in lock step; the first CAS of call 2 fails spuriously. *)
Definition demo_requests : list (N * N) := [(0, 1); (1, 2); (2, 0)].
Definition demo_schedule (rounds : nat) : list (nat * bool) :=
  concat ((λ k, [(0%nat, false); (1%nat, false); (2%nat, Nat.ltb k 9)]) <$> seq 0 rounds).
Definition demo_state (rounds : nat) : mt_state :=
  match mt_run [5; 5; 9; 1] (demo_schedule rounds) (mt_start (seqN 0 4) demo_requests) with
  | Ok s => s
  | _ => mt_start [] []
  end.

Lemma mt_merges_safe_witness :
  let s := demo_state 9 in
  (∃ log, log ≡ₚ linked s ∧ acyclic_pairs log) ∧
  (∀ x y, x < 4 → y < 4 →
     root 4 (mt_parent s) x = root 4 (mt_parent s) y ↔ pair_connected (linked s) x y) ∧
  (∀ (i : nat) c, mt_calls s !! i = Some c →
     match call_pc c with
     | MDone _ => root 4 (mt_parent s) (call_u c) = root 4 (mt_parent s) (call_v c)
     | _ => ∀ spurious, ∃ s', mt_step_call [5; 5; 9; 1] i spurious s = Ok s' ∧
                              mt_step [5; 5; 9; 1] s s'
     end).
Proof.
  intros s. apply (mt_merges_safe 4 [5; 5; 9; 1] demo_requests s); [reflexivity|..].
  - repeat constructor.
  - apply (mt_run_reach _ (demo_schedule 9)). vm_compute. reflexivity.
Defined.

Lemma mt_merges_complete_witness :
  root 4 (mt_parent (demo_state 40)) 1 = root 4 (mt_parent (demo_state 40)) 2 ↔
  pair_connected demo_requests 1 2.
Proof.
  apply (mt_merges_complete 4 [5; 5; 9; 1] demo_requests (demo_state 40)).
  - reflexivity.
  - repeat constructor.
  - apply (mt_run_reach _ (demo_schedule 40)). vm_compute. reflexivity.
  - intros i c Hi. vm_compute in Hi. do 3 (destruct i as [|i]; [injection Hi as <-; eexists; reflexivity|]).
    by destruct i.
  - reflexivity.
  - reflexivity.
Defined.
