(* ===== verification/Config.v ===== *)
(** The two configuration objects (include/cc_alg_configuration.h,
    src/cc_alg_configuration.cpp, include/driver_configuration.h,
    src/driver_configuration.cpp).

    A setter returns the object it changed and the text it printed. How a
    [double] is printed belongs to the C++ library: [show_double] is a
    parameter. *)
From S2P Require Import Prelude Float64 Platform.
From Stdlib Require Import Floats.SpecFloat Ascii.

Open Scope N_scope.

Definition endl : string := String (ascii_of_nat 10) EmptyString.
Definition lines_of (ls : list string) : string := foldr String.append EmptyString ls.

Definition dzero : double := S754_zero false.
Definition done_ : double := double_of_N 1.

(** * CCAlgConfiguration *)

Record CCAlgConfiguration : Type := mkCCAlgConf {
  _disk_dir : string;
  _sketches_factor : double;
  _batch_factor : double
}.

Definition CCAlgConfiguration_default : CCAlgConfiguration := mkCCAlgConf "." done_ done_.

Inductive GutterSystem : Type := GUTTERTREE | STANDALONE | CACHETREE.

(** [GutteringConfiguration] is a type of the guttering library. *)
Record DriverConfiguration (G : Type) : Type := mkDriverConf {
  _gutter_sys : GutterSystem;
  driver_disk_dir_ : string;
  _num_worker_threads : N;
  _gutter_conf : G
}.
Arguments mkDriverConf {G}.
Arguments _gutter_sys {G}.
Arguments driver_disk_dir_ {G}.
Arguments _num_worker_threads {G}.
Arguments _gutter_conf {G}.

Section Configurations.
Context (show_double : double → string) (show_N : N → string).

Definition cc_disk_dir (dir : string) (c : CCAlgConfiguration) : CCAlgConfiguration :=
  mkCCAlgConf dir (_sketches_factor c) (_batch_factor c).

Definition sketches_factor (factor : double) (c : CCAlgConfiguration) :
    CCAlgConfiguration * string :=
  let c := mkCCAlgConf (_disk_dir c) factor (_batch_factor c) in
  if SFleb (_sketches_factor c) dzero then
    (mkCCAlgConf (_disk_dir c) done_ (_batch_factor c),
     lines_of ["sketches_factor="; show_double (_sketches_factor c);
               " is out of bounds. (0, infty)"; "Defaulting to 1."; endl])
  else (c, EmptyString).

Definition batch_factor (factor : double) (c : CCAlgConfiguration) :
    CCAlgConfiguration * string :=
  let c := mkCCAlgConf (_disk_dir c) (_sketches_factor c) factor in
  if SFleb (_batch_factor c) dzero then
    (mkCCAlgConf (_disk_dir c) (_sketches_factor c) done_,
     lines_of ["batch factor="; show_double (_batch_factor c);
               " is out of bounds. (0, infty)"; "Defaulting to 1."; endl])
  else (c, EmptyString).

Definition show_cc_conf `{Platform} (c : CCAlgConfiguration) : string :=
  lines_of [
    "Connected Components Algorithm Configuration:"; endl;
    (if L0_SAMPLING then " Sketching algorithm   = CubeSketch"
     else " Sketching algorithm   = CameoSketch"); endl;
    (if NO_EAGER_DSU then " Using Eager DSU       = False"
     else " Using Eager DSU       = True"); endl;
    " Num sketches factor   = "; show_double (_sketches_factor c); endl;
    " Batch size factor     = "; show_double (_batch_factor c); endl;
    " On disk data location = "; _disk_dir c]%string.

(** * DriverConfiguration *)

Context {G : Type}.

Definition DriverConfiguration_default (g : G) : DriverConfiguration G :=
  mkDriverConf STANDALONE "." 1 g.

Definition gutter_sys (sys : GutterSystem) (c : DriverConfiguration G) : DriverConfiguration G :=
  mkDriverConf sys (driver_disk_dir_ c) (_num_worker_threads c) (_gutter_conf c).

Definition driver_disk_dir (dir : string) (c : DriverConfiguration G) : DriverConfiguration G :=
  mkDriverConf (_gutter_sys c) dir (_num_worker_threads c) (_gutter_conf c).

Definition worker_threads (num_worker_threads : N) (c : DriverConfiguration G) :
    DriverConfiguration G * string :=
  let c := mkDriverConf (_gutter_sys c) (driver_disk_dir_ c) num_worker_threads (_gutter_conf c) in
  if _num_worker_threads c <? 1 then
    (mkDriverConf (_gutter_sys c) (driver_disk_dir_ c) 1 (_gutter_conf c),
     lines_of ["num_worker_threads="; show_N (_num_worker_threads c);
               " is out of bounds. [1, infty)"; "Defaulting to 1."; endl])
  else (c, EmptyString).

(** [gutter_conf()] returns a reference: reading it, and writing through it. *)
Definition gutter_conf (c : DriverConfiguration G) : G := _gutter_conf c.
Definition set_gutter_conf (g : G) (c : DriverConfiguration G) : DriverConfiguration G :=
  mkDriverConf (_gutter_sys c) (driver_disk_dir_ c) (_num_worker_threads c) g.

Definition show_driver_conf (c : DriverConfiguration G) : string :=
  let gutter_system :=
    match _gutter_sys c with
    | GUTTERTREE => "GutterTree"
    | CACHETREE => "CacheTree"
    | STANDALONE => "StandAloneGutters"
    end%string in
  lines_of [
    "GraphSketchDriver Configuration:"; endl;
    " Guttering system      = "; gutter_system; endl;
    " Worker thread count   = "; show_N (_num_worker_threads c); endl;
    " On disk data location = "; driver_disk_dir_ c]%string.

(** * Properties *)

(** Values a caller can set: the setters keep anything not below or equal to 0,
    a NaN included. *)
Definition factor_ok (d : double) : Prop := SFleb d dzero = false.
Definition cc_conf_ok (c : CCAlgConfiguration) : Prop :=
  factor_ok (_sketches_factor c) ∧ factor_ok (_batch_factor c).

Lemma cc_setters_ok c f : cc_conf_ok c →
  cc_conf_ok (fst (sketches_factor f c)) ∧ cc_conf_ok (fst (batch_factor f c)).
Proof using .
  intros [H1 H2]. unfold sketches_factor, batch_factor, cc_conf_ok, factor_ok in *. simpl.
  destruct (SFleb f dzero) eqn:E; simpl; rewrite ?E; auto.
Qed.

End Configurations.

(** A sequence of setter calls on an algorithm's configuration. *)
Inductive conf_call : Type :=
| CallDiskDir (dir : string)
| CallSketchesFactor (f : double)
| CallBatchFactor (f : double).

Definition run_conf_call (show_double : double → string) (k : conf_call)
    (s : CCAlgConfiguration * string) : CCAlgConfiguration * string :=
  let '(c, out) := s in
  match k with
  | CallDiskDir dir => (cc_disk_dir dir c, out)
  | CallSketchesFactor f =>
      let '(c, msg) := sketches_factor show_double f c in (c, String.append out msg)
  | CallBatchFactor f =>
      let '(c, msg) := batch_factor show_double f c in (c, String.append out msg)
  end.

(** Whatever setters are called in whatever order, both factors stay out of
    (-infty, 0]; an accepted value is stored as it is and nothing is printed,
    a rejected one leaves 1 and a message; and a worker count of 0 becomes 1. *)
Theorem configuration_bounds (show_double : double → string) (show_N : N → string)
    (calls : list conf_call) {G} (d : DriverConfiguration G) (f : double) (w : N) :
  let c := fst (foldr (run_conf_call show_double) (CCAlgConfiguration_default, EmptyString) calls) in
  cc_conf_ok c ∧
  (let '(c', msg) := sketches_factor show_double f c in
   _batch_factor c' = _batch_factor c ∧
   if SFleb f dzero then _sketches_factor c' = done_ ∧ msg ≠ EmptyString
   else _sketches_factor c' = f ∧ msg = EmptyString) ∧
  (let '(c', msg) := batch_factor show_double f c in
   _sketches_factor c' = _sketches_factor c ∧
   if SFleb f dzero then _batch_factor c' = done_ ∧ msg ≠ EmptyString
   else _batch_factor c' = f ∧ msg = EmptyString) ∧
  _num_worker_threads (fst (worker_threads show_N w d)) = N.max 1 w.
Proof.
  intros c. split; [|split; [|split]].
  - unfold c. clear c. induction calls as [|k calls IH]; [done|]. cbn [foldr].
    destruct (foldr _ _ calls) as [c0 out]. simpl in IH.
    destruct (cc_setters_ok show_double c0 (match k with
      | CallSketchesFactor f | CallBatchFactor f => f | _ => dzero end) IH) as [H1 H2].
    destruct k; simpl; [done|..];
      [destruct (sketches_factor show_double f0 c0)|destruct (batch_factor show_double f0 c0)]; done.
  - unfold sketches_factor. cbn [_sketches_factor]. by destruct (SFleb f dzero).
  - unfold batch_factor. cbn [_batch_factor]. by destruct (SFleb f dzero).
  - unfold worker_threads. cbn [_num_worker_threads]. bool_cases; simpl; lia.
Qed.
