(* ===== verification/Graph.v ===== *)
(** The graph a stream of edge updates describes, and what its sketches hold.

    A graph is the set of its edges, each packed by [concat_pairing_fn]. The
    sketch of a vertex represents the set of its [incident] edges; merging the
    sketches of the vertices of a component represents the component's [cut]
    ([incident_sum_cut]), which is what a round of Boruvka samples. *)
From S2P Require Import Prelude Util XorSet Dsu.

Open Scope N_scope.

(** * Edges by id *)

Definition id_src (id : N) : N := src (inv_concat_pairing_fn id).
Definition id_dst (id : N) : N := dst (inv_concat_pairing_fn id).

(** [id] packs an edge between two different vertices below [n]. *)
Definition edge_id (n id : N) : Prop := id < 2 ^ 64 ∧ id_src id < id_dst id ∧ id_dst id < n.

#[export] Instance edge_id_dec n id : Decision (edge_id n id).
Proof. apply _. Defined.

Definition graph (n : N) (G : gset N) : Prop := ∀ id, id ∈ G → edge_id n id.

Lemma concat_ends u v : is_node_id u → is_node_id v →
  id_src (concat_pairing_fn u v) = N.min u v ∧ id_dst (concat_pairing_fn u v) = N.max u v.
Proof. intros Hu Hv. unfold id_src, id_dst. by rewrite inv_concat_concat. Qed.

Lemma concat_edge_id n u v : n ≤ 2 ^ 32 → u < n → v < n → u ≠ v → edge_id n (concat_pairing_fn u v).
Proof.
  intros Hn Hu Hv Hne. assert (is_node_id u ∧ is_node_id v) as [Iu Iv].
  { unfold is_node_id, num_bits. lia. }
  destruct (concat_ends u v Iu Iv) as [E1 E2]. unfold edge_id. rewrite E1, E2.
  split; [by apply concat_pairing_fn_bound|]. lia.
Qed.

Lemma edge_id_concat n id : n ≤ 2 ^ 32 → edge_id n id →
  concat_pairing_fn (id_src id) (id_dst id) = id.
Proof. intros Hn (Hid & Hlt & Hd). apply concat_inv_concat; [done|]. unfold id_src, id_dst in Hlt. lia. Qed.

(** * Incident edges and cuts *)

Definition touches (v id : N) : bool := (id_src id =? v) || (id_dst id =? v).

Definition incident (G : gset N) (v : N) : gset N := filter (λ id, touches v id = true) G.

Definition crosses (S : gset N) (id : N) : bool :=
  xorb (bool_decide (id_src id ∈ S)) (bool_decide (id_dst id ∈ S)).

(** Edges with exactly one endpoint in [S]. *)
Definition cut (G S : gset N) : gset N := filter (λ id, crosses S id = true) G.

(** What merging the sketches of the vertices [vs] represents. *)
Definition incident_sum (G : gset N) (vs : list N) : gset N :=
  foldr (λ v X, incident G v △ X) ∅ vs.

Lemma incident_subseteq G v : incident G v ⊆ G.
Proof. intros id [_ H]%elem_of_filter. done. Qed.

Lemma incident_toggle G v id :
  incident (G △ {[ id ]}) v = if touches v id then incident G v △ {[ id ]} else incident G v.
Proof.
  unfold incident. rewrite filter_symdiff, filter_one. case_decide as E.
  - by rewrite E.
  - destruct (touches v id); [done|]. by rewrite (right_id ∅ symdiff).
Qed.

Lemma incident_sum_app G vs ws :
  incident_sum G (vs ++ ws) = incident_sum G vs △ incident_sum G ws.
Proof.
  induction vs as [|v vs IH]; simpl; [by rewrite (left_id ∅ symdiff)|].
  by rewrite IH, (assoc symdiff).
Qed.

#[export] Instance incident_sum_perm G : Proper ((≡ₚ) ==> (=)) (incident_sum G).
Proof.
  intros vs ws. induction 1 as [|v vs ws _ IH|v w vs|vs ws zs _ IH1 _ IH2]; simpl; try congruence.
  rewrite !(assoc symdiff). f_equal. apply symdiff_comm.
Qed.

Lemma incident_sum_subseteq G vs : incident_sum G vs ⊆ G.
Proof.
  induction vs as [|v vs IH]; simpl; [set_solver|]. pose proof (incident_subseteq G v). set_solver.
Qed.

Lemma member_cons a v vs :
  bool_decide (a ∈ (list_to_set (v :: vs) : gset N)) =
  (a =? v) || bool_decide (a ∈ (list_to_set vs : gset N)).
Proof.
  destruct (N.eqb_spec a v) as [->|Hne]; simpl; [apply bool_decide_eq_true_2; set_solver|].
  apply bool_decide_ext. set_solver.
Qed.

(** Edges inside the set cancel out: what remains is the cut. *)
Lemma incident_sum_cut n G vs : graph n G → NoDup vs →
  incident_sum G vs = cut G (list_to_set vs).
Proof.
  intros HG. induction vs as [|v vs IH]; intros Hnd.
  - apply set_eq. intros id. unfold cut. rewrite elem_of_filter. unfold crosses.
    rewrite !bool_decide_eq_false_2 by set_solver. simpl. set_solver.
  - apply NoDup_cons in Hnd as [Hv Hnd].
    change (incident_sum G (v :: vs)) with (incident G v △ incident_sum G vs). rewrite IH by done. apply set_eq. intros id.
    unfold incident, cut, touches, crosses.
    rewrite elem_of_symdiff, !elem_of_filter, !member_cons.
    destruct (decide (id ∈ G)) as [Hin|]; [|tauto]. destruct (HG id Hin) as (_ & Hlt & _).
    assert (∀ a, (a =? v) = true → bool_decide (a ∈ (list_to_set vs : gset N)) = false) as Hout.
    { intros a ->%N.eqb_eq. apply bool_decide_eq_false. by rewrite elem_of_list_to_set. }
    assert ((id_src id =? v) && (id_dst id =? v) = false) as Hne by (bool_cases; lia || done).
    destruct (id_src id =? v) eqn:Es, (id_dst id =? v) eqn:Ed; [done|..];
      rewrite ?(Hout _ Es), ?(Hout _ Ed);
      destruct (bool_decide (id_src id ∈ (list_to_set vs : gset N))),
        (bool_decide (id_dst id ∈ (list_to_set vs : gset N)));
      simpl; clear -Hin; intuition discriminate.
Qed.

(** * Connectivity *)

Definition graph_pairs (G : gset N) : list (N * N) := (λ id, (id_src id, id_dst id)) <$> elements G.

Definition graph_connected (G : gset N) : relation N := pair_connected (graph_pairs G).

Lemma elem_of_graph_pairs G u v :
  (u, v) ∈ graph_pairs G ↔ ∃ id, id ∈ G ∧ id_src id = u ∧ id_dst id = v.
Proof.
  unfold graph_pairs. rewrite list_elem_of_fmap. setoid_rewrite elem_of_elements. naive_solver.
Qed.

Lemma graph_connected_edge G id : id ∈ G → graph_connected G (id_src id) (id_dst id).
Proof. intros Hid. apply pair_connected_in, elem_of_graph_pairs. eauto. Qed.

Lemma iff_member_equiv (S : gset N) : Equivalence (λ u v : N, u ∈ S ↔ v ∈ S).
Proof. split; red; tauto. Qed.

(** A set no edge leaves is closed under connectivity. *)
Lemma cut_empty_closed G S u v :
  cut G S = ∅ → graph_connected G u v → (u ∈ S ↔ v ∈ S).
Proof.
  intros Hcut. apply (pair_connected_ind (λ u v, u ∈ S ↔ v ∈ S)
    (Equivalence0 := iff_member_equiv S)).
  intros x y (id & Hid & <- & <-)%elem_of_graph_pairs.
  assert (crosses S id ≠ true) as Hc.
  { intros Hc. assert (id ∈ cut G S) as Hin; [by apply elem_of_filter|]. set_solver. }
  unfold crosses in Hc. repeat case_bool_decide; naive_solver.
Qed.

(** Toggling an edge between connected vertices that is not needed for the
    connectivity of [F] keeps the graph's connectivity that of [F]. *)
Lemma graph_connected_toggle_in G id x y :
  id ∉ G → graph_connected (G △ {[ id ]}) x y ↔
  joined (graph_connected G) (id_src id) (id_dst id) x y.
Proof.
  intros Hid. unfold graph_connected. rewrite <-pair_connected_cons.
  split; apply pair_connected_mono; intros [a b]; rewrite elem_of_cons, !elem_of_graph_pairs.
  - intros (id' & Hin & <- & <-). apply elem_of_symdiff in Hin as [[? ?]|[? ->%elem_of_singleton]];
      [right; eauto|by left].
  - intros [[= -> ->]|(id' & Hin & <- & <-)]; [exists id|exists id']; split_and!; try done;
      apply elem_of_symdiff; set_solver.
Qed.
