(* ===== verification/Forest.v ===== *)
(** The spanning forest kept beside the disjoint set union.

    [spanning_forest[src]] is the set of the forest neighbours of [src] above
    [src]. [forest_inv] is the invariant of the pair: the structure's classes
    are the components of the recorded edges, the edges close no cycle and
    belong to the graph. Both the eager insertion and the Boruvka rounds go
    through [forest_merge_ok]. *)
From S2P Require Import Prelude Util XorSet Dsu Graph.

Open Scope N_scope.

(** The edges of the array, by increasing source. *)
Fixpoint forest_pairs_from (k : N) (sf : list (gset N)) : list (N * N) :=
  match sf with
  | [] => []
  | X :: sf => ((λ d, (k, d)) <$> elements X) ++ forest_pairs_from (N.succ k) sf
  end.

Definition forest_pairs : list (gset N) → list (N * N) := forest_pairs_from 0.

Lemma elem_of_forest_pairs_from k sf u v :
  (u, v) ∈ forest_pairs_from k sf ↔ k ≤ u ∧ ∃ X, sf !! (u - k) = Some X ∧ v ∈ X.
Proof.
  revert k. induction sf as [|X sf IH]; intros k; simpl.
  - split; [by intros ?%elem_of_nil|]. intros (_ & X & H & _). by rewrite lookupN_eq, lookup_nil in H.
  - rewrite elem_of_app, list_elem_of_fmap, IH. setoid_rewrite elem_of_elements.
    setoid_rewrite lookupN_eq. split.
    + intros [(d & [= -> ->] & Hd)|(Hk & Y & HY & Hv)].
      * rewrite N.sub_diag. simpl. split; [lia|]. eauto.
      * split; [lia|]. exists Y. replace (N.to_nat (u - k)) with (S (N.to_nat (u - N.succ k))) by lia.
        done.
    + intros (Hk & Y & HY & Hv). destruct (decide (u = k)) as [->|Hne].
      * rewrite N.sub_diag in HY. injection HY as ->. left. eauto.
      * right. split; [lia|]. exists Y.
        replace (N.to_nat (u - k)) with (S (N.to_nat (u - N.succ k))) in HY by lia. done.
Qed.

Lemma elem_of_forest_pairs sf u v :
  (u, v) ∈ forest_pairs sf ↔ ∃ X, sf !! u = Some X ∧ v ∈ X.
Proof.
  unfold forest_pairs. rewrite elem_of_forest_pairs_from, N.sub_0_r. split; [tauto|].
  intros H. split; [lia|done].
Qed.

Lemma forest_pairs_insert_from k sf (i : nat) X v : sf !! i = Some X → v ∉ X →
  forest_pairs_from k (<[i := X ∪ {[ v ]}]> sf) ≡ₚ (k + N.of_nat i, v) :: forest_pairs_from k sf.
Proof.
  revert k i. induction sf as [|Y sf IH]; intros k [|i] HX Hv; try done; simpl in HX |- *.
  - injection HX as ->. rewrite N.add_0_r, (comm_L (∪) X).
    rewrite elements_disj_union by set_solver. rewrite elements_singleton. done.
  - rewrite (IH (N.succ k) i) by done. rewrite <-Permutation_middle.
    by replace (N.succ k + N.of_nat i) with (k + N.of_nat (S i)) by lia.
Qed.

Lemma forest_pairs_insert sf (u : N) X v : sf !! u = Some X → v ∉ X →
  forest_pairs (<[u := X ∪ {[ v ]}]> sf) ≡ₚ (u, v) :: forest_pairs sf.
Proof.
  intros HX Hv. unfold forest_pairs, insert, list_insertN.
  rewrite (forest_pairs_insert_from 0 sf (N.to_nat u) X v HX Hv). by rewrite N.add_0_l, N2Nat.id.
Qed.

Lemma forest_pairs_empty k (n : nat) : forest_pairs_from k (replicate n ∅) = [].
Proof. revert k. induction n as [|n IH]; intros k; simpl; [done|]. by rewrite IH. Qed.

(** * The invariant *)

Section Forest.
Context `{UnionFindLaws D}.

Record forest_inv (n : N) (d : D) (sf : list (gset N)) (G : gset N) : Prop := {
  fi_size : uf_size d = n;
  fi_length : length sf = N.to_nat n;
  fi_tracks : uf_tracks d (forest_pairs sf);
  fi_acyclic : ∃ log, log ≡ₚ forest_pairs sf ∧ acyclic_pairs log;
  fi_edges : ∀ u v, (u, v) ∈ forest_pairs sf → u < v ∧ v < n ∧ concat_pairing_fn u v ∈ G
}.

Lemma forest_inv_empty n d G : uf_size d = n → uf_tracks d [] →
  forest_inv n d (replicate (N.to_nat n) ∅) G.
Proof using .
  intros Hs Ht. assert (forest_pairs (replicate (N.to_nat n) ∅) = []) as E by apply forest_pairs_empty.
  split; rewrite ?E; [done|by rewrite length_replicate|done|by exists []|].
  intros u v Huv. by apply elem_of_nil in Huv.
Qed.

(** The graph may change as long as it keeps the forest's edges. *)
Lemma forest_inv_graph n d sf G G' :
  (∀ u v, (u, v) ∈ forest_pairs sf → concat_pairing_fn u v ∈ G') →
  forest_inv n d sf G → forest_inv n d sf G'.
Proof using . intros HG' []. split; try done. intros u v Huv. destruct (fi_edges0 u v Huv). naive_solver. Qed.

Lemma forest_connected_graph n d sf G u v :
  n ≤ 2 ^ 32 → forest_inv n d sf G →
  pair_connected (forest_pairs sf) u v → graph_connected G u v.
Proof using .
  intros Hn HF. apply pair_connected_ind; [apply _|]. intros x y Hxy.
  destruct (fi_edges _ _ _ _ HF x y Hxy) as (Hlt & Hy & Hin).
  destruct (concat_ends x y) as [E1 E2]; [unfold is_node_id, num_bits; lia..|].
  pose proof (graph_connected_edge _ _ Hin) as Hc. rewrite E1, E2 in Hc.
  by rewrite N.min_l, N.max_r in Hc by lia.
Qed.

(** Merging the ends of an edge and recording it if it merged. *)
Lemma forest_merge_ok n d sf G u v :
  forest_inv n d sf G → u < v → v < n →
  ∃ d' r X, uf_merge u v d = (d', Ok r) ∧ sf !! u = Some X ∧
    (merged r = false ↔ pair_connected (forest_pairs sf) u v) ∧
    forest_pairs (<[u := X ∪ {[ v ]}]> sf) ⊆ (u, v) :: forest_pairs sf ∧
    if merged r then
      (∀ G', G ⊆ G' → concat_pairing_fn u v ∈ G' →
         forest_inv n d' (<[u := X ∪ {[ v ]}]> sf) G') ∧
      ∀ x y, pair_connected (forest_pairs (<[u := X ∪ {[ v ]}]> sf)) x y ↔
             joined (pair_connected (forest_pairs sf)) u v x y
    else forest_inv n d' sf G.
Proof using .
  intros [Hs Hl Ht (log & Hlog & Hac) He] Huv Hv.
  destruct (uf_merge_tracks d (forest_pairs sf) u v Ht) as (d' & r & E & Ht' & Hs' & Hr); [lia..|].
  destruct (lookupN_lt_is_Some sf u) as [X HX]; [lia|].
  exists d', r, X. split; [done|]. split; [done|]. split; [done|]. split.
  { intros [a b] (Y & HY & Hb)%elem_of_forest_pairs.
    rewrite elem_of_cons, elem_of_forest_pairs. destruct (decide (a = u)) as [->|Hne].
    - rewrite lookupN_insert_eq in HY by lia. injection HY as <-.
      apply elem_of_union in Hb as [Hb|Hb]; [right; eauto|].
      apply elem_of_singleton in Hb as ->. by left.
    - rewrite lookupN_insert_ne in HY by done. right. eauto. }
  destruct (merged r) eqn:Em.
  - assert (¬ pair_connected (forest_pairs sf) u v) as Hnc by (intros H'; apply Hr in H'; done).
    assert (v ∉ X) as HvX.
    { intros HvX. apply Hnc, pair_connected_in, elem_of_forest_pairs. eauto. }
    pose proof (forest_pairs_insert sf u X v HX HvX) as Hperm.
    split.
    + intros G' HG Hin. split.
      * congruence.
      * by rewrite length_insertN.
      * eapply uf_tracks_ext; [|exact Ht']. intros x y.
        split; apply pair_connected_mono; intros p; by rewrite Hperm.
      * exists ((u, v) :: log). split; [by rewrite Hperm, Hlog|]. split; [|done].
        intros Hc. apply Hnc. revert Hc. apply pair_connected_mono. intros p. by rewrite Hlog.
      * intros a b. rewrite Hperm, elem_of_cons. intros [[= -> ->]|Hab]; [done|].
        destruct (He a b Hab) as (? & ? & ?). auto.
    + intros x y. rewrite <-pair_connected_cons.
      split; apply pair_connected_mono; intros p; by rewrite Hperm.
  - split; [congruence|done| |by exists log|done].
    assert (pair_connected (forest_pairs sf) u v) as Hc by (by apply Hr).
    eapply uf_tracks_ext; [|exact Ht']. intros x y. rewrite pair_connected_cons.
    split; [|by left]. intros [Hxy|[[H1 H2]|[H1 H2]]]; [done|..];
      (etrans; [exact H1|]; etrans; [|exact H2]); [done|by symmetry].
Qed.
End Forest.
