(* ===== verification/CCAlg.v ===== *)
(** The connected-components algorithm: its state, construction and updates
    (include/cc_sketch_alg.h, src/cc_sketch_alg.cpp).

    The disjoint set union is any implementation of the [UnionFind] interface;
    the program instantiates it with [DisjointSetUnion_MT]. [cc_inv] relates the
    object to the graph of the updates received so far. Queries are in files
    Round, MergeInstr and Boruvka. *)
From S2P Require Import Prelude Float64 Platform Util XorSet Bucket Sketch Dsu DsuMT Graph Forest Config.

Open Scope N_scope.

(** [GraphUpdate] (include/types.h); the update types belong to the stream library. *)
Record GraphUpdate (U : Type) : Type := mkUpdate { upd_edge : Edge; upd_type : U }.
Arguments mkUpdate {U}.
Arguments upd_edge {U}.
Arguments upd_type {U}.

(** [CCSketchAlg]. [delta_sketches] is [None] for the null pointer; the mutexes
    and the time hooks have no model state. *)
Record CCSketchAlg (D : Type) : Type := mkCC {
  num_vertices : N;
  cc_seed : N;
  update_locked : bool;
  representatives : gset N;
  sketches : list Sketch;
  dsu : D;
  dsu_valid : bool;
  shared_dsu_valid : bool;
  spanning_forest : list (gset N);
  delta_sketches : option (list Sketch);
  num_delta_sketches : N;
  config : CCAlgConfiguration;
  last_query_rounds : N
}.
Arguments mkCC {D}.
Arguments num_vertices {D}.
Arguments cc_seed {D}.
Arguments update_locked {D}.
Arguments representatives {D}.
Arguments sketches {D}.
Arguments dsu {D}.
Arguments dsu_valid {D}.
Arguments shared_dsu_valid {D}.
Arguments spanning_forest {D}.
Arguments delta_sketches {D}.
Arguments num_delta_sketches {D}.
Arguments config {D}.
Arguments last_query_rounds {D}.

(** Assignments to the members. *)
Section Setters.
Context {D : Type}.
Implicit Type cc : CCSketchAlg D.

Definition set_update_locked (b : bool) cc : CCSketchAlg D :=
  mkCC (num_vertices cc) (cc_seed cc) b (representatives cc) (sketches cc) (dsu cc)
    (dsu_valid cc) (shared_dsu_valid cc) (spanning_forest cc) (delta_sketches cc)
    (num_delta_sketches cc) (config cc) (last_query_rounds cc).
Definition set_sketches (ss : list Sketch) cc : CCSketchAlg D :=
  mkCC (num_vertices cc) (cc_seed cc) (update_locked cc) (representatives cc) ss (dsu cc)
    (dsu_valid cc) (shared_dsu_valid cc) (spanning_forest cc) (delta_sketches cc)
    (num_delta_sketches cc) (config cc) (last_query_rounds cc).
Definition set_dsu (d : D) cc : CCSketchAlg D :=
  mkCC (num_vertices cc) (cc_seed cc) (update_locked cc) (representatives cc) (sketches cc) d
    (dsu_valid cc) (shared_dsu_valid cc) (spanning_forest cc) (delta_sketches cc)
    (num_delta_sketches cc) (config cc) (last_query_rounds cc).
(** [dsu_valid = b; shared_dsu_valid = b;] *)
Definition set_valid (b : bool) cc : CCSketchAlg D :=
  mkCC (num_vertices cc) (cc_seed cc) (update_locked cc) (representatives cc) (sketches cc)
    (dsu cc) b b (spanning_forest cc) (delta_sketches cc)
    (num_delta_sketches cc) (config cc) (last_query_rounds cc).
Definition set_spanning_forest (sf : list (gset N)) cc : CCSketchAlg D :=
  mkCC (num_vertices cc) (cc_seed cc) (update_locked cc) (representatives cc) (sketches cc)
    (dsu cc) (dsu_valid cc) (shared_dsu_valid cc) sf (delta_sketches cc)
    (num_delta_sketches cc) (config cc) (last_query_rounds cc).
Definition set_delta_sketches (k : N) (ds : list Sketch) cc : CCSketchAlg D :=
  mkCC (num_vertices cc) (cc_seed cc) (update_locked cc) (representatives cc) (sketches cc)
    (dsu cc) (dsu_valid cc) (shared_dsu_valid cc) (spanning_forest cc) (Some ds)
    k (config cc) (last_query_rounds cc).
Definition set_last_query_rounds (r : N) cc : CCSketchAlg D :=
  mkCC (num_vertices cc) (cc_seed cc) (update_locked cc) (representatives cc) (sketches cc)
    (dsu cc) (dsu_valid cc) (shared_dsu_valid cc) (spanning_forest cc) (delta_sketches cc)
    (num_delta_sketches cc) (config cc) r.
End Setters.

Section CCSketchAlg.
Context `{P : Platform} {D : Type} `{UF : UnionFind D} {U : Type}.

(** A call on the disjoint set union of the object. *)
Definition on_dsu {A} (m : M D A) : M (CCSketchAlg D) A := zoom dsu set_dsu m.

(** * Construction *)

(** The sketch every part of the algorithm builds:
    [Sketch(calc_vector_length(n), seed, calc_cc_samples(n, factor))]. *)
Definition new_sketch (n seed : N) (factor : double) : outcome Sketch :=
  vec_len ← calc_vector_length n;
  samples ← calc_cc_samples n factor;
  Sketch_new vec_len seed samples default_cols_per_sample.

Definition CCSketchAlg_new (n seed : N) (config : CCAlgConfiguration) (prio_gen : N → N) :
    outcome (CCSketchAlg D) :=
  sketch_vec_len ← calc_vector_length n;
  sketch_num_samples ← calc_cc_samples n (_sketches_factor config);
  '(reps, ss) ← ofold (λ i '(reps, ss),
      s ← Sketch_new sketch_vec_len seed sketch_num_samples default_cols_per_sample;
      mret (reps ∪ {[ i ]}, ss ++ [s]))
    (seqN 0 n) (∅ : gset N, []);
  mret (mkCC n seed false reps ss (uf_new n prio_gen) true true (replicate (N.to_nat n) ∅)
    None 0 config 0).

Definition allocate_worker_memory (num_workers : N) : M (CCSketchAlg D) unit :=
  n ← gets num_vertices; seed ← gets cc_seed; conf ← gets config;
  ds ← lift (ofold (λ _ ds, s ← new_sketch n seed (_sketches_factor conf); mret (ds ++ [s]))
               (seqN 0 num_workers) []);
  modify (set_delta_sketches num_workers ds).

(** * Updates *)

(** Reading and writing one sketch of the array. *)
Definition on_sketch (v : N) (f : Sketch → outcome Sketch) : M (CCSketchAlg D) unit :=
  ss ← gets sketches;
  s ← lift (of_option (ss !! v));
  s ← lift (f s);
  modify (set_sketches (<[v := s]> ss)).

(** [spanning_forest[src].insert(dst)] *)
Definition insert_forest (src dst : N) : M (CCSketchAlg D) unit :=
  sf ← gets spanning_forest;
  X ← lift (of_option (sf !! src));
  modify (set_spanning_forest (<[src := X ∪ {[ dst ]}]> sf)).

Definition pre_insert (upd : GraphUpdate U) : M (CCSketchAlg D) unit :=
  valid ← gets dsu_valid;
  if NO_EAGER_DSU then
    if valid : bool then modify (set_valid false) else mret tt
  else if valid : bool then
    let edge := upd_edge upd in
    let src := N.min (Util.src edge) (Util.dst edge) in
    let dst := N.max (Util.src edge) (Util.dst edge) in
    sf ← gets spanning_forest;
    _ ← lift (of_option (sf !! src));          (* the mutex of [src] *)
    r ← on_dsu (uf_merge src dst);
    if merged r then insert_forest src dst
    else
      sf ← gets spanning_forest;
      X ← lift (of_option (sf !! src));
      if decide (dst ∈ (X : gset N)) then modify (set_valid false) else mret tt
  else mret tt.

(** [static_cast<vec_t>(concat_pairing_fn(u, v))] *)
Definition edge_index (u v : N) : N := wrap vec_bits (concat_pairing_fn u v).

Definition apply_update_batch (thr_id src_vertex : N) (dst_vertices : list N) :
    M (CCSketchAlg D) unit :=
  locked ← gets update_locked;
  if locked : bool then throw UpdateLockedException
  else
    ds ← gets delta_sketches;
    ds ← lift (of_option ds);
    delta ← lift (of_option (ds !! thr_id));
    delta ← lift (zero_contents delta);
    delta ← lift (ofold (λ dst delta, sketch_update delta (edge_index src_vertex dst))
                    dst_vertices delta);
    k ← gets num_delta_sketches;
    _ ← modify (set_delta_sketches k (<[thr_id := delta]> ds));
    on_sketch src_vertex (λ s, sketch_merge s delta).

Definition apply_raw_buckets_update (src_vertex : N) (raw_buckets : list Bucket) :
    M (CCSketchAlg D) unit :=
  on_sketch src_vertex (λ s, merge_raw_bucket_buffer s raw_buckets).

Definition update (upd : GraphUpdate U) : M (CCSketchAlg D) unit :=
  _ ← pre_insert upd;
  let edge := upd_edge upd in
  _ ← on_sketch (src edge) (λ s, sketch_update s (edge_index (src edge) (dst edge)));
  on_sketch (dst edge) (λ s, sketch_update s (edge_index (src edge) (dst edge))).

(** * Getters *)

(** [num *= config._batch_factor] goes through [double]. *)
Definition get_desired_updates_per_batch (cc : CCSketchAlg D) : outcome N :=
  s ← of_option (sketches cc !! 0);
  let num := bucket_array_bytes s / 4 in
  to_unsigned 64 (trunc_Z (dmul (double_of_N num) (_batch_factor (config cc)))).

Definition CONNECTIVITY : Z := 0.
Definition KSPANNINGFORESTS : Z := 1.

Definition has_cached_query (query_code : Z) (cc : CCSketchAlg D) : bool :=
  if (query_code =? CONNECTIVITY)%Z then shared_dsu_valid cc else false.

Definition max_rounds (cc : CCSketchAlg D) : outcome N :=
  s ← of_option (sketches cc !! 0); mret (num_samples s).
End CCSketchAlg.

(** * Invariants *)

Section Invariants.
Context `{P : Platform} `{!PlatformLaws P} {D : Type} `{UnionFindLaws D} {U : Type}.
Implicit Type cc : CCSketchAlg D.

(** [b] is the empty sketch of the algorithm: every sketch of it has its layout. *)
Record cc_base (cc : CCSketchAlg D) (b : Sketch) : Prop := {
  cb_n : 1 ≤ num_vertices cc < 2 ^ 32;
  cb_new : new_sketch (num_vertices cc) (cc_seed cc) (_sketches_factor (config cc)) = Ok b;
  cb_wf : wf_sketch b;
  cb_empty : represents b ∅;
  cb_idx : sample_idx b = 0;
  cb_samples : 1 ≤ num_samples b ≤ 2 ^ 32;
  cb_cols : cols_per_sample b ≤ 2 ^ 32
}.

(** A sketch of the algorithm that holds [X], with [i] samples taken. *)
Definition holds_on (Q : N → Prop) (b s : Sketch) (i : N) (X : gset N) : Prop :=
  wf_sketch s ∧ same_layout b s ∧ sample_idx s = i ∧ represents_on Q s X.
Definition holds (b s : Sketch) (i : N) (X : gset N) : Prop := holds_on (λ _, True) b s i X.

(** The vertices' sketches hold the sets [f]. *)
Definition cc_vectors cc (b : Sketch) (f : N → gset N) : Prop :=
  length (sketches cc) = N.to_nat (num_vertices cc) ∧
  ∀ v s, sketches cc !! v = Some s → holds b s 0 (f v).

(** Worker memory: every delta sketch has the layout. *)
Definition cc_deltas cc (b : Sketch) : Prop :=
  ∀ ds, delta_sketches cc = Some ds →
    length ds = N.to_nat (num_delta_sketches cc) ∧
    ∀ s, s ∈ ds → wf_sketch s ∧ same_layout b s.

(** The cached answer: when it is valid, the forest spans the graph. *)
Definition cc_cache cc (G : gset N) : Prop :=
  uf_ok (dsu cc) ∧ uf_size (dsu cc) = num_vertices cc ∧
  length (spanning_forest cc) = N.to_nat (num_vertices cc) ∧
  shared_dsu_valid cc = dsu_valid cc ∧
  (dsu_valid cc = true →
     forest_inv (num_vertices cc) (dsu cc) (spanning_forest cc) G ∧
     ∀ x y, pair_connected (forest_pairs (spanning_forest cc)) x y ↔ graph_connected G x y).

Record cc_inv (cc : CCSketchAlg D) (b : Sketch) (G : gset N) : Prop := {
  ci_base : cc_base cc b;
  ci_graph : graph (num_vertices cc) G;
  ci_vectors : cc_vectors cc b (incident G);
  ci_deltas : cc_deltas cc b;
  ci_cache : cc_cache cc G
}.

(** ** Sketches *)

Lemma edge_index_eq u v : is_node_id u → is_node_id v → edge_index u v = concat_pairing_fn u v.
Proof using PlatformLaws0.
  intros Hu Hv. apply wrap_small. unfold vec_bits. rewrite vec_bytes_8.
  by apply concat_pairing_fn_bound.
Qed.

Lemma on_sketch_ok cc b f v g Y :
  cc_vectors cc b f → v < num_vertices cc →
  (∀ s, holds b s 0 (f v) → ∃ s', g s = Ok s' ∧ holds b s' 0 (f v △ Y)) →
  ∃ cc', on_sketch v g cc = (cc', Ok tt) ∧ cc' = set_sketches (sketches cc') cc ∧
    cc_vectors cc' b (λ w, if w =? v then f v △ Y else f w).
Proof using .
  intros [HL Hf] Hv Hg. destruct (lookupN_lt_is_Some (sketches cc) v) as [s Hs]; [lia|].
  destruct (Hg s) as (s' & Eg & Hs'); [by apply Hf|].
  unfold on_sketch. rewrite M_bind_gets, (M_bind_lift _ s) by (by rewrite Hs).
  rewrite (M_bind_lift _ _ _ _ Eg). eexists. split; [done|]. split; [done|].
  split; [simpl; by rewrite length_insertN|]. simpl. intros w t Hw.
  destruct (N.eqb_spec w v) as [->|Hne].
  - rewrite lookupN_insert_eq in Hw by lia. by injection Hw as <-.
  - rewrite lookupN_insert_ne in Hw by done. by apply Hf.
Qed.

Lemma holds_update b s i X x : holds b s i X →
  ∃ s', sketch_update s x = Ok s' ∧ holds b s' i (X △ {[ x ]}).
Proof using PlatformLaws0.
  intros (W & L & I & R). destruct (represents_update s x X W R) as (s' & E & W' & L' & I' & R').
  exists s'. split; [done|]. split_and!; [done|by transitivity s|congruence|done].
Qed.

Lemma holds_merge b s s2 i j X Y : holds b s i X → holds b s2 j Y →
  ∃ s', sketch_merge s s2 = Ok s' ∧ holds b s' i (X △ Y).
Proof using .
  intros (W & L & I & R) (W2 & L2 & I2 & R2).
  destruct (sketch_merge_ok s s2 X Y W W2) as (s' & E & W' & L' & I' & R'); [|done..|].
  { by transitivity b; [symmetry|]. }
  exists s'. split; [done|]. split_and!; [done|by transitivity s|congruence|done].
Qed.

Lemma holds_stream b s i X us : holds b s i X →
  ∃ s', ofold (λ u s, sketch_update s u) us s = Ok s' ∧ holds b s' i (X △ toggles us).
Proof using PlatformLaws0.
  intros (W & L & I & R). destruct (sketch_stream_ok us s X W R) as (s' & E & W' & L' & I' & R').
  exists s'. split; [exact E|]. split_and!; [done|by transitivity s|congruence|done].
Qed.

Lemma holds_zero b s : wf_sketch s → same_layout b s →
  ∃ s', zero_contents s = Ok s' ∧ holds b s' 0 ∅.
Proof using .
  intros W L. destruct (zero_contents_ok s W) as (s' & E & W' & L' & I' & R').
  exists s'. split; [done|]. split_and!; [done|by transitivity s|done|done].
Qed.

Lemma cc_vectors_ext cc b f g : (∀ v, v < num_vertices cc → f v = g v) →
  cc_vectors cc b f → cc_vectors cc b g.
Proof using .
  intros Hfg [HL Hf]. split; [done|]. intros v s Hs. rewrite <-Hfg; [by apply Hf|].
  apply lookupN_lt_Some in Hs. lia.
Qed.

(** ** The eager disjoint set union *)

(** The members [pre_insert] leaves alone. *)
Definition same_sketches cc cc' : Prop :=
  num_vertices cc' = num_vertices cc ∧ cc_seed cc' = cc_seed cc ∧
  update_locked cc' = update_locked cc ∧ sketches cc' = sketches cc ∧
  delta_sketches cc' = delta_sketches cc ∧ num_delta_sketches cc' = num_delta_sketches cc ∧
  config cc' = config cc.

Lemma cc_base_same cc cc' b : same_sketches cc cc' → cc_base cc b → cc_base cc' b.
Proof using . intros (E1 & E2 & E3 & E4 & E5 & E6 & E7) []. by split; rewrite ?E1, ?E2, ?E7. Qed.

(** Only the number of vertices, the seed and the sketch factor matter. *)
Lemma cc_base_ext cc cc' b : num_vertices cc' = num_vertices cc → cc_seed cc' = cc_seed cc →
  _sketches_factor (config cc') = _sketches_factor (config cc) → cc_base cc b → cc_base cc' b.
Proof using . intros E1 E2 E3 []. by split; rewrite ?E1, ?E2, ?E3. Qed.

Lemma cc_cache_invalid cc G G' d :
  cc_cache cc G → uf_ok d → uf_size d = num_vertices cc →
  cc_cache (set_valid false (set_dsu d cc)) G'.
Proof using . intros (_ & _ & Hl & _ & _) Hd Hs. unfold cc_cache. simpl. done. Qed.

(** The graph after an update, seen by a forest that spans the graph before. *)
Lemma toggle_not_merged n d sf G u v :
  n < 2 ^ 32 → u < v → v < n → forest_inv n d sf G →
  (∀ x y, pair_connected (forest_pairs sf) x y ↔ graph_connected G x y) →
  pair_connected (forest_pairs sf) u v → (u, v) ∉ forest_pairs sf →
  let G' := G △ {[ concat_pairing_fn u v ]} in
  forest_inv n d sf G' ∧
  ∀ x y, pair_connected (forest_pairs sf) x y ↔ graph_connected G' x y.
Proof using .
  intros Hn Huv Hv HF HG Hc Hnin G'.
  assert (∀ a b, (a, b) ∈ forest_pairs sf → concat_pairing_fn a b ∈ G') as Hin.
  { intros a b Hab. destruct (fi_edges _ _ _ _ HF a b Hab) as (Hlt & Hb & Hg).
    apply elem_of_symdiff. left. split; [done|]. rewrite elem_of_singleton. intros E.
    destruct (concat_ends a b) as [E1 E2]; [unfold is_node_id, num_bits; lia..|].
    destruct (concat_ends u v) as [E3 E4]; [unfold is_node_id, num_bits; lia..|].
    rewrite E, E3 in E1. rewrite E, E4 in E2. apply Hnin.
    rewrite !N.min_l in E1 by lia. rewrite !N.max_r in E2 by lia. by subst. }
  pose proof (forest_inv_graph n d sf G G' Hin HF) as HF'. split; [done|].
  intros x y. split; [apply (forest_connected_graph n d); [lia|done]|].
  apply pair_connected_ind; [apply _|]. intros a b (id & Hid & <- & <-)%elem_of_graph_pairs.
  apply elem_of_symdiff in Hid as [[Hid _]|[_ Hid]].
  - by apply HG, graph_connected_edge.
  - apply elem_of_singleton in Hid as ->.
    destruct (concat_ends u v) as [-> ->]; [unfold is_node_id, num_bits; lia..|].
    by rewrite N.min_l, N.max_r by lia.
Qed.

Lemma toggle_merged n d d' sf sf' G u v :
  n < 2 ^ 32 → u < v → v < n → forest_inv n d sf G →
  (∀ x y, pair_connected (forest_pairs sf) x y ↔ graph_connected G x y) →
  ¬ pair_connected (forest_pairs sf) u v →
  (∀ G', G ⊆ G' → concat_pairing_fn u v ∈ G' → forest_inv n d' sf' G') →
  (∀ x y, pair_connected (forest_pairs sf') x y ↔ joined (pair_connected (forest_pairs sf)) u v x y) →
  let G' := G △ {[ concat_pairing_fn u v ]} in
  forest_inv n d' sf' G' ∧
  ∀ x y, pair_connected (forest_pairs sf') x y ↔ graph_connected G' x y.
Proof using PlatformLaws0.
  intros Hn Huv Hv HF HG Hnc HF' Hj G'.
  destruct (concat_ends u v) as [Es Ed]; [unfold is_node_id, num_bits; lia..|].
  rewrite N.min_l in Es by lia. rewrite N.max_r in Ed by lia.
  assert (concat_pairing_fn u v ∉ G) as Hid.
  { intros Hin. apply Hnc, HG. pose proof (graph_connected_edge _ _ Hin) as Hc.
    by rewrite Es, Ed in Hc. }
  split.
  - apply HF'; [|apply elem_of_symdiff; set_solver]. intros x Hx. apply elem_of_symdiff.
    left. split; [done|]. rewrite elem_of_singleton. by intros ->.
  - intros x y. unfold G'. rewrite graph_connected_toggle_in, Hj, Es, Ed by done.
    unfold joined. by rewrite !HG.
Qed.

Lemma pre_insert_ok cc G e (t : U) :
  num_vertices cc < 2 ^ 32 → src e < num_vertices cc → dst e < num_vertices cc → src e ≠ dst e →
  cc_cache cc G →
  ∃ cc', pre_insert (mkUpdate e t) cc = (cc', Ok tt) ∧ same_sketches cc cc' ∧
    cc_cache cc' (G △ {[ concat_pairing_fn (src e) (dst e) ]}).
Proof using PlatformLaws0.
  intros Hn Hs Hd Hne Hc. pose proof Hc as (Huf & Hsz & Hlen & Hsh & Hval).
  unfold pre_insert. rewrite M_bind_gets. cbn [upd_edge].
  destruct NO_EAGER_DSU, (dsu_valid cc) eqn:Ev.
  - eexists. split; [done|]. split; [done|]. unfold cc_cache. simpl. done.
  - exists cc. split; [done|]. split; [done|]. unfold cc_cache. rewrite Ev. done.
  - destruct (Hval eq_refl) as [HF HG]. set (u := N.min (src e) (dst e)). set (v := N.max (src e) (dst e)).
    assert (concat_pairing_fn (src e) (dst e) = concat_pairing_fn u v) as ->.
    { unfold u, v. rewrite !concat_pairing_fn_eq by (unfold is_node_id, num_bits; lia).
      f_equal; [f_equal|]; lia. }
    assert (u < v) as Huv by lia. assert (v < num_vertices cc) as Hv by lia. clearbody u v.
    destruct (forest_merge_ok _ _ _ G u v HF Huv Hv) as (d' & r & X & Em & HX & Hr & _ & Hm).
    rewrite M_bind_gets, (M_bind_lift _ X) by (by rewrite HX).
    assert (on_dsu (uf_merge u v) cc = (set_dsu d' cc, Ok r)) as Ed.
    { unfold on_dsu, zoom. by rewrite Em. }
    rewrite (M_bind_Ok _ _ _ _ _ Ed). destruct (merged r) eqn:Er.
    + destruct Hm as [HF' Hj]. unfold insert_forest. rewrite M_bind_gets.
      rewrite (M_bind_lift _ X) by (simpl; by rewrite HX). eexists. split; [done|]. split; [done|].
      assert (¬ pair_connected (forest_pairs (spanning_forest cc)) u v) as Hnc.
      { intros Hc'. apply Hr in Hc'. done. }
      destruct (toggle_merged _ _ _ _ _ G u v Hn Huv Hv HF HG Hnc HF' Hj) as [HF2 HG2].
      unfold cc_cache. simpl. pose proof (fi_size _ _ _ _ HF2) as Hs2.
      pose proof (fi_length _ _ _ _ HF2) as Hl2.
      split_and!; [by apply (fi_tracks _ _ _ _ HF2)|done|done|congruence|done].
    + assert (pair_connected (forest_pairs (spanning_forest cc)) u v) as Hcon by (by apply Hr).
      rewrite M_bind_gets, (M_bind_lift _ X) by (simpl; by rewrite HX).
      case_decide as HvX.
      * eexists. split; [done|]. split; [done|].
        pose proof (fi_size _ _ _ _ Hm). unfold cc_cache. simpl.
        split_and!; try done. by apply (fi_tracks _ _ _ _ Hm).
      * eexists. split; [done|]. split; [done|].
        destruct (toggle_not_merged _ _ _ G u v Hn Huv Hv Hm HG Hcon) as [HF2 HG2].
        { rewrite elem_of_forest_pairs. intros (Y & HY & HvY). congruence. }
        unfold cc_cache. simpl. pose proof (fi_size _ _ _ _ HF2) as Hs2.
        split_and!; [by apply (fi_tracks _ _ _ _ HF2)|done|done|congruence|done].
  - exists cc. split; [done|]. split; [done|]. unfold cc_cache. rewrite Ev. done.
Qed.

(** ** Updates *)

Lemma cc_vectors_same cc cc' b f : num_vertices cc' = num_vertices cc →
  sketches cc' = sketches cc → cc_vectors cc b f → cc_vectors cc' b f.
Proof using . unfold cc_vectors. by intros -> ->. Qed.

Lemma update_ok cc b G e (t : U) :
  src e < num_vertices cc → dst e < num_vertices cc → src e ≠ dst e → cc_inv cc b G →
  ∃ cc', update (mkUpdate e t) cc = (cc', Ok tt) ∧
    cc_inv cc' b (G △ {[ concat_pairing_fn (src e) (dst e) ]}) ∧ num_vertices cc' = num_vertices cc.
Proof using PlatformLaws0.
  intros Hs Hd Hne [Hb HG Hv Hdl Hc]. pose proof (cb_n cc b Hb) as Hn.
  destruct (pre_insert_ok cc G e t) as (cc1 & E1 & Hsame & Hc1); [lia|done..|].
  pose proof Hsame as (En & Eseed & El & Esk & Edl & Ek & Ecf).
  unfold update. rewrite (M_bind_Ok _ _ _ _ _ E1). cbn [upd_edge].
  assert (is_node_id (src e) ∧ is_node_id (dst e)) as [Is Id].
  { unfold is_node_id, num_bits. lia. }
  rewrite edge_index_eq by done. set (id := concat_pairing_fn (src e) (dst e)) in *.
  destruct (on_sketch_ok cc1 b (incident G) (src e) (λ s, sketch_update s id) {[ id ]})
    as (cc2 & E2 & Hf2 & Hv2); [by apply (cc_vectors_same cc)|by rewrite En| |].
  { intros s Hh. by apply holds_update. }
  rewrite (M_bind_Ok _ _ _ _ _ E2).
  destruct (on_sketch_ok cc2 b _ (dst e) (λ s, sketch_update s id) {[ id ]} Hv2)
    as (cc3 & E3 & Hf3 & Hv3); [rewrite Hf2; simpl; by rewrite En| |].
  { intros s Hh. by apply holds_update. }
  exists cc3. split; [exact E3|].
  assert (same_sketches cc (set_sketches (sketches cc) cc3)) as Hsame3.
  { rewrite Hf3, Hf2. by split_and!. }
  assert (num_vertices cc3 = num_vertices cc) as En3 by apply Hsame3.
  split; [|done]. destruct (concat_ends (src e) (dst e) Is Id) as [Es Ed]. fold id in Es, Ed.
  split.
  - apply (cc_base_same _ _ b Hsame3) in Hb. by destruct Hb.
  - rewrite En3. intros x Hx. apply elem_of_symdiff in Hx as [[Hx _]|[_ Hx]]; [by apply HG|].
    apply elem_of_singleton in Hx as ->. apply concat_edge_id; lia || done.
  - eapply cc_vectors_ext; [|exact Hv3]. simpl. intros w Hw. rewrite incident_toggle.
    unfold touches. rewrite Es, Ed. clear -Hne. bool_cases; subst; simpl; (done || lia).
  - destruct Hsame3 as (_ & _ & _ & _ & E5 & E6 & _). simpl in E5, E6.
    unfold cc_deltas in *. by rewrite E5, E6.
  - rewrite Hf3, Hf2. exact Hc1.
Qed.

(** ** Batches *)

(** What a batch leaves alone: everything but the sketches and the contents of
    the worker's delta sketch. *)
Definition same_but_sketches cc cc' : Prop :=
  num_vertices cc' = num_vertices cc ∧ cc_seed cc' = cc_seed cc ∧
  update_locked cc' = update_locked cc ∧ dsu cc' = dsu cc ∧
  dsu_valid cc' = dsu_valid cc ∧ shared_dsu_valid cc' = shared_dsu_valid cc ∧
  spanning_forest cc' = spanning_forest cc ∧
  num_delta_sketches cc' = num_delta_sketches cc ∧ config cc' = config cc ∧
  (is_Some (delta_sketches cc) → is_Some (delta_sketches cc')).

Lemma same_but_sketches_refl cc : same_but_sketches cc cc.
Proof using . by unfold same_but_sketches. Qed.

Lemma same_but_sketches_trans cc1 cc2 cc3 :
  same_but_sketches cc1 cc2 → same_but_sketches cc2 cc3 → same_but_sketches cc1 cc3.
Proof using . unfold same_but_sketches. intros. destruct_and!. split_and!; try congruence. auto. Qed.

Lemma cc_base_same_but cc cc' b : same_but_sketches cc cc' → cc_base cc b → cc_base cc' b.
Proof using .
  intros (E1 & E2 & _ & _ & _ & _ & _ & _ & E3 & _) []. by split; rewrite ?E1, ?E2, ?E3.
Qed.

Lemma ofold_fmap {A B S} (g : A → B) (body : B → S → outcome S) l s :
  ofold (λ x, body (g x)) l s = ofold body (g <$> l) s.
Proof using .
  revert s. induction l as [|x l IH]; intros s; [done|]. simpl.
  unfold mbind, outcome_bind. by destruct (body (g x) s).
Qed.

Lemma apply_update_batch_ok cc b f thr v dsts :
  update_locked cc = false → is_Some (delta_sketches cc) → thr < num_delta_sketches cc →
  v < num_vertices cc → cc_vectors cc b f → cc_deltas cc b →
  ∃ cc', apply_update_batch thr v dsts cc = (cc', Ok tt) ∧ same_but_sketches cc cc' ∧
    cc_deltas cc' b ∧
    cc_vectors cc' b (λ w, if w =? v then f v △ toggles (edge_index v <$> dsts) else f w).
Proof using PlatformLaws0.
  intros Hl [ds Hds] Hthr Hv Hf Hdl. destruct (Hdl ds Hds) as [HL Hall].
  destruct (lookupN_lt_is_Some ds thr) as [d Hd]; [lia|].
  destruct (Hall d) as [W L]; [by eapply list_elem_of_lookup_2|].
  destruct (holds_zero b d W L) as (d1 & E1 & H1).
  destruct (holds_stream b d1 0 ∅ (edge_index v <$> dsts) H1) as (d2 & E2 & H2).
  rewrite <-(ofold_fmap (edge_index v) (λ u s, sketch_update s u)) in E2.
  unfold apply_update_batch. rewrite M_bind_gets, Hl, M_bind_gets, Hds.
  rewrite (M_bind_lift _ ds), (M_bind_lift _ d), (M_bind_lift _ _ _ _ E1) by (by rewrite ?Hd).
  rewrite (M_bind_lift _ _ _ _ E2), M_bind_gets, M_bind_modify.
  set (cc1 := set_delta_sketches _ _ cc).
  destruct (on_sketch_ok cc1 b f v (λ s, sketch_merge s d2) (toggles (edge_index v <$> dsts)))
    as (cc' & E' & Hcc' & Hv'); [exact Hf|exact Hv| |].
  { intros s Hs. destruct (holds_merge b s d2 _ _ _ _ Hs H2) as (s' & Es & Hs'). exists s'.
    split; [done|]. by rewrite (left_id ∅ symdiff) in Hs'. }
  exists cc'. split; [exact E'|]. split; [|split; [|exact Hv']].
  - rewrite Hcc'. unfold same_but_sketches. simpl. split_and!; done.
  - rewrite Hcc'. intros ds' [= <-]. simpl. split; [by rewrite length_insertN|].
    intros s Hs. apply list_elem_of_lookup in Hs as [i Hi].
    apply list_lookup_insert_Some in Hi as [(_ & <- & _)|[_ Hi]].
    + destruct H2 as (? & ? & _). done.
    + apply Hall. by eapply list_elem_of_lookup_2.
Qed.

(** A worker's batch: thread, source vertex, destinations. *)
Definition batch : Type := N * N * list N.

Definition run_batches (bs : list batch) : M (CCSketchAlg D) unit :=
  for_each bs (λ '(thr, v, dsts), apply_update_batch thr v dsts).

(** The indices a list of batches delivers to vertex [w]. *)
Definition delivered (w : N) (bs : list batch) : list N :=
  bs ≫= λ '(thr, v, dsts), if v =? w then edge_index v <$> dsts else [].

Lemma run_batches_ok cc b f bs :
  update_locked cc = false → is_Some (delta_sketches cc) →
  Forall (λ '(thr, v, dsts), thr < num_delta_sketches cc ∧ v < num_vertices cc) bs →
  cc_vectors cc b f → cc_deltas cc b →
  ∃ cc', run_batches bs cc = (cc', Ok tt) ∧ same_but_sketches cc cc' ∧ cc_deltas cc' b ∧
    cc_vectors cc' b (λ w, f w △ toggles (delivered w bs)).
Proof using PlatformLaws0.
  intros Hl Hds Hbs Hf Hdl.
  destruct (for_each_inv (λ pre cc', same_but_sketches cc cc' ∧ cc_deltas cc' b ∧
      cc_vectors cc' b (λ w, f w △ toggles (delivered w pre))) bs
    (λ '(thr, v, dsts), apply_update_batch thr v dsts)) with (s := cc) as (cc' & E & HI).
  - intros pre [[thr v] dsts] rest cc1 -> (Hs & Hd & Hv). rewrite Forall_app, Forall_cons in Hbs.
    destruct Hbs as (_ & [Hthr Hv1] & _).
    pose proof Hs as (En & Eseed & El & Edsu & Ev & Esv & Esf & Ek & Ec & Eds).
    destruct (apply_update_batch_ok cc1 b _ thr v dsts ltac:(congruence) (Eds Hds)
      ltac:(rewrite Ek; done) ltac:(rewrite En; done) Hv Hd) as (cc2 & E2 & Hs2 & Hd2 & Hv2).
    exists cc2. split; [exact E2|]. split; [by eapply same_but_sketches_trans|]. split; [done|].
    eapply cc_vectors_ext; [|exact Hv2]. intros w _. simpl. unfold delivered.
    rewrite bind_app, toggles_app. simpl. rewrite app_nil_r, (N.eqb_sym v w).
    destruct (N.eqb_spec w v) as [->|]; [by rewrite (assoc symdiff)|].
    change (toggles []) with (∅ : gset N). by rewrite (right_id ∅ symdiff).
  - split; [apply same_but_sketches_refl|]. split; [done|].
    eapply cc_vectors_ext; [|exact Hf]. intros w _. simpl.
    change (toggles []) with (∅ : gset N). by rewrite (right_id ∅ symdiff).
  - exists cc'. split; [exact E|exact HI].
Qed.

(** ** Construction *)

(** Parameters the constructors can build sketches for. *)
Record good_params (n seed : N) (conf : CCAlgConfiguration) (b : Sketch) : Prop := {
  gp_n : 1 ≤ n < 2 ^ 32;
  gp_seed : seed < 2 ^ 64;
  gp_new : new_sketch n seed (_sketches_factor conf) = Ok b;
  gp_cols : num_samples b * cols_per_sample b ≤ 2 ^ 32;
  gp_bkt : 1 ≤ bkt_per_col b < 64
}.

Lemma default_cols_pos : 1 ≤ default_cols_per_sample.
Proof using . unfold default_cols_per_sample. by destruct L0_SAMPLING. Qed.

Lemma new_sketch_inv n seed factor b : new_sketch n seed factor = Ok b →
  ∃ len samples, calc_vector_length n = Ok len ∧ calc_cc_samples n factor = Ok samples ∧
    Sketch_new len seed samples default_cols_per_sample = Ok b ∧ 18 ≤ samples.
Proof using .
  unfold new_sketch. intros E. apply outcome_bind_inv in E as (len & E1 & E).
  apply outcome_bind_inv in E as (samples & E2 & E). exists len, samples. split_and!; try done.
  unfold calc_cc_samples in E2. apply outcome_bind_inv in E2 as (c & _ & [= <-]). lia.
Qed.

Lemma Sketch_new_members len seed samples cols b : Sketch_new len seed samples cols = Ok b →
  num_samples b = samples ∧ cols_per_sample b = cols.
Proof using .
  unfold Sketch_new, sketch_layout. destruct (calc_bkt_per_col len); [|done..].
  intros E. injection E as <-. done.
Qed.

Lemma good_params_base n seed conf b : good_params n seed conf b →
  wf_sketch b ∧ represents b ∅ ∧ sample_idx b = 0 ∧ 18 ≤ num_samples b ≤ 2 ^ 32 ∧
  cols_per_sample b ≤ 2 ^ 32.
Proof using .
  intros [Hn Hseed Hnew Hcols Hbkt].
  destruct (new_sketch_inv _ _ _ _ Hnew) as (len & samples & _ & _ & E & H18).
  destruct (Sketch_new_members _ _ _ _ _ E) as [Es Ec]. rewrite Es, Ec in Hcols.
  destruct (Sketch_new_ok _ _ _ _ _ E Hseed Hcols Hbkt) as (W & R & I & _).
  pose proof default_cols_pos. rewrite Es, Ec. split_and!; try done; nia.
Qed.

Lemma CCSketchAlg_new_ok n seed conf prio_gen b : good_params n seed conf b →
  ∃ cc, CCSketchAlg_new n seed conf prio_gen = Ok cc ∧ cc_inv cc b ∅ ∧ num_vertices cc = n ∧
    dsu_valid cc = true ∧ update_locked cc = false ∧ sketches cc = replicate (N.to_nat n) b.
Proof using PlatformLaws0.
  intros Hg. pose proof (good_params_base _ _ _ _ Hg) as (W & R & I & Hsam & Hcol).
  destruct Hg as [Hn Hseed Hnew _ _].
  destruct (new_sketch_inv _ _ _ _ Hnew) as (len & samples & E1 & E2 & E3 & _).
  unfold CCSketchAlg_new. rewrite E1. simpl. rewrite E2. simpl.
  destruct (ofold_range (λ k '(reps, ss), ss = replicate (N.to_nat k) b) 0 n
    (λ i '(reps, ss), s ← Sketch_new len seed samples default_cols_per_sample;
       mret (reps ∪ {[ i ]} : gset N, ss ++ [s]))) with (s := (∅ : gset N, [] : list Sketch))
    as ([reps ss] & -> & ->).
  - intros k [reps ss] _ ->. rewrite E3. simpl. eexists. split; [done|]. simpl.
    replace (N.to_nat (k + 1)) with (S (N.to_nat k)) by lia. by rewrite replicate_S_end.
  - done.
  - simpl. eexists. split; [done|]. destruct (uf_new_ok n prio_gen) as (Uok & Us & Ur).
    split; [|done]. split; simpl.
    + split; try done. lia.
    + intros x Hx. set_solver.
    + split; [simpl; by rewrite length_replicate|]. simpl. intros v s Hv.
      rewrite lookupN_eq in Hv. apply lookup_replicate in Hv as [-> _].
      split_and!; [done|done|done|]. replace (incident ∅ v) with (∅ : gset N); [done|].
      unfold incident. by rewrite filter_none.
    + done.
    + unfold cc_cache. simpl. rewrite length_replicate. split_and!; try done. intros _.
      split; [by apply forest_inv_empty; [|apply uf_tracks_new]|]. intros x y.
      unfold graph_connected, graph_pairs, forest_pairs. by rewrite forest_pairs_empty, elements_empty.
Qed.

Lemma allocate_ok cc b k : cc_base cc b →
  ∃ cc', allocate_worker_memory k cc = (cc', Ok tt) ∧
    (is_Some (delta_sketches cc') ∧ cc_deltas cc' b ∧ num_delta_sketches cc' = k) ∧
    same_but_sketches cc (set_delta_sketches (num_delta_sketches cc) [] cc') ∧
    sketches cc' = sketches cc.
Proof using .
  intros [Hn Hnew W R I _ _]. unfold allocate_worker_memory. rewrite !M_bind_gets.
  destruct (ofold_range (λ j ds, ds = replicate (N.to_nat j) b) 0 k
    (λ _ ds, s ← new_sketch (num_vertices cc) (cc_seed cc) (_sketches_factor (config cc));
       mret (ds ++ [s]))) with (s := [] : list Sketch) as (ds & E & ->).
  - intros j ds _ ->. rewrite Hnew. simpl. eexists. split; [done|].
    replace (N.to_nat (j + 1)) with (S (N.to_nat j)) by lia. by rewrite replicate_S_end.
  - done.
  - rewrite (M_bind_lift _ _ _ _ E). eexists. split; [done|]. simpl. split_and!; try done.
    intros ds [= <-]. simpl. split; [by rewrite length_replicate|].
    intros s Hs. apply list_elem_of_lookup in Hs as [i Hi]. by apply lookup_replicate in Hi as [-> _].
Qed.

Lemma vectors_unique b cc cc' f : num_vertices cc = num_vertices cc' →
  cc_vectors cc b f → cc_vectors cc' b f → sketches cc = sketches cc'.
Proof using .
  intros En [HL Hf] [HL' Hf']. apply list_eqN. intros v.
  destruct (sketches cc !! v) as [s|] eqn:Es, (sketches cc' !! v) as [s'|] eqn:Es'.
  - f_equal. destruct (Hf v s Es) as (W & L & I & R), (Hf' v s' Es') as (W' & L' & I' & R').
    assert (same_layout s s') as L2 by (transitivity b; [symmetry|]; done).
    rewrite (sketch_eta s), (sketch_eta s').
    rewrite (represents_unique s s' _ W W' L2 R R'), I, I'. by destruct L2 as (->&->&->&->&->&->).
  - apply lookupN_lt_Some in Es. destruct (lookupN_lt_is_Some (sketches cc') v) as [? ?]; [lia|congruence].
  - apply lookupN_lt_Some in Es'. destruct (lookupN_lt_is_Some (sketches cc) v) as [? ?]; [lia|congruence].
  - done.
Qed.
End Invariants.

(** * Properties *)

(** The packed edges of a stream. *)
Definition stream_ids {U} (us : list (GraphUpdate U)) : list N :=
  (λ u, concat_pairing_fn (src (upd_edge u)) (dst (upd_edge u))) <$> us.

Definition valid_updates {U} (n : N) (us : list (GraphUpdate U)) : Prop :=
  Forall (λ u, src (upd_edge u) < n ∧ dst (upd_edge u) < n ∧ src (upd_edge u) ≠ dst (upd_edge u)) us.

Section Properties.
Context `{P : Platform} `{!PlatformLaws P} {D : Type} `{UnionFindLaws D} {U : Type}.

Lemma updates_ok (us : list (GraphUpdate U)) (cc : CCSketchAlg D) b G :
  valid_updates (num_vertices cc) us → cc_inv cc b G →
  ∃ cc', for_each us update cc = (cc', Ok tt) ∧ cc_inv cc' b (G △ toggles (stream_ids us)) ∧
    num_vertices cc' = num_vertices cc.
Proof using PlatformLaws0.
  revert cc G. induction us as [|[e t] us IH]; intros cc G Hv HI.
  - exists cc. split; [done|]. split; [|done]. change (toggles (stream_ids [])) with (∅ : gset N).
    by rewrite (right_id ∅ symdiff).
  - apply Forall_cons in Hv as [(Hs & Hd & Hne) Hv]. cbn [upd_edge] in *.
    destruct (update_ok cc b G e t Hs Hd Hne HI) as (cc1 & E1 & HI1 & En). rewrite <-En in Hv.
    destruct (IH cc1 _ Hv HI1) as (cc2 & E2 & HI2 & En2). exists cc2. split_and!.
    + simpl. by rewrite (M_bind_Ok _ _ _ _ _ E1).
    + unfold stream_ids. rewrite fmap_cons, toggles_cons, (assoc symdiff). exact HI2.
    + congruence.
Qed.

(** C17. The eager invariant. From construction on, whatever valid stream of
    updates is applied, every call succeeds, each vertex's sketch holds exactly
    its incident edges in the graph of the stream (the edges toggled an odd
    number of times), and while the cached answer is flagged valid the disjoint
    set union's classes are the connected components of that graph and the
    spanning forest is a forest of its edges with the same components. No
    assumption on the hash function is needed. *)
Theorem updates_invariant n seed conf prio_gen b (us : list (GraphUpdate U))
    (Hp : good_params n seed conf b) (Hus : valid_updates n us) :
  ∃ cc0 cc : CCSketchAlg D,
    CCSketchAlg_new n seed conf prio_gen = Ok cc0 ∧ for_each us update cc0 = (cc, Ok tt) ∧
    let G := toggles (stream_ids us) in
    graph n G ∧
    (∀ v, v < n → ∃ s, sketches cc !! v = Some s ∧ represents s (incident G v)) ∧
    (dsu_valid cc = true →
       (∀ x y, x < n → y < n → uf_root (dsu cc) x = uf_root (dsu cc) y ↔ graph_connected G x y) ∧
       (∀ x y, (x, y) ∈ forest_pairs (spanning_forest cc) → concat_pairing_fn x y ∈ G) ∧
       (∀ x y, pair_connected (forest_pairs (spanning_forest cc)) x y ↔ graph_connected G x y) ∧
       ∃ log, log ≡ₚ forest_pairs (spanning_forest cc) ∧ acyclic_pairs log).
Proof using PlatformLaws0.
  destruct (CCSketchAlg_new_ok n seed conf prio_gen b Hp) as (cc0 & E0 & I0 & En & _).
  rewrite <-En in Hus. destruct (updates_ok us cc0 b ∅ Hus I0) as (cc & E & HI & En').
  rewrite (left_id ∅ symdiff) in HI. rewrite En in En'. exists cc0, cc.
  destruct HI as [_ HG [HL Hv] _ (_ & Hsz & _ & _ & Hval)]. rewrite En' in HG, HL, Hsz, Hval.
  split; [done|]. split; [done|]. intros G. split_and!; [done| |].
  - intros v Hlt. destruct (lookupN_lt_is_Some (sketches cc) v) as [s Hs]; [lia|].
    exists s. split; [done|]. by apply Hv.
  - intros Hvalid. destruct (Hval Hvalid) as [HF HG2]. split_and!; [..|done|].
    + intros x y Hx Hy. unfold G. rewrite <-HG2. apply (fi_tracks _ _ _ _ HF); by rewrite Hsz.
    + intros x y Hxy. by apply (fi_edges _ _ _ _ HF).
    + apply (fi_acyclic _ _ _ _ HF).
Qed.

(** C10. Batched delivery equals direct updates. Whatever the split into
    batches, their order and the worker each goes to, once every update has
    been delivered to both of its endpoints the vertex sketches are the very
    ones direct calls of [update] leave. *)
Theorem batches_deliver n seed conf prio_gen b (k : N) (us : list (GraphUpdate U)) (bs : list batch)
    (Hp : good_params n seed conf b) (Hus : valid_updates n us)
    (Hbs : Forall (λ '(thr, v, dsts), thr < k ∧ v < n) bs)
    (Hall : ∀ v, v < n → delivered v bs ≡ₚ filter (λ id, touches v id = true) (stream_ids us)) :
  ∃ cc0 cc1 cc2 cc3 : CCSketchAlg D,
    CCSketchAlg_new n seed conf prio_gen = Ok cc0 ∧ for_each us update cc0 = (cc1, Ok tt) ∧
    allocate_worker_memory k cc0 = (cc2, Ok tt) ∧ run_batches bs cc2 = (cc3, Ok tt) ∧
    sketches cc3 = sketches cc1.
Proof using PlatformLaws0 H0.
  destruct (CCSketchAlg_new_ok n seed conf prio_gen b Hp) as (cc0 & E0 & I0 & En & _ & Hlock & _).
  rewrite <-En in Hus. destruct (updates_ok us cc0 b ∅ Hus I0) as (cc1 & E1 & I1 & En1).
  rewrite (left_id ∅ symdiff) in I1.
  destruct (allocate_ok cc0 b k) as (cc2 & E2 & Hd2 & Hs2 & Hv2); [apply I0|].
  assert (cc_vectors cc2 b (incident ∅)) as V2.
  { destruct Hs2 as (En2 & _). apply (cc_vectors_same cc0); [done|done|apply I0]. }
  destruct Hd2 as (Hd2 & Hdl2 & Hk2). pose proof Hs2 as (En2 & _ & El2 & _).
  simpl in En2, El2. destruct (run_batches_ok cc2 b (incident ∅) bs) as (cc3 & E3 & S3 & _ & V3); try done; [congruence|..].
  { by rewrite Hk2, En2, En. }
  exists cc0, cc1, cc2, cc3. split_and!; try done. destruct I1 as [_ _ V1 _ _].
  assert (num_vertices cc3 = num_vertices cc1) as En3 by (destruct S3 as (-> & _); congruence).
  apply (vectors_unique b cc3 cc1 (incident (toggles (stream_ids us)))); [done| |done].
  eapply cc_vectors_ext; [|exact V3]. intros v Hv. simpl. rewrite (toggles_perm _ _ (Hall v ltac:(congruence))).
  rewrite toggles_filter. unfold incident at 1. by rewrite filter_none, (left_id ∅ symdiff).
Qed.
End Properties.

(** ** A concrete object *)

Definition demo_base : Sketch :=
  from_outcome (@new_sketch demo_platform 6 7 (_sketches_factor CCAlgConfiguration_default)).

Lemma demo_params : @good_params demo_platform 6 7 CCAlgConfiguration_default demo_base.
Proof. split; vm_compute; (reflexivity || (split; [discriminate|reflexivity]) || discriminate || idtac). Qed.

Definition demo_edges : list (GraphUpdate unit) :=
  (λ '(u, v), mkUpdate (mkEdge u v) tt) <$> [(0, 1); (2, 1); (0, 2); (3, 4); (2, 0)].

Definition demo_batches : list batch :=
  [(0, 2, [0]); (1, 0, [1; 2; 2]); (0, 1, [2; 0]); (1, 4, [3]); (1, 3, [4]); (0, 2, [1; 0])].

Lemma updates_invariant_witness : ∃ cc0 cc : CCSketchAlg DSU_MT,
  @CCSketchAlg_new demo_platform DSU_MT (@DSU_MT_uf demo_platform) 6 7
    CCAlgConfiguration_default (λ i, i * 5 mod 7) = Ok cc0 ∧
  for_each demo_edges (@update demo_platform _ (@DSU_MT_uf demo_platform) unit) cc0 = (cc, Ok tt) ∧
  graph 6 (toggles (stream_ids demo_edges)).
Proof.
  destruct (@updates_invariant demo_platform _ DSU_MT (@DSU_MT_uf demo_platform)
    (@DSU_MT_uf_laws demo_platform) unit 6 7 CCAlgConfiguration_default (λ i, i * 5 mod 7)
    demo_base demo_edges demo_params) as (cc0 & cc & E0 & E & HG & _).
  - repeat constructor; vm_compute; discriminate.
  - exists cc0, cc. split; [exact E0|]. split; [exact E|exact HG].
Defined.

Lemma batches_deliver_witness : ∃ cc0 cc1 cc2 cc3 : CCSketchAlg DSU_MT,
  @CCSketchAlg_new demo_platform DSU_MT (@DSU_MT_uf demo_platform) 6 7
    CCAlgConfiguration_default (λ i, i * 5 mod 7) = Ok cc0 ∧
  for_each demo_edges (@update demo_platform _ (@DSU_MT_uf demo_platform) unit) cc0 = (cc1, Ok tt) ∧
  @allocate_worker_memory demo_platform DSU_MT 2 cc0 = (cc2, Ok tt) ∧
  @run_batches demo_platform DSU_MT demo_batches cc2 = (cc3, Ok tt) ∧ sketches cc3 = sketches cc1.
Proof.
  apply (@batches_deliver demo_platform _ DSU_MT (@DSU_MT_uf demo_platform)
    (@DSU_MT_uf_laws demo_platform) unit 6 7 CCAlgConfiguration_default (λ i, i * 5 mod 7)
    demo_base 2 demo_edges demo_batches demo_params).
  - repeat constructor; vm_compute; discriminate.
  - repeat constructor; vm_compute; reflexivity.
  - intros v Hv. assert (v = 0 ∨ v = 1 ∨ v = 2 ∨ v = 3 ∨ v = 4 ∨ v = 5) as Hcase by lia.
    destruct_or! Hcase; subst v; vm_compute; first [reflexivity|apply perm_swap].
Defined.
