(* ===== verification/MergeInstr.v ===== *)
(** Merge instructions (src/cc_sketch_alg.cpp): the vertices ordered by the root
    of their component, how they are computed in parallel, and what each thread
    of a Boruvka round does with its share of them.

    [create_merge_instructions] is modelled phase by phase (the phases are
    separated by barriers); the only race that can be seen is the order of the
    atomic captures, which is a parameter. [thread_program] is the body of the
    parallel region of [perform_boruvka_round]: the instructions are read-only
    there, so the sequence of operations on sketches a thread performs is a
    function of them; file Round interleaves those sequences. *)
From S2P Require Import Prelude Platform Partition Dsu CCAlg.

Open Scope N_scope.

Record MergeInstr : Type := mkInstr { instr_root : N; instr_child : N }.

#[export] Instance MergeInstr_eq_dec : EqDecision MergeInstr.
Proof. solve_decision. Defined.

(** [MergeInstr::operator<] *)
Definition instr_lt (a b : MergeInstr) : bool :=
  if instr_root a =? instr_root b then instr_child a <? instr_child b
  else instr_root a <? instr_root b.

(** Size of the vector as a [node_id_t]. *)
Definition instr_size (mi : list MergeInstr) : N := N.of_nat (length mi).

Section Programs.
Context `{P : Platform}.

(** * find_last_partition_of_root *)

(** [while (min < max)]; [fuel] bounds the iterations. *)
Fixpoint find_last_loop (fuel : nat) (mi : list MergeInstr) (target : MergeInstr) (min max : N) :
    outcome N :=
  if min <? max then
    match fuel with
    | O => Undef
    | S fuel =>
        let mid := u32 (min + usub 32 max min / 2) in
        instr ← of_option (mi !! mid);
        if instr_lt instr target then find_last_loop fuel mi target (u32 (mid + 1)) max
        else find_last_loop fuel mi target min mid
    end
  else mret min.

(** The two assertions, compiled out by [NDEBUG]. *)
Definition find_last_asserts (mi : list MergeInstr) (root min : N) : outcome unit :=
  if NDEBUG then mret tt
  else
    instr ← of_option (mi !! min);
    _ ← oassert NDEBUG (instr_root instr =? root);
    if min =? instr_size mi - 1 then mret tt
    else
      next ← of_option (mi !! (u32 (min + 1)));
      oassert NDEBUG (root <? instr_root next).

Definition find_last_partition_of_root (mi : list MergeInstr) (root min_hint num_threads : N) :
    outcome N :=
  let max := u32 (usub 64 (instr_size mi) 1) in
  min ← find_last_loop (length mi) mi (mkInstr root (umax 32)) min_hint max;
  instr ← of_option (mi !! min);
  let min := if negb (instr_root instr =? root) then usub 32 min 1 else min in
  _ ← find_last_asserts mi root min;
  idx ← get_partition_idx (u32 (instr_size mi)) min num_threads;
  mret (u32 idx).

(** * A thread of perform_boruvka_round *)

(** The operations of a thread on sketches, in the order it performs them. *)
Inductive act : Type :=
| AMerge (child : N)      (** [local_sketch.range_merge( *sketches[child], cur_round, 1)] *)
| AQueryLocal             (** [sample_supernode(local_sketch)] in its [try] block *)
| AZero                   (** [local_sketch.zero_contents()] *)
| ANeed (g k : N)         (** [global_merges[g].num_merge_needed = k], under its lock *)
| AMergeGlobal (g : N)    (** [query_ready = merge_global(cur_round, local_sketch, global_merges[g])] *)
| AQueryGlobal (g : N)    (** [if (query_ready)] sample [global_merges[g].sketch] *)
| AReport.                (** [if (local_except)] publish the exception *)

(** What ends the run of a root inside the loop. *)
Definition flush_acts (thr_id : N) (root_from_left : bool) : list act :=
  if root_from_left then [AMergeGlobal thr_id; AQueryGlobal thr_id] else [AQueryLocal].

(** Body of the loop over the thread's instructions. *)
Definition thread_iteration (mi : list MergeInstr) (thr_id i : N) (st : N * bool * list act) :
    outcome (N * bool * list act) :=
  let '(cur_root, root_from_left, acts) := st in
  instr ← of_option (mi !! i);
  let root := instr_root instr in
  let child := instr_child instr in
  let '(root_from_left, acts) :=
    if negb (root =? cur_root) then (false, acts ++ flush_acts thr_id root_from_left ++ [AZero])
    else (root_from_left, acts) in
  mret (root, root_from_left, acts ++ [AMerge child]).

Definition thread_program (mi : list MergeInstr) (num_vertices thr_id num_threads : N) :
    outcome (list act) :=
  '(start, end_) ← get_ith_partition num_vertices thr_id num_threads;
  _ ← oassert NDEBUG (start <=? end_);
  root_from_left ←
    (if 0 <? start then
       a ← of_option (mi !! usub 32 start 1); b ← of_option (mi !! start);
       mret (instr_root a =? instr_root b)
     else mret false);
  root_exits_right ←
    (if end_ <? num_vertices then
       a ← of_option (mi !! usub 32 end_ 1); b ← of_option (mi !! end_);
       mret (instr_root a =? instr_root b)
     else mret false);
  first ← of_option (mi !! start);
  '(cur_root, root_from_left, acts) ←
    ofold (thread_iteration mi thr_id) (seqN start (end_ - start))
      (instr_root first, root_from_left, []);
  if root_exits_right || root_from_left then
    global_id ← find_last_partition_of_root mi cur_root start num_threads;
    let need := if negb root_from_left
                then [ANeed global_id (u64 (usub 64 global_id thr_id + 1))] else [] in
    mret (acts ++ need ++ [AMergeGlobal global_id; AQueryGlobal global_id; AReport])
  else mret (acts ++ [AQueryLocal; AReport]).

(** * create_merge_instructions *)

(** The vertices of one component in a thread's share. *)
Definition local_cc : Type := N * list N.

(** [local_ccs[root].push_back(child)]. The hash map is the list of its entries
    in its iteration order, which the two loops over it share. *)
Fixpoint push_local (root child : N) (local_ccs : list local_cc) : list local_cc :=
  match local_ccs with
  | [] => [(root, [child])]
  | (r, vs) :: ccs =>
      if r =? root then (r, vs ++ [child]) :: ccs else (r, vs) :: push_local root child ccs
  end.

(** The elements of several lists in an order the scheduler chooses: entry [t]
    of the schedule takes the next element of list [t]; what the schedule leaves
    follows list by list. *)
Fixpoint interleave {A} (schedule : list nat) (ls : list (list A)) : list A :=
  match schedule with
  | [] => concat ls
  | t :: schedule =>
      match ls !! t with
      | Some (x :: l) => x :: interleave schedule (<[t := l]> ls)
      | _ => interleave schedule ls
      end
  end.

Context {D : Type} `{UF : UnionFind D}.

(** Phase 1: a thread finds the roots of its vertices. *)
Definition local_components (mi : list MergeInstr) (start end_ : N) :
    M D (list local_cc) := λ d,
  run_loop (λ d,
    '(d, ccs) ← ofold (λ i '(d, ccs),
        instr ← of_option (mi !! i);
        match uf_find_root (instr_child instr) d with
        | (d, Ok root) => mret (d, push_local root (instr_child instr) ccs)
        | (_, Throw e) => Throw e
        | (_, Abort) => Abort
        | (_, Undef) => Undef
        end) (seqN start (end_ - start)) (d, []);
    mret (d, ccs)) d.

(** One atomic capture: thread [t] reserves room for its vertices of a root.
    [cc_prefix] and, per thread, [local_cc_idx]. *)
Definition capture (req : nat * local_cc) (st : list N * list (list N)) :
    outcome (list N * list (list N)) :=
  let '(t, (root, vertices)) := req in
  let '(cc_prefix, idxs) := st in
  idx ← of_option (cc_prefix !! root);
  idx_t ← of_option (idxs !! t);
  mret (<[root := u32 (idx + N.of_nat (length vertices))]> cc_prefix,
        <[t := idx_t ++ [idx]]> idxs).

(** [cc_prefix[i] += x], a thread's prefix sum, and the final additions. *)
Definition add_to (i x : N) (cc_prefix : list N) : outcome (list N) :=
  y ← of_option (cc_prefix !! i); mret (<[i := u32 (y + x)]> cc_prefix).

Definition local_prefix_sum (start end_ : N) (cc_prefix : list N) : outcome (list N) :=
  ofold (λ i cc_prefix, x ← of_option (cc_prefix !! (i - 1)); add_to i x cc_prefix)
    (seqN (start + 1) (end_ - (start + 1))) cc_prefix.

Definition add_range (start end_ x : N) (cc_prefix : list N) : outcome (list N) :=
  ofold (λ i, add_to i x) (seqN start (end_ - start)) cc_prefix.

(** The single-threaded sum of the threads' totals. *)
Definition sum_ranges (num_vertices num_threads : N) (cc_prefix : list N) : outcome (list N) :=
  ofold (λ t range_sums,
    '(_, second) ← get_ith_partition num_vertices (t - 1) num_threads;
    x ← of_option (cc_prefix !! usub 32 second 1);
    y ← of_option (range_sums !! (t - 1));
    mret (range_sums ++ [u32 (x + y)])) (seqN 1 (num_threads - 1)) [0].

(** Phase 5: a thread writes its vertices of one root. *)
Definition write_component (cc_prefix : list N) (cc : local_cc) (idx : N) (mi : list MergeInstr) :
    outcome (list MergeInstr) :=
  let '(root, vertices) := cc in
  placement ← (if 0 <? root then p ← of_option (cc_prefix !! (root - 1)); mret (u32 (idx + p))
               else mret idx);
  ofold (λ j mi,
    v ← of_option (vertices !! j);
    _ ← of_option (mi !! (placement + j));
    mret (<[placement + j := mkInstr root v]> mi)) (seqN 0 (N.of_nat (length vertices))) mi.

Definition write_components (cc_prefix : list N) (ccs : list local_cc) (idxs : list N)
    (mi : list MergeInstr) : outcome (list MergeInstr) :=
  ofold (λ '(cc, idx), write_component cc_prefix cc idx) (combine ccs idxs) mi.

(** [order] is the interleaving of the atomic captures of the threads. *)
Definition create_merge_instructions (num_vertices num_threads : N) (order : list nat)
    (mi : list MergeInstr) : M D (list MergeInstr) := λ d,
  run_loop (λ d,
    parts ← mapM (λ t, get_ith_partition num_vertices t num_threads) (seqN 0 num_threads);
    '(d, ccs) ← ofold (λ '(start, end_) '(d, ccs),
        match local_components mi start end_ d with
        | (d, Ok cc) => mret (d, ccs ++ [cc])
        | (_, Throw e) => Throw e
        | (_, Abort) => Abort
        | (_, Undef) => Undef
        end) parts (d, []);
    let requests := interleave order (imap (λ t cc, pair t <$> cc) ccs) in
    '(cc_prefix, idxs) ← ofold capture requests
        (replicate (N.to_nat num_vertices) 0, replicate (length ccs) []);
    cc_prefix ← ofold (λ '(start, end_), local_prefix_sum start end_) parts cc_prefix;
    range_sums ← sum_ranges num_vertices num_threads cc_prefix;
    cc_prefix ← ofold (λ '((start, end_), (t, x)) cc_prefix,
        if 0 <? (t : N) then add_range start end_ x cc_prefix else mret cc_prefix)
      (combine parts (combine (seqN 0 num_threads) range_sums)) cc_prefix;
    mi ← ofold (λ '(cc, idx), write_components cc_prefix cc idx) (combine ccs idxs) mi;
    mret (d, mi)) d.
End Programs.
