(* ===== verification/Round.v ===== *)
(** One round of Boruvka (src/cc_sketch_alg.cpp: [sample_supernode],
    [merge_global], [run_round_zero], [perform_boruvka_round]).

    A parallel region is a machine: every thread has the list of operations it
    still has to perform ([thread_program] of file MergeInstr), and a schedule
    says which thread performs its next operation. An operation is one call on a
    sketch (the thread's own, or a shared one under its lock) or one sample,
    whose merge of the disjoint set union is atomic: file DsuMT shows that the
    concurrent [merge] behaves as one. *)
From S2P Require Import Prelude Float64 Platform Util XorSet Bucket Sketch Dsu Graph Forest Config CCAlg Partition MergeInstr.

Open Scope N_scope.

(** * Sampling a supernode *)

(** What a build checks of a sampled edge: nothing, unless [VERIFY_SAMPLES_F] is
    defined (file Checked). *)
Class SampleCheck : Type := sample_check : Edge → outcome unit.

#[export] Instance no_check : SampleCheck | 100 := λ _, mret tt.

(** The check passes on every edge of the graph. *)
Class CheckAccepts (SC : SampleCheck) (G : gset N) : Prop :=
  check_accepts id : id ∈ G → sample_check (inv_concat_pairing_fn id) = Ok tt.

#[export] Instance no_check_accepts G : CheckAccepts no_check G.
Proof. by intros id Hid. Qed.

Record GlobalMergeData : Type := mkGlobal {
  g_sketch : Sketch;
  num_merge_needed : N;
  num_merge_done : N
}.

Section Round.
Context `{P : Platform} {SC : SampleCheck} {D : Type} `{UF : UnionFind D}.

(** Samples [skt] and merges the ends of the edge found; the state is the
    algorithm and the sketch. *)
Definition sample_supernode : M (CCSketchAlg D * Sketch) bool :=
  sample ← zoom snd (λ s x, (fst x, s)) sketch_sample;
  let e := inv_concat_pairing_fn (sample_index sample) in
  match sample_result sample with
  | FAIL => mret true
  | GOOD =>
      m_ret ← zoom fst (λ cc x, (cc, snd x)) (on_dsu (uf_merge (src e) (dst e)));
      if merged m_ret then
        _ ← lift (sample_check e);
        _ ← zoom fst (λ cc x, (cc, snd x)) (insert_forest (N.min (src e) (dst e)) (N.max (src e) (dst e)));
        mret true
      else mret false
  | ZERO => mret false
  end.

(** The constructor of the merge data. *)
Definition GlobalMergeData_new (n seed : N) (factor : double) : outcome GlobalMergeData :=
  s ← new_sketch n seed factor;
  mret (mkGlobal s (umax 64) 0).

(** Start of a round: [zero_contents], [num_merge_needed = -1]. *)
Definition reset_global (g : GlobalMergeData) : outcome GlobalMergeData :=
  s ← zero_contents (g_sketch g);
  mret (mkGlobal s (umax 64) 0).

Definition merge_global (cur_round : N) (local_sketch : Sketch) (g : GlobalMergeData) :
    outcome (GlobalMergeData * bool) :=
  match range_merge local_sketch cur_round 1 (g_sketch g) with
  | (s, Ok _) =>
      let done := u64 (num_merge_done g + 1) in
      _ ← oassert NDEBUG (done <=? num_merge_needed g);
      mret (mkGlobal s (num_merge_needed g) done, num_merge_needed g <=? done)
  | (_, Throw e) => Throw e
  | (_, Abort) => Abort
  | (_, Undef) => Undef
  end.

(** * Round 0 *)

(** The vertices' own sketches, sampled in the order [order] of the parallel
    loop. The flag [modified] and the last exception caught. *)
Definition sample_vertex (i : N) (st : CCSketchAlg D * bool * option exn) :
    outcome (CCSketchAlg D * bool * option exn) :=
  let '(cc, modified, err) := st in
  s ← of_option (sketches cc !! i);
  match sample_supernode (cc, s) with
  | (cc', s', Ok m) => mret (set_sketches (<[i := s']> (sketches cc')) cc', modified || m, err)
  | (cc', s', Throw e) => mret (set_sketches (<[i := s']> (sketches cc')) cc', modified, Some e)
  | (_, Abort) => Abort
  | (_, Undef) => Undef
  end.

(** The end of a region: rethrow, or return [modified]. *)
Definition finish_region (r : outcome (CCSketchAlg D * bool * option exn)) (cc : CCSketchAlg D) :
    CCSketchAlg D * outcome bool :=
  match r with
  | Ok (cc', modified, None) => (cc', Ok modified)
  | Ok (cc', _, Some e) => (cc', Throw e)
  | Throw e => (cc, Throw e)
  | Abort => (cc, Abort)
  | Undef => (cc, Undef)
  end.

Definition run_round_zero (order : list N) : M (CCSketchAlg D) bool := λ cc,
  finish_region (ofold sample_vertex order (cc, false, None)) cc.

(** * Later rounds *)

(** A thread: its local sketch, its [query_ready] and [local_err], and what it
    has left to do. *)
Record thread : Type := mkThread {
  th_sketch : Sketch;
  th_ready : bool;
  th_err : option exn;
  th_todo : list act
}.

Record region : Type := mkRegion {
  r_cc : CCSketchAlg D;
  r_globals : list GlobalMergeData;
  r_threads : list thread;
  r_modified : bool;
  r_err : option exn
}.

Definition set_thread (t : nat) (th : thread) (r : region) : region :=
  mkRegion (r_cc r) (r_globals r) (<[t := th]> (r_threads r)) (r_modified r) (r_err r).
Definition set_global (g : N) (gd : GlobalMergeData) (r : region) : region :=
  mkRegion (r_cc r) (<[g := gd]> (r_globals r)) (r_threads r) (r_modified r) (r_err r).
Definition set_result (cc : CCSketchAlg D) (m : bool) (r : region) : region :=
  mkRegion cc (r_globals r) (r_threads r) (r_modified r || m) (r_err r).

(** [try { if (sample_supernode(skt) && !modified) modified = true; }
    catch (...) { local_err = ...; }] by thread [th] on sketch [s]: the new
    sketch, the thread's error and the region. *)
Definition try_sample (s : Sketch) (err : option exn) (r : region) :
    outcome (Sketch * option exn * region) :=
  match sample_supernode (r_cc r, s) with
  | (cc', s', Ok m) => mret (s', err, set_result cc' m r)
  | (cc', s', Throw e) => mret (s', Some e, set_result cc' false r)
  | (_, Abort) => Abort
  | (_, Undef) => Undef
  end.

(** Thread [t], in state [th], performs operation [a]; [rest] is left. *)
Definition act_step (cur_round : N) (t : nat) (th : thread) (a : act) (rest : list act) (r : region) :
    outcome region :=
  match a with
  | AMerge child =>
      skt ← of_option (sketches (r_cc r) !! child);
      match range_merge skt cur_round 1 (th_sketch th) with
      | (s, Ok _) => mret (set_thread t (mkThread s (th_ready th) (th_err th) rest) r)
      | (_, Throw e) => Throw e
      | (_, Abort) => Abort
      | (_, Undef) => Undef
      end
  | AQueryLocal =>
      '(s, err, r) ← try_sample (th_sketch th) (th_err th) r;
      mret (set_thread t (mkThread s (th_ready th) err rest) r)
  | AZero =>
      s ← zero_contents (th_sketch th);
      mret (set_thread t (mkThread s (th_ready th) (th_err th) rest) r)
  | ANeed g k =>
      gd ← of_option (r_globals r !! g);
      mret (set_thread t (mkThread (th_sketch th) (th_ready th) (th_err th) rest)
              (set_global g (mkGlobal (g_sketch gd) k (num_merge_done gd)) r))
  | AMergeGlobal g =>
      gd ← of_option (r_globals r !! g);
      '(gd, ready) ← merge_global cur_round (th_sketch th) gd;
      mret (set_thread t (mkThread (th_sketch th) ready (th_err th) rest) (set_global g gd r))
  | AQueryGlobal g =>
      if th_ready th then
        gd ← of_option (r_globals r !! g);
        '(s, err, r) ← try_sample (g_sketch gd) (th_err th) r;
        mret (set_thread t (mkThread (th_sketch th) false err rest)
                (set_global g (mkGlobal s (num_merge_needed gd) (num_merge_done gd)) r))
      else mret (set_thread t (mkThread (th_sketch th) false (th_err th) rest) r)
  | AReport =>
      let r := match th_err th with
               | Some e => mkRegion (r_cc r) (r_globals r) (r_threads r) (r_modified r) (Some e)
               | None => r
               end in
      mret (set_thread t (mkThread (th_sketch th) (th_ready th) (th_err th) rest) r)
  end.

(** Thread [t] performs its next operation, if it has one. *)
Definition region_step (cur_round : N) (t : nat) (r : region) : outcome region :=
  match r_threads r !! t with
  | Some th =>
      match th_todo th with
      | a :: rest => act_step cur_round t th a rest r
      | [] => mret r
      end
  | None => mret r
  end.

(** The whole region: the schedule, then what it leaves, thread by thread. *)
Definition complete_schedule (schedule : list nat) (programs : list (list act)) : list nat :=
  schedule ++ concat (imap (λ t p, replicate (length p) t) programs).

Definition perform_boruvka_round (cur_round num_threads : N) (order : list N) (schedule : list nat)
    (mi : list MergeInstr) (globals : list GlobalMergeData) :
    M (CCSketchAlg D) (bool * list GlobalMergeData) :=
  if cur_round =? 0 then m ← run_round_zero order; mret (m, globals)
  else λ cc,
    let result :=
      globals ← mapM reset_global globals;
      programs ← mapM (λ t, thread_program mi (num_vertices cc) t num_threads) (seqN 0 num_threads);
      local_sketch ← new_sketch (num_vertices cc) (cc_seed cc) (_sketches_factor (config cc));
      ofold (region_step cur_round) (complete_schedule schedule programs)
        (mkRegion cc globals ((λ p, mkThread local_sketch false None p) <$> programs) false None) in
    match result with
    | Ok r =>
        let '(cc', m) := finish_region (mret (r_cc r, r_modified r, r_err r)) cc in
        (cc', m ← m; mret (m, r_globals r))
    | Throw e => (cc, Throw e)
    | Abort => (cc, Abort)
    | Undef => (cc, Undef)
    end.
End Round.
