(* ===== verification/Region.v ===== *)
(** Every interleaving of a parallel Boruvka region does the same queries.

    The theorem [region_complete] of this file is about the machine of file
    Round for any schedule. It is stated over an interface (the Section's
    variables): what the sketches hold ([Holds]), what a query does to the
    algorithm ([J]), and what the programs of the threads must satisfy
    ([wf_prog], and the accounts [total] and [K] of each shared merge). File
    RoundCorrect instantiates it twice: with the sketches' contents while samples
    remain, and with their exhaustion afterwards. *)
From S2P Require Import Prelude Platform Sketch Dsu CCAlg MergeInstr Round.

Open Scope N_scope.

(** * What is left of a program *)

(** The vertex lists a program still contributes to the shared merge [g], when
    the local sketch holds [cs]; the sizes it still announces for [g]; the
    vertex lists it still queries locally. *)
Fixpoint contributions (g : N) (p : list act) (cs : list N) : list (list N) :=
  match p with
  | [] => []
  | AMerge c :: p => contributions g p (cs ++ [c])
  | AZero :: p => contributions g p []
  | AMergeGlobal g' :: p => (if g' =? g then [cs] else []) ++ contributions g p cs
  | _ :: p => contributions g p cs
  end.

Fixpoint announcements (g : N) (p : list act) : list N :=
  match p with
  | [] => []
  | ANeed g' k :: p => (if g' =? g then [k] else []) ++ announcements g p
  | _ :: p => announcements g p
  end.

Fixpoint local_queries (p : list act) (cs : list N) : list (list N) :=
  match p with
  | [] => []
  | AMerge c :: p => local_queries p (cs ++ [c])
  | AZero :: p => local_queries p []
  | AQueryLocal :: p => cs :: local_queries p cs
  | _ :: p => local_queries p cs
  end.

(** A thread with the vertices its local sketch holds, and whether the sketch
    has not been sampled since it was emptied. *)
Record ghost_thread : Type := mkGhost { gt_thread : thread; gt_cs : list N; gt_fresh : bool }.

Definition rem_contributions (g : N) (x : ghost_thread) : list (list N) :=
  contributions g (th_todo (gt_thread x)) (gt_cs x).
Definition rem_announcements (g : N) (x : ghost_thread) : list N :=
  announcements g (th_todo (gt_thread x)).
Definition rem_queries (x : ghost_thread) : list (list N) :=
  local_queries (th_todo (gt_thread x)) (gt_cs x).

(** One token per thread about to query [g]. *)
Definition ready_for (g : N) (x : ghost_thread) : list unit :=
  if th_ready (gt_thread x) then
    match th_todo (gt_thread x) with
    | AQueryGlobal g' :: _ => if g' =? g then [tt] else []
    | _ => []
    end
  else [].

(** Moving one thread changes what all threads have left by what it did. *)
Lemma bind_insert {A B} (f : A → list B) (l : list A) (t : nat) x y e :
  l !! t = Some x → f x ≡ₚ e ++ f y → l ≫= f ≡ₚ e ++ (<[t := y]> l ≫= f).
Proof.
  intros Ht Hf. rewrite insert_take_drop by (by eapply lookup_lt_Some).
  rewrite <-(take_drop_middle l t x Ht) at 1. rewrite !bind_app. simpl. rewrite Hf.
  by rewrite !app_assoc, (Permutation_app_comm _ e).
Qed.

Lemma bind_insert_more {A B} (f : A → list B) (l : list A) (t : nat) x y e :
  l !! t = Some x → f y ≡ₚ e ++ f x → <[t := y]> l ≫= f ≡ₚ e ++ (l ≫= f).
Proof.
  intros Ht Hf. rewrite (bind_insert f (<[t := y]> l) t y x e); [|by apply list_lookup_insert_eq, (lookup_lt_Some _ _ x)|done].
  rewrite list_insert_insert_eq, list_insert_id by done. done.
Qed.

Lemma bind_insert_same {A B} (f : A → list B) (l : list A) (t : nat) x y :
  l !! t = Some x → f x = f y → l ≫= f ≡ₚ <[t := y]> l ≫= f.
Proof. intros Ht Hf. apply (bind_insert f l t x y []); [done|]. by rewrite Hf. Qed.

Lemma perm_nil_eq {A} (l l' : list A) : l ≡ₚ l' → l = [] → l' = [].
Proof. intros Hp ->. by apply Permutation_nil_l in Hp. Qed.

(** * The interface *)

Section Machine.
Context `{P : Platform} {SC : SampleCheck} {D : Type} `{UF : UnionFind D}.
Context (n : N) (cur_round : N).

(** A sketch of the algorithm; one that holds exactly the vertices [cs] and has
    not been sampled since it was emptied; the state of the algorithm after the
    queries [Q], given [modified] and whether an exception was caught; the
    lists that may be queried. *)
Context (Shape : Sketch → Prop) (Holds : Sketch → list N → Prop).
Context (J : CCSketchAlg D → bool → bool → list (list N) → Prop).
Context (target : list N → Prop).

Class RegionInterface : Prop := {
  ri_shape s cs : Holds s cs → Shape s;
  ri_zero s : Shape s → ∃ s', zero_contents s = Ok s' ∧ Holds s' [];
  ri_vertex cc m e Q v : J cc m e Q → v < n → ∃ skt, sketches cc !! v = Some skt ∧
    ∀ s cs, Holds s cs → ∃ s', range_merge skt cur_round 1 s = (s', Ok tt) ∧ Holds s' (cs ++ [v]);
  ri_merge s cs l cs' : Holds s cs → Holds l cs' → cs' ≠ [] →
    ∃ s', range_merge l cur_round 1 s = (s', Ok tt) ∧ Holds s' (cs ++ cs');
  ri_query cc m e Q s cs : J cc m e Q → Holds s cs → cs ≠ [] → target cs →
    ∃ cc' s' o, sample_supernode (cc, s) = ((cc', s'), o) ∧ Shape s' ∧
      match o with
      | Ok b => J cc' (m || b) e (cs :: Q)
      | Throw ex => out_of_samples ex ∧ J cc' m true (cs :: Q)
      | _ => False
      end
}.

(** The accounts of the shared merges: the vertices and the number of threads. *)
Context (total : N → list N) (K : N → N).

Definition relevant (g : N) : Prop :=
  K g ≠ 0 ∧ K g < umax 64 ∧ total g ≠ [] ∧ ∀ cs, cs ≡ₚ total g → target cs.

(** Programs the code produces: every query follows merges into an emptied
    sketch, every shared merge is followed by its query, every announcement
    by its merge, and errors are published last. *)
Fixpoint wf_prog (p : list act) (cs : list N) (fresh : bool) : Prop :=
  match p with
  | [] => False
  | AMerge c :: p => fresh = true ∧ c < n ∧ wf_prog p (cs ++ [c]) true
  | AQueryLocal :: p => fresh = true ∧ cs ≠ [] ∧ target cs ∧ wf_prog p cs false
  | AZero :: p => wf_prog p [] true
  | ANeed g k :: p => relevant g ∧ head p = Some (AMergeGlobal g) ∧ wf_prog p cs fresh
  | AMergeGlobal g :: p =>
      fresh = true ∧ cs ≠ [] ∧ relevant g ∧ head p = Some (AQueryGlobal g) ∧ wf_prog p cs fresh
  | AQueryGlobal g :: p => relevant g ∧ wf_prog p cs fresh
  | AReport :: p => p = []
  end.

(** * The invariant *)

Definition thread_ok (x : ghost_thread) : Prop :=
  (th_todo (gt_thread x) = [] ∨ wf_prog (th_todo (gt_thread x)) (gt_cs x) (gt_fresh x)) ∧
  Shape (th_sketch (gt_thread x)) ∧
  (gt_fresh x = true → Holds (th_sketch (gt_thread x)) (gt_cs x)) ∧
  (th_ready (gt_thread x) = true → ∃ g p, th_todo (gt_thread x) = AQueryGlobal g :: p).

(** Shared merge [g]: collecting, complete with one thread about to query it,
    or queried. [rem], [ann], [rdy]: what the threads have left for it. *)
Definition global_lists (g : N) (rem : list (list N)) (ann : list N) (rdy : list unit)
    (gd : GlobalMergeData) (Q : list (list N)) : Prop :=
  num_merge_done gd + N.of_nat (length rem) = K g ∧
  ((ann = [K g] ∧ num_merge_needed gd = umax 64) ∨ (ann = [] ∧ num_merge_needed gd = K g)) ∧
  ∃ merged_vs, merged_vs ++ concat rem ≡ₚ total g ∧
    ((rem ≠ [] ∧ rdy = [] ∧ Holds (g_sketch gd) merged_vs) ∨
     (rem = [] ∧ rdy = [tt] ∧ Holds (g_sketch gd) merged_vs) ∨
     (rem = [] ∧ rdy = [] ∧ ∃ cs, cs ∈ Q ∧ cs ≡ₚ total g)).

Definition global_ok (g : N) (gts : list ghost_thread) (gd : GlobalMergeData) (Q : list (list N)) : Prop :=
  global_lists g (gts ≫= rem_contributions g) (gts ≫= rem_announcements g) (gts ≫= ready_for g) gd Q.

(** Only exhausted samples are ever thrown. *)
Definition exns_ok (gts : list ghost_thread) (r_err : option exn) : Prop :=
  (∀ ex, r_err = Some ex → out_of_samples ex) ∧
  ∀ x ex, x ∈ gts → th_err (gt_thread x) = Some ex → out_of_samples ex.

Definition err_ok (gts : list ghost_thread) (r_err : option exn) (e : bool) : Prop :=
  exns_ok gts r_err ∧
  if e then r_err ≠ None ∨ ∃ x, x ∈ gts ∧ th_err (gt_thread x) ≠ None ∧ th_todo (gt_thread x) ≠ []
  else r_err = None ∧ ∀ x, x ∈ gts → th_err (gt_thread x) = None.

(** [L] are the local queries of the whole region. *)
Record region_inv (L : list (list N)) (gts : list ghost_thread) (Q : list (list N)) (e : bool)
    (r : region) : Prop := {
  inv_threads : r_threads r = gt_thread <$> gts;
  inv_thread : ∀ x, x ∈ gts → thread_ok x;
  inv_J : J (r_cc r) (r_modified r) e Q;
  inv_err : err_ok gts (r_err r) e;
  inv_shape : ∀ g gd, r_globals r !! g = Some gd → Shape (g_sketch gd);
  inv_global : ∀ g, if K g =? 0 then gts ≫= rem_contributions g = []
                    else ∃ gd, r_globals r !! g = Some gd ∧ global_ok g gts gd Q;
  inv_local : ∀ cs, cs ∈ L → cs ∈ Q ∨ cs ∈ (gts ≫= rem_queries)
}.

(** An announcement left to make comes with its contribution. *)
Lemma announce_contribute g p cs fresh : wf_prog p cs fresh →
  announcements g p ≠ [] → contributions g p cs ≠ [].
Proof using .
  revert cs fresh. induction p as [|a p IH]; intros cs fresh Hwf Ha; [done|].
  destruct a as [c| | |g' k|g'|g'|]; simpl in *.
  - destruct Hwf as (_ & _ & Hwf). by eapply IH.
  - destruct Hwf as (_ & _ & _ & Hwf). by eapply IH.
  - by eapply IH.
  - destruct Hwf as (_ & Hh & Hwf). destruct (N.eqb_spec g' g) as [->|Hne]; [|by eapply IH].
    destruct p as [|[] p]; simpl in Hh; try discriminate Hh. injection Hh as ->. simpl.
    by rewrite N.eqb_refl.
  - destruct Hwf as (_ & _ & _ & _ & Hwf). destruct (g' =? g); [done|]. by eapply IH.
  - destruct Hwf as (_ & Hwf). by eapply IH.
  - subst p. done.
Qed.

Lemma rem_announce_contribute g gts :
  (∀ x, x ∈ gts → thread_ok x) → gts ≫= rem_announcements g ≠ [] →
  gts ≫= rem_contributions g ≠ [].
Proof using .
  intros Hok Hne. destruct (gts ≫= rem_announcements g) as [|k l] eqn:E; [done|].
  assert (k ∈ gts ≫= rem_announcements g) as Hk by (rewrite E; left).
  apply list_elem_of_bind in Hk as (x & Hk & Hx). destruct (Hok x Hx) as [[Ht|Hwf] _].
  - unfold rem_announcements in Hk. rewrite Ht in Hk. by apply elem_of_nil in Hk.
  - pose proof (announce_contribute g _ _ _ Hwf) as Hc. unfold rem_announcements in Hk.
    intros Hnil. destruct (contributions g (th_todo (gt_thread x)) (gt_cs x)) as [|cs l'] eqn:Ec.
    + apply Hc; [|done]. intros Hn. rewrite Hn in Hk. by apply elem_of_nil in Hk.
    + assert (cs ∈ gts ≫= rem_contributions g) as Hin.
      { apply list_elem_of_bind. exists x. split; [|done]. unfold rem_contributions. rewrite Ec. left. }
      rewrite Hnil in Hin. by apply elem_of_nil in Hin.
Qed.

(** ** Frame *)

Lemma concat_perm {A} (ls ls' : list (list A)) : ls ≡ₚ ls' → concat ls ≡ₚ concat ls'.
Proof using .
  induction 1 as [|l ls ls' _ IH|l l' ls|ls ls' ls'' _ IH1 _ IH2]; simpl; [done|by rewrite IH| |by etrans].
  by rewrite !app_assoc, (Permutation_app_comm l').
Qed.

Lemma global_lists_perm g rem rem' ann ann' rdy rdy' gd Q Q' :
  rem ≡ₚ rem' → ann ≡ₚ ann' → rdy ≡ₚ rdy' → Q ⊆ Q' →
  global_lists g rem ann rdy gd Q → global_lists g rem' ann' rdy' gd Q'.
Proof using .
  intros Hr Ha Hd HQ (Hc & Hn & vs & Hvs & Hph). split; [by rewrite <-Hr|]. split.
  - destruct Hn as [[-> ?]|[-> ?]]; [left|right]; split; try done.
    + by apply Permutation_singleton_l in Ha.
    + by apply Permutation_nil_l in Ha.
  - exists vs. split; [by rewrite <-(concat_perm _ _ Hr)|].
    destruct Hph as [(H1 & -> & H3)|[(-> & -> & H3)|(-> & -> & cs & H3 & H4)]].
    + left. split_and!; [|by apply Permutation_nil_l in Hd|done]. intros ->. by apply Permutation_nil_r in Hr.
    + right; left. apply Permutation_nil_l in Hr as ->. by apply Permutation_singleton_l in Hd as ->.
    + right; right. apply Permutation_nil_l in Hr as ->. apply Permutation_nil_l in Hd as ->.
      split_and!; [done|done|]. exists cs. auto.
Qed.

Lemma elem_of_insert_or {A} (l : list A) (t : nat) y z : z ∈ <[t := y]> l → z = y ∨ z ∈ l.
Proof using .
  intros Hz. apply list_elem_of_lookup in Hz as [i Hi].
  apply list_lookup_insert_Some in Hi as [(_ & <- & _)|[_ Hi]]; [by left|right].
  by eapply list_elem_of_lookup_2.
Qed.

(** What an operation must establish: [touched] is the shared merge it works on. *)
Lemma step_inv L gts Q Q' e e' r r' (t : nat) x y touched :
  region_inv L gts Q e r → gts !! t = Some x → thread_ok y →
  r_threads r' = <[t := gt_thread y]> (r_threads r) →
  J (r_cc r') (r_modified r') e' Q' → Q ⊆ Q' →
  err_ok (<[t := y]> gts) (r_err r') e' →
  (∀ g gd, r_globals r' !! g = Some gd → Shape (g_sketch gd)) →
  (∀ g, Some g ≠ touched →
     r_globals r' !! g = r_globals r !! g ∧ rem_contributions g x = rem_contributions g y ∧
     rem_announcements g x = rem_announcements g y ∧ ready_for g x = ready_for g y) →
  (∀ g, Some g = touched → K g ≠ 0 ∧
     ∃ gd, r_globals r' !! g = Some gd ∧ global_ok g (<[t := y]> gts) gd Q') →
  (∀ cs, cs ∈ rem_queries x → cs ∈ Q' ∨ cs ∈ rem_queries y) →
  region_inv L (<[t := y]> gts) Q' e' r'.
Proof using .
  intros [It Ith IJ Ie Is Ig Il] Hx Hy Hthr HJ HQ Herr Hsh Hframe Htouch Hq.
  split; try done.
  - by rewrite Hthr, It, list_fmap_insert.
  - intros z [->|Hz]%elem_of_insert_or; auto.
  - intros g. destruct (decide (Some g = touched)) as [E|E].
    + destruct (Htouch g E) as [HK Hgd]. by destruct (N.eqb_spec (K g) 0).
    + destruct (Hframe g E) as (Egd & Ec & Ea & Er). specialize (Ig g).
      pose proof (bind_insert_same (rem_contributions g) gts t x y Hx Ec) as Pc.
      pose proof (bind_insert_same (rem_announcements g) gts t x y Hx Ea) as Pa.
      pose proof (bind_insert_same (ready_for g) gts t x y Hx Er) as Pr.
      destruct (K g =? 0); [by eapply perm_nil_eq|]. rewrite Egd.
      destruct Ig as (gd & Hgd & Hok). exists gd. split; [done|]. by eapply global_lists_perm.
  - intros cs Hcs. destruct (Il cs Hcs) as [|Hin]; [left; auto|].
    apply list_elem_of_bind in Hin as (z & Hin & Hz). apply list_elem_of_lookup in Hz as [i Hi].
    destruct (decide (i = t)) as [->|Hne].
    + rewrite Hi in Hx. injection Hx as ->. destruct (Hq cs Hin) as [?|Hiny]; [by left|right].
      apply list_elem_of_bind. exists y. split; [done|]. apply list_elem_of_lookup. exists t.
      apply list_lookup_insert_eq. by eapply lookup_lt_Some.
    + right. apply list_elem_of_bind. exists z. split; [done|]. apply list_elem_of_lookup. exists i.
      by rewrite list_lookup_insert_ne.
Qed.

(** The error flag when a thread moves without catching anything. *)
Lemma err_ok_move gts r_err e (t : nat) x y :
  err_ok gts r_err e → gts !! t = Some x → th_err (gt_thread y) = th_err (gt_thread x) →
  (th_todo (gt_thread y) ≠ [] ∨ (r_err ≠ None ∨ th_err (gt_thread x) = None)) →
  err_ok (<[t := y]> gts) r_err e.
Proof using .
  intros [[Hexr Hex] He] Hx Ey Hpub. assert (t < length gts)%nat as Ht by (by eapply lookup_lt_Some). split.
  { split; [done|]. intros z ex [->|Hz]%elem_of_insert_or; [|by apply Hex].
    rewrite Ey. apply Hex. by eapply list_elem_of_lookup_2. }
  destruct e; simpl in *.
  - destruct He as [|(z & Hz & Hze & Hzt)]; [by left|]. apply list_elem_of_lookup in Hz as [i Hi].
    destruct (decide (i = t)) as [->|Hne].
    + rewrite Hi in Hx. injection Hx as ->. destruct Hpub as [Hy|[?|?]]; [|by left|done]. right.
      exists y. split; [|by rewrite Ey]. apply list_elem_of_lookup. exists t. by apply list_lookup_insert_eq.
    + right. exists z. split; [|done]. apply list_elem_of_lookup. exists i. by rewrite list_lookup_insert_ne.
  - destruct He as [Hr Hall]. split; [done|]. intros z [->|Hz]%elem_of_insert_or; [|by apply Hall].
    rewrite Ey. apply Hall. by eapply list_elem_of_lookup_2.
Qed.

(** The flag when the thread that moves catches an exception. *)
Lemma err_ok_catch gts r_err e (t : nat) x y ex :
  err_ok gts r_err e → out_of_samples ex → gts !! t = Some x → th_err (gt_thread y) = Some ex → th_todo (gt_thread y) ≠ [] →
  err_ok (<[t := y]> gts) r_err true.
Proof using .
  intros [[Hexr Hex] _] Hoos Hx Ey Hy. split.
  { split; [done|]. intros z ex' [->|Hz]%elem_of_insert_or; [|by apply Hex]. rewrite Ey. by intros [= <-]. }
  right. exists y. split; [|by rewrite Ey]. apply list_elem_of_lookup. exists t.
  apply list_lookup_insert_eq. by eapply lookup_lt_Some.
Qed.

(** * Every operation keeps the invariant *)

Context (RI : RegionInterface).

Lemma wf_prog_nonempty p cs fresh : wf_prog p cs fresh → p ≠ [].
Proof using . by destruct p. Qed.

(** What an operation of thread [t] gives. *)
Definition steps_to (L : list (list N)) (gts : list ghost_thread) (t : nat) (rest : list act)
    (res : outcome region) : Prop :=
  ∃ r' y Q' e', res = Ok r' ∧ region_inv L (<[t := y]> gts) Q' e' r' ∧ th_todo (gt_thread y) = rest.

Lemma inv_lookup L gts Q e r (t : nat) x :
  region_inv L gts Q e r → gts !! t = Some x → r_threads r !! t = Some (gt_thread x) ∧ thread_ok x.
Proof using .
  intros HI Hx. rewrite (inv_threads _ _ _ _ _ HI), list_lookup_fmap, Hx. split; [done|].
  apply (inv_thread _ _ _ _ _ HI). by eapply list_elem_of_lookup_2.
Qed.

(** The thread's flag is down unless it is about to query. *)
Lemma not_ready x a rest : thread_ok x → th_todo (gt_thread x) = a :: rest →
  (∀ g, a ≠ AQueryGlobal g) → th_ready (gt_thread x) = false.
Proof using .
  intros (_ & _ & _ & Hr) Et Ha. destruct (th_ready (gt_thread x)); [|done].
  destruct (Hr eq_refl) as (g & p & E). rewrite Et in E. injection E as -> _. by destruct (Ha g).
Qed.

Lemma step_local L gts Q e r (t : nat) x a rest s cs fresh :
  region_inv L gts Q e r → gts !! t = Some x → th_todo (gt_thread x) = a :: rest →
  th_ready (gt_thread x) = false →
  wf_prog rest cs fresh → Shape s → (fresh = true → Holds s cs) →
  (∀ g, contributions g (a :: rest) (gt_cs x) = contributions g rest cs) →
  (∀ g, announcements g (a :: rest) = announcements g rest) →
  local_queries (a :: rest) (gt_cs x) = local_queries rest cs →
  steps_to L gts t rest
    (Ok (set_thread t (mkThread s (th_ready (gt_thread x)) (th_err (gt_thread x)) rest) r)).
Proof using .
  intros HI Hx Et Hr Hwf Hs Hh Hc Ha Hl.
  set (y := mkGhost (mkThread s (th_ready (gt_thread x)) (th_err (gt_thread x)) rest) cs fresh).
  eexists _, y, Q, e. split; [done|]. split; [|done].
  apply (step_inv L gts Q Q e e r _ t x y None HI Hx); try done.
  - split_and!; simpl; [by right|done|done|by rewrite Hr].
  - apply HI.
  - eapply err_ok_move; [apply HI|done|done|]. left. by eapply wf_prog_nonempty.
  - apply HI.
  - intros g _. unfold rem_contributions, rem_announcements, ready_for. simpl.
    by rewrite Et, Hr, Hc, Ha.
  - intros cs' Hcs. right. unfold rem_queries in *. simpl. by rewrite Et, Hl in Hcs.
Qed.

Lemma step_merge L gts Q e r (t : nat) x c rest :
  region_inv L gts Q e r → gts !! t = Some x → th_todo (gt_thread x) = AMerge c :: rest →
  steps_to L gts t rest (act_step cur_round t (gt_thread x) (AMerge c) rest r).
Proof using RI.
  intros HI Hx Et. destruct (inv_lookup _ _ _ _ _ _ _ HI Hx) as [_ Hok].
  pose proof (not_ready x _ _ Hok Et ltac:(done)) as Hr.
  destruct Hok as ([E|Hwf] & Hs & Hh & _); [by rewrite Et in E|]. rewrite Et in Hwf.
  destruct Hwf as (Hf & Hc & Hwf).
  destruct (ri_vertex _ _ _ _ c (inv_J _ _ _ _ _ HI) Hc) as (skt & Ek & Hm).
  destruct (Hm _ _ (Hh Hf)) as (s' & Es & Hs'). unfold act_step. rewrite Ek. simpl. rewrite Es.
  eapply step_local; [done|done|exact Et|done|exact Hwf|by eapply ri_shape|done|done|done|done].
Qed.

Lemma step_zero L gts Q e r (t : nat) x rest :
  region_inv L gts Q e r → gts !! t = Some x → th_todo (gt_thread x) = AZero :: rest →
  steps_to L gts t rest (act_step cur_round t (gt_thread x) AZero rest r).
Proof using RI.
  intros HI Hx Et. destruct (inv_lookup _ _ _ _ _ _ _ HI Hx) as [_ Hok].
  pose proof (not_ready x _ _ Hok Et ltac:(done)) as Hr.
  destruct Hok as ([E|Hwf] & Hs & Hh & _); [by rewrite Et in E|]. rewrite Et in Hwf.
  destruct (ri_zero _ Hs) as (s' & Es & Hs'). unfold act_step. rewrite Es. simpl.
  eapply step_local; [done|done|exact Et|done|exact Hwf|by eapply ri_shape|done|done|done|done].
Qed.

(** A sample by the code's [try] block. *)
Lemma try_sample_ok r e Q s cs err :
  J (r_cc r) (r_modified r) e Q → Holds s cs → cs ≠ [] → target cs →
  ∃ s' err' r' e', try_sample s err r = Ok (s', err', r') ∧ Shape s' ∧
    J (r_cc r') (r_modified r') e' (cs :: Q) ∧
    r_threads r' = r_threads r ∧ r_globals r' = r_globals r ∧ r_err r' = r_err r ∧
    ((e' = e ∧ err' = err) ∨ (e' = true ∧ ∃ ex, err' = Some ex ∧ out_of_samples ex)).
Proof using RI.
  intros HJ Hh Hne Ht. destruct (ri_query _ _ _ _ _ _ HJ Hh Hne Ht) as (cc' & s' & o & E & Hs & Ho).
  unfold try_sample. rewrite E. destruct o as [b|ex| |]; [| |done|done].
  - eexists _, _, _, e. split; [done|]. simpl. split_and!; try done. by left.
  - eexists _, _, _, true. split; [done|]. simpl. rewrite orb_false_r. destruct Ho as [Hoos Ho]. split_and!; try done. right. eauto.
Qed.

Lemma step_query_local L gts Q e r (t : nat) x rest :
  region_inv L gts Q e r → gts !! t = Some x → th_todo (gt_thread x) = AQueryLocal :: rest →
  steps_to L gts t rest (act_step cur_round t (gt_thread x) AQueryLocal rest r).
Proof using RI.
  intros HI Hx Et. destruct (inv_lookup _ _ _ _ _ _ _ HI Hx) as [_ Hok].
  pose proof (not_ready x _ _ Hok Et ltac:(done)) as Hr.
  destruct Hok as ([E|Hwf] & Hs & Hh & _); [by rewrite Et in E|]. rewrite Et in Hwf.
  destruct Hwf as (Hf & Hne & Ht & Hwf).
  destruct (try_sample_ok r e Q (th_sketch (gt_thread x)) (gt_cs x) (th_err (gt_thread x))
    (inv_J _ _ _ _ _ HI) (Hh Hf) Hne Ht) as (s' & err' & r' & e' & Es & Hs' & HJ & Eth & Egl & Eerr & He).
  unfold act_step. rewrite Es. simpl.
  set (y := mkGhost (mkThread s' (th_ready (gt_thread x)) err' rest) (gt_cs x) false).
  eexists _, y, (gt_cs x :: Q), e'. split; [done|]. split; [|done].
  apply (step_inv L gts Q _ e e' r _ t x y None HI Hx); try done.
  - split_and!; simpl; [by right|done|done|by rewrite Hr].
  - simpl. by rewrite Eth.
  - by apply list_subseteq_cons.
  - simpl. rewrite Eerr. destruct He as [[-> ->]|(-> & ex & -> & Hoos)].
    + eapply err_ok_move; [apply HI|done|done|]. left. by eapply wf_prog_nonempty.
    + eapply err_ok_catch; [apply HI|exact Hoos|done|done|]. by eapply wf_prog_nonempty.
  - simpl. rewrite Egl. apply HI.
  - intros g _. simpl. rewrite Egl. unfold rem_contributions, rem_announcements, ready_for. simpl.
    by rewrite Et, Hr.
  - intros cs Hcs. unfold rem_queries in *. rewrite Et in Hcs. simpl in Hcs.
    apply elem_of_cons in Hcs as [->|Hcs]; [left; left|by right].
Qed.

(** ** Operations on a shared merge *)

Lemma inv_relevant L gts Q e r g : region_inv L gts Q e r → relevant g →
  ∃ gd, r_globals r !! g = Some gd ∧ Shape (g_sketch gd) ∧ global_ok g gts gd Q.
Proof using .
  intros HI [HK _]. pose proof (inv_global _ _ _ _ _ HI g) as Hg.
  destruct (N.eqb_spec (K g) 0); [done|]. destruct Hg as (gd & Hgd & Hok).
  exists gd. split_and!; [done|by eapply HI|done].
Qed.

(** Thread [t] moves on, having changed shared merge [g] to [gd']. *)
Lemma step_global L gts Q e r (t : nat) x a rest y g gd gd' :
  region_inv L gts Q e r → gts !! t = Some x → th_todo (gt_thread x) = a :: rest →
  relevant g → r_globals r !! g = Some gd → thread_ok y →
  th_todo (gt_thread y) = rest → rest ≠ [] → th_err (gt_thread y) = th_err (gt_thread x) →
  gt_cs y = gt_cs x → Shape (g_sketch gd') →
  global_ok g (<[t := y]> gts) gd' Q →
  (∀ g', g' ≠ g → contributions g' (a :: rest) (gt_cs x) = contributions g' rest (gt_cs x)) →
  (∀ g', g' ≠ g → announcements g' (a :: rest) = announcements g' rest) →
  (∀ g', g' ≠ g → ready_for g' x = ready_for g' y) →
  local_queries (a :: rest) (gt_cs x) = local_queries rest (gt_cs x) →
  steps_to L gts t rest (Ok (set_thread t (gt_thread y) (set_global g gd' r))).
Proof using .
  intros HI Hx Et Hrel Hgd Hy Ety Hne Ee Ecs Hs Hok Hc Ha Hrdy Hl.
  eexists _, y, Q, e. split; [done|]. split; [|done].
  apply (step_inv L gts Q Q e e r _ t x y (Some g) HI Hx); try done.
  - apply HI.
  - eapply err_ok_move; [apply HI|done|done|]. left. by rewrite Ety.
  - intros g' gd2 Hg'. simpl in Hg'. destruct (decide (g' = g)) as [->|Hng].
    + rewrite lookupN_insert_eq in Hg' by (by eapply lookupN_lt_Some). by injection Hg' as <-.
    + rewrite lookupN_insert_ne in Hg' by done. by eapply HI.
  - intros g' Hg'. assert (g' ≠ g) as Hng by congruence. simpl.
    rewrite lookupN_insert_ne by done. split; [done|].
    unfold rem_contributions, rem_announcements. rewrite Ety, Et, Ecs.
    split_and!; [by apply Hc|by apply Ha|by apply Hrdy].
  - intros g' [= ->]. split; [apply Hrel|]. exists gd'. split; [|done]. simpl.
    apply lookupN_insert_eq. by eapply lookupN_lt_Some.
  - intros cs Hcs. right. unfold rem_queries in *. by rewrite Ety, Ecs, <-Hl, <-Et.
Qed.

Lemma step_need L gts Q e r (t : nat) x g k rest :
  region_inv L gts Q e r → gts !! t = Some x → th_todo (gt_thread x) = ANeed g k :: rest →
  steps_to L gts t rest (act_step cur_round t (gt_thread x) (ANeed g k) rest r).
Proof using .
  intros HI Hx Et. destruct (inv_lookup _ _ _ _ _ _ _ HI Hx) as [_ Hok].
  pose proof (not_ready x _ _ Hok Et ltac:(done)) as Hr.
  pose proof Hok as ([E|Hwf] & Hs & Hh & _); [by rewrite Et in E|]. rewrite Et in Hwf.
  destruct Hwf as (Hrel & Hhd & Hwf).
  destruct (inv_relevant _ _ _ _ _ g HI Hrel) as (gd & Hgd & Hsg & Hg).
  unfold act_step. rewrite Hgd. simpl.
  set (y := mkGhost (mkThread (th_sketch (gt_thread x)) (th_ready (gt_thread x))
              (th_err (gt_thread x)) rest) (gt_cs x) (gt_fresh x)).
  assert (rem_contributions g x = rem_contributions g y) as Ec.
  { unfold rem_contributions. by rewrite Et. }
  assert (ready_for g x = ready_for g y) as Er by (unfold ready_for; simpl; by rewrite Et, Hr).
  assert (rem_announcements g x = k :: rem_announcements g y) as Ea.
  { unfold rem_announcements. rewrite Et. simpl. by rewrite N.eqb_refl. }
  pose proof (bind_insert_same _ gts t x y Hx Ec) as Pc.
  pose proof (bind_insert_same _ gts t x y Hx Er) as Pr.
  pose proof (bind_insert (rem_announcements g) gts t x y [k] Hx) as Pa.
  eapply (step_global L gts Q e r t x (ANeed g k) rest y g gd); try done.
  - split_and!; simpl; [by right|done|done|by rewrite Hr].
  - by eapply wf_prog_nonempty.
  - destruct Hg as (Hcnt & Hn & Hph). eapply global_lists_perm; [exact Pc|reflexivity|exact Pr|done|].
    split; [done|]. split; [|done]. right.
    destruct Hn as [[Hn _]|[Hn _]]; rewrite Hn in Pa; specialize (Pa ltac:(by rewrite Ea)).
    + apply Permutation_singleton_l in Pa. simpl in Pa. injection Pa as -> Pa. split; [|done]. done.
    + by apply Permutation_nil_l in Pa.
  - intros g' Hne. simpl. destruct (N.eqb_spec g g'); [congruence|done].
  - intros g' Hne. unfold ready_for. simpl. by rewrite Et, Hr.
Qed.

Lemma contribution_left gts (t : nat) x g rest :
  gts !! t = Some x → th_todo (gt_thread x) = AMergeGlobal g :: rest →
  gts ≫= rem_contributions g ≠ [].
Proof using .
  intros Hx Et Hnil. assert (gt_cs x ∈ gts ≫= rem_contributions g) as Hin.
  { apply list_elem_of_bind. exists x. split; [|by eapply list_elem_of_lookup_2].
    unfold rem_contributions. rewrite Et. simpl. rewrite N.eqb_refl. left. }
  rewrite Hnil in Hin. by apply elem_of_nil in Hin.
Qed.

Lemma step_merge_global L gts Q e r (t : nat) x g rest :
  region_inv L gts Q e r → gts !! t = Some x → th_todo (gt_thread x) = AMergeGlobal g :: rest →
  steps_to L gts t rest (act_step cur_round t (gt_thread x) (AMergeGlobal g) rest r).
Proof using RI.
  intros HI Hx Et. destruct (inv_lookup _ _ _ _ _ _ _ HI Hx) as [_ Hok].
  pose proof (not_ready x _ _ Hok Et ltac:(done)) as Hr.
  pose proof Hok as ([E|Hwf] & Hs & Hh & _); [by rewrite Et in E|]. rewrite Et in Hwf.
  destruct Hwf as (Hf & Hne & Hrel & Hhd & Hwf).
  destruct (inv_relevant _ _ _ _ _ g HI Hrel) as (gd & Hgd & Hsg & Hcnt & Hn & vs & Hvs & Hph).
  destruct rest as [|a p]; simpl in Hhd; [done|]. injection Hhd as ->.
  set (cs := gt_cs x) in *. set (s := th_sketch (gt_thread x)) in *.
  destruct Hph as [(Hrem & Hrdy & Hold)|[(E & _)|(E & _)]];
    [|by destruct (contribution_left gts t x g _ Hx Et)..].
  destruct (ri_merge _ vs _ cs Hold (Hh Hf) Hne) as (s' & Em & Hs').
  unfold act_step. rewrite Hgd. simpl. unfold merge_global. fold s. rewrite Em.
  assert (num_merge_done gd + 1 ≤ K g) as Hle by (destruct (gts ≫= rem_contributions g); [done|simpl in Hcnt; lia]).
  pose proof Hrel as (HK0 & HKmax & _). unfold umax in HKmax.
  rewrite (wrap_small 64 (num_merge_done gd + 1)) by lia.
  assert (num_merge_done gd + 1 ≤ num_merge_needed gd) as Hle'.
  { destruct Hn as [[_ ->]|[_ ->]]; [unfold umax|]; lia. }
  unfold oassert. rewrite (proj2 (N.leb_le _ _) Hle'), orb_true_r. simpl.
  set (b := num_merge_needed gd <=? num_merge_done gd + 1).
  set (y := mkGhost (mkThread s b (th_err (gt_thread x)) (AQueryGlobal g :: p)) cs (gt_fresh x)).
  assert (thread_ok y) as Hoky.
  { split_and!; simpl; [by right|done|done|eauto]. }
  assert (gts ≫= rem_contributions g ≡ₚ cs :: (<[t := y]> gts ≫= rem_contributions g)) as Pc.
  { apply (bind_insert (rem_contributions g) gts t x y [cs] Hx).
    unfold rem_contributions. rewrite Et. simpl. by rewrite N.eqb_refl. }
  assert (gts ≫= rem_announcements g ≡ₚ <[t := y]> gts ≫= rem_announcements g) as Pa.
  { apply bind_insert_same with (x := x); [done|]. unfold rem_announcements. by rewrite Et. }
  assert (<[t := y]> gts ≫= ready_for g ≡ₚ if b then [tt] else []) as Pr.
  { rewrite (bind_insert_more (ready_for g) gts t x y (if b then [tt] else [])), Hrdy, app_nil_r; [done|done|].
    unfold ready_for. simpl. rewrite Hr, N.eqb_refl. by destruct b. }
  apply (step_global L gts Q e r t x (AMergeGlobal g) (AQueryGlobal g :: p) y g gd
    (mkGlobal s' (num_merge_needed gd) (num_merge_done gd + 1))); try done.
  - by eapply ri_shape.
  - apply (global_lists_perm g (<[t := y]> gts ≫= rem_contributions g) _ (gts ≫= rem_announcements g) _
      (if b then [tt] else []) _ _ Q Q); [done|done|by symmetry|done|].
    pose proof (Permutation_length Pc) as HL. simpl in HL.
    split; [simpl; lia|]. split; [done|]. exists (vs ++ cs). split.
    { rewrite <-Hvs, (concat_perm _ _ Pc). simpl. by rewrite <-app_assoc. }
    assert (b = true ↔ <[t := y]> gts ≫= rem_contributions g = []) as Hb.
    { unfold b. rewrite N.leb_le. destruct Hn as [[Ha ->]|[_ ->]].
      - assert (<[t := y]> gts ≫= rem_contributions g ≠ []) as Hne'.
        { apply rem_announce_contribute.
          - intros z [->|Hz]%elem_of_insert_or; [done|by eapply HI].
          - rewrite Ha in Pa. apply Permutation_singleton_l in Pa. by rewrite <-Pa. }
        split; [unfold umax; lia|done].
      - destruct (<[t := y]> gts ≫= rem_contributions g); simpl in HL; split; (done || lia). }
    simpl. destruct b; [right; left|left]; split_and!; try done; try (by apply Hb).
    intros E. apply Hb in E. done.
  - intros g' Hg'. simpl. destruct (N.eqb_spec g g'); [congruence|done].
  - intros g' Hg'. unfold ready_for. simpl. rewrite Hr. destruct b; [|done].
    destruct (N.eqb_spec g g'); [congruence|done].
Qed.

Lemma step_query_global L gts Q e r (t : nat) x g rest :
  region_inv L gts Q e r → gts !! t = Some x → th_todo (gt_thread x) = AQueryGlobal g :: rest →
  steps_to L gts t rest (act_step cur_round t (gt_thread x) (AQueryGlobal g) rest r).
Proof using RI.
  intros HI Hx Et. destruct (inv_lookup _ _ _ _ _ _ _ HI Hx) as [_ Hok].
  pose proof Hok as ([E|Hwf] & Hs & Hh & _); [by rewrite Et in E|]. rewrite Et in Hwf.
  destruct Hwf as (Hrel & Hwf). unfold act_step. destruct (th_ready (gt_thread x)) eqn:Hr.
  2: { pose proof (step_local L gts Q e r t x _ rest (th_sketch (gt_thread x)) _ _ HI Hx Et Hr Hwf Hs Hh)
         as Hst. rewrite Hr in Hst. by apply Hst. }
  destruct (inv_relevant _ _ _ _ _ g HI Hrel) as (gd & Hgd & Hsg & Hcnt & Hn & vs & Hvs & Hph).
  assert (ready_for g x = [tt]) as Erx by (unfold ready_for; by rewrite Hr, Et, N.eqb_refl).
  assert (tt ∈ gts ≫= ready_for g) as Hin.
  { apply list_elem_of_bind. exists x. rewrite Erx. split; [left|by eapply list_elem_of_lookup_2]. }
  destruct Hph as [(_ & E & _)|[(Hrem & Hrdy & Hold)|(_ & E & _)]];
    [by rewrite E in Hin; apply elem_of_nil in Hin| |by rewrite E in Hin; apply elem_of_nil in Hin].
  rewrite Hrem in Hvs. simpl in Hvs. rewrite app_nil_r in Hvs. destruct Hrel as (HK0 & _ & Htne & Htgt).
  destruct (try_sample_ok r e Q (g_sketch gd) vs (th_err (gt_thread x)) (inv_J _ _ _ _ _ HI) Hold)
    as (s' & err' & r' & e' & Es & Hs' & HJ & Eth & Egl & Eerr & He); [|by apply Htgt|].
  { intros ->. by apply Permutation_nil_l in Hvs. }
  rewrite Hgd. simpl. rewrite Es. simpl.
  set (y := mkGhost (mkThread (th_sketch (gt_thread x)) false err' rest) (gt_cs x) (gt_fresh x)).
  assert (∀ g', contributions g' (AQueryGlobal g :: rest) (gt_cs x) = contributions g' rest (gt_cs x)) as Ec by done.
  eexists _, y, (vs :: Q), e'. split; [done|]. split; [|done].
  apply (step_inv L gts Q _ e e' r _ t x y (Some g) HI Hx); try done.
  - split_and!; simpl; [by right|done|done|done].
  - simpl. by rewrite Eth.
  - by apply list_subseteq_cons.
  - simpl. rewrite Eerr. destruct He as [[-> ->]|(-> & ex & -> & Hoos)].
    + eapply err_ok_move; [apply HI|done|done|]. left. by eapply wf_prog_nonempty.
    + eapply err_ok_catch; [apply HI|exact Hoos|done|done|]. by eapply wf_prog_nonempty.
  - intros g' gd2 Hg'. simpl in Hg'. rewrite Egl in Hg'. destruct (decide (g' = g)) as [->|Hng].
    + rewrite lookupN_insert_eq in Hg' by (by eapply lookupN_lt_Some). by injection Hg' as <-.
    + rewrite lookupN_insert_ne in Hg' by done. by eapply HI.
  - intros g' Hg'. assert (g' ≠ g) as Hng by congruence. simpl. rewrite Egl, lookupN_insert_ne by done.
    unfold rem_contributions, rem_announcements, ready_for. simpl. rewrite Et, Hr. simpl.
    split_and!; try done. destruct (N.eqb_spec g g'); [congruence|done].
  - intros g' [= ->]. split; [done|]. eexists. split.
    { simpl. rewrite Egl. apply lookupN_insert_eq. by eapply lookupN_lt_Some. }
    pose proof (bind_insert_same (rem_contributions g) gts t x y Hx) as Pc.
    pose proof (bind_insert_same (rem_announcements g) gts t x y Hx) as Pa.
    pose proof (bind_insert (ready_for g) gts t x y [tt] Hx ltac:(by rewrite Erx)) as Pr.
    rewrite Hrdy in Pr. apply Permutation_singleton_l in Pr. injection Pr as Pr.
    unfold global_ok. rewrite <-Pr.
    apply (global_lists_perm g (gts ≫= rem_contributions g) _ (gts ≫= rem_announcements g) _ [] [] _ (vs :: Q) _).
    + apply Pc. unfold rem_contributions. by rewrite Et.
    + apply Pa. unfold rem_announcements. by rewrite Et.
    + done.
    + done.
    + split; [done|]. split; [done|]. exists vs. rewrite Hrem. simpl. rewrite app_nil_r. split; [done|].
      right; right. split_and!; [done|done|]. exists vs. split; [left|done].
  - intros cs Hcs. right. unfold rem_queries in *. by rewrite Et in Hcs.
Qed.

Lemma step_report L gts Q e r (t : nat) x rest :
  region_inv L gts Q e r → gts !! t = Some x → th_todo (gt_thread x) = AReport :: rest →
  steps_to L gts t rest (act_step cur_round t (gt_thread x) AReport rest r).
Proof using .
  intros HI Hx Et. destruct (inv_lookup _ _ _ _ _ _ _ HI Hx) as [_ Hok].
  pose proof (not_ready x _ _ Hok Et ltac:(done)) as Hr.
  pose proof Hok as ([E|Hwf] & Hs & Hh & _); [by rewrite Et in E|]. rewrite Et in Hwf. simpl in Hwf.
  subst rest. unfold act_step.
  set (y := mkGhost (mkThread (th_sketch (gt_thread x)) (th_ready (gt_thread x))
              (th_err (gt_thread x)) []) (gt_cs x) (gt_fresh x)).
  eexists _, y, Q, e. split; [done|]. split; [|done].
  apply (step_inv L gts Q Q e e r _ t x y None HI Hx); try done.
  - split_and!; simpl; [by left|done|done|by rewrite Hr].
  - by destruct (th_err (gt_thread x)).
  - destruct (th_err (gt_thread x)); apply HI.
  - pose proof (inv_err _ _ _ _ _ HI) as He.
    destruct (th_err (gt_thread x)) as [ex|] eqn:Eex; simpl.
    + assert (x ∈ gts) as Hxin by (by eapply list_elem_of_lookup_2). destruct He as [[Hexr Hex] He].
      assert (out_of_samples ex) as Hoos by (by eapply Hex). split.
      { split; [by intros ex' [= <-]|]. intros z ex' [->|Hz]%elem_of_insert_or; [|by apply Hex].
        simpl. by intros [= <-]. }
      destruct e; [by left|]. destruct He as [_ He]. by rewrite He in Eex.
    + eapply err_ok_move; [exact He|done|by rewrite Eex|by right; right].
  - intros g gd Hgd. eapply (inv_shape _ _ _ _ _ HI g). by destruct (th_err (gt_thread x)).
  - intros g _. unfold rem_contributions, rem_announcements, ready_for. simpl. rewrite Et, Hr.
    split; [|done]. by destruct (th_err (gt_thread x)).
  - intros cs Hcs. right. unfold rem_queries in *. simpl. by rewrite Et in Hcs.
Qed.

(** ** The region *)

Definition todos (gts : list ghost_thread) : list (list act) := (λ x, th_todo (gt_thread x)) <$> gts.

Lemma alter_fix {A} (f : A → A) (l : list A) (i : nat) :
  (∀ x, l !! i = Some x → f x = x) → alter f i l = l.
Proof using .
  intros H. apply list_eq. intros j. destruct (decide (j = i)) as [->|Hne].
  - rewrite list_lookup_alter_eq. destruct (l !! i) as [x|] eqn:E; [|done]. simpl. by rewrite H.
  - by rewrite list_lookup_alter_ne.
Qed.

Lemma region_step_ok L gts Q e r t : region_inv L gts Q e r →
  ∃ r' gts' Q' e', region_step cur_round t r = Ok r' ∧ region_inv L gts' Q' e' r' ∧
    todos gts' = alter tail t (todos gts).
Proof using RI.
  intros HI. unfold region_step. rewrite (inv_threads _ _ _ _ _ HI), list_lookup_fmap.
  destruct (gts !! t) as [x|] eqn:Hx; simpl.
  2: { exists r, gts, Q, e. split_and!; [done|done|]. symmetry. apply alter_fix.
       intros p Hp. unfold todos in Hp. by rewrite list_lookup_fmap, Hx in Hp. }
  destruct (th_todo (gt_thread x)) as [|a rest] eqn:Et.
  { exists r, gts, Q, e. split_and!; [done|done|]. symmetry. apply alter_fix.
    intros p Hp. unfold todos in Hp. rewrite list_lookup_fmap, Hx in Hp. injection Hp as <-. by rewrite Et. }
  assert (steps_to L gts t rest (act_step cur_round t (gt_thread x) a rest r)) as (r' & y & Q' & e' & E & HI' & Ey).
  { destruct a; [eapply step_merge|eapply step_query_local|eapply step_zero|eapply step_need
                |eapply step_merge_global|eapply step_query_global|eapply step_report]; done. }
  exists r', (<[t := y]> gts), Q', e'. split_and!; [done|done|]. unfold todos.
  rewrite list_fmap_insert, Ey. apply list_eq. intros i.
  destruct (decide (i = t)) as [->|Hne].
  - rewrite list_lookup_alter_eq, list_lookup_fmap, Hx. simpl. rewrite Et.
    apply list_lookup_insert_eq. rewrite length_fmap. by eapply lookup_lt_Some.
  - by rewrite list_lookup_insert_ne, list_lookup_alter_ne by done.
Qed.

Lemma region_run_ok L sched gts Q e r : region_inv L gts Q e r →
  ∃ r' gts' Q' e', ofold (region_step cur_round) sched r = Ok r' ∧ region_inv L gts' Q' e' r' ∧
    todos gts' = foldl (λ ps t, alter tail t ps) (todos gts) sched.
Proof using RI.
  revert gts Q e r. induction sched as [|t sched IH]; intros gts Q e r HI.
  - by exists r, gts, Q, e.
  - destruct (region_step_ok L gts Q e r t HI) as (r1 & gts1 & Q1 & e1 & E1 & HI1 & Et1).
    destruct (IH _ _ _ _ HI1) as (r2 & gts2 & Q2 & e2 & E2 & HI2 & Et2).
    exists r2, gts2, Q2, e2. simpl. rewrite E1. simpl. split_and!; [done|done|]. by rewrite Et2, Et1.
Qed.

(** ** Completeness of a schedule *)

Lemma lookup_run_tails {A} (sched : list nat) (ps : list (list A)) (i : nat) :
  foldl (λ ps t, alter tail t ps) ps sched !! i =
  drop (length (filter (.= i) sched)) <$> ps !! i.
Proof using .
  revert ps. induction sched as [|t sched IH]; intros ps; simpl.
  - destruct (ps !! i); simpl; by rewrite ?drop_0.
  - rewrite IH, filter_cons. case_decide as E.
    + subst t. rewrite list_lookup_alter_eq. destruct (ps !! i) as [p|]; [|done]. simpl.
      f_equal. destruct p as [|a p]; simpl; [by rewrite drop_nil|done].
    + by rewrite list_lookup_alter_ne.
Qed.

Lemma complete_schedule_count sched programs (i : nat) p : programs !! i = Some p →
  (length p ≤ length (filter (.= i) (complete_schedule sched programs)))%nat.
Proof using .
  intros Hp. unfold complete_schedule. rewrite filter_app, length_app.
  set (ls := imap (λ t p, replicate (length p) t) programs).
  assert (ls !! i = Some (replicate (length p) i)) as Hl.
  { unfold ls. by rewrite list_lookup_imap, Hp. }
  rewrite <-(take_drop_middle ls i _ Hl), concat_app, filter_app, length_app. simpl.
  rewrite filter_app, length_app.
  assert (length (filter (.= i) (replicate (length p) i)) = length p) as ->; [|lia].
  clear. induction (length p) as [|k IH]; [done|]. simpl. rewrite filter_cons, decide_True by done.
  simpl. by rewrite IH.
Qed.

Lemma complete_schedule_done sched (programs : list (list act)) :
  Forall (.= []) (foldl (λ ps t, alter tail t ps) programs (complete_schedule sched programs)).
Proof using .
  apply Forall_lookup. intros i q Hq. rewrite lookup_run_tails in Hq.
  apply fmap_Some in Hq as (p & Hp & ->). apply drop_ge. by apply complete_schedule_count.
Qed.

(** ** The theorem *)

(** What the programs must add up to. *)
Record programs_ok (programs : list (list act)) (num_globals : nat) : Prop := {
  po_wf p : p ∈ programs → wf_prog p [] true;
  po_global g : K g ≠ 0 → g < N.of_nat num_globals;
  po_count g : N.of_nat (length (programs ≫= λ p, contributions g p [])) = K g;
  po_total g : K g ≠ 0 → concat (programs ≫= λ p, contributions g p []) ≡ₚ total g;
  po_announce g : K g ≠ 0 → programs ≫= announcements g = [K g]
}.

Lemma bind_fmap_list {A B C} (f : A → B) (g : B → list C) l : (f <$> l) ≫= g = l ≫= λ x, g (f x).
Proof using . induction l as [|x l IH]; [done|]. cbn. f_equal. exact IH. Qed.

Lemma bind_all_nil {A B} (f : A → list B) (l : list A) : (∀ x, x ∈ l → f x = []) → l ≫= f = [].
Proof using .
  induction l as [|x l IH]; intros H; [done|]. simpl. rewrite (H x) by left.
  apply IH. intros y Hy. apply H. by right.
Qed.

Lemma region_init programs l0 cc globals :
  programs_ok programs (length globals) → Holds l0 [] → J cc false false [] →
  (∀ gd, gd ∈ globals → Holds (g_sketch gd) [] ∧ num_merge_needed gd = umax 64 ∧ num_merge_done gd = 0) →
  let gts := (λ p, mkGhost (mkThread l0 false None p) [] true) <$> programs in
  region_inv (programs ≫= λ p, local_queries p []) gts [] false
    (mkRegion cc globals ((λ p, mkThread l0 false None p) <$> programs) false None).
Proof using RI.
  intros [Hwf Hg Hc Ht Ha] Hl HJ Hgl gts.
  assert (∀ x, x ∈ gts → ∃ p, p ∈ programs ∧ x = mkGhost (mkThread l0 false None p) [] true) as Hgts.
  { intros x Hx. apply list_elem_of_fmap in Hx as (p & -> & Hp). eauto. }
  assert (∀ gd g, globals !! (g : N) = Some gd → gd ∈ globals) as Hin.
  { intros gd g Hgd. by eapply list_elem_of_lookup_2. }
  split; cbn [r_cc r_modified r_threads r_globals r_err].
  - unfold gts. by rewrite <-list_fmap_compose.
  - intros x Hx. destruct (Hgts x Hx) as (p & Hp & ->).
    split_and!; simpl; [by right; apply Hwf|by eapply ri_shape|done|done].
  - done.
  - split; [split; [done|]|split; [done|]].
    + intros x ex Hx. by destruct (Hgts x Hx) as (p & Hp & ->).
    + intros x Hx. by destruct (Hgts x Hx) as (p & Hp & ->).
  - intros g gd Hgd. eapply ri_shape. by apply Hgl, (Hin _ g).
  - intros g. assert (gts ≫= rem_contributions g = programs ≫= λ p, contributions g p []) as Ec
      by apply bind_fmap_list.
    assert (gts ≫= rem_announcements g = programs ≫= announcements g) as Ea.
    { apply (bind_fmap_list (λ p, mkGhost (mkThread l0 false None p) [] true) (rem_announcements g)). }
    assert (gts ≫= ready_for g = []) as Er.
    { apply bind_all_nil. intros x Hx. by destruct (Hgts x Hx) as (p & Hp & ->). }
    specialize (Hc g). destruct (N.eqb_spec (K g) 0) as [E|E].
    + rewrite Ec. destruct (programs ≫= _); [done|simpl in Hc; lia].
    + destruct (lookupN_lt_is_Some globals g) as [gd Hgd]; [by apply Hg|]. exists gd. split; [done|].
      destruct (Hgl gd (Hin _ _ Hgd)) as (Hh & Hn & Hd).
      unfold global_ok. rewrite Ec, Ea, Er. split; [lia|]. split; [left; by rewrite Ha|].
      exists []. split; [by apply Ht|]. left. split_and!; [|done|done]. intros E'. rewrite E' in Hc. simpl in Hc. lia.
  - intros cs Hcs. right. unfold gts. by rewrite bind_fmap_list.
Qed.

Theorem region_complete sched programs l0 cc globals :
  programs_ok programs (length globals) → Holds l0 [] → J cc false false [] →
  (∀ gd, gd ∈ globals → Holds (g_sketch gd) [] ∧ num_merge_needed gd = umax 64 ∧ num_merge_done gd = 0) →
  ∃ r Q e, ofold (region_step cur_round) (complete_schedule sched programs)
      (mkRegion cc globals ((λ p, mkThread l0 false None p) <$> programs) false None) = Ok r ∧
    J (r_cc r) (r_modified r) e Q ∧ (r_err r = None ↔ e = false) ∧ (∀ ex, r_err r = Some ex → out_of_samples ex) ∧
    (∀ cs, cs ∈ (programs ≫= λ p, local_queries p []) → cs ∈ Q) ∧
    (∀ g, K g ≠ 0 → ∃ cs, cs ∈ Q ∧ cs ≡ₚ total g) ∧
    (∀ g gd, r_globals r !! g = Some gd → Shape (g_sketch gd)).
Proof using RI.
  intros Hok Hl HJ Hgl. pose proof (region_init _ _ _ _ Hok Hl HJ Hgl) as HI.
  destruct (region_run_ok _ (complete_schedule sched programs) _ _ _ _ HI) as (r & gts & Q & e & E & HI' & Et).
  assert (∀ x, x ∈ gts → th_todo (gt_thread x) = []) as Hdone.
  { intros x Hx. assert (th_todo (gt_thread x) ∈ todos gts) as Hin by (by apply (list_elem_of_fmap_2 (λ x, th_todo (gt_thread x)))).
    rewrite Et in Hin. pose proof (complete_schedule_done sched programs) as Hd.
    assert (todos ((λ p, mkGhost (mkThread l0 false None p) [] true) <$> programs) = programs) as Ep.
    { unfold todos. rewrite <-list_fmap_compose. simpl. apply list_fmap_id. }
    rewrite Ep in Hin. rewrite Forall_forall in Hd. by apply Hd. }
  exists r, Q, e. destruct HI' as [It Ith IJ [Hexn Ie] Is Ig Il]. split_and!; [done|done|..|done]; [|apply Hexn|..].
  - destruct e; simpl in Ie.
    + split; [|done]. intros Hn. destruct Ie as [|(x & Hx & _ & Hne)]; [done|]. by destruct Hne; apply Hdone.
    + split; [done|]. intros _. apply Ie.
  - intros cs Hcs. destruct (Il cs Hcs) as [|Hin]; [done|]. rewrite bind_all_nil in Hin; [by apply elem_of_nil in Hin|].
    intros x Hx. unfold rem_queries. by rewrite Hdone.
  - intros g HK. specialize (Ig g). destruct (N.eqb_spec (K g) 0); [done|].
    destruct Ig as (gd & _ & _ & _ & vs & _ & Hph).
    assert (gts ≫= rem_contributions g = []) as Er.
    { apply bind_all_nil. intros x Hx. unfold rem_contributions. by rewrite Hdone. }
    assert (gts ≫= ready_for g = []) as Erd.
    { apply bind_all_nil. intros x Hx. unfold ready_for. rewrite Hdone by done. by destruct (th_ready _). }
    destruct Hph as [(Hne & _)|[(_ & Hne & _)|(_ & _ & H')]]; [done|by rewrite Erd in Hne|done].
Qed.
End Machine.
