(* ===== verification/Programs.v ===== *)
(** The programs of a round's threads add up.

    When the merge instructions are the vertices sorted by root ([instr_ok]),
    the program of every thread is a function of its chunk ([spec_prog],
    lemma [thread_program_ok]): a component inside one chunk is queried
    locally; one that spans chunks is merged by each of them into the shared
    sketch of the last, and the first announces how many there are. The programs
    satisfy the accounts file Region asks for ([programs_accounts]). *)
From stdpp Require Import sorting.
From S2P Require Import Prelude Platform Partition Sketch Dsu CCAlg MergeInstr Round Region.

Open Scope N_scope.

Definition root_le (a b : MergeInstr) : Prop := instr_root a ≤ instr_root b.

(** [mi] lists the vertices below [n], each with its root, by increasing root. *)
Record instr_ok (n : N) (rt : N → N) (mi : list MergeInstr) : Prop := {
  io_perm : instr_child <$> mi ≡ₚ seqN 0 n;
  io_root x : x ∈ mi → instr_root x = rt (instr_child x);
  io_bound x : x ∈ mi → instr_root x < n;
  io_sorted : StronglySorted root_le mi
}.

Lemma io_length n rt mi : instr_ok n rt mi → length mi = N.to_nat n.
Proof.
  intros Hok. rewrite <-(length_fmap instr_child), (Permutation_length (io_perm _ _ _ Hok)).
  apply length_seqN.
Qed.

(** ** Sorted lists *)

(** The elements satisfying a downward closed predicate are a prefix. *)
Lemma sorted_prefix (Q : MergeInstr → Prop) `{∀ x, Decision (Q x)} l :
  StronglySorted root_le l → (∀ a b, root_le a b → Q b → Q a) →
  ∀ (i : nat) x, l !! i = Some x → Q x ↔ (i < length (filter Q l))%nat.
Proof.
  intros Hs HQ. induction Hs as [|a l Hs IH Hall]; intros i x Hx; [done|].
  rewrite filter_cons. rewrite Forall_forall in Hall. destruct i as [|i]; simpl in Hx.
  - injection Hx as ->. case_decide; simpl; [split; [lia|done]|]. split; [done|].
    intros Hlt. exfalso. destruct (filter Q l) as [|y l'] eqn:E; [simpl in Hlt; lia|].
    assert (y ∈ filter Q l) as Hy by (rewrite E; left). apply list_elem_of_filter in Hy as [HQy Hy].
    apply H0, (HQ _ y); [by apply Hall|done].
  - specialize (IH i x Hx). case_decide as Ha; simpl; [rewrite IH; lia|].
    assert (filter Q l = []) as E.
    { destruct (filter Q l) as [|y l'] eqn:E; [done|].
      assert (y ∈ filter Q l) as Hy by (rewrite E; left). apply list_elem_of_filter in Hy as [HQy Hy].
      exfalso. apply Ha, (HQ _ y); [by apply Hall|done]. }
    rewrite E in *. rewrite IH. simpl. lia.
Qed.

Lemma sorted_lookup l (i j : nat) x y : StronglySorted root_le l →
  l !! i = Some x → l !! j = Some y → (i ≤ j)%nat → instr_root x ≤ instr_root y.
Proof.
  intros Hs. revert i j. induction Hs as [|a l Hs IH Hall]; intros i j Hx Hy Hij; [done|].
  destruct i as [|i], j as [|j]; simpl in *; [simplify_eq; done| |lia|eapply IH; [done..|lia]].
  injection Hx as ->. rewrite Forall_forall in Hall. apply Hall. by eapply list_elem_of_lookup_2.
Qed.

(** * Where a root's instructions are *)

Section Layout.
Context (n T : N) (rt : N → N) (mi : list MergeInstr).
Context (Hmi : instr_ok n rt mi) `{PT : Partitioned n T}.

(** First index of root [rho], one past its last, and the part an index is in. *)
Definition first_index (rho : N) : N := N.of_nat (length (filter (λ x, instr_root x < rho) mi)).
Definition end_index (rho : N) : N := N.of_nat (length (filter (λ x, instr_root x ≤ rho) mi)).
Definition part (i : N) : N := from_outcome (get_partition_idx n i T).

Definition occurs (rho : N) : Prop := first_index rho < end_index rho.
Definition first_part (rho : N) : N := part (first_index rho).
Definition last_part (rho : N) : N := part (end_index rho - 1).

Lemma lt_first_index (i : N) x rho : mi !! i = Some x → instr_root x < rho ↔ i < first_index rho.
Proof using n rt Hmi.
  intros Hx. unfold first_index.
  rewrite (sorted_prefix (λ x, instr_root x < rho) mi (io_sorted _ _ _ Hmi)) with (i := N.to_nat i); [lia| |done].
  unfold root_le. intros a b Hab Hb. lia.
Qed.

Lemma lt_end_index (i : N) x rho : mi !! i = Some x → instr_root x ≤ rho ↔ i < end_index rho.
Proof using n rt Hmi.
  intros Hx. unfold end_index.
  rewrite (sorted_prefix (λ x, instr_root x ≤ rho) mi (io_sorted _ _ _ Hmi)) with (i := N.to_nat i); [lia| |done].
  unfold root_le. intros a b Hab Hb. lia.
Qed.

Lemma root_index (i : N) x rho : mi !! i = Some x →
  instr_root x = rho ↔ first_index rho ≤ i ∧ i < end_index rho.
Proof using n rt Hmi.
  intros Hx. rewrite <-(lt_end_index i x rho Hx), N.le_ngt, <-(lt_first_index i x rho Hx). lia.
Qed.

Lemma mi_length : N.of_nat (length mi) = n.
Proof using rt Hmi. rewrite (io_length _ _ _ Hmi). lia. Qed.

Lemma mi_lookup (i : N) : i < n → is_Some (mi !! i).
Proof using rt Hmi. intros Hi. apply lookupN_lt_is_Some. rewrite mi_length. lia. Qed.

Lemma end_index_le rho : end_index rho ≤ n.
Proof using rt Hmi.
  unfold end_index. rewrite <-mi_length. pose proof (length_filter (λ x, instr_root x ≤ rho) mi). lia.
Qed.

Lemma part_ok i : i < n → part i < T ∧ pt_bound (part i) ≤ i ∧ i < pt_bound (part i + 1).
Proof using PT.
  intros Hi. unfold part. destruct (pt_idx i Hi) as (t & -> & Ht & Hb). simpl. done.
Qed.

Lemma part_get i : i < n → get_partition_idx n i T = Ok (part i).
Proof using PT. intros Hi. unfold part. by destruct (pt_idx i Hi) as (t & -> & _). Qed.

Lemma part_eq t i : t < T → pt_bound t ≤ i → i < pt_bound (t + 1) → part i = t.
Proof using PT.
  intros Ht H1 H2. assert (i < n) as Hi.
  { pose proof (pt_bound_le n T (t + 1) ltac:(lia)). lia. }
  destruct (part_ok i Hi) as (Hp & Hb). by apply (pt_unique n T _ _ i).
Qed.

Lemma part_le i j : i ≤ j → j < n → part i ≤ part j.
Proof using PT.
  intros Hij Hj. destruct (part_ok i ltac:(lia)) as (Hpi & Hi1 & Hi2).
  destruct (part_ok j Hj) as (Hpj & Hj1 & Hj2). apply N.nlt_ge. intros Hlt.
  pose proof (pt_mono n T (part j + 1) (part i) ltac:(lia) ltac:(lia)). lia.
Qed.

Lemma part_lt_iff t i : t < T → i < n → part i < t ↔ i < pt_bound t.
Proof using PT.
  intros Ht Hi. destruct (part_ok i Hi) as (Hp & H1 & H2). split; intros Hlt.
  - pose proof (pt_mono n T (part i + 1) t ltac:(lia) ltac:(lia)). lia.
  - apply N.nle_gt. intros Hle. pose proof (pt_mono n T t (part i) ltac:(lia) ltac:(lia)). lia.
Qed.

Lemma first_le_last rho : occurs rho → first_part rho ≤ last_part rho ∧ last_part rho < T.
Proof using rt Hmi PT.
  unfold occurs. intros Ho. pose proof (end_index_le rho). split.
  - apply part_le; lia.
  - apply part_ok. lia.
Qed.

(** * Chunks *)

Definition chunk (t : N) : list MergeInstr :=
  take (N.to_nat (pt_bound (t + 1) - pt_bound t)) (drop (N.to_nat (pt_bound t)) mi).

Lemma lookup_chunk t (j : N) : t < T → j < pt_bound (t + 1) - pt_bound t →
  chunk t !! j = mi !! (pt_bound t + j).
Proof using .
  intros Ht Hj. unfold chunk. rewrite !lookupN_eq, lookup_take_lt, lookup_drop by lia.
  f_equal. lia.
Qed.

Lemma length_chunk t : t < T → N.of_nat (length (chunk t)) = pt_bound (t + 1) - pt_bound t.
Proof using rt Hmi.
  intros Ht. unfold chunk. rewrite length_take, length_drop.
  pose proof (pt_bound_le n T (t + 1) ltac:(lia)). pose proof mi_length. lia.
Qed.

Lemma elem_of_chunk t x : t < T → x ∈ chunk t ↔
  ∃ i : N, pt_bound t ≤ i ∧ i < pt_bound (t + 1) ∧ mi !! i = Some x.
Proof using rt Hmi.
  intros Ht. rewrite list_elem_of_lookup. split.
  - intros (j & Hj). pose proof (lookup_lt_Some _ _ _ Hj) as Hlt. pose proof (length_chunk t Ht).
    exists (pt_bound t + N.of_nat j). split_and!; [lia|lia|].
    rewrite <-lookup_chunk by lia. by rewrite lookupN_eq, Nat2N.id.
  - intros (i & H1 & H2 & Hi). exists (N.to_nat (i - pt_bound t)).
    change (chunk t !! (i - pt_bound t) = Some x). rewrite lookup_chunk by lia.
    by replace (pt_bound t + (i - pt_bound t)) with i by lia.
Qed.

(** A root occurs in the chunks from its first part to its last. *)
Lemma chunk_root t rho : t < T →
  (∃ x, x ∈ chunk t ∧ instr_root x = rho) ↔ occurs rho ∧ first_part rho ≤ t ∧ t ≤ last_part rho.
Proof using rt Hmi PT.
  intros Ht. setoid_rewrite (elem_of_chunk t _ Ht). unfold occurs, first_part, last_part.
  pose proof (end_index_le rho) as He. split.
  - intros (x & (i & H1 & H2 & Hx) & Hr). apply (root_index i x rho Hx) in Hr as [Hf Hl].
    rewrite <-(part_eq t i Ht H1 H2). split_and!; [lia|apply part_le; lia..].
  - intros (Ho & Hf & Hl).
    set (i := N.max (first_index rho) (pt_bound t)).
    assert (first_index rho < pt_bound (t + 1)) as Hf'.
    { destruct (part_ok (first_index rho)) as (Hp & _ & H2); [lia|].
      pose proof (pt_mono n T (part (first_index rho) + 1) (t + 1) ltac:(lia) ltac:(lia)). lia. }
    assert (pt_bound t ≤ end_index rho - 1) as Hl'.
    { apply N.nlt_ge. intros Hlt. apply (part_lt_iff t) in Hlt; [lia|done|lia]. }
    pose proof (pt_lt t Ht) as Hlt.
    destruct (mi_lookup i) as [x Hx]; [lia|]. exists x. split.
    + exists i. split_and!; [lia|lia|done].
    + apply (root_index i x rho Hx). lia.
Qed.

Lemma chunk_nonempty t : t < T → ∃ x c, chunk t = x :: c ∧ mi !! (pt_bound t) = Some x.
Proof using rt Hmi.
  intros Ht. pose proof (length_chunk t Ht) as HL. pose proof (pt_lt t Ht).
  destruct (chunk t) as [|x c] eqn:E; [simpl in HL; lia|]. exists x, c. split; [done|].
  pose proof (lookup_chunk t 0 Ht ltac:(lia)) as H0. rewrite E, N.add_0_r in H0. by symmetry.
Qed.

(** The chunks make up the instructions. *)
Lemma concat_chunks_to k : k ≤ T →
  concat (chunk <$> seqN 0 k) = take (N.to_nat (pt_bound k)) mi.
Proof using .
  induction k as [|k IH] using N.peano_ind; intros Hk; [by rewrite pt_first|].
  rewrite seqN_S_end, fmap_app, concat_app, IH by lia. simpl. rewrite app_nil_r, N.add_0_l.
  unfold chunk. rewrite <-N.add_1_r. pose proof (pt_lt k ltac:(lia)).
  rewrite take_take_drop. f_equal. lia.
Qed.

Lemma concat_chunks : concat (chunk <$> seqN 0 T) = mi.
Proof using rt Hmi.
  rewrite concat_chunks_to, pt_last by done. apply take_ge. rewrite (io_length _ _ _ Hmi). lia.
Qed.

(** * The binary search *)

Context `{P : Platform}.

Lemma child_bound (i : N) x : mi !! i = Some x → instr_child x < n.
Proof using rt Hmi.
  intros Hx. assert (instr_child x ∈ seqN 0 n) as Hin.
  { rewrite <-(io_perm _ _ _ Hmi). apply list_elem_of_fmap_2. by eapply list_elem_of_lookup_2. }
  apply elem_of_seqN in Hin. lia.
Qed.

Lemma instr_lt_target (i : N) x rho : mi !! i = Some x →
  instr_lt x (mkInstr rho (umax 32)) = (i <? end_index rho).
Proof using rt Hmi PT.
  intros Hx. pose proof (child_bound i x Hx). pose proof pt_range as (Hn & _).
  pose proof (lt_end_index i x rho Hx) as He.
  unfold instr_lt. cbn [instr_root instr_child]. unfold umax.
  bool_cases; (done || lia).
Qed.

(** The search ends at the end of the root's instructions, or at the last one. *)
Lemma find_last_loop_ok rho : ∀ fuel lo hi,
  (N.to_nat hi - N.to_nat lo ≤ fuel)%nat → lo ≤ hi → hi ≤ n - 1 →
  lo ≤ end_index rho → (hi = n - 1 ∨ end_index rho ≤ hi) →
  ∃ m, find_last_loop fuel mi (mkInstr rho (umax 32)) lo hi = Ok m ∧
    m ≤ n - 1 ∧ m ≤ end_index rho ∧ (m = n - 1 ∨ end_index rho ≤ m).
Proof using rt Hmi PT.
  pose proof pt_range as (Hn & _).
  induction fuel as [|fuel IH]; intros lo hi Hfuel Hle Hhi Hlo Hend; cbn [find_last_loop];
    (destruct (N.ltb_spec lo hi); [|exists lo; replace hi with lo in Hend by lia; split_and!; (done || lia)]).
  - lia.
  - rewrite (usub_small 32 hi lo) by lia.
    pose proof (N.Div0.div_le_upper_bound (hi - lo) 2 (hi - lo) ltac:(lia)) as Hd1.
    pose proof (N.div_lt (hi - lo) 2 ltac:(lia) ltac:(lia)) as Hd2.
    set (h := (hi - lo) / 2) in *. clearbody h. rewrite (wrap_small 32 (lo + h)) by lia.
    destruct (mi_lookup (lo + h)) as [x Hx]; [lia|]. rewrite Hx. simpl.
    rewrite (instr_lt_target _ x rho Hx). destruct (N.ltb_spec (lo + h) (end_index rho)) as [Hb|Hb].
    + rewrite (wrap_small 32 (lo + h + 1)) by lia. apply IH; lia.
    + apply IH; lia.
Qed.

Lemma find_last_ok rho hint : occurs rho → hint < end_index rho →
  find_last_partition_of_root mi rho hint T = Ok (last_part rho).
Proof using rt Hmi PT.
  intros Ho Hh. pose proof pt_range as (Hn & HT). pose proof (end_index_le rho) as He.
  unfold find_last_partition_of_root, instr_size. rewrite mi_length.
  rewrite (usub_small 64 n 1), (wrap_small 32 (n - 1)) by lia.
  destruct (find_last_loop_ok rho (length mi) hint (n - 1)) as (m & -> & Hm1 & Hm2 & Hm3);
    [rewrite (io_length _ _ _ Hmi); lia|lia|lia|lia|by left|].
  destruct (mi_lookup m) as [x Hx]; [lia|]. simpl. rewrite Hx. simpl.
  pose proof (root_index m x rho Hx) as Hroot. unfold occurs in Ho.
  assert ((if negb (instr_root x =? rho) then usub 32 m 1 else m) = end_index rho - 1) as ->.
  { destruct (N.eqb_spec (instr_root x) rho) as [E|E]; simpl.
    - apply Hroot in E. lia.
    - rewrite usub_small by lia. destruct (decide (m = end_index rho)) as [->|]; [done|].
      destruct E. apply Hroot. lia. }
  assert (find_last_asserts mi rho (end_index rho - 1) = Ok tt) as ->.
  { unfold find_last_asserts, instr_size. rewrite mi_length. destruct NDEBUG eqn:End; [done|].
    destruct (mi_lookup (end_index rho - 1)) as [y Hy]; [lia|]. rewrite Hy. simpl.
    pose proof (root_index _ y rho Hy) as Hry. unfold oassert.
    rewrite (proj2 (N.eqb_eq (instr_root y) rho)) by (apply Hry; lia). rewrite orb_true_r. simpl.
    destruct (N.eqb_spec (end_index rho - 1) (n - 1)) as [|Hne]; [done|].
    rewrite (wrap_small 32 (end_index rho - 1 + 1)) by lia.
    replace (end_index rho - 1 + 1) with (end_index rho) by lia.
    destruct (mi_lookup (end_index rho)) as [z Hz]; [lia|]. rewrite Hz. simpl.
    rewrite (proj2 (N.ltb_lt _ _)); [done|]. apply N.nle_gt.
    rewrite (lt_end_index _ z rho Hz). lia. }
  simpl. rewrite (wrap_small 32 n) by lia. rewrite part_get by lia. simpl.
  rewrite wrap_small; [done|]. unfold last_part. pose proof (part_ok (end_index rho - 1) ltac:(lia)). lia.
Qed.
(** * The program of a thread *)

(** What thread [t] does with its vertices of root [rho] once it has them all. *)
Definition finish (t rho : N) : list act :=
  if first_part rho =? last_part rho then [AQueryLocal]
  else (if first_part rho =? t then [ANeed (last_part rho) (last_part rho - first_part rho + 1)] else []) ++
       [AMergeGlobal (last_part rho); AQueryGlobal (last_part rho)].

(** The program over the rest [c] of the chunk, [cur] being the current root. *)
Fixpoint spec_prog (t cur : N) (c : list MergeInstr) : list act :=
  match c with
  | [] => finish t cur ++ [AReport]
  | x :: c => (if instr_root x =? cur then [] else finish t cur ++ [AZero]) ++
              AMerge (instr_child x) :: spec_prog t (instr_root x) c
  end.

Lemma root_in_chunk (i : N) x t : t < T → pt_bound t ≤ i → i < pt_bound (t + 1) → mi !! i = Some x →
  occurs (instr_root x) ∧ first_part (instr_root x) ≤ t ∧ t ≤ last_part (instr_root x) ∧
  first_index (instr_root x) ≤ i ∧ i < end_index (instr_root x).
Proof using rt Hmi PT.
  intros Ht H1 H2 Hx.
  assert (∃ y, y ∈ chunk t ∧ instr_root y = instr_root x) as Hy.
  { exists x. split; [|done]. apply elem_of_chunk; [done|]. eauto. }
  apply chunk_root in Hy; [|done]. destruct (root_index i x (instr_root x) Hx) as [Hr _].
  specialize (Hr eq_refl). tauto.
Qed.

(** Another root follows in the chunk: the current root ends here. *)
Lemma finish_flush (i : N) x y t : t < T → pt_bound t ≤ i → i + 1 < pt_bound (t + 1) →
  mi !! i = Some x → mi !! (i + 1) = Some y → instr_root y ≠ instr_root x →
  finish t (instr_root x) = flush_acts t (first_part (instr_root x) <? t) ∧
  first_part (instr_root y) = t.
Proof using rt Hmi PT.
  intros Ht H1 H2 Hx Hy Hne.
  destruct (root_in_chunk i x t Ht H1 ltac:(lia) Hx) as (Ho & Hf & Hl & Hf1 & Hl1).
  destruct (root_in_chunk (i + 1) y t Ht ltac:(lia) H2 Hy) as (Hoy & _ & _ & Hf2 & Hl2).
  pose proof (root_index (i + 1) y (instr_root x) Hy) as Hrx.
  pose proof (root_index i x (instr_root y) Hx) as Hry.
  assert (end_index (instr_root x) = i + 1) as Ee.
  { destruct (decide (i + 1 < end_index (instr_root x))); [|lia]. destruct Hne. apply Hrx. lia. }
  assert (first_index (instr_root y) = i + 1) as Ef.
  { destruct (decide (i < first_index (instr_root y))); [lia|]. destruct Hne. symmetry. apply Hry. lia. }
  assert (last_part (instr_root x) = t) as El.
  { unfold last_part. rewrite Ee. apply part_eq; lia. }
  split; [|unfold first_part; rewrite Ef; apply part_eq; lia].
  unfold finish, flush_acts. rewrite El. bool_cases; try done; try lia.
Qed.

Lemma thread_iteration_ok t (i : N) y cur fl acts : mi !! i = Some y →
  thread_iteration mi t i (cur, fl, acts) =
  Ok (instr_root y, if instr_root y =? cur then fl else false,
      (if instr_root y =? cur then acts else acts ++ flush_acts t fl ++ [AZero]) ++
      [AMerge (instr_child y)]).
Proof using . intros Hy. unfold thread_iteration. rewrite Hy. simpl. by destruct (_ =? _). Qed.

Lemma thread_loop_ok t : t < T → ∀ (k i cur : N) acts,
  i + k = pt_bound (t + 1) → pt_bound t ≤ i →
  (∃ x, mi !! (N.max (pt_bound t) (i - 1)) = Some x ∧ instr_root x = cur) →
  ∃ acts' z, ofold (thread_iteration mi t) (seqN i k) (cur, first_part cur <? t, acts) =
      Ok (instr_root z, first_part (instr_root z) <? t, acts ++ acts') ∧
    mi !! (N.max (pt_bound t) (pt_bound (t + 1) - 1)) = Some z ∧
    acts' ++ finish t (instr_root z) ++ [AReport] =
      spec_prog t cur (drop (N.to_nat (i - pt_bound t)) (chunk t)).
Proof using rt Hmi PT.
  intros Ht. pose proof (length_chunk t Ht) as HL. pose proof (pt_lt t Ht) as Hlt.
  pose proof (pt_bound_le n T (t + 1) ltac:(lia)) as Hle.
  induction k as [|k IH] using N.peano_ind; intros i cur acts Hik Hi (x & Hx & <-).
  - exists [], x. rewrite N.add_0_r in Hik. subst i. rewrite drop_ge by lia.
    rewrite seqN_nil, app_nil_r. done.
  - rewrite seqN_cons. cbn [ofold]. destruct (mi_lookup i) as [y Hy]; [lia|].
    rewrite (thread_iteration_ok t i y) by done. cbn [mbind outcome_bind].
    assert (drop (N.to_nat (i - pt_bound t)) (chunk t) =
            y :: drop (N.to_nat (N.succ i - pt_bound t)) (chunk t)) as ->.
    { replace (N.to_nat (N.succ i - pt_bound t)) with (S (N.to_nat (i - pt_bound t))) by lia.
      apply drop_S. change (chunk t !! (i - pt_bound t) = Some y). rewrite lookup_chunk by lia.
      by replace (pt_bound t + (i - pt_bound t)) with i by lia. }
    cbn [spec_prog]. destruct (N.eqb_spec (instr_root y) (instr_root x)) as [E|Hne]; cbn [negb app].
    + destruct (IH (N.succ i) (instr_root y) (acts ++ [AMerge (instr_child y)]) ltac:(lia) ltac:(lia))
        as (acts' & z & E1 & E2 & E3); [exists y; split; [|done]; rewrite <-Hy; f_equal; lia|].
      rewrite <-E. exists (AMerge (instr_child y) :: acts'), z.
      rewrite <-app_assoc in E1. split; [exact E1|]. split; [done|]. simpl. by rewrite E3.
    + assert (i ≠ pt_bound t) as Hne'.
      { intros ->. rewrite N.max_l in Hx by lia. congruence. }
      rewrite N.max_r in Hx by lia.
      destruct (finish_flush (i - 1) x y t Ht ltac:(lia) ltac:(lia) Hx) as [Ef Et];
        [rewrite <-Hy; f_equal; lia|done|].
      destruct (IH (N.succ i) (instr_root y)
          ((acts ++ flush_acts t (first_part (instr_root x) <? t) ++ [AZero]) ++ [AMerge (instr_child y)])
          ltac:(lia) ltac:(lia))
        as (acts' & z & E1 & E2 & E3); [exists y; split; [|done]; rewrite <-Hy; f_equal; lia|].
      rewrite Et, N.ltb_irrefl in E1. rewrite E1.
      exists (flush_acts t (first_part (instr_root x) <? t) ++ AZero :: AMerge (instr_child y) :: acts'), z.
      split; [by rewrite <-!app_assoc; simpl; rewrite <-?app_assoc|]. split; [done|].
      rewrite Ef, <-E3, <-!app_assoc. done.
Qed.

Definition prog (t : N) : list act :=
  match chunk t with [] => [] | x :: _ => spec_prog t (instr_root x) (chunk t) end.

(** The root before the chunk, and the one after, continue into it. *)
Lemma enters_left t x : t < T → 0 < pt_bound t → mi !! (pt_bound t) = Some x →
  ∃ a, mi !! (pt_bound t - 1) = Some a ∧
    (instr_root a =? instr_root x) = (first_part (instr_root x) <? t).
Proof using rt Hmi PT.
  intros Ht H0 Hx. pose proof (pt_lt t Ht) as Hlt. pose proof (pt_bound_le n T (t + 1) ltac:(lia)).
  destruct (mi_lookup (pt_bound t - 1)) as [a Ha]; [lia|]. exists a. split; [done|].
  destruct (root_in_chunk (pt_bound t) x t Ht ltac:(lia) Hlt Hx) as (Ho & Hf & _ & Hf1 & Hl1).
  pose proof (root_index _ a (instr_root x) Ha) as Hr.
  pose proof (end_index_le (instr_root x)) as He.
  pose proof (part_lt_iff t (first_index (instr_root x)) Ht ltac:(lia)) as Hp.
  unfold first_part. destruct (N.eqb_spec (instr_root a) (instr_root x)) as [E|E]; symmetry.
  - apply N.ltb_lt, Hp. apply Hr in E. lia.
  - apply N.ltb_ge, N.nlt_ge. intros Hc. apply Hp in Hc. apply E, Hr. lia.
Qed.

Lemma exits_right t x : t < T → pt_bound (t + 1) < n → mi !! (pt_bound (t + 1) - 1) = Some x →
  ∃ b, mi !! (pt_bound (t + 1)) = Some b ∧
    (instr_root x =? instr_root b) = (t <? last_part (instr_root x)).
Proof using rt Hmi PT.
  intros Ht H0 Hx. pose proof (pt_lt t Ht) as Hlt.
  destruct (mi_lookup (pt_bound (t + 1))) as [b Hb]; [lia|]. exists b. split; [done|].
  destruct (root_in_chunk (pt_bound (t + 1) - 1) x t Ht ltac:(lia) ltac:(lia) Hx) as (Ho & _ & _ & Hf1 & Hl1).
  assert (t + 1 < T) as Ht1.
  { apply N.nle_gt. intros Hc. assert (t + 1 = T) as E by lia. rewrite E, pt_last in H0. lia. }
  pose proof (root_index _ b (instr_root x) Hb) as Hr. pose proof (end_index_le (instr_root x)) as He.
  pose proof (part_lt_iff (t + 1) (end_index (instr_root x) - 1) Ht1 ltac:(lia)) as Hp.
  unfold last_part. destruct (N.eqb_spec (instr_root x) (instr_root b)) as [E|E]; symmetry.
  - symmetry in E. apply Hr in E. apply N.ltb_lt, N.nle_gt. intros Hc.
    assert (part (end_index (instr_root x) - 1) < t + 1) as Hc' by lia. apply Hp in Hc'. lia.
  - apply N.ltb_ge, N.nlt_ge. intros Hc.
    assert (¬ part (end_index (instr_root x) - 1) < t + 1) as Hc' by lia. rewrite Hp in Hc'.
    apply E. symmetry. apply Hr. lia.
Qed.

Lemma thread_program_ok t : t < T → thread_program mi n t T = Ok (prog t).
Proof using rt Hmi PT.
  intros Ht. pose proof (pt_lt t Ht) as Hlt. pose proof pt_range as (Hn & HT).
  pose proof (pt_bound_le n T (t + 1) ltac:(lia)) as Hle.
  destruct (chunk_nonempty t Ht) as (x & c & Ec & Hx).
  unfold thread_program. rewrite (pt_get t Ht). cbn [mbind outcome_bind].
  rewrite (proj2 (N.leb_le _ _)) by lia. unfold oassert at 1. rewrite orb_true_r. cbn [mbind outcome_bind].
  destruct (root_in_chunk (pt_bound t) x t Ht ltac:(lia) Hlt Hx) as (_ & Hf & _).
  assert ((if 0 <? pt_bound t then
       a ← of_option (mi !! usub 32 (pt_bound t) 1); b ← of_option (mi !! pt_bound t);
       mret (instr_root a =? instr_root b) else mret false) = Ok (first_part (instr_root x) <? t)) as ->.
  { destruct (N.ltb_spec 0 (pt_bound t)) as [H0|H0].
    - destruct (enters_left t x Ht H0 Hx) as (a & Ha & Er). rewrite usub_small, Ha, Hx by lia.
      simpl. by rewrite Er.
    - assert (t = 0) as ->. { apply N.nlt_ge in H0. destruct (decide (t = 0)); [done|].
        pose proof (pt_lt 0 ltac:(lia)). pose proof (pt_mono n T (0 + 1) t ltac:(lia) ltac:(lia)). lia. }
      rewrite (proj2 (N.ltb_ge _ 0)) by lia. done. }
  destruct (thread_loop_ok t Ht (pt_bound (t + 1) - pt_bound t) (pt_bound t) (instr_root x) [])
    as (acts & z & E1 & Hz & E3); [lia|lia|by rewrite N.max_l by lia; exists x|].
  rewrite N.max_r in Hz by lia.
  destruct (root_in_chunk (pt_bound (t + 1) - 1) z t Ht ltac:(lia) ltac:(lia) Hz) as (Ho & Hfz & Hlz & Hf1 & Hl1).
  assert ((if pt_bound (t + 1) <? n then
       a ← of_option (mi !! usub 32 (pt_bound (t + 1)) 1); b ← of_option (mi !! pt_bound (t + 1));
       mret (instr_root a =? instr_root b) else mret false) = Ok (t <? last_part (instr_root z))) as ->.
  { destruct (N.ltb_spec (pt_bound (t + 1)) n) as [H0|H0].
    - destruct (exits_right t z Ht H0 Hz) as (b & Hb & Er). rewrite usub_small, Hb, Hz by lia.
      simpl. by rewrite Er.
    - destruct (first_le_last _ Ho) as [_ Hl]. assert (t + 1 = T) as Et.
      { apply N.le_antisymm; [lia|]. apply N.nlt_ge. intros Hc. pose proof (pt_part_lt n T (t + 1) Hc). lia. }
      rewrite (proj2 (N.ltb_ge _ _)) by lia. done. }
  rewrite Hx. cbn [of_option mbind outcome_bind]. rewrite E1. cbn [mbind outcome_bind app].
  rewrite N.sub_diag in E3. change (N.to_nat 0) with 0%nat in E3. rewrite drop_0 in E3. unfold prog. rewrite Ec in *. rewrite <-E3.
  assert ((t <? last_part (instr_root z)) || (first_part (instr_root z) <? t) =
    negb (first_part (instr_root z) =? last_part (instr_root z))) as -> by (bool_cases; done || lia).
  unfold finish. destruct (N.eqb_spec (first_part (instr_root z)) (last_part (instr_root z))) as [Efl|Hne];
    cbn [negb]; [done|].
  rewrite find_last_ok by (done || lia). cbn [mbind outcome_bind].
  destruct (first_le_last _ Ho) as [_ Hl]. rewrite usub_small, wrap_small by lia.
  unfold mret, outcome_ret. do 2 f_equal. rewrite <-!app_assoc. f_equal.
  bool_cases; simpl; (done || lia || congruence).
Qed.

(** * The accounts of the programs *)

(** The children of root [rho] in a list of instructions. *)
Definition sel (rho : N) (l : list MergeInstr) : list N :=
  instr_child <$> filter (λ x, instr_root x = rho) l.

Lemma sel_cons rho x l :
  sel rho (x :: l) = (if instr_root x =? rho then [instr_child x] else []) ++ sel rho l.
Proof using .
  unfold sel. rewrite filter_cons. destruct (N.eqb_spec (instr_root x) rho); [by rewrite decide_True|].
  by rewrite decide_False.
Qed.

Lemma sel_nil rho l : (∀ x, x ∈ l → instr_root x ≠ rho) → sel rho l = [].
Proof using .
  induction l as [|x l IH]; intros H; [done|]. rewrite sel_cons.
  destruct (N.eqb_spec (instr_root x) rho) as [E|]; [by destruct (H x (list_elem_of_here _ _))|].
  apply IH. intros y Hy. apply H. by right.
Qed.

Lemma sel_not_nil rho l : sel rho l ≠ [] ↔ ∃ x, x ∈ l ∧ instr_root x = rho.
Proof using .
  unfold sel. split.
  - intros Hne. destruct (filter _ l) as [|x l'] eqn:E; [done|]. exists x.
    assert (x ∈ filter (λ x, instr_root x = rho) l) as Hx by (rewrite E; left).
    apply list_elem_of_filter in Hx. tauto.
  - intros (x & Hx & Hr) E. apply fmap_nil_inv in E.
    assert (x ∈ filter (λ x, instr_root x = rho) l) as Hin by (by apply list_elem_of_filter).
    rewrite E in Hin. by apply elem_of_nil in Hin.
Qed.

Lemma sel_app rho l1 l2 : sel rho (l1 ++ l2) = sel rho l1 ++ sel rho l2.
Proof using . unfold sel. by rewrite filter_app, fmap_app. Qed.

Lemma sel_concat rho ls : sel rho (concat ls) = ls ≫= sel rho.
Proof using . induction ls as [|l ls IH]; [done|].
  change (sel rho (l ++ concat ls) = sel rho l ++ (ls ≫= sel rho)). by rewrite sel_app, IH. Qed.

(** The roots of a chunk with their children. *)
Fixpoint groups (cur : N) (acc : list N) (c : list MergeInstr) : list (N * list N) :=
  match c with
  | [] => [(cur, acc)]
  | x :: c => if instr_root x =? cur then groups cur (acc ++ [instr_child x]) c
              else (cur, acc) :: groups (instr_root x) [instr_child x] c
  end.

Fixpoint group_prog (t : N) (gs : list (N * list N)) : list act :=
  match gs with
  | [] => [AReport]
  | (rho, cs) :: gs =>
      (AMerge <$> cs) ++ finish t rho ++ (match gs with [] => [] | _ => [AZero] end) ++ group_prog t gs
  end.

Lemma groups_cons c cur acc : ∃ g gs, groups cur acc c = g :: gs.
Proof using .
  revert cur acc. induction c as [|x c IH]; intros cur acc; cbn [groups]; [by eexists _, _|].
  destruct (_ =? _); [apply IH|by eexists _, _].
Qed.

Lemma spec_prog_groups t c cur acc :
  (AMerge <$> acc) ++ spec_prog t cur c = group_prog t (groups cur acc c).
Proof using .
  revert cur acc. induction c as [|x c IH]; intros cur acc; [done|]. cbn [spec_prog groups].
  destruct (instr_root x =? cur) eqn:E.
  - apply N.eqb_eq in E. rewrite <-IH, fmap_app, E, <-app_assoc. done.
  - cbn [group_prog]. rewrite <-IH, <-!app_assoc. do 2 f_equal.
    destruct (groups_cons c (instr_root x) [instr_child x]) as (g & gs & ->). done.
Qed.

Lemma groups_elem c cur acc rho cs :
  StronglySorted root_le c → (∀ x, x ∈ c → cur ≤ instr_root x) →
  (rho, cs) ∈ groups cur acc c →
  (rho = cur ∧ cs = acc ++ sel cur c) ∨ (rho ≠ cur ∧ cs = sel rho c ∧ cs ≠ []).
Proof using .
  intros Hs. revert cur acc. induction Hs as [|x c Hs IH Hall]; intros cur acc Hge; cbn [groups].
  - intros ?%list_elem_of_singleton. simplify_eq. left. by rewrite app_nil_r.
  - rewrite Forall_forall in Hall. pose proof (Hge x (list_elem_of_here _ _)) as Hx.
    rewrite !sel_cons. destruct (N.eqb_spec (instr_root x) cur) as [E|Hne].
    + intros Hin. apply IH in Hin as [[-> ->]|(Hr & -> & Hn)].
      * left. by rewrite <-app_assoc.
      * right. split_and!; [done| |done]. destruct (N.eqb_spec (instr_root x) rho); [congruence|done].
      * intros y Hy. apply Hge. by right.
    + assert (sel cur c = []) as Ec.
      { apply sel_nil. intros y Hy. specialize (Hall y Hy). unfold root_le in Hall. lia. }
      intros [[= -> ->]|Hin]%elem_of_cons.
      { left. split; [done|]. by rewrite Ec, app_nil_r. }
      right. apply IH in Hin as [[-> ->]|(Hr & -> & Hn)].
      * rewrite N.eqb_refl. done.
      * split_and!; [intros ->; by rewrite Ec in Hn| |done].
        destruct (N.eqb_spec (instr_root x) rho); [congruence|done].
      * done.
Qed.

Lemma groups_select c cur acc rho : acc ≠ [] →
  StronglySorted root_le c → (∀ x, x ∈ c → cur ≤ instr_root x) →
  groups cur acc c ≫= (λ '(r, cs), if r =? rho then [cs] else []) =
  match (if cur =? rho then acc else []) ++ sel rho c with [] => [] | l => [l] end.
Proof using .
  intros Hacc Hs. revert cur acc Hacc. induction Hs as [|x c Hs IH Hall]; intros cur acc Hacc Hge; cbn [groups].
  - cbn. destruct (N.eqb_spec cur rho); cbn; [|done]. rewrite app_nil_r. by destruct acc.
  - rewrite Forall_forall in Hall. pose proof (Hge x (list_elem_of_here _ _)) as Hx.
    rewrite sel_cons. destruct (N.eqb_spec (instr_root x) cur) as [E|Hne].
    + rewrite IH; [|by destruct acc|intros y Hy; apply Hge; by right]. rewrite E.
      destruct (N.eqb_spec cur rho); [|done]. by rewrite <-app_assoc.
    + cbn [mbind list_bind]. rewrite IH by done.
      destruct (N.eqb_spec cur rho) as [->|Hr]; [|done].
      assert (sel rho c = []) as Ec.
      { apply sel_nil. intros y Hy. specialize (Hall y Hy). unfold root_le in Hall. lia. }
      destruct (N.eqb_spec (instr_root x) rho); [congruence|]. rewrite Ec. cbn. rewrite !app_nil_r.
      by destruct acc.
Qed.

(** A root whose instructions span several chunks is merged in the global
    sketch of its last chunk. *)
Definition shared (rho : N) : bool := negb (first_part rho =? last_part rho).

Definition groot (g : N) : N :=
  match mi !! pt_bound g with Some x => instr_root x | None => 0 end.
Definition K (g : N) : N :=
  if (g <? T) && shared (groot g) && (last_part (groot g) =? g)
  then last_part (groot g) - first_part (groot g) + 1 else 0.
Definition total (g : N) : list N := sel (groot g) mi.
Definition target (cs : list N) : Prop := ∃ rho, occurs rho ∧ cs ≡ₚ sel rho mi.

Lemma occurs_sel rho : occurs rho ↔ sel rho mi ≠ [].
Proof using rt Hmi.
  rewrite sel_not_nil. unfold occurs. pose proof (end_index_le rho). split.
  - intros Ho. destruct (mi_lookup (first_index rho)) as [x Hx]; [lia|]. exists x.
    split; [by eapply list_elem_of_lookup_2|]. apply (root_index _ x rho Hx). lia.
  - intros (x & Hx & Hr). apply list_elem_of_lookup in Hx as [i Hi].
    assert (mi !! N.of_nat i = Some x) as Hi' by (by rewrite lookupN_eq, Nat2N.id).
    apply (root_index _ x rho Hi') in Hr. lia.
Qed.

Lemma sel_root_occurs rho l : (∀ x, x ∈ l → x ∈ mi) → sel rho l ≠ [] → occurs rho.
Proof using rt Hmi.
  intros Hl (x & Hx & Hr)%sel_not_nil. apply occurs_sel, sel_not_nil. eauto.
Qed.

Lemma groot_last rho : occurs rho → shared rho = true → groot (last_part rho) = rho.
Proof using rt Hmi PT.
  intros Ho Hs. unfold shared in Hs. apply negb_true_iff, N.eqb_neq in Hs.
  destruct (first_le_last rho Ho) as [Hfl HT]. pose proof (end_index_le rho) as He.
  unfold occurs in Ho. pose proof (pt_part_lt n T (last_part rho) HT) as Hb.
  destruct (mi_lookup (pt_bound (last_part rho)) Hb) as [x Hx]. unfold groot. rewrite Hx.
  apply (root_index _ x rho Hx). split.
  - pose proof (part_lt_iff (last_part rho) (first_index rho) HT ltac:(lia)) as Hp.
    fold (first_part rho) in Hp. lia.
  - destruct (part_ok (end_index rho - 1)) as (_ & Hp & _); [lia|]. fold (last_part rho) in Hp. lia.
Qed.

Lemma K_shared rho : occurs rho → shared rho = true →
  K (last_part rho) = last_part rho - first_part rho + 1.
Proof using rt Hmi PT.
  intros Ho Hs. unfold K. rewrite groot_last, Hs, N.eqb_refl by done.
  destruct (first_le_last rho Ho) as [_ HT]. by rewrite (proj2 (N.ltb_lt _ _) HT).
Qed.

Lemma K_groot g : K g ≠ 0 →
  g < T ∧ occurs (groot g) ∧ shared (groot g) = true ∧ last_part (groot g) = g.
Proof using rt Hmi PT.
  unfold K. destruct (N.ltb_spec g T); [|done]. destruct (shared (groot g)) eqn:Es; [|done].
  destruct (N.eqb_spec (last_part (groot g)) g); [|done]. intros _. split_and!; try done.
  pose proof (pt_part_lt n T g ltac:(done)) as Hb.
  destruct (mi_lookup (pt_bound g) Hb) as [x Hx]. unfold groot. rewrite Hx.
  pose proof (pt_lt g ltac:(done)) as Hlt.
  by apply (root_in_chunk (pt_bound g) x g ltac:(done) ltac:(lia) Hlt Hx).
Qed.

Lemma relevant_shared rho : occurs rho → shared rho = true → relevant target total K (last_part rho).
Proof using rt Hmi PT.
  intros Ho Hs. pose proof (first_le_last rho Ho) as [? ?]. pose proof pt_range as (_ & ?).
  split_and!.
  - rewrite K_shared by done. lia.
  - rewrite K_shared by done. unfold umax. lia.
  - unfold total. rewrite groot_last by done. by apply occurs_sel.
  - unfold total. rewrite groot_last by done. intros cs Hcs. by exists rho.
Qed.

(** ** Accounts of a list of groups *)

Definition to_global (g rho : N) : bool := shared rho && (last_part rho =? g).

Lemma contributions_merges g cs acc p : contributions g ((AMerge <$> cs) ++ p) acc = contributions g p (acc ++ cs).
Proof using .
  revert acc. induction cs as [|c cs IH]; intros acc; simpl; [by rewrite app_nil_r|].
  by rewrite IH, <-app_assoc.
Qed.
Lemma announcements_merges g cs p : announcements g ((AMerge <$> cs) ++ p) = announcements g p.
Proof using . by induction cs. Qed.
Lemma local_queries_merges cs acc p : local_queries ((AMerge <$> cs) ++ p) acc = local_queries p (acc ++ cs).
Proof using .
  revert acc. induction cs as [|c cs IH]; intros acc; simpl; [by rewrite app_nil_r|].
  by rewrite IH, <-app_assoc.
Qed.

Lemma finish_accounts t rho g p cs :
  contributions g (finish t rho ++ p) cs =
    (if to_global g rho then [cs] else []) ++ contributions g p cs ∧
  announcements g (finish t rho ++ p) =
    (if to_global g rho && (first_part rho =? t) then [last_part rho - first_part rho + 1] else []) ++
    announcements g p ∧
  local_queries (finish t rho ++ p) cs = (if shared rho then [] else [cs]) ++ local_queries p cs.
Proof using .
  unfold finish, to_global, shared. destruct (first_part rho =? last_part rho); simpl; [done|].
  destruct (first_part rho =? t), (last_part rho =? g) eqn:E; simpl; rewrite ?E; simpl; by rewrite ?app_nil_r.
Qed.

Lemma group_accounts t g gs :
  contributions g (group_prog t gs) [] =
    gs ≫= (λ '(rho, cs), if to_global g rho then [cs] else []) ∧
  announcements g (group_prog t gs) =
    gs ≫= (λ '(rho, cs), if to_global g rho && (first_part rho =? t)
                         then [last_part rho - first_part rho + 1] else []) ∧
  local_queries (group_prog t gs) [] = gs ≫= (λ '(rho, cs), if shared rho then [] else [cs]).
Proof using .
  induction gs as [|[rho cs] gs (IH1 & IH2 & IH3)]; [done|]. cbn [group_prog].
  rewrite contributions_merges, announcements_merges, local_queries_merges.
  destruct (finish_accounts t rho g ((match gs with [] => [] | _ => [AZero] end) ++ group_prog t gs) ([] ++ cs))
    as (-> & -> & ->).
  cbn [mbind list_bind]. rewrite <-IH1, <-IH2, <-IH3. destruct gs; simpl; done.
Qed.

Lemma wf_merges cs acc p :
  (∀ c, c ∈ cs → c < n) → wf_prog n target total K p (acc ++ cs) true →
  wf_prog n target total K ((AMerge <$> cs) ++ p) acc true.
Proof using .
  revert acc. induction cs as [|c cs IH]; intros acc Hc Hp; simpl.
  - by rewrite app_nil_r in Hp.
  - split_and!; [done|apply Hc; left|]. apply IH; [intros c' ?; apply Hc; by right|].
    by rewrite <-app_assoc.
Qed.

Lemma group_wf t gs :
  (∀ rho cs, (rho, cs) ∈ gs → occurs rho ∧ cs ≠ [] ∧ (∀ c, c ∈ cs → c < n) ∧
     (shared rho = false → cs ≡ₚ sel rho mi)) →
  wf_prog n target total K (group_prog t gs) [] true.
Proof using rt Hmi PT.
  induction gs as [|[rho cs] gs IH]; intros Hgs; [done|]. cbn [group_prog].
  destruct (Hgs rho cs (list_elem_of_here _ _)) as (Ho & Hne & Hc & Ht).
  assert (wf_prog n target total K (group_prog t gs) [] true) as Hrest.
  { apply IH. intros r c Hin. apply Hgs. by right. }
  apply wf_merges; [done|]. simpl.
  assert (∀ fr, wf_prog n target total K
    ((match gs with [] => [] | _ => [AZero] end) ++ group_prog t gs) cs fr) as Hz.
  { intros fr. by destruct gs. }
  pose proof (relevant_shared rho Ho) as Hrel. unfold finish. unfold shared in Ht, Hrel.
  destruct (first_part rho =? last_part rho); simpl.
  - split_and!; [done|done|exists rho; auto|apply Hz].
  - specialize (Hrel eq_refl). destruct (first_part rho =? t); simpl; split_and!; try done; apply Hz.
Qed.

(** ** The programs together *)

Lemma sorted_app_r l1 l2 : StronglySorted root_le (l1 ++ l2) → StronglySorted root_le l2.
Proof using . induction l1 as [|x l1 IH]; [done|]. intros [Hs _]%StronglySorted_inv. auto. Qed.

Lemma sorted_app_l l1 l2 : StronglySorted root_le (l1 ++ l2) → StronglySorted root_le l1.
Proof using .
  induction l1 as [|x l1 IH]; [constructor|]. intros [Hs Hf]%StronglySorted_inv.
  constructor; [auto|]. apply Forall_app in Hf. tauto.
Qed.

Lemma chunk_sorted t : StronglySorted root_le (chunk t).
Proof using n rt Hmi.
  pose proof (io_sorted _ _ _ Hmi) as Hs. unfold chunk.
  rewrite <-(take_drop (N.to_nat (pt_bound t)) mi) in Hs. apply sorted_app_r in Hs.
  rewrite <-(take_drop (N.to_nat (pt_bound (t + 1) - pt_bound t)) (drop _ mi)) in Hs.
  by apply sorted_app_l in Hs.
Qed.

Lemma chunk_sub t x : x ∈ chunk t → x ∈ mi.
Proof using . unfold chunk. intros Hx.
  rewrite <-(take_drop (N.to_nat (pt_bound t)) mi), elem_of_app. right.
  rewrite <-(take_drop (N.to_nat (pt_bound (t + 1) - pt_bound t)) (drop _ mi)), elem_of_app. by left. Qed.

(** One list of children for a root that occurs, none otherwise. *)
Definition once (cs : list N) : list (list N) := match cs with [] => [] | _ => [cs] end.

Lemma prog_groups t : t < T → ∃ gs, prog t = group_prog t gs ∧
  (∀ rho cs, (rho, cs) ∈ gs → cs = sel rho (chunk t) ∧ cs ≠ []) ∧
  (∀ rho, gs ≫= (λ '(r, cs), if r =? rho then [cs] else []) = once (sel rho (chunk t))).
Proof using rt Hmi.
  intros Ht. destruct (chunk_nonempty t Ht) as (x & c & E & _).
  pose proof (chunk_sorted t) as Hs. unfold prog. rewrite E in *.
  apply StronglySorted_inv in Hs as [Hs Hall]. rewrite Forall_forall in Hall.
  exists (groups (instr_root x) [instr_child x] c). split_and!.
  - cbn [spec_prog]. rewrite N.eqb_refl, <-spec_prog_groups. done.
  - intros rho cs Hin. rewrite sel_cons. destruct (groups_elem c _ _ rho cs Hs Hall Hin) as [[-> ->]|(Hne & -> & Hc)].
    + by rewrite N.eqb_refl.
    + destruct (N.eqb_spec (instr_root x) rho); [congruence|done].
  - intros rho. rewrite groups_select, sel_cons by done. unfold once.
    destruct (instr_root x =? rho); [done|]. simpl. by destruct (sel rho c).
Qed.

Lemma bind_ext_in {A B} (f g : A → list B) l : (∀ x, x ∈ l → f x = g x) → l ≫= f = l ≫= g.
Proof using .
  induction l as [|x l IH]; intros H; [done|]. cbn. rewrite (H x) by left. f_equal.
  apply IH. intros y Hy. apply H. by right.
Qed.

Lemma bind_single {A B} (f : A → list B) l x : NoDup l → x ∈ l → (∀ y, y ∈ l → y ≠ x → f y = []) →
  l ≫= f = f x.
Proof using .
  intros Hnd (l1 & l2 & ->)%list_elem_of_split Hf. rewrite bind_app. cbn [mbind list_bind].
  apply NoDup_app in Hnd as (_ & Hd & Hnd). apply NoDup_cons in Hnd as [Hx _].
  rewrite (bind_all_nil f l1), (bind_all_nil f l2).
  - apply app_nil_r.
  - intros y Hy. apply Hf; [apply elem_of_app; right; by right|]. congruence.
  - intros y Hy. apply Hf; [apply elem_of_app; by left|]. intros ->. apply (Hd x Hy). left.
Qed.

Lemma to_global_groot g rho : occurs rho → to_global g rho = negb (K g =? 0) && (rho =? groot g).
Proof using rt Hmi PT.
  intros Ho. unfold to_global. destruct (shared rho && (last_part rho =? g)) eqn:E.
  - apply andb_true_iff in E as [Es <-%N.eqb_eq]. rewrite K_shared, groot_last, N.eqb_refl by done.
    by rewrite (proj2 (N.eqb_neq _ 0)) by lia.
  - symmetry. apply andb_false_iff. destruct (N.eqb_spec (K g) 0) as [|HK]; [by left|right].
    apply N.eqb_neq. intros ->. destruct (K_groot g HK) as (_ & _ & Es & El).
    by rewrite Es, El, N.eqb_refl in E.
Qed.

Lemma groups_occurs t (gs : list (N * list N)) : t < T →
  (∀ rho cs, (rho, cs) ∈ gs → cs = sel rho (chunk t) ∧ cs ≠ []) →
  ∀ rho cs, (rho, cs) ∈ gs → occurs rho ∧ first_part rho ≤ t ∧ t ≤ last_part rho.
Proof using rt Hmi PT.
  intros Ht Hgs rho cs Hin. destruct (Hgs rho cs Hin) as [-> Hne].
  apply sel_not_nil, (chunk_root t rho Ht) in Hne. tauto.
Qed.

Lemma contributions_prog g t : t < T → contributions g (prog t) [] =
  if K g =? 0 then [] else once (sel (groot g) (chunk t)).
Proof using rt Hmi PT.
  intros Ht. destruct (prog_groups t Ht) as (gs & -> & Hgs & Hsel).
  destruct (group_accounts t g gs) as (-> & _). rewrite <-Hsel.
  transitivity (gs ≫= (λ '(r, cs), if K g =? 0 then [] else if r =? groot g then [cs] else [])).
  - apply bind_ext_in. intros [rho cs] Hin. rewrite to_global_groot by (by eapply groups_occurs).
    destruct (K g =? 0); [done|]. by destruct (_ =? _).
  - destruct (K g =? 0); [|done]. apply bind_all_nil. by intros [].
Qed.

Lemma announcements_prog g t : t < T → announcements g (prog t) =
  if negb (K g =? 0) && (first_part (groot g) =? t) then [K g] else [].
Proof using rt Hmi PT.
  intros Ht. destruct (prog_groups t Ht) as (gs & -> & Hgs & Hsel).
  destruct (group_accounts t g gs) as (_ & -> & _).
  transitivity ((gs ≫= (λ '(r, cs), if r =? groot g then [cs] else [])) ≫=
     (λ _ : list N, if negb (K g =? 0) && (first_part (groot g) =? t) then [K g] else [])).
  - pose proof (groups_occurs t gs Ht Hgs) as Hocc. clear Hgs Hsel.
    induction gs as [|[rho cs] gs IH]; [done|]. cbn [mbind list_bind].
    rewrite bind_app, <-IH by (intros r c ?; eapply Hocc; by right). f_equal.
    destruct (Hocc rho cs (list_elem_of_here _ _)) as (Ho & _). rewrite (to_global_groot g rho Ho).
    destruct (N.eqb_spec (K g) 0) as [|HK]; simpl; [by destruct (rho =? groot g)|].
    destruct (N.eqb_spec rho (groot g)) as [->|]; [|done]. simpl. rewrite app_nil_r.
    destruct (K_groot g HK) as (HgT & Hog & Hsh & Hlg). rewrite Hlg.
    pose proof (K_shared _ Hog Hsh) as EK. rewrite Hlg in EK. by rewrite EK.
  - rewrite Hsel. destruct (N.eqb_spec (K g) 0) as [|HK]; simpl; [by apply bind_all_nil|].
    destruct (N.eqb_spec (first_part (groot g)) t) as [E|]; [|by apply bind_all_nil].
    destruct (K_groot g HK) as (_ & Hog & _). destruct (first_le_last _ Hog) as [Hfl _].
    assert (sel (groot g) (chunk t) ≠ []) as Hne.
    { apply sel_not_nil, (chunk_root t _ Ht). split_and!; [done|lia|lia]. }
    unfold once. by destruct (sel (groot g) (chunk t)).
Qed.

Definition programs : list (list act) := prog <$> seqN 0 T.

Lemma seqN_below t : t ∈ seqN 0 T ↔ t < T.
Proof using . rewrite elem_of_seqN. lia. Qed.

Lemma once_concat {A} (f : A → list N) l : concat (l ≫= (λ x, once (f x))) = l ≫= f.
Proof using .
  induction l as [|x l IH]; [done|].
  change (concat (once (f x) ++ (l ≫= (λ x, once (f x)))) = f x ++ (l ≫= f)).
  rewrite concat_app, IH. f_equal. unfold once. destruct (f x); [done|]. apply app_nil_r.
Qed.

Lemma sel_chunks rho : seqN 0 T ≫= (λ t, sel rho (chunk t)) = sel rho mi.
Proof using rt Hmi.
  transitivity (sel rho (concat (chunk <$> seqN 0 T))); [|by rewrite concat_chunks].
  rewrite sel_concat. symmetry. apply (bind_fmap_list chunk (sel rho)).
Qed.

Lemma contributions_all g : programs ≫= (λ p, contributions g p []) =
  if K g =? 0 then [] else seqN 0 T ≫= (λ t, once (sel (groot g) (chunk t))).
Proof using rt Hmi PT.
  unfold programs. rewrite (bind_fmap_list prog (λ p, contributions g p [])).
  transitivity (seqN 0 T ≫= λ t, if K g =? 0 then [] else once (sel (groot g) (chunk t))).
  - apply bind_ext_in. intros t Ht%seqN_below. by apply contributions_prog.
  - destruct (K g =? 0); [|done]. by apply bind_all_nil.
Qed.

Lemma bind_once_length {A} (f : A → list N) l : (∀ x, x ∈ l → f x ≠ []) →
  length (l ≫= (λ x, once (f x))) = length l.
Proof using .
  induction l as [|x l IH]; intros H; [done|].
  change (length (once (f x) ++ (l ≫= (λ x, once (f x)))) = S (length l)).
  rewrite length_app, IH by (intros y Hy; apply H; by right).
  pose proof (H x (list_elem_of_here _ _)). unfold once. by destruct (f x).
Qed.

Lemma contributions_count g : N.of_nat (length (programs ≫= λ p, contributions g p [])) = K g.
Proof using rt Hmi PT.
  rewrite contributions_all. destruct (N.eqb_spec (K g) 0) as [->|HK]; [done|].
  destruct (K_groot g HK) as (HgT & Ho & Hs & Hl). destruct (first_le_last _ Ho) as [Hfl _].
  pose proof (K_shared _ Ho Hs) as EK. rewrite Hl in *. rewrite EK.
  assert (∀ t, t < T → sel (groot g) (chunk t) ≠ [] ↔ first_part (groot g) ≤ t ∧ t ≤ g) as Hne.
  { intros t Ht. rewrite sel_not_nil, (chunk_root t (groot g) Ht), Hl. tauto. }
  assert (∀ t, t < T → ¬ (first_part (groot g) ≤ t ∧ t ≤ g) → once (sel (groot g) (chunk t)) = []) as Hnil.
  { intros t Ht Hn. specialize (Hne t Ht). destruct (sel (groot g) (chunk t)); [done|]. destruct Hn. by apply Hne. }
  assert (∃ k, k = g - first_part (groot g) + 1) as (k & Ek) by eauto. rewrite <-Ek.
  replace T with (first_part (groot g) + (k + (T - (g + 1)))) at 1 by lia.
  rewrite !seqN_app, !bind_app, (bind_all_nil _ (seqN 0 _)), (bind_all_nil _ (seqN (_ + _ + _) _)).
  - cbn [app]. rewrite app_nil_r, (bind_once_length (λ t, sel (groot g) (chunk t))), length_seqN; [lia|].
    intros t Ht%elem_of_seqN. apply Hne; lia.
  - intros t Ht%elem_of_seqN. apply Hnil; lia.
  - intros t Ht%elem_of_seqN. apply Hnil; lia.
Qed.

(** The programs satisfy the accounts of a region. *)
Lemma programs_accounts : programs_ok n target total K programs (N.to_nat T).
Proof using rt Hmi PT.
  split.
  - intros p (t & -> & Ht%seqN_below)%list_elem_of_fmap.
    destruct (prog_groups t Ht) as (gs & -> & Hgs & _). apply group_wf. intros rho cs Hin.
    destruct (groups_occurs t gs Ht Hgs rho cs Hin) as (Ho & Hf & Hl).
    destruct (Hgs rho cs Hin) as [-> Hne]. split_and!; [done|done| |].
    + intros c (x & -> & Hx)%list_elem_of_fmap. apply list_elem_of_filter in Hx as [_ Hx%chunk_sub].
      apply list_elem_of_lookup in Hx as [i Hi]. apply (child_bound (N.of_nat i) x).
      by rewrite lookupN_eq, Nat2N.id.
    + intros Hs%negb_false_iff%N.eqb_eq.
      rewrite <-(sel_chunks rho), (bind_single _ _ t); [done|apply NoDup_seqN|by apply seqN_below|].
      intros u Hu%seqN_below Hne'. destruct (decide (sel rho (chunk u) = [])) as [|Hc]; [done|].
      apply sel_not_nil, (chunk_root u rho Hu) in Hc. lia.
  - intros g HK. destruct (K_groot g HK) as (HT & _). lia.
  - apply contributions_count.
  - intros g HK. rewrite contributions_all. destruct (N.eqb_spec (K g) 0); [done|].
    rewrite once_concat, sel_chunks. done.
  - intros g HK. destruct (K_groot g HK) as (HgT & Ho & Hs & Hl).
    destruct (first_le_last _ Ho) as [Hfl HlT].
    unfold programs. rewrite (bind_fmap_list prog (announcements g)).
    rewrite (bind_single _ _ (first_part (groot g))).
    + rewrite announcements_prog, N.eqb_refl by lia. destruct (N.eqb_spec (K g) 0); [done|]. done.
    + apply NoDup_seqN.
    + apply seqN_below. lia.
    + intros t Ht%seqN_below Hne. rewrite announcements_prog by done.
      destruct (N.eqb_spec (first_part (groot g)) t); [congruence|]. by rewrite andb_false_r.
Qed.

Lemma mapM_programs : mapM (λ t, thread_program mi n t T) (seqN 0 T) = Ok programs.
Proof using rt Hmi PT.
  unfold programs. assert (∀ t, t ∈ seqN 0 T → t < T) as Hin by (intros t; apply seqN_below).
  induction (seqN 0 T) as [|t l IH]; [done|]. cbn [mapM].
  rewrite thread_program_ok by (apply Hin; left). cbn [mbind outcome_bind].
  rewrite IH by (intros u Hu; apply Hin; by right). done.
Qed.

(** Every root that has vertices is queried with all of them. *)
Lemma programs_cover (Q : list (list N)) :
  (∀ cs, cs ∈ (programs ≫= λ p, local_queries p []) → cs ∈ Q) →
  (∀ g, K g ≠ 0 → ∃ cs, cs ∈ Q ∧ cs ≡ₚ total g) →
  ∀ rho, occurs rho → ∃ cs, cs ∈ Q ∧ cs ≡ₚ sel rho mi.
Proof using rt Hmi PT.
  intros Hl Hg rho Ho. destruct (first_le_last _ Ho) as [Hfl HlT]. destruct (shared rho) eqn:Hs.
  - destruct (Hg (last_part rho)) as (cs & Hcs & Hp).
    + rewrite K_shared by done. lia.
    + exists cs. split; [done|]. unfold total in Hp. by rewrite groot_last in Hp.
  - exists (sel rho mi). split; [|done]. apply Hl. unfold programs.
    pose proof Hs as Ht'. apply negb_false_iff, N.eqb_eq in Ht'. set (t := first_part rho) in *.
    assert (t < T) as Ht by lia. apply list_elem_of_bind. exists (prog t).
    split; [|by apply list_elem_of_fmap_2, seqN_below].
    destruct (prog_groups t Ht) as (gs & -> & Hgs & Hsel).
    destruct (group_accounts t 0 gs) as (_ & _ & ->).
    assert (sel rho (chunk t) = sel rho mi) as Ec.
    { rewrite <-(sel_chunks rho), (bind_single _ _ t); [done|apply NoDup_seqN|by apply seqN_below|].
      intros u Hu%seqN_below Hne'. destruct (decide (sel rho (chunk u) = [])) as [|Hc]; [done|].
      apply sel_not_nil, (chunk_root u rho Hu) in Hc. fold t in Hc. lia. }
    assert (sel rho mi ∈ gs ≫= (λ '(r, cs), if r =? rho then [cs] else [])) as Hin.
    { rewrite Hsel, Ec. apply occurs_sel in Ho. unfold once. destruct (sel rho mi); [done|left]. }
    apply list_elem_of_bind in Hin as ([r cs] & Hcs & Hr). apply list_elem_of_bind.
    destruct (N.eqb_spec r rho) as [->|]; [|by apply elem_of_nil in Hcs].
    exists (rho, cs). split; [|done]. by rewrite Hs.
Qed.
End Layout.
