(* ===== verification/RoundCorrect.v ===== *)
(** What a round of Boruvka does.

    [sample_supernode_ok] is one query; [round_zero_ok] the first round, for any
    order of the parallel loop; [round_ok] a later round with samples left, for
    any schedule; [round_exhausted] a round after the last sample. The two last
    instantiate the interface of file Region. *)
From S2P Require Import Prelude Float64 Platform Util XorSet Bucket Sketch Dsu Graph Forest Config CCAlg Partition MergeInstr Round Region Programs.

Open Scope N_scope.

(** ** Components and their cuts *)

Section Components.
Context `{UnionFindLaws D}.

(** The vertices below [n] with root [rho]. *)
Definition comp (d : D) (n rho : N) : gset N :=
  filter (λ v, uf_root d v = rho) (list_to_set (seqN 0 n)).

Lemma elem_of_comp d n rho v : v ∈ comp d n rho ↔ v < n ∧ uf_root d v = rho.
Proof using .
  unfold comp. rewrite elem_of_filter, elem_of_list_to_set, elem_of_seqN.
  split; intros [? ?]; split; (done || lia).
Qed.

(** Edges of a component's cut join vertices the forest does not. *)
Lemma cut_not_connected n d sf G rho id :
  graph n G → forest_inv n d sf G → id ∈ cut G (comp d n rho) →
  ¬ pair_connected (forest_pairs sf) (id_src id) (id_dst id).
Proof using .
  intros HG HF [Hc Hid]%elem_of_filter Hpc. destruct (HG id Hid) as (_ & Hlt & Hd).
  pose proof (proj2 (fi_tracks _ _ _ _ HF)) as Ht. rewrite (fi_size _ _ _ _ HF) in Ht.
  apply Ht in Hpc; [|lia..]. unfold crosses in Hc.
  assert (id_src id ∈ comp d n rho ↔ id_dst id ∈ comp d n rho) as Hiff.
  { rewrite !elem_of_comp, Hpc. split; intros [? ?]; split; (done || lia). }
  repeat case_bool_decide; naive_solver.
Qed.

(** When every component's cut is empty, the forest spans the graph. *)
Lemma cuts_empty_connected n d sf G :
  n < 2 ^ 32 → graph n G → forest_inv n d sf G → (∀ rho, rho < n → cut G (comp d n rho) = ∅) →
  ∀ x y, pair_connected (forest_pairs sf) x y ↔ graph_connected G x y.
Proof using .
  intros Hn HG HF Hcut x y. split; [apply (forest_connected_graph n d); [lia|done]|].
  apply pair_connected_ind; [apply _|]. intros u v (id & Hid & <- & <-)%elem_of_graph_pairs.
  destruct (HG id Hid) as (_ & Hlt & Hd). destruct (fi_tracks _ _ _ _ HF) as [Hok Ht].
  rewrite (fi_size _ _ _ _ HF) in Ht. apply Ht; [lia..|]. set (rho := uf_root d (id_src id)).
  assert (rho < n) as Hrho.
  { rewrite <-(fi_size _ _ _ _ HF). apply uf_root_lt; [done|]. rewrite (fi_size _ _ _ _ HF). lia. }
  assert (id_dst id ∈ comp d n rho) as Hin.
  { apply (cut_empty_closed G _ (id_src id) _ (Hcut rho Hrho)); [by apply graph_connected_edge|].
    apply elem_of_comp. split; [lia|done]. }
  by apply elem_of_comp in Hin as [_ ->].
Qed.
End Components.

(** ** One query *)

Section Query.
Context `{P : Platform} `{!PlatformLaws P} {SC : SampleCheck} {D : Type} `{UnionFindLaws D}.
Implicit Type cc : CCSketchAlg D.

(** The members a query leaves alone. *)
Definition frame cc cc' : Prop :=
  num_vertices cc' = num_vertices cc ∧ cc_seed cc' = cc_seed cc ∧
  update_locked cc' = update_locked cc ∧ representatives cc' = representatives cc ∧
  dsu_valid cc' = dsu_valid cc ∧ shared_dsu_valid cc' = shared_dsu_valid cc ∧
  delta_sketches cc' = delta_sketches cc ∧ num_delta_sketches cc' = num_delta_sketches cc ∧
  config cc' = config cc ∧ last_query_rounds cc' = last_query_rounds cc.

#[local] Instance frame_refl : Reflexive frame.
Proof using . intros cc. unfold frame. by split_and!. Qed.
#[local] Instance frame_trans : Transitive frame.
Proof using . intros cc1 cc2 cc3. unfold frame.
  intros (->&->&->&->&->&->&->&->&->&->) (->&->&->&->&->&->&->&->&->&->). by split_and!. Qed.

Definition same_but_forest cc cc' : Prop := frame cc cc' ∧ sketches cc' = sketches cc.

(** The edges found so far connect at least what they did. *)
Definition extends cc cc' : Prop := ∀ x y,
  pair_connected (forest_pairs (spanning_forest cc)) x y →
  pair_connected (forest_pairs (spanning_forest cc')) x y.

Definition cc_forest cc (G : gset N) : Prop :=
  forest_inv (num_vertices cc) (dsu cc) (spanning_forest cc) G.

Lemma insert_forest_eq cc (u v : N) X : spanning_forest cc !! u = Some X →
  insert_forest u v cc = (set_spanning_forest (<[u := X ∪ {[ v ]}]> (spanning_forest cc)) cc, Ok tt).
Proof using .
  intros E. unfold insert_forest. rewrite M_bind_gets, (M_bind_lift _ X) by (by rewrite E). done.
Qed.

(** A sample that tells the truth about [X], a set of edges of the graph. *)
Lemma sample_supernode_ok cc s X G `{!CheckAccepts SC G} :
  num_vertices cc < 2 ^ 32 → graph (num_vertices cc) G → cc_forest cc G → X ⊆ G →
  wf_sketch s → sample_idx s < num_samples s ≤ 2 ^ 32 → cols_per_sample s ≤ 2 ^ 32 →
  represents_on (in_sample s (sample_idx s)) s X → sample_reliable s (sample_idx s) X →
  ∃ cc' m, sample_supernode (cc, s) = ((cc', set_sample_idx (sample_idx s + 1) s), Ok m) ∧
    same_but_forest cc cc' ∧ cc_forest cc' G ∧ extends cc cc' ∧
    (m = false → extends cc' cc ∧
       (X = ∅ ∨ ∃ id, id ∈ X ∧ pair_connected (forest_pairs (spanning_forest cc)) (id_src id) (id_dst id))).
Proof using .
  intros Hn HG HF HX Hwf Hidx Hcols HR Hrel. unfold cc_forest in *.
  destruct (sketch_sample_ok s X Hwf Hidx Hcols HR Hrel) as ([idx res] & Es & Hspec).
  unfold sample_supernode, zoom. unfold mbind at 1, M_bind at 1. cbn [snd]. rewrite Es. cbn [fst].
  unfold sample_spec in Hspec. cbn [sample_result sample_index] in *. destruct res.
  - pose proof (HX idx Hspec) as Hin. destruct (HG idx Hin) as (Hid & Hlt & Hd).
    fold (id_src idx) (id_dst idx).
    assert (concat_pairing_fn (id_src idx) (id_dst idx) = idx) as Ec.
    { apply (edge_id_concat (num_vertices cc)); [lia|by split_and!]. }
    destruct (forest_merge_ok _ _ _ _ (id_src idx) (id_dst idx) HF Hlt Hd)
      as (d' & r & Y & Em & HY & Hmf & _ & Hcase).
    unfold mbind at 1, M_bind at 1. unfold on_dsu, zoom. cbn [fst snd]. rewrite Em. cbn [fst snd].
    destruct (merged r) eqn:Emr.
    + destruct Hcase as [Hinv Hconn]. fold (sample_check (SampleCheck := SC)).
      rewrite (M_bind_lift _ tt) by (by apply check_accepts). unfold mbind, M_bind. cbn [fst snd].
      rewrite (N.min_l (id_src idx)), (N.max_r (id_src idx)) by lia.
      rewrite (insert_forest_eq _ _ _ Y) by done.
      eexists _, true. split; [done|]. split; [by split|]. split; [|split; [|done]].
      * apply (Hinv G); [reflexivity|by rewrite Ec].
      * intros x y Hxy. apply (proj2 (Hconn x y)). left. exact Hxy.
    + eexists _, false. split; [reflexivity|]. split; [by split|]. split; [exact Hcase|].
      split; [by intros x y|]. intros _. split; [by intros x y|]. right. exists idx.
      split; [exact Hspec|]. by apply Hmf.
  - destruct Hspec as [-> _]. exists cc, false. split; [reflexivity|]. split; [by split|].
    split; [exact HF|]. split; [by intros x y|]. intros _. split; [by intros x y|]. by left.
  - exists cc, true. split; [reflexivity|]. split; [by split|]. split; [exact HF|].
    split; [by intros x y|]. done.
Qed.

(** ** Sketches of the vertices, whatever samples were taken *)

Definition vertex_sketches cc (b : Sketch) (f : N → gset N) : Prop :=
  length (sketches cc) = N.to_nat (num_vertices cc) ∧
  ∀ v s, sketches cc !! v = Some s → ∃ i, holds b s i (f v).

Lemma cc_vectors_sketches cc b f : cc_vectors cc b f → vertex_sketches cc b f.
Proof using . intros [HL Hf]. split; [done|]. intros v s Hs. exists 0. by apply Hf. Qed.

Lemma vertex_sketches_same cc cc' b f : num_vertices cc' = num_vertices cc →
  sketches cc' = sketches cc → vertex_sketches cc b f → vertex_sketches cc' b f.
Proof using . unfold vertex_sketches. by intros -> ->. Qed.

(** What a round leaves: a forest of the graph, which spans it when the round
    found nothing. *)
Record round_post cc cc' (b : Sketch) (G : gset N) (m : bool) : Prop := {
  rp_frame : frame cc cc';
  rp_sketches : vertex_sketches cc' b (incident G);
  rp_forest : cc_forest cc' G;
  rp_done : m = false → ∀ x y,
    pair_connected (forest_pairs (spanning_forest cc')) x y ↔ graph_connected G x y
}.

(** Every cut of a component that sample [r] looks at is told truly. *)
Definition round_reliable (b : Sketch) (r : N) (d : D) (n : N) (G : gset N) : Prop :=
  ∀ rho, rho < n → sample_reliable b r (cut G (comp d n rho)).

Lemma in_sample_layout s s' r id : same_layout s s' → in_sample s r id ↔ in_sample s' r id.
Proof using . intros (_ & _ & E3 & _ & E5 & E6). unfold in_sample. by rewrite E3, E5, E6. Qed.

(** * A round with samples left *)

Section InRange.
Context (cc0 : CCSketchAlg D) (b : Sketch) (G : gset N) `{HA : !CheckAccepts SC G} (r : N).
Let n := num_vertices cc0.
Context (Hbase : cc_base cc0 b) (HG : graph n G) (Hvs : vertex_sketches cc0 b (incident G)).
Context (HF0 : cc_forest cc0 G) (Hr : r < num_samples b).

Definition Shape (s : Sketch) : Prop := wf_sketch s ∧ same_layout b s.

(** A sketch of the vertices [cs], for sample [r]. *)
Definition Holds (s : Sketch) (cs : list N) : Prop :=
  Shape s ∧ represents_on (in_sample b r) s (incident_sum G cs) ∧ sample_idx s ≤ r ∧
  (cs ≠ [] → sample_idx s = r).

(** The vertices of a component, in some order. *)
Definition component (cs : list N) : Prop :=
  NoDup cs ∧ ∃ rho, rho < n ∧ list_to_set cs = comp (dsu cc0) n rho.

Definition J (cc : CCSketchAlg D) (m e : bool) (Q : list (list N)) : Prop :=
  e = false ∧ same_but_forest cc0 cc ∧ cc_forest cc G ∧ extends cc0 cc ∧
  (m = false → extends cc cc0 ∧ ∀ cs, cs ∈ Q → incident_sum G cs = ∅).

Lemma holds_empty s : Shape s → sample_idx s = 0 → represents s ∅ → Holds s [].
Proof using .
  intros Hs Hi HR. split; [done|]. split; [by eapply represents_on_weaken; [|exact HR]|].
  split; [rewrite Hi; apply N.le_0_l|done].
Qed.

Lemma shape_bounds s : Shape s → num_samples s = num_samples b ∧ cols_per_sample s = cols_per_sample b.
Proof using . intros [_ (_ & E2 & E3 & _)]. done. Qed.

Lemma merge_holds s l cs cs' :
  Shape l → represents_on (in_sample b r) l (incident_sum G cs') → Holds s cs → cs' ≠ [] →
  ∃ s', range_merge l r 1 s = (s', Ok tt) ∧ Holds s' (cs ++ cs').
Proof using Hbase Hr.
  intros [Wl Ll] Rl (Hs & Rs & Is & _) Hne. pose proof (shape_bounds s Hs) as [Es Ec]. destruct Hs as [Ws Ls].
  destruct Hbase as [_ _ _ _ _ Hns Hcols].
  assert (∀ X s, same_layout b s → represents_on (in_sample b r) s X ↔ represents_on (in_sample s r) s X) as Hin.
  { intros X t HL. split; intros HX id Hid Hd; apply HX; try done; by apply (in_sample_layout b t). }
  destruct (range_merge_ok s l r (incident_sum G cs) (incident_sum G cs') Ws Wl)
    as (s' & E & Ws' & Ls' & Is' & Rs'); [by transitivity b; [symmetry|]|lia..| | |].
  - by apply (Hin _ s Ls).
  - intros id Hid Hd. apply Rl; [done|]. by apply (in_sample_layout b s).
  - exists s'. split; [exact E|].
    assert (same_layout b s') as Lb by (by transitivity s). split; [by split|]. rewrite incident_sum_app.
    split; [|rewrite Is'; split; intros; lia].
    intros id Hid Hd. apply Rs'; [done|]. by apply (in_sample_layout b s).
Qed.

Lemma component_cut cs : component cs → ∃ rho, rho < n ∧ incident_sum G cs = cut G (comp (dsu cc0) n rho).
Proof using HG.
  intros (Hnd & rho & Hrho & E). exists rho. split; [done|]. rewrite <-E. by apply (incident_sum_cut n).
Qed.

Lemma query_J cc m e Q s cs :
  round_reliable b r (dsu cc0) n G →
  J cc m e Q → Holds s cs → cs ≠ [] → component cs →
  ∃ cc' s' o, sample_supernode (cc, s) = ((cc', s'), o) ∧ Shape s' ∧
    match o with
    | Ok b => J cc' (m || b) e (cs :: Q)
    | Throw ex => out_of_samples ex ∧ J cc' m true (cs :: Q)
    | _ => False
    end.
Proof using Hbase HG HF0 Hr HA.
  intros Hrel (-> & [Hfr Hsk] & HF & Hext & Hm) (Hs & Rs & _ & Is) Hne Hcomp.
  destruct (component_cut cs Hcomp) as (rho & Hrho & Ecut). specialize (Is Hne).
  pose proof (shape_bounds s Hs) as [Es Ec]. destruct Hs as [Ws Ls].
  destruct Hbase as [Hn _ _ _ _ Hns Hcols]. pose proof Hfr as (En & _). fold n in En, Hn.
  destruct (sample_supernode_ok cc s (incident_sum G cs) G) as (cc' & m' & E & [Hfr' Hsk'] & HF' & Hext' & Hm').
  - rewrite En. lia.
  - by rewrite En.
  - done.
  - apply incident_sum_subseteq.
  - done.
  - rewrite Is. lia.
  - lia.
  - rewrite Is. intros id Hid Hd. apply Rs; [done|]. by apply (in_sample_layout b s).
  - rewrite Is, Ecut. apply (sample_reliable_layout b s); [done|]. by apply Hrel.
  - exists cc', (set_sample_idx (sample_idx s + 1) s), (Ok m'). split; [exact E|]. split.
    { split; [by apply wf_set_sample_idx|]. transitivity s; [done|]. apply same_layout_set_sample_idx. }
    split; [done|]. split; [split; [by transitivity cc|congruence]|]. split; [done|].
    split; [intros x y Hxy; by apply Hext', Hext|]. intros [-> ->]%orb_false_iff.
    destruct (Hm eq_refl) as [Hback HQ]. destruct (Hm' eq_refl) as [Hback' HX].
    split; [intros x y Hxy; by apply Hback, Hback'|]. intros cs' [->|Hcs']%elem_of_cons; [|by apply HQ].
    destruct HX as [HX|(id & Hid & Hpc)]; [done|]. exfalso. rewrite Ecut in Hid.
    by apply (cut_not_connected n (dsu cc0) (spanning_forest cc0) G rho id HG HF0 Hid), Hback.
Qed.

Lemma in_range_interface : round_reliable b r (dsu cc0) n G →
  RegionInterface n r Shape Holds J component.
Proof using Hbase HG HF0 Hr Hvs HA.
  intros Hrel. split.
  - by intros s cs [Hs _].
  - intros s [Ws Ls]. destruct (zero_contents_ok s Ws) as (s' & E & Ws' & Ls' & Is' & Rs').
    exists s'. split; [exact E|]. apply holds_empty; [split; [done|by transitivity s]|done|done].
  - intros cc m e Q v (_ & [_ Hsk] & _) Hv. destruct Hvs as [HL Hf]. fold n in HL.
    destruct (lookupN_lt_is_Some (sketches cc0) v) as [skt Hskt]; [lia|].
    exists skt. split; [by rewrite Hsk|]. intros s cs Hs.
    destruct (Hf v skt Hskt) as (i & W & L & _ & R). apply merge_holds; [by split| |done|done].
    simpl. rewrite (right_id ∅ symdiff). by eapply represents_on_weaken; [|exact R].
  - intros s cs l cs' Hs (Hl & Rl & _) Hne. by apply merge_holds.
  - intros. by eapply query_J.
Qed.
End InRange.

(** ** The whole round *)

Lemma region_interface_weaken n r Sh Ho Jx (T1 T2 : list N → Prop) :
  (∀ cs, T2 cs → T1 cs) → RegionInterface (D := D) n r Sh Ho Jx T1 → RegionInterface n r Sh Ho Jx T2.
Proof using . intros HT []. split; eauto. Qed.

Lemma sel_NoDup rho l : NoDup (instr_child <$> l) → NoDup (sel rho l).
Proof using .
  induction l as [|x l IH]; [constructor|]. rewrite fmap_cons, sel_cons. intros [Hx Hl]%NoDup_cons.
  destruct (_ =? _); [|by apply IH]. apply NoDup_cons. split; [|by apply IH]. intros Hin. apply Hx.
  unfold sel in Hin. apply list_elem_of_fmap in Hin as (y & -> & [_ Hy]%list_elem_of_filter).
  by apply list_elem_of_fmap_2.
Qed.

Lemma elem_of_sel n (d : D) mi rho v : instr_ok n (uf_root d) mi →
  v ∈ sel rho mi ↔ v < n ∧ uf_root d v = rho.
Proof using .
  intros Hmi. unfold sel. rewrite list_elem_of_fmap. setoid_rewrite list_elem_of_filter. split.
  - intros (x & -> & Hr & Hx). rewrite <-(io_root _ _ _ Hmi x Hx). split; [|done].
    apply list_elem_of_lookup in Hx as [i Hi]. apply (child_bound n _ mi Hmi (N.of_nat i)).
    by rewrite lookupN_eq, Nat2N.id.
  - intros [Hv Hr]. assert (v ∈ instr_child <$> mi) as Hin.
    { rewrite (io_perm _ _ _ Hmi). apply elem_of_seqN. lia. }
    apply list_elem_of_fmap in Hin as (x & -> & Hx). exists x. split; [done|]. split; [|done].
    by rewrite (io_root _ _ _ Hmi x Hx).
Qed.

(** The children of a root are its component. *)
Lemma sel_component n (d : D) mi rho : instr_ok n (uf_root d) mi →
  NoDup (sel rho mi) ∧ list_to_set (sel rho mi) = comp d n rho.
Proof using .
  intros Hmi. split.
  - apply sel_NoDup. rewrite (io_perm _ _ _ Hmi). apply NoDup_seqN.
  - apply set_eq. intros v. by rewrite elem_of_list_to_set, (elem_of_sel n d), elem_of_comp.
Qed.

Lemma target_component cc mi cs : let n := num_vertices cc in
  instr_ok n (uf_root (dsu cc)) mi → target mi cs → component cc cs.
Proof using .
  intros n Hmi (rho & Ho & Hp). apply (occurs_sel n (uf_root (dsu cc)) mi Hmi) in Ho.
  destruct (sel_component n _ mi rho Hmi) as [Hnd Hset]. split; [by rewrite Hp|]. exists rho.
  split; [|etrans; [by apply list_to_set_perm_L|exact Hset]]. apply sel_not_nil in Ho as (x & Hx & <-).
  by apply (io_bound _ _ _ Hmi).
Qed.

(** When the queries of every component found an empty cut, the forest spans. *)
Lemma queries_span n (d : D) sf G mi (Q : list (list N)) :
  n < 2 ^ 32 → graph n G → forest_inv n d sf G → instr_ok n (uf_root d) mi →
  (∀ rho, occurs mi rho → ∃ cs, cs ∈ Q ∧ cs ≡ₚ sel rho mi) →
  (∀ cs, cs ∈ Q → incident_sum G cs = ∅) →
  ∀ x y, pair_connected (forest_pairs sf) x y ↔ graph_connected G x y.
Proof using .
  intros Hn HG HF Hmi Hcover HQ. apply (cuts_empty_connected n d); [done..|]. intros rho Hrho.
  destruct (sel_component n _ mi rho Hmi) as [Hnd <-]. rewrite <-(incident_sum_cut n) by done.
  destruct (decide (sel rho mi = [])) as [->|Hne]; [done|]. apply (occurs_sel n _ mi Hmi) in Hne.
  destruct (Hcover rho Hne) as (cs & Hcs & <-). by apply HQ.
Qed.

(** The shared sketches of a round. *)
Definition globals_ok (b : Sketch) (T : N) (globals : list GlobalMergeData) : Prop :=
  length globals = N.to_nat T ∧ ∀ gd, gd ∈ globals → Shape b (g_sketch gd).

(** A region keeps as many shared sketches as it was given. *)
Lemma region_step_length r t (x y : region) : region_step (D := D) r t x = Ok y →
  length (r_globals y) = length (r_globals x).
Proof using .
  unfold region_step. destruct (r_threads x !! t) as [th|]; [|by intros [= ->]].
  destruct (th_todo th) as [|a rest]; [by intros [= ->]|].
  assert (∀ s err s' err' (x' : region), try_sample (D := D) s err x = Ok (s', err', x') →
    length (r_globals x') = length (r_globals x)) as Hts.
  { intros s err s' err' x'. unfold try_sample. destruct (sample_supernode _) as [[cc s1] []]; try done.
    - by intros [= <- <- <-].
    - by intros [= <- <- <-]. }
  destruct a; simpl; intros E.
  - run_inv. destruct (range_merge _ _ _ _) as [s []]; try done. by injection E as <-.
  - apply outcome_bind_inv in E as ([[s err] x'] & Es & [= <-]). simpl. by eapply Hts.
  - apply outcome_bind_inv in E as (s & _ & [= <-]). done.
  - apply outcome_bind_inv in E as (gd & _ & [= <-]). simpl. by rewrite length_insertN.
  - apply outcome_bind_inv in E as (gd & _ & E). apply outcome_bind_inv in E as ([gd' rdy] & _ & [= <-]).
    simpl. by rewrite length_insertN.
  - destruct (th_ready th); [|by injection E as <-]. apply outcome_bind_inv in E as (gd & _ & E).
    apply outcome_bind_inv in E as ([[s err] x'] & Es & [= <-]).
    simpl. rewrite length_insertN. by eapply Hts.
  - by destruct (th_err th); injection E as <-.
Qed.

Lemma region_run_length r sched (x y : region) : ofold (region_step (D := D) r) sched x = Ok y →
  length (r_globals y) = length (r_globals x).
Proof using .
  revert x. induction sched as [|t sched IH]; intros x E; simpl in E; [by injection E as ->|].
  run_inv. rewrite (IH _ E). by eapply region_step_length.
Qed.

(** The start of a round: the shared sketches are emptied. *)
Lemma reset_globals_ok b T globals : globals_ok b T globals →
  ∃ gs, mapM reset_global globals = Ok gs ∧ globals_ok b T gs ∧
    ∀ gd, gd ∈ gs → sample_idx (g_sketch gd) = 0 ∧ represents (g_sketch gd) ∅ ∧
      num_merge_needed gd = umax 64 ∧ num_merge_done gd = 0.
Proof using .
  intros [HL Hsh].
  destruct (mapM_ok reset_global (λ _ gd, Shape b (g_sketch gd) ∧ sample_idx (g_sketch gd) = 0 ∧
    represents (g_sketch gd) ∅ ∧ num_merge_needed gd = umax 64 ∧ num_merge_done gd = 0) globals)
    as (gs & E & Hgs).
  - intros gd Hgd. destruct (Hsh gd Hgd) as [W L].
    destruct (zero_contents_ok _ W) as (s & E & W' & L' & I' & R'). unfold reset_global. rewrite E.
    eexists. split; [done|]. split; [split; [done|by transitivity (g_sketch gd)]|done].
  - exists gs. split; [done|].
    assert (∀ gd, gd ∈ gs → Shape b (g_sketch gd) ∧ sample_idx (g_sketch gd) = 0 ∧
      represents (g_sketch gd) ∅ ∧ num_merge_needed gd = umax 64 ∧ num_merge_done gd = 0) as Hall.
    { intros gd Hgd. apply list_elem_of_lookup in Hgd as [i Hi].
      destruct (Forall2_lookup_r _ _ _ _ _ Hgs Hi) as (g0 & _ & Hg). done. }
    split; [split|].
    + by rewrite <-(Forall2_length _ _ _ Hgs).
    + intros gd Hgd. by apply Hall.
    + intros gd Hgd. by apply Hall.
Qed.

(** A later round with samples left, under any schedule. *)
Lemma round_ok cc b G `{!CheckAccepts SC G} r T order sched mi globals (PT : Partitioned (num_vertices cc) T) :
  cc_base cc b → graph (num_vertices cc) G → vertex_sketches cc b (incident G) → cc_forest cc G →
  r ≠ 0 → r < num_samples b → instr_ok (num_vertices cc) (uf_root (dsu cc)) mi →
  globals_ok b T globals → round_reliable b r (dsu cc) (num_vertices cc) G →
  ∃ cc' m globals', perform_boruvka_round r T order sched mi globals cc = (cc', Ok (m, globals')) ∧
    round_post cc cc' b G m ∧ globals_ok b T globals'.
Proof using PlatformLaws0.
  intros Hb HG Hvs HF Hr0 Hr Hmi Hgl Hrel.
  set (n := num_vertices cc) in *.
  unfold perform_boruvka_round. rewrite (proj2 (N.eqb_neq r 0) Hr0). fold n.
  destruct (reset_globals_ok b T globals Hgl) as (gs & -> & Hgs & Hgs0). cbn [mbind outcome_bind].
  rewrite (mapM_programs n T (uf_root (dsu cc)) mi Hmi). cbn [mbind outcome_bind].
  pose proof (cb_new _ _ Hb) as Hnew. fold n in Hnew. rewrite Hnew. cbn [mbind outcome_bind].
  pose proof (in_range_interface cc b G r Hb HG Hvs HF Hr Hrel) as RI. fold n in RI.
  apply (region_interface_weaken n r _ _ _ _ (target mi)) in RI; [|intros cs; by apply (target_component cc mi cs Hmi)].
  pose proof (programs_accounts n T _ mi Hmi) as Hacc.
  destruct (region_complete n r (Shape b) (Holds b G r) (J cc G) (target mi) (total n T mi) (K n T mi) RI
    sched (programs n T mi) b cc gs) as (x & Q & e & E & HJ & Herr & _ & Hloc & Hglob & Hsh).
  - by rewrite (proj1 Hgs).
  - apply holds_empty; [split; [apply Hb|done]|apply Hb|apply Hb].
  - split; [done|]. split; [split; [reflexivity|done]|]. split; [done|]. split; [by intros u v|].
    intros _. split; [by intros u v|]. intros cs Hcs. by apply elem_of_nil in Hcs.
  - intros gd Hgd. destruct (Hgs0 gd Hgd) as (Hi & HR & Hnd). split; [|done].
    apply holds_empty; [by apply Hgs|done|done].
  - rewrite E. destruct HJ as (-> & [Hfr Hsk] & HF' & Hext & Hm).
    rewrite (proj2 Herr eq_refl). cbn [mret outcome_ret finish_region mbind outcome_bind].
    exists (r_cc x), (r_modified x), (r_globals x). split; [done|].
    pose proof Hfr as (En & _). fold n in En. split; [split|split].
    + done.
    + apply (vertex_sketches_same cc); done.
    + done.
    + intros Hmf. destruct (Hm Hmf) as [Hback HQ].
      intros u v. rewrite <-(queries_span n (dsu cc) (spanning_forest cc) G mi Q); [|apply Hb|done..| |done].
      { split; [apply Hback|apply Hext]. }
      by apply (programs_cover n T _ mi Hmi).
    + rewrite (region_run_length _ _ _ _ E). apply Hgs.
    + intros gd Hgd. apply list_elem_of_lookup in Hgd as [i Hi].
      apply (Hsh (N.of_nat i)). by rewrite lookupN_eq, Nat2N.id.
Qed.

(** * Round 0 *)

Section RoundZero.
Context (cc0 : CCSketchAlg D) (b : Sketch) (G : gset N) `{HA : !CheckAccepts SC G}.
Let n := num_vertices cc0.
Context (Hbase : cc_base cc0 b) (HG : graph n G) (Hvec : cc_vectors cc0 b (incident G)).
Context (HF0 : cc_forest cc0 G).
Context (Hfresh : ∀ x y, pair_connected (forest_pairs (spanning_forest cc0)) x y → x = y).
Context (Hrel : round_reliable b 0 (dsu cc0) n G).

Lemma comp_single v : v < n → comp (dsu cc0) n (uf_root (dsu cc0) v) = {[ v ]}.
Proof using HF0 Hfresh.
  intros Hv. destruct (fi_tracks _ _ _ _ HF0) as [_ Ht]. rewrite (fi_size _ _ _ _ HF0) in Ht. fold n in Ht.
  apply set_eq. intros w. rewrite elem_of_comp, elem_of_singleton. split; [|by intros ->].
  intros [Hw Hr]. by apply Hfresh, Ht.
Qed.

Lemma incident_cut v : v < n → incident G v = cut G (comp (dsu cc0) n (uf_root (dsu cc0) v)).
Proof using HF0 Hfresh HG.
  intros Hv. rewrite comp_single by done.
  transitivity (incident_sum G [v]); [simpl; by rewrite (right_id ∅ symdiff)|].
  rewrite (incident_sum_cut n) by (done || apply NoDup_singleton). f_equal.
  simpl. by rewrite (right_id_L ∅ (∪)).
Qed.

(** After the vertices [vs] have been sampled. *)
Definition zero_inv (vs : list N) (st : CCSketchAlg D * bool * option exn) : Prop :=
  let '(cc, m, err) := st in
  err = None ∧ frame cc0 cc ∧ vertex_sketches cc b (incident G) ∧ cc_forest cc G ∧ extends cc0 cc ∧
  (∀ v, v ∉ vs → sketches cc !! v = sketches cc0 !! v) ∧
  (m = false → extends cc cc0 ∧ ∀ v, v ∈ vs → incident G v = ∅).

Lemma sample_vertex_ok vs v st : v < n → v ∉ vs → zero_inv vs st →
  ∃ st', sample_vertex v st = Ok st' ∧ zero_inv (vs ++ [v]) st'.
Proof using Hbase HG HF0 Hfresh Hrel Hvec HA.
  destruct st as [[cc m] err]. intros Hv Hnin (-> & Hfr & [HL Hsk] & HF & Hext & Hsame & Hm).
  pose proof Hfr as (En & _). fold n in En. pose proof Hbase as [Hn _ _ _ _ Hns Hcols]. fold n in Hn.
  destruct Hvec as [HL0 Hf0]. fold n in HL0.
  destruct (lookupN_lt_is_Some (sketches cc0) v) as [s Hs]; [lia|].
  destruct (Hf0 v s Hs) as (W & L & I & R). pose proof (shape_bounds b s (conj W L)) as [Es Ec].
  pose proof (incident_cut v Hv) as Hcut. destruct (fi_tracks _ _ _ _ HF0) as [Hok0 _].
  assert (uf_root (dsu cc0) v < n) as Hroot.
  { pose proof (fi_size _ _ _ _ HF0) as Hsz. fold n in Hsz. rewrite <-Hsz.
    apply uf_root_lt; [done|by rewrite Hsz]. }
  destruct (sample_supernode_ok cc s (incident G v) G) as (cc' & m' & E & [Hfr' Hsk'] & HF' & Hext' & Hm').
  - rewrite En. lia.
  - by rewrite En.
  - done.
  - apply incident_subseteq.
  - done.
  - rewrite I. lia.
  - lia.
  - by eapply represents_on_weaken; [|exact R].
  - rewrite I, Hcut. apply (sample_reliable_layout b s); [done|]. by apply Hrel.
  - unfold sample_vertex. rewrite (Hsame v Hnin), Hs. cbn [of_option mbind outcome_bind]. rewrite E.
    eexists. split; [done|]. pose proof Hfr' as (En' & _).
    assert (v < N.of_nat (length (sketches cc'))) as Hlt by (rewrite Hsk'; lia).
    split; [done|]. split; [by transitivity cc|]. split.
    { split; [simpl; by rewrite length_insertN, Hsk', HL, En'|]. intros w t Hw. simpl in Hw.
      destruct (decide (w = v)) as [->|Hne].
      - rewrite lookupN_insert_eq in Hw by done. injection Hw as <-. exists 1. rewrite I.
        split_and!; [by apply wf_set_sample_idx|by transitivity s|done|done].
      - rewrite lookupN_insert_ne, Hsk' in Hw by done. by apply (Hsk w t). }
    split; [done|]. split; [intros x y Hxy; by apply Hext', Hext|]. split.
    { intros w Hw. apply not_elem_of_app in Hw as [Hw Hwv%not_elem_of_cons]. simpl.
      rewrite lookupN_insert_ne, Hsk' by naive_solver. by apply Hsame. }
    intros [-> ->]%orb_false_iff. destruct (Hm eq_refl) as [Hback HQ]. destruct (Hm' eq_refl) as [Hback' HX].
    split; [intros x y Hxy; by apply Hback, Hback'|]. intros w Hw.
    apply elem_of_app in Hw as [Hw|Hw]; [by apply HQ|]. apply list_elem_of_singleton in Hw as ->.
    destruct HX as [HX|(id & Hid & Hpc)]; [done|]. exfalso. rewrite Hcut in Hid.
    by apply (cut_not_connected n (dsu cc0) (spanning_forest cc0) G _ id HG HF0 Hid), Hback.
Qed.

Lemma round_zero_ok order : order ≡ₚ seqN 0 n →
  ∃ cc' m, run_round_zero order cc0 = (cc', Ok m) ∧ round_post cc0 cc' b G m.
Proof using PlatformLaws0 Hbase HG HF0 Hfresh Hrel Hvec HA.
  intros Hord. destruct (ofold_inv zero_inv order sample_vertex) with (s := (cc0, false, @None exn))
    as ([[cc m] err] & E & Herr & Hfr & Hsk & HF & Hext & _ & Hm).
  - intros vs v rest st Hl HI. assert (NoDup order) as Hnd by (rewrite Hord; apply NoDup_seqN).
    assert (v ∈ order) as Hin by (rewrite Hl; apply elem_of_app; right; left).
    rewrite Hord, elem_of_seqN in Hin. apply sample_vertex_ok; [lia| |done].
    rewrite Hl in Hnd. apply NoDup_app in Hnd as (_ & Hd & _). intros Hv. apply (Hd v Hv). left.
  - split; [done|]. split; [reflexivity|]. split; [by apply cc_vectors_sketches|]. split; [done|].
    split; [by intros x y|]. split; [done|]. intros _. split; [by intros x y|].
    intros v Hv. by apply elem_of_nil in Hv.
  - exists cc, m. unfold run_round_zero. rewrite E, Herr. split; [done|]. split; try done.
    intros Hmf. destruct (Hm Hmf) as [Hback HQ].
    assert (∀ x y, pair_connected (forest_pairs (spanning_forest cc0)) x y ↔ graph_connected G x y) as Hspan.
    { apply (cuts_empty_connected n (dsu cc0)); [apply Hbase|done|done|]. intros rho Hrho.
      destruct (decide (comp (dsu cc0) n rho = ∅)) as [Ec|Hne].
      - rewrite Ec. apply set_eq. intros id. unfold cut, crosses. rewrite elem_of_filter. set_solver.
      - apply set_choose_L in Hne as [v [Hv <-]%elem_of_comp]. rewrite <-incident_cut by done.
        apply HQ. rewrite Hord. apply elem_of_seqN. lia. }
    intros x y. rewrite <-Hspan. split; [apply Hback|apply Hext].
Qed.
End RoundZero.

(** * A round after the last sample *)

Section Exhausted.
Context (b : Sketch) (r : N) (Hr : num_samples b ≤ r) (Hr64 : r + 1 < 2 ^ 64).

Lemma range_merge_exhausted (s l : Sketch) : num_samples s = num_samples b →
  range_merge l r 1 s = if NDEBUG then (set_sample_idx (num_samples s) s, Ok tt) else (s, Abort).
Proof using Hr Hr64.
  intros Es. unfold range_merge. rewrite wrap_small by done. rewrite (proj2 (N.ltb_lt _ _)) by lia.
  unfold mbind, M_bind, cassert. by destruct NDEBUG.
Qed.

Definition HoldsX (s : Sketch) (cs : list N) : Prop :=
  Shape b s ∧ (cs ≠ [] → num_samples s ≤ sample_idx s).

Context (cc0 : CCSketchAlg D) (Hlen : length (sketches cc0) = N.to_nat (num_vertices cc0)).
Let n := num_vertices cc0.

Definition JX (cc : CCSketchAlg D) (m e : bool) (Q : list (list N)) : Prop :=
  cc = cc0 ∧ (Q ≠ [] → e = true).

Lemma exhausted_interface : NDEBUG = true → RegionInterface n r (Shape b) HoldsX JX (λ _, True).
Proof using Hr Hr64 Hlen.
  intros End.
  assert (∀ l s cs, Shape b s → ∃ s', range_merge l r 1 s = (s', Ok tt) ∧ HoldsX s' cs) as Hmerge.
  { intros l s cs [W L]. pose proof (shape_bounds b s (conj W L)) as [Es _].
    rewrite range_merge_exhausted, End by done. eexists. split; [done|]. split.
    - split; [by apply wf_set_sample_idx|]. transitivity s; [done|]. apply same_layout_set_sample_idx.
    - intros _. simpl. lia. }
  split.
  - by intros s cs [Hs _].
  - intros s [W L]. destruct (zero_contents_ok s W) as (s' & E & W' & L' & _). exists s'.
    split; [exact E|]. split; [|done]. split; [done|by transitivity s].
  - intros cc m e Q v [-> _] Hv. destruct (lookupN_lt_is_Some (sketches cc0) v) as [skt Hskt]; [lia|].
    exists skt. split; [done|]. intros s cs [Hs _]. by apply Hmerge.
  - intros s cs l cs' [Hs _] _ _. by apply Hmerge.
  - intros cc m e Q s cs [-> HQ] [Hs Hidx] Hne _. specialize (Hidx Hne).
    exists cc0, s, (Throw (OutOfSamplesException (sk_seed s) (num_samples s) (sample_idx s))).
    split; [|split; [done|split; [by do 3 eexists|by split]]]. unfold sample_supernode, zoom. unfold mbind at 1, M_bind at 1.
    cbn [snd]. unfold sketch_sample. by rewrite (proj2 (N.leb_le _ _) Hidx).
Qed.

(** In a debug build the first merge fails its assertion. *)
Lemma exhausted_abort sched (x : region (D := D)) :
  NDEBUG = false → r_cc x = cc0 →
  (∀ (t : nat) th, r_threads x !! t = Some th → Shape b (th_sketch th) ∧
     ∃ c rest, th_todo th = AMerge c :: rest ∧ c < n) →
  (∃ t : nat, t ∈ sched ∧ (t < length (r_threads x))%nat) →
  ofold (region_step r) sched x = Abort.
Proof using Hr Hr64 Hlen.
  intros End Ecc Hthr. induction sched as [|t sched IH]; intros (u & Hu & Hlt); [by apply elem_of_nil in Hu|].
  cbn [ofold]. destruct (r_threads x !! t) as [th|] eqn:Eth.
  - assert (region_step r t x = Abort) as ->; [|done]. unfold region_step. rewrite Eth.
    destruct (Hthr t th Eth) as (Hs & c & rest & -> & Hc). unfold act_step. rewrite Ecc.
    destruct (lookupN_lt_is_Some (sketches cc0) c) as [skt ->]; [lia|]. cbn [of_option mbind outcome_bind].
    rewrite range_merge_exhausted by apply (shape_bounds b _ Hs). by rewrite End.
  - assert (region_step r t x = Ok x) as ->; [unfold region_step; by rewrite Eth|].
    cbn [mbind outcome_bind]. apply IH. exists u. split; [|done]. apply elem_of_cons in Hu as [->|Hu]; [|done].
    apply lookup_ge_None in Eth. lia.
Qed.

Lemma round_exhausted T order sched mi globals (PT : Partitioned n T) :
  cc_base cc0 b → r ≠ 0 → instr_ok n (uf_root (dsu cc0)) mi → globals_ok b T globals →
  if NDEBUG then ∃ e, perform_boruvka_round r T order sched mi globals cc0 = (cc0, Throw e) ∧ out_of_samples e
  else perform_boruvka_round r T order sched mi globals cc0 = (cc0, Abort).
Proof using Hr Hr64 Hlen.
  intros Hb Hr0 Hmi Hgl. unfold perform_boruvka_round. rewrite (proj2 (N.eqb_neq r 0) Hr0). fold n.
  destruct (reset_globals_ok b T globals Hgl) as (gs & -> & Hgs & Hgs0). cbn [mbind outcome_bind].
  rewrite (mapM_programs n T (uf_root (dsu cc0)) mi Hmi). cbn [mbind outcome_bind].
  pose proof (cb_new _ _ Hb) as Hnew. fold n in Hnew. rewrite Hnew. cbn [mbind outcome_bind].
  assert (Shape b b) as Hsb by (split; [apply Hb|done]).
  pose proof (programs_accounts n T _ mi Hmi) as Hacc. destruct NDEBUG eqn:End.
  - pose proof (exhausted_interface End) as RI.
    apply (region_interface_weaken n r _ _ _ _ (target mi)) in RI; [|done].
    destruct (region_complete n r (Shape b) HoldsX JX (target mi) (total n T mi) (K n T mi) RI
      sched (programs n T mi) b cc0 gs) as (x & Q & e & E & [Ecc HQ] & Herr & Hexn & Hloc & Hglob & _).
    + by rewrite (proj1 Hgs).
    + by split.
    + by split.
    + intros gd Hgd. destruct (Hgs0 gd Hgd) as (_ & _ & Hnd). split; [|done]. split; [by apply Hgs|done].
    + rewrite E, Ecc. destruct (mi_lookup n _ mi Hmi 0) as [y Hy]; [apply pt_range|].
      assert (Q ≠ []) as HQne.
      { destruct (programs_cover n T _ mi Hmi Q Hloc Hglob (instr_root y)) as (cs & Hcs & _).
        - apply (occurs_sel n _ mi Hmi), sel_not_nil. exists y. split; [|done]. by eapply list_elem_of_lookup_2.
        - intros ->. by apply elem_of_nil in Hcs. }
      rewrite (HQ HQne) in Herr. destruct (r_err x) as [ex|]; [exists ex; split; [done|by apply Hexn]|].
      by pose proof (proj1 Herr eq_refl).
  - assert (∀ t, t < T → ∃ c rest, prog n T mi t = AMerge c :: rest ∧ c < n) as Hprog.
    { intros t Ht. destruct (chunk_nonempty n T _ mi Hmi t Ht) as (y & c & Ec & Hy). unfold prog.
      rewrite Ec. cbn [spec_prog]. rewrite N.eqb_refl. eexists _, _. split; [done|].
      by apply (child_bound n _ mi Hmi _ y Hy). }
    rewrite exhausted_abort; [done|done|done| |].
    + intros t th Hth. simpl in Hth. rewrite list_lookup_fmap in Hth.
      apply fmap_Some in Hth as (p & Hp & ->). split; [done|]. simpl.
      unfold programs in Hp. rewrite list_lookup_fmap in Hp. apply fmap_Some in Hp as (u & Hu & ->).
      apply Hprog. apply list_elem_of_lookup_2, elem_of_seqN in Hu. lia.
    + pose proof pt_range as (_ & HT). exists 0%nat. simpl. unfold programs. split; [|rewrite !length_fmap, length_seqN; lia].
      apply elem_of_app. right. destruct (Hprog 0 ltac:(lia)) as (c & rest & Ep & _).
      assert (seqN 0 T = 0 :: seqN 1 (N.pred T)) as ET.
      { rewrite <-(N.succ_pred T) at 1 by lia. apply seqN_cons. }
      rewrite ET, fmap_cons, Ep. left.
Qed.
End Exhausted.
End Query.
