(* ===== verification/Instructions.v ===== *)
(** [create_merge_instructions] groups the vertices by root.

    Whatever the order of the atomic captures, the array written in parallel is
    the list [expected]: for each root in turn, the vertices of its requests in
    the order they were captured. It satisfies [instr_ok], what the next round
    needs ([create_merge_instructions_ok]). *)
From stdpp Require Import sorting.
From S2P Require Import Prelude Platform Partition Dsu CCAlg MergeInstr Region Programs.

Open Scope N_scope.

(** ** Lists *)

Lemma combine_fmap {A B C} (f : A → B) (g : A → C) l :
  combine (f <$> l) (g <$> l) = (λ x, (f x, g x)) <$> l.
Proof. induction l as [|x l IH]; [done|]. simpl. f_equal. exact IH. Qed.

Lemma combine_fmap_r {A C} (g : A → C) l : combine l (g <$> l) = (λ x, (x, g x)) <$> l.
Proof. induction l as [|x l IH]; [done|]. simpl. f_equal. exact IH. Qed.

Lemma elem_of_concat {A} (x : A) ls : x ∈ concat ls ↔ ∃ l, x ∈ l ∧ l ∈ ls.
Proof.
  induction ls as [|l ls IH]; simpl; [split; [by intros ?%elem_of_nil|by intros (l & _ & ?%elem_of_nil)]|].
  rewrite elem_of_app, IH. setoid_rewrite elem_of_cons. naive_solver.
Qed.

(** Positions of a concatenation. *)
Lemma lookup_bind_inv {A B} (f : A → list B) l (p : nat) x : (l ≫= f) !! p = Some x →
  ∃ l1 y l2 (j : nat), l = l1 ++ y :: l2 ∧ p = (length (l1 ≫= f) + j)%nat ∧ f y !! j = Some x.
Proof.
  revert p. induction l as [|y l IH]; intros p Hp; [done|]. cbn [mbind list_bind] in Hp.
  apply lookup_app_Some in Hp as [Hp|[Hle Hp]].
  - by exists [], y, l, p.
  - destruct (IH _ Hp) as (l1 & z & l2 & j & -> & Hj & Hx). exists (y :: l1), z, l2, j.
    split; [done|]. split; [|done]. cbn [mbind list_bind]. rewrite length_app. lia.
Qed.

Lemma lookup_bind_at {A B} (f : A → list B) l1 y l2 (j : nat) x : f y !! j = Some x →
  ((l1 ++ y :: l2) ≫= f) !! (length (l1 ≫= f) + j)%nat = Some x.
Proof.
  intros Hx. rewrite bind_app, lookup_app_r by lia.
  replace (length (l1 ≫= f) + j - length (l1 ≫= f))%nat with j by lia.
  cbn [mbind list_bind]. apply lookup_app_l_Some, Hx.
Qed.

Lemma bind_app_perm {A B} (f g : A → list B) l : l ≫= (λ x, f x ++ g x) ≡ₚ (l ≫= f) ++ (l ≫= g).
Proof.
  induction l as [|x l IH]; [done|]. cbn [mbind list_bind]. rewrite IH, !app_assoc. f_equiv.
  rewrite <-!app_assoc. f_equiv. apply Permutation_app_comm.
Qed.

Lemma sorted_app {A} (R : relation A) l1 l2 : StronglySorted R l1 → StronglySorted R l2 →
  (∀ x y, x ∈ l1 → y ∈ l2 → R x y) → StronglySorted R (l1 ++ l2).
Proof.
  intros Hs1 Hs2 HR. induction Hs1 as [|x l1 Hs IH Hall]; [done|]. simpl. constructor.
  - apply IH. intros y z Hy. apply HR. by right.
  - apply Forall_app. split; [done|]. apply Forall_forall. intros y Hy. apply HR; [left|done].
Qed.

(** ** Interleavings *)

Lemma interleave_perm {A} sched (ls : list (list A)) : interleave sched ls ≡ₚ concat ls.
Proof.
  revert ls. induction sched as [|t sched IH]; intros ls; [done|]. simpl.
  destruct (ls !! t) as [[|x l]|] eqn:E; [apply IH| |apply IH]. rewrite IH.
  rewrite insert_take_drop by (by eapply lookup_lt_Some). rewrite <-(take_drop_middle ls t _ E) at 3.
  rewrite !concat_app. simpl. by rewrite Permutation_middle.
Qed.

(** Lists whose elements carry the index of their list, from [k] on. *)
Lemma concat_filter_tag {A} (ls : list (list (nat * A))) (k t : nat) :
  (∀ (u : nat) l x, ls !! u = Some l → x ∈ l → x.1 = (k + u)%nat) →
  filter (λ x, x.1 = t) (concat ls) = if decide (k ≤ t)%nat then default [] (ls !! (t - k)%nat) else [].
Proof.
  revert k. induction ls as [|l ls IH]; intros k Htag; simpl.
  { by destruct (decide _). }
  rewrite filter_app, (IH (S k)).
  2: { intros u l' x Hl Hx. rewrite (Htag (S u) l' x Hl Hx). lia. }
  assert (∀ x, x ∈ l → x.1 = k) as Hl by (intros x Hx; rewrite (Htag 0%nat l x) by done; lia).
  destruct (decide (t = k)) as [->|Hne].
  - rewrite (decide_False (P := (S k ≤ k)%nat)), decide_True, Nat.sub_diag, app_nil_r by lia. simpl.
    clear -Hl. induction l as [|x l IH]; [done|]. rewrite filter_cons, decide_True by (apply Hl; left).
    f_equal. apply IH. intros y Hy. apply Hl. by right.
  - assert (filter (λ x, x.1 = t) l = []) as ->.
    { clear -Hl Hne. induction l as [|x l IH]; [done|].
      rewrite filter_cons, decide_False by (rewrite (Hl x) by left; lia).
      apply IH. intros y Hy. apply Hl. by right. }
    simpl. destruct (decide (S k ≤ t)%nat), (decide (k ≤ t)%nat); try lia; [|done].
    replace (t - k)%nat with (S (t - S k)) by lia. done.
Qed.

(** An interleaving keeps each list's order. *)
Lemma interleave_filter {A} sched (ls : list (list (nat * A))) (t : nat) :
  (∀ (u : nat) l x, ls !! u = Some l → x ∈ l → x.1 = u) →
  filter (λ x, x.1 = t) (interleave sched ls) = default [] (ls !! t).
Proof.
  revert ls. induction sched as [|u sched IH]; intros ls Htag; simpl.
  - rewrite (concat_filter_tag ls 0 t Htag), decide_True by lia. by rewrite Nat.sub_0_r.
  - destruct (ls !! u) as [[|x l]|] eqn:E; [by apply IH| |by apply IH].
    rewrite filter_cons. pose proof (Htag u _ x E ltac:(left)) as Hx.
    rewrite IH.
    + assert (u < length ls)%nat as Hlt by (by eapply lookup_lt_Some).
      destruct (decide (u = t)) as [->|Hne].
      * rewrite decide_True, list_lookup_insert_eq, E by done. done.
      * rewrite decide_False by congruence. by rewrite list_lookup_insert_ne.
    + intros v l' y Hl' Hy. apply list_lookup_insert_Some in Hl' as [(-> & <- & _)|[_ Hl']].
      * apply (Htag v _ y E). by right.
      * by apply (Htag v l').
Qed.

(** * Phase 1: the components of a thread's vertices *)

Section Phase1.
Context `{UnionFindLaws D}.

(** Each list holds vertices of its root; together they are [vs]. *)
Definition good_ccs (rt : N → N) (vs : list N) (ccs : list local_cc) : Prop :=
  (∀ r ws, (r, ws) ∈ ccs → ws ≠ [] ∧ ∀ v, v ∈ ws → rt v = r) ∧ concat (snd <$> ccs) ≡ₚ vs.

Lemma push_local_good rt vs ccs v : good_ccs rt vs ccs → good_ccs rt (vs ++ [v]) (push_local (rt v) v ccs).
Proof using .
  intros [Hr Hp].
  assert (concat (snd <$> push_local (rt v) v ccs) ≡ₚ concat (snd <$> ccs) ++ [v]) as Hpush.
  { clear Hr Hp. induction ccs as [|[r ws] ccs IH]; [done|]. simpl. destruct (r =? rt v); simpl.
    - rewrite <-!app_assoc. f_equiv. apply Permutation_app_comm.
    - by rewrite IH, app_assoc. }
  split; [|by rewrite Hpush, Hp]. clear Hp Hpush. induction ccs as [|[r ws] ccs IH]; simpl; intros r' ws' Hin.
  - apply list_elem_of_singleton in Hin. simplify_eq. split; [done|]. by intros w ->%list_elem_of_singleton.
  - assert (∀ r ws, (r, ws) ∈ ccs → ws ≠ [] ∧ ∀ v, v ∈ ws → rt v = r) as Hr' by (intros; apply Hr; by right).
    destruct (Hr r ws (list_elem_of_here _ _)) as [Hne Hws].
    destruct (N.eqb_spec r (rt v)) as [->|_]; apply elem_of_cons in Hin as [[= -> ->]|Hin].
    + split; [by destruct ws|]. intros w [Hw|Hw]%elem_of_app; [by apply Hws|].
      by apply list_elem_of_singleton in Hw as ->.
    + by apply Hr'.
    + by split.
    + by apply (IH Hr' r' ws').
Qed.

(** Finding roots leaves the classes and their roots alone. *)
Definition uf_same (d d' : D) : Prop :=
  uf_ok d' ∧ uf_size d' = uf_size d ∧ ∀ x, x < uf_size d → uf_root d' x = uf_root d x.

Lemma uf_same_trans d1 d2 d3 : uf_same d1 d2 → uf_same d2 d3 → uf_same d1 d3.
Proof using .
  intros (_ & Hs2 & Hr2) (Ho & Hs3 & Hr3). split; [done|]. split; [congruence|].
  intros x Hx. rewrite Hr3, Hr2; [done..|]. by rewrite Hs2.
Qed.

Lemma local_components_ok mi (s len : N) d : uf_ok d →
  s + len ≤ N.of_nat (length mi) → (∀ x, x ∈ mi → instr_child x < uf_size d) →
  ∃ d' ccs, local_components mi s (s + len) d = (d', Ok ccs) ∧ uf_same d d' ∧
    good_ccs (uf_root d) (instr_child <$> take (N.to_nat len) (drop (N.to_nat s) mi)) ccs.
Proof using .
  intros Hok Hlen Hch. unfold local_components, run_loop. replace (s + len - s) with len by lia.
  set (body := λ (i : N) '(d, ccs), _).
  destruct (ofold_range (λ k '(d', ccs), uf_same d d' ∧
      good_ccs (uf_root d) (instr_child <$> take (N.to_nat k) (drop (N.to_nat s) mi)) ccs) s len body)
    with (s := (d, [] : list local_cc)) as ([d' ccs] & -> & Hs & Hg).
  - intros k [d1 ccs] Hk [Hs Hg]. unfold body.
    destruct (lookupN_lt_is_Some mi (s + k)) as [x Hx]; [lia|]. rewrite Hx. cbn [of_option mbind outcome_bind].
    assert (instr_child x < uf_size d) as Hc by (apply Hch; by eapply list_elem_of_lookup_2).
    destruct Hs as (Hok1 & Hsz1 & Hr1).
    destruct (uf_find_ok d1 (instr_child x) Hok1) as (d2 & E & Hok2 & Hsz2 & Hr2); [by rewrite Hsz1|].
    rewrite E. eexists. split; [done|]. split.
    + split; [done|]. split; [congruence|]. intros y Hy. by rewrite Hr2, Hr1 by congruence.
    + replace (N.to_nat (k + 1)) with (S (N.to_nat k)) by lia.
      rewrite (take_S_r _ _ x), fmap_app; [rewrite Hr1 by done; by apply push_local_good|].
      rewrite lookup_drop, <-Hx, lookupN_eq. f_equal. lia.
  - split; [by split|]. split; [intros r ws Hin; by apply elem_of_nil in Hin|done].
  - exists d', ccs. done.
Qed.

Lemma good_ccs_concat rt (vss : list (list N)) ccss : Forall2 (good_ccs rt) vss ccss →
  good_ccs rt (concat vss) (concat ccss).
Proof using .
  induction 1 as [|vs ccs vss ccss [Hr Hp] _ [IHr IHp]]; simpl.
  - split; [intros r ws Hin; by apply elem_of_nil in Hin|done].
  - split.
    + intros r ws [Hin|Hin]%elem_of_app; [by apply Hr|by apply IHr].
    + by rewrite fmap_app, concat_app, Hp, IHp.
Qed.
End Phase1.

(** * The requests and where their vertices go *)

Definition request : Type := nat * local_cc.
Definition req_root (q : request) : N := q.2.1.
Definition req_vertices (q : request) : list N := q.2.2.

(** The instructions of root [r], in the order of the captures [R]. *)
Definition block (R : list request) (r : N) : list MergeInstr :=
  R ≫= (λ q, if req_root q =? r then mkInstr r <$> req_vertices q else []).

Definition expected (n : N) (R : list request) : list MergeInstr := seqN 0 n ≫= block R.

(** How many vertices root [r] has, and the roots below [r]. *)
Definition cnt (R : list request) (r : N) : N := N.of_nat (length (block R r)).
Definition csum (R : list request) (r : N) : N := N.of_nat (length (seqN 0 r ≫= block R)).

(** The requests with the index each capture returns. *)
Fixpoint captured (before R : list request) : list (request * N) :=
  match R with
  | [] => []
  | q :: R => (q, cnt before (req_root q)) :: captured (before ++ [q]) R
  end.

Lemma block_app R1 R2 r : block (R1 ++ R2) r = block R1 r ++ block R2 r.
Proof. unfold block. by rewrite bind_app. Qed.

Lemma block_one q r : block [q] r = if req_root q =? r then mkInstr r <$> req_vertices q else [].
Proof. unfold block. cbn. by rewrite app_nil_r. Qed.

Lemma cnt_app R1 R2 r : cnt (R1 ++ R2) r = cnt R1 r + cnt R2 r.
Proof. unfold cnt. rewrite block_app, length_app. lia. Qed.

Lemma csum_0 R : csum R 0 = 0.
Proof. done. Qed.

Lemma csum_succ R r : csum R (r + 1) = csum R r + cnt R r.
Proof.
  unfold csum, cnt. rewrite N.add_1_r, seqN_S_end, bind_app, length_app. cbn [mbind list_bind].
  rewrite app_nil_r, N.add_0_l. lia.
Qed.

Lemma csum_mono R i j : i ≤ j → csum R i ≤ csum R j.
Proof.
  intros Hij. replace j with (i + (j - i)) by lia. induction (j - i) as [|k IH] using N.peano_ind; [by rewrite N.add_0_r|].
  rewrite N.add_succ_r, <-N.add_1_r, csum_succ. lia.
Qed.

Lemma csum_expected n R : csum R n = N.of_nat (length (expected n R)).
Proof. done. Qed.

Lemma captured_elem q i before R : (q, i) ∈ captured before R →
  ∃ R1 R2, R = R1 ++ q :: R2 ∧ i = cnt (before ++ R1) (req_root q).
Proof.
  revert before. induction R as [|q' R IH]; intros before; simpl; [by intros ?%elem_of_nil|].
  intros [[= -> ->]|Hin]%elem_of_cons.
  - exists [], R. split; [done|]. by rewrite app_nil_r.
  - destruct (IH _ Hin) as (R1 & R2 & -> & ->). exists (q' :: R1), R2. split; [done|]. by rewrite <-app_assoc.
Qed.

Lemma captured_app before R1 R2 : captured before (R1 ++ R2) = captured before R1 ++ captured (before ++ R1) R2.
Proof.
  revert before. induction R1 as [|q R1 IH]; intros before; simpl; [by rewrite app_nil_r|].
  by rewrite IH, <-app_assoc.
Qed.

Lemma captured_fst before R : (captured before R).*1 = R.
Proof. revert before. induction R as [|q R IH]; intros before; simpl; [done|]. by rewrite IH. Qed.

(** A captured request's vertices lie at its index in its root's block. *)
Lemma expected_at n R q i (j : N) v : (q, i) ∈ captured [] R → req_root q < n →
  req_vertices q !! j = Some v →
  expected n R !! (csum R (req_root q) + i + j) = Some (mkInstr (req_root q) v).
Proof.
  intros (R1 & R2 & -> & ->)%captured_elem Hr Hv. set (r := req_root q). set (R := R1 ++ q :: R2).
  assert (block R r !! (length (block R1 r) + N.to_nat j)%nat = Some (mkInstr r v)) as Hb.
  { unfold R. apply (lookup_bind_at (λ q, if req_root q =? r then mkInstr r <$> req_vertices q else [])).
    fold r. rewrite N.eqb_refl, list_lookup_fmap. rewrite lookupN_eq in Hv. by rewrite Hv. }
  unfold expected. replace n with (r + N.succ (n - r - 1)) by lia.
  rewrite seqN_app, seqN_cons, N.add_0_l.
  pose proof (lookup_bind_at (block R) (seqN 0 r) r (seqN (N.succ r) (n - r - 1)) _ _ Hb) as He.
  rewrite lookupN_eq. etrans; [|exact He]. f_equal. unfold csum, cnt. cbn [app]. lia.
Qed.

Lemma expected_inv n R (p : N) x : expected n R !! p = Some x →
  ∃ q i (j : N) v, (q, i) ∈ captured [] R ∧ req_root q < n ∧ req_vertices q !! j = Some v ∧
    x = mkInstr (req_root q) v ∧ p = csum R (req_root q) + i + j.
Proof.
  unfold expected. rewrite lookupN_eq. intros Hp.
  apply lookup_bind_inv in Hp as (l1 & r & l2 & j & El & Ep & Hx).
  assert (l1 = seqN 0 r ∧ r < n) as [-> Hr].
  { assert (length l1 < N.to_nat n)%nat as Hlt.
    { rewrite <-(length_seqN 0 n), El, length_app. simpl. lia. }
    pose proof (lookup_seqN 0 n (N.of_nat (length l1)) ltac:(lia)) as Hl.
    rewrite El, lookupN_eq, Nat2N.id, list_lookup_middle in Hl by done. injection Hl as ->.
    rewrite N.add_0_l. split; [|lia].
    assert (l1 = take (length l1) (seqN 0 n)) as E1 by (by rewrite El, take_app_length).
    rewrite E1 at 1. replace n with (N.of_nat (length l1) + (n - N.of_nat (length l1))) at 1 by lia.
    rewrite seqN_app, take_app_length'; [done|]. rewrite length_seqN. lia. }
  unfold block in Hx. apply lookup_bind_inv in Hx as (R1 & q & R2 & k & -> & -> & Hx).
  destruct (N.eqb_spec (req_root q) r) as [<-|]; [|done].
  rewrite list_lookup_fmap in Hx. apply fmap_Some in Hx as (v & Hv & ->).
  exists q, (cnt R1 (req_root q)), (N.of_nat k), v. split_and!; try done.
  - rewrite captured_app. apply elem_of_app. right. simpl. left.
  - by rewrite lookupN_eq, Nat2N.id.
  - fold (block (R1 ++ q :: R2)) in Ep. unfold csum, cnt. unfold block at 2. lia.
Qed.

(** The expected array is what the next round needs. *)
Section Expected.
Context (n : N) (rt : N → N) (R : list request).
Context (Hroot : ∀ q v, q ∈ R → v ∈ req_vertices q → rt v = req_root q).
Context (Hbound : ∀ q v, q ∈ R → v ∈ req_vertices q → req_root q < n).
Context (Hperm : concat (req_vertices <$> R) ≡ₚ seqN 0 n).

Lemma elem_of_block r x : x ∈ block R r → instr_root x = r ∧
  ∃ q, q ∈ R ∧ req_root q = r ∧ instr_child x ∈ req_vertices q.
Proof using .
  intros (q & Hx & Hq)%list_elem_of_bind. destruct (N.eqb_spec (req_root q) r) as [<-|]; [|by apply elem_of_nil in Hx].
  apply list_elem_of_fmap in Hx as (v & -> & Hv). split; [done|]. by exists q.
Qed.

Lemma expected_sorted k : StronglySorted root_le (seqN 0 k ≫= block R).
Proof using .
  induction k as [|k IH] using N.peano_ind; [constructor|].
  rewrite seqN_S_end, bind_app. cbn [mbind list_bind]. rewrite app_nil_r, N.add_0_l. apply sorted_app; [done| |].
  - assert (∀ x, x ∈ block R k → instr_root x = k) as Hk by (intros x Hx; by apply elem_of_block in Hx as [? _]).
    induction (block R k) as [|x l IHl]; [constructor|]. constructor; [apply IHl; intros y Hy; apply Hk; by right|].
    apply Forall_forall. intros y Hy. unfold root_le. rewrite (Hk x), (Hk y); [done|by right|by left].
  - intros x y Hx [Hy _]%elem_of_block. apply list_elem_of_bind in Hx as (r & [Hx _]%elem_of_block & Hr%elem_of_seqN).
    unfold root_le. lia.
Qed.

Lemma expected_children_perm (Rs : list request) :
  (∀ q v, q ∈ Rs → v ∈ req_vertices q → req_root q < n) →
  instr_child <$> (seqN 0 n ≫= block Rs) ≡ₚ concat (req_vertices <$> Rs).
Proof using .
  induction Rs as [|q Rs IH]; intros Hb.
  - assert (seqN 0 n ≫= block [] = []) as -> by (by apply bind_all_nil). done.
  - assert (seqN 0 n ≫= block (q :: Rs) = seqN 0 n ≫= (λ r, block [q] r ++ block Rs r)) as ->.
    { apply bind_ext_in. intros r _. by rewrite <-block_app. }
    rewrite bind_app_perm, fmap_app, IH by (intros q' v Hq; apply (Hb q'); by right).
    change (concat (req_vertices <$> q :: Rs)) with (req_vertices q ++ concat (req_vertices <$> Rs)).
    apply Permutation_app_tail.
    destruct (decide (req_vertices q = [])) as [E|Hne].
    + rewrite E. assert (seqN 0 n ≫= block [q] = []) as ->; [|done].
      apply bind_all_nil. intros r _. rewrite block_one, E. by destruct (_ =? _).
    + destruct (req_vertices q) as [|v vs] eqn:E; [done|].
      assert (req_root q < n) as Hr by (apply (Hb q v); [left|rewrite E; left]).
      rewrite (bind_single _ _ (req_root q)); [|apply NoDup_seqN|apply elem_of_seqN; lia|].
      * rewrite block_one, N.eqb_refl, E, <-list_fmap_compose. simpl. by rewrite list_fmap_id.
      * intros r _ Hne'. rewrite block_one. by rewrite (proj2 (N.eqb_neq _ _)) by congruence.
Qed.

Lemma expected_ok : instr_ok n rt (expected n R).
Proof using Hroot Hbound Hperm.
  split.
  - unfold expected. rewrite expected_children_perm by done. done.
  - intros x (r & (Hr & q & Hq & <- & Hx)%elem_of_block & _)%list_elem_of_bind.
    rewrite Hr. symmetry. by apply (Hroot q).
  - intros x (r & [-> _]%elem_of_block & Hr%elem_of_seqN)%list_elem_of_bind. lia.
  - apply expected_sorted.
Qed.
End Expected.

(** * The phases after the searches *)

Section Phases.
Context (n T : N) `{PT : Partitioned n T} (R : list request).
Context (Hbound : ∀ q, q ∈ R → req_root q < n) (Htotal : csum R n = n).

Lemma csum_le i : i ≤ n → csum R i ≤ n.
Proof using Htotal. intros Hi. pose proof (csum_mono R i n Hi). lia. Qed.

Lemma cnt_le r : r < n → cnt R r ≤ n.
Proof using Htotal.
  intros Hr. pose proof (csum_le (r + 1) ltac:(lia)) as Hc. rewrite csum_succ in Hc. lia.
Qed.

(** ** The atomic captures *)

Definition tagged (t : nat) (C : list (request * N)) : list (request * N) := filter (λ x, x.1.1 = t) C.

Definition capture_inv (threads : nat) (seen : list request) (st : list N * list (list N)) : Prop :=
  length st.1 = N.to_nat n ∧ (∀ r, r < n → st.1 !! r = Some (cnt seen r)) ∧
  length st.2 = threads ∧
  ∀ t : nat, (t < threads)%nat → st.2 !! t = Some ((tagged t (captured [] seen)).*2).

Lemma capture_eq (q : request) cp idxs idx idx_t :
  cp !! req_root q = Some idx → idxs !! q.1 = Some idx_t →
  capture q (cp, idxs) =
  Ok (<[req_root q := u32 (idx + N.of_nat (length (req_vertices q)))]> cp, <[q.1 := idx_t ++ [idx]]> idxs).
Proof using .
  destruct q as [t [r vs]]. unfold req_root, req_vertices. simpl. intros Hr Ht. by rewrite Hr; simpl; rewrite Ht.
Qed.

Lemma cnt_one q : cnt [q] (req_root q) = N.of_nat (length (req_vertices q)).
Proof using . unfold cnt. by rewrite block_one, N.eqb_refl, length_fmap. Qed.

Lemma capture_step threads seen q rest st : R = seen ++ q :: rest → (q.1 < threads)%nat →
  capture_inv threads seen st → ∃ st', capture q st = Ok st' ∧ capture_inv threads (seen ++ [q]) st'.
Proof using Hbound Htotal PT.
  destruct st as [cp idxs]. intros ER Ht (HL & Hcp & HT & Hidx). simpl in *.
  assert (req_root q < n) as Hr by (apply Hbound; rewrite ER; apply elem_of_app; right; left).
  pose proof pt_range as (Hn & _). rewrite (capture_eq q cp idxs _ _ (Hcp _ Hr) (Hidx _ Ht)).
  eexists. split; [done|].
  assert (cnt seen (req_root q) + N.of_nat (length (req_vertices q)) < 2 ^ 32) as Hlt.
  { pose proof (cnt_le _ Hr) as Hle. rewrite ER in Hle. change (q :: rest) with ([q] ++ rest) in Hle.
    rewrite !cnt_app, cnt_one in Hle. lia. }
  split_and!; simpl.
  - by rewrite length_insertN.
  - intros r' Hr'. rewrite cnt_app. destruct (decide (r' = req_root q)) as [->|Hne].
    + rewrite lookupN_insert_eq by lia. by rewrite wrap_small, cnt_one.
    + rewrite lookupN_insert_ne by done. rewrite (Hcp r' Hr'). f_equal. unfold cnt at 3. rewrite block_one.
      rewrite (proj2 (N.eqb_neq (req_root q) r')) by done. simpl. lia.
  - by rewrite length_insert.
  - intros u Hu. rewrite captured_app. simpl. unfold tagged. rewrite filter_app, fmap_app.
    unfold tagged in Hidx. destruct (decide (u = q.1)) as [->|Hne].
    + rewrite list_lookup_insert_eq by lia. rewrite filter_cons, decide_True by done. done.
    + rewrite list_lookup_insert_ne by done. rewrite (Hidx u Hu), filter_cons, decide_False by done.
      simpl. by rewrite app_nil_r.
Qed.

Lemma capture_ok threads : (∀ q, q ∈ R → (q.1 < threads)%nat) →
  ∃ st, ofold capture R (replicate (N.to_nat n) 0, replicate threads []) = Ok st ∧ capture_inv threads R st.
Proof using Hbound Htotal PT.
  intros Htag. apply (ofold_inv (capture_inv threads)).
  - intros seen q rest st ER HI. apply (capture_step _ _ _ rest); [done| |done].
    apply Htag. rewrite ER. apply elem_of_app. right. left.
  - split_and!; simpl.
    + by rewrite length_replicate.
    + intros r Hr. rewrite lookupN_eq. rewrite lookup_replicate_2 by lia. done.
    + by rewrite length_replicate.
    + intros t Ht. by rewrite lookup_replicate_2.
Qed.

(** ** The prefix sums *)

Lemma add_to_ok (i x y : N) cp : cp !! i = Some y → y + x < 2 ^ 32 →
  add_to i x cp = Ok (<[i := y + x]> cp).
Proof using . intros Hy Hlt. unfold add_to. rewrite Hy. simpl. by rewrite wrap_small. Qed.

(** A thread sums the counts of its part. *)
Lemma local_prefix_sum_ok s e cp : s < e → e ≤ n → length cp = N.to_nat n →
  (∀ i, s ≤ i → i < e → cp !! i = Some (cnt R i)) →
  ∃ cp', local_prefix_sum s e cp = Ok cp' ∧ length cp' = N.to_nat n ∧
    ∀ i, i < n → cp' !! i = if (s <=? i) && (i <? e) then Some (csum R (i + 1) - csum R s) else cp !! i.
Proof using Htotal PT.
  intros Hse Hen HL Hcp. unfold local_prefix_sum. pose proof pt_range as (Hn & _).
  destruct (ofold_range (λ k cp', length cp' = N.to_nat n ∧ ∀ i, i < n →
      cp' !! i = if (s <=? i) && (i <? s + 1 + k) then Some (csum R (i + 1) - csum R s) else cp !! i)
    (s + 1) (e - (s + 1)) (λ i cp, x ← of_option (cp !! (i - 1)); add_to i x cp) )
    with (s := cp) as (cp' & E & HL' & Hcp').
  - intros k c Hk [HLc Hc]. set (i := s + 1 + k).
    rewrite (Hc (i - 1)) by lia. rewrite (proj2 (N.leb_le _ _)), (proj2 (N.ltb_lt _ _)) by lia.
    cbn [andb of_option mbind outcome_bind]. replace (i - 1 + 1) with i by lia.
    assert (c !! i = Some (cnt R i)) as Hi.
    { rewrite (Hc i) by lia. rewrite (proj2 (N.ltb_ge i (s + 1 + k))), andb_false_r by lia. apply Hcp; lia. }
    pose proof (csum_le (i + 1) ltac:(lia)) as Hle. pose proof (csum_mono R s i ltac:(lia)) as Hmono.
    rewrite csum_succ in Hle. rewrite (add_to_ok i _ (cnt R i)) by (done || lia).
    eexists. split; [done|]. split; [by rewrite length_insertN|]. intros j Hj.
    destruct (decide (j = i)) as [->|Hne].
    + rewrite lookupN_insert_eq by lia. rewrite (proj2 (N.leb_le _ _)), (proj2 (N.ltb_lt _ _)) by lia.
      simpl. f_equal. rewrite csum_succ. lia.
    + rewrite lookupN_insert_ne, (Hc j) by done. f_equal.
      replace (j <? s + 1 + (k + 1)) with (j <? s + 1 + k); [done|]. bool_cases; lia || done.
  - split; [done|]. intros i Hi. rewrite N.add_0_r.
    destruct (N.leb_spec s i), (N.ltb_spec i (s + 1)); simpl; try done.
    assert (i = s) as -> by lia. rewrite Hcp by lia. rewrite csum_succ. f_equal. lia.
  - exists cp'. split; [exact E|]. split; [done|]. intros i Hi. rewrite (Hcp' i Hi).
    by replace (s + 1 + (e - (s + 1))) with e by lia.
Qed.

Definition bounds (t : N) : N * N := (pt_bound t, pt_bound (t + 1)).

Lemma mapM_parts : mapM (λ t, get_ith_partition n t T) (seqN 0 T) = Ok (bounds <$> seqN 0 T).
Proof using .
  assert (∀ t, t ∈ seqN 0 T → t < T) as Hin by (intros t; rewrite elem_of_seqN; clear; lia).
  induction (seqN 0 T) as [|t l IH]; [done|]. cbn [mapM]. rewrite pt_get by (apply Hin; left).
  cbn [mbind outcome_bind]. rewrite IH by (intros u Hu; apply Hin; by right). done.
Qed.

(** All threads sum their parts; then each sum is relative to its part. *)
Lemma prefix_sums_ok cp : length cp = N.to_nat n → (∀ i, i < n → cp !! i = Some (cnt R i)) →
  ∃ cp', ofold (λ '(start, end_), local_prefix_sum start end_) (bounds <$> seqN 0 T) cp = Ok cp' ∧
    length cp' = N.to_nat n ∧
    ∀ t i, t < T → pt_bound t ≤ i → i < pt_bound (t + 1) →
      cp' !! i = Some (csum R (i + 1) - csum R (pt_bound t)).
Proof using Htotal.
  intros HL Hcp. rewrite <-ofold_fmap.
  destruct (ofold_range (λ k cp', length cp' = N.to_nat n ∧ ∀ t i, t < T → pt_bound t ≤ i → i < pt_bound (t + 1) →
      cp' !! i = Some (if t <? k then csum R (i + 1) - csum R (pt_bound t) else cnt R i))
    0 T (λ t, let '(start, end_) := bounds t in local_prefix_sum start end_))
    with (s := cp) as (cp' & E & HL' & Hcp').
  - intros k c Hk [HLc Hc]. rewrite N.add_0_l. pose proof (pt_lt k Hk) as Hlt.
    pose proof (pt_bound_le n T (k + 1) ltac:(lia)) as Hle.
    destruct (local_prefix_sum_ok (pt_bound k) (pt_bound (k + 1)) c Hlt Hle HLc) as (c' & Ec & HLc' & Hc').
    { intros i H1 H2. rewrite (Hc k i Hk H1 H2). by rewrite N.ltb_irrefl. }
    exists c'. split; [exact Ec|]. split; [done|]. intros t i Ht H1 H2.
    pose proof (pt_bound_le n T (t + 1) ltac:(lia)). rewrite Hc' by lia.
    destruct (decide (t = k)) as [->|Hne].
    + rewrite (proj2 (N.leb_le _ _)), !(proj2 (N.ltb_lt _ _)) by lia. done.
    + assert ((pt_bound k <=? i) && (i <? pt_bound (k + 1)) = false) as ->.
      { destruct (N.leb_spec (pt_bound k) i), (N.ltb_spec i (pt_bound (k + 1))); try done.
        destruct Hne. by apply (pt_unique n T t k i). }
      rewrite (Hc t i Ht H1 H2). do 2 f_equal. bool_cases; lia || done.
  - split; [done|]. intros t i Ht H1 H2. pose proof (pt_bound_le n T (t + 1) ltac:(lia)).
    rewrite (Hcp i) by lia. by rewrite (proj2 (N.ltb_ge t 0)) by lia.
  - exists cp'. split; [exact E|]. split; [done|]. intros t i Ht H1 H2.
    rewrite (Hcp' t i Ht H1 H2). by rewrite (proj2 (N.ltb_lt _ _)).
Qed.

(** The sums of the parts before each part. *)
Definition relative (cp : list N) : Prop := length cp = N.to_nat n ∧
  ∀ t i, t < T → pt_bound t ≤ i → i < pt_bound (t + 1) →
    cp !! i = Some (csum R (i + 1) - csum R (pt_bound t)).

Lemma sum_ranges_ok cp : relative cp →
  sum_ranges n T cp = Ok ((λ t, csum R (pt_bound t)) <$> seqN 0 T).
Proof using Htotal.
  intros [HL Hcp]. unfold sum_ranges. pose proof pt_range as (Hn & HT).
  destruct (ofold_range (λ k sums, sums = (λ t, csum R (pt_bound t)) <$> seqN 0 (k + 1)) 1 (T - 1)
    (λ t range_sums, '(_, second) ← get_ith_partition n (t - 1) T;
       x ← of_option (cp !! usub 32 second 1); y ← of_option (range_sums !! (t - 1));
       mret (range_sums ++ [u32 (x + y)])))
    with (s := [0]) as (sums & E & ->).
  - intros k sums Hk ->. replace (1 + k - 1) with k by lia. rewrite pt_get by lia. cbn [mbind outcome_bind].
    pose proof (pt_lt k ltac:(lia)) as Hlt. pose proof (pt_bound_le n T (k + 1) ltac:(lia)) as Hle.
    rewrite usub_small by lia. rewrite (Hcp k) by lia. cbn [of_option mbind outcome_bind].
    rewrite lookupN_eq, list_lookup_fmap, <-lookupN_eq, lookup_seqN by lia. cbn [fmap option_fmap option_map of_option mbind outcome_bind].
    rewrite N.add_0_l. replace (pt_bound (k + 1) - 1 + 1) with (pt_bound (k + 1)) by lia.
    pose proof (csum_mono R (pt_bound k) (pt_bound (k + 1)) ltac:(lia)).
    pose proof (csum_le (pt_bound (k + 1)) Hle). rewrite wrap_small by lia.
    eexists. split; [done|]. replace (k + 1 + 1) with (N.succ (k + 1)) by lia.
    rewrite seqN_S_end, fmap_app. f_equal. cbn [fmap list_fmap]. rewrite N.add_0_l. do 2 f_equal. lia.
  - change (seqN 0 (0 + 1)) with [0]. simpl. by rewrite pt_first, csum_0.
  - rewrite E. by replace (T - 1 + 1) with T by lia.
Qed.

(** ** The final additions *)

Lemma add_range_ok s e x cp : s ≤ e → e ≤ n → length cp = N.to_nat n →
  (∀ i y, s ≤ i → i < e → cp !! i = Some y → y + x < 2 ^ 32) →
  ∃ cp', add_range s e x cp = Ok cp' ∧ length cp' = N.to_nat n ∧
    ∀ i, i < n → cp' !! i = if (s <=? i) && (i <? e) then (λ y, y + x) <$> cp !! i else cp !! i.
Proof using .
  clear Htotal. intros Hse Hen HL Hx. unfold add_range.
  destruct (ofold_range (λ k cp', length cp' = N.to_nat n ∧ ∀ i, i < n →
      cp' !! i = if (s <=? i) && (i <? s + k) then (λ y, y + x) <$> cp !! i else cp !! i) s (e - s)
    (λ i, add_to i x)) with (s := cp) as (cp' & E & HL' & Hcp').
  - intros k c Hk [HLc Hc]. destruct (lookupN_lt_is_Some cp (s + k)) as [y Hy]; [lia|].
    assert (c !! (s + k) = Some y) as Hcy.
    { rewrite (Hc (s + k)) by lia. by rewrite (proj2 (N.ltb_ge (s + k) (s + k))), andb_false_r by lia. }
    rewrite (add_to_ok _ _ y) by (first [done|apply (Hx (s + k) y); [lia|lia|done]]).
    eexists. split; [done|]. split; [by rewrite length_insertN|]. intros i Hi.
    destruct (decide (i = s + k)) as [->|Hne].
    + rewrite lookupN_insert_eq by lia. rewrite (proj2 (N.leb_le _ _)), (proj2 (N.ltb_lt _ _)) by lia. by rewrite Hy.
    + rewrite lookupN_insert_ne, (Hc i) by done. replace (i <? s + (k + 1)) with (i <? s + k); [done|].
      bool_cases; lia || done.
  - split; [done|]. intros i Hi. rewrite N.add_0_r.
    destruct (N.leb_spec s i), (N.ltb_spec i s); simpl; try done. lia.
  - exists cp'. split; [exact E|]. split; [done|]. intros i Hi. rewrite (Hcp' i Hi).
    by replace (s + (e - s)) with e by lia.
Qed.

Lemma additions_ok cp : relative cp →
  ∃ cp', ofold (λ '((start, end_), (t, x)) cc_prefix,
      if 0 <? (t : N) then add_range start end_ x cc_prefix else mret cc_prefix)
      (combine (bounds <$> seqN 0 T) (combine (seqN 0 T) ((λ t, csum R (pt_bound t)) <$> seqN 0 T))) cp = Ok cp' ∧
    length cp' = N.to_nat n ∧ ∀ i, i < n → cp' !! i = Some (csum R (i + 1)).
Proof using Htotal.
  intros [HL Hcp]. rewrite combine_fmap_r, combine_fmap, <-ofold_fmap. pose proof pt_range as (Hn & HT).
  destruct (ofold_range (λ k cp', length cp' = N.to_nat n ∧ ∀ t i, t < T → pt_bound t ≤ i → i < pt_bound (t + 1) →
      cp' !! i = Some (if t <? k then csum R (i + 1) else csum R (i + 1) - csum R (pt_bound t)))
    0 T (λ t cc_prefix, let '(start, end_) := bounds t in
       if 0 <? (t : N) then add_range start end_ (csum R (pt_bound t)) cc_prefix else mret cc_prefix))
    with (s := cp) as (cp' & E & HL' & Hcp').
  - intros k c Hk [HLc Hc]. rewrite N.add_0_l. cbn [bounds].
    pose proof (pt_lt k Hk) as Hlt. pose proof (pt_bound_le n T (k + 1) ltac:(lia)) as Hle.
    assert (∀ c' : list N, (∀ t i, t < T → pt_bound t ≤ i → i < pt_bound (t + 1) →
      c' !! i = if t =? k then (λ y, y + csum R (pt_bound k)) <$> c !! i else c !! i) →
      ∀ t i, t < T → pt_bound t ≤ i → i < pt_bound (t + 1) →
      c' !! i = Some (if t <? k + 1 then csum R (i + 1) else csum R (i + 1) - csum R (pt_bound t))) as Hstep.
    { intros c' Hc' t i Ht H1 H2. rewrite (Hc' t i Ht H1 H2), (Hc t i Ht H1 H2).
      destruct (N.eqb_spec t k) as [->|Hne].
      - rewrite N.ltb_irrefl, (proj2 (N.ltb_lt _ _)) by lia. cbn [fmap option_fmap option_map]. f_equal.
        pose proof (csum_mono R (pt_bound k) (i + 1) ltac:(lia)). lia.
      - replace (t <? k + 1) with (t <? k) by (bool_cases; lia || done). done. }
    destruct (N.ltb_spec 0 k) as [H0|H0].
    + destruct (add_range_ok (pt_bound k) (pt_bound (k + 1)) (csum R (pt_bound k)) c ltac:(lia) Hle HLc)
        as (c' & Ec & HLc' & Hc').
      { intros i y H1 H2 Hy. rewrite (Hc k i Hk H1 H2), N.ltb_irrefl in Hy. injection Hy as <-.
        pose proof (csum_le (i + 1) ltac:(lia)). pose proof (csum_mono R (pt_bound k) (i + 1) ltac:(lia)). lia. }
      exists c'. split; [exact Ec|]. split; [done|]. apply Hstep. intros t i Ht H1 H2.
      pose proof (pt_bound_le n T (t + 1) ltac:(lia)). rewrite Hc' by lia.
      destruct (N.eqb_spec t k) as [->|Hne].
      * by rewrite (proj2 (N.leb_le _ _)), (proj2 (N.ltb_lt _ _)) by lia.
      * destruct (N.leb_spec (pt_bound k) i), (N.ltb_spec i (pt_bound (k + 1))); try done.
        destruct Hne. by apply (pt_unique n T t k i).
    + assert (k = 0) as -> by lia. exists c. split; [done|]. split; [done|]. apply Hstep.
      intros t i Ht H1 H2. destruct (N.eqb_spec t 0) as [->|]; [|done]. rewrite pt_first, csum_0.
      destruct (c !! i); simpl; [by rewrite N.add_0_r|done].
  - split; [done|]. intros t i Ht H1 H2. rewrite (Hcp t i Ht H1 H2). by rewrite (proj2 (N.ltb_ge t 0)) by lia.
  - exists cp'. split; [exact E|]. split; [done|]. intros i Hi.
    destruct (pt_idx i Hi) as (t & _ & Ht & H1 & H2). rewrite (Hcp' t i Ht H1 H2).
    by rewrite (proj2 (N.ltb_lt _ _)).
Qed.

(** ** The writes *)

Definition sums_done (cp : list N) : Prop := ∀ i, i < n → cp !! i = Some (csum R (i + 1)).

Lemma csum_cnt_le r R1 R2 : R = R1 ++ R2 → r < n → csum R r + cnt R1 r ≤ n.
Proof using Htotal.
  intros ER Hr. pose proof (csum_le (r + 1) ltac:(lia)) as Hle. rewrite csum_succ, ER, cnt_app in Hle.
  rewrite ER. lia.
Qed.

Lemma expected_length : length (expected n R) = N.to_nat n.
Proof using Htotal. pose proof (csum_expected n R). lia. Qed.

Lemma write_component_ok cp q i mi : sums_done cp → (q, i) ∈ captured [] R → length mi = N.to_nat n →
  ∃ mi', write_component cp q.2 i mi = Ok mi' ∧ length mi' = N.to_nat n ∧
    (∀ p : N, mi !! p = expected n R !! p → mi' !! p = expected n R !! p) ∧
    ∀ j : N, j < N.of_nat (length (req_vertices q)) →
      mi' !! (csum R (req_root q) + i + j) = expected n R !! (csum R (req_root q) + i + j).
Proof using Hbound Htotal PT.
  intros Hcp Hin HL. pose proof pt_range as (Hn & _).
  destruct (captured_elem _ _ _ _ Hin) as (R1 & R2 & ER & Ei). cbn [app] in Ei.
  assert (req_root q < n) as Hr by (apply Hbound; rewrite ER; apply elem_of_app; right; left).
  pose proof (csum_cnt_le (req_root q) R1 _ ER Hr) as Hle. rewrite <-Ei in Hle.
  assert (∀ j v, req_vertices q !! (j : N) = Some v →
    expected n R !! (csum R (req_root q) + i + j) = Some (mkInstr (req_root q) v)) as Hat.
  { intros j v Hv. by apply expected_at. }
  unfold write_component. destruct q as [t [r vs]]. unfold req_root, req_vertices in *. cbn [snd fst] in *.
  assert ((if 0 <? r then p ← of_option (cp !! (r - 1)); mret (u32 (i + p)) else mret i) = Ok (csum R r + i)) as ->.
  { destruct (N.ltb_spec 0 r) as [H0|H0].
    - rewrite (Hcp (r - 1)) by lia. cbn [of_option mbind outcome_bind].
      replace (r - 1 + 1) with r by lia. rewrite wrap_small by lia. unfold mret, outcome_ret. f_equal. lia.
    - assert (r = 0) as -> by lia. by rewrite csum_0. }
  cbn [mbind outcome_bind].
  destruct (ofold_range (λ k mi', length mi' = N.to_nat n ∧
      (∀ p : N, mi !! p = expected n R !! p → mi' !! p = expected n R !! p) ∧
      ∀ j : N, j < k → mi' !! (csum R r + i + j) = expected n R !! (csum R r + i + j))
    0 (N.of_nat (length vs)) (λ j mi, v ← of_option (vs !! j); _ ← of_option (mi !! (csum R r + i + j));
       mret (<[csum R r + i + j := mkInstr r v]> mi))) with (s := mi) as (mi' & E & H1 & H2 & H3).
  - intros k m Hk (Hm1 & Hm2 & Hm3). rewrite N.add_0_l.
    destruct (lookupN_lt_is_Some vs k) as [v Hv]; [lia|]. rewrite Hv. cbn [of_option mbind outcome_bind].
    pose proof (Hat k v Hv) as He. pose proof (lookupN_lt_Some _ _ _ He) as Hlt. rewrite expected_length in Hlt.
    destruct (lookupN_lt_is_Some m (csum R r + i + k)) as [y Hy]; [lia|]. rewrite Hy.
    cbn [of_option mbind outcome_bind]. eexists. split; [done|]. split; [by rewrite length_insertN|].
    assert (∀ p : N, (p = csum R r + i + k ∨ m !! p = expected n R !! p) →
      <[csum R r + i + k := mkInstr r v]> m !! p = expected n R !! p) as Hins.
    { intros p Hp. destruct (decide (p = csum R r + i + k)) as [->|Hne].
      - rewrite lookupN_insert_eq by lia. by rewrite He.
      - rewrite lookupN_insert_ne by done. by destruct Hp. }
    split; [intros p Hp; apply Hins; right; by apply Hm2|].
    intros j Hj. apply Hins. destruct (decide (j = k)) as [->|]; [by left|right]. apply Hm3. lia.
  - split; [done|]. split; [done|]. intros j Hj. lia.
  - exists mi'. split; [exact E|]. split; [done|]. split; [done|exact H3].
Qed.

Lemma ofold_nested {A B S} (h : A → list B) (g : B → S → outcome S) l s :
  ofold (λ x, ofold g (h x)) l s = ofold g (l ≫= h) s.
Proof using .
  revert s. induction l as [|x l IH]; intros s; [done|]. cbn [ofold mbind list_bind]. rewrite ofold_app.
  destruct (ofold g (h x) s); cbn [mbind outcome_bind]; [apply IH|done..].
Qed.

(** Writing every captured request leaves the expected array. *)
Lemma writes_ok cp (L : list (local_cc * N)) mi : sums_done cp → length mi = N.to_nat n →
  (∀ cc i, (cc, i) ∈ L ↔ ∃ q, (q, i) ∈ captured [] R ∧ q.2 = cc) →
  ofold (λ '(cc, idx), write_component cp cc idx) L mi = Ok (expected n R).
Proof using Hbound Htotal PT.
  intros Hcp HL HLs.
  destruct (ofold_inv (λ done mi', length mi' = N.to_nat n ∧
      ∀ q i (j : N), (q, i) ∈ captured [] R → (q.2, i) ∈ done → j < N.of_nat (length (req_vertices q)) →
        mi' !! (csum R (req_root q) + i + j) = expected n R !! (csum R (req_root q) + i + j))
    L (λ '(cc, idx), write_component cp cc idx)) with (s := mi) as (mi' & -> & Hlen & Hall).
  - intros done [cc i] rest m EL [Hm Hdone].
    assert ((cc, i) ∈ L) as Hin by (rewrite EL; apply elem_of_app; right; left).
    apply HLs in Hin as (q & Hq & <-). destruct (write_component_ok cp q i m Hcp Hq Hm) as (m' & E & H1 & H2 & H3).
    exists m'. split; [exact E|]. split; [exact H1|]. intros q' i' j Hq' Hd Hj.
    apply elem_of_app in Hd as [Hd|Hd]; [by apply H2, Hdone|].
    apply list_elem_of_singleton in Hd. injection Hd as Eq <-.
    assert (req_root q' = req_root q ∧ req_vertices q' = req_vertices q) as [E1 E2].
    { unfold req_root, req_vertices. by rewrite Eq. }
    rewrite E1. apply H3. by rewrite <-E2.
  - split; [done|]. intros q i j _ Hd. by apply elem_of_nil in Hd.
  - f_equal. apply list_eqN. intros p. destruct (decide (p < n)) as [Hp|Hp].
    + destruct (lookupN_lt_is_Some (expected n R) p) as [x Hx]; [rewrite expected_length; lia|].
      destruct (expected_inv n R p x Hx) as (q & i & j & v & Hq & _ & Hv & _ & ->).
      apply Hall; [done|apply HLs; eauto|]. by eapply lookupN_lt_Some.
    + rewrite !lookupN_ge_None; [done|rewrite expected_length; lia|lia].
Qed.
End Phases.

(** * The whole function *)

Lemma elem_of_combine {A B} (l : list A) (k : list B) x y :
  (x, y) ∈ combine l k ↔ ∃ i : nat, l !! i = Some x ∧ k !! i = Some y.
Proof.
  revert k. induction l as [|a l IH]; intros [|b k]; simpl;
    try (split; [by intros ?%elem_of_nil|intros (i & ? & ?); by rewrite ?lookup_nil in *]).
  rewrite elem_of_cons, IH. split.
  - intros [[= -> ->]|(i & ? & ?)]; [by exists 0%nat|by exists (S i)].
  - intros ([|i] & ? & ?); simplify_eq/=; [by left|right; eauto].
Qed.

Lemma fmap_filter_fst {A B} (Q : A → Prop) `{∀ x, Decision (Q x)} (l : list (A * B)) :
  (filter (λ x, Q x.1) l).*1 = filter Q l.*1.
Proof.
  induction l as [|x l IH]; [done|]. rewrite fmap_cons, !filter_cons.
  repeat case_decide; try done. rewrite fmap_cons. by f_equal.
Qed.

(** The requests of threads whose lists are [ccss]. *)
Definition requests_of (order : list nat) (ccss : list (list local_cc)) : list request :=
  interleave order (imap (λ t cc, pair t <$> cc) ccss).

Section Requests.
Context (order : list nat) (ccss : list (list local_cc)).
Let R := requests_of order ccss.

Lemma tags_lookup (t : nat) : imap (λ t cc, pair t <$> cc) ccss !! t = (λ cc, pair t <$> cc) <$> (ccss !! t).
Proof using . by rewrite list_lookup_imap. Qed.

Lemma requests_filter (t : nat) cc : ccss !! t = Some cc → filter (λ q, q.1 = t) R = pair t <$> cc.
Proof using .
  intros Hcc. etrans; [apply (interleave_filter order (imap (λ t cc, pair t <$> cc) ccss) t)|].
  2: { by rewrite tags_lookup, Hcc. }
  intros u l x Hl Hx. rewrite tags_lookup in Hl. apply fmap_Some in Hl as (c & _ & ->).
  by apply list_elem_of_fmap in Hx as (y & -> & _).
Qed.

Lemma requests_snd : snd <$> R ≡ₚ concat ccss.
Proof using .
  unfold R, requests_of. rewrite (interleave_perm order).
  assert (∀ k, snd <$> concat (imap (λ t cc, pair (k + t)%nat <$> cc) ccss) = concat ccss) as Hk.
  { induction ccss as [|cc l IH]; intros k; [done|]. rewrite imap_cons. cbn [concat]. rewrite fmap_app. f_equal.
    - rewrite <-list_fmap_compose. apply list_fmap_id.
    - etrans; [|apply (IH (S k))]. do 2 f_equal. apply imap_ext. intros i x _. simpl. by rewrite <-plus_n_Sm. }
  refine (eq_ind_r (λ l, l ≡ₚ concat ccss) _ (Hk 0%nat)). reflexivity.
Qed.

Lemma requests_tag q : q ∈ R → (q.1 < length ccss)%nat.
Proof using .
  unfold R, requests_of. rewrite (interleave_perm order). intros (l & Hq & Hl)%elem_of_concat.
  apply list_elem_of_lookup in Hl as [t Ht]. rewrite tags_lookup in Ht.
  apply fmap_Some in Ht as (cc & Hcc & ->). apply list_elem_of_fmap in Hq as (y & -> & _). by eapply lookup_lt_Some.
Qed.

(** What each thread wrote down are its lists with the indices it captured. *)
Lemma thread_pairs (t : nat) cc : ccss !! t = Some cc →
  combine cc ((tagged t (captured [] R)).*2) = (λ x, (x.1.2, x.2)) <$> tagged t (captured [] R).
Proof using .
  intros Hcc. rewrite <-combine_fmap. f_equal.
  assert ((tagged t (captured [] R)).*1 = pair t <$> cc) as E.
  { rewrite <-(requests_filter t cc Hcc). rewrite <-(captured_fst [] R) at 2. unfold tagged.
    exact (fmap_filter_fst (λ q : nat * local_cc, q.1 = t) (captured [] R)). }
  transitivity (snd <$> (tagged t (captured [] R)).*1); [|by rewrite <-list_fmap_compose].
  rewrite E, <-list_fmap_compose. symmetry. apply list_fmap_id.
Qed.

Lemma written_pairs (idxs : list (list N)) : length idxs = length ccss →
  (∀ t : nat, (t < length ccss)%nat → idxs !! t = Some ((tagged t (captured [] R)).*2)) →
  ∀ cc i, (cc, i) ∈ (combine ccss idxs ≫= λ '(cc, idx), combine cc idx) ↔
    ∃ q, (q, i) ∈ captured [] R ∧ q.2 = cc.
Proof using .
  intros HL Hidx cc i. rewrite list_elem_of_bind. split.
  - intros ([ccs idx] & Hin & (t & Ht & Hi)%elem_of_combine).
    rewrite Hidx in Hi by (by eapply lookup_lt_Some). injection Hi as <-.
    rewrite (thread_pairs t ccs Ht) in Hin. apply list_elem_of_fmap in Hin as ([q j] & [= -> ->] & Hq).
    unfold tagged in Hq. apply list_elem_of_filter in Hq as [_ Hq]. eauto.
  - intros (q & Hq & <-). assert (q ∈ R) as HqR.
    { rewrite <-(captured_fst [] R). by apply (list_elem_of_fmap_2' fst _ (q, i)). }
    pose proof (requests_tag q HqR) as Ht. destruct (lookup_lt_is_Some_2 ccss q.1 Ht) as [ccs Hccs].
    exists (ccs, (tagged q.1 (captured [] R)).*2). split.
    + rewrite (thread_pairs _ _ Hccs). apply list_elem_of_fmap. exists (q, i). split; [done|].
      by apply list_elem_of_filter.
    + apply elem_of_combine. exists q.1. split; [done|]. by apply Hidx.
Qed.
End Requests.

Section Main.
Context `{UnionFindLaws D} (n T : N) `{PT : Partitioned n T}.

Lemma length_cnt_total (R : list request) :
  (∀ q v, q ∈ R → v ∈ req_vertices q → req_root q < n) → concat (req_vertices <$> R) ≡ₚ seqN 0 n →
  csum R n = n.
Proof using .
  intros Hb Hp. rewrite csum_expected. pose proof (expected_children_perm n R Hb) as Hc.
  apply Permutation_length in Hc. rewrite length_fmap, (Permutation_length Hp), length_seqN in Hc.
  unfold expected. rewrite Hc. lia.
Qed.

(** Phase 1, all threads. *)
Lemma all_components_ok mi d : uf_ok d → uf_size d = n → length mi = N.to_nat n →
  instr_child <$> mi ≡ₚ seqN 0 n →
  ∃ d' ccss, ofold (λ '(start, end_) '(d, ccs),
      match local_components mi start end_ d with
      | (d, Ok cc) => mret (d, ccs ++ [cc])
      | (_, Throw e) => Throw e
      | (_, Abort) => Abort
      | (_, Undef) => Undef
      end) (bounds n T <$> seqN 0 T) (d, []) = Ok (d', ccss) ∧
    uf_same d d' ∧ length ccss = N.to_nat T ∧
    good_ccs (uf_root d) (instr_child <$> mi) (concat ccss).
Proof using H0.
  intros Hok Hsz HL Hperm. rewrite <-ofold_fmap.
  assert (∀ x, x ∈ mi → instr_child x < n) as Hch.
  { intros x Hx. assert (instr_child x ∈ seqN 0 n) as Hin by (rewrite <-Hperm; by apply list_elem_of_fmap_2).
    apply elem_of_seqN in Hin. lia. }
  set (kids := λ t, instr_child <$> chunk n T mi t).
  destruct (ofold_range (λ k '(d', ccss), uf_same d d' ∧ Forall2 (good_ccs (uf_root d)) (kids <$> seqN 0 k) ccss)
    0 T (λ t, let '(start, end_) := bounds n T t in λ '(d, ccs),
      match local_components mi start end_ d with
      | (d, Ok cc) => mret (d, ccs ++ [cc])
      | (_, Throw e) => Throw e
      | (_, Abort) => Abort
      | (_, Undef) => Undef
      end)) with (s := (d, [] : list (list local_cc))) as ([d' ccss] & E & Hs & Hg).
  - intros k [d1 ccs] Hk [(Hok1 & Hsz1 & Hr1) Hg]. rewrite N.add_0_l. cbn [bounds].
    pose proof (pt_lt k Hk) as Hlt. pose proof (pt_bound_le n T (k + 1) ltac:(lia)) as Hle.
    destruct (local_components_ok mi (pt_bound k) (pt_bound (k + 1) - pt_bound k) d1 Hok1)
      as (d2 & cc & E & Hs2 & Hg2); [lia|by rewrite Hsz1, Hsz|].
    replace (pt_bound k + (pt_bound (k + 1) - pt_bound k)) with (pt_bound (k + 1)) in E by lia.
    rewrite E. eexists. split; [done|]. split; [by apply (uf_same_trans d d1)|].
    rewrite N.add_1_r, seqN_S_end, fmap_app. apply Forall2_app; [done|]. constructor; [|constructor].
    rewrite N.add_0_l. destruct Hg2 as [Hr2 Hp2]. split; [|exact Hp2]. intros r ws Hin.
    destruct (Hr2 r ws Hin) as [Hne Hws]. split; [done|]. intros v Hv. rewrite <-(Hws v Hv). symmetry. apply Hr1.
    rewrite Hsz. assert (v ∈ kids k) as Hvk.
    { unfold kids, chunk. rewrite <-Hp2. apply elem_of_concat. exists ws. split; [done|].
      by apply (list_elem_of_fmap_2' snd _ (r, ws)). }
    unfold kids in Hvk. apply list_elem_of_fmap in Hvk as (x & -> & Hx). apply Hch. by eapply chunk_sub.
  - split; [by split|constructor].
  - exists d', ccss. split; [exact E|]. split; [done|]. split.
    + by rewrite <-(Forall2_length _ _ _ Hg), length_fmap, length_seqN.
    + apply good_ccs_concat in Hg. unfold kids in Hg.
      assert (concat ((λ t, instr_child <$> chunk n T mi t) <$> seqN 0 T) = instr_child <$> mi) as Ec; [|by rewrite Ec in Hg].
      transitivity (instr_child <$> concat (chunk n T mi <$> seqN 0 T)).
      * generalize (seqN 0 T) as l. intros l. induction l as [|t l IH]; [done|].
        change (concat ((λ t, instr_child <$> chunk n T mi t) <$> t :: l)) with
          ((instr_child <$> chunk n T mi t) ++ concat ((λ t, instr_child <$> chunk n T mi t) <$> l)).
        by rewrite IH, <-fmap_app.
      * rewrite concat_chunks_to, pt_last by done. by rewrite take_ge by lia.
Qed.

Lemma create_merge_instructions_ok order mi d : uf_ok d → uf_size d = n → length mi = N.to_nat n →
  instr_child <$> mi ≡ₚ seqN 0 n →
  ∃ d' mi', create_merge_instructions n T order mi d = (d', Ok mi') ∧ uf_same d d' ∧
    instr_ok n (uf_root d) mi'.
Proof using H0 PT.
  intros Hok Hsz HL Hperm.
  destruct (all_components_ok mi d Hok Hsz HL Hperm) as (d' & ccss & Ecc & Hs & Hlen & Hgood & Hkids).
  set (R := requests_of order ccss).
  assert (∀ q, q ∈ R → q.2 ∈ concat ccss) as HRcc.
  { intros q Hq. rewrite <-(requests_snd order). by apply list_elem_of_fmap_2. }
  assert (concat (req_vertices <$> R) ≡ₚ seqN 0 n) as Hall.
  { rewrite <-Hperm, <-Hkids. apply concat_perm. rewrite <-(requests_snd order), <-list_fmap_compose. done. }
  assert (∀ q v, q ∈ R → v ∈ req_vertices q → uf_root d v = req_root q ∧ v < n) as Hroot.
  { intros q v Hq Hv. split.
    - apply (Hgood (req_root q) (req_vertices q)); [|done]. unfold req_root, req_vertices.
      rewrite <-surjective_pairing. by apply HRcc.
    - assert (v ∈ seqN 0 n) as Hin; [|apply elem_of_seqN in Hin; lia]. rewrite <-Hall. apply elem_of_concat.
      exists (req_vertices q). split; [done|]. by apply list_elem_of_fmap_2. }
  assert (∀ q, q ∈ R → req_root q < n) as Hbound.
  { intros q Hq. destruct (Hgood (req_root q) (req_vertices q)) as [Hne _].
    { unfold req_root, req_vertices. rewrite <-surjective_pairing. by apply HRcc. }
    destruct (req_vertices q) as [|v vs] eqn:Ev; [done|].
    destruct (Hroot q v Hq) as [<- Hv]; [rewrite Ev; left|]. rewrite <-Hsz. apply uf_root_lt; [done|by rewrite Hsz]. }
  pose proof (length_cnt_total R (λ q v Hq _, Hbound q Hq) Hall) as Htotal.
  destruct (capture_ok n T R Hbound Htotal (length ccss) (requests_tag order ccss))
    as ([cp idxs] & Ecap & HLcp & Hcp & HLi & Hidx). simpl in HLcp, Hcp, HLi, Hidx.
  destruct (prefix_sums_ok n T R Htotal cp HLcp Hcp) as (cp1 & Epre & Hrel).
  destruct (additions_ok n T R Htotal cp1 Hrel) as (cp2 & Eadd & HLcp2 & Hcp2).
  exists d', (expected n R). split; [|split; [done|]].
  - unfold create_merge_instructions, run_loop. rewrite (mapM_parts n T). cbn [mbind outcome_bind].
    rewrite Ecc. cbn [mbind outcome_bind].
    match goal with |- context [ofold capture ?r _] => change r with R end.
    rewrite Ecap. cbn [mbind outcome_bind]. rewrite Epre. cbn [mbind outcome_bind].
    rewrite (sum_ranges_ok n T R Htotal cp1 Hrel). cbn [mbind outcome_bind].
    rewrite Eadd. cbn [mbind outcome_bind]. unfold write_components.
    pose proof (writes_ok n T R Hbound Htotal cp2 (combine ccss idxs ≫= λ '(cc, idx), combine cc idx) mi
      Hcp2 HL (written_pairs order ccss idxs HLi Hidx)) as Ew.
    rewrite <-ofold_nested in Ew.
    match goal with |- context [ofold ?f (combine ccss idxs) mi] => assert (ofold f (combine ccss idxs) mi = Ok (expected n R)) as -> end; [|done].
    rewrite <-Ew. clear. generalize (combine ccss idxs) as l. generalize mi as m. intros m l. revert m.
    induction l as [|[cc idx] l IH]; intros m; [done|]. cbn [ofold].
    destruct (ofold _ (combine cc idx) m); cbn [mbind outcome_bind]; [apply IH|done..].
  - apply expected_ok; [|by intros q v Hq _; apply Hbound|done]. intros q v Hq Hv. by apply Hroot.
Qed.
End Main.
