(* ===== verification/Boruvka.v ===== *)
(** Queries (src/cc_sketch_alg.cpp: [boruvka_emulation], [connected_components],
    [point_query], [calc_spanning_forest]; src/return_types.cpp).

    What the threads do in parallel is a parameter: the order of the loop of
    round 0, the schedule of each later round's region and the order of the
    atomic captures of each regrouping ([Schedules]). The loop runs until a
    round finds nothing; [boruvka_fuel] bounds its rounds, and file
    BoruvkaCorrect shows that the bound is never what stops it. *)
From stdpp Require Import sorting.
From S2P Require Import Prelude Float64 Platform Util Sketch Dsu Graph Forest Config CCAlg Partition MergeInstr Round.

Open Scope N_scope.

Record Schedules : Type := mkSchedules {
  zero_order : list N;
  region_schedule : N → list nat;
  capture_order : N → list nat
}.

(** * Return types *)

Record ConnectedComponents : Type := mkComponents {
  parent_arr : list N;
  comps_num_vertices : N;
  num_cc : N
}.

Record SpanningForest : Type := mkSpanningForest {
  sf_edges : list Edge;
  sf_num_vertices : N
}.

(** The order of a [std::map]'s iteration. *)
Definition key_le (a b : N * gset N) : Prop := a.1 ≤ b.1.
#[export] Instance key_le_dec : RelDecision key_le.
Proof. unfold RelDecision, key_le. intros a b. apply _. Defined.

Section ReturnTypes.
Context {D : Type} `{UF : UnionFind D}.

(** [order] is the order in which the parallel loop visits the vertices. *)
Definition ConnectedComponents_new (num_vertices : N) (order : list N) : M D ConnectedComponents := λ d,
  run_loop (λ d,
    '(d, arr, temp_cc) ← ofold (λ i '(d, arr, temp_cc),
        match uf_find_root i d with
        | (d, Ok root) =>
            _ ← of_option (arr !! i);
            mret (d, <[i := root]> arr, if root =? i then u64 (temp_cc + 1) else temp_cc)
        | (_, Throw e) => Throw e
        | (_, Abort) => Abort
        | (_, Undef) => Undef
        end) order (d, replicate (N.to_nat num_vertices) 0, 0);
    mret (d, mkComponents arr num_vertices (u32 temp_cc))) d.

Definition is_connected (cc : ConnectedComponents) (a b : N) : outcome bool :=
  x ← of_option (parent_arr cc !! a); y ← of_option (parent_arr cc !! b); mret (x =? y).

Definition components_size (cc : ConnectedComponents) : N := num_cc cc.

(** The sets by increasing root, as [std::map] iterates. *)
Definition get_component_sets (cc : ConnectedComponents) : outcome (list (gset N)) :=
  temp ← ofold (λ i temp,
      root ← of_option (parent_arr cc !! i);
      mret (<[root := {[ i ]} ∪ default ∅ (temp !! root)]> temp))
    (seqN 0 (comps_num_vertices cc)) (∅ : gmap N (gset N));
  mret ((merge_sort key_le (map_to_list temp)).*2).

(** The neighbours in the iteration order of the hash sets. *)
Definition SpanningForest_new (num_vertices : N) (spanning_forest : list (gset N)) : outcome SpanningForest :=
  edges ← ofold (λ src edges,
      X ← of_option (spanning_forest !! src);
      mret (edges ++ (mkEdge src <$> elements (X : gset N))))
    (seqN 0 num_vertices) [];
  mret (mkSpanningForest edges num_vertices).
End ReturnTypes.

(** * Queries *)

Section Boruvka.
Context `{P : Platform} {SC : SampleCheck} {D : Type} `{UF : UnionFind D}.

(** The members set up before the first round. *)
Definition boruvka_start (num_threads : N) : M (CCSketchAlg D) (list MergeInstr * list GlobalMergeData) :=
  _ ← modify (set_update_locked true);
  n ← gets num_vertices; seed ← gets cc_seed; conf ← gets config;
  globals ← lift (mapM (λ _, GlobalMergeData_new n seed (_sketches_factor conf)) (seqN 0 num_threads));
  d ← gets dsu;
  _ ← modify (set_dsu (uf_reset d));
  sf ← gets spanning_forest;
  '(mi, sf) ← lift (ofold (λ i '(mi, sf),
      _ ← of_option (sf !! i);
      mret (mi ++ [mkInstr i i], <[i := (∅ : gset N)]> sf)) (seqN 0 n) ([], sf));
  _ ← modify (set_spanning_forest sf);
  mret (mi, globals).

(** [while (true)]: the number of the last round. *)
Fixpoint boruvka_loop (fuel : nat) (num_threads : N) (s : Schedules) (round_num : N)
    (mi : list MergeInstr) (globals : list GlobalMergeData) : M (CCSketchAlg D) N :=
  match fuel with
  | O => lift Undef
  | S fuel =>
      n ← gets num_vertices;
      '(modified, globals) ← perform_boruvka_round round_num num_threads (zero_order s)
          (region_schedule s round_num) mi globals;
      if negb modified then mret round_num
      else
        mi ← on_dsu (create_merge_instructions n num_threads (capture_order s round_num) mi);
        boruvka_loop fuel num_threads s (u64 (round_num + 1)) mi globals
  end.

Definition boruvka_fuel (cc : CCSketchAlg D) : nat :=
  match max_rounds cc with Ok r => S (N.to_nat r) | _ => 1 end.

Definition boruvka_emulation (num_threads : N) (s : Schedules) : M (CCSketchAlg D) unit :=
  fuel ← gets boruvka_fuel;
  '(mi, globals) ← boruvka_start num_threads;
  round_num ← boruvka_loop fuel num_threads s 0 mi globals;
  _ ← modify (set_last_query_rounds round_num);
  _ ← modify (set_valid true);
  modify (set_update_locked false).

(** [try { m } catch (...) { err = std::current_exception(); }] *)
Definition catch {S A} (m : M S A) : M S (option exn) := λ s,
  match m s with
  | (s', Ok _) => (s', Ok None)
  | (s', Throw e) => (s', Ok (Some e))
  | (s', Abort) => (s', Abort)
  | (s', Undef) => (s', Undef)
  end.

Definition reset_samples : M (CCSketchAlg D) unit :=
  n ← gets num_vertices;
  for_each (seqN 0 n) (λ i, on_sketch i (λ s, mret (reset_sample_state s))).

(** Run the algorithm, reset the samples, and rethrow. *)
Definition compute_answer (num_threads : N) (s : Schedules) : M (CCSketchAlg D) unit :=
  err ← catch (boruvka_emulation num_threads s);
  _ ← reset_samples;
  match err with Some e => throw e | None => mret tt end.

Definition connected_components (num_threads : N) (s : Schedules) (order : list N) :
    M (CCSketchAlg D) ConnectedComponents :=
  cached ← gets shared_dsu_valid;
  _ ← (if cached : bool then mret tt else compute_answer num_threads s);
  n ← gets num_vertices;
  on_dsu (ConnectedComponents_new n order).

Definition calc_spanning_forest (num_threads : N) (s : Schedules) (order : list N) :
    M (CCSketchAlg D) SpanningForest :=
  _ ← connected_components num_threads s order;
  n ← gets num_vertices; sf ← gets spanning_forest;
  lift (SpanningForest_new n sf).

Definition point_query (num_threads : N) (s : Schedules) (a b : N) : M (CCSketchAlg D) bool :=
  cached ← gets dsu_valid;
  _ ← (if cached : bool then mret tt else compute_answer num_threads s);
  x ← on_dsu (uf_find_root a);
  y ← on_dsu (uf_find_root b);
  mret (x =? y).
End Boruvka.
