(* ===== verification/BoruvkaCorrect.v ===== *)
(** Queries answer with the connected components of the graph.

    [loop_ok]: started on any consistent state, the rounds end within the
    sketches' samples with a forest that spans the graph, or the samples are
    used up and the exception of the last round is thrown (a debug build stops
    at an assertion). [compute_answer_ok] is the whole computation with the
    reset of the samples. Reliability of the checksums is only asked for the
    cuts the run looks at ([run_reliable]). *)
From S2P Require Import Prelude Float64 Platform Util XorSet Bucket Sketch Dsu Graph Forest Config CCAlg Partition MergeInstr Round Region Programs RoundCorrect Instructions Boruvka.

Open Scope N_scope.

Section Correct.
Context `{P : Platform} `{!PlatformLaws P} {SC : SampleCheck} {D : Type} `{UnionFindLaws D}.
Implicit Type cc : CCSketchAlg D.

(** ** Finding roots changes nothing that is observed *)

Lemma forest_inv_same n d d' sf G : uf_same d d' → forest_inv n d sf G → forest_inv n d' sf G.
Proof using .
  intros (Hok & Hs & Hr) [Hsz Hl [_ Ht] Ha He]. split; try done; [congruence|].
  split; [done|]. intros x y Hx Hy. rewrite Hs in Hx, Hy. rewrite !Hr by done. by apply Ht.
Qed.

Lemma instr_ok_ext n rt rt' mi : (∀ x, x < n → rt x = rt' x) → instr_ok n rt mi → instr_ok n rt' mi.
Proof using .
  intros Hrt Hmi. pose proof Hmi as [Hp Hr Hb Hs]. split; try done. intros x Hx. rewrite <-Hrt; [by apply Hr|].
  apply list_elem_of_lookup in Hx as [i Hi]. apply (child_bound n _ mi Hmi (N.of_nat i)).
  by rewrite lookupN_eq, Nat2N.id.
Qed.

Lemma cc_base_members cc cc' b : num_vertices cc' = num_vertices cc → cc_seed cc' = cc_seed cc →
  config cc' = config cc → cc_base cc b → cc_base cc' b.
Proof using . intros E1 E2 E3 [Hn Hnew W R I Hs Hc]. split; rewrite ?E1, ?E2, ?E3; done. Qed.

Lemma cc_base_frame cc cc' b : frame cc cc' → cc_base cc b → cc_base cc' b.
Proof using . intros (E1 & E2 & _ & _ & _ & _ & _ & _ & E9 & _). by apply cc_base_members. Qed.

(** * The rounds *)

(** Ready for a round. *)
Record loop_ready (b : Sketch) (G : gset N) (T round : N) cc (mi : list MergeInstr)
    (globals : list GlobalMergeData) : Prop := {
  lr_base : cc_base cc b;
  lr_graph : graph (num_vertices cc) G;
  lr_sketches : vertex_sketches cc b (incident G);
  lr_forest : cc_forest cc G;
  lr_instr : instr_ok (num_vertices cc) (uf_root (dsu cc)) mi;
  lr_globals : globals_ok b T globals;
  lr_zero : round = 0 → cc_vectors cc b (incident G) ∧
    ∀ x y, pair_connected (forest_pairs (spanning_forest cc)) x y → x = y
}.

(** The checksums tell the truth about the cuts each round samples. *)
Fixpoint run_reliable (fuel : nat) (T : N) (s : Schedules) (b : Sketch) (G : gset N) (round : N)
    (mi : list MergeInstr) (globals : list GlobalMergeData) cc : Prop :=
  match fuel with
  | O => True
  | S fuel =>
      (round < num_samples b → round_reliable b round (dsu cc) (num_vertices cc) G) ∧
      match perform_boruvka_round round T (zero_order s) (region_schedule s round) mi globals cc with
      | (cc, Ok (true, globals)) =>
          match on_dsu (create_merge_instructions (num_vertices cc) T (capture_order s round) mi) cc with
          | (cc, Ok mi) => run_reliable fuel T s b G (u64 (round + 1)) mi globals cc
          | _ => True
          end
      | _ => True
      end
  end.

(** A round with samples left, whichever it is. *)
Lemma any_round_ok b G `{!CheckAccepts SC G} T round s cc mi globals (PT : Partitioned (num_vertices cc) T) :
  loop_ready b G T round cc mi globals → round < num_samples b →
  zero_order s ≡ₚ seqN 0 (num_vertices cc) →
  round_reliable b round (dsu cc) (num_vertices cc) G →
  ∃ cc' m globals', perform_boruvka_round round T (zero_order s) (region_schedule s round) mi globals cc =
      (cc', Ok (m, globals')) ∧ round_post cc cc' b G m ∧ globals_ok b T globals'.
Proof using PlatformLaws0.
  intros [Hb HG Hsk HF Hmi Hgl Hz] Hlt Hord Hrel. destruct (decide (round = 0)) as [->|Hne].
  - destruct (Hz eq_refl) as [Hvec Hfresh].
    destruct (round_zero_ok cc b G Hb HG Hvec HF Hfresh Hrel _ Hord) as (cc' & m & E & Hpost).
    exists cc', m, globals. unfold perform_boruvka_round. cbn [N.eqb].
    rewrite (M_bind_Ok _ _ _ _ _ E). done.
  - by apply (round_ok cc b G round T _ _ mi globals PT).
Qed.

(** Regrouping the vertices. *)
Lemma regroup_ok b G T round cc cc1 mi globals order (PT : Partitioned (num_vertices cc) T) :
  loop_ready b G T round cc mi globals → round_post cc cc1 b G true → globals_ok b T globals →
  ∃ cc2 mi2, on_dsu (create_merge_instructions (num_vertices cc) T order mi) cc1 = (cc2, Ok mi2) ∧
    frame cc cc2 ∧ loop_ready b G T (round + 1) cc2 mi2 globals.
Proof using .
  intros [Hb HG Hsk HF Hmi Hgl Hz] [Hfr Hsk1 HF1 _] Hgl1.
  pose proof Hfr as (En & _). pose proof HF1 as [Hsz Hl [Hok Ht] Ha He]. rewrite En in *.
  destruct (create_merge_instructions_ok (num_vertices cc) T order mi (dsu cc1) Hok Hsz
    (io_length _ _ _ Hmi) (io_perm _ _ _ Hmi)) as (d' & mi2 & E & Hsame & Hmi2).
  unfold on_dsu, zoom. rewrite E. exists (set_dsu d' cc1), mi2. split; [done|]. split; [done|].
  split; simpl.
  - apply (cc_base_frame cc); [done|done].
  - by rewrite En.
  - done.
  - apply (forest_inv_same _ (dsu cc1)); done.
  - rewrite En. apply (instr_ok_ext _ (uf_root (dsu cc1))); [|done]. intros x Hx. symmetry.
    destruct Hsame as (_ & _ & Hr). apply Hr. by rewrite Hsz.
  - done.
  - intros Hc. lia.
Qed.

(** What the loop leaves. *)
Definition loop_result (b : Sketch) (G : gset N) cc cc' (o : outcome N) : Prop :=
  frame cc cc' ∧
  match o with
  | Ok r => r < num_samples b ∧ vertex_sketches cc' b (incident G) ∧ cc_forest cc' G ∧
      ∀ x y, pair_connected (forest_pairs (spanning_forest cc')) x y ↔ graph_connected G x y
  | Throw e => NDEBUG = true ∧ out_of_samples e ∧ vertex_sketches cc' b (incident G) ∧ cc_forest cc' G
  | Abort => NDEBUG = false
  | Undef => False
  end.

Lemma loop_ok b G `{!CheckAccepts SC G} T s fuel : ∀ round cc mi globals (PT : Partitioned (num_vertices cc) T),
  loop_ready b G T round cc mi globals → zero_order s ≡ₚ seqN 0 (num_vertices cc) →
  round ≤ num_samples b → (N.to_nat (num_samples b) < N.to_nat round + fuel)%nat →
  run_reliable fuel T s b G round mi globals cc →
  ∃ cc' o, boruvka_loop fuel T s round mi globals cc = (cc', o) ∧ loop_result b G cc cc' o.
Proof using PlatformLaws0.
  induction fuel as [|fuel IH]; intros round cc mi globals PT Hready Hord Hle Hfuel Hrel; [lia|].
  cbn [boruvka_loop]. rewrite M_bind_gets. destruct Hrel as [Hrr Hrest].
  pose proof (cb_samples _ _ (lr_base _ _ _ _ _ _ _ Hready)) as Hns.
  destruct (decide (round < num_samples b)) as [Hlt|Hge].
  - destruct (any_round_ok b G T round s cc mi globals PT Hready Hlt Hord (Hrr Hlt))
      as (cc1 & m & gl1 & E & Hpost & Hgl1). rewrite E in Hrest.
    rewrite (M_bind_Ok _ _ _ _ _ E). destruct m; simpl.
    + destruct (regroup_ok b G T round cc cc1 mi gl1 (capture_order s round) PT
        ltac:(by destruct Hready) Hpost Hgl1) as (cc2 & mi2 & E2 & Hfr2 & Hready2).
      pose proof (rp_frame _ _ _ _ _ Hpost) as (En1 & _). rewrite En1, E2 in Hrest.
      rewrite (M_bind_Ok _ _ _ _ _ E2). rewrite wrap_small in * by lia.
      pose proof Hfr2 as (En2 & _). assert (Partitioned (num_vertices cc2) T) as PT2 by (by rewrite En2).
      destruct (IH (round + 1) cc2 mi2 gl1 PT2 Hready2) as (cc' & o & E3 & Hfr3 & Hres);
        [by rewrite En2|lia|lia|done|].
      exists cc', o. split; [exact E3|]. split; [|done].
      revert Hfr2 Hfr3. unfold frame. clear.
      intros (->&->&->&->&->&->&->&->&->&->) (->&->&->&->&->&->&->&->&->&->). by split_and!.
    + exists cc1, (Ok round). split; [done|]. destruct Hpost as [Hfr Hsk HF Hdone].
      split; [done|]. split; [done|]. split; [done|]. split; [done|by apply Hdone].
  - assert (round = num_samples b) as -> by lia. pose proof Hready as [Hb HG [Hlen Hf] HF Hmi Hgl Hz].
    pose proof (round_exhausted b (num_samples b) ltac:(lia) ltac:(lia) cc Hlen T (zero_order s)
      (region_schedule s (num_samples b)) mi globals PT Hb ltac:(lia) Hmi Hgl) as Hex.
    assert (frame cc cc) as Hrefl by (by split_and!).
    destruct NDEBUG eqn:End.
    + destruct Hex as (e & Hex & Hoos). exists cc, (Throw e). split; [unfold mbind, M_bind; by rewrite Hex|]. done.
    + exists cc, Abort. split; [unfold mbind, M_bind; by rewrite Hex|]. done.
Qed.

(** More fuel changes nothing once the loop has a result. *)
Lemma boruvka_loop_more fuel extra T s : ∀ round mi globals cc cc' o,
  boruvka_loop fuel T s round mi globals cc = (cc', o) → o ≠ Undef →
  boruvka_loop (fuel + extra) T s round mi globals cc = (cc', o).
Proof using .
  induction fuel as [|fuel IH]; intros round mi globals cc cc' o E Ho; [by injection E as <- <-|].
  cbn [boruvka_loop Nat.add] in *. rewrite M_bind_gets in *. unfold mbind, M_bind in *.
  destruct (perform_boruvka_round _ _ _ _ _ _ cc) as [cc1 [[m gl]|e| |]]; [|done..].
  destruct m; simpl in *; [|done].
  destruct (on_dsu _ cc1) as [cc2 [mi2|e| |]]; [by apply IH|done..].
Qed.

(** * Before and after the rounds *)

Lemma new_globals_ok cc b T : cc_base cc b →
  ∃ gs, mapM (λ _, GlobalMergeData_new (num_vertices cc) (cc_seed cc) (_sketches_factor (config cc)))
      (seqN 0 T) = Ok gs ∧ globals_ok b T gs.
Proof using .
  intros Hb.
  destruct (mapM_ok (λ _ : N, GlobalMergeData_new (num_vertices cc) (cc_seed cc) (_sketches_factor (config cc)))
    (λ _ gd, Shape b (g_sketch gd)) (seqN 0 T)) as (gs & E & Hgs).
  - intros t _. unfold GlobalMergeData_new. rewrite (cb_new _ _ Hb). eexists. split; [done|].
    split; [apply Hb|done].
  - exists gs. split; [done|]. split; [by rewrite <-(Forall2_length _ _ _ Hgs), length_seqN|].
    intros gd Hgd. apply list_elem_of_lookup in Hgd as [i Hi].
    by destruct (Forall2_lookup_r _ _ _ _ _ Hgs Hi) as (x & _ & Hx).
Qed.

(** The loop that clears the forest and lists the vertices. *)
Lemma clear_loop_ok n (sf : list (gset N)) : length sf = N.to_nat n →
  ofold (λ i '(mi, sf), _ ← of_option (sf !! i); mret (mi ++ [mkInstr i i], <[i := (∅ : gset N)]> sf))
    (seqN 0 n) ([], sf) = Ok ((λ i, mkInstr i i) <$> seqN 0 n, replicate (N.to_nat n) ∅).
Proof using .
  intros HL.
  destruct (ofold_range (λ k '(mi, sf'), mi = (λ i, mkInstr i i) <$> seqN 0 k ∧
      sf' = replicate (N.to_nat k) (∅ : gset N) ++ drop (N.to_nat k) sf) 0 n
    (λ i '(mi, sf), _ ← of_option (sf !! i); mret (mi ++ [mkInstr i i], <[i := (∅ : gset N)]> sf)))
    with (s := ([] : list MergeInstr, sf)) as ([mi sf'] & -> & -> & ->).
  - intros k [mi sf'] Hk [-> ->]. rewrite N.add_0_l.
    destruct (lookupN_lt_is_Some sf k) as [X HX]; [lia|]. rewrite lookupN_eq in HX.
    assert ((replicate (N.to_nat k) (∅ : gset N) ++ drop (N.to_nat k) sf) !! k = Some X) as ->.
    { rewrite lookupN_eq, lookup_app_r, length_replicate, lookup_drop by (rewrite length_replicate; lia).
      by rewrite Nat.sub_diag, Nat.add_0_r. }
    cbn [of_option mbind outcome_bind]. eexists. split; [done|]. split.
    + by rewrite N.add_1_r, seqN_S_end, fmap_app.
    + unfold insert, list_insertN. rewrite insert_app_r_alt, length_replicate by (rewrite length_replicate; lia).
      rewrite Nat.sub_diag, (drop_S _ X _ HX). simpl.
      replace (N.to_nat (k + 1)) with (S (N.to_nat k)) by lia. rewrite replicate_S_end, <-app_assoc. done.
  - by rewrite drop_0.
  - f_equal. rewrite drop_ge, app_nil_r by lia. done.
Qed.

Lemma boruvka_start_ok cc b G T : cc_inv cc b G →
  ∃ cc1 mi globals, boruvka_start T cc = (cc1, Ok (mi, globals)) ∧
    frame (set_update_locked true cc) cc1 ∧ loop_ready b G T 0 cc1 mi globals.
Proof using .
  intros [Hb HG Hvec Hdl (Uok & Usz & Hlen & _ & _)].
  unfold boruvka_start. rewrite M_bind_modify, !M_bind_gets.
  destruct (new_globals_ok cc b T Hb) as (gs & E & Hgs). cbn [num_vertices cc_seed config set_update_locked].
  rewrite (M_bind_lift _ _ _ _ E), M_bind_gets, M_bind_modify, M_bind_gets.
  cbn [spanning_forest set_dsu set_update_locked].
  rewrite (M_bind_lift _ _ _ _ (clear_loop_ok (num_vertices cc) (spanning_forest cc) Hlen)), M_bind_modify.
  eexists _, _, gs. split; [done|]. split; [by split_and!|].
  destruct (uf_reset_ok _ Uok) as (Rok & Rsz & Rr). pose proof (uf_tracks_reset _ Uok) as Ht.
  cbn [dsu set_update_locked].
  assert (forest_inv (num_vertices cc) (uf_reset (dsu cc)) (replicate (N.to_nat (num_vertices cc)) ∅) G) as HF.
  { apply forest_inv_empty; [congruence|done]. }
  split; simpl.
  - by apply (cc_base_members cc).
  - done.
  - by apply (vertex_sketches_same cc); [..|apply cc_vectors_sketches].
  - done.
  - split.
    + rewrite <-list_fmap_compose. simpl. by rewrite list_fmap_id.
    + intros x (i & -> & Hi%elem_of_seqN)%list_elem_of_fmap. simpl. symmetry. apply Rr. lia.
    + intros x (i & -> & Hi%elem_of_seqN)%list_elem_of_fmap. simpl. lia.
    + assert (∀ k, Sorting.Sorted.StronglySorted root_le ((λ i, mkInstr i i) <$> seqN 0 k)) as Hs; [|apply Hs].
      induction k as [|k IH] using N.peano_ind; [constructor|]. rewrite seqN_S_end, fmap_app.
      apply sorted_app; [done|repeat constructor|].
      intros x y (i & -> & Hi%elem_of_seqN)%list_elem_of_fmap ->%list_elem_of_singleton. unfold root_le. simpl. lia.
  - done.
  - intros _. split; [by apply (cc_vectors_same cc)|]. intros x y. unfold forest_pairs.
    rewrite forest_pairs_empty. by rewrite pair_connected_nil.
Qed.

(** Resetting the samples makes the sketches ready for the next query. *)
Lemma reset_samples_ok cc b f : vertex_sketches cc b f →
  ∃ cc', reset_samples cc = (cc', Ok tt) ∧ cc' = set_sketches (sketches cc') cc ∧ cc_vectors cc' b f.
Proof using .
  intros [HL Hf]. unfold reset_samples. rewrite M_bind_gets.
  destruct (for_each_inv (λ pre cc', cc' = set_sketches (sketches cc') cc ∧
      length (sketches cc') = N.to_nat (num_vertices cc) ∧
      ∀ v s, sketches cc' !! v = Some s → ∃ i, holds b s i (f v) ∧ (v ∈ pre → i = 0))
    (seqN 0 (num_vertices cc)) (λ i, on_sketch i (λ s, mret (reset_sample_state s)))) with (s := cc)
    as (cc' & E & Hcc & HL' & Hf').
  - intros pre v rest c Hl (Hc & HLc & Hfc).
    assert (v ∈ seqN 0 (num_vertices cc)) as Hv by (rewrite Hl; apply elem_of_app; right; left).
    apply elem_of_seqN in Hv. destruct (lookupN_lt_is_Some (sketches c) v) as [s Hs]; [lia|].
    unfold on_sketch. rewrite M_bind_gets, (M_bind_lift _ s) by (by rewrite Hs).
    rewrite (M_bind_lift _ (reset_sample_state s)) by done. eexists. split; [done|].
    split; [by rewrite Hc|]. split; [simpl; by rewrite length_insertN|]. simpl. intros w t Hw.
    destruct (decide (w = v)) as [->|Hne].
    + rewrite lookupN_insert_eq in Hw by lia. injection Hw as <-. exists 0. split; [|done].
      destruct (Hfc v s Hs) as (i & (W & L & I & R) & _). split_and!; [by apply wf_set_sample_idx|by transitivity s|done|done].
    + rewrite lookupN_insert_ne in Hw by done. destruct (Hfc w t Hw) as (i & Hi & Hpre). exists i.
      split; [done|]. intros Hin. apply elem_of_app in Hin as [Hin|Hin]; [by apply Hpre|].
      by apply list_elem_of_singleton in Hin.
  - split; [by destruct cc|]. split; [done|]. intros v s Hs. destruct (Hf v s Hs) as [i Hi]. exists i.
    split; [done|]. intros Hin. by apply elem_of_nil in Hin.
  - exists cc'. split; [exact E|]. split; [done|]. split; [rewrite Hcc; simpl; done|].
    intros v s Hs. destruct (Hf' v s Hs) as (i & Hi & Hz). rewrite Hz in Hi; [done|].
    apply elem_of_seqN. apply lookupN_lt_Some in Hs. lia.
Qed.

(** * The whole computation *)

Definition query_reliable (T : N) (s : Schedules) (b : Sketch) (G : gset N) cc : Prop :=
  match boruvka_start T cc with
  | (cc1, Ok (mi, globals)) => run_reliable (boruvka_fuel cc) T s b G 0 mi globals cc1
  | _ => True
  end.

(** The members no query touches. *)
Definition stable cc cc' : Prop :=
  num_vertices cc' = num_vertices cc ∧ cc_seed cc' = cc_seed cc ∧ config cc' = config cc ∧
  delta_sketches cc' = delta_sketches cc ∧ num_delta_sketches cc' = num_delta_sketches cc.

(** The state and the outcome of [compute_answer]. *)
Definition answer_result (b : Sketch) (G : gset N) cc cc' (o : outcome unit) : Prop :=
  match o with
  | Ok _ => cc_inv cc' b G ∧ stable cc cc' ∧
      dsu_valid cc' = true ∧ update_locked cc' = false ∧ last_query_rounds cc' < num_samples b
  | Throw e => NDEBUG = true ∧ out_of_samples e ∧ cc_inv cc' b G ∧ stable cc cc' ∧
      dsu_valid cc' = false ∧ update_locked cc' = true ∧ last_query_rounds cc' = last_query_rounds cc
  | Abort => NDEBUG = false
  | Undef => False
  end.

Lemma boruvka_fuel_eq cc b f : cc_base cc b → cc_vectors cc b f →
  boruvka_fuel cc = S (N.to_nat (num_samples b)).
Proof using .
  intros Hb [HL Hf]. destruct Hb as [Hn _ _ _ _ _ _]. unfold boruvka_fuel, max_rounds.
  destruct (lookupN_lt_is_Some (sketches cc) 0) as [s Hs]; [lia|]. rewrite Hs. simpl.
  destruct (Hf 0 s Hs) as (_ & L & _). by destruct L as (_ & -> & _).
Qed.

Lemma compute_answer_ok b G `{!CheckAccepts SC G} T s cc (PT : Partitioned (num_vertices cc) T) :
  cc_inv cc b G → dsu_valid cc = false → zero_order s ≡ₚ seqN 0 (num_vertices cc) →
  query_reliable T s b G cc →
  ∃ cc' o, compute_answer T s cc = (cc', o) ∧ answer_result b G cc cc' o.
Proof using PlatformLaws0.
  intros HI Hvalid Hord Hrel. pose proof HI as [Hb HG Hvec Hdl (_ & _ & _ & Hsv & _)].
  destruct (boruvka_start_ok cc b G T HI) as (cc1 & mi & gs & E1 & Hfr1 & Hready).
  unfold query_reliable in Hrel. rewrite E1 in Hrel.
  rewrite (boruvka_fuel_eq cc b _ Hb Hvec) in Hrel. pose proof Hfr1 as (En1 & _).
  assert (Partitioned (num_vertices cc1) T) as PT1 by (by rewrite En1).
  destruct (loop_ok b G T s (S (N.to_nat (num_samples b))) 0 cc1 mi gs PT1 Hready)
    as (cc2 & o & E2 & Hfr2 & Hres); [by rewrite En1|lia|lia|done|].
  unfold compute_answer, boruvka_emulation. unfold mbind at 1, M_bind at 1, catch.
  rewrite M_bind_gets, (boruvka_fuel_eq cc b _ Hb Hvec), (M_bind_Ok _ _ _ _ _ E1).
  unfold mbind at 1, M_bind at 1. rewrite E2.
  destruct Hfr1 as (F1&F2&F3&F4&F5&F6&F7&F8&F9&F10). destruct Hfr2 as (K1&K2&K3&K4&K5&K6&K7&K8&K9&K10).
  simpl in F1, F2, F3, F4, F5, F6, F7, F8, F9, F10.
  destruct o as [r|e| |]; simpl in Hres.
  - destruct Hres as (Hr & Hsk & HF & Hspan). rewrite !M_bind_modify. simpl.
    set (cc3 := set_update_locked false (set_valid true (set_last_query_rounds r cc2))).
    destruct (reset_samples_ok cc3 b (incident G) Hsk) as (cc4 & E4 & Hcc4 & Hvec4).
    rewrite (M_bind_Ok _ _ _ _ _ E4). exists cc4, (Ok tt). split; [done|].
    assert (num_vertices cc4 = num_vertices cc) as En4 by (rewrite Hcc4; simpl; congruence).
    split; [|split_and!; [unfold stable; rewrite Hcc4; simpl; split_and!; congruence|rewrite Hcc4; done..]].
    split; [|by rewrite En4|done| |].
    + apply (cc_base_members cc); [done|rewrite Hcc4; simpl; congruence..|done].
    + unfold cc_deltas. rewrite Hcc4. simpl. rewrite K7, F7, K8, F8. exact Hdl.
    + unfold cc_cache. rewrite Hcc4. simpl. pose proof HF as [Hsz Hl [Hok _] _ _].
      split_and!; try done; by rewrite K1, F1 in *.
  - destruct Hres as (End & Hoos & Hsk & HF). destruct (reset_samples_ok cc2 b (incident G) Hsk) as (cc4 & E4 & Hcc4 & Hvec4).
    rewrite (M_bind_Ok _ _ _ _ _ E4). exists cc4, (Throw e). split; [done|]. split; [done|]. split; [done|].
    assert (num_vertices cc4 = num_vertices cc) as En4 by (rewrite Hcc4; simpl; congruence).
    assert (dsu_valid cc4 = false) as Hv4 by (rewrite Hcc4; simpl; congruence).
    split; [|split_and!; [unfold stable; rewrite Hcc4; simpl; split_and!; congruence|done|rewrite Hcc4; simpl; congruence..]]. split; [|by rewrite En4|done| |].
    + apply (cc_base_members cc); [done|rewrite Hcc4; simpl; congruence..|done].
    + unfold cc_deltas. rewrite Hcc4. simpl. rewrite K7, F7, K8, F8. exact Hdl.
    + unfold cc_cache. rewrite Hv4, Hcc4. simpl. pose proof HF as [Hsz Hl [Hok _] _ _].
      split_and!; try done; congruence.
  - exists cc2, Abort. done.
  - done.
Qed.
End Correct.
