(* ===== verification/Queries.v ===== *)
(** The answers of the queries.

    The return types list the classes of the disjoint set union; with
    [compute_answer_ok] of file BoruvkaCorrect they are the connected
    components of the graph of the updates received so far, and the spanning
    forest is one of that graph. *)
From stdpp Require Import sorting.
From S2P Require Import Prelude Float64 Platform Util XorSet Bucket Sketch Dsu DsuMT Graph Forest Config CCAlg Partition MergeInstr Round Region Programs RoundCorrect Instructions Boruvka BoruvkaCorrect.

Open Scope N_scope.

(** * Return types *)

Section ReturnTypes.
Context {D : Type} `{UnionFindLaws D}.

(** The answer that lists the roots of [d]. *)
Record lists_roots (d : D) (n : N) (ans : ConnectedComponents) : Prop := {
  ls_n : comps_num_vertices ans = n;
  ls_length : length (parent_arr ans) = N.to_nat n;
  ls_root v : v < n → parent_arr ans !! v = Some (uf_root d v);
  ls_num : num_cc ans = N.of_nat (length (filter (λ v, uf_root d v = v) (seqN 0 n)))
}.

Lemma ConnectedComponents_new_ok d n order : uf_ok d → uf_size d = n → n < 2 ^ 32 → order ≡ₚ seqN 0 n →
  ∃ d' ans, ConnectedComponents_new n order d = (d', Ok ans) ∧ uf_same d d' ∧ lists_roots d n ans.
Proof using .
  intros Hok Hsz Hn Hord. unfold ConnectedComponents_new, run_loop.
  set (body := λ (i : N) '(d, arr, temp_cc), _).
  assert (∀ v, v ∈ order ↔ v < n) as Hin.
  { intros v. rewrite Hord, elem_of_seqN. lia. }
  assert (∀ l : list N, (length (filter (λ v, uf_root d v = v) l) ≤ length l)%nat) as Hfl by (intros; apply length_filter).
  destruct (ofold_inv (λ seen '(d', arr, c), uf_same d d' ∧ length arr = N.to_nat n ∧
      (∀ v, v ∈ seen → arr !! v = Some (uf_root d v)) ∧
      c = N.of_nat (length (filter (λ v, uf_root d v = v) seen))) order body)
    with (s := (d, replicate (N.to_nat n) 0, 0)) as ([[d' arr] c] & -> & Hs & HL & Harr & Hc).
  - intros seen v rest [[d1 arr] c] El (Hs & HL & Harr & ->). unfold body.
    assert (v < n) as Hv by (apply Hin; rewrite El; apply elem_of_app; right; left).
    destruct Hs as (Hok1 & Hsz1 & Hr1).
    destruct (uf_find_ok d1 v Hok1) as (d2 & E & Hok2 & Hsz2 & Hr2); [by rewrite Hsz1, Hsz|].
    rewrite E. destruct (lookupN_lt_is_Some arr v) as [x Hx]; [lia|]. rewrite Hx.
    cbn [of_option mbind outcome_bind]. eexists. split; [done|]. rewrite Hr1 by (by rewrite Hsz).
    split; [split; [done|]; split; [congruence|]|split; [by rewrite length_insertN|split]].
    + intros y Hy. rewrite Hr2, Hr1 by congruence. done.
    + intros w Hw. destruct (decide (w = v)) as [->|Hne]; [rewrite lookupN_insert_eq by lia; done|].
      rewrite lookupN_insert_ne by done. apply Harr. apply elem_of_app in Hw as [?|Hw]; [done|].
      by apply list_elem_of_singleton in Hw.
    + rewrite filter_app, length_app, filter_cons. destruct (N.eqb_spec (uf_root d v) v) as [Er|Er].
      * rewrite decide_True by done. simpl. specialize (Hfl seen).
        assert (length seen ≤ N.to_nat n)%nat.
        { rewrite <-(length_seqN 0 n), <-(Permutation_length Hord), El, length_app. lia. }
        rewrite wrap_small by lia. lia.
      * rewrite decide_False by done. simpl. lia.
  - split; [by split|]. split; [by rewrite length_replicate|]. split; [|done].
    intros v Hv. by apply elem_of_nil in Hv.
  - cbn [mbind outcome_bind]. eexists d', _. split; [done|]. split; [done|].
    split; simpl; [done|done|intros v Hv; by apply Harr, Hin|].
    pose proof (Hfl (seqN 0 n)) as Hfn. rewrite length_seqN in Hfn.
    assert (length (filter (λ v, uf_root d v = v) order) = length (filter (λ v, uf_root d v = v) (seqN 0 n))) as <-.
    { apply Permutation_length. by rewrite Hord. }
    rewrite Hc, wrap_small; [done|].
    pose proof (Hfl order) as Hfo. rewrite (Permutation_length Hord), length_seqN in Hfo. lia.
Qed.

(** The roots are one vertex per class. *)
Lemma roots_representatives d n : uf_ok d → uf_size d = n →
  let reps := filter (λ v, uf_root d v = v) (seqN 0 n) in
  NoDup reps ∧ (∀ r, r ∈ reps → r < n) ∧ ∀ v, v < n → ∃ r, r ∈ reps ∧ uf_root d v = uf_root d r ∧
    ∀ r', r' ∈ reps → uf_root d v = uf_root d r' → r' = r.
Proof using .
  intros Hok Hsz reps. split; [apply NoDup_filter, NoDup_seqN|].
  split; [intros r [_ Hr%elem_of_seqN]%list_elem_of_filter; lia|]. intros v Hv.
  assert (uf_root d v < n) as Hlt by (rewrite <-Hsz; apply uf_root_lt; [done|by rewrite Hsz]).
  assert (uf_root d (uf_root d v) = uf_root d v) as Hid by (apply uf_root_idemp; [done|by rewrite Hsz]).
  exists (uf_root d v). split; [|split; [done|]].
  - apply list_elem_of_filter. split; [done|]. apply elem_of_seqN. lia.
  - intros r' [Hr' _]%list_elem_of_filter E. congruence.
Qed.

(** ** The sets *)

Lemma component_map_ok d n ans : lists_roots d n ans → ∃ temp,
  ofold (λ i temp, root ← of_option (parent_arr ans !! i);
      mret (<[root := {[ i ]} ∪ default ∅ (temp !! root)]> temp))
    (seqN 0 n) (∅ : gmap N (gset N)) = Ok temp ∧
  ∀ r, default ∅ (temp !! r) = comp d n r ∧ (temp !! r = Some ∅ → False).
Proof using .
  intros [_ _ Hr _].
  destruct (ofold_range (λ k (temp : gmap N (gset N)), ∀ r, default ∅ (temp !! r) = comp d k r ∧ (temp !! r = Some ∅ → False))
    0 n (λ i temp, root ← of_option (parent_arr ans !! i);
      mret (<[root := {[ i ]} ∪ default ∅ (temp !! root)]> temp))) with (s := (∅ : gmap N (gset N)))
    as (temp & E & Ht).
  - intros k temp Hk Ht. rewrite N.add_0_l, (Hr k Hk). cbn [of_option mbind outcome_bind].
    eexists. split; [done|]. intros r. destruct (decide (r = uf_root d k)) as [->|Hne].
    + rewrite lookup_insert_eq. destruct (Ht (uf_root d k)) as [-> _]. simpl. split; [|intros [= ?]; set_solver].
      apply set_eq. intros v. rewrite elem_of_union, elem_of_singleton, !elem_of_comp.
      split; [intros [->|[? ?]]; split; (done || lia)|]. intros [Hv Hrv].
      destruct (decide (v = k)); [by left|right; split; [lia|done]].
    + rewrite lookup_insert_ne by done. destruct (Ht r) as [-> ?]. split; [|done].
      apply set_eq. intros v. rewrite !elem_of_comp. split; [intros [? ?]; split; [lia|done]|].
      intros [Hv Hrv]. split; [|done]. destruct (decide (v = k)) as [->|]; [done|lia].
  - intros r. rewrite lookup_empty. split; [|done]. simpl. apply set_eq. intros v. rewrite elem_of_comp.
    split; [set_solver|]. intros [Hv _]. lia.
  - by exists temp.
Qed.

(** The sets are the nonempty classes, each once. *)
Lemma get_component_sets_ok d n ans : uf_ok d → uf_size d = n → lists_roots d n ans →
  ∃ sets, get_component_sets ans = Ok sets ∧ NoDup sets ∧
    ∀ S, S ∈ sets ↔ ∃ r, r < n ∧ S = comp d n (uf_root d r).
Proof using .
  intros Hok Hsz Hans. destruct (component_map_ok d n ans Hans) as (temp & E & Ht).
  assert (∀ r S, temp !! r = Some S → S = comp d n r ∧ S ≠ ∅) as Hsome.
  { intros r S HS. destruct (Ht r) as [Hd Hne]. rewrite HS in Hd, Hne. simpl in Hd. split; [done|]. intros ->. auto. }
  unfold get_component_sets. rewrite (ls_n _ _ _ Hans), E. cbn [mbind outcome_bind]. eexists. split; [done|].
  pose proof (merge_sort_Permutation key_le (map_to_list temp)) as Hp.
  split.
  - rewrite Hp. assert (∀ l : list (N * gset N), NoDup l.*1 → (∀ r S, (r, S) ∈ l → S = comp d n r ∧ S ≠ ∅) → NoDup l.*2) as Hgen.
    { induction l as [|[r S] l IH]; intros Hnd Hl; [constructor|]. rewrite !fmap_cons in *. simpl in *.
      apply NoDup_cons in Hnd as [Hr Hnd]. apply NoDup_cons. split; [|apply IH; [done|intros; apply Hl; by right]].
      intros (x & Ex & Hx)%list_elem_of_fmap. destruct x as [r' S']. simpl in Ex. subst S'.
      destruct (Hl r S (list_elem_of_here _ _)) as [E1 Hne]. destruct (Hl r' S (list_elem_of_further _ _ _ Hx)) as [E2 _].
      apply set_choose_L in Hne as [v Hv]. pose proof Hv as Hv'. rewrite E1 in Hv. rewrite E2 in Hv'.
      apply elem_of_comp in Hv as [_ Hv], Hv' as [_ Hv']. apply Hr, list_elem_of_fmap. exists (r', S). simpl. split; [congruence|done]. }
    apply Hgen; [apply NoDup_fst_map_to_list|]. intros r S Hin%elem_of_map_to_list. by apply Hsome.
  - intros S. rewrite Hp, list_elem_of_fmap. split.
    + intros ([r S'] & -> & Hin%elem_of_map_to_list). destruct (Hsome r S' Hin) as [-> Hne]. simpl.
      apply set_choose_L in Hne as [v [Hv <-]%elem_of_comp]. by exists v.
    + intros (r & Hr & ->). set (rho := uf_root d r). exists (rho, comp d n rho). split; [done|].
      apply elem_of_map_to_list. destruct (Ht rho) as [Hd _]. destruct (temp !! rho) as [S|]; simpl in Hd; [by rewrite Hd|].
      assert (r ∈ comp d n rho) as Hin by (by apply elem_of_comp). rewrite <-Hd in Hin. set_solver.
Qed.
End ReturnTypes.

(** ** The spanning forest *)

Definition edge_pair (e : Edge) : N * N := (src e, dst e).

Lemma SpanningForest_new_ok n sf : length sf = N.to_nat n →
  ∃ ans, SpanningForest_new n sf = Ok ans ∧ edge_pair <$> sf_edges ans = forest_pairs sf.
Proof.
  intros HL.
  assert (∀ (l : list (gset N)) (k : nat) acc, (∀ i : nat, l !! i = sf !! (k + i)%nat) →
    ofold (λ src edges, X ← of_option (sf !! (src : N)); mret (edges ++ (mkEdge src <$> elements (X : gset N))))
      (N.of_nat <$> seq k (length l)) acc =
    Ok (acc ++ ((λ p, mkEdge p.1 p.2) <$> forest_pairs_from (N.of_nat k) l))) as Hgen.
  { induction l as [|X l IH]; intros k acc Hl; simpl; [by rewrite app_nil_r|].
    assert (sf !! N.of_nat k = Some X) as ->.
    { rewrite lookupN_eq, Nat2N.id. pose proof (Hl 0%nat) as H0. rewrite Nat.add_0_r in H0. by rewrite <-H0. }
    cbn [of_option mbind outcome_bind]. unfold mret, outcome_ret. cbn [mbind outcome_bind].
    rewrite (IH (S k)) by (intros i; rewrite Nat.add_succ_comm; apply (Hl (S i))).
    rewrite fmap_app, app_assoc, <-list_fmap_compose. by rewrite Nat2N.inj_succ. }
  unfold SpanningForest_new, seqN. change (N.to_nat 0) with 0%nat. rewrite <-HL, (Hgen sf 0%nat []) by done. eexists. split; [done|].
  cbn [sf_edges app]. rewrite <-list_fmap_compose. unfold forest_pairs, edge_pair.
  transitivity (id <$> forest_pairs_from 0 sf); [|apply list_fmap_id]. apply list_fmap_ext. by intros ? [].
Qed.

(** * What a correct answer is *)

(** [k] is the number of connected components of [G] on the vertices below [n]. *)
Definition components_count (n : N) (G : gset N) (k : N) : Prop :=
  ∃ reps, NoDup reps ∧ N.of_nat (length reps) = k ∧ (∀ r, r ∈ reps → r < n) ∧
    ∀ v, v < n → ∃ r, r ∈ reps ∧ graph_connected G v r ∧
      ∀ r', r' ∈ reps → graph_connected G v r' → r' = r.

(** There is one. *)
Lemma count_le n G reps reps' : NoDup reps → (∀ r, r ∈ reps → r < n) →
  (∀ v, v < n → ∃ r, r ∈ reps ∧ graph_connected G v r ∧ ∀ r', r' ∈ reps → graph_connected G v r' → r' = r) →
  (∀ v, v < n → ∃ r, r ∈ reps' ∧ graph_connected G v r) → (length reps ≤ length reps')%nat.
Proof.
  intros Hnd Hlt Huniq Hex.
  assert (∃ l, Forall2 (λ r r', r' ∈ reps' ∧ graph_connected G r r') reps l) as [l Hl].
  { clear Hnd Huniq. induction reps as [|r reps IH]; [by exists []|].
    destruct IH as [l Hl]; [intros r' Hr'; apply Hlt; by right|]. destruct (Hex r) as (r' & Hr' & Hc); [apply Hlt; left|].
    exists (r' :: l). by constructor. }
  rewrite (Forall2_length _ _ _ Hl). apply submseteq_length, NoDup_submseteq.
  - apply NoDup_alt. intros i j x Hi Hj.
    destruct (Forall2_lookup_r _ _ _ _ _ Hl Hi) as (r1 & Hr1 & _ & C1).
    destruct (Forall2_lookup_r _ _ _ _ _ Hl Hj) as (r2 & Hr2 & _ & C2).
    apply (NoDup_lookup reps i j r1 Hnd Hr1). rewrite Hr2. f_equal.
    pose proof (list_elem_of_lookup_2 _ _ _ Hr1) as M1. pose proof (list_elem_of_lookup_2 _ _ _ Hr2) as M2.
    destruct (Huniq r1 (Hlt _ M1)) as (r & _ & _ & Hr). rewrite (Hr r1 M1 (reflexivity _)). apply (Hr r2 M2).
    etrans; [exact C1|by symmetry].
  - intros x (i & Hi)%list_elem_of_lookup_1. by destruct (Forall2_lookup_r _ _ _ _ _ Hl Hi) as (? & _ & ? & _).
Qed.

Lemma components_count_unique n G k k' : components_count n G k → components_count n G k' → k = k'.
Proof.
  intros (R & Nd & <- & Hlt & Hu) (R' & Nd' & <- & Hlt' & Hu'). f_equal. apply Nat.le_antisymm.
  - apply (count_le n G); [done..|]. intros v Hv. destruct (Hu' v Hv) as (r & ? & ? & _). by exists r.
  - apply (count_le n G); [done..|]. intros v Hv. destruct (Hu v Hv) as (r & ? & ? & _). by exists r.
Qed.

Definition answers_components (n : N) (G : gset N) (ans : ConnectedComponents) : Prop :=
  (∀ x y, x < n → y < n → ∃ c, is_connected ans x y = Ok c ∧ (c = true ↔ graph_connected G x y)) ∧
  components_count n G (components_size ans) ∧
  ∃ sets, get_component_sets ans = Ok sets ∧ NoDup sets ∧
    ∀ S, S ∈ sets ↔ ∃ r, r < n ∧ ∀ v, v ∈ S ↔ v < n ∧ graph_connected G r v.

(** A forest of edges of [G] that connects what [G] connects. *)
Definition answers_forest (G : gset N) (ans : SpanningForest) : Prop :=
  let es := edge_pair <$> sf_edges ans in
  (∀ u v, (u, v) ∈ es → is_node_id u ∧ is_node_id v ∧ concat_pairing_fn u v ∈ G) ∧
  (∀ x y, pair_connected es x y ↔ graph_connected G x y) ∧
  ∃ log, log ≡ₚ es ∧ acyclic_pairs log.

Section Queries.
Context `{P : Platform} `{!PlatformLaws P} {SC : SampleCheck} {D : Type} `{UnionFindLaws D}.
Implicit Type cc : CCSketchAlg D.

Lemma lists_roots_answer d n G ans : uf_ok d → uf_size d = n → lists_roots d n ans →
  (∀ x y, x < n → y < n → uf_root d x = uf_root d y ↔ graph_connected G x y) →
  answers_components n G ans.
Proof using .
  intros Hok Hsz Hans Hconn. split; [|split].
  - intros x y Hx Hy. unfold is_connected. rewrite (ls_root _ _ _ Hans x Hx), (ls_root _ _ _ Hans y Hy).
    cbn [of_option mbind outcome_bind]. eexists. split; [done|]. by rewrite N.eqb_eq, Hconn.
  - destruct (roots_representatives d n Hok Hsz) as (Hnd & Hlt & Hreps).
    eexists. split; [exact Hnd|]. split; [symmetry; apply (ls_num _ _ _ Hans)|]. split; [exact Hlt|]. intros v Hv.
    destruct (Hreps v Hv) as (r & Hr & Hvr & Huniq). exists r. split; [done|].
    split; [apply Hconn; auto|]. intros r' Hr' Hc. apply Huniq; [done|]. apply Hconn; auto.
  - destruct (get_component_sets_ok d n ans Hok Hsz Hans) as (sets & E & Hnd & Hsets).
    exists sets. split; [done|]. split; [done|]. intros S. rewrite Hsets. split.
    + intros (r & Hr & ->). exists r. split; [done|]. intros v. rewrite elem_of_comp.
      split; intros [Hv Hc]; (split; [done|]); [by apply Hconn|symmetry; by apply Hconn].
    + intros (r & Hr & HS). exists r. split; [done|]. apply set_eq. intros v. rewrite elem_of_comp, HS.
      split; intros [Hv Hc]; (split; [done|]); [symmetry; by apply Hconn|by apply Hconn].
Qed.

Lemma cc_cache_same cc G d : cc_cache cc G → uf_same (dsu cc) d → cc_cache (set_dsu d cc) G.
Proof using .
  intros (Hok & Hsz & Hl & Hs & Hval) Hsame. pose proof Hsame as (Ho & Hz & _). unfold cc_cache. simpl.
  split_and!; [done|congruence|done|done|]. intros Hd. destruct (Hval Hd) as [HF Hc]. split; [|done].
  by apply (forest_inv_same _ (dsu cc)).
Qed.

Lemma cc_inv_same cc b G d : cc_inv cc b G → uf_same (dsu cc) d → cc_inv (set_dsu d cc) b G.
Proof using .
  intros [Hb HG Hv Hdl Hc] Hsame. split; try done; [by apply (cc_base_members cc)|by apply cc_cache_same].
Qed.

(** A valid cache answers connectivity. *)
Lemma cache_connected cc G x y : cc_cache cc G → dsu_valid cc = true →
  x < num_vertices cc → y < num_vertices cc →
  uf_root (dsu cc) x = uf_root (dsu cc) y ↔ graph_connected G x y.
Proof using .
  intros (_ & Hsz & _ & _ & Hval) Hd Hx Hy. destruct (Hval Hd) as [HF Hc].
  rewrite <-Hc. apply (proj2 (fi_tracks _ _ _ _ HF)); by rewrite Hsz.
Qed.

(** What a query needs: workable partitions, every vertex visited in round 0,
    and checksums that tell the truth if the algorithm has to run. *)
Record query_ready (T : N) (s : Schedules) (b : Sketch) (G : gset N) cc : Type := {
  qr_parts : Partitioned (num_vertices cc) T;
  qr_order : zero_order s ≡ₚ seqN 0 (num_vertices cc);
  qr_reliable : dsu_valid cc = false → query_reliable T s b G cc
}.

(** What a query leaves, [good] being what its answer satisfies. *)
Definition query_outcome {A} (good : A → Prop) (b : Sketch) (G : gset N) cc cc' (o : outcome A) : Prop :=
  match o with
  | Ok ans => good ans ∧ cc_inv cc' b G ∧ stable cc cc' ∧ dsu_valid cc' = true ∧
      update_locked cc' = (if dsu_valid cc then update_locked cc else false)
  | Throw e => NDEBUG = true ∧ out_of_samples e ∧ cc_inv cc' b G ∧ stable cc cc' ∧
      dsu_valid cc = false ∧ dsu_valid cc' = false ∧ update_locked cc' = true
  | Abort => NDEBUG = false
  | Undef => False
  end.

Lemma ensure_answer_ok T s b G `{!CheckAccepts SC G} cc (cached : bool) : cc_inv cc b G → query_ready T s b G cc →
  cached = dsu_valid cc →
  ∃ cc' o, (if cached then mret tt else compute_answer T s) cc = (cc', o) ∧
    query_outcome (λ _, True) b G cc cc' o.
Proof using PlatformLaws0.
  intros HI [HPT Hord Hrel] ->. destruct (dsu_valid cc) eqn:Hd.
  - exists cc, (Ok tt). split; [done|]. simpl. by rewrite Hd.
  - destruct (compute_answer_ok b G T s cc HPT HI Hd Hord (Hrel eq_refl)) as (cc' & o & E & Hres).
    exists cc', o. split; [exact E|]. destruct o; simpl in *; rewrite ?Hd; naive_solver.
Qed.

Lemma query_outcome_step {A B} (m : M (CCSketchAlg D) A) (k : A → M (CCSketchAlg D) B) good b G cc cc1 o :
  m cc = (cc1, o) → query_outcome (λ _, True) b G cc cc1 o →
  (∀ a, o = Ok a → cc_inv cc1 b G → num_vertices cc1 = num_vertices cc → dsu_valid cc1 = true →
     ∃ d ans, k a cc1 = (set_dsu d cc1, Ok ans) ∧ uf_same (dsu cc1) d ∧ good ans) →
  ∃ cc' o', (m ≫= k) cc = (cc', o') ∧ query_outcome good b G cc cc' o'.
Proof using .
  intros E Ho Hk. unfold mbind, M_bind. rewrite E. destruct o as [a|e| |]; simpl in Ho.
  - destruct Ho as (_ & HI & En & Hd & Hl). destruct (Hk a eq_refl HI (proj1 En) Hd) as (d & ans & -> & Hs & Hg).
    eexists _, _. split; [done|]. simpl. split_and!; try done. by apply cc_inv_same.
  - by exists cc1, (Throw e).
  - by exists cc1, Abort.
  - done.
Qed.

Lemma on_dsu_run {A} (m : M D A) cc d o : m (dsu cc) = (d, o) → on_dsu m cc = (set_dsu d cc, o).
Proof using . intros E. unfold on_dsu, zoom. by rewrite E. Qed.

(** [connected_components] *)
Lemma connected_components_ok T s order b G `{!CheckAccepts SC G} cc : cc_inv cc b G → query_ready T s b G cc →
  order ≡ₚ seqN 0 (num_vertices cc) →
  ∃ cc' o, connected_components T s order cc = (cc', o) ∧
    query_outcome (answers_components (num_vertices cc) G) b G cc cc' o.
Proof using PlatformLaws0.
  intros HI Hq Hord. unfold connected_components. rewrite M_bind_gets.
  assert (shared_dsu_valid cc = dsu_valid cc) as -> by apply HI.
  destruct (ensure_answer_ok T s b G cc _ HI Hq eq_refl) as (cc1 & o & E & Ho).
  apply (query_outcome_step _ _ _ b G cc cc1 o E Ho). intros [] _ HI1 En Hd. rewrite M_bind_gets.
  destruct HI1 as [Hb1 _ _ _ Hc]. pose proof Hc as (Hok & Hsz & _). pose proof (cb_n _ _ Hb1) as [_ Hn].
  destruct (ConnectedComponents_new_ok (dsu cc1) (num_vertices cc1) order Hok Hsz Hn)
    as (d & ans & Ea & Hs & Hans); [by rewrite En|].
  exists d, ans. split; [by apply on_dsu_run|]. split; [done|]. rewrite <-En.
  apply (lists_roots_answer (dsu cc1)); [done..|]. intros x y Hx Hy. by apply cache_connected.
Qed.

Lemma forest_answer n G sf d : n ≤ 2 ^ 32 → forest_inv n d sf G →
  (∀ x y, pair_connected (forest_pairs sf) x y ↔ graph_connected G x y) →
  ∃ ans, SpanningForest_new n sf = Ok ans ∧ answers_forest G ans.
Proof using .
  intros Hn HF Hc. destruct (SpanningForest_new_ok n sf (fi_length _ _ _ _ HF)) as (ans & Ea & Eans).
  exists ans. split; [done|]. unfold answers_forest. rewrite Eans. split; [|split; [done|apply HF]].
  intros u v Huv. destruct (fi_edges _ _ _ _ HF u v Huv) as (? & ? & ?). unfold is_node_id, num_bits.
  split; [lia|]. split; [lia|done].
Qed.

(** [calc_spanning_forest] *)
Lemma calc_spanning_forest_ok T s order b G `{!CheckAccepts SC G} cc : cc_inv cc b G → query_ready T s b G cc →
  order ≡ₚ seqN 0 (num_vertices cc) →
  ∃ cc' o, calc_spanning_forest T s order cc = (cc', o) ∧ query_outcome (answers_forest G) b G cc cc' o.
Proof using PlatformLaws0.
  intros HI Hq Hord. unfold calc_spanning_forest.
  destruct (connected_components_ok T s order b G cc HI Hq Hord) as (cc1 & o & E & Ho).
  apply (query_outcome_step _ _ _ b G cc cc1 o E); [by destruct o; naive_solver|].
  intros a _ HI1 En Hd. rewrite !M_bind_gets. pose proof HI1 as [Hb1 _ _ _ (Hok & Hsz & Hl & _ & Hval)].
  destruct (Hval Hd) as [HF Hc]. pose proof (cb_n _ _ Hb1).
  destruct (forest_answer (num_vertices cc1) G _ _ ltac:(lia) HF Hc) as (ans & Ea & Ha).
  exists (dsu cc1), ans. unfold lift. rewrite Ea. split; [by destruct cc1|]. by split.
Qed.

(** [point_query] *)
Lemma point_query_ok T s x y b G `{!CheckAccepts SC G} cc : cc_inv cc b G → query_ready T s b G cc →
  x < num_vertices cc → y < num_vertices cc →
  ∃ cc' o, point_query T s x y cc = (cc', o) ∧
    query_outcome (λ ans, ans = true ↔ graph_connected G x y) b G cc cc' o.
Proof using PlatformLaws0.
  intros HI Hq Hx Hy. unfold point_query. rewrite M_bind_gets.
  destruct (ensure_answer_ok T s b G cc _ HI Hq eq_refl) as (cc1 & o & E & Ho).
  apply (query_outcome_step _ _ _ b G cc cc1 o E Ho). intros [] _ HI1 En Hd. rewrite <-En in Hx, Hy.
  pose proof (cache_connected cc1 G x y (ci_cache _ _ _ HI1) Hd Hx Hy) as Hc.
  destruct HI1 as [_ _ _ _ (Hok & Hsz & _)].
  destruct (uf_find_ok (dsu cc1) x Hok) as (d1 & E1 & Ho1 & Hs1 & Hr1); [by rewrite Hsz|].
  destruct (uf_find_ok d1 y Ho1) as (d2 & E2 & Ho2 & Hs2 & Hr2); [by rewrite Hs1, Hsz|].
  rewrite (M_bind_Ok _ _ _ _ _ (on_dsu_run _ cc1 _ _ E1)).
  rewrite (M_bind_Ok _ _ _ _ _ (on_dsu_run _ (set_dsu d1 cc1) _ _ E2)).
  exists d2, (uf_root (dsu cc1) x =? uf_root (dsu cc1) y). rewrite <-(Hr1 y) by (by rewrite Hsz). split; [done|].
  split; [|by rewrite Hr1, N.eqb_eq, Hc by (by rewrite Hsz)]. split; [done|]. split; [congruence|].
  intros z Hz. rewrite Hr2, Hr1 by congruence. done.
Qed.

(** ** From the cache *)

Lemma connected_components_cached T s order G cc : num_vertices cc < 2 ^ 32 → cc_cache cc G → dsu_valid cc = true →
  order ≡ₚ seqN 0 (num_vertices cc) →
  ∃ d ans, connected_components T s order cc = (set_dsu d cc, Ok ans) ∧ uf_same (dsu cc) d ∧
    answers_components (num_vertices cc) G ans.
Proof using .
  intros Hn HC Hd Hord. unfold connected_components. pose proof HC as (Hok & Hsz & _ & Hsh & _).
  rewrite M_bind_gets, Hsh, Hd, M_bind_mret, M_bind_gets.
  destruct (ConnectedComponents_new_ok (dsu cc) (num_vertices cc) order Hok Hsz Hn Hord)
    as (d & ans & Ea & Hs & Hans). exists d, ans. split; [by apply on_dsu_run|]. split; [done|].
  apply (lists_roots_answer (dsu cc)); [done..|]. intros x y Hx Hy. by apply cache_connected.
Qed.

Lemma calc_spanning_forest_cached T s order G cc : num_vertices cc < 2 ^ 32 → cc_cache cc G → dsu_valid cc = true →
  order ≡ₚ seqN 0 (num_vertices cc) →
  ∃ d ans, calc_spanning_forest T s order cc = (set_dsu d cc, Ok ans) ∧ uf_same (dsu cc) d ∧ answers_forest G ans.
Proof using .
  intros Hn HC Hd Hord. destruct (connected_components_cached T s order G cc Hn HC Hd Hord) as (d & ans & E & Hs & _).
  unfold calc_spanning_forest. rewrite (M_bind_Ok _ _ _ _ _ E), !M_bind_gets.
  pose proof HC as (_ & _ & _ & _ & Hval). destruct (Hval Hd) as [HF Hc].
  destruct (forest_answer (num_vertices cc) G _ _ ltac:(lia) HF Hc) as (F & EF & HFa).
  exists d, F. split; [unfold lift; cbn [num_vertices spanning_forest set_dsu]; by rewrite EF|done].
Qed.

Lemma point_query_cached T s x y G cc : cc_cache cc G → dsu_valid cc = true →
  x < num_vertices cc → y < num_vertices cc →
  ∃ d r, point_query T s x y cc = (set_dsu d cc, Ok r) ∧ uf_same (dsu cc) d ∧ (r = true ↔ graph_connected G x y).
Proof using .
  intros HC Hd Hx Hy. unfold point_query. rewrite M_bind_gets, Hd, M_bind_mret.
  pose proof (cache_connected cc G x y HC Hd Hx Hy) as Hc. destruct HC as (Hok & Hsz & _).
  destruct (uf_find_ok (dsu cc) x Hok) as (d1 & E1 & Ho1 & Hs1 & Hr1); [by rewrite Hsz|].
  destruct (uf_find_ok d1 y Ho1) as (d2 & E2 & Ho2 & Hs2 & Hr2); [by rewrite Hs1, Hsz|].
  rewrite (M_bind_Ok _ _ _ _ _ (on_dsu_run _ cc _ _ E1)).
  rewrite (M_bind_Ok _ _ _ _ _ (on_dsu_run _ (set_dsu d1 cc) _ _ E2)).
  exists d2, (uf_root (dsu cc) x =? uf_root (dsu cc) y). rewrite <-(Hr1 y) by (by rewrite Hsz). split; [done|].
  split; [|by rewrite Hr1, N.eqb_eq, Hc by (by rewrite Hsz)]. split; [done|]. split; [congruence|].
  intros z Hz. rewrite Hr2, Hr1 by congruence. done.
Qed.
End Queries.
