(* ===== verification/Session.v ===== *)
(** Whole runs of the algorithm against an abstract graph.

    A session is any sequence of calls: single updates, streams in which eager
    insertions and the workers' batches interleave, and the three queries, each
    in its [try]. The abstract state is a graph, whether an answer to it is
    cached, and whether a failed query has locked the batches. [session_ok] is
    the simulation; [session_refines] the statement for a fresh object. *)
From S2P Require Import Prelude Float64 Platform Util XorSet Bucket Sketch Dsu DsuMT Graph Forest Config CCAlg Partition MergeInstr Round Region Programs RoundCorrect Instructions Boruvka BoruvkaCorrect Queries.

Open Scope N_scope.

(** * Calls *)

(** What reaches the algorithm while a stream is processed. *)
Inductive event (U : Type) : Type :=
| EInsert (u : GraphUpdate U)
| EBatch (b : batch).
Arguments EInsert {U}.
Arguments EBatch {U}.

Inductive call (U : Type) : Type :=
| CallUpdate (u : GraphUpdate U)
| CallStream (es : list (event U))
| CallConnected (s : Schedules) (order : list N)
| CallForest (s : Schedules) (order : list N)
| CallPoint (s : Schedules) (x y : N).
Arguments CallUpdate {U}.
Arguments CallStream {U}.
Arguments CallConnected {U}.
Arguments CallForest {U}.
Arguments CallPoint {U}.

Inductive reply : Type :=
| RDone
| RComponents (ans : ConnectedComponents)
| RForest (ans : SpanningForest)
| RConnected (ans : bool)
| RThrown (e : exn).

Definition inserted {U} (es : list (event U)) : list (GraphUpdate U) :=
  es ≫= λ e, match e with EInsert u => [u] | EBatch _ => [] end.
Definition batches {U} (es : list (event U)) : list batch :=
  es ≫= λ e, match e with EInsert _ => [] | EBatch b => [b] end.

Lemma inserted_app {U} (es es' : list (event U)) : inserted (es ++ es') = inserted es ++ inserted es'.
Proof. apply bind_app. Qed.
Lemma batches_app {U} (es es' : list (event U)) : batches (es ++ es') = batches es ++ batches es'.
Proof. apply bind_app. Qed.

Section Run.
Context `{P : Platform} {D : Type} `{UF : UnionFind D} {U : Type}.

Definition run_event (e : event U) : M (CCSketchAlg D) unit :=
  match e with
  | EInsert u => pre_insert u
  | EBatch (thr, v, dsts) => apply_update_batch thr v dsts
  end.

(** [try { m } catch (e) { e }] *)
Definition caught {S A} (f : A → reply) (m : M S A) : M S reply := λ cc,
  match m cc with
  | (cc, Ok a) => (cc, Ok (f a))
  | (cc, Throw e) => (cc, Ok (RThrown e))
  | (cc, Abort) => (cc, Abort)
  | (cc, Undef) => (cc, Undef)
  end.

Definition run_call (T : N) (c : call U) : M (CCSketchAlg D) reply :=
  match c with
  | CallUpdate u => caught (λ _, RDone) (update u)
  | CallStream es => caught (λ _, RDone) (for_each es run_event)
  | CallConnected s order => caught RComponents (connected_components T s order)
  | CallForest s order => caught RForest (calc_spanning_forest T s order)
  | CallPoint s x y => caught RConnected (point_query T s x y)
  end.

Fixpoint run_session (T : N) (cs : list (call U)) : M (CCSketchAlg D) (list reply) :=
  match cs with
  | [] => mret []
  | c :: cs => r ← run_call T c; rs ← run_session T cs; mret (r :: rs)
  end.
End Run.

(** * The abstract graph *)

Record gstate : Type := mkG { g_graph : gset N; g_cached : bool; g_locked : bool }.

(** Every edge is new when its turn comes. *)
Definition fresh_edges (G : gset N) (ids : list N) : Prop := NoDup ids ∧ ∀ id, id ∈ ids → id ∉ G.

Lemma elem_of_toggles (id : N) ids : id ∈ toggles ids → id ∈ ids.
Proof.
  induction ids as [|x ids IH]; simpl; [set_solver|]. rewrite toggles_cons, elem_of_symdiff.
  intros [[Hx _]|[_ Hx]]; [apply elem_of_singleton in Hx as ->; left|right; auto].
Qed.

Lemma fresh_edges_app G ids ids' : fresh_edges G (ids ++ ids') →
  fresh_edges G ids ∧ fresh_edges (G △ toggles ids) ids'.
Proof.
  intros [Hnd Hf]. apply NoDup_app in Hnd as (Hnd & Hd & Hnd'). split.
  - split; [done|]. intros id Hid. apply Hf, elem_of_app. by left.
  - split; [done|]. intros id Hid Hin. apply elem_of_symdiff in Hin as [[Hin _]|[_ Hin]].
    + revert Hin. apply Hf, elem_of_app. by right.
    + apply elem_of_toggles in Hin. by apply (Hd id).
Qed.

Section Spec.
Context `{P : Platform} {U : Type}.

(** Updates never make an answer cached, and insertions keep it. *)
Definition cached_after (G : gset N) (ids : list N) (c c' : bool) : Prop :=
  (c' = true → c = true) ∧
  (c = true → NO_EAGER_DSU = false → fresh_edges G ids → c' = true).

(** A query that is answered: the answer, and its reply. *)
Definition query_answer (n : N) (G : gset N) (c : call U) (r : reply) : Prop :=
  match c, r with
  | CallConnected _ _, RComponents ans => answers_components n G ans
  | CallForest _ _, RForest ans => answers_forest G ans
  | CallPoint _ x y, RConnected ans => ans = true ↔ graph_connected G x y
  | _, _ => False
  end.

Definition is_query (c : call U) : bool :=
  match c with CallUpdate _ | CallStream _ => false | _ => true end.

Inductive spec_step (n : N) : gstate → call U → gstate → reply → Prop :=
| SpecUpdate G c c' l u :
    cached_after G (stream_ids [u]) c c' →
    spec_step n (mkG G c l) (CallUpdate u) (mkG (G △ toggles (stream_ids [u])) c' l) RDone
| SpecStream G c c' es :
    cached_after G (stream_ids (inserted es)) c c' →
    spec_step n (mkG G c false) (CallStream es)
      (mkG (G △ toggles (stream_ids (inserted es))) c' false) RDone
| SpecEmpty σ : spec_step n σ (CallStream []) σ RDone
| SpecLocked G c es : batches es ≠ [] →
    spec_step n (mkG G c true) (CallStream es) (mkG G c true) (RThrown UpdateLockedException)
| SpecAnswer G c l q r : query_answer n G q r →
    spec_step n (mkG G c l) q (mkG G true false) r
| SpecFail G l q e : is_query q = true → NDEBUG = true → out_of_samples e →
    spec_step n (mkG G false l) q (mkG G false true) (RThrown e).

Inductive spec_run (n : N) : gstate → list (call U) → list reply → gstate → Prop :=
| SpecNil σ : spec_run n σ [] [] σ
| SpecCons σ c σ1 r cs rs σ2 :
    spec_step n σ c σ1 r → spec_run n σ1 cs rs σ2 → spec_run n σ (c :: cs) (r :: rs) σ2.
End Spec.

(** What callers owe: edges between different vertices of the graph, batches
    that deliver every inserted edge to both ends, vertices in range. *)
Definition valid_call `{P : Platform} {U} (n k : N) (c : call U) : Prop :=
  match c with
  | CallUpdate u => valid_updates n [u]
  | CallStream es =>
      valid_updates n (inserted es) ∧ Forall (λ '(thr, v, dsts), thr < k ∧ v < n) (batches es) ∧
      ∀ v, v < n → delivered v (batches es) ≡ₚ
        filter (λ id, touches v id = true) (stream_ids (inserted es))
  | CallConnected s order | CallForest s order =>
      zero_order s ≡ₚ seqN 0 n ∧ order ≡ₚ seqN 0 n
  | CallPoint s x y => zero_order s ≡ₚ seqN 0 n ∧ x < n ∧ y < n
  end.

Definition schedule_of {U} (c : call U) : option Schedules :=
  match c with
  | CallUpdate _ | CallStream _ => None
  | CallConnected s _ | CallForest s _ | CallPoint s _ _ => Some s
  end.

(** The graph after a call. *)
Definition graph_after {U} (c : call U) (locked : bool) (G : gset N) : gset N :=
  match c with
  | CallUpdate u => G △ toggles (stream_ids [u])
  | CallStream es => if locked then G else G △ toggles (stream_ids (inserted es))
  | _ => G
  end.

(** * Simulation *)

Section Simulation.
Context `{P : Platform} `{!PlatformLaws P} {D : Type} `{UnionFindLaws D} {U : Type}.
Implicit Type cc : CCSketchAlg D.
Implicit Type c : call U.

(** The checksums tell the truth whenever a call of the session has to sample. *)
Fixpoint session_reliable (T : N) (b : Sketch) (cs : list (call U)) (G : gset N) cc : Prop :=
  match cs with
  | [] => True
  | c :: cs =>
      (∀ s, schedule_of c = Some s → dsu_valid cc = false → query_reliable T s b G cc) ∧
      session_reliable T b cs (graph_after c (update_locked cc) G) (run_call T c cc).1
  end.

(** ** Updates and the cache *)

Lemma cached_after_nil G v : cached_after G [] v v.
Proof using . done. Qed.

Lemma cached_after_app G ids ids' (c1 c2 c3 : bool) : cached_after G ids c1 c2 →
  cached_after (G △ toggles ids) ids' c2 c3 → cached_after G (ids ++ ids') c1 c3.
Proof using .
  intros [H1 H2] [H3 H4]. split; [by intros ?%H3%H1|]. intros Hc He [Hf Hf']%fresh_edges_app. auto.
Qed.

(** Only the deletion of a forest edge, or the flag, invalidates the answer. *)
Lemma pre_insert_cached cc cc' G e (t : U) :
  num_vertices cc < 2 ^ 32 → src e < num_vertices cc → dst e < num_vertices cc → src e ≠ dst e →
  cc_cache cc G → pre_insert (mkUpdate e t) cc = (cc', Ok tt) →
  cached_after G [concat_pairing_fn (src e) (dst e)] (dsu_valid cc) (dsu_valid cc').
Proof using .
  intros Hn Hs Hd Hne (_ & _ & _ & _ & Hval) E. unfold pre_insert in E. rewrite M_bind_gets in E.
  cbn [upd_edge] in E. unfold cached_after.
  destruct NO_EAGER_DSU, (dsu_valid cc) eqn:Ev; [by injection E as <-|injection E as <-; by rewrite Ev| |injection E as <-; by rewrite Ev].
  destruct (Hval eq_refl) as [HF _]. set (u := N.min (src e) (dst e)) in *. set (v := N.max (src e) (dst e)) in *.
  assert (concat_pairing_fn (src e) (dst e) = concat_pairing_fn u v) as Eid.
  { unfold u, v. rewrite !concat_pairing_fn_eq by (unfold is_node_id, num_bits; lia).
    f_equal; [f_equal|]; lia. }
  assert (u < v) as Huv by lia. assert (v < num_vertices cc) as Hv by lia. clearbody u v.
  destruct (forest_merge_ok _ _ _ G u v HF Huv Hv) as (d' & r & X & Em & HX & Hr & _ & Hm).
  rewrite M_bind_gets, (M_bind_lift _ X) in E by (by rewrite HX).
  assert (on_dsu (uf_merge u v) cc = (set_dsu d' cc, Ok r)) as Ed.
  { unfold on_dsu, zoom. by rewrite Em. }
  rewrite (M_bind_Ok _ _ _ _ _ Ed) in E. destruct (merged r).
  - unfold insert_forest in E. rewrite M_bind_gets, (M_bind_lift _ X) in E by (simpl; by rewrite HX).
    injection E as <-. done.
  - rewrite M_bind_gets, (M_bind_lift _ X) in E by (simpl; by rewrite HX). case_decide as HvX; injection E as <-; [|done].
    split; [done|]. intros _ _ [_ Hf]. exfalso. apply (Hf (concat_pairing_fn (src e) (dst e))); [left|].
    rewrite Eid. apply (fi_edges _ _ _ _ HF). apply elem_of_forest_pairs. eauto.
Qed.

Lemma on_sketch_frame v f cc cc' : on_sketch v f cc = (cc', Ok tt) → cc' = set_sketches (sketches cc') cc.
Proof using .
  unfold on_sketch. intros E. rewrite M_bind_gets in E.
  apply M_bind_inv in E as (s & c1 & E1 & E). injection E1 as <- _.
  apply M_bind_inv in E as (s2 & c2 & E2 & E). injection E2 as <- _. by injection E as <-.
Qed.

(** ** The relation *)

Record simulates (n k : N) (b : Sketch) (σ : gstate) cc : Prop := {
  sm_inv : cc_inv cc b (g_graph σ);
  sm_n : num_vertices cc = n;
  sm_cached : g_cached σ = dsu_valid cc;
  sm_locked : g_locked σ = update_locked cc;
  sm_excl : g_locked σ = true → g_cached σ = false;
  sm_memory : is_Some (delta_sketches cc);
  sm_workers : num_delta_sketches cc = k
}.

(** What a call must do. *)
Definition simulated_call (n k : N) (b : Sketch) (σ : gstate) c cc' (o : outcome reply) : Prop :=
  match o with
  | Ok r => ∃ σ', spec_step n σ c σ' r ∧ simulates n k b σ' cc' ∧
      g_graph σ' = graph_after c (g_locked σ) (g_graph σ)
  | Abort => NDEBUG = false
  | _ => False
  end.

(** One update, with what becomes of the cached answer. *)
Lemma update_cached_ok cc b G (u : GraphUpdate U) : cc_inv cc b G → valid_updates (num_vertices cc) [u] →
  ∃ cc', update u cc = (cc', Ok tt) ∧ cc_inv cc' b (G △ toggles (stream_ids [u])) ∧
    num_vertices cc' = num_vertices cc ∧ update_locked cc' = update_locked cc ∧
    delta_sketches cc' = delta_sketches cc ∧ num_delta_sketches cc' = num_delta_sketches cc ∧
    cached_after G (stream_ids [u]) (dsu_valid cc) (dsu_valid cc').
Proof using PlatformLaws0.
  intros HI Hv. destruct u as [e t]. apply Forall_cons in Hv as [(Hs & Hd & Hne) _]. cbn [upd_edge] in *.
  destruct (update_ok cc b G e t Hs Hd Hne HI) as (cc' & E & HI' & En).
  pose proof (cb_n _ _ (ci_base _ _ _ HI)) as Hn32.
  destruct (pre_insert_ok cc G e t) as (cc1 & E1 & Hsame & _); [lia|done..|apply HI|].
  pose proof (pre_insert_cached cc cc1 G e t ltac:(lia) Hs Hd Hne ltac:(apply HI) E1) as Hca.
  pose proof E as E'. unfold update in E'. rewrite (M_bind_Ok _ _ _ _ _ E1) in E'.
  apply M_bind_inv in E' as ([] & cc2 & E2%on_sketch_frame & E3%on_sketch_frame).
  destruct Hsame as (F1 & F2 & F3 & F4 & F5 & F6 & F7). exists cc'.
  assert (toggles (stream_ids [mkUpdate e t]) = ({[ concat_pairing_fn (src e) (dst e) ]} : gset N)) as Et.
  { unfold stream_ids. simpl. rewrite toggles_cons. apply (right_id ∅ symdiff). }
  rewrite Et. split_and!; try done; try (rewrite E3, E2; simpl; congruence).
Qed.

Lemma updates_cached (us : list (GraphUpdate U)) : ∀ cc cc' b G, valid_updates (num_vertices cc) us →
  cc_inv cc b G → for_each us update cc = (cc', Ok tt) → dsu_valid cc = true → NO_EAGER_DSU = false →
  fresh_edges G (stream_ids us) → dsu_valid cc' = true.
Proof using PlatformLaws0.
  induction us as [|u us IH]; intros cc cc' b G Hv HI E Hd He Hf; [by injection E as <-|].
  apply Forall_cons in Hv as [Hu Hv].
  destruct (update_cached_ok cc b G u HI) as (cc1 & E1 & HI1 & En & _ & _ & _ & Hca); [by apply Forall_singleton|].
  simpl in E. rewrite (M_bind_Ok _ _ _ _ _ E1) in E. rewrite <-En in Hv.
  change (stream_ids (u :: us)) with (stream_ids [u] ++ stream_ids us) in Hf.
  apply fresh_edges_app in Hf as [Hf1 Hf2]. apply (IH cc1 cc' b _ Hv HI1 E); [by apply Hca|done|done].
Qed.

Lemma call_update_ok n k b σ u T cc : simulates n k b σ cc → valid_updates n [u] →
  ∃ cc' o, run_call T (CallUpdate u) cc = (cc', o) ∧ simulated_call n k b σ (CallUpdate u) cc' o.
Proof using PlatformLaws0.
  intros [HI Hn Hc Hl Hx Hmem Hk] Hv. rewrite <-Hn in Hv. destruct σ as [G c l]. simpl in *. subst c l.
  destruct (update_cached_ok cc b G u HI Hv) as (cc' & E & HI' & En & El & Ed & Ek & Hca).
  exists cc', (Ok RDone). unfold run_call, caught. rewrite E. split; [done|].
  exists (mkG (G △ toggles (stream_ids [u])) (dsu_valid cc') (update_locked cc)).
  split; [by constructor|]. split; [|done]. split; cbn [g_graph g_cached g_locked]; try congruence.
  intros Hl1. apply not_true_is_false. intros Hv1%(proj1 Hca). rewrite Hx in Hv1; done.
Qed.

(** ** Streams *)

Lemma incident_symdiff (A B : gset N) v : incident (A △ B) v = incident A v △ incident B v.
Proof using . apply filter_symdiff. Qed.

Lemma graph_toggles n G (us : list (GraphUpdate U)) : n ≤ 2 ^ 32 → graph n G → valid_updates n us →
  graph n (G △ toggles (stream_ids us)).
Proof using .
  intros Hn HG Hus id [[Hid _]|[_ Hid]]%elem_of_symdiff; [by apply HG|].
  apply elem_of_toggles, list_elem_of_fmap in Hid as (u & -> & Hu).
  pose proof (proj1 (Forall_forall _ _) Hus u Hu) as (Hs & Hd & Hne). by apply concat_edge_id.
Qed.

(** In the middle of a stream. *)
Record delivering (n k : N) (b : Sketch) (G : gset N) (us : list (GraphUpdate U)) (bs : list batch) cc : Prop := {
  de_base : cc_base cc b;
  de_n : num_vertices cc = n;
  de_locked : update_locked cc = false;
  de_memory : is_Some (delta_sketches cc);
  de_workers : num_delta_sketches cc = k;
  de_deltas : cc_deltas cc b;
  de_vectors : cc_vectors cc b (λ w, incident G w △ toggles (delivered w bs));
  de_cache : cc_cache cc (G △ toggles (stream_ids us))
}.

Lemma delivering_insert n k b G us bs e t cc : delivering n k b G us bs cc →
  src e < n → dst e < n → src e ≠ dst e →
  ∃ cc', pre_insert (mkUpdate e t) cc = (cc', Ok tt) ∧ delivering n k b G (us ++ [mkUpdate e t]) bs cc'.
Proof using PlatformLaws0.
  intros [Hb Hn Hl Hmem Hk Hdl Hvec Hca] Hs Hd Hne. pose proof (cb_n _ _ Hb) as Hn32. rewrite <-Hn in Hs, Hd.
  destruct (pre_insert_ok cc _ e t ltac:(lia) Hs Hd Hne Hca) as (cc' & E & Hsame & Hca').
  exists cc'. split; [exact E|]. pose proof Hsame as (F1 & F2 & F3 & F4 & F5 & F6 & F7).
  assert (toggles [concat_pairing_fn (src e) (dst e)] = ({[ concat_pairing_fn (src e) (dst e) ]} : gset N)) as Et.
  { rewrite toggles_cons. apply (right_id ∅ symdiff). }
  split; try congruence; [by apply (cc_base_same cc)|unfold cc_deltas in *; by rewrite F5, F6|by apply (cc_vectors_same cc)|].
  unfold stream_ids. rewrite fmap_app, toggles_app, (assoc symdiff). simpl. by rewrite Et.
Qed.

Lemma delivering_batch n k b G us bs thr v dsts cc : delivering n k b G us bs cc → thr < k → v < n →
  ∃ cc', apply_update_batch thr v dsts cc = (cc', Ok tt) ∧ dsu_valid cc' = dsu_valid cc ∧
    delivering n k b G us (bs ++ [(thr, v, dsts)]) cc'.
Proof using PlatformLaws0.
  intros [Hb Hn Hl Hmem Hk Hdl Hvec Hca] Hthr Hv. rewrite <-Hk in Hthr. rewrite <-Hn in Hv.
  destruct (apply_update_batch_ok cc b _ thr v dsts Hl Hmem Hthr Hv Hvec Hdl) as (cc' & E & Hs & Hdl' & Hvec').
  exists cc'. split; [exact E|]. pose proof Hs as (F1 & F2 & F3 & F4 & F5 & F6 & F7 & F8 & F9 & F10). split; [congruence|].
  split; try congruence; [by apply (cc_base_same_but cc)|auto|done| |].
  - eapply cc_vectors_ext; [|exact Hvec']. intros w _. simpl. unfold delivered.
    rewrite bind_app, toggles_app. simpl. rewrite app_nil_r, (N.eqb_sym v w).
    destruct (N.eqb_spec w v) as [->|]; [by rewrite (assoc symdiff)|].
    change (toggles []) with (∅ : gset N). by rewrite (right_id ∅ symdiff).
  - unfold cc_cache in *. by rewrite F1, F4, F5, F6, F7.
Qed.

Record streaming (n k : N) (b : Sketch) (G : gset N) cc0 (pre : list (event U)) cc : Prop := {
  st_delivering : delivering n k b G (inserted pre) (batches pre) cc;
  st_cached : cached_after G (stream_ids (inserted pre)) (dsu_valid cc0) (dsu_valid cc)
}.

Lemma stream_event_ok n k b G cc0 pre e cc : streaming n k b G cc0 pre cc →
  valid_updates n (inserted [e]) → Forall (λ '(thr, v, dsts), thr < k ∧ v < n) (batches [e]) →
  ∃ cc', run_event e cc = (cc', Ok tt) ∧ streaming n k b G cc0 (pre ++ [e]) cc'.
Proof using PlatformLaws0.
  intros [HD Hcd] Hu Hbs. destruct e as [[e t]|[[thr v] dsts]]; simpl in Hu, Hbs.
  - apply Forall_cons in Hu as [(Hs & Hd & Hne) _]. cbn [upd_edge] in *.
    destruct (delivering_insert n k b G _ _ e t cc HD Hs Hd Hne) as (cc' & E & HD').
    pose proof HD as [Hb Hn _ _ _ _ _ Hca]. pose proof (cb_n _ _ Hb). rewrite <-Hn in Hs, Hd.
    pose proof (pre_insert_cached cc cc' _ e t ltac:(lia) Hs Hd Hne Hca E) as Hcd'.
    exists cc'. split; [exact E|]. split.
    + rewrite inserted_app, batches_app. by rewrite app_nil_r.
    + unfold stream_ids. rewrite inserted_app, fmap_app. by eapply cached_after_app.
  - apply Forall_cons in Hbs as [[Hthr Hv] _].
    destruct (delivering_batch n k b G _ _ thr v dsts cc HD Hthr Hv) as (cc' & E & Ev & HD').
    exists cc'. split; [exact E|]. split; rewrite inserted_app; [rewrite batches_app|rewrite Ev]; by rewrite app_nil_r.
Qed.

Lemma stream_ok n k b G cc0 es pre cc : streaming n k b G cc0 pre cc →
  valid_updates n (inserted es) → Forall (λ '(thr, v, dsts), thr < k ∧ v < n) (batches es) →
  ∃ cc', for_each es run_event cc = (cc', Ok tt) ∧ streaming n k b G cc0 (pre ++ es) cc'.
Proof using PlatformLaws0.
  revert pre cc. induction es as [|e es IH]; intros pre cc Hst Hu Hbs.
  - exists cc. split; [done|]. by rewrite app_nil_r.
  - change (e :: es) with ([e] ++ es) in *. unfold valid_updates in Hu.
    rewrite inserted_app in Hu. rewrite batches_app in Hbs. apply Forall_app in Hu as [Hu1 Hu2], Hbs as [Hb1 Hb2].
    destruct (stream_event_ok n k b G cc0 pre e cc Hst Hu1 Hb1) as (cc1 & E1 & Hst1).
    destruct (IH _ cc1 Hst1 Hu2 Hb2) as (cc2 & E2 & Hst2). exists cc2.
    split; [simpl; by rewrite (M_bind_Ok _ _ _ _ _ E1)|by rewrite (assoc app)].
Qed.

(** Every inserted edge has been delivered to both ends. *)
Definition all_delivered (n : N) (us : list (GraphUpdate U)) (bs : list batch) : Prop :=
  ∀ v, v < n → delivered v bs ≡ₚ filter (λ id, touches v id = true) (stream_ids us).

Lemma delivering_done n k b G us bs cc : delivering n k b G us bs cc → graph n G →
  valid_updates n us → all_delivered n us bs → cc_inv cc b (G △ toggles (stream_ids us)).
Proof using .
  intros [Hb Hn Hl Hm Hk Hd Hv Hc] HG Hu Hall. pose proof (cb_n _ _ Hb) as Hn32. split; try done.
  - rewrite Hn. apply graph_toggles; [lia|done|done].
  - eapply cc_vectors_ext; [|exact Hv]. intros w Hw. cbn beta. rewrite incident_symdiff. f_equal.
    rewrite Hn in Hw. by rewrite (toggles_perm _ _ (Hall w Hw)), toggles_filter.
Qed.

Lemma delivering_of_inv n k b G us bs cc : cc_inv cc b (G △ toggles (stream_ids us)) → all_delivered n us bs →
  num_vertices cc = n → update_locked cc = false → is_Some (delta_sketches cc) → num_delta_sketches cc = k →
  delivering n k b G us bs cc.
Proof using .
  intros [Hb HG Hv Hd Hc] Hall Hn Hl Hm Hk. split; try done.
  eapply cc_vectors_ext; [|exact Hv]. intros w Hw. cbn beta. rewrite incident_symdiff. f_equal.
  rewrite Hn in Hw. by rewrite (toggles_perm _ _ (Hall w Hw)), toggles_filter.
Qed.

Lemma delivering_start n k b G cc : cc_inv cc b G → num_vertices cc = n → update_locked cc = false →
  is_Some (delta_sketches cc) → num_delta_sketches cc = k → delivering n k b G [] [] cc.
Proof using .
  intros HI Hn Hl Hm Hk. apply delivering_of_inv; [|by intros v _|done..].
  change (toggles (stream_ids (@nil (GraphUpdate U)))) with (∅ : gset N). by rewrite (right_id ∅ symdiff).
Qed.

(** A failed query leaves the batches locked. *)
Lemma locked_stream (es : list (event U)) cc : update_locked cc = true → dsu_valid cc = false →
  for_each es run_event cc = (cc, match batches es with [] => Ok tt | _ => Throw UpdateLockedException end).
Proof using .
  intros Hl Hv. induction es as [|[[e t]|[[thr v] dsts]] es IH]; [done|..]; simpl.
  - assert (pre_insert (mkUpdate e t) cc = (cc, Ok tt)) as E.
    { unfold pre_insert. rewrite M_bind_gets, Hv. by destruct NO_EAGER_DSU. }
    by rewrite (M_bind_Ok _ _ _ _ _ E).
  - unfold apply_update_batch, mbind at 1, M_bind at 1. by rewrite M_bind_gets, Hl.
Qed.

Lemma call_stream_ok n k b σ (es : list (event U)) T cc : simulates n k b σ cc → valid_call n k (CallStream es : call U) →
  ∃ cc' o, run_call T (CallStream es) cc = (cc', o) ∧ simulated_call n k b σ (CallStream es) cc' o.
Proof using PlatformLaws0.
  intros [HI Hn Hc Hl Hx Hmem Hk] (Hu & Hbs & Hall). destruct σ as [G c l]. simpl in *. subst c l.
  unfold run_call, caught. destruct (update_locked cc) eqn:El.
  - rewrite (locked_stream es cc El (Hx eq_refl)).
    assert (simulates n k b (mkG G (dsu_valid cc) true) cc) as Hsim by (split; auto).
    destruct (batches es) as [|x bs] eqn:Eb.
    + assert (es = []) as ->.
      { destruct es as [|[[[u v] t]|bt] es]; [done| |done]. exfalso.
        apply Forall_cons in Hu as [(Hs & Hd & Hne) _]. specialize (Hall u Hs). cbn [upd_edge src dst] in *.
        pose proof (cb_n _ _ (ci_base _ _ _ HI)) as Hn32.
        destruct (concat_ends u v) as [E1 E2]; [unfold is_node_id, num_bits; lia..|].
        assert (concat_pairing_fn u v ∈ ([] : list N)) as Hin; [|by apply elem_of_nil in Hin].
        change (delivered u []) with (@nil N) in Hall. rewrite Hall. apply list_elem_of_filter. split; [|left].
        unfold touches. rewrite E1, E2. apply orb_true_iff. rewrite !N.eqb_eq.
        destruct (N.le_ge_cases u v); [left; by apply N.min_l|right; by apply N.max_l]. }
      exists cc, (Ok RDone). split; [done|]. eexists. split; [apply SpecEmpty|]. done.
    + exists cc, (Ok (RThrown UpdateLockedException)). split; [done|]. eexists.
      split; [apply SpecLocked; by rewrite Eb|done].
  - assert (streaming n k b G cc [] cc) as Hst by (split; [by apply delivering_start|done]).
    destruct (stream_ok n k b G cc es [] cc Hst Hu Hbs) as (cc' & E & Hst').
    rewrite E. exists cc', (Ok RDone). split; [done|].
    exists (mkG (G △ toggles (stream_ids (inserted es))) (dsu_valid cc') false).
    pose proof Hst' as [HD _]. split; [by apply SpecStream, Hst'|]. split; [|done]. split; try done; try apply HD.
    + apply (delivering_done n k b G _ (batches es)); [done| |done|done]. rewrite <-Hn. apply HI.
    + symmetry. apply HD.
Qed.

(** ** Queries *)

(** One argument for the three queries. *)
Lemma call_query_ok {A} n k b σ c cc (m : M (CCSketchAlg D) A) (f : A → reply) good cc' o :
  simulates n k b σ cc → is_query c = true →
  (∀ ans, good ans → query_answer n (g_graph σ) c (f ans)) →
  m cc = (cc', o) → query_outcome good b (g_graph σ) cc cc' o →
  ∃ o', caught f m cc = (cc', o') ∧ simulated_call n k b σ c cc' o'.
Proof using .
  intros [HI Hn Hc Hl Hx Hmem Hk] Hq Hgood E Ho. unfold caught. rewrite E.
  destruct σ as [G ca l]. simpl in *. subst ca l.
  assert (∀ l, graph_after c l G = G) as Hga by (by destruct c).
  destruct o as [ans|e| |]; simpl in Ho.
  - destruct Ho as (Ha & HI' & (F1 & F2 & F3 & F4 & F5) & Hv & Hlk).
    assert (update_locked cc' = false) as El.
    { rewrite Hlk. destruct (dsu_valid cc) eqn:Ev; [|done]. destruct (update_locked cc); [|done]. by rewrite Hx. }
    eexists. split; [done|]. exists (mkG G true false). split; [apply SpecAnswer; auto|].
    split; [|by rewrite Hga]. split; simpl; try congruence.
  - destruct Ho as (Hnd & Hoos & HI' & (F1 & F2 & F3 & F4 & F5) & Hv & Hv' & Hlk).
    eexists. split; [done|]. exists (mkG G false true). split; [rewrite Hv; by apply SpecFail|].
    split; [|by rewrite Hga]. split; simpl; try congruence.
  - eexists. split; [done|]. exact Ho.
  - done.
Qed.

Lemma delivering_same n k b G us bs cc d : delivering n k b G us bs cc → uf_same (dsu cc) d →
  delivering n k b G us bs (set_dsu d cc).
Proof using .
  intros [Hb Hn Hl Hm Hk Hd Hv Hc] Hs. split; try done; [by apply (cc_base_members cc)|by apply cc_cache_same].
Qed.

(** What a query does while updates may still be under way. *)
Definition queried (n k : N) (b : Sketch) (G : gset N) us bs (c : call U) cc cc' (o : outcome reply) : Prop :=
  match o with
  | Ok (RThrown e) => NDEBUG = true ∧ out_of_samples e ∧ dsu_valid cc = false
  | Ok r => delivering n k b G us bs cc' ∧ dsu_valid cc' = true ∧ query_answer n (G △ toggles (stream_ids us)) c r
  | Abort => NDEBUG = false
  | _ => False
  end.

Lemma delivering_query_outcome {A} n k b G us bs c cc (m : M (CCSketchAlg D) A) (f : A → reply) good cc' o :
  delivering n k b G us bs cc → all_delivered n us bs → dsu_valid cc = false → (∀ ans e, f ans ≠ RThrown e) →
  (∀ ans, good ans → query_answer n (G △ toggles (stream_ids us)) c (f ans)) →
  m cc = (cc', o) → query_outcome good b (G △ toggles (stream_ids us)) cc cc' o →
  ∃ o', caught f m cc = (cc', o') ∧ queried n k b G us bs c cc cc' o'.
Proof using .
  intros [_ Hn _ Hm Hk _ _ _] Hall Hd Hf Hgood E Ho. unfold caught. rewrite E. destruct o as [ans|e| |]; simpl in Ho.
  - destruct Ho as (Ha & HI & (F1 & F2 & F3 & F4 & F5) & Hv & Hlk). rewrite Hd in Hlk. eexists. split; [done|]. unfold queried.
    assert (delivering n k b G us bs cc') as HD by (apply delivering_of_inv; [done|done|congruence|done|congruence|congruence]).
    specialize (Hgood ans Ha). specialize (Hf ans). by destruct (f ans); [..|edestruct Hf].
  - destruct Ho as (Hnd & Hoos & _). by eexists.
  - by eexists.
  - done.
Qed.

Lemma delivering_cached {A} n k b G us bs c cc (m : M (CCSketchAlg D) A) (f : A → reply) d ans :
  delivering n k b G us bs cc → dsu_valid cc = true → (∀ ans e, f ans ≠ RThrown e) →
  m cc = (set_dsu d cc, Ok ans) → uf_same (dsu cc) d → query_answer n (G △ toggles (stream_ids us)) c (f ans) →
  ∃ cc' o', caught f m cc = (cc', o') ∧ queried n k b G us bs c cc cc' o'.
Proof using .
  intros HD Hv Hf E Hs Ha. unfold caught. rewrite E. eexists _, _. split; [done|]. unfold queried.
  pose proof (delivering_same n k b G us bs cc d HD Hs) as HD'. specialize (Hf ans). by destruct (f ans); [..|edestruct Hf].
Qed.

Lemma delivering_query n k b G us bs T c cc (PT : Partitioned n T) : delivering n k b G us bs cc → graph n G →
  valid_updates n us → is_query c = true → valid_call n k c → (dsu_valid cc = true ∨ all_delivered n us bs) →
  (∀ s, schedule_of c = Some s → dsu_valid cc = false → query_reliable T s b (G △ toggles (stream_ids us)) cc) →
  ∃ cc' o, run_call T c cc = (cc', o) ∧ queried n k b G us bs c cc cc' o.
Proof using PlatformLaws0.
  intros HD HG Hu Hq Hv Hready Hrel. pose proof HD as [Hb Hn _ _ _ _ _ Hca]. pose proof (cb_n _ _ Hb) as [_ Hn32].
  destruct (dsu_valid cc) eqn:Ev.
  - destruct c as [u|es|s order|s order|s x y]; try done; cbn [valid_call run_call] in *.
    + destruct Hv as [_ Ho]. rewrite <-Hn in Ho.
      destruct (connected_components_cached T s order _ cc Hn32 Hca Ev Ho) as (d & ans & E & Hs & Ha). rewrite Hn in Ha.
      by apply (delivering_cached _ _ _ _ _ _ _ _ _ _ d ans).
    + destruct Hv as [_ Ho]. rewrite <-Hn in Ho.
      destruct (calc_spanning_forest_cached T s order _ cc Hn32 Hca Ev Ho) as (d & ans & E & Hs & Ha).
      by apply (delivering_cached _ _ _ _ _ _ _ _ _ _ d ans).
    + destruct Hv as (_ & Hx & Hy). rewrite <-Hn in Hx, Hy.
      destruct (point_query_cached T s x y _ cc Hca Ev Hx Hy) as (d & ans & E & Hs & Ha).
      by apply (delivering_cached _ _ _ _ _ _ _ _ _ _ d ans).
  - destruct Hready as [|Hall]; [done|].
    pose proof (delivering_done n k b G us bs cc HD HG Hu Hall) as HI. rewrite <-Hn in PT.
    destruct c as [u|es|s order|s order|s x y]; try done; cbn [valid_call run_call schedule_of] in *;
      specialize (Hrel s eq_refl).
    + destruct Hv as [Hz Ho]. rewrite <-Hn in Hz, Ho.
      destruct (connected_components_ok T s order b _ cc HI) as (cc' & o & E & Hout); [split; auto|done|].
      rewrite Hn in Hout. exists cc'. by eapply delivering_query_outcome.
    + destruct Hv as [Hz Ho]. rewrite <-Hn in Hz, Ho.
      destruct (calc_spanning_forest_ok T s order b _ cc HI) as (cc' & o & E & Hout); [split; auto|done|].
      exists cc'. by eapply delivering_query_outcome.
    + destruct Hv as (Hz & Hx & Hy). rewrite <-Hn in Hz, Hx, Hy.
      destruct (point_query_ok T s x y b _ cc HI) as (cc' & o & E & Hout); [split; auto|done|done|].
      exists cc'. eapply (delivering_query_outcome _ _ _ _ _ _ _ _ _ _ (λ ans, ans = true ↔ graph_connected _ x y)); try done.
Qed.

Lemma call_ok n k b σ c T cc (PT : Partitioned n T) : simulates n k b σ cc → valid_call n k c →
  (∀ s, schedule_of c = Some s → dsu_valid cc = false → query_reliable T s b (g_graph σ) cc) →
  ∃ cc' o, run_call T c cc = (cc', o) ∧ simulated_call n k b σ c cc' o.
Proof using PlatformLaws0.
  intros Hsim Hv Hrel. pose proof Hsim as [HI Hn _ _ _ _ _].
  destruct c as [u|es|s order|s order|s x y]; simpl in Hv.
  - by apply call_update_ok.
  - by apply call_stream_ok.
  - destruct Hv as [Hz Ho]. rewrite <-Hn in *.
    destruct (connected_components_ok T s order b (g_graph σ) cc HI) as (cc' & o & E & Hq);
      [split; auto|done|]. rewrite Hn in *.
    destruct (call_query_ok n k b σ (CallConnected s order) cc _ RComponents _ cc' o Hsim eq_refl
      ltac:(done) E Hq) as (o' & E' & Hs'). by exists cc', o'.
  - destruct Hv as [Hz Ho]. rewrite <-Hn in *.
    destruct (calc_spanning_forest_ok T s order b (g_graph σ) cc HI) as (cc' & o & E & Hq);
      [split; auto|done|]. rewrite Hn in *.
    destruct (call_query_ok n k b σ (CallForest s order) cc _ RForest _ cc' o Hsim eq_refl
      ltac:(done) E Hq) as (o' & E' & Hs'). by exists cc', o'.
  - destruct Hv as (Hz & Hxn & Hyn). rewrite <-Hn in *.
    destruct (point_query_ok T s x y b (g_graph σ) cc HI) as (cc' & o & E & Hq);
      [split; auto|done|done|]. rewrite Hn in *.
    destruct (call_query_ok n k b σ (CallPoint s x y) cc _ RConnected
      (λ ans, ans = true ↔ graph_connected (g_graph σ) x y) cc' o Hsim eq_refl
      ltac:(done) E Hq) as (o' & E' & Hs'). by exists cc', o'.
Qed.

Lemma session_ok n k b T (PT : Partitioned n T) cs : ∀ σ cc, simulates n k b σ cc →
  Forall (valid_call n k) cs → session_reliable T b cs (g_graph σ) cc →
  ∃ cc' o, run_session T cs cc = (cc', o) ∧
    match o with
    | Ok replies => ∃ σ', spec_run n σ cs replies σ' ∧ simulates n k b σ' cc'
    | Abort => NDEBUG = false
    | _ => False
    end.
Proof using PlatformLaws0.
  induction cs as [|c cs IH]; intros σ cc Hsim Hv Hrel.
  - exists cc, (Ok []). split; [done|]. exists σ. by split; [constructor|].
  - apply Forall_cons in Hv as [Hv Hvs]. destruct Hrel as [Hr Hrel].
    destruct (call_ok n k b σ c T cc PT Hsim Hv Hr) as (cc1 & o & E & Ho).
    rewrite E, <-(sm_locked _ _ _ _ _ Hsim) in Hrel. cbn [run_session]. destruct o as [r|e| |]; simpl in Ho.
    + destruct Ho as (σ1 & Hs & Hsim1 & Hg). cbn [fst] in Hrel. rewrite <-Hg in Hrel.
      destruct (IH σ1 cc1 Hsim1 Hvs Hrel) as (cc2 & o & E2 & Ho). rewrite (M_bind_Ok _ _ _ _ _ E).
      destruct o as [rs|e| |]; simpl in Ho.
      * rewrite (M_bind_Ok _ _ _ _ _ E2). exists cc2, (Ok (r :: rs)). split; [done|].
        destruct Ho as (σ2 & Hrun & Hsim2). exists σ2. split; [by eapply SpecCons|done].
      * done.
      * exists cc2, Abort. split; [unfold mbind, M_bind; by rewrite E2|done].
      * done.
    + done.
    + exists cc1, Abort. split; [unfold mbind, M_bind; by rewrite E|done].
    + done.
Qed.
(** A fresh object holds the empty graph, with its answer cached. *)
Lemma fresh_simulates n seed conf prio_gen b k : good_params n seed conf b →
  ∃ cc0 cc1 : CCSketchAlg D, CCSketchAlg_new n seed conf prio_gen = Ok cc0 ∧
    allocate_worker_memory k cc0 = (cc1, Ok tt) ∧ simulates n k b (mkG ∅ true false) cc1.
Proof using PlatformLaws0.
  intros Hp. destruct (CCSketchAlg_new_ok n seed conf prio_gen b Hp) as (cc0 & E0 & HI & En & Hv & Hl & Hsk).
  destruct (allocate_ok cc0 b k (ci_base _ _ _ HI)) as (cc1 & E1 & (Hm & Hdl & Hk) & Hs & Hsk1).
  exists cc0, cc1. split; [done|]. split; [done|].
  destruct Hs as (F1 & F2 & F3 & F4 & F5 & F6 & F7 & F8 & F9 & _). simpl in *.
  destruct HI as [Hb HG Hvec _ Hca]. split; simpl; try congruence. split; try done.
  - by apply (cc_base_members cc0).
  - by apply (cc_vectors_same cc0).
  - unfold cc_cache in *. by rewrite F1, F4, F5, F6, F7.
Qed.
End Simulation.
