(* ===== verification/Correctness.v ===== *)
(** The theorems about queries, rounds and whole sessions, with the concrete
    object and schedules that exercise them.

    The proofs apply the components' lemmas: [session_ok] of file Session, the
    query lemmas of file Queries, [loop_ok] of file BoruvkaCorrect, [round_ok]
    of file RoundCorrect and [create_merge_instructions_ok] of file
    Instructions. *)
From S2P Require Import Prelude Float64 Platform Util XorSet Bucket Sketch Dsu DsuMT Graph Forest Config CCAlg Partition MergeInstr Round Region Programs RoundCorrect Instructions Boruvka BoruvkaCorrect Queries Session.

Open Scope N_scope.

(** ** Small graphs meet the reliability hypotheses *)

Section Reliable.
Context `{P : Platform} `{!PlatformLaws P} {D : Type} `{UnionFindLaws D} {U : Type}.
Implicit Type cc : CCSketchAlg D.

Lemma round_reliable_collision_free b r d n G :
  collision_free (sk_seed b) G → round_reliable b r d n G.
Proof using .
  intros Hc rho _. apply (sample_reliable_collision_free _ _ _ G Hc).
  intros id Hid. by apply elem_of_filter in Hid as [_ ?].
Qed.

Lemma run_reliable_collision_free T s b G fuel : collision_free (sk_seed b) G →
  ∀ round mi globals cc, run_reliable fuel T s b G round mi globals cc.
Proof using .
  intros Hc. induction fuel as [|fuel IH]; intros round mi globals cc; simpl; [done|].
  split; [intros _; by apply round_reliable_collision_free|].
  destruct (perform_boruvka_round _ _ _ _ _ _ _) as [cc1 [[[] gl]|e| |]]; try done.
  destruct (on_dsu _ _) as [cc2 [mi2|e| |]]; done.
Qed.

Lemma query_reliable_collision_free T s b G cc : collision_free (sk_seed b) G → query_reliable T s b G cc.
Proof using .
  intros Hc. unfold query_reliable. destruct (boruvka_start T cc) as [cc1 [[mi gs]|e| |]]; try done.
  by apply run_reliable_collision_free.
Qed.

(** The object a second round starts from. *)
Definition first_round_modifies T s cc : bool :=
  match boruvka_start T cc with
  | (cc1, Ok (mi, gs)) =>
      match perform_boruvka_round 0 T (zero_order s) (region_schedule s 0) mi gs cc1 with
      | (_, Ok (m, _)) => m
      | _ => false
      end
  | _ => false
  end.

Lemma second_round_ready b G T s cc (PT : Partitioned (num_vertices cc) T) : cc_inv cc b G →
  zero_order s ≡ₚ seqN 0 (num_vertices cc) → collision_free (sk_seed b) G →
  first_round_modifies T s cc = true →
  ∃ cc' mi gs, num_vertices cc' = num_vertices cc ∧ loop_ready b G T 1 cc' mi gs.
Proof using PlatformLaws0.
  intros HI Hord Hc. unfold first_round_modifies.
  destruct (boruvka_start_ok cc b G T HI) as (cc1 & mi & gs & -> & Hfr & Hr1).
  assert (num_vertices cc1 = num_vertices cc) as En1 by apply Hfr.
  assert (Partitioned (num_vertices cc1) T) as PT1 by (by rewrite En1).
  pose proof (cb_samples _ _ (ci_base _ _ _ HI)) as Hns.
  destruct (any_round_ok b G T 0 s cc1 mi gs PT1 Hr1) as (cc2 & m & gs2 & -> & Hp2 & Hg2);
    [lia|by rewrite En1|by apply round_reliable_collision_free|]. intros ->.
  destruct (regroup_ok b G T 0 cc1 cc2 mi gs2 (capture_order s 0) PT1) as (cc3 & mi3 & _ & Hfr3 & Hr3);
    [by destruct Hr1|exact Hp2|exact Hg2|].
  exists cc3, mi3, gs2. split; [|exact Hr3]. rewrite <-En1. apply Hfr3.
Qed.

(** The edges a call brings. *)
Definition call_edges (c : call U) : list N :=
  match c with
  | CallUpdate u => stream_ids [u]
  | CallStream es => stream_ids (inserted es)
  | _ => []
  end.

Lemma session_reliable_collision_free T b X cs : collision_free (sk_seed b) X →
  Forall (λ c, ∀ id, id ∈ call_edges c → id ∈ X) cs →
  ∀ G cc, G ⊆ X → session_reliable T b cs G cc.
Proof using .
  intros Hc Hcs. induction Hcs as [|c cs Hin Hcs IH]; intros G cc HG; simpl; [done|]. split.
  - intros s _ _. apply query_reliable_collision_free. by apply (collision_free_subseteq _ X).
  - apply IH. assert (∀ ids, (∀ id, id ∈ ids → id ∈ X) → G △ toggles ids ⊆ X) as Ht.
    { intros ids Hids id [[Hid _]|[_ Hid]]%elem_of_symdiff; [by apply HG|]. by apply Hids, elem_of_toggles. }
    unfold call_edges in Hin. destruct c as [u|es|s order|s order|s x y]; cbn [graph_after]; [by apply Ht| |done..].
    destruct (update_locked cc); [done|by apply Ht].
Qed.
End Reliable.

(** * Theorems *)

Section Theorems.
Context `{P : Platform} `{!PlatformLaws P} {D : Type} `{UnionFindLaws D} {U : Type}.
Implicit Type cc : CCSketchAlg D.

(** C1. Sessions refine the graph. On a fresh object, any sequence of valid
    calls (updates, streams of eager insertions interleaved with the workers'
    batches, and queries, under any schedule of their parallel loops) never
    reaches undefined behaviour or an uncaught exception, and its replies are
    those of the abstract graph: queries answer with the connected components,
    a spanning forest and connectivity of the edges toggled an odd number of
    times; a query can only fail when nothing is cached, by using up its
    samples ([OutOfSamplesException]), and then the batches are refused until a query succeeds. In a
    debug build the process may instead stop at an assertion. *)
Theorem session_refines n seed conf prio_gen b k T (cs : list (call U)) (PT : Partitioned n T)
    (Hp : good_params n seed conf b) (Hcs : Forall (valid_call n k) cs) :
  ∃ cc0 cc1 : CCSketchAlg D,
    CCSketchAlg_new n seed conf prio_gen = Ok cc0 ∧ allocate_worker_memory k cc0 = (cc1, Ok tt) ∧
    (session_reliable T b cs ∅ cc1 →
     ∃ cc o, run_session T cs cc1 = (cc, o) ∧
       match o with
       | Ok replies => ∃ σ, spec_run n (mkG ∅ true false) cs replies σ ∧ simulates n k b σ cc
       | Abort => NDEBUG = false
       | _ => False
       end).
Proof using PlatformLaws0.
  destruct (fresh_simulates n seed conf prio_gen b k Hp) as (cc0 & cc1 & E0 & E1 & Hsim).
  exists cc0, cc1. split; [done|]. split; [done|]. intros Hrel. by apply (session_ok n k b T PT cs (mkG ∅ true false)).
Qed.

(** C14. [connected_components] answers with the connected components: on any
    consistent object, whatever the schedules, it returns the partition of the
    vertices into the components of the current graph (pairwise queries, the
    number of components and their sets), and leaves the object consistent with
    the answer cached; or it throws, with the batches locked. *)
Theorem connected_components_correct T s order b G cc (HI : cc_inv cc b G)
    (Hq : query_ready T s b G cc) (Hord : order ≡ₚ seqN 0 (num_vertices cc)) :
  ∃ cc' o, connected_components T s order cc = (cc', o) ∧
    query_outcome (answers_components (num_vertices cc) G) b G cc cc' o.
Proof using PlatformLaws0. by apply connected_components_ok. Qed.

(** C15. [calc_spanning_forest] answers with a spanning forest: edges of the
    current graph, without cycles, that connect what the graph connects. *)
Theorem spanning_forest_correct T s order b G cc (HI : cc_inv cc b G)
    (Hq : query_ready T s b G cc) (Hord : order ≡ₚ seqN 0 (num_vertices cc)) :
  ∃ cc' o, calc_spanning_forest T s order cc = (cc', o) ∧
    query_outcome (answers_forest G) b G cc cc' o.
Proof using PlatformLaws0. by apply calc_spanning_forest_ok. Qed.

(** C16. [point_query] answers whether two vertices are connected. *)
Theorem point_query_correct T s x y b G cc (HI : cc_inv cc b G)
    (Hq : query_ready T s b G cc) (Hx : x < num_vertices cc) (Hy : y < num_vertices cc) :
  ∃ cc' o, point_query T s x y cc = (cc', o) ∧
    query_outcome (λ ans, ans = true ↔ graph_connected G x y) b G cc cc' o.
Proof using PlatformLaws0. by apply point_query_ok. Qed.

(** C18. Rounds end. Whatever fuel above [boruvka_fuel] the loop is given, it
    takes the same number of rounds to the same result: the fuel is never what
    stops it. When it succeeds the number of rounds recorded is below the
    number of samples. *)
Theorem query_terminates T s b G cc extra (PT : Partitioned (num_vertices cc) T)
    (HI : cc_inv cc b G) (Hord : zero_order s ≡ₚ seqN 0 (num_vertices cc))
    (Hrel : query_reliable T s b G cc) :
  ∃ cc1 mi globals cc2 o, boruvka_start T cc = (cc1, Ok (mi, globals)) ∧
    boruvka_loop (boruvka_fuel cc) T s 0 mi globals cc1 = (cc2, o) ∧
    boruvka_loop (boruvka_fuel cc + extra) T s 0 mi globals cc1 = (cc2, o) ∧
    match o with Ok r => r < num_samples b | Undef => False | _ => True end.
Proof using PlatformLaws0.
  destruct (boruvka_start_ok cc b G T HI) as (cc1 & mi & gs & E1 & Hfr1 & Hready).
  unfold query_reliable in Hrel. rewrite E1 in Hrel.
  destruct HI as [Hb _ Hvec _ _]. pose proof (boruvka_fuel_eq cc b _ Hb Hvec) as Ef. rewrite Ef in *.
  pose proof Hfr1 as (En1 & _). assert (Partitioned (num_vertices cc1) T) as PT1 by (by rewrite En1).
  destruct (loop_ok b G T s (S (N.to_nat (num_samples b))) 0 cc1 mi gs PT1 Hready)
    as (cc2 & o & E2 & _ & Hres); [by rewrite En1|lia|lia|done|].
  exists cc1, mi, gs, cc2, o. split; [done|]. split; [done|].
  assert (o ≠ Undef) as Ho by (by intros ->). split; [|by destruct o; destruct_and?].
  by apply (boruvka_loop_more (S (N.to_nat (num_samples b))) extra).
Qed.

(** C24. A failed query locks the batches. A query only throws
    [OutOfSamplesException]; when it does, the object still
    describes the graph and nothing is cached, but from then on every batch is
    refused with [UpdateLockedException] and left unapplied, until some query
    succeeds. *)
Theorem failed_query_locks T s order b G cc cc' e (HI : cc_inv cc b G) (Hq : query_ready T s b G cc)
    (Hord : order ≡ₚ seqN 0 (num_vertices cc))
    (E : connected_components T s order cc = (cc', Throw e)) :
  out_of_samples e ∧ cc_inv cc' b G ∧ dsu_valid cc' = false ∧
  (∀ thr v dsts, apply_update_batch thr v dsts cc' = (cc', Throw UpdateLockedException)) ∧
  (∀ T' s' order' cc'' ans, query_ready T' s' b G cc' → order' ≡ₚ seqN 0 (num_vertices cc) →
     connected_components T' s' order' cc' = (cc'', Ok ans) →
     update_locked cc'' = false ∧ answers_components (num_vertices cc) G ans).
Proof using PlatformLaws0.
  destruct (connected_components_ok T s order b G cc HI Hq Hord) as (c & o & E' & Ho).
  rewrite E in E'. injection E' as <- <-. destruct Ho as (_ & Hoos & HI' & (En & _) & _ & Hd & Hl).
  split; [done|]. split; [done|]. split; [done|]. split.
  - intros thr v dsts. unfold apply_update_batch. by rewrite M_bind_gets, Hl.
  - intros T' s' order' cc'' ans Hq' Hord' E'. rewrite <-En in *.
    destruct (connected_components_ok T' s' order' b G cc' HI' Hq' Hord') as (c & o & E2 & Ho).
    rewrite E' in E2. injection E2 as <- <-. destruct Ho as (Ha & _ & _ & _ & Hu). by rewrite Hd in Hu.
Qed.

(** Insertions never need the sketches. After a stream of distinct edges on
    a fresh object of an eager build, every query is answered from the disjoint
    set union kept while inserting: it returns at once, for any number of
    threads and any schedule, with the right answer, whatever the hash function
    does. *)
Theorem insertions_answer_from_cache n seed conf prio_gen b (us : list (GraphUpdate U)) T s order x y
    (Hp : good_params n seed conf b) (Heager : NO_EAGER_DSU = false) (Hus : valid_updates n us)
    (Hnew : NoDup (stream_ids us)) (Hord : order ≡ₚ seqN 0 n) (Hx : x < n) (Hy : y < n) :
  ∃ cc0 cc cc1 cc2 : CCSketchAlg D, ∃ ans r,
    CCSketchAlg_new n seed conf prio_gen = Ok cc0 ∧ for_each us update cc0 = (cc, Ok tt) ∧
    connected_components T s order cc = (cc1, Ok ans) ∧ sketches cc1 = sketches cc ∧
    answers_components n (list_to_set (stream_ids us)) ans ∧
    point_query T s x y cc = (cc2, Ok r) ∧ sketches cc2 = sketches cc ∧
    (r = true ↔ graph_connected (list_to_set (stream_ids us)) x y).
Proof using PlatformLaws0 H0.
  destruct (CCSketchAlg_new_ok n seed conf prio_gen b Hp) as (cc0 & E0 & HI0 & En0 & Hv0 & _).
  rewrite <-En0 in Hus. destruct (updates_ok us cc0 b ∅ Hus HI0) as (cc & E & HI & En).
  assert (dsu_valid cc = true) as Hv.
  { apply (updates_cached us cc0 cc b ∅ Hus HI0 E); [done..|]. split; [done|set_solver]. }
  rewrite (left_id ∅ symdiff), toggles_NoDup in HI by done. set (G := list_to_set (stream_ids us)) in *.
  rewrite En0 in En. rewrite <-En in Hx, Hy, Hord.
  pose proof (cb_n _ _ (ci_base _ _ _ HI)) as [_ Hn32]. pose proof (ci_cache _ _ _ HI) as HC.
  destruct (connected_components_cached T s order G cc Hn32 HC Hv Hord) as (d1 & ans & E1 & _ & Ha).
  destruct (point_query_cached T s x y G cc HC Hv Hx Hy) as (d2 & r & E2 & _ & Hr).
  exists cc0, cc, (set_dsu d1 cc), (set_dsu d2 cc), ans, r. rewrite En in Ha. by split_and!.
Qed.

(** C22. Regrouping. Whatever the order of the threads' atomic captures, the
    merge instructions written in parallel list every vertex exactly once with
    its current root, sorted by root, and no root changes. *)
Theorem instructions_group_by_root n T order mi (d : D) (PT : Partitioned n T) (Hok : uf_ok d)
    (Hsz : uf_size d = n) (Hperm : instr_child <$> mi ≡ₚ seqN 0 n) :
  ∃ d' mi', create_merge_instructions n T order mi d = (d', Ok mi') ∧ uf_same d d' ∧
    instr_child <$> mi' ≡ₚ seqN 0 n ∧
    (∀ i, i ∈ mi' → instr_root i = uf_root d (instr_child i)) ∧
    ∀ i j x y, i < j → mi' !! i = Some x → mi' !! j = Some y → instr_root x ≤ instr_root y.
Proof using .
  assert (length mi = N.to_nat n) as HL.
  { by rewrite <-(length_fmap instr_child), (Permutation_length Hperm), length_seqN. }
  destruct (create_merge_instructions_ok n T order mi d Hok Hsz HL Hperm) as (d' & mi' & E & Hs & [Hp Hr _ Hso]).
  exists d', mi'. split; [done|]. split; [done|]. split; [done|]. split; [done|]. intros i j x y Hij Hx Hy. apply (sorted_lookup mi' (N.to_nat i) (N.to_nat j)); [done..|lia].
Qed.

(** C21. A later round is correct under every schedule. Whatever the order of
    the threads' operations, the round neither fails nor gets stuck on an
    index; the edges it adds keep the forest a forest of the graph, every
    vertex sketch still holds its incident edges, and a round that reports no
    change leaves a spanning forest. *)
Theorem round_any_schedule b G T r order sched cc mi globals (PT : Partitioned (num_vertices cc) T)
    (Hready : loop_ready b G T r cc mi globals) (Hr0 : r ≠ 0) (Hr : r < num_samples b)
    (Hrel : round_reliable b r (dsu cc) (num_vertices cc) G) :
  ∃ cc' m globals', perform_boruvka_round r T order sched mi globals cc = (cc', Ok (m, globals')) ∧
    round_post cc cc' b G m ∧ globals_ok b T globals'.
Proof using PlatformLaws0.
  destruct Hready as [Hb HG Hsk HF Hmi Hgl _]. by apply (round_ok cc b G r T order sched mi globals PT).
Qed.
End Theorems.

(** * Concrete objects *)

Definition fresh_object (P : Platform) (n : N) : CCSketchAlg DSU_MT :=
  match @CCSketchAlg_new P DSU_MT (@DSU_MT_uf P) n 7 CCAlgConfiguration_default (λ i, i * 5 mod 7) with
  | Ok cc => cc
  | _ => mkCC n 7 false ∅ [] (uf_new (UnionFind := @DSU_MT_uf P) 0 id) false false [] None 0
           CCAlgConfiguration_default 0
  end.

Definition streamed (P : Platform) (n : N) (us : list (GraphUpdate unit)) : CCSketchAlg DSU_MT :=
  (for_each us (@update P _ (@DSU_MT_uf P) unit) (fresh_object P n)).1.

Lemma streamed_inv (P : Platform) `{!PlatformLaws P} n b us :
  @good_params P n 7 CCAlgConfiguration_default b → valid_updates n us →
  @cc_inv P DSU_MT (@DSU_MT_uf P) _ (streamed P n us) b (toggles (stream_ids us)) ∧
  num_vertices (streamed P n us) = n.
Proof.
  intros Hp Hus. unfold streamed, fresh_object.
  destruct (CCSketchAlg_new_ok n 7 CCAlgConfiguration_default (λ i, i * 5 mod 7) b Hp) as (cc0 & -> & HI & En & _).
  rewrite <-En in Hus. destruct (updates_ok us cc0 b ∅ Hus HI) as (cc & -> & HI' & En').
  rewrite (left_id ∅ symdiff) in HI'. split; [exact HI'|]. by rewrite <-En.
Qed.

Section Demo.
#[local] Existing Instance demo_platform.

(** The third edge closes a cycle; the last call deletes a forest edge. *)
Definition demo_updates : list (GraphUpdate unit) :=
  (λ '(u, v), mkUpdate (mkEdge u v) tt) <$> [(0, 1); (2, 1); (0, 2); (3, 4); (0, 1)].
Definition demo_cc : CCSketchAlg DSU_MT := streamed demo_platform 6 demo_updates.
Definition demo_graph : gset N := toggles (stream_ids demo_updates).
Definition demo_order : list N := [3; 1; 0; 5; 4; 2].
Definition demo_schedules : Schedules :=
  mkSchedules demo_order (λ _, [1; 0; 1; 1; 0]%nat) (λ _, [1; 0]%nat).
Definition demo_ids : list N := (λ '(u, v), concat_pairing_fn u v) <$> [(0, 1); (2, 1); (0, 2); (3, 4)].

Lemma demo_order_perm : demo_order ≡ₚ seqN 0 6.
Proof. vm_compute. apply NoDup_Permutation; [by apply (bool_decide_unpack _); vm_compute|by apply (bool_decide_unpack _); vm_compute|].
  intros x. rewrite !elem_of_cons. naive_solver. Qed.

Lemma demo_inv : cc_inv demo_cc demo_base demo_graph ∧
  num_vertices demo_cc = 6.
Proof.
  apply (streamed_inv demo_platform); [exact demo_params|].
  repeat constructor; vm_compute; discriminate.
Qed.

Lemma demo_collision_free : collision_free (sk_seed demo_base) (list_to_set demo_ids).
Proof. apply collision_free_decide. vm_compute. reflexivity. Qed.

Lemma demo_stream_ids : Forall (λ id, id ∈ (list_to_set demo_ids : gset N)) (stream_ids demo_updates).
Proof. apply (bool_decide_unpack _). vm_compute. exact I. Qed.

Lemma demo_graph_collision_free : collision_free (sk_seed demo_base) demo_graph.
Proof.
  apply (collision_free_subseteq _ (list_to_set demo_ids)); [|exact demo_collision_free].
  intros id Hid%elem_of_toggles. exact (proj1 (Forall_forall _ _) demo_stream_ids id Hid).
Qed.

Lemma demo_ready s : zero_order s = demo_order →
  query_ready 2 s demo_base demo_graph demo_cc.
Proof.
  intros Hs. destruct demo_inv as [_ En]. split.
  - rewrite En. apply exact_partitioned. exact (exact_partition_pow2 6 1 ltac:(lia) ltac:(lia) ltac:(lia)).
  - rewrite Hs, En. exact demo_order_perm.
  - intros _. apply query_reliable_collision_free, demo_graph_collision_free.
Defined.

Lemma connected_components_correct_witness : ∃ cc' ans,
  connected_components 2 demo_schedules demo_order demo_cc = (cc', Ok ans) ∧
  answers_components 6 demo_graph ans ∧ is_connected ans 1 0 = Ok true ∧ is_connected ans 3 0 = Ok false.
Proof.
  destruct demo_inv as [HI En].
  assert ((connected_components 2 demo_schedules demo_order demo_cc).2 =
    Ok (mkComponents [1; 1; 1; 4; 4; 5] 6 3)) as Hans by (vm_compute; reflexivity).
  destruct (connected_components_correct 2 demo_schedules demo_order demo_base demo_graph demo_cc HI (demo_ready demo_schedules eq_refl))
    as (cc' & o & E & Ho); [rewrite En; exact demo_order_perm|].
  rewrite E in Hans. cbn [snd] in Hans. rewrite Hans in E, Ho. destruct Ho as [Ha _]. rewrite En in Ha.
  exists cc', (mkComponents [1; 1; 1; 4; 4; 5] 6 3). split; [exact E|]. split; [exact Ha|]. split; reflexivity.
Defined.

Lemma spanning_forest_correct_witness : ∃ cc' ans,
  calc_spanning_forest 2 demo_schedules demo_order demo_cc = (cc', Ok ans) ∧
  answers_forest demo_graph ans ∧ length (sf_edges ans) = 3%nat.
Proof.
  destruct demo_inv as [HI En].
  destruct (spanning_forest_correct 2 demo_schedules demo_order demo_base demo_graph demo_cc HI
    (demo_ready demo_schedules eq_refl)) as (cc' & o & E & Ho); [rewrite En; exact demo_order_perm|].
  assert (match (calc_spanning_forest 2 demo_schedules demo_order demo_cc).2 with
          | Ok ans => length (sf_edges ans) = 3%nat | _ => False end) as Hans by (vm_compute; reflexivity).
  rewrite E in Hans. cbn [snd] in Hans. destruct o as [ans|e| |]; try (exfalso; exact Hans).
  exists cc', ans. split; [exact E|]. split; [exact (proj1 Ho)|exact Hans].
Defined.

Lemma point_query_correct_witness : ∃ cc',
  point_query 2 demo_schedules 0 2 demo_cc = (cc', Ok true) ∧ graph_connected demo_graph 0 2.
Proof.
  destruct demo_inv as [HI En].
  destruct (point_query_correct 2 demo_schedules 0 2 demo_base demo_graph demo_cc HI
    (demo_ready demo_schedules eq_refl)) as (cc' & o & E & Ho); [rewrite En; reflexivity..|].
  assert ((point_query 2 demo_schedules 0 2 demo_cc).2 = Ok true) as Hans by (vm_compute; reflexivity).
  rewrite E in Hans. cbn [snd] in Hans. rewrite Hans in E, Ho.
  exists cc'. split; [exact E|]. by apply (proj1 Ho).
Defined.

Lemma query_terminates_witness : ∃ cc1 mi globals cc2,
  boruvka_start 2 demo_cc = (cc1, Ok (mi, globals)) ∧
  boruvka_loop (boruvka_fuel demo_cc + 5) 2 demo_schedules 0 mi globals cc1 = (cc2, Ok 1).
Proof.
  destruct demo_inv as [HI En]. destruct (demo_ready demo_schedules eq_refl) as [PT Hord Hrel].
  destruct (query_terminates 2 demo_schedules demo_base demo_graph demo_cc 5 PT HI Hord) as
    (cc1 & mi & gs & cc2 & o & E1 & E2 & E3 & _); [apply Hrel; vm_compute; reflexivity|].
  exists cc1, mi, gs, cc2. split; [exact E1|].
  assert (match boruvka_start 2 demo_cc with
          | (cc1, Ok (mi, gs)) => (boruvka_loop (boruvka_fuel demo_cc) 2 demo_schedules 0 mi gs cc1).2
          | _ => Undef end = Ok 1) as Hans by (vm_compute; reflexivity).
  rewrite E1, E2 in Hans. cbn [snd] in Hans. rewrite Hans in E3. exact E3.
Defined.

Lemma insertions_answer_from_cache_witness : ∃ cc0 cc cc1 : CCSketchAlg DSU_MT, ∃ ans,
  CCSketchAlg_new 6 7 CCAlgConfiguration_default (λ i, i * 5 mod 7) = Ok cc0 ∧
  for_each (take 4 demo_updates) update cc0 = (cc, Ok tt) ∧
  connected_components 3 demo_schedules demo_order cc = (cc1, Ok ans) ∧
  answers_components 6 (list_to_set demo_ids) ans.
Proof.
  destruct (insertions_answer_from_cache 6 7 CCAlgConfiguration_default (λ i, i * 5 mod 7) demo_base
    (take 4 demo_updates) 3 demo_schedules demo_order 0 1 demo_params eq_refl)
    as (cc0 & cc & cc1 & _ & ans & _ & E0 & E & E1 & _ & Ha & _).
  - repeat constructor; vm_compute; discriminate.
  - apply (bool_decide_unpack _). vm_compute. exact I.
  - exact demo_order_perm.
  - reflexivity.
  - reflexivity.
  - exists cc0, cc, cc1, ans. split; [exact E0|]. split; [exact E|]. split; [exact E1|exact Ha].
Defined.

(** Six vertices, the trees {0,1,2} and {3,4}. *)
Definition demo_dsu : DSU_MT := dsu demo_cc.

Lemma instructions_group_by_root_witness : ∃ d' mi',
  create_merge_instructions 6 2 [1; 0; 1]%nat ((λ i, mkInstr i i) <$> seqN 0 6) demo_dsu = (d', Ok mi') ∧
  instr_child <$> mi' ≡ₚ seqN 0 6.
Proof.
  destruct demo_inv as [HI En]. destruct (ci_cache _ _ _ HI) as (Hok & Hsz & _). rewrite En in Hsz.
  destruct (demo_ready demo_schedules eq_refl) as [PT _ _]. rewrite En in PT.
  destruct (instructions_group_by_root 6 2 [1; 0; 1]%nat ((λ i, mkInstr i i) <$> seqN 0 6) demo_dsu PT Hok Hsz)
    as (d' & mi' & E & _ & Hp & _).
  - vm_compute. reflexivity.
  - exists d', mi'. split; [exact E|exact Hp].
Defined.

(** Round 1 after round 0 and its regrouping. *)
Lemma round_any_schedule_witness : ∃ cc mi globals cc' m globals',
  num_vertices cc = 6 ∧ loop_ready demo_base demo_graph 2 1 cc mi globals ∧
  perform_boruvka_round 1 2 demo_order [1; 0; 1; 1; 0]%nat mi globals cc = (cc', Ok (m, globals')).
Proof.
  destruct demo_inv as [HI En]. destruct (demo_ready demo_schedules eq_refl) as [PT Hord _].
  destruct (second_round_ready demo_base demo_graph 2 demo_schedules demo_cc PT HI Hord
    demo_graph_collision_free) as (cc & mi & gs & En3 & Hr3); [vm_compute; reflexivity|].
  rewrite <-En3 in PT. rewrite En in En3.
  destruct (round_any_schedule demo_base demo_graph 2 1 demo_order [1; 0; 1; 1; 0]%nat cc mi gs PT Hr3)
    as (cc' & m & gs' & E & _); [discriminate|reflexivity|by apply round_reliable_collision_free, demo_graph_collision_free|].
  exists cc, mi, gs, cc', m, gs'. split; [exact En3|]. split; [exact Hr3|exact E].
Defined.

(** ** A session *)

Definition demo_update (u v : N) : GraphUpdate unit := mkUpdate (mkEdge u v) tt.

(** Insertions overtaken by the batches of earlier ones; then the forest edge
    0-1 goes and the edge 0-5 comes. *)
Definition demo_session : list (call unit) :=
  [ CallStream [EInsert (demo_update 0 1); EBatch (0, 1, [0]); EInsert (demo_update 2 1);
      EInsert (demo_update 0 2); EBatch (1, 0, [1; 2]); EInsert (demo_update 3 4);
      EBatch (0, 2, [1; 0]); EBatch (1, 4, [3]); EInsert (demo_update 2 0); EBatch (1, 1, [2]);
      EBatch (0, 3, [4]); EBatch (0, 0, [2]); EBatch (1, 2, [0])];
    CallConnected demo_schedules demo_order;
    CallUpdate (demo_update 1 0);
    CallPoint demo_schedules 0 2;
    CallUpdate (demo_update 0 5);
    CallForest demo_schedules demo_order ].

Definition session_ids : list N :=
  (λ '(u, v), concat_pairing_fn u v) <$> [(0, 1); (2, 1); (0, 2); (3, 4); (0, 5)].

(** The point query of the session answered [false]. *)
Definition expected_replies (o : outcome (list reply)) : bool :=
  match o with Ok [RDone; _; RDone; RConnected b; RDone; _] => negb b | _ => false end.

Lemma expected_replies_inv o : expected_replies o = true →
  ∃ r1 r6, o = Ok [RDone; r1; RDone; RConnected false; RDone; r6].
Proof.
  destruct o as [rs|e| |]; try discriminate.
  destruct rs as [|[| | | |] [|r1 [|[| | | |] [|[| | |[]|] [|[| | | |] [|r6 [|]]]]]]]; try discriminate. eauto.
Qed.

Lemma session_ids_ok : Forall (λ c, ∀ id, id ∈ call_edges c → id ∈ (list_to_set session_ids : gset N)) demo_session.
Proof.
  assert (Forall (λ c, Forall (λ id, id ∈ (list_to_set session_ids : gset N)) (call_edges c)) demo_session) as Hall.
  { repeat constructor; by apply (bool_decide_unpack _); vm_compute. }
  eapply Forall_impl; [exact Hall|]. intros c Hc. by apply Forall_forall.
Qed.

Lemma demo_session_valid : Forall (valid_call 6 2) demo_session.
Proof.
  apply Forall_cons_2; [split; [|split]|apply Forall_cons_2; [|apply Forall_cons_2; [|apply Forall_cons_2;
    [|apply Forall_cons_2; [|apply Forall_cons_2; [|by apply Forall_nil]]]]]].
  - repeat constructor; vm_compute; discriminate.
  - repeat constructor; vm_compute; reflexivity.
  - intros v Hv. assert (v = 0 ∨ v = 1 ∨ v = 2 ∨ v = 3 ∨ v = 4 ∨ v = 5) as Hcase by lia.
    destruct_or! Hcase; subst v; vm_compute; first [reflexivity|apply perm_swap].
  - split; exact demo_order_perm.
  - repeat constructor; vm_compute; discriminate.
  - split; [exact demo_order_perm|split; reflexivity].
  - repeat constructor; vm_compute; discriminate.
  - split; exact demo_order_perm.
Qed.

Lemma session_refines_witness : ∃ cc0 cc1 cc : CCSketchAlg DSU_MT, ∃ r1 r4 r6 σ,
  CCSketchAlg_new 6 7 CCAlgConfiguration_default (λ i, i * 5 mod 7) = Ok cc0 ∧
  allocate_worker_memory 2 cc0 = (cc1, Ok tt) ∧
  run_session 2 demo_session cc1 = (cc, Ok [RDone; r1; RDone; r4; RDone; r6]) ∧
  spec_run 6 (mkG ∅ true false) demo_session [RDone; r1; RDone; r4; RDone; r6] σ ∧
  r4 = RConnected false.
Proof.
  assert (collision_free (sk_seed demo_base) (list_to_set session_ids)) as Hcf.
  { apply collision_free_decide. vm_compute. reflexivity. }
  destruct (session_refines 6 7 CCAlgConfiguration_default (λ i, i * 5 mod 7) demo_base 2 2 demo_session
    (exact_partitioned 6 2 (EP := exact_partition_pow2 6 1 ltac:(lia) ltac:(lia) ltac:(lia)))
    demo_params demo_session_valid) as (cc0 & cc1 & E0 & E1 & Hrun).
  destruct Hrun as (cc & o & E & Ho).
  { apply (session_reliable_collision_free 2 demo_base (list_to_set session_ids) demo_session Hcf session_ids_ok).
    apply empty_subseteq. }
  assert (match CCSketchAlg_new 6 7 CCAlgConfiguration_default (λ i, i * 5 mod 7) with
          | Ok cc0 => match allocate_worker_memory 2 cc0 with
                      | (cc1, Ok _) => expected_replies (run_session 2 demo_session cc1).2
                      | _ => false
                      end
          | _ => false
          end = true) as Hr by (vm_compute; reflexivity).
  rewrite E0, E1, E in Hr. apply expected_replies_inv in Hr as (r1 & r6 & Hr). cbn [snd] in Hr. subst o.
  destruct Ho as (σ & Hspec & _). exists cc0, cc1, cc, r1, (RConnected false), r6, σ.
  split; [exact E0|]. split; [exact E1|]. split; [exact E|]. split; [exact Hspec|reflexivity].
Defined.
End Demo.

(** ** A query that fails *)

(** A hash that never separates the indices: all of them have depth 0, so a
    sample of two edges always fails. *)
Definition failing_platform : Platform := {|
  vec_bytes := 8; vec_hash_bytes := 8;
  XXH3_64bits_withSeed := λ bs seed, u64 (2 * toy_hash bs seed + 1); log2 := toy_log2;
  L0_SAMPLING := false; NO_EAGER_DSU := true; NDEBUG := true
|}.

#[export] Instance failing_platform_laws : PlatformLaws failing_platform.
Proof. split; [done|simpl; lia|]. intros bs seed. apply wrap_lt. Qed.

Section Failing.
#[local] Existing Instance failing_platform.

Definition square_base : Sketch :=
  from_outcome (new_sketch 4 7 (_sketches_factor CCAlgConfiguration_default)).
Definition square_updates : list (GraphUpdate unit) :=
  (λ '(u, v), mkUpdate (mkEdge u v) tt) <$> [(0, 1); (1, 2); (2, 3); (3, 0)].
Definition square_cc : CCSketchAlg DSU_MT := streamed failing_platform 4 square_updates.
Definition square_order : list N := [0; 1; 2; 3].
Definition square_schedules : Schedules := mkSchedules square_order (λ _, []) (λ _, []).

Lemma square_params : good_params 4 7 CCAlgConfiguration_default square_base.
Proof. split; vm_compute; (reflexivity || (split; [discriminate|reflexivity]) || discriminate || idtac). Qed.

Lemma square_inv : cc_inv square_cc square_base (toggles (stream_ids square_updates)) ∧ num_vertices square_cc = 4.
Proof.
  apply (streamed_inv failing_platform); [exact square_params|]. repeat constructor; vm_compute; discriminate.
Qed.

Lemma square_ready : query_ready 2 square_schedules square_base (toggles (stream_ids square_updates)) square_cc.
Proof.
  destruct square_inv as [_ En]. split.
  - rewrite En. apply exact_partitioned. exact (exact_partition_pow2 4 1 ltac:(lia) ltac:(lia) ltac:(lia)).
  - rewrite En. reflexivity.
  - intros _. apply query_reliable_collision_free.
    apply (collision_free_subseteq _ (list_to_set (stream_ids square_updates))).
    + intros id Hid. apply elem_of_list_to_set, elem_of_toggles, Hid.
    + apply collision_free_decide. vm_compute. reflexivity.
Defined.

Lemma failed_query_locks_witness : ∃ cc' e,
  connected_components 2 square_schedules square_order square_cc = (cc', Throw e) ∧
  apply_update_batch 0 1 [2] cc' = (cc', Throw UpdateLockedException).
Proof.
  destruct square_inv as [HI En].
  assert (match (connected_components 2 square_schedules square_order square_cc).2 with
          | Throw _ => true | _ => false end = true) as Hthrow by (vm_compute; reflexivity).
  destruct (connected_components 2 square_schedules square_order square_cc) as [cc' [a|e| |]] eqn:E;
    try discriminate Hthrow.
  destruct (failed_query_locks 2 square_schedules square_order square_base _ square_cc cc' e HI square_ready
    ltac:(rewrite En; reflexivity) E) as (_ & _ & _ & Hb & _).
  exists cc', e. split; [reflexivity|apply Hb].
Defined.
End Failing.
