(* ===== verification/Serial.v ===== *)
(** Writing the algorithm to a file and reading it back (src/cc_sketch_alg.cpp:
    [write_binary], [construct_from_serialized_data], the constructor that reads
    sketches).

    A file is its bytes. The object representation of a [double] is binary64's
    interchange format; [double_bits] and [bits_double] convert between it and
    the Standard Library's [spec_float], which has one NaN. *)
From Stdlib Require Import Floats.SpecFloat.
From S2P Require Import Prelude Float64 Platform Util XorSet Bucket Sketch Dsu DsuMT Graph Forest Config CCAlg Boruvka BoruvkaCorrect Queries Session Correctness.

Open Scope N_scope.

(** * The object representation of [double] *)

Definition sign_bit (s : bool) : N := if s then 2 ^ 63 else 0.

(** Fields: sign, biased exponent, fraction. *)
Definition double_fields (s : bool) (ex fr : N) : N := sign_bit s + ex * 2 ^ 52 + fr.

Definition double_bits (d : double) : N :=
  match d with
  | S754_zero s => double_fields s 0 0
  | S754_infinity s => double_fields s 2047 0
  | S754_nan => double_fields false 2047 (2 ^ 51)
  | S754_finite s m e =>
      if N.pos m <? 2 ^ 52 then double_fields s 0 (N.pos m)
      else double_fields s (Z.to_N (e + 1075)) (N.pos m - 2 ^ 52)
  end.

Definition bits_double (x : N) : double :=
  let s := 2 ^ 63 <=? x in
  let ex := x / 2 ^ 52 mod 2048 in
  let fr := x mod 2 ^ 52 in
  if ex =? 0 then match fr with N0 => S754_zero s | Npos m => S754_finite s m (-1074) end
  else if ex =? 2047 then match fr with N0 => S754_infinity s | _ => S754_nan end
  else match fr + 2 ^ 52 with N0 => S754_nan | Npos m => S754_finite s m (Z.of_N ex - 1075) end.

Lemma fields_inv s ex fr : ex < 2048 → fr < 2 ^ 52 →
  double_fields s ex fr < 2 ^ 64 ∧ (2 ^ 63 <=? double_fields s ex fr) = s ∧
  double_fields s ex fr / 2 ^ 52 mod 2048 = ex ∧ double_fields s ex fr mod 2 ^ 52 = fr.
Proof.
  intros Hex Hfr. unfold double_fields.
  assert (ex * 2 ^ 52 + fr < 2 ^ 63) as Hlow.
  { change (2 ^ 63) with (2048 * 2 ^ 52). nia. }
  assert (sign_bit s = (if s then 2048 else 0) * 2 ^ 52) as Es by (by destruct s).
  split; [|split; [|split]].
  - change (2 ^ 64) with (2 ^ 63 + 2 ^ 63). destruct s; unfold sign_bit; lia.
  - destruct s; unfold sign_bit; [apply N.leb_le|apply N.leb_gt]; lia.
  - replace (sign_bit s + ex * 2 ^ 52 + fr) with (fr + ((if s then 2048 else 0) + ex) * 2 ^ 52) by lia.
    rewrite N.div_add, N.div_small by (done || lia). rewrite N.add_0_l.
    destruct s; [rewrite N.add_comm, <-(N.mul_1_l 2048) at 1; rewrite N.Div0.mod_add|]; by rewrite N.mod_small.
  - replace (sign_bit s + ex * 2 ^ 52 + fr) with (fr + ((if s then 2048 else 0) + ex) * 2 ^ 52) by lia.
    rewrite N.Div0.mod_add. by rewrite N.mod_small.
Qed.

(** Every representable [double] survives. *)
Lemma double_roundtrip d : valid_binary prec64 emax64 d = true →
  double_bits d < 2 ^ 64 ∧ bits_double (double_bits d) = d.
Proof.
  destruct d as [s|s| |s m e]; intros Hv; unfold double_bits, bits_double.
  - destruct (fields_inv s 0 0) as (H1 & -> & -> & ->); done.
  - destruct (fields_inv s 2047 0) as (H1 & -> & -> & ->); done.
  - split; reflexivity.
  - unfold valid_binary, bounded, canonical_mantissa in Hv.
    apply andb_true_iff in Hv as [He%Z.eqb_eq Hm%Z.leb_le].
    unfold fexp, emin, prec64, emax64 in *. pose proof (digits2_bound m) as [Hd1 Hd2].
    set (dg := Z.pos (digits2_pos m)) in *.
    assert (0 < dg)%Z as Hdg by done. clearbody dg. destruct (N.ltb_spec (N.pos m) (2 ^ 52)) as [Hsub|Hnorm].
    + assert (dg < 53)%Z as Hlt.
      { apply Z.nle_gt. intros Hle. assert (2 ^ 52 ≤ 2 ^ (dg - 1))%Z by (apply Z.pow_le_mono_r; lia). lia. }
      assert (e = -1074)%Z as -> by lia.
      destruct (fields_inv s 0 (N.pos m)) as (H1 & -> & -> & ->); [done|done|]. done.
    + assert (dg = 53)%Z as ->.
      { assert (53 ≤ dg)%Z; [|lia]. apply Z.nlt_ge. intros Hlt.
        assert (2 ^ dg ≤ 2 ^ 52)%Z by (apply Z.pow_le_mono_r; lia). lia. }
      assert (N.pos m < 2 ^ 53) by lia.
      destruct (fields_inv s (Z.to_N (e + 1075)) (N.pos m - 2 ^ 52)) as (H1 & -> & -> & ->); [lia|lia|].
      split; [done|]. rewrite (proj2 (N.eqb_neq _ 0)), (proj2 (N.eqb_neq _ 2047)) by lia.
      rewrite N.sub_add by done. f_equal. lia.
Qed.

(** * Files *)

Section Serial.
Context `{P : Platform} {D : Type} `{UF : UnionFind D}.

(** [binary_out.write] of the three members, then of every sketch. *)
Definition write_header (cc : CCSketchAlg D) : list N :=
  le_bytes 8 (cc_seed cc) ++ le_bytes 4 (num_vertices cc) ++
  le_bytes 8 (double_bits (_sketches_factor (config cc))).

Definition write_binary (cc : CCSketchAlg D) : outcome (list N) :=
  ofold (λ i out, s ← of_option (sketches cc !! i); mret (out ++ serialize s))
    (seqN 0 (num_vertices cc)) (write_header cc).

(** [binary_in.read] of an integer of [k] bytes; a short file leaves the
    variable uninitialised. *)
Definition read_integer (k : nat) (stream : list N) : outcome (N * list N) :=
  if (k <=? length stream)%nat then mret (le_value (take k stream), drop k stream) else Undef.

(** The constructor that reads the sketches from the stream. *)
Definition CCSketchAlg_deserialize (n seed : N) (binary_stream : list N) (config : CCAlgConfiguration)
    (prio_gen : N → N) : outcome (CCSketchAlg D) :=
  sketch_vec_len ← calc_vector_length n;
  sketch_num_samples ← calc_cc_samples n (_sketches_factor config);
  '(reps, ss, _) ← ofold (λ i '(reps, ss, stream),
      '(s, stream) ← Sketch_deserialize sketch_vec_len seed sketch_num_samples default_cols_per_sample stream;
      mret (reps ∪ {[ i ]}, ss ++ [s], stream))
    (seqN 0 n) (∅ : gset N, [], binary_stream);
  mret (mkCC n seed false reps ss (uf_new n prio_gen) false false (replicate (N.to_nat n) ∅)
    None 0 config 0).

Definition construct_from_serialized_data (show_double : double → string) (input_file : list N)
    (config : CCAlgConfiguration) (prio_gen : N → N) : outcome (CCSketchAlg D) :=
  '(seed, stream) ← read_integer 8 input_file;
  '(n, stream) ← read_integer 4 stream;
  '(factor, stream) ← read_integer 8 stream;
  let '(config, _) := sketches_factor show_double (bits_double factor) config in
  CCSketchAlg_deserialize n seed stream config prio_gen.
End Serial.

Section Roundtrip.
Context `{P : Platform} `{!PlatformLaws P} {D : Type} `{UnionFindLaws D}.
Implicit Type cc : CCSketchAlg D.

Lemma read_integer_bytes k x rest : x < 2 ^ (8 * N.of_nat k) →
  read_integer k (le_bytes k x ++ rest) = Ok (x, rest).
Proof using .
  intros Hx. unfold read_integer. rewrite (proj2 (Nat.leb_le _ _)) by (rewrite length_app, length_le_bytes; lia).
  rewrite take_app_length', drop_app_length' by (by rewrite length_le_bytes). by rewrite le_value_bytes.
Qed.

Lemma write_binary_ok cc : length (sketches cc) = N.to_nat (num_vertices cc) →
  write_binary cc = Ok (write_header cc ++ (sketches cc ≫= serialize)).
Proof using .
  intros HL. unfold write_binary.
  destruct (ofold_range (λ k out, out = write_header cc ++ (take (N.to_nat k) (sketches cc) ≫= serialize)) 0
    (num_vertices cc) (λ i out, s ← of_option (sketches cc !! i); mret (out ++ serialize s)))
    with (s := write_header cc) as (out & -> & ->).
  - intros k out Hk ->. rewrite N.add_0_l. destruct (lookupN_lt_is_Some (sketches cc) k) as [s Hs]; [lia|].
    rewrite Hs. cbn [of_option mbind outcome_bind]. eexists. split; [done|]. rewrite lookupN_eq in Hs.
    replace (N.to_nat (k + 1)) with (S (N.to_nat k)) by lia.
    rewrite (take_S_r _ _ _ Hs), bind_app, (assoc app). f_equal. simpl. by rewrite app_nil_r.
  - by rewrite app_nil_r.
  - f_equal. rewrite take_ge by lia. done.
Qed.

(** The sketches of a consistent object are read back. *)
Lemma read_sketches_ok cc b G len samples : cc_base cc b → graph (num_vertices cc) G →
  cc_vectors cc b (incident G) →
  Sketch_new len (cc_seed cc) samples default_cols_per_sample = Ok b →
  ∃ reps, ofold (λ i '(reps, ss, stream),
      '(s, stream) ← Sketch_deserialize len (cc_seed cc) samples default_cols_per_sample stream;
      mret (reps ∪ {[ i ]} : gset N, ss ++ [s], stream))
    (seqN 0 (num_vertices cc)) (∅, [], sketches cc ≫= serialize) = Ok (reps, sketches cc, []).
Proof using PlatformLaws0.
  intros Hb HG [HL Hf] Hnew.
  assert (sk_seed b = cc_seed cc ∧ num_samples b = samples ∧ cols_per_sample b = default_cols_per_sample) as (Es & En & Ec).
  { unfold Sketch_new, sketch_layout in Hnew. destruct (calc_bkt_per_col len); [|done..]. by injection Hnew as <-. }
  destruct (sketch_layout len (cc_seed cc) samples default_cols_per_sample) as [l|e| |] eqn:El;
    try (unfold Sketch_new in Hnew; rewrite El in Hnew; done).
  assert (same_layout l b) as Hlb.
  { unfold Sketch_new in Hnew. rewrite El in Hnew. simpl in Hnew. injection Hnew as <-. by destruct l. }
  destruct (ofold_range (λ k '(reps, ss, stream), ss = take (N.to_nat k) (sketches cc) ∧
      stream = drop (N.to_nat k) (sketches cc) ≫= serialize) 0 (num_vertices cc)
    (λ i '(reps, ss, stream),
      '(s, stream) ← Sketch_deserialize len (cc_seed cc) samples default_cols_per_sample stream;
      mret (reps ∪ {[ i ]} : gset N, ss ++ [s], stream)))
    with (s := (∅ : gset N, [] : list Sketch, sketches cc ≫= serialize)) as ([[reps ss] stream] & E & -> & ->).
  - intros k [[reps ss] stream] Hk [-> ->]. destruct (lookupN_lt_is_Some (sketches cc) k) as [s Hs]; [lia|].
    destruct (Hf k s Hs) as (W & L & I & R). pose proof L as (E1 & E2 & E3 & _).
    rewrite lookupN_eq in Hs. rewrite (drop_S _ _ _ Hs). cbn [mbind list_bind].
    assert (Sketch_deserialize len (cc_seed cc) samples default_cols_per_sample
      (serialize s ++ (drop (S (N.to_nat k)) (sketches cc) ≫= serialize)) =
      Ok (s, drop (S (N.to_nat k)) (sketches cc) ≫= serialize)) as ->.
    { rewrite <-Es, <-En, <-Ec, E1, E2, E3.
      rewrite (Sketch_deserialize_serialize len s l (incident G k)); try done.
      - do 2 f_equal. destruct s. simpl in *. by subst.
      - intros x Hx. unfold vec_bits. rewrite vec_bytes_8. change (8 * N.of_nat 8) with 64.
        apply incident_subseteq in Hx. by apply HG.
      - by rewrite <-E1, <-E2, <-E3, Es, En, Ec.
      - by transitivity b. }
    eexists. split; [done|]. replace (N.to_nat (k + 1)) with (S (N.to_nat k)) by lia.
    by rewrite (take_S_r _ _ _ Hs).
  - by rewrite drop_0.
  - exists reps. rewrite E, take_ge, drop_ge by lia. done.
Qed.

(** C28. A file restores the algorithm. Writing any consistent object and
    constructing one from the file succeeds, and the new object holds the same
    sketches for the same vertices, seed and sketch size. It describes the same
    graph with nothing cached and nothing locked, so every theorem about
    queries applies to it; the rest of its configuration is the caller's. *)
Theorem file_roundtrip show_double config' prio_gen cc b G (HI : cc_inv cc b G)
    (Hfin : valid_binary prec64 emax64 (_sketches_factor (config cc)) = true)
    (Hpos : SFleb (_sketches_factor (config cc)) dzero = false) :
  ∃ file cc', write_binary cc = Ok file ∧
    construct_from_serialized_data show_double file config' prio_gen = Ok cc' ∧
    sketches cc' = sketches cc ∧ num_vertices cc' = num_vertices cc ∧ cc_seed cc' = cc_seed cc ∧
    _sketches_factor (config cc') = _sketches_factor (config cc) ∧
    _batch_factor (config cc') = _batch_factor config' ∧
    dsu_valid cc' = false ∧ update_locked cc' = false ∧ delta_sketches cc' = None ∧ cc_inv cc' b G.
Proof using PlatformLaws0.
  pose proof HI as [Hb HG Hvec _ _]. pose proof (cb_n _ _ Hb) as Hn. pose proof (cb_new _ _ Hb) as Hnew.
  destruct (new_sketch_inv _ _ _ _ Hnew) as (len & samples & E1 & E2 & E3 & _).
  destruct (read_sketches_ok cc b G len samples Hb HG Hvec E3) as [reps Er].
  destruct (double_roundtrip _ Hfin) as [Hd1 Hd2].
  assert (cc_seed cc < 2 ^ 64) as Hseed.
  { pose proof (wf_seed b (cb_wf _ _ Hb)) as Hw. unfold Sketch_new, sketch_layout in E3.
    destruct (calc_bkt_per_col len); [|done..]. injection E3 as <-. exact Hw. }
  eexists _, _. split; [apply write_binary_ok, Hvec|]. split.
  - unfold construct_from_serialized_data, write_header. rewrite <-!(assoc app).
    rewrite read_integer_bytes by exact Hseed. cbn [mbind outcome_bind].
    rewrite read_integer_bytes by apply Hn. cbn [mbind outcome_bind].
    rewrite read_integer_bytes by exact Hd1. cbn [mbind outcome_bind].
    unfold sketches_factor. rewrite Hd2. cbn [_sketches_factor]. rewrite Hpos.
    unfold CCSketchAlg_deserialize. cbn [_sketches_factor]. rewrite E1. cbn [mbind outcome_bind].
    rewrite E2. cbn [mbind outcome_bind]. rewrite Er. reflexivity.
  - cbn [sketches num_vertices cc_seed config _sketches_factor _batch_factor dsu_valid update_locked delta_sketches].
    split_and!; try done. split; try done.
    + by apply (cc_base_ext cc).
    + unfold cc_cache. simpl. destruct (uf_new_ok (num_vertices cc) prio_gen) as (Uok & Us & Ur).
      rewrite length_replicate. by split_and!.
Qed.
End Roundtrip.

Section Demo.
#[local] Existing Instance demo_platform.

Lemma file_roundtrip_witness : ∃ file (cc' : CCSketchAlg DSU_MT),
  write_binary demo_cc = Ok file ∧
  construct_from_serialized_data (λ _, EmptyString) file CCAlgConfiguration_default (λ i, i) = Ok cc' ∧
  sketches cc' = sketches demo_cc ∧ cc_inv cc' demo_base demo_graph.
Proof.
  destruct demo_inv as [HI _].
  destruct (file_roundtrip (λ _, EmptyString) CCAlgConfiguration_default (λ i, i) demo_cc demo_base demo_graph HI)
    as (file & cc' & E & E' & Es & _ & _ & _ & _ & _ & _ & _ & HI'); [vm_compute; reflexivity..|].
  exists file, cc'. split; [exact E|]. split; [exact E'|]. split; [exact Es|exact HI'].
Defined.
End Demo.
