(* ===== verification/Workers.v ===== *)
(** The worker threads (include/worker_thread_group.h).

    The threads are a machine: every worker and the thread that drives them has
    a program counter, one step performs one access to the state they share,
    and a schedule says who moves. The flags [shutdown], [do_pause] and [paused]
    are shared plain members; the mutex is the thread that holds it; waits on
    the condition variable may wake up at any time, so notifications change
    nothing. The guttering system is outside this repository: its queue is an
    interface. *)
From stdpp Require Import relations.
From S2P Require Import Prelude CCAlg.

Open Scope N_scope.

(** * The queue *)

(** [GutteringSystem] as the workers see it. [get_data] is [None] while the
    call blocks and [Some (None, _)] when it returns [false]. *)
Class WorkQueue (Q item : Type) : Type := {
  wq_items : Q → list item;
  wq_non_block : Q → bool;
  set_non_block : bool → Q → Q;
  get_data : Q → option (option item * Q);
  get_data_callback : item → Q → Q;
  wq_put : item → Q → Q;
  get_batches : item → list (N * list N)
}.

(** A call takes one item; it returns empty-handed only when the queue is empty
    and told not to block, and then it does not block. *)
Class WorkQueueLaws (Q item : Type) `{WorkQueue Q item} : Prop := {
  get_data_item q x q' : get_data q = Some (Some x, q') →
    wq_items q ≡ₚ x :: wq_items q' ∧ wq_non_block q' = wq_non_block q;
  get_data_nothing q q' : get_data q = Some (None, q') →
    wq_items q = [] ∧ wq_non_block q = true ∧ q' = q;
  get_data_returns q : wq_non_block q = true → is_Some (get_data q);
  set_non_block_items b q : wq_items (set_non_block b q) = wq_items q;
  set_non_block_flag b q : wq_non_block (set_non_block b q) = b;
  callback_items x q : wq_items (get_data_callback x q) = wq_items q;
  callback_flag x q : wq_non_block (get_data_callback x q) = wq_non_block q;
  put_items x q : wq_items (wq_put x q) ≡ₚ x :: wq_items q;
  put_flag x q : wq_non_block (wq_put x q) = wq_non_block q
}.

(** * State *)

(** Where a worker is in [do_work]; "held" when it owns the mutex. *)
Inductive worker_pc (item : Type) : Type :=
| PGet                                              (** [get_data] *)
| PBatches (data : item) (todo : list (N * list N)) (** the loop over the batches *)
| PTestShutdown                                     (** [else if (shutdown)] *)
| PTestPause                                        (** [else if (do_pause)] *)
| PLock                                             (** [unique_lock lk(flush_lock)] *)
| PPause                                            (** held: [paused = true] *)
| PTestWait                                         (** held: the predicate of [wait] *)
| PWait                                             (** waiting *)
| PUnpause                                          (** held: [paused = false; unlock] *)
| PExit.
Arguments PGet {item}.
Arguments PBatches {item}.
Arguments PTestShutdown {item}.
Arguments PTestPause {item}.
Arguments PLock {item}.
Arguments PPause {item}.
Arguments PTestWait {item}.
Arguments PWait {item}.
Arguments PUnpause {item}.
Arguments PExit {item}.

Record WorkerThread (item : Type) : Type := mkWorker {
  w_pc : worker_pc item;
  shutdown : bool;
  do_pause : bool;
  paused : bool
}.
Arguments mkWorker {item}.
Arguments w_pc {item}.
Arguments shutdown {item}.
Arguments do_pause {item}.
Arguments paused {item}.

(** Where the driving thread is in the group's methods. *)
Inductive main_pc : Type :=
| MIdle
| MFlush                (** [flush_workers] *)
| MPause (i : N)        (** its first loop *)
| MLock                 (** [unique_lock lk(flush_lock)] *)
| MWaitFor              (** held: the predicate of [wait_for] *)
| MSleep                (** waiting *)
| MCheck                (** held: [all_paused], then [unlock] *)
| MFlushed              (** [flush_workers] has returned *)
| MUnpause (i : N)      (** [resume_workers]: [do_pause = false] *)
| MClear (i : N)        (** [paused = false] *)
| MDestroy              (** the destructor *)
| MStop (i : N)
| MJoin (i : N)
| MEnd.

Inductive owner : Type := OwnedByWorker (i : N) | OwnedByMain.

#[export] Instance owner_eq_dec : EqDecision owner.
Proof. solve_decision. Defined.

Record WorkerThreadGroup (Q item : Type) : Type := mkGroup {
  gts : Q;
  workers : list (WorkerThread item);
  flush_lock : option owner;
  log : list batch;          (** the calls of [batch_callback], in order *)
  main : main_pc
}.
Arguments mkGroup {Q item}.
Arguments gts {Q item}.
Arguments workers {Q item}.
Arguments flush_lock {Q item}.
Arguments log {Q item}.
Arguments main {Q item}.

Section Workers.
Context {Q item : Type} `{WQ : WorkQueue Q item}.
Implicit Type g : WorkerThreadGroup Q item.
Implicit Type w : WorkerThread item.

Definition set_pc (pc : worker_pc item) w : WorkerThread item :=
  mkWorker pc (shutdown w) (do_pause w) (paused w).
Definition set_paused (b : bool) w : WorkerThread item :=
  mkWorker (w_pc w) (shutdown w) (do_pause w) b.

(** [pause], the two assignments of [unpause], and [stop]. *)
Definition pause w : WorkerThread item := mkWorker (w_pc w) (shutdown w) true (paused w).
Definition unpause w : WorkerThread item := mkWorker (w_pc w) (shutdown w) false (paused w).
Definition stop w : WorkerThread item := mkWorker (w_pc w) true (do_pause w) (paused w).

Definition WorkerThread_new : WorkerThread item := mkWorker PGet false false false.
Definition WorkerThreadGroup_new (num_workers : N) (q : Q) : WorkerThreadGroup Q item :=
  mkGroup q (replicate (N.to_nat num_workers) WorkerThread_new) None [] MIdle.

Definition put_worker (i : N) w g : WorkerThreadGroup Q item :=
  mkGroup (gts g) (<[i := w]> (workers g)) (flush_lock g) (log g) (main g).
Definition set_gts (q : Q) g : WorkerThreadGroup Q item :=
  mkGroup q (workers g) (flush_lock g) (log g) (main g).
Definition set_lock (l : option owner) g : WorkerThreadGroup Q item :=
  mkGroup (gts g) (workers g) l (log g) (main g).
Definition set_main (m : main_pc) g : WorkerThreadGroup Q item :=
  mkGroup (gts g) (workers g) (flush_lock g) (log g) m.

(** [driver->batch_callback(id, node_idx, upd_vec)] *)
Definition batch_callback (i src_vertex : N) (dst_vertices : list N) g : WorkerThreadGroup Q item :=
  mkGroup (gts g) (workers g) (flush_lock g) (log g ++ [(i, src_vertex, dst_vertices)]) (main g).

(** * The workers *)

(** The next step of worker [i], which is [w]; [None] when it cannot move. *)
Definition do_work (i : N) w g : option (WorkerThreadGroup Q item) :=
  match w_pc w with
  | PGet =>
      match get_data (gts g) with
      | Some (Some data, q) => Some (put_worker i (set_pc (PBatches data (get_batches data)) w) (set_gts q g))
      | Some (None, q) => Some (put_worker i (set_pc PTestShutdown w) (set_gts q g))
      | None => None
      end
  | PBatches data ((node_idx, upd_vec) :: todo) =>
      Some (put_worker i (set_pc (PBatches data todo) w)
        (if (0 <? length upd_vec)%nat then batch_callback i node_idx upd_vec g else g))
  | PBatches data [] => Some (put_worker i (set_pc PGet w) (set_gts (get_data_callback data (gts g)) g))
  | PTestShutdown => Some (put_worker i (set_pc (if shutdown w then PExit else PTestPause) w) g)
  | PTestPause => Some (put_worker i (set_pc (if do_pause w then PLock else PGet) w) g)
  | PLock =>
      match flush_lock g with
      | None => Some (put_worker i (set_pc PPause w) (set_lock (Some (OwnedByWorker i)) g))
      | Some _ => None
      end
  | PPause => Some (put_worker i (set_pc PTestWait (set_paused true w)) g)
  | PTestWait =>
      if negb (do_pause w) || shutdown w then Some (put_worker i (set_pc PUnpause w) g)
      else Some (put_worker i (set_pc PWait w) (set_lock None g))
  | PWait =>
      match flush_lock g with
      | None => Some (put_worker i (set_pc PTestWait w) (set_lock (Some (OwnedByWorker i)) g))
      | Some _ => None
      end
  | PUnpause => Some (put_worker i (set_pc PGet (set_paused false w)) (set_lock None g))
  | PExit => None
  end.

Definition worker_step (i : N) g : option (WorkerThreadGroup Q item) :=
  w ← workers g !! i; do_work i w g.

(** * The driving thread *)

Definition all_paused g : bool := forallb paused (workers g).

Definition update_worker (i : N) (f : WorkerThread item → WorkerThread item) g : WorkerThreadGroup Q item :=
  match workers g !! i with Some w => put_worker i (f w) g | None => g end.

Definition num_workers g : N := N.of_nat (length (workers g)).

(** [timeout]: the [wait_for] is over although the predicate does not hold. *)
Definition flush_workers (timeout : bool) g : option (WorkerThreadGroup Q item) :=
  match main g with
  | MFlush => Some (set_main (MPause 0) (set_gts (set_non_block true (gts g)) g))
  | MPause i =>
      if i <? num_workers g then Some (set_main (MPause (i + 1)) (update_worker i pause g))
      else Some (set_main MLock g)
  | MLock =>
      match flush_lock g with
      | None => Some (set_main MWaitFor (set_lock (Some OwnedByMain) g))
      | Some _ => None
      end
  | MWaitFor =>
      if all_paused g then Some (set_main MCheck g)
      else Some (set_main MSleep (set_lock None g))
  | MSleep =>
      match flush_lock g with
      | None => Some (set_main (if timeout then MCheck else MWaitFor) (set_lock (Some OwnedByMain) g))
      | Some _ => None
      end
  | MCheck => Some (set_main (if all_paused g then MFlushed else MLock) (set_lock None g))
  | _ => None
  end.

Definition resume_workers g : option (WorkerThreadGroup Q item) :=
  match main g with
  | MUnpause i =>
      if i <? num_workers g then Some (set_main (MClear i) (update_worker i unpause g))
      else Some (set_main MIdle (set_gts (set_non_block false (gts g)) g))
  | MClear i => Some (set_main (MUnpause (i + 1)) (update_worker i (set_paused false) g))
  | _ => None
  end.

(** [~WorkerThreadGroup]; deleting a worker joins its thread. *)
Definition destroy g : option (WorkerThreadGroup Q item) :=
  match main g with
  | MDestroy => Some (set_main (MStop 0) (set_gts (set_non_block true (gts g)) g))
  | MStop i =>
      if i <? num_workers g then Some (set_main (MStop (i + 1)) (update_worker i stop g))
      else Some (set_main (MJoin 0) g)
  | MJoin i =>
      match workers g !! i with
      | Some w => match w_pc w with PExit => Some (set_main (MJoin (i + 1)) g) | _ => None end
      | None => Some (set_main MEnd g)
      end
  | _ => None
  end.

(** What the owner of the group may do next: call a method, or let the
    guttering system put an item on the queue. *)
Inductive command : Type := CFlush | CResume | CDestroy | CPut (x : item).

Definition start (c : command) g : option (WorkerThreadGroup Q item) :=
  match c, main g with
  | CFlush, (MIdle | MFlushed) => Some (set_main MFlush g)
  | CResume, (MIdle | MFlushed) => Some (set_main (MUnpause 0) g)
  | CDestroy, (MIdle | MFlushed) => Some (set_main MDestroy g)
  | CPut x, MIdle => Some (set_gts (wq_put x (gts g)) g)
  | _, _ => None
  end.

(** Steps inside a method, and all steps. *)
Inductive flush_step : relation (WorkerThreadGroup Q item) :=
| FlushWorker i g g' : worker_step i g = Some g' → flush_step g g'
| FlushMain timeout g g' : flush_workers timeout g = Some g' → flush_step g g'.

Inductive step : relation (WorkerThreadGroup Q item) :=
| StepFlush g g' : flush_step g g' → step g g'
| StepResume g g' : resume_workers g = Some g' → step g g'
| StepDestroy g g' : destroy g = Some g' → step g g'
| StepStart c g g' : start c g = Some g' → step g g'.

(** An execution inside [flush_workers]: a worker, or the driving thread. *)
Definition flush_perform (m : N + bool) g : option (WorkerThreadGroup Q item) :=
  match m with inl i => worker_step i g | inr t => flush_workers t g end.

(** Moves that are not possible are skipped. *)
Fixpoint flush_execute (ms : list (N + bool)) g : WorkerThreadGroup Q item :=
  match ms with
  | [] => g
  | m :: ms => flush_execute ms (default g (flush_perform m g))
  end.

Lemma flush_execute_steps ms g : rtc flush_step g (flush_execute ms g).
Proof using .
  revert g. induction ms as [|m ms IH]; intros g; simpl; [done|].
  destruct (flush_perform m g) as [g1|] eqn:E1; [|apply IH]. apply (rtc_l _ _ g1); [|apply IH].
  destruct m as [i|t]; [by apply (FlushWorker i)|by apply (FlushMain t)].
Qed.

(** Executions: what moves next. *)
Inductive move : Type := MoveWorker (i : N) | MoveMain (timeout : bool) | MoveStart (c : command).

Definition perform (m : move) g : option (WorkerThreadGroup Q item) :=
  match m with
  | MoveWorker i => worker_step i g
  | MoveMain t =>
      match flush_workers t g, resume_workers g with
      | Some g', _ => Some g'
      | None, Some g' => Some g'
      | None, None => destroy g
      end
  | MoveStart c => start c g
  end.

Fixpoint execute (ms : list move) g : WorkerThreadGroup Q item :=
  match ms with
  | [] => g
  | m :: ms => execute ms (default g (perform m g))
  end.

Lemma execute_steps ms g : rtc step g (execute ms g).
Proof using .
  revert g. induction ms as [|m ms IH]; intros g; simpl; [done|].
  destruct (perform m g) as [g1|] eqn:E1; [|apply IH]. apply (rtc_l _ _ g1); [|apply IH].
  destruct m as [i|t|c]; simpl in E1.
  - by apply StepFlush, (FlushWorker i).
  - destruct (flush_workers t g) eqn:Ef; [injection E1 as ->; by apply StepFlush, (FlushMain t)|].
    destruct (resume_workers g) eqn:Er; [injection E1 as ->; by apply StepResume|by apply StepDestroy].
  - by apply (StepStart c).
Qed.
End Workers.
