(* ===== verification/WorkersCorrect.v ===== *)
(** What the worker threads guarantee, and what they do not.

    [flush_inv] is the invariant of [flush_workers] when no worker starts it
    with a stale empty-handed return of [get_data]: by rule induction over the
    steps of all threads, when the call returns every batch has been applied
    ([flush_drains]); from every state on the way the call can still return
    ([flush_can_finish]). The runs at the end show the two ways the hypothesis
    fails in the code: a resumed worker that sees the next pause with its stale
    result, and a pause that overtakes the wake-up. *)
From stdpp Require Import relations.
From S2P Require Import Prelude CCAlg Workers.

Open Scope N_scope.

Section Flush.
Context {Q item : Type} `{WQL : WorkQueueLaws Q item}.
Implicit Type g : WorkerThreadGroup Q item.
Implicit Type w : WorkerThread item.

(** * The invariant *)

(** Batches not yet applied: the rest of a worker's item, then the queue. *)
Definition nonempty (bs : list (N * list N)) : list (N * list N) :=
  filter (λ p, (0 < length p.2)%nat) bs.

Definition in_progress w : list (N * list N) :=
  match w_pc w with PBatches _ todo => nonempty todo | _ => [] end.

Definition queued (q : Q) : list (N * list N) := wq_items q ≫= λ x, nonempty (get_batches x).

Definition pending g : list (N * list N) := (workers g ≫= in_progress) ++ queued (gts g).

Definition strip (b : batch) : N * list N := (b.1.2, b.2).

(** The worker has learnt that the queue is empty. *)
Definition past_get (pc : worker_pc item) : bool :=
  match pc with PGet | PBatches _ _ => false | _ => true end.

Definition holds_lock (pc : worker_pc item) : bool :=
  match pc with PPause | PTestWait | PUnpause => true | _ => false end.

Definition pausing (pc : worker_pc item) : bool :=
  match pc with PLock | PPause | PTestWait | PWait => true | _ => false end.

Definition waiting (pc : worker_pc item) : bool :=
  match pc with PTestWait | PWait => true | _ => false end.

Record worker_inv (q : Q) (lock : option owner) (i : N) w : Prop := {
  wi_running : shutdown w = false;
  wi_empty : past_get (w_pc w) = true → wq_items q = [] ∧ wq_non_block q = true;
  wi_pausing : pausing (w_pc w) = true → do_pause w = true;
  wi_paused : paused w = waiting (w_pc w);
  wi_pc : w_pc w ≠ PUnpause ∧ w_pc w ≠ PExit;
  wi_lock : lock = Some (OwnedByWorker i) ↔ holds_lock (w_pc w) = true
}.

Definition main_holds (m : main_pc) : bool := match m with MWaitFor | MCheck => true | _ => false end.

(** The flags already set. *)
Definition set_before (m : main_pc) (n : N) : option N :=
  match m with
  | MFlush => Some 0
  | MPause i => Some i
  | MLock | MWaitFor | MSleep | MCheck | MFlushed => Some n
  | _ => None
  end.

Record flush_inv (n : N) (todo : list (N * list N)) g : Prop := {
  fi_n : length (workers g) = N.to_nat n;
  fi_workers i w : workers g !! i = Some w → worker_inv (gts g) (flush_lock g) i w;
  fi_set : ∃ k, set_before (main g) n = Some k ∧ k ≤ n ∧
    ∀ i w, i < k → workers g !! i = Some w → do_pause w = true;
  fi_block : main g ≠ MFlush → wq_non_block (gts g) = true;
  fi_main : flush_lock g = Some OwnedByMain ↔ main_holds (main g) = true;
  fi_owner i : flush_lock g = Some (OwnedByWorker i) → i < n;
  fi_done : main g = MFlushed → all_paused g = true;
  fi_log : (strip <$> log g) ++ pending g ≡ₚ todo
}.

(** Where a flush may start: no worker stands between an empty-handed return of
    [get_data] and its next call. *)
Definition ready_to_flush g : Prop :=
  main g = MFlush ∧ flush_lock g = None ∧
  ∀ i w, workers g !! i = Some w → past_get (w_pc w) = false ∧
    shutdown w = false ∧ do_pause w = false ∧ paused w = false.

Definition ready_to_flushb g : bool :=
  match main g, flush_lock g with
  | MFlush, None =>
      forallb (λ w, negb (past_get (w_pc w) || shutdown w || do_pause w || paused w)) (workers g)
  | _, _ => false
  end.

Lemma ready_to_flushb_sound g : ready_to_flushb g = true → ready_to_flush g.
Proof using .
  unfold ready_to_flushb, ready_to_flush. destruct (main g), (flush_lock g); try done. intros Hw.
  split; [done|]. split; [done|]. intros i w Hi. rewrite forallb_True, Forall_forall in Hw || rewrite forallb_forall in Hw.
  specialize (Hw w). apply list_elem_of_lookup_2 in Hi. apply list_elem_of_In in Hi. specialize (Hw Hi).
  destruct (past_get (w_pc w)), (shutdown w), (do_pause w), (paused w); done.
Qed.

Lemma flush_inv_start g : ready_to_flush g →
  flush_inv (num_workers g) ((strip <$> log g) ++ pending g) g.
Proof using .
  intros (Hm & Hl & Hw). split; try done.
  - unfold num_workers. by rewrite Nat2N.id.
  - intros i w Hi. destruct (Hw i w Hi) as (Hp & Hs & Hd & Hpa). split; [done|by rewrite Hp|..].
    + by destruct (w_pc w).
    + rewrite Hpa. by destruct (w_pc w).
    + by destruct (w_pc w).
    + rewrite Hl. by destruct (w_pc w).
  - rewrite Hm. exists 0. split; [done|]. split; [lia|]. intros i w Hi. lia.
  - by rewrite Hm, Hl.
  - intros i. by rewrite Hl.
  - by rewrite Hm.
Qed.

(** ** Changing one worker *)

Lemma bind_insert_swap {A B} (f : A → list B) (l : list A) (i : nat) x y : l !! i = Some x →
  (<[i := y]> l ≫= f) ++ f x ≡ₚ (l ≫= f) ++ f y.
Proof using .
  intros Hx. rewrite (insert_take_drop l i y) by (by eapply lookup_lt_Some).
  rewrite <-(take_drop_middle l i x Hx) at 3. rewrite !bind_app. cbn [mbind list_bind].
  rewrite <-!app_assoc. apply Permutation_app_head. set (d := _ ≫= f).
  rewrite (Permutation_app_comm d (f x)), app_assoc, (Permutation_app_comm (f y) (f x)), <-app_assoc.
  apply Permutation_app_head, Permutation_app_comm.
Qed.

(** ** What a worker's step does, in any state *)

(** How the queue may have changed. *)
Definition queue_step (q q' : Q) : Prop :=
  q' = q ∨ (∃ r, get_data q = Some (r, q')) ∨ ∃ x, q' = get_data_callback x q.

(** The batch applied, if any. *)
Definition applied (i : N) (new : list batch) : Prop :=
  new = [] ∨ ∃ v dsts, new = [(i, v, dsts)] ∧ (0 < length dsts)%nat.

Lemma do_work_effect i w g g' : do_work i w g = Some g' →
  ∃ w' new, workers g' = <[i := w']> (workers g) ∧ main g' = main g ∧
    queue_step (gts g) (gts g') ∧ log g' = log g ++ new ∧ applied i new ∧
    (strip <$> new) ++ in_progress w' ++ queued (gts g') ≡ₚ in_progress w ++ queued (gts g).
Proof using WQL.
  unfold do_work, in_progress, queue_step. intros E. destruct w as [pc sh dp pa].
  cbn [w_pc shutdown do_pause paused] in *.
  assert (∀ g' w', g' = put_worker i w' g → in_progress w' = [] → ∃ w' new,
    workers g' = <[i := w']> (workers g) ∧ main g' = main g ∧
    (gts g' = gts g ∨ (∃ r, get_data (gts g) = Some (r, gts g')) ∨ ∃ x, gts g' = get_data_callback x (gts g)) ∧
    log g' = log g ++ new ∧ applied i new ∧
    (strip <$> new) ++ in_progress w' ++ queued (gts g') ≡ₚ queued (gts g)) as Hidle.
  { intros h w' -> Hw'. exists w', []. simpl. rewrite app_nil_r, Hw'. split_and!; try done; by left. }
  destruct pc as [|x [|[v dsts] bs]| | | | | | | |]; simpl in *; try done.
  - destruct (get_data (gts g)) as [[[x|] q]|] eqn:Eg; [..|done]; injection E as <-.
    + destruct (get_data_item _ _ _ Eg) as [Hperm Hb]. eexists _, []. split; [done|]. simpl.
      rewrite app_nil_r. split_and!; try done; [right; left; eauto|by left|]. unfold queued. by rewrite Hperm.
    + destruct (get_data_nothing _ _ Eg) as (Hq & Hb & ->). eexists _, []. split; [done|]. simpl.
      rewrite app_nil_r. split_and!; try done; by left.
  - injection E as <-. eexists _, []. split; [done|]. simpl. rewrite app_nil_r.
    split_and!; try done; [right; right; eauto|by left|]. unfold queued. by rewrite callback_items.
  - injection E as <-. unfold nonempty at 2. rewrite filter_cons. cbn [snd].
    destruct (Nat.ltb_spec 0 (length dsts)) as [Hlen|Hlen]; simpl.
    + rewrite decide_True by done. eexists _, [(i, v, dsts)]. split; [done|].
      split_and!; try done; [by left|]. right. eauto.
    + rewrite decide_False by lia. eexists _, []. split; [done|]. simpl. rewrite app_nil_r. split_and!; try done; by left.
  - injection E as <-. by eapply Hidle; [|destruct sh].
  - injection E as <-. by eapply Hidle; [|destruct dp].
  - destruct (flush_lock g) as [o|]; [done|]. injection E as <-. eexists _, []. split; [done|]. simpl.
    rewrite app_nil_r. split_and!; try done; by left.
  - injection E as <-. by eapply Hidle.
  - destruct (negb dp || sh); injection E as <-; [by eapply Hidle|]. eexists _, []. split; [done|]. simpl.
    rewrite app_nil_r. split_and!; try done; by left.
  - destruct (flush_lock g) as [o|]; [done|]. injection E as <-. eexists _, []. split; [done|]. simpl.
    rewrite app_nil_r. split_and!; try done; by left.
  - injection E as <-. eexists _, []. split; [done|]. simpl. rewrite app_nil_r. split_and!; try done; by left.
Qed.

Lemma worker_step_effect i g g' : worker_step i g = Some g' →
  i < num_workers g ∧ num_workers g' = num_workers g ∧ main g' = main g ∧
  queue_step (gts g) (gts g') ∧ (∃ new, log g' = log g ++ new ∧ applied i new) ∧
  (strip <$> log g') ++ pending g' ≡ₚ (strip <$> log g) ++ pending g.
Proof using WQL.
  unfold worker_step. destruct (workers g !! i) as [w|] eqn:Hi; [|done]. cbn [mbind option_bind]. intros E.
  destruct (do_work_effect i w g g' E) as (w' & new & Ew & Em & Hq & El & Hnew & Hperm).
  split; [apply lookupN_lt_Some in Hi; unfold num_workers; lia|].
  split; [unfold num_workers; by rewrite Ew, length_insertN|]. split; [done|]. split; [done|].
  split; [by exists new|]. rewrite El, fmap_app, <-app_assoc. apply Permutation_app_head.
  unfold pending. rewrite Ew. rewrite lookupN_eq in Hi.
  pose proof (bind_insert_swap in_progress (workers g) (N.to_nat i) w w' Hi) as Hbi.
  change (<[N.to_nat i := w']> (workers g)) with (<[i := w']> (workers g)) in Hbi.
  apply (Permutation_app_inv_r (in_progress w)). revert Hbi Hperm.
  generalize (<[i := w']> (workers g) ≫= in_progress), (workers g ≫= in_progress), (in_progress w),
    (in_progress w'), (queued (gts g')), (queued (gts g)), (strip <$> new). clear.
  intros a b c d q q' l Hbi Hperm.
  transitivity (b ++ l ++ d ++ q).
  - rewrite <-!app_assoc, (Permutation_app_comm q c), (app_assoc a), Hbi, <-app_assoc, !app_assoc.
    apply Permutation_app_tail, Permutation_app_tail, Permutation_app_comm.
  - rewrite Hperm, <-app_assoc. apply Permutation_app_head, Permutation_app_comm.
Qed.

(** What a worker's step must keep, for the others to keep their invariant:
    a queue already empty, and who else owns the lock. *)
Lemma worker_inv_other q q' lock lock' i j w : i ≠ j →
  (wq_items q = [] → wq_non_block q = true → wq_items q' = [] ∧ wq_non_block q' = true) →
  (lock = lock' ∨ (lock = None ∨ lock = Some (OwnedByWorker i)) ∧ (lock' = None ∨ lock' = Some (OwnedByWorker i))) →
  worker_inv q lock j w → worker_inv q' lock' j w.
Proof using .
  intros Hij Hq Hl [Hs He Hp Hpa Hpc Hlk]. split; try done.
  - intros Hpg. destruct (He Hpg). auto.
  - destruct Hl as [<-|[Hl Hl']]; [done|]. rewrite <-Hlk.
    destruct Hl as [->| ->], Hl' as [->| ->]; split; intros [=]; congruence.
Qed.

(** The queue is only ever taken from. *)
Definition queue_shrinks (q q' : Q) : Prop :=
  wq_items q = [] → wq_non_block q = true → wq_items q' = [] ∧ wq_non_block q' = true.

Lemma get_data_shrinks q r q' : get_data q = Some (r, q') → queue_shrinks q q'.
Proof using WQL.
  intros E Hq Hb. destruct r as [x|].
  - destruct (get_data_item q x q' E) as [Hp _]. rewrite Hq in Hp. by apply Permutation_nil_cons in Hp.
  - by destruct (get_data_nothing q q' E) as (_ & _ & ->).
Qed.

Lemma all_paused_spec g : all_paused g = true ↔ ∀ (i : N) w, workers g !! i = Some w → paused w = true.
Proof using .
  unfold all_paused. rewrite forallb_forall. split.
  - intros Ha i w Hi. apply Ha, list_elem_of_In. by eapply list_elem_of_lookup_2.
  - intros Ha w [i Hi]%list_elem_of_In%list_elem_of_lookup. apply (Ha (N.of_nat i)). by rewrite lookupN_eq, Nat2N.id.
Qed.

(** The cases in which neither the queue nor the log changes. *)
Ltac settle He Hp Hlk :=
  simpl; split_and!; try done; try (by left);
  try (intros; congruence); try (right; split; first [by left|by right|right; by apply Hlk]);
  try (split; try done; simpl; by intros; first [apply He|rewrite Hp|apply Hlk]).

(** One step of worker [i], as a change of its own state, of the queue, of the
    lock and of the log. *)
Lemma do_work_inv n todo i w g g' : flush_inv n todo g → workers g !! i = Some w →
  do_work i w g = Some g' →
  ∃ w', workers g' = <[i := w']> (workers g) ∧ main g' = main g ∧
    worker_inv (gts g') (flush_lock g') i w' ∧ do_pause w' = do_pause w ∧
    (paused w = true → paused w' = true) ∧
    queue_shrinks (gts g) (gts g') ∧ wq_non_block (gts g') = wq_non_block (gts g) ∧
    (flush_lock g = flush_lock g' ∨
     (flush_lock g = None ∨ flush_lock g = Some (OwnedByWorker i)) ∧
     (flush_lock g' = None ∨ flush_lock g' = Some (OwnedByWorker i))).
Proof using WQL.
  intros HI Hi E. destruct (fi_workers _ _ _ HI i w Hi) as [Hs He Hp Hpa [Hpc1 Hpc2] Hlk].
  unfold do_work in E. destruct w as [pc sh dp pa]. cbn [w_pc shutdown do_pause paused] in *. subst sh.
  destruct pc as [|x [|[v dsts] bs]| | | | | | | |]; simpl in *; try done.
  - destruct (get_data (gts g)) as [[[x|] q]|] eqn:Eg; [..|done]; injection E as <-.
    + destruct (get_data_item _ _ _ Eg) as [Hperm Hb]. eexists. split; [done|]. simpl. split_and!; try done.
      * by apply (get_data_shrinks _ (Some x)).
      * by left.
    + destruct (get_data_nothing _ _ Eg) as (Hq & Hb & ->). eexists. split; [done|]. by settle He Hp Hlk.
  - injection E as <-. eexists. split; [done|]. simpl. split_and!; try done.
    + intros Hq Hb. simpl. by rewrite callback_items, callback_flag.
    + apply callback_flag.
    + by left.
  - injection E as <-. eexists. split; [by destruct (0 <? _)%nat|].
    destruct (0 <? length dsts)%nat; by settle He Hp Hlk.
  - injection E as <-. eexists. split; [done|]. by settle He Hp Hlk.
  - injection E as <-. eexists. split; [done|]. destruct dp; by settle He Hp Hlk.
  - destruct (flush_lock g) as [o|] eqn:El; [done|]. injection E as <-. eexists. split; [done|]. by settle He Hp Hlk.
  - injection E as <-. eexists. split; [done|]. by settle He Hp Hlk.
  - assert (dp = true) as -> by auto. simpl in E. injection E as <-. eexists. split; [done|]. by settle He Hp Hlk.
  - destruct (flush_lock g) as [o|] eqn:El; [done|]. injection E as <-. eexists. split; [done|]. by settle He Hp Hlk.
Qed.

Lemma worker_step_inv n todo i g g' : flush_inv n todo g → worker_step i g = Some g' → flush_inv n todo g'.
Proof using WQL.
  intros HI E0. pose proof E0 as E. unfold worker_step in E. destruct (workers g !! i) as [w|] eqn:Hi; [|done]. simpl in E.
  destruct (do_work_inv n todo i w g g' HI Hi E) as (w' & Ew & Em & Hw' & Hdp & Hpp & Hq & Hb & Hl).
  pose proof HI as [Hn Hall (k & Hk & Hkn & Hset) Hblk Hmain Hown Hdone Hperm].
  assert (i < n) as Hin by (apply lookupN_lt_Some in Hi; lia).
  split.
  - by rewrite Ew, length_insertN.
  - intros j wj Hj. rewrite Ew in Hj. destruct (decide (j = i)) as [->|Hne].
    + rewrite lookupN_insert_eq in Hj by lia. by injection Hj as <-.
    + rewrite lookupN_insert_ne in Hj by done. apply (worker_inv_other (gts g) _ (flush_lock g) _ i); auto.
  - exists k. rewrite Em. split; [done|]. split; [done|]. intros j wj Hjk Hj. rewrite Ew in Hj.
    destruct (decide (j = i)) as [->|Hne].
    + rewrite lookupN_insert_eq in Hj by lia. injection Hj as <-. rewrite Hdp. by apply (Hset i).
    + rewrite lookupN_insert_ne in Hj by done. by apply (Hset j).
  - rewrite Em, Hb. exact Hblk.
  - rewrite Em. destruct Hl as [<-|[Hl Hl']]; [done|]. rewrite <-Hmain.
    destruct Hl as [->| ->], Hl' as [->| ->]; done.
  - intros j Hj. destruct Hl as [Hl|[_ [Hl'|Hl']]]; [rewrite <-Hl in Hj; auto|congruence|].
    rewrite Hl' in Hj. by injection Hj as <-.
  - rewrite Em. intros Hm. apply all_paused_spec. intros j wj Hj. rewrite Ew in Hj.
    pose proof (proj1 (all_paused_spec g) (Hdone Hm)) as Hp. destruct (decide (j = i)) as [->|Hne].
    + rewrite lookupN_insert_eq in Hj by lia. injection Hj as <-. by apply Hpp, (Hp i).
    + rewrite lookupN_insert_ne in Hj by done. by apply (Hp j).
  - rewrite <-Hperm. by apply (worker_step_effect i).
Qed.

(** ** The steps of [flush_workers] *)

(** Only the counter and the lock change. *)
Lemma main_inv n todo g m lock : flush_inv n todo g → main_holds m = bool_decide (lock = Some OwnedByMain) →
  (lock = flush_lock g ∨ (flush_lock g = None ∨ flush_lock g = Some OwnedByMain) ∧ (lock = None ∨ lock = Some OwnedByMain)) →
  set_before m n = Some n → main g ≠ MFlush → (∀ i w, workers g !! i = Some w → do_pause w = true) →
  (m = MFlushed → all_paused g = true) →
  flush_inv n todo (set_main m (set_lock lock g)).
Proof using .
  intros [Hn Hall Hset Hblk Hmain Hown Hdone Hperm] Hm Hl Hs Hnf Hd Hp. split; simpl; try done.
  - intros i w Hi. specialize (Hall i w Hi). destruct Hl as [->|[Hl Hl']]; [done|].
    destruct Hall as [? ? ? ? ? Hlk]. split; try done. rewrite <-Hlk.
    destruct Hl as [->| ->], Hl' as [->| ->]; split; done.
  - exists n. split; [done|]. split; [done|]. eauto.
  - auto.
  - by rewrite Hm, bool_decide_eq_true.
  - intros i Hi. destruct Hl as [->|[_ [->| ->]]]; [auto|done|done].
Qed.

Lemma flush_set_all n todo g : flush_inv n todo g → set_before (main g) n = Some n →
  ∀ i w, workers g !! i = Some w → do_pause w = true.
Proof using .
  intros [Hn _ (k & Hk & _ & Hs) _ _ _ _ _] E i w Hi. rewrite E in Hk. injection Hk as <-.
  apply (Hs i w); [|done]. apply lookupN_lt_Some in Hi. lia.
Qed.

Lemma flush_workers_inv n todo t g g' : flush_inv n todo g → flush_workers t g = Some g' → flush_inv n todo g'.
Proof using WQL.
  intros HI E. pose proof (flush_set_all n todo g HI) as Hset. pose proof (main_inv n todo g) as Hgen.
  pose proof HI as [Hn Hall Hs Hblk Hmain Hown Hdone Hperm]. unfold flush_workers in E.
  assert (num_workers g = n) as Hnw by (unfold num_workers; lia).
  destruct (main g) as [| |i| | | | | | | | | | |] eqn:Em; try done.
  - injection E as <-. destruct Hs as (k & [= <-] & _ & _). split; simpl; try done.
    + intros i w Hi. destruct (Hall i w Hi) as [? He ? ? ? ?]. split; try done. intros Hp.
      rewrite set_non_block_items, set_non_block_flag. by split; [apply He|].
    + exists 0. split; [done|]. split; [lia|]. lia.
    + intros _. apply set_non_block_flag.
    + rewrite <-Hperm. unfold pending, queued. simpl. by rewrite set_non_block_items.
  - rewrite Hnw in E. destruct Hs as (k & [= <-] & Hk & Hs). destruct (N.ltb_spec i n) as [Hlt|Hge]; injection E as <-.
    + destruct (lookupN_lt_is_Some (workers g) i) as [w Hw]; [lia|]. unfold update_worker. rewrite Hw.
      split; simpl; try done.
      * by rewrite length_insertN.
      * intros j wj Hj. destruct (decide (j = i)) as [->|Hne].
        -- rewrite lookupN_insert_eq in Hj by lia. injection Hj as <-. by destruct (Hall i w Hw).
        -- rewrite lookupN_insert_ne in Hj by done. auto.
      * exists (i + 1). split; [done|]. split; [lia|]. intros j wj Hji Hj. destruct (decide (j = i)) as [->|Hne].
        -- rewrite lookupN_insert_eq in Hj by lia. by injection Hj as <-.
        -- rewrite lookupN_insert_ne in Hj by done. apply (Hs j); [lia|done].
      * auto.
      * rewrite <-Hperm. unfold pending. simpl. do 2 f_equiv. rewrite lookupN_eq in Hw.
        pose proof (bind_insert_swap in_progress (workers g) (N.to_nat i) w (pause w) Hw) as Hbi.
        by apply Permutation_app_inv_r in Hbi.
    + assert (i = n) as -> by lia. split; simpl; try done; [|by auto].
      exists n. split; [done|]. split; [done|]. intros j wj Hj Hw. by apply (Hs j).
  - destruct (flush_lock g) eqn:El; [done|]. injection E as <-.
    apply Hgen; try done; [right; split; auto|by apply Hset].
  - destruct (all_paused g) eqn:Ea; injection E as <-.
    + change (set_main MCheck g) with (set_main MCheck (set_lock (flush_lock g) g)).
      apply Hgen; try done; [|by left|by apply Hset]. simpl. symmetry. apply bool_decide_eq_true. by apply Hmain.
    + apply Hgen; try done; [|by apply Hset]. right. split; [right; by apply Hmain|by left].
  - destruct (flush_lock g) eqn:El; [done|]. injection E as <-.
    destruct t; (apply Hgen; try done; [right; split; auto|by apply Hset]).
  - injection E as <-. destruct (all_paused g) eqn:Ea;
      (apply Hgen; try done; [right; split; [right; by apply Hmain|by left]|by apply Hset]).
Qed.

Lemma flush_step_inv n todo g g' : flush_inv n todo g → flush_step g g' → flush_inv n todo g'.
Proof using WQL.
  intros HI Hs. destruct Hs as [i g g' E|t g g' E]; [exact (worker_step_inv n todo i g g' HI E)|exact (flush_workers_inv n todo t g g' HI E)].
Qed.

Lemma flush_steps_inv n todo g g' : rtc flush_step g g' → flush_inv n todo g → flush_inv n todo g'.
Proof using WQL. induction 1; [done|]. intros HI. eauto using flush_step_inv. Qed.

(** When the flush has returned, nothing is pending. *)
Lemma flushed_drained n todo g : flush_inv n todo g → main g = MFlushed → 0 < n →
  wq_items (gts g) = [] ∧ (strip <$> log g) ≡ₚ todo ∧
  ∀ i w, workers g !! i = Some w → paused w = true ∧ waiting (w_pc w) = true.
Proof using .
  intros [Hn Hall _ _ _ _ Hdone Hperm] Hm Hpos. pose proof (proj1 (all_paused_spec g) (Hdone Hm)) as Hp.
  assert (∀ i w, workers g !! i = Some w → paused w = true ∧ waiting (w_pc w) = true) as Hw.
  { intros i w Hi. split; [by apply (Hp i)|]. rewrite <-(wi_paused _ _ _ _ (Hall i w Hi)). by apply (Hp i). }
  assert (wq_items (gts g) = []) as Hq.
  { destruct (lookupN_lt_is_Some (workers g) 0) as [w H0]; [lia|]. apply (wi_empty _ _ _ _ (Hall 0 w H0)).
    destruct (Hw 0 w H0) as [_ Hwt]. by destruct (w_pc w). }
  split; [done|]. split; [|done]. rewrite <-Hperm. unfold pending, queued. rewrite Hq. simpl. rewrite app_nil_r.
  assert (workers g ≫= in_progress = []) as ->; [|by rewrite app_nil_r].
  assert (∀ l : list (WorkerThread item), (∀ w, w ∈ l → in_progress w = []) → l ≫= in_progress = []) as Hnil.
  { induction l as [|w l IH]; intros Hl; [done|]. simpl. rewrite Hl by left. apply IH. intros. apply Hl. by right. }
  apply Hnil. intros w [i Hi]%list_elem_of_lookup. destruct (Hw (N.of_nat i) w) as [_ Hwt].
  { by rewrite lookupN_eq, Nat2N.id. } unfold in_progress. by destruct (w_pc w).
Qed.

(** * The flush can always finish *)

Fixpoint weight {A} (f : A → nat) (l : list A) : nat :=
  match l with [] => 0%nat | x :: l => (f x + weight f l)%nat end.

Lemma weight_perm {A} (f : A → nat) l l' : l ≡ₚ l' → weight f l = weight f l'.
Proof using . induction 1; simpl; lia. Qed.

Lemma weight_insert {A} (f : A → nat) l (i : N) x y : l !! i = Some x →
  (weight f (<[i := y]> l) + f x = weight f l + f y)%nat.
Proof using .
  rewrite lookupN_eq. unfold insert, list_insertN. generalize (N.to_nat i). clear i.
  induction l as [|z l IH]; intros [|i] Hx; simpl in *; [done|done|injection Hx as ->; lia|].
  specialize (IH i Hx). lia.
Qed.

(** What is left to do before every worker waits. *)
Definition worker_weight w : nat :=
  match w_pc w with
  | PBatches _ todo => 8 + length todo
  | PGet => 7
  | PTestShutdown => 6
  | PTestPause => 5
  | PLock => 4
  | PPause => 3
  | PTestWait => 2
  | _ => 0
  end.

Definition group_weight g : nat :=
  weight worker_weight (workers g) + weight (λ x, 3 + length (get_batches x))%nat (wq_items (gts g)).

Definition late (m : main_pc) : bool :=
  match m with MLock | MWaitFor | MSleep | MCheck | MFlushed => true | _ => false end.

Lemma late_set m n : late m = true → set_before m n = Some n ∧ m ≠ MFlush.
Proof using . by destruct m. Qed.

Ltac weigh Hwi :=
  cbn [gts workers put_worker set_gts set_lock batch_callback];
  match goal with |- context [<[_ := ?w']> (workers _)] => specialize (Hwi w') end;
  cbv [worker_weight w_pc set_pc set_paused shutdown do_pause paused] in Hwi |- *; simpl in Hwi |- *; lia.

(** A worker that is not waiting can move, unless it needs the lock. *)
Lemma worker_moves n todo g i w : flush_inv n todo g → late (main g) = true → workers g !! i = Some w →
  w_pc w ≠ PWait → (w_pc w = PLock → flush_lock g = None) →
  ∃ g', worker_step i g = Some g' ∧ main g' = main g ∧ (group_weight g' < group_weight g)%nat.
Proof using WQL.
  intros HI Hlate Hi Hpc Hlk. destruct (late_set (main g) n Hlate) as [Hset Hnf].
  pose proof (flush_set_all n todo g HI Hset i w Hi) as Hdp.
  destruct (fi_workers _ _ _ HI i w Hi) as [Hs _ _ _ [Hpc1 Hpc2] _].
  pose proof (λ w', weight_insert worker_weight (workers g) i w w' Hi) as Hwi.
  unfold worker_step. rewrite Hi. cbn [mbind option_bind]. unfold do_work, group_weight.
  destruct w as [pc sh dp pa]. cbn [w_pc shutdown do_pause paused] in *. subst sh dp.
  destruct pc as [|x [|[v dsts] bs]| | | | | | | |]; try done.
  - destruct (get_data_returns (gts g)) as [[[x|] q] Eg]; [by apply (fi_block _ _ _ HI)|..]; rewrite Eg.
    + destruct (get_data_item _ _ _ Eg) as [Hp _]. eexists. split; [done|]. split; [done|].
      rewrite (weight_perm _ _ _ Hp). weigh Hwi.
    + destruct (get_data_nothing _ _ Eg) as (_ & _ & ->). eexists. split; [done|]. split; [done|].
      weigh Hwi.
  - eexists. split; [done|]. split; [done|]. cbn [gts put_worker set_gts]. rewrite callback_items.
    weigh Hwi.
  - eexists. split; [done|]. destruct (0 <? length dsts)%nat; (split; [done|]);
    weigh Hwi.
  - eexists. split; [done|]. split; [done|]. weigh Hwi.
  - eexists. split; [done|]. split; [done|]. weigh Hwi.
  - rewrite Hlk by done. eexists. split; [done|]. split; [done|].
    weigh Hwi.
  - eexists. split; [done|]. split; [done|]. weigh Hwi.
  - eexists. split; [done|]. split; [done|]. weigh Hwi.
Qed.

(** The steps of a flush in which no worker leaves its wait. *)
Inductive quiet_flush_step : relation (WorkerThreadGroup Q item) :=
| QuietWorker i w g g' : workers g !! i = Some w → w_pc w ≠ PWait → worker_step i g = Some g' → quiet_flush_step g g'
| QuietMain timeout g g' : flush_workers timeout g = Some g' → quiet_flush_step g g'.

Lemma quiet_flush_steps g g' : rtc quiet_flush_step g g' → rtc flush_step g g'.
Proof using . apply rtc_subrel. intros x y [i w ? ? _ _ E|t ? ? E]; [by apply (FlushWorker i)|by apply (FlushMain t)]. Qed.

(** The flags get set. *)
Lemma setup_finishes n todo g : flush_inv n todo g →
  ∃ g', rtc quiet_flush_step g g' ∧ late (main g') = true.
Proof using WQL.
  intros HI.
  assert (∀ (k : nat) i g, flush_inv n todo g → main g = MPause i → N.to_nat n = (N.to_nat i + k)%nat →
    ∃ g', rtc quiet_flush_step g g' ∧ late (main g') = true) as Hpause.
  { induction k as [|k IH]; intros i h HI' Hm Hk.
    - exists (set_main MLock h). split; [|done]. apply rtc_once, (QuietMain false). unfold flush_workers.
      rewrite Hm. unfold num_workers. rewrite (fi_n _ _ _ HI').
      by rewrite (proj2 (N.ltb_ge _ _)) by lia.
    - assert (flush_workers false h = Some (set_main (MPause (i + 1)) (update_worker i pause h))) as E.
      { unfold flush_workers. rewrite Hm. unfold num_workers. rewrite (fi_n _ _ _ HI').
        by rewrite (proj2 (N.ltb_lt _ _)) by lia. }
      destruct (IH (i + 1) _ (flush_workers_inv _ _ _ _ _ HI' E)) as (g' & Hg & Hl); [done|lia|].
      exists g'. split; [|done]. eapply rtc_l; [by apply (QuietMain false)|exact Hg]. }
  pose proof (fi_set _ _ _ HI) as (k & Hk & Hkn & _). destruct (main g) as [| |i| | | | | | | | | | |] eqn:Em; try done.
  - assert (flush_workers false g = Some (set_main (MPause 0) (set_gts (set_non_block true (gts g)) g))) as E.
    { unfold flush_workers. by rewrite Em. }
    destruct (Hpause (N.to_nat n) 0 _ (flush_workers_inv _ _ _ _ _ HI E)) as (g' & Hg & Hl); [done|lia|].
    exists g'. split; [|done]. eapply rtc_l; [by apply (QuietMain false)|exact Hg].
  - injection Hk as ->. apply (Hpause (N.to_nat n - N.to_nat k)%nat k g HI Em). lia.
  - exists g. split; [done|]. by rewrite Em.
  - exists g. split; [done|]. by rewrite Em.
  - exists g. split; [done|]. by rewrite Em.
  - exists g. split; [done|]. by rewrite Em.
  - exists g. split; [done|]. by rewrite Em.
Qed.

(** Main lets go of the lock while some worker is not waiting. *)
Lemma main_releases n todo g i w : flush_inv n todo g → flush_lock g = Some OwnedByMain →
  workers g !! i = Some w → w_pc w ≠ PWait →
  ∃ g', flush_workers true g = Some g' ∧ late (main g') = true ∧ flush_lock g' = None ∧
    workers g' = workers g ∧ gts g' = gts g.
Proof using WQL.
  intros HI Hl Hi Hpc. pose proof (proj1 (fi_main _ _ _ HI) Hl) as Hm.
  assert (all_paused g = false) as Ha.
  { apply not_true_is_false. intros Ha. pose proof (proj1 (all_paused_spec g) Ha i w Hi) as Hp.
    destruct (fi_workers _ _ _ HI i w Hi) as [_ _ _ Hpa _ Hlk]. rewrite Hp in Hpa.
    destruct (w_pc w); try done. destruct Hlk as [_ Hlk]. by rewrite Hlk in Hl. }
  unfold flush_workers. destruct (main g); try done; rewrite Ha; by eexists.
Qed.

(** Every worker waits: the flush returns. *)
Lemma all_waiting_finishes n todo g : flush_inv n todo g → late (main g) = true →
  (∀ i w, workers g !! i = Some w → w_pc w = PWait) →
  ∃ g', rtc quiet_flush_step g g' ∧ main g' = MFlushed.
Proof using WQL.
  intros HI Hlate Hw. assert (all_paused g = true) as Ha.
  { apply all_paused_spec. intros i w Hi. rewrite (wi_paused _ _ _ _ (fi_workers _ _ _ HI i w Hi)).
    by rewrite (Hw i w Hi). }
  assert (flush_lock g = None ∨ flush_lock g = Some OwnedByMain) as Hl.
  { destruct (flush_lock g) as [[i|]|] eqn:El; [|by right|by left]. exfalso.
    pose proof (fi_owner _ _ _ HI i El) as Hin. pose proof (fi_n _ _ _ HI) as Hn.
    destruct (lookupN_lt_is_Some (workers g) i) as [w Hi]; [lia|].
    pose proof (proj1 (wi_lock _ _ _ _ (fi_workers _ _ _ HI i w Hi)) El) as Hh. by rewrite (Hw i w Hi) in Hh. }
  assert (∀ h, all_paused h = true → main h = MCheck → ∃ g', rtc quiet_flush_step h g' ∧ main g' = MFlushed) as Hcheck.
  { intros h Hp Hm. eexists. split; [apply rtc_once, (QuietMain true); unfold flush_workers; by rewrite Hm, Hp|done]. }
  assert (∀ h, all_paused h = true → main h = MWaitFor → ∃ g', rtc quiet_flush_step h g' ∧ main g' = MFlushed) as Hwait.
  { intros h Hp Hm. destruct (Hcheck (set_main MCheck h) Hp eq_refl) as (g' & Hg & Hf). exists g'.
    split; [|done]. eapply rtc_l; [apply (QuietMain true); unfold flush_workers; by rewrite Hm, Hp|done]. }
  pose proof (fi_main _ _ _ HI) as Hm. destruct (main g) eqn:Em; try done.
  - destruct Hl as [Hl|Hl]; [|by apply Hm in Hl].
    destruct (Hwait (set_main MWaitFor (set_lock (Some OwnedByMain) g)) Ha eq_refl) as (g' & Hg & Hf). exists g'.
    split; [|done]. eapply rtc_l; [apply (QuietMain true); unfold flush_workers; by rewrite Em, Hl|done].
  - by apply Hwait.
  - destruct Hl as [Hl|Hl]; [|by apply Hm in Hl].
    destruct (Hcheck (set_main MCheck (set_lock (Some OwnedByMain) g)) Ha eq_refl) as (g' & Hg & Hf). exists g'.
    split; [|done]. eapply rtc_l; [apply (QuietMain true); unfold flush_workers; by rewrite Em, Hl|done].
  - by apply Hcheck.
  - by exists g.
Qed.

#[local] Instance pc_wait_dec w : Decision (w_pc w = PWait).
Proof using . destruct (w_pc w); first [by left|by right]. Defined.

(** A worker that is not waiting makes progress, after main or the worker that
    owns the lock. *)
Lemma not_all_waiting n todo g : flush_inv n todo g → late (main g) = true →
  ¬ Forall (λ w, w_pc w = PWait) (workers g) →
  ∃ g', rtc quiet_flush_step g g' ∧ late (main g') = true ∧ (group_weight g' < group_weight g)%nat.
Proof using WQL.
  intros HI Hlate [w [Hin Hpc]]%not_Forall_Exists%Exists_exists; [|apply _].
  apply list_elem_of_lookup in Hin as [i0 Hi]. set (i := N.of_nat i0).
  assert (workers g !! i = Some w) as Hi' by (unfold i; by rewrite lookupN_eq, Nat2N.id). clear Hi. clearbody i.
  assert (∀ h, flush_inv n todo h → late (main h) = true → flush_lock h = None → workers h !! i = Some w →
    ∃ g', rtc quiet_flush_step h g' ∧ late (main g') = true ∧ (group_weight g' < group_weight h)%nat) as Hfree.
  { intros h HIh Hlh Hfree Hih. destruct (worker_moves n todo h i w HIh Hlh Hih Hpc) as (g' & E & Em & Hlt); [done|].
    exists g'. split; [by apply rtc_once, (QuietWorker i w)|]. by rewrite Em. }
  destruct (flush_lock g) as [[j|]|] eqn:El; [| |by apply Hfree].
  - pose proof (fi_owner _ _ _ HI j El) as Hj. pose proof (fi_n _ _ _ HI) as Hn.
    destruct (lookupN_lt_is_Some (workers g) j) as [wj Hwj]; [lia|].
    pose proof (proj1 (wi_lock _ _ _ _ (fi_workers _ _ _ HI j wj Hwj)) El) as Hh.
    destruct (worker_moves n todo g j wj HI Hlate Hwj) as (g' & E & Em & Hlt); [by intros Ep; rewrite Ep in Hh..|].
    exists g'. split; [apply rtc_once, (QuietWorker j wj); [done|by intros Ep; rewrite Ep in Hh|done]|]. by rewrite Em.
  - destruct (main_releases n todo g i w HI El Hi' Hpc) as (h & E & Hlh & Hl & Ew & Eq).
    destruct (Hfree h (flush_workers_inv _ _ _ _ _ HI E) Hlh Hl) as (g' & Hg & Hl' & Hlt); [by rewrite Ew|].
    exists g'. split; [eapply rtc_l; [by apply (QuietMain true)|done]|]. split; [done|].
    unfold group_weight in Hlt at 2. rewrite Ew, Eq in Hlt. exact Hlt.
Qed.

(** The flush needs no wait to end but its own, which has a timeout. *)
Lemma flush_finishes n todo g : flush_inv n todo g → ∃ g', rtc quiet_flush_step g g' ∧ main g' = MFlushed.
Proof using WQL.
  intros HI. destruct (setup_finishes n todo g HI) as (g1 & H1 & Hlate).
  destruct (rtc_measure quiet_flush_step (λ g, flush_inv n todo g ∧ late (main g) = true)
    (λ g, Forall (λ w, w_pc w = PWait) (workers g)) group_weight) with (x := g1) as (g2 & H2 & [HI2 Hl2] & Hall).
  - intros h [HIh Hlh]. destruct (decide (Forall (λ w, w_pc w = PWait) (workers h))) as [|Hex]; [by left|right].
    destruct (not_all_waiting n todo h HIh Hlh Hex) as (h' & Hs & Hl' & Hlt). exists h'. split; [done|]. split; [|done].
    split; [by eapply flush_steps_inv; [apply quiet_flush_steps|]|done].
  - split; [by eapply flush_steps_inv; [apply quiet_flush_steps|]|done].
  - destruct (all_waiting_finishes n todo g2 HI2 Hl2) as (g' & Hg & Hf).
    + intros i w Hi. apply (proj1 (Forall_forall _ _) Hall). by eapply list_elem_of_lookup_2.
    + exists g'. split; [|done]. etrans; [exact H1|]. by etrans.
Qed.

(** ** What the driving thread's steps do, in any state *)

Definition same_batches g g' : Prop :=
  num_workers g' = num_workers g ∧ log g' = log g ∧ pending g' ≡ₚ pending g ∧
  (gts g' = gts g ∨ ∃ b, gts g' = set_non_block b (gts g)).

Lemma update_worker_batches i f m g : (∀ w, in_progress (f w) = in_progress w) →
  same_batches g (set_main m (update_worker i f g)).
Proof using .
  intros Hf. unfold update_worker. destruct (workers g !! i) as [w|] eqn:Hi; [|by split_and!; try done; left].
  unfold same_batches, num_workers, pending. simpl. rewrite length_insertN. split_and!; try done; [|by left].
  f_equiv. rewrite lookupN_eq in Hi.
  pose proof (bind_insert_swap in_progress (workers g) (N.to_nat i) w (f w) Hi) as Hbi.
  rewrite Hf in Hbi. by apply Permutation_app_inv_r in Hbi.
Qed.

Lemma set_non_block_batches b m g : same_batches g (set_main m (set_gts (set_non_block b (gts g)) g)).
Proof using WQL.
  unfold same_batches, pending, queued. simpl. rewrite set_non_block_items. split_and!; try done. right. by exists b.
Qed.

Lemma same_batches_lock l m g : same_batches g (set_main m (set_lock l g)).
Proof using . split_and!; try done. by left. Qed.

Lemma flush_workers_batches t g g' : flush_workers t g = Some g' → same_batches g g'.
Proof using WQL.
  unfold flush_workers. intros E.
  destruct (main g) as [| |i| | | | | | | | | | |]; try done; repeat (case_match; try done); injection E as <-;
    first [apply set_non_block_batches|by apply update_worker_batches|apply same_batches_lock|
           by apply (same_batches_lock (flush_lock g))].
Qed.

Lemma resume_workers_batches g g' : resume_workers g = Some g' → same_batches g g'.
Proof using WQL.
  unfold resume_workers. intros E.
  destruct (main g) as [| |i| | | | | | | | | | |]; try done; repeat (case_match; try done); injection E as <-;
    first [apply set_non_block_batches|by apply update_worker_batches].
Qed.

End Flush.

(** * Theorems *)

Section Theorems.
Context {Q item : Type} `{WQL : WorkQueueLaws Q item}.
Implicit Type g : WorkerThreadGroup Q item.

(** C19. A flush drains the queue. If no worker starts [flush_workers] between
    an empty-handed return of [get_data] and its next call, then in every
    interleaving, when the call returns the queue is empty, every batch that was
    queued or in progress has been applied exactly once, and every worker waits
    for the resumption. *)
Theorem flush_drains g g' (Hready : ready_to_flush g) (Hpos : 0 < num_workers g)
    (Hsteps : rtc flush_step g g') (Hdone : main g' = MFlushed) :
  wq_items (gts g') = [] ∧ (strip <$> log g') ≡ₚ (strip <$> log g) ++ pending g ∧
  ∀ i w, workers g' !! i = Some w → paused w = true ∧ waiting (w_pc w) = true.
Proof using WQL.
  apply (flushed_drained (num_workers g)); [|done..].
  by apply (flush_steps_inv _ _ g); [|apply flush_inv_start].
Qed.

(** C20. A flush can always finish. From every state an interleaving of such a
    flush reaches, some continuation lets [flush_workers] return: no state on
    the way is a deadlock. *)
Theorem flush_can_finish g g' (Hready : ready_to_flush g) (Hsteps : rtc flush_step g g') :
  ∃ g'', rtc flush_step g' g'' ∧ main g'' = MFlushed.
Proof using WQL.
  destruct (flush_finishes (num_workers g) ((strip <$> log g) ++ pending g) g') as (g'' & Hs & Hm).
  - by apply (flush_steps_inv _ _ g); [|apply flush_inv_start].
  - exists g''. split; [by apply quiet_flush_steps|done].
Qed.
End Theorems.

(** ** A concrete queue *)

Record list_queue : Type := mkQueue { lq_items : list (list (N * list N)); lq_non_block : bool }.

#[export] Instance list_work_queue : WorkQueue list_queue (list (N * list N)) := {
  wq_items := lq_items;
  wq_non_block := lq_non_block;
  set_non_block b q := mkQueue (lq_items q) b;
  get_data q := match lq_items q with
                | x :: l => Some (Some x, mkQueue l (lq_non_block q))
                | [] => if lq_non_block q then Some (None, q) else None
                end;
  get_data_callback _ q := q;
  wq_put x q := mkQueue (lq_items q ++ [x]) (lq_non_block q);
  get_batches x := x
}.

#[export] Instance list_work_queue_laws : WorkQueueLaws list_queue (list (N * list N)).
Proof.
  split; simpl; try done.
  - intros [[|y l] b] x q' E; simpl in *; [by destruct b|]. by injection E as -> <-.
  - intros [[|y l] b] q' E; simpl in *; [|done]. destruct b; [|done]. by injection E as <-.
  - intros [[|y l] b] Hb; simpl in *; [|by eexists]. rewrite Hb. by eexists.
  - intros x q. simpl. by rewrite (comm app).
Qed.

Definition demo_group (k : N) : WorkerThreadGroup list_queue (list (N * list N)) :=
  WorkerThreadGroup_new k (mkQueue [] false).

(** Two workers and three items; the flush begins while worker 1 is applying. *)
Definition busy_moves : list (move (item := list (N * list N))) :=
  [MoveStart (CPut [(0, [1; 2]); (3, [])]); MoveStart (CPut [(2, [0])]); MoveWorker 1;
   MoveStart (CPut [(4, [3])]); MoveStart CFlush].

Definition flush_moves : list (N + bool) :=
  [inr false; inl 0; inr false; inr false; inr false; inr false; inl 1] ++
  [inr false] ++ replicate 11 (inl 0) ++ replicate 8 (inl 1) ++ replicate 2 (inr true).

Definition busy_group : WorkerThreadGroup list_queue (list (N * list N)) := execute busy_moves (demo_group 2).

Lemma busy_ready : ready_to_flush busy_group.
Proof.
  split; [reflexivity|split; [reflexivity|]]. intros i w Hi. rewrite lookupN_eq in Hi. revert Hi.
  destruct (N.to_nat i) as [|[|k]]; vm_compute; intros E; [injection E as <-..|done]; done.
Qed.

Lemma flush_drains_witness : ∃ g', rtc flush_step busy_group g' ∧ main g' = MFlushed ∧
  (strip <$> log g') ≡ₚ [(0, [1; 2]); (2, [0]); (4, [3])].
Proof.
  pose proof (flush_execute_steps flush_moves busy_group) as Hsteps.
  assert (main (flush_execute flush_moves busy_group) = MFlushed) as Hm by (vm_compute; reflexivity).
  destruct (flush_drains busy_group _ busy_ready ltac:(reflexivity) Hsteps Hm) as (_ & Hlog & _).
  exists (flush_execute flush_moves busy_group). split; [exact Hsteps|]. split; [exact Hm|]. exact Hlog.
Defined.

Lemma flush_can_finish_witness :
  ∃ g'', rtc flush_step (flush_execute (take 5 flush_moves) busy_group) g'' ∧ main g'' = MFlushed.
Proof. exact (flush_can_finish busy_group _ busy_ready (flush_execute_steps (take 5 flush_moves) busy_group)). Defined.

(** ** Two runs the hypothesis excludes *)

(** The only worker pauses on an empty queue. *)
Definition first_flush : list (move (item := list (N * list N))) :=
  [MoveStart CFlush] ++ replicate 3 (MoveMain false) ++ replicate 6 (MoveWorker 0) ++ replicate 3 (MoveMain false).

(** It is resumed, but wakes up before [set_non_block(false)], returns from
    [get_data] empty-handed and stops there while a batch arrives. *)
Definition stale_moves : list (move (item := list (N * list N))) :=
  first_flush ++ [MoveStart CResume; MoveMain false; MoveMain false] ++ replicate 5 (MoveWorker 0) ++
  [MoveMain false; MoveStart (CPut [(0, [1])]); MoveStart CFlush] ++ replicate 3 (MoveMain false) ++
  replicate 4 (MoveWorker 0) ++ replicate 3 (MoveMain false).

(** A flush can miss batches. From the construction of a group of one
    worker there is an interleaving of flush, resume and flush in which the
    second flush returns although a batch put on the queue before it began has
    not been applied: the resumed worker's empty-handed return of [get_data]
    predates the batch, and it then sees the next [do_pause]. *)
Theorem flush_misses_batches :
  ∃ g : WorkerThreadGroup list_queue (list (N * list N)),
    rtc step (demo_group 1) g ∧ main g = MFlushed ∧
    wq_items (gts g) = [[(0, [1])]] ∧ log g = [].
Proof.
  exists (execute stale_moves (demo_group 1)). split; [apply execute_steps|].
  split; [|split]; vm_compute; reflexivity.
Qed.

(** A worker that waits with [do_pause] set and [paused] clear. *)
Definition lost (i : N) (g : WorkerThreadGroup list_queue (list (N * list N))) : Prop :=
  (∃ w, workers g !! i = Some w ∧ do_pause w = true ∧ paused w = false ∧ shutdown w = false ∧
     waiting (w_pc w) = true) ∧ main g ≠ MFlushed.

Lemma lost_worker_step i j g g' : lost i g → worker_step j g = Some g' → lost i g'.
Proof.
  intros [(w & Hi & Hd & Hp & Hs & Hpc) Hm] E. unfold worker_step in E.
  destruct (workers g !! j) as [wj|] eqn:Hj; [|done]. simpl in E.
  assert (main g' = main g ∧ ∃ wj', workers g' = <[j := wj']> (workers g) ∧
    (j = i → do_pause wj' = true ∧ paused wj' = false ∧ shutdown wj' = false ∧ waiting (w_pc wj') = true)) as [Em (wj' & Ew & Hw)].
  { destruct (decide (j = i)) as [->|Hne].
    - rewrite Hi in Hj. injection Hj as <-. unfold do_work in E. destruct w as [pc sh dp pa]. simpl in *. subst.
      destruct pc; try done; simpl in E.
      + injection E as <-. split; [done|]. eexists. split; [done|]. done.
      + destruct (flush_lock g); [done|]. injection E as <-. split; [done|]. eexists. split; [done|]. done.
    - unfold do_work in E. split; [|exists (default wj (workers g' !! j)); split; [|done]].
      + repeat (case_match; simplify_eq); simplify_eq; done.
      + assert (j < num_workers g) as Hlt by (apply lookupN_lt_Some in Hj; unfold num_workers; lia).
        assert (∀ x, <[j:=x]> (workers g) !! j = Some x) as Hins by (intros x; apply lookupN_insert_eq; unfold num_workers in Hlt; lia).
        repeat (case_match; simplify_eq); simplify_eq; simpl; by rewrite Hins. }
  split; [|by rewrite Em]. rewrite Ew. destruct (decide (j = i)) as [->|Hne].
  - exists wj'. split; [apply lookupN_insert_eq; apply lookupN_lt_Some in Hi; lia|]. auto.
  - exists w. by rewrite lookupN_insert_ne by done.
Qed.

Lemma lost_flush i t g g' : lost i g → flush_workers t g = Some g' → lost i g'.
Proof.
  intros [(w & Hi & Hd & Hp & Hs & Hpc) Hm] E.
  assert (all_paused g = false) as Ha.
  { apply not_true_is_false. intros Ha. pose proof (proj1 (all_paused_spec g) Ha i w Hi). congruence. }
  unfold flush_workers in E. rewrite Ha in E.
  destruct (main g) as [| |j| | | | | | | | | | |] eqn:Em; try done.
  - injection E as <-. split; [|done]. by exists w.
  - destruct (j <? num_workers g); injection E as <-; [|split; [by exists w|done]].
    split; [|done]. unfold update_worker. destruct (workers g !! j) as [wj|] eqn:Hj; [|by exists w].
    destruct (decide (j = i)) as [->|Hne].
    + exists (pause wj). simpl. split; [apply lookupN_insert_eq; apply lookupN_lt_Some in Hj; lia|].
      rewrite Hi in Hj. by injection Hj as <-.
    + exists w. simpl. by rewrite lookupN_insert_ne by done.
  - destruct (flush_lock g); [done|]. injection E as <-. split; [|done]. by exists w.
  - injection E as <-. split; [|done]. by exists w.
  - destruct (flush_lock g); [done|]. injection E as <-. split; [|by destruct t]. by exists w.
  - injection E as <-. split; [|done]. by exists w.
Qed.

(** The worker pauses, is resumed, and the next flush begins before it wakes up. *)
Definition hang_moves : list (move (item := list (N * list N))) :=
  first_flush ++ [MoveStart CResume] ++ replicate 3 (MoveMain false) ++ [MoveStart CFlush] ++ replicate 3 (MoveMain false).

(** C40. A flush right after a resumption can hang. From the construction of a
    group of one worker there is an interleaving that reaches a call of
    [flush_workers] which no continuation lets return: [unpause] has cleared
    [paused], but the worker, still in its wait, only sees [do_pause] set again,
    so it never reports that it is paused. *)
Theorem flush_can_hang :
  ∃ g : WorkerThreadGroup list_queue (list (N * list N)),
    rtc step (demo_group 1) g ∧ (∃ m, main g = m ∧ late m = true) ∧
    ∀ g', rtc flush_step g g' → main g' ≠ MFlushed.
Proof.
  exists (execute hang_moves (demo_group 1)). split; [apply execute_steps|]. split.
  - eexists. split; [vm_compute; reflexivity|reflexivity].
  - assert (lost 0 (execute hang_moves (demo_group 1))) as Hlost.
    { split; [|vm_compute; discriminate]. eexists. vm_compute. split; [reflexivity|done]. }
    intros g' Hsteps. assert (lost 0 g') as [_ Hm]; [|exact Hm].
    revert Hlost. generalize (execute hang_moves (demo_group 1)) as g, Hsteps. clear.
    intros g Hsteps. induction Hsteps as [|g h g' Hs _ IH]; [done|]. intros Hl. apply IH.
    destruct Hs as [j ? ? E|t ? ? E]; [by eapply lost_worker_step|by eapply lost_flush].
Qed.
