(* ===== verification/Driver.v ===== *)
(** The driver (include/graph_sketch_driver.h), instantiated with [CCSketchAlg].

    The stream threads of [process_stream_until], the workers and the thread
    that owns the driver interleave: one step is one call on the algorithm, the
    guttering system or the stream, or one step of file Workers. The guttering
    system and the stream are outside this repository and are interfaces. An
    exception that leaves a thread ends the process. *)
From stdpp Require Import relations.
From S2P Require Import Prelude Float64 Platform Util Sketch Dsu Config CCAlg Boruvka Session Workers.

Open Scope N_scope.

(** * What lies outside *)

(** The guttering system: what is inserted is buffered until it is put on the
    workers' queue. [buffered] is what has not been put there yet. *)
Class GutteringSystem (Q item : Type) `{WorkQueue Q item} : Type := {
  gts_insert : N * N → N → Q → Q;      (** the pair, the inserting thread *)
  force_flush : Q → Q;
  buffered : Q → list (N * N)
}.

Definition pairs (ps : list (N * list N)) : list (N * N) := ps ≫= λ p, (p.1,.) <$> p.2.

Definition contents `{GutteringSystem Q item} (q : Q) : list (N * N) :=
  pairs (wq_items q ≫= get_batches) ++ buffered q.

(** Nothing is lost or made up; a flush leaves nothing in the buffers. *)
Class GutteringLaws (Q item : Type) `{GutteringSystem Q item} : Prop := {
  guttering_queue :: WorkQueueLaws Q item;
  insert_contents e t q : contents (gts_insert e t q) ≡ₚ e :: contents q;
  flush_contents q : contents (force_flush q) ≡ₚ contents q;
  flush_buffered q : buffered (force_flush q) = [];
  get_data_buffered q r q' : get_data q = Some (r, q') → buffered q' = buffered q;
  callback_buffered x q : buffered (get_data_callback x q) = buffered q;
  set_non_block_buffered b q : buffered (set_non_block b q) = buffered q
}.

(** The stream. [is_breakpoint] recognises the update type that ends a call of
    [process_stream_until]. *)
Class GraphStream (S U : Type) : Type := {
  set_break_point : N → S → S * bool;
  get_update_buffer : N → S → S * list (GraphUpdate U);
  get_update_is_thread_safe : S → bool;
  is_breakpoint : U → bool
}.

(** * State *)

Definition update_array_size : N := 4000.

(** A stream thread: the pairs of the current update it still has to insert,
    the rest of its array, and whether a breakpoint ends it. *)
Record stream_thread (U : Type) : Type := mkStreamThread {
  t_inserts : list (N * N);
  t_updates : list (GraphUpdate U);
  t_done : bool
}.
Arguments mkStreamThread {U}.
Arguments t_inserts {U}.
Arguments t_updates {U}.
Arguments t_done {U}.

Inductive phase : Type :=
| PhIdle       (** in no method *)
| PhResume     (** [process_stream_until]: [resume_workers] *)
| PhStream     (** its stream threads *)
| PhFlush      (** [prep_query]: [flush_workers] *)
| PhExited     (** [exit(EXIT_FAILURE)] *)
| PhTerminated (** an exception left a thread, or undefined behaviour *).

(** [handled]: the updates given to [pre_insert], in order; for specification
    only. *)
Record GraphSketchDriver (Q item D S U : Type) : Type := mkDriver {
  worker_threads : WorkerThreadGroup Q item;
  sketching_alg : CCSketchAlg D;
  stream : S;
  num_stream_threads : N;
  total_updates : N;
  threads : list (stream_thread U);
  ph : phase;
  handled : list (GraphUpdate U)
}.
Arguments mkDriver {Q item D S U}.
Arguments worker_threads {Q item D S U}.
Arguments sketching_alg {Q item D S U}.
Arguments stream {Q item D S U}.
Arguments num_stream_threads {Q item D S U}.
Arguments total_updates {Q item D S U}.
Arguments threads {Q item D S U}.
Arguments ph {Q item D S U}.
Arguments handled {Q item D S U}.

Section Driver.
Context `{P : Platform} {Q item D S U : Type} `{GTS : GutteringSystem Q item} `{UF : UnionFind D}
  `{ST : GraphStream S U}.

Abbreviation driver := (GraphSketchDriver Q item D S U).
Implicit Type d : driver.

Definition set_group (g : WorkerThreadGroup Q item) d : driver :=
  mkDriver g (sketching_alg d) (stream d) (num_stream_threads d) (total_updates d) (threads d) (ph d) (handled d).
Definition set_alg (cc : CCSketchAlg D) d : driver :=
  mkDriver (worker_threads d) cc (stream d) (num_stream_threads d) (total_updates d) (threads d) (ph d) (handled d).
Definition set_stream (s : S) d : driver :=
  mkDriver (worker_threads d) (sketching_alg d) s (num_stream_threads d) (total_updates d) (threads d) (ph d) (handled d).
Definition set_total (k : N) d : driver :=
  mkDriver (worker_threads d) (sketching_alg d) (stream d) (num_stream_threads d) k (threads d) (ph d) (handled d).
Definition set_threads (ts : list (stream_thread U)) d : driver :=
  mkDriver (worker_threads d) (sketching_alg d) (stream d) (num_stream_threads d) (total_updates d) ts (ph d) (handled d).
Definition set_ph (p : phase) d : driver :=
  mkDriver (worker_threads d) (sketching_alg d) (stream d) (num_stream_threads d) (total_updates d) (threads d) p (handled d).
Definition add_handled (u : GraphUpdate U) d : driver :=
  mkDriver (worker_threads d) (sketching_alg d) (stream d) (num_stream_threads d) (total_updates d) (threads d)
    (ph d) (handled d ++ [u]).
Definition set_queue (q : Q) d : driver := set_group (set_gts q (worker_threads d)) d.

(** * Construction *)

(** The guttering configuration, and what its members mean, are the library's. *)
Section Constructor.
Context {G : Type} (gutter_bytes_uninit : G → bool) (gutter_bytes : N → G → G).
Context (make_gutters : GutterSystem → string → N → N → N → G → Q).

(** The driver and the warning; the parameter, not the member, is set to 1. *)
Definition GraphSketchDriver_new (alg : CCSketchAlg D) (s : S) (config : DriverConfiguration G)
    (threads : N) : outcome (driver * bool) :=
  match allocate_worker_memory (_num_worker_threads config) alg with
  | (alg, Ok _) =>
      conf ← (if gutter_bytes_uninit (gutter_conf config) then
                num ← get_desired_updates_per_batch alg;
                mret (gutter_bytes (u64 (num * 4)) (gutter_conf config))
              else mret (gutter_conf config));
      let gutters := make_gutters (_gutter_sys config) (driver_disk_dir_ config) (num_vertices alg)
                       (_num_worker_threads config) threads conf in
      let group := WorkerThreadGroup_new (_num_worker_threads config) gutters in
      let warning := (1 <? threads) && negb (get_update_is_thread_safe s) in
      mret (mkDriver group alg s threads 0 [] PhIdle [], warning)
  | (_, Throw e) => Throw e
  | (_, Abort) => Abort
  | (_, Undef) => Undef
  end.
End Constructor.

(** * Callbacks of the workers *)

(** [batch_callback] *)
Definition driver_batch_callback (b : batch) d : driver :=
  let '(thr_id, src_vertex, dst_vertices) := b in
  let d := set_total (u64 (total_updates d + N.of_nat (length dst_vertices))) d in
  match apply_update_batch thr_id src_vertex dst_vertices (sketching_alg d) with
  | (alg, Ok _) => set_alg alg d
  | (alg, _) => set_ph PhTerminated (set_alg alg d)
  end.

(** A worker's step; the batches it applies are the new entries of the log. *)
Definition driver_worker (i : N) d : option driver :=
  g ← worker_step i (worker_threads d);
  let new := drop (length (log (worker_threads d))) (log g) in
  Some (foldl (λ d b, driver_batch_callback b d) (set_group g d) new).

(** * [process_stream_until] *)

Definition process_stream_until (break_edge_idx : N) d : option driver :=
  match ph d with
  | PhIdle =>
      let '(s, ok) := set_break_point break_edge_idx (stream d) in
      if ok : bool then
        g ← start CResume (worker_threads d);
        Some (set_ph PhResume (set_group g (set_stream s d)))
      else Some (set_ph PhExited (set_stream s d))
  | _ => None
  end.

(** [resume_workers], then the threads start. *)
Definition driver_resume d : option driver :=
  match ph d with
  | PhResume =>
      match main (worker_threads d) with
      | MIdle => Some (set_ph PhStream (set_threads (replicate (N.to_nat (num_stream_threads d))
                   (mkStreamThread [] [] false)) d))
      | _ => g ← resume_workers (worker_threads d); Some (set_group g d)
      end
  | _ => None
  end.

(** The updates before the first breakpoint, and whether there is one. *)
Fixpoint until_breakpoint (us : list (GraphUpdate U)) : list (GraphUpdate U) * bool :=
  match us with
  | [] => ([], false)
  | u :: us =>
      if is_breakpoint (upd_type u) then ([], true)
      else let '(pre, stop) := until_breakpoint us in (u :: pre, stop)
  end.

(** A step of stream thread [t]. *)
Definition stream_task (t : N) d : option driver :=
  match ph d with
  | PhStream =>
      th ← threads d !! t;
      match t_inserts th, t_updates th, t_done th with
      | e :: es, us, stop =>
          Some (set_threads (<[t := mkStreamThread es us stop]> (threads d))
                 (set_queue (gts_insert e t (gts (worker_threads d))) d))
      | [], u :: us, stop =>
          let edge := upd_edge u in
          let d := set_threads (<[t := mkStreamThread [(src edge, dst edge); (dst edge, src edge)] us stop]>
                                  (threads d)) (add_handled u d) in
          match pre_insert u (sketching_alg d) with
          | (alg, Ok _) => Some (set_alg alg d)
          | (alg, _) => Some (set_ph PhTerminated (set_alg alg d))
          end
      | [], [], false =>
          let '(s, us) := get_update_buffer update_array_size (stream d) in
          let '(us, stop) := until_breakpoint us in
          Some (set_threads (<[t := mkStreamThread [] us stop]> (threads d)) (set_stream s d))
      | [], [], true => None
      end
  | _ => None
  end.

Definition finished (th : stream_thread U) : bool :=
  match t_inserts th, t_updates th, t_done th with [], [], true => true | _, _, _ => false end.

Definition join_threads d : option driver :=
  match ph d with
  | PhStream => if forallb finished (threads d) then Some (set_ph PhIdle (set_threads [] d)) else None
  | _ => None
  end.

(** * [prep_query] *)

Definition prep_query (query_code : Z) d : option driver :=
  match ph d with
  | PhIdle =>
      if has_cached_query query_code (sketching_alg d) then Some d
      else
        let d := set_queue (force_flush (gts (worker_threads d))) d in
        g ← start CFlush (worker_threads d);
        Some (set_ph PhFlush (set_group g d))
  | _ => None
  end.

Definition driver_flush (timeout : bool) d : option driver :=
  match ph d with
  | PhFlush =>
      match main (worker_threads d) with
      | MFlushed => Some (set_ph PhIdle d)
      | _ => g ← flush_workers timeout (worker_threads d); Some (set_group g d)
      end
  | _ => None
  end.

Definition get_total_updates d : N := total_updates d.

(** Between its calls on the driver, the program calls the algorithm. *)
Definition driver_query (T : N) (c : call U) d : option (driver * reply) :=
  match ph d with
  | PhIdle =>
      match run_call T c (sketching_alg d) with
      | (_, Ok (RThrown _)) => None
      | (alg, Ok r) => Some (set_alg alg d, r)
      | _ => None
      end
  | _ => None
  end.

(** * Executions *)

Definition running d : bool := match ph d with PhExited | PhTerminated => false | _ => true end.

(** Steps during [prep_query], and all steps. *)
Inductive flush_phase_step : relation driver :=
| FlushPhaseWorker i d d' : running d = true → driver_worker i d = Some d' → flush_phase_step d d'
| FlushPhaseMain timeout d d' : driver_flush timeout d = Some d' → flush_phase_step d d'.

Inductive driver_step : relation driver :=
| DriverFlush d d' : flush_phase_step d d' → driver_step d d'
| DriverStream idx d d' : process_stream_until idx d = Some d' → driver_step d d'
| DriverResume d d' : driver_resume d = Some d' → driver_step d d'
| DriverTask t d d' : stream_task t d = Some d' → driver_step d d'
| DriverJoin d d' : join_threads d = Some d' → driver_step d d'
| DriverPrep code d d' : prep_query code d = Some d' → driver_step d d'.

(** Executions, skipping what is not possible. *)
Inductive driver_move : Type :=
| MvWorker (i : N) | MvFlush (timeout : bool) | MvStream (idx : N) | MvResume | MvTask (t : N) | MvJoin
| MvPrep (code : Z).

Definition flush_phase_perform (m : N + bool) d : option driver :=
  match m with
  | inl i => if running d then driver_worker i d else None
  | inr t => driver_flush t d
  end.

Definition driver_perform (m : driver_move) d : option driver :=
  match m with
  | MvWorker i => flush_phase_perform (inl i) d
  | MvFlush t => flush_phase_perform (inr t) d
  | MvStream idx => process_stream_until idx d
  | MvResume => driver_resume d
  | MvTask t => stream_task t d
  | MvJoin => join_threads d
  | MvPrep code => prep_query code d
  end.

Definition driver_execute (ms : list driver_move) d : driver :=
  foldl (λ d m, default d (driver_perform m d)) d ms.
Definition flush_phase_execute (ms : list (N + bool)) d : driver :=
  foldl (λ d m, default d (flush_phase_perform m d)) d ms.

Lemma flush_phase_perform_step m d d' : flush_phase_perform m d = Some d' → flush_phase_step d d'.
Proof using .
  destruct m as [i|t]; simpl; intros E; [|by apply (FlushPhaseMain t)].
  destruct (running d) eqn:Er; [|done]. by apply (FlushPhaseWorker i).
Qed.

Lemma flush_phase_execute_steps ms d : rtc flush_phase_step d (flush_phase_execute ms d).
Proof using .
  unfold flush_phase_execute. revert d. induction ms as [|m ms IH]; intros d; [done|]. simpl.
  destruct (flush_phase_perform m d) as [d1|] eqn:E; [|apply IH].
  apply (rtc_l _ _ d1); [by apply (flush_phase_perform_step m)|apply IH].
Qed.

Lemma driver_execute_steps ms d : rtc driver_step d (driver_execute ms d).
Proof using .
  unfold driver_execute. revert d. induction ms as [|m ms IH]; intros d; [done|]. simpl.
  destruct (driver_perform m d) as [d1|] eqn:E; [|apply IH]. apply (rtc_l _ _ d1); [|apply IH].
  destruct m; simpl in E; try by econstructor.
  - by apply DriverFlush, (flush_phase_perform_step (inl i)).
  - by apply DriverFlush, (flush_phase_perform_step (inr timeout)).
Qed.

Lemma driver_execute_prep code ms d d' : prep_query code (driver_execute ms d) = Some d' →
  driver_execute (ms ++ [MvPrep code]) d = d'.
Proof using . unfold driver_execute. rewrite foldl_app. simpl. by intros ->. Qed.
End Driver.
