(* ===== verification/DriverCorrect.v ===== *)
(** The whole program: stream, buffers, workers and algorithm.

    [driver_inv] holds in every interleaving: each update given to the eager
    disjoint set union is, for each of its ends, applied, in a worker's hands,
    on the queue, in a buffer or about to be inserted, exactly once. When a
    [prep_query] that no worker starts with a stale result has returned, all are
    applied, so the algorithm describes the graph of the stream
    ([prepared_query]); a query answered from the cache does not even need that
    ([cached_query]). So queries answer for that graph, whenever they are made
    ([driver_queries]). *)
From stdpp Require Import relations.
From S2P Require Import Prelude Float64 Platform Util XorSet Bucket Sketch Dsu DsuMT Graph Forest Config CCAlg Partition MergeInstr Round Region Programs RoundCorrect Instructions Boruvka BoruvkaCorrect Queries Session Correctness Workers WorkersCorrect Driver.

Open Scope N_scope.

(** ** Pairs *)

Lemma pairs_app ps ps' : pairs (ps ++ ps') = pairs ps ++ pairs ps'.
Proof. apply bind_app. Qed.

#[export] Instance pairs_proper : Proper ((≡ₚ) ==> (≡ₚ)) pairs.
Proof. intros ps ps' Hp. unfold pairs. by rewrite Hp. Qed.

Lemma pairs_nonempty ps : pairs (nonempty ps) = pairs ps.
Proof.
  unfold nonempty. induction ps as [|[v dsts] ps IH]; [done|]. rewrite filter_cons. cbn [snd].
  change (pairs ((v, dsts) :: ps)) with (((v,.) <$> dsts) ++ pairs ps). case_decide as Hd.
  - change (pairs ((v, dsts) :: filter (λ p, (0 < length p.2)%nat) ps)) with
      (((v,.) <$> dsts) ++ pairs (filter (λ p, (0 < length p.2)%nat) ps)). by rewrite IH.
  - destruct dsts; simpl in *; [done|lia].
Qed.

(** Both ends of the updates. *)
Definition sides {U} (u : GraphUpdate U) : list (N * N) :=
  [(src (upd_edge u), dst (upd_edge u)); (dst (upd_edge u), src (upd_edge u))].
Definition sent {U} (us : list (GraphUpdate U)) : list (N * N) := us ≫= sides.

Lemma min_max_eqb a b v : (N.min a b =? v) || (N.max a b =? v) = true ↔ a = v ∨ b = v.
Proof. rewrite orb_true_iff, !N.eqb_eq. destruct (N.le_ge_cases a b); lia. Qed.

Section Pairs.
Context `{P : Platform} `{!PlatformLaws P} {U : Type}.

(** What pairs deliver to a vertex. *)
Definition delivers (v : N) (ps : list (N * N)) : list N :=
  (λ p, edge_index p.1 p.2) <$> filter (λ p, p.1 = v) ps.

#[export] Instance delivers_proper v : Proper ((≡ₚ) ==> (≡ₚ)) (delivers v).
Proof using . intros ps ps' Hp. unfold delivers. by rewrite Hp. Qed.

Lemma delivers_app v ps ps' : delivers v (ps ++ ps') = delivers v ps ++ delivers v ps'.
Proof using . unfold delivers. by rewrite filter_app, fmap_app. Qed.

Lemma delivers_block v w dsts : delivers v ((w,.) <$> dsts) = if w =? v then edge_index w <$> dsts else [].
Proof using .
  unfold delivers. induction dsts as [|x dsts IH]; [by destruct (w =? v)|].
  rewrite fmap_cons, filter_cons. cbn [fst]. destruct (N.eqb_spec w v) as [E|E].
  - rewrite decide_True by done. rewrite !fmap_cons. f_equal. exact IH.
  - rewrite decide_False by done. exact IH.
Qed.

Lemma delivered_pairs v bs : delivered v bs = delivers v (pairs (strip <$> bs)).
Proof using .
  induction bs as [|[[thr w] dsts] bs IH]; [done|]. rewrite fmap_cons.
  change (pairs (strip (thr, w, dsts) :: (strip <$> bs))) with (((w,.) <$> dsts) ++ pairs (strip <$> bs)).
  by rewrite delivers_app, delivers_block, <-IH.
Qed.

(** The pairs of a stream deliver each edge to its two ends. *)
Lemma delivers_sent n v (us : list (GraphUpdate U)) : n ≤ 2 ^ 32 → valid_updates n us →
  delivers v (sent us) = filter (λ id, touches v id = true) (stream_ids us).
Proof using PlatformLaws0.
  intros Hn. induction 1 as [|[[a b] t] us (Ha & Hb & Hab) _ IH]; [done|]. cbn [upd_edge src dst] in *.
  assert (is_node_id a ∧ is_node_id b) as [Ia Ib] by (unfold is_node_id, num_bits; lia).
  change (sent (mkUpdate (mkEdge a b) t :: us)) with ([(a, b)] ++ [(b, a)] ++ sent us).
  change (stream_ids (mkUpdate (mkEdge a b) t :: us)) with (concat_pairing_fn a b :: stream_ids us).
  rewrite !delivers_app, IH, filter_cons. unfold touches.
  destruct (concat_ends a b Ia Ib) as [-> ->]. unfold delivers. rewrite !filter_cons, !filter_nil. cbn [fst].
  pose proof (edge_index_eq a b Ia Ib) as E1. assert (edge_index b a = concat_pairing_fn a b) as E2.
  { rewrite edge_index_eq by done. by apply concat_pairing_fn_comm. }
  pose proof (min_max_eqb a b v) as Hmm. clear IH. revert E1 E2 Hmm.
  generalize (concat_pairing_fn a b) as id.
  generalize (filter (λ id, (id_src id =? v) || (id_dst id =? v) = true) (stream_ids us)) as rest.
  intros rest id E1 E2 Hmm.
  destruct (decide (a = v)) as [->|Hav], (decide (b = v)) as [->|Hbv]; try done.
  - rewrite decide_True; [cbn [fmap list_fmap app fst snd]; by rewrite E1|]. apply Hmm. by left.
  - rewrite decide_True; [cbn [fmap list_fmap app fst snd]; by rewrite E2|]. apply Hmm. by right.
  - rewrite decide_False; [done|]. rewrite Hmm. naive_solver.
Qed.

Lemma elem_of_sent v x (us : list (GraphUpdate U)) n : valid_updates n us → (v, x) ∈ sent us → v < n.
Proof using .
  intros Hv (u & Hin & Hu)%list_elem_of_bind. unfold valid_updates in Hv. rewrite Forall_forall in Hv.
  destruct (Hv u Hu) as (Hs & Hd & _). unfold sides in Hin. rewrite !elem_of_cons in Hin.
  destruct Hin as [[= -> _]|[[= -> _]|Hin]]; [done|done|by apply elem_of_nil in Hin].
Qed.
End Pairs.

(** * The invariant *)

Section Invariant.
Context `{P : Platform} `{!PlatformLaws P} {Q item D S U : Type} `{GL : GutteringLaws Q item}
  `{UFL : UnionFindLaws D} `{ST : GraphStream S U}.

Abbreviation driver := (GraphSketchDriver Q item D S U).
Implicit Type d : driver.
Implicit Type g : WorkerThreadGroup Q item.

Context (n k : N) (b : Sketch) (G : gset N).

(** The stream only carries edges between different vertices of the graph;
    [ok] is what its states satisfy. *)
Record StreamSound (ok : S → Prop) : Prop := {
  ss_break idx s : ok s → ok (set_break_point idx s).1;
  ss_get size s : ok s → ok (get_update_buffer size s).1 ∧
    valid_updates n (until_breakpoint (get_update_buffer size s).2).1
}.

Context (stream_ok : S → Prop) (stream_valid : StreamSound stream_ok).

(** The pairs a group still has to apply. *)
Definition inflight g : list (N * N) := pairs (pending g) ++ buffered (gts g).

Definition in_stream (p : phase) : bool := match p with PhStream => true | _ => false end.

Record driver_inv d : Prop := {
  di_alg : delivering n k b G (handled d) (log (worker_threads d)) (sketching_alg d);
  di_workers : num_workers (worker_threads d) = k;
  di_valid : valid_updates n (handled d);
  di_arrays : Forall (λ th, valid_updates n (t_updates th)) (threads d);
  di_pairs : sent (handled d) ≡ₚ pairs (strip <$> log (worker_threads d)) ++
    inflight (worker_threads d) ++ (threads d ≫= t_inserts);
  di_total : total_updates d = u64 (N.of_nat (length (pairs (strip <$> log (worker_threads d)))));
  di_running : ph d ≠ PhTerminated;
  di_joined : in_stream (ph d) = false → threads d = [];
  di_stream : stream_ok (stream d)
}.

Lemma queue_contents q : pairs (queued q) = pairs (wq_items q ≫= get_batches).
Proof using .
  unfold queued. induction (wq_items q) as [|x l IH]; [done|]. cbn [mbind list_bind].
  by rewrite !pairs_app, pairs_nonempty, IH.
Qed.

(** What is in flight, with the queue's contents in one piece. *)
Lemma inflight_contents g : inflight g = pairs (workers g ≫= in_progress) ++ contents (gts g).
Proof using . unfold inflight, pending, contents. by rewrite pairs_app, queue_contents, <-app_assoc. Qed.

Lemma queue_step_buffered (q q' : Q) : queue_step q q' → buffered q' = buffered q.
Proof using GL.
  intros [->|[[r E]|[x ->]]]; [done|by eapply get_data_buffered|by apply callback_buffered].
Qed.

Lemma same_batches_inflight g g' : same_batches g g' → inflight g' ≡ₚ inflight g.
Proof using GL.
  intros (_ & _ & Hp & Hq). unfold inflight. rewrite Hp.
  destruct Hq as [->|[c ->]]; [done|by rewrite set_non_block_buffered].
Qed.

(** A step of the group's methods. *)
Lemma set_group_inv d g p : driver_inv d → same_batches (worker_threads d) g → p ≠ PhTerminated →
  in_stream p = in_stream (ph d) → driver_inv (set_ph p (set_group g d)).
Proof using GL.
  intros [Ha Hw Hv Har Hp Ht Hr Hj Hok] Hs Hpt Hin. pose proof (same_batches_inflight _ _ Hs) as Hi.
  destruct Hs as (En & El & _ & _). split; simpl; try done.
  - by rewrite El.
  - congruence.
  - by rewrite El, Hi.
  - by rewrite El.
  - by rewrite Hin.
Qed.

Lemma driver_worker_inv i d d' : driver_inv d → driver_worker i d = Some d' →
  driver_inv d' ∧ ph d' = ph d ∧ handled d' = handled d ∧ worker_step i (worker_threads d) = Some (worker_threads d').
Proof using GL PlatformLaws0.
  intros HI E. unfold driver_worker in E. destruct (worker_step i (worker_threads d)) as [g|] eqn:Es; [|done].
  cbn [mbind option_bind] in E. injection E as <-.
  destruct (worker_step_effect i _ _ Es) as (Hi & En & Em & Hq & (new & El & Hnew) & Hperm).
  rewrite El, drop_app_length. pose proof HI as [Ha Hw Hv Har Hp Ht Hr Hj Hok].
  assert (pairs (strip <$> log g) ++ inflight g ≡ₚ
    pairs (strip <$> log (worker_threads d)) ++ inflight (worker_threads d)) as Hflow.
  { unfold inflight. by rewrite (queue_step_buffered _ _ Hq), !app_assoc, <-!pairs_app, Hperm. }
  assert (sent (handled d) ≡ₚ pairs (strip <$> log g) ++ inflight g ++ (threads d ≫= t_inserts)) as Hp'.
  { by rewrite Hp, !app_assoc, Hflow. }
  destruct Hnew as [->|(v & dsts & -> & Hlen)].
  - rewrite app_nil_r in El. simpl. split; [|done]. split; simpl; try done.
    + by rewrite El.
    + congruence.
    + by rewrite El.
  - assert (v < n) as Hvn.
    { destruct dsts as [|x dsts]; [simpl in Hlen; lia|]. apply (elem_of_sent v x (handled d) n Hv).
      rewrite Hp', El, fmap_app, pairs_app. rewrite !elem_of_app. left. right. left. }
    destruct (delivering_batch n k b G _ _ i v dsts (sketching_alg d) Ha) as (cc' & E & _ & Ha'); [lia|done|]. unfold driver_batch_callback, set_group, set_total. cbn [foldl sketching_alg total_updates].
    rewrite E. split; [|done]. split; simpl; try done.
    + by rewrite El.
    + congruence.
    + rewrite El, fmap_app, pairs_app, length_app, Ht. cbn [pairs strip fmap list_fmap mbind list_bind fst snd].
      rewrite app_nil_r, length_fmap. unfold wrap. rewrite N.Div0.add_mod_idemp_l. f_equal. lia.
Qed.

Lemma start_batches c g g' : (∀ x, c ≠ CPut x) → start c g = Some g' → same_batches g g'.
Proof using .
  intros Hc E. destruct c; simpl in E; [..|by destruct (Hc x)]; destruct (main g); try done; injection E as <-;
    by split_and!; try done; left.
Qed.

Lemma process_stream_until_inv idx d d' : driver_inv d → process_stream_until idx d = Some d' → driver_inv d'.
Proof using GL stream_valid.
  intros HI E. unfold process_stream_until in E. destruct (ph d) eqn:Eph; try done.
  pose proof (ss_break _ stream_valid idx (stream d) (di_stream d HI)) as Hok'.
  destruct (set_break_point idx (stream d)) as [s [|]]; cbn [fst] in Hok'.
  - destruct (start CResume (worker_threads d)) as [g|] eqn:Es; [|done]. injection E as <-.
    apply (set_group_inv (set_stream s d)); [by destruct HI|by apply (start_batches CResume)|done|simpl; by rewrite Eph].
  - injection E as <-. destruct HI as [Ha Hw Hv Har Hp Ht Hr Hj Hok]. rewrite Eph in Hj. by split.
Qed.

Lemma driver_resume_inv d d' : driver_inv d → driver_resume d = Some d' → driver_inv d'.
Proof using GL.
  intros HI E. unfold driver_resume in E. destruct (ph d) eqn:Eph; try done.
  assert (∀ g, resume_workers (worker_threads d) = Some g → driver_inv (set_group g d)) as Hres.
  { intros g Eg. pose proof (set_group_inv d g (ph d) HI (resume_workers_batches _ _ Eg)) as H'.
    apply H'; [by rewrite Eph|done]. }
  destruct (main (worker_threads d)); try (destruct (resume_workers _) as [g|]; [|done]; injection E as <-; by apply Hres).
  injection E as <-. destruct HI as [Ha Hw Hv Har Hp Ht Hr Hj Hok]. split; simpl; try done.
  - apply Forall_replicate. constructor.
  - rewrite Hp, Hj by (by rewrite Eph). do 2 f_equiv. by induction (N.to_nat (num_stream_threads d)).
Qed.

Lemma join_threads_inv d d' : driver_inv d → join_threads d = Some d' → driver_inv d'.
Proof using .
  intros HI E. unfold join_threads in E. destruct (ph d); try done.
  destruct (forallb finished (threads d)) eqn:Ef; [|done]. injection E as <-.
  destruct HI as [Ha Hw Hv Har Hp Ht Hr Hj Hok]. split; simpl; try done. rewrite Hp. do 2 f_equiv.
  rewrite forallb_forall in Ef.
  assert (∀ l, (∀ th, th ∈ l → finished th = true) → l ≫= @t_inserts U = []) as Hnil.
  { induction l as [|[ins us st] l IH]; intros Hl; [done|]. simpl.
    pose proof (Hl _ (list_elem_of_here _ _)) as Hf. unfold finished in Hf. simpl in Hf. destruct ins; [|done]. simpl.
    apply IH. intros th Hth. apply Hl. by right. }
  rewrite Hnil; [done|]. intros th Hth. by apply Ef, list_elem_of_In.
Qed.

Lemma driver_flush_inv t d d' : driver_inv d → driver_flush t d = Some d' → driver_inv d'.
Proof using GL.
  intros HI E. unfold driver_flush in E. destruct (ph d) eqn:Eph; try done.
  assert (∀ g, flush_workers t (worker_threads d) = Some g → driver_inv (set_group g d)) as Hres.
  { intros g Eg. pose proof (set_group_inv d g (ph d) HI (flush_workers_batches t _ _ Eg)) as H'.
    apply H'; [by rewrite Eph|done]. }
  destruct (main (worker_threads d)); try (destruct (flush_workers _ _) as [g|]; [|done]; injection E as <-; by apply Hres).
  injection E as <-. destruct HI as [Ha Hw Hv Har Hp Ht Hr Hj Hok]. split; simpl; try done.
  intros _. apply Hj. by rewrite Eph.
Qed.

(** Changing the queue. *)
Lemma set_queue_inv q extra ts d : driver_inv d → 
  contents q ≡ₚ extra ++ contents (gts (worker_threads d)) → extra ++ (ts ≫= t_inserts) ≡ₚ threads d ≫= t_inserts →
  Forall (λ th, valid_updates n (t_updates th)) ts → (in_stream (ph d) = false → ts = []) →
  driver_inv (set_threads ts (set_queue q d)).
Proof using .
  intros [Ha Hw Hv Har Hp Ht Hr Hj Hok] Hq Hts Hts' Hj'. split; simpl; try done.
  rewrite Hp. apply Permutation_app_head. rewrite !inflight_contents. simpl. rewrite Hq, <-Hts.
  rewrite <-!app_assoc. apply Permutation_app_head. rewrite !app_assoc. apply Permutation_app_tail, Permutation_app_comm.
Qed.

Lemma prep_query_inv code d d' : driver_inv d → prep_query code d = Some d' → driver_inv d'.
Proof using GL.
  intros HI E. unfold prep_query in E. destruct (ph d) eqn:Eph; try done.
  destruct (has_cached_query code (sketching_alg d)); [by injection E as <-|].
  pose proof (di_joined d HI) as Hj. rewrite Eph in Hj.
  assert (driver_inv (set_queue (force_flush (gts (worker_threads d))) d)) as HI2.
  { assert (set_queue (force_flush (gts (worker_threads d))) d =
      set_threads (threads d) (set_queue (force_flush (gts (worker_threads d))) d)) as -> by (by destruct d).
    apply (set_queue_inv _ []); [done|by rewrite flush_contents|done|apply HI|by rewrite Eph]. }
  destruct (start CFlush (worker_threads (set_queue (force_flush (gts (worker_threads d))) d))) as [g|] eqn:Es; [|done].
  injection E as <-. apply set_group_inv; [done|by apply (start_batches CFlush)|done|simpl; by rewrite Eph].
Qed.

Lemma stream_task_inv t d d' : driver_inv d → stream_task t d = Some d' → driver_inv d'.
Proof using GL PlatformLaws0 stream_valid.
  intros HI E. unfold stream_task in E. destruct (ph d) eqn:Eph; try done.
  destruct (threads d !! t) as [[ins us st]|] eqn:Et; [|done]. cbn [mbind option_bind t_inserts t_updates t_done] in E.
  pose proof HI as [Ha Hw Hv Har Hp Ht Hr Hj Hok]. pose proof Et as Et'. rewrite lookupN_eq in Et'.
  assert (valid_updates n us) as Hus.
  { rewrite Forall_forall in Har. apply (Har _ (list_elem_of_lookup_2 _ _ _ Et')). }
  assert (∀ th, valid_updates n (t_updates th) →
    Forall (λ th, valid_updates n (t_updates th)) (<[t := th]> (threads d))) as Har'.
  { intros th Hth. by apply Forall_insert. }
  pose proof (λ th, bind_insert_swap t_inserts (threads d) (N.to_nat t) _ th Et') as Hbi. cbn [t_inserts] in Hbi.
  destruct ins as [|e ins].
  - destruct us as [|u us].
    + destruct st; [done|]. destruct (ss_get _ stream_valid update_array_size (stream d) Hok) as [Hok' Hnew].
      destruct (get_update_buffer update_array_size (stream d)) as [s us]. cbn [fst snd] in Hnew, Hok'.
      destruct (until_breakpoint us) as [us' st]. cbn [fst] in Hnew. injection E as <-.
      specialize (Hbi (mkStreamThread [] us' st)). rewrite !app_nil_r in Hbi.
      split; simpl; try done; [by apply Har'|by rewrite Hbi|by rewrite Eph].
    + apply Forall_cons in Hus as [Hu Hus].
      destruct u as [e t'], Hu as (Hs & Hd & Hne). cbn [upd_edge] in *.
      destruct (delivering_insert n k b G _ _ e t' (sketching_alg d) Ha Hs Hd Hne) as (cc' & Ep & Ha').
      cbn [sketching_alg set_threads add_handled] in E. rewrite Ep in E. injection E as <-.
      specialize (Hbi (mkStreamThread (sides (mkUpdate e t')) us st)). rewrite app_nil_r in Hbi.
      split; simpl; try done.
      * apply Forall_app. split; [done|by apply Forall_singleton].
      * by apply Har'.
      * unfold sent. rewrite bind_app. fold (sent (handled d)). rewrite Hp. simpl. rewrite Hbi.
        change [(src e, dst e); (dst e, src e)] with (sides (mkUpdate e t')).
        by rewrite <-!app_assoc.
      * by rewrite Eph.
  - injection E as <-. apply (set_queue_inv _ [e]); [done|by apply insert_contents| |by apply Har'|by rewrite Eph].
    specialize (Hbi (mkStreamThread ins us st)). cbn [t_inserts] in Hbi.
    apply (Permutation_app_inv_r ins). rewrite <-Hbi. exact (Permutation_middle _ ins e).
Qed.

Lemma driver_step_inv d d' : driver_inv d → driver_step d d' → driver_inv d'.
Proof using GL PlatformLaws0 stream_valid.
  intros HI Hs. destruct Hs as [d d' Hf|idx d d' E|d d' E|t d d' E|d d' E|code d d' E].
  - destruct Hf as [i d d' _ E|t d d' E]; [by apply (driver_worker_inv i d)|by apply (driver_flush_inv t d)].
  - by apply (process_stream_until_inv idx d).
  - by apply (driver_resume_inv d).
  - by apply (stream_task_inv t d).
  - by apply (join_threads_inv d).
  - by apply (prep_query_inv code d).
Qed.

Lemma driver_steps_inv d d' : rtc driver_step d d' → driver_inv d → driver_inv d'.
Proof using GL PlatformLaws0 stream_valid. induction 1; [done|]. intros HI. eauto using driver_step_inv. Qed.

(** ** The flush of [prep_query] *)

Record flushing (todo : list (N * list N)) (us : list (GraphUpdate U)) d : Prop := {
  fl_inv : driver_inv d;
  fl_group : flush_inv k todo (worker_threads d);
  fl_buffers : buffered (gts (worker_threads d)) = [];
  fl_threads : threads d = [];
  fl_handled : handled d = us;
  fl_phase : ph d = PhFlush ∨ ph d = PhIdle ∧ main (worker_threads d) = MFlushed
}.

Lemma flushing_step todo us d d' : flushing todo us d → flush_phase_step d d' → flushing todo us d'.
Proof using GL PlatformLaws0.
  intros [HI Hg Hb Ht Hh Hp] Hs. destruct Hs as [i d d' _ E|t d d' E].
  - destruct (driver_worker_inv i d d' HI E) as (HI' & Ep & Eh & Ew).
    destruct (worker_step_effect i _ _ Ew) as (_ & _ & Em & Hq & _ & _).
    split; [done|by apply (worker_step_inv k todo i (worker_threads d))| | |congruence|by rewrite Ep, Em].
    + by rewrite (queue_step_buffered _ _ Hq).
    + apply (di_joined d' HI'). rewrite Ep. by destruct Hp as [->|[-> _]].
  - pose proof (driver_flush_inv t d d' HI E) as HI'. unfold driver_flush in E.
    destruct (ph d) eqn:Eph; try done.
    assert (∀ g, flush_workers t (worker_threads d) = Some g → d' = set_group g d → flushing todo us d') as Hrun.
    { intros g Eg ->. split; [done|by apply (flush_workers_inv k todo t (worker_threads d))| |done|done|by left].
      simpl. destruct (flush_workers_batches t _ _ Eg) as (_ & _ & _ & [->|[c ->]]); [done|].
      by rewrite set_non_block_buffered. }
    destruct (main (worker_threads d)) eqn:Em;
      try (destruct (flush_workers t _) as [g|] eqn:Eg; [|done]; injection E as <-; by apply (Hrun g)).
    injection E as <-. split; try done. by right.
Qed.

Lemma flushing_steps todo us d d' : rtc flush_phase_step d d' → flushing todo us d → flushing todo us d'.
Proof using GL PlatformLaws0. induction 1; [done|]. intros HF. eauto using flushing_step. Qed.

Lemma prep_query_flushing code d d' : driver_inv d → prep_query code d = Some d' → ph d' = PhFlush →
  ready_to_flush (worker_threads d') → flushing ((strip <$> log (worker_threads d')) ++ pending (worker_threads d'))
    (handled d) d'.
Proof using GL.
  intros HI E Hp Hr. pose proof (prep_query_inv code d d' HI E) as HI'. unfold prep_query in E.
  destruct (ph d) eqn:Eph; try done. destruct (has_cached_query code (sketching_alg d)); [congruence|].
  destruct (start CFlush _) as [g|] eqn:Es; [|done]. injection E as <-. cbn [worker_threads set_ph set_group] in *.
  destruct (start_batches CFlush _ _ ltac:(done) Es) as (En & _ & _ & Hq). split; try done.
  - pose proof (di_workers _ HI') as Hk. cbn [worker_threads set_ph set_group] in Hk. rewrite <-Hk.
    by apply flush_inv_start.
  - simpl. simpl in Hq. destruct Hq as [->|[c ->]]; rewrite ?set_non_block_buffered; apply flush_buffered.
  - simpl. apply (di_joined d HI). by rewrite Eph.
  - by left.
Qed.

(** ** Drained *)

(** Nothing is in flight. *)
Definition drained d : Prop :=
  pending (worker_threads d) = [] ∧ buffered (gts (worker_threads d)) = [] ∧ threads d = [].

Lemma drained_delivered d : driver_inv d → drained d → all_delivered n (handled d) (log (worker_threads d)).
Proof using PlatformLaws0.
  intros HI (Hpend & Hbuf & Hth). destruct HI as [Ha _ Hv _ Hpairs _ _ _ _].
  rewrite Hth in Hpairs. unfold inflight in Hpairs. rewrite Hpend, Hbuf in Hpairs. simpl in Hpairs. rewrite app_nil_r in Hpairs.
  intros v _. rewrite delivered_pairs, <-Hpairs. rewrite (delivers_sent n v (handled d)); [done| |done].
  pose proof (cb_n _ _ (de_base _ _ _ _ _ _ _ Ha)) as Hn. rewrite (de_n _ _ _ _ _ _ _ Ha) in Hn. lia.
Qed.

Lemma drained_inv d : driver_inv d → drained d → graph n G →
  cc_inv (sketching_alg d) b (G △ toggles (stream_ids (handled d))) ∧
  total_updates d = u64 (2 * N.of_nat (length (handled d))).
Proof using PlatformLaws0.
  intros HI Hdr HG. pose proof (drained_delivered d HI Hdr) as Hall. destruct Hdr as (Hpend & Hbuf & Hth).
  destruct HI as [Ha _ Hv _ Hpairs Ht _ _ _]. split; [by apply (delivering_done n k b G _ (log (worker_threads d)))|].
  rewrite Hth in Hpairs. unfold inflight in Hpairs. rewrite Hpend, Hbuf in Hpairs. simpl in Hpairs. rewrite app_nil_r in Hpairs.
  rewrite Ht, <-(Permutation_length Hpairs). f_equal. clear. unfold sent.
  induction (handled d) as [|u us IH]; [done|]. cbn [mbind list_bind]. rewrite length_app. simpl length in *. lia.
Qed.

(** When the flush has returned, nothing is in flight. *)
Lemma flushed_all todo us d : flushing todo us d → ph d = PhIdle → 0 < k → drained d.
Proof using .
  intros [HI Hg Hbuf Hth Hh Hp] Hph Hk0.
  assert (main (worker_threads d) = MFlushed) as Hm by (by destruct Hp as [Hp|[_ Hp]]; [rewrite Hph in Hp|]).
  destruct (flushed_drained k todo _ Hg Hm Hk0) as (_ & Hlog & _).
  split; [|by split]. apply length_zero_iff_nil. pose proof (Permutation_length (fi_log _ _ _ Hg)) as Hl.
  rewrite length_app in Hl. rewrite <-(Permutation_length Hlog) in Hl. lia.
Qed.

(** ** Queries between calls on the driver *)

Context (T : N) (PT : Partitioned n T) (HG : graph n G).

(** What [prep_query] is for: the answer is cached, or nothing is in flight. *)
Definition prepared d : Prop := dsu_valid (sketching_alg d) = true ∨ drained d.

Definition reliable_query (c : call U) d : Prop := ∀ s, schedule_of c = Some s → dsu_valid (sketching_alg d) = false →
  query_reliable T s b (G △ toggles (stream_ids (handled d))) (sketching_alg d).

(** A step of the driver, or a prepared query. *)
Inductive protocol_step : relation driver :=
| ProtocolDriver d d' : driver_step d d' → protocol_step d d'
| ProtocolQuery c d d' r : is_query c = true → valid_call n k c → prepared d → reliable_query c d →
    driver_query T c d = Some (d', r) → protocol_step d d'.

Lemma prepared_query_ok c d : driver_inv d → is_query c = true → valid_call n k c → prepared d → reliable_query c d →
  ∃ cc' o, run_call T c (sketching_alg d) = (cc', o) ∧
    queried n k b G (handled d) (log (worker_threads d)) c (sketching_alg d) cc' o.
Proof using PlatformLaws0 PT HG.
  intros HI Hq Hv Hprep Hrel. apply (delivering_query n k b G _ _ T); [done|apply HI|done|apply HI|done|done| |done].
  destruct Hprep as [Hprep|Hprep]; [by left|right; by apply drained_delivered].
Qed.

Lemma protocol_step_inv d d' : driver_inv d → protocol_step d d' → driver_inv d'.
Proof using GL PlatformLaws0 stream_valid PT HG.
  intros HI Hs. destruct Hs as [d0 d1 Hs|c d0 d1 r Hq Hv Hprep Hrel E]; [by apply (driver_step_inv d0)|].
  destruct (prepared_query_ok c d0 HI Hq Hv Hprep Hrel) as (cc' & o & Er & Hres). unfold driver_query in E.
  destruct (ph d0) eqn:Eph; try done. rewrite Er in E.
  assert (∀ r', o = Ok r' → driver_query T c d0 = Some (d1, r) → driver_inv d1) as Hok.
  { intros r' -> E'. unfold driver_query in E'. rewrite Eph, Er in E'. unfold queried in Hres.
    destruct HI as [Ha Hw Hvu Har Hp Ht Hr Hj Hok].
    destruct r'; try done; destruct Hres as (Ha' & _); injection E' as <- _; by split. }
  destruct o as [r'|e| |]; try done. apply (Hok r' eq_refl). unfold driver_query. by rewrite Eph, Er.
Qed.

Lemma protocol_steps_inv d d' : rtc protocol_step d d' → driver_inv d → driver_inv d'.
Proof using GL PlatformLaws0 stream_valid PT HG. induction 1; [done|]. intros HI. eauto using protocol_step_inv. Qed.

Lemma driver_protocol_steps d d' : rtc driver_step d d' → rtc protocol_step d d'.
Proof using . apply rtc_subrel. intros x y. apply ProtocolDriver. Qed.
End Invariant.

(** ** Construction *)

Section New.
Context `{P : Platform} `{!PlatformLaws P} {Q item D S U : Type} `{GL : GutteringLaws Q item}
  `{UFL : UnionFindLaws D} `{ST : GraphStream S U} {C : Type}.

Lemma GraphSketchDriver_new_ok uninit set_bytes make (cc : CCSketchAlg D) b G (s : S) (config : DriverConfiguration C)
    threads (d : GraphSketchDriver Q item D S U) w (stream_ok : S → Prop) :
  cc_inv cc b G → update_locked cc = false → (∀ t p v j h c, contents (make t p v j h c) = []) → stream_ok s →
  GraphSketchDriver_new uninit set_bytes make cc s config threads = Ok (d, w) →
  driver_inv (num_vertices cc) (_num_worker_threads config) b G stream_ok d ∧
  ph d = PhIdle ∧ handled d = [] ∧ sketches (sketching_alg d) = sketches cc.
Proof using .
  intros HI Hl Hmake Hok E. unfold GraphSketchDriver_new in E.
  destruct (allocate_ok cc b (_num_worker_threads config) (ci_base _ _ _ HI)) as (cc1 & E1 & (Hm & Hdl & Hk) & Hs & Hsk).
  rewrite E1 in E. destruct Hs as (F1 & F2 & F3 & F4 & F5 & F6 & F7 & F8 & F9 & _). simpl in *.
  apply outcome_bind_inv in E as (conf & _ & E). injection E as <- <-.
  split; [|done]. split; simpl; try done.
  - apply delivering_start; try done; [|congruence].
    destruct HI as [Hb HG Hv _ Hc]. split; try done.
    + by apply (cc_base_members cc).
    + by rewrite F1.
    + by apply (cc_vectors_same cc).
    + unfold cc_cache in *. by rewrite F1, F4, F5, F6, F7.
  - unfold num_workers. simpl. rewrite length_replicate. lia.
  - constructor.
  - rewrite inflight_contents. simpl. rewrite Hmake, !app_nil_r.
    induction (N.to_nat (_num_worker_threads config)) as [|j IH]; [done|exact IH].
Qed.
End New.

(** * Theorems *)

Section Theorems.
Context `{P : Platform} `{!PlatformLaws P} {Q item D S U : Type} `{GL : GutteringLaws Q item}
  `{UFL : UnionFindLaws D} `{ST : GraphStream S U} {C : Type}.
Implicit Type d : GraphSketchDriver Q item D S U.

(** A driver just constructed on a fresh algorithm, with [workers] workers. *)
Record started (n workers : N) (b : Sketch) (stream_ok : S → Prop) d : Prop := {
  sd_stream : StreamSound n stream_ok;
  sd_workers : 0 < workers ≤ 2 ^ 32;
  sd_new : ∃ seed conf prio_gen cc uninit set_bytes make s (config : DriverConfiguration C) threads w,
    good_params n seed conf b ∧ CCSketchAlg_new n seed conf prio_gen = Ok cc ∧
    (∀ t p v j h c, contents (make t p v j h c) = []) ∧ stream_ok s ∧
    _num_worker_threads config = workers ∧
    GraphSketchDriver_new uninit set_bytes make cc s config threads = Ok (d, w)
}.

Lemma started_inv n workers b stream_ok d : started n workers b stream_ok d →
  driver_inv n workers b ∅ stream_ok d ∧ handled d = [].
Proof using PlatformLaws0.
  intros [_ _ (seed & conf & prio & cc & un & sb & mk & s & config & th & w & Hp & Ec & Hmk & Hok & <- & Ed)].
  destruct (CCSketchAlg_new_ok n seed conf prio b Hp) as (cc' & Ec' & HI & <- & _ & Hl & _).
  rewrite Ec in Ec'. injection Ec' as <-.
  destruct (GraphSketchDriver_new_ok un sb mk cc b ∅ s config th d w stream_ok HI Hl Hmk Hok Ed) as (Hinv & _ & Hh & _).
  done.
Qed.

Context (T : N).

(** The runs of a program that calls the driver, and queries the algorithm when
    that is prepared and no checksum lies to it. *)
Abbreviation runs n workers b := (rtc (protocol_step n workers b ∅ T)).

Lemma empty_graph n : graph n ∅.
Proof using . by intros id Hid%elem_of_empty. Qed.

Lemma runs_inv n workers b stream_ok d0 d (PT : Partitioned n T) : started n workers b stream_ok d0 →
  runs n workers b d0 d → driver_inv n workers b ∅ stream_ok d.
Proof using GL PlatformLaws0 UFL.
  intros Hstart Hsteps. destruct (started_inv _ _ _ _ _ Hstart) as [HI0 _].
  exact (protocol_steps_inv n workers b ∅ stream_ok (sd_stream _ _ _ _ _ Hstart) T PT (empty_graph n) d0 d Hsteps HI0).
Qed.

(** C5. Every update is accounted for. In every interleaving of the stream
    threads, the workers, the driver's own calls and prepared queries, no thread
    dies of an exception, and each of the two halves of every update given to
    the eager union find is, exactly once, applied by a worker, in a worker's
    hands or on the queue, in a buffer, or about to be inserted;
    [get_total_updates] counts the applied halves. *)
Theorem updates_conserved n workers b stream_ok d0 d (PT : Partitioned n T) (Hstart : started n workers b stream_ok d0)
    (Hsteps : runs n workers b d0 d) :
  ph d ≠ PhTerminated ∧
  sent (handled d) ≡ₚ pairs (strip <$> log (worker_threads d)) ++
    pairs (pending (worker_threads d)) ++ buffered (gts (worker_threads d)) ++ (threads d ≫= t_inserts) ∧
  get_total_updates d = u64 (N.of_nat (length (pairs (strip <$> log (worker_threads d))))).
Proof using GL PlatformLaws0 UFL.
  pose proof (runs_inv _ _ _ _ _ _ PT Hstart Hsteps) as HI.
  split; [apply HI|]. split; [|apply HI]. rewrite (di_pairs _ _ _ _ _ _ HI). unfold inflight. by rewrite <-app_assoc.
Qed.

Lemma flush_done n workers b stream_ok d0 d1 d2 d3 (PT : Partitioned n T) : started n workers b stream_ok d0 →
  runs n workers b d0 d1 → prep_query CONNECTIVITY d1 = Some d2 → ph d2 = PhFlush →
  ready_to_flush (worker_threads d2) → rtc flush_phase_step d2 d3 → ph d3 = PhIdle →
  driver_inv n workers b ∅ stream_ok d3 ∧ drained d3 ∧ handled d3 = handled d1.
Proof using GL PlatformLaws0 UFL.
  intros Hstart Hsteps Hprep Hflush Hready Hsteps' Hdone.
  pose proof (runs_inv _ _ _ _ _ _ PT Hstart Hsteps) as HI1.
  pose proof (prep_query_flushing n workers b ∅ stream_ok _ d1 d2 HI1 Hprep Hflush Hready) as HF.
  pose proof (flushing_steps n workers b ∅ stream_ok _ _ d2 d3 Hsteps' HF) as HF3.
  destruct (sd_workers _ _ _ _ _ Hstart) as [Hk0 _].
  split; [apply HF3|]. split; [by apply (flushed_all n workers b ∅ stream_ok _ _ d3 HF3)|apply HF3].
Qed.

(** C4. A prepared query sees the whole stream. When [prep_query] has to flush,
    and no worker stands between an empty-handed [get_data] and its next call at
    that moment, then in every interleaving, once it has returned nothing is in
    flight, the algorithm is consistent with the graph of all the updates of the
    stream so far (those toggled an odd number of times), and both halves of
    every update have been counted. *)
Theorem prepared_query n workers b stream_ok d0 d1 d2 d3 (PT : Partitioned n T) (Hstart : started n workers b stream_ok d0)
    (Hsteps : runs n workers b d0 d1) (Hprep : prep_query CONNECTIVITY d1 = Some d2) (Hflush : ph d2 = PhFlush)
    (Hready : ready_to_flush (worker_threads d2)) (Hsteps' : rtc flush_phase_step d2 d3) (Hdone : ph d3 = PhIdle) :
  handled d3 = handled d1 ∧ drained d3 ∧ cc_inv (sketching_alg d3) b (toggles (stream_ids (handled d1))) ∧
  get_total_updates d3 = u64 (2 * N.of_nat (length (handled d1))).
Proof using GL PlatformLaws0 UFL.
  destruct (flush_done _ _ _ _ _ _ _ _ PT Hstart Hsteps Hprep Hflush Hready Hsteps' Hdone) as (HI3 & Hdr & Eh).
  destruct (drained_inv n workers b ∅ stream_ok d3 HI3 Hdr (empty_graph n)) as [Hcc Ht].
  rewrite (left_id ∅ symdiff), Eh in Hcc. rewrite Eh in Ht. done.
Qed.

(** C6. Queries between streams are right. At any point of any run where the
    driver is idle and prepared (the answer is cached, or nothing is in flight),
    each of the three queries answers for the graph of all the updates handled so
    far, or throws [OutOfSamplesException], and that only in a build without assertions; after an answer
    the run can go on with more of the stream. *)
Theorem driver_queries n workers b stream_ok d0 d (PT : Partitioned n T) (Hstart : started n workers b stream_ok d0)
    (Hsteps : runs n workers b d0 d) (Hidle : ph d = PhIdle) (Hprep : prepared d)
    c (Hquery : is_query c = true) (Hvalid : valid_call n workers c) (Hreliable : reliable_query b ∅ T c d) :
  ∃ alg o, run_call T c (sketching_alg d) = (alg, o) ∧
    match o with
    | Ok (RThrown e) => NDEBUG = true ∧ out_of_samples e ∧ dsu_valid (sketching_alg d) = false
    | Ok r => query_answer n (toggles (stream_ids (handled d))) c r ∧ dsu_valid alg = true ∧
        runs n workers b d0 (set_alg alg d)
    | Abort => NDEBUG = false
    | _ => False
    end.
Proof using GL PlatformLaws0 UFL.
  pose proof (runs_inv _ _ _ _ _ _ PT Hstart Hsteps) as HI.
  destruct (prepared_query_ok n workers b ∅ stream_ok T PT (empty_graph n) c d HI Hquery Hvalid Hprep Hreliable)
    as (alg & o & E & Ho).
  exists alg, o. split; [done|]. unfold queried in Ho.
  assert (∀ r, o = Ok r → (∀ e, r ≠ RThrown e) → runs n workers b d0 (set_alg alg d)) as Hrun.
  { intros r -> Hr. eapply rtc_r; [exact Hsteps|]. apply (ProtocolQuery _ _ _ _ _ c d _ r Hquery Hvalid Hprep Hreliable).
    unfold driver_query. rewrite Hidle, E. by destruct r; [..|edestruct Hr]. }
  destruct o as [[| | | |e]|e| |]; try done;
    destruct Ho as (_ & ? & Ha); rewrite (left_id ∅ symdiff) in Ha; split_and!; try done; by eapply Hrun.
Qed.

(** C23. A cached answer needs no flush. Whenever [has_cached_query] holds, at
    any point of any interleaving and however many updates are still buffered,
    queries answer at once, for any number of threads and any schedule, and the
    answer is that of the graph of all the updates the stream threads have
    handled. *)
Theorem cached_query n workers b stream_ok d0 d (PT : Partitioned n T) (Hstart : started n workers b stream_ok d0)
    (Hsteps : runs n workers b d0 d) (Hcached : has_cached_query CONNECTIVITY (sketching_alg d) = true)
    T' sch order x y (Hord : order ≡ₚ seqN 0 n) (Hx : x < n) (Hy : y < n) :
  let G := toggles (stream_ids (handled d)) in
  ∃ cc1 ans cc2 r, connected_components T' sch order (sketching_alg d) = (cc1, Ok ans) ∧ answers_components n G ans ∧
    point_query T' sch x y (sketching_alg d) = (cc2, Ok r) ∧ (r = true ↔ graph_connected G x y).
Proof using GL PlatformLaws0 UFL.
  destruct (runs_inv _ _ _ _ _ _ PT Hstart Hsteps) as [[Hb Hn _ _ _ _ _ HC] _ _ _ _ _ _ _ _].
  rewrite (left_id ∅ symdiff) in HC. intros G.
  assert (dsu_valid (sketching_alg d) = true) as Hv by (destruct HC as (_ & _ & _ & <- & _); exact Hcached).
  pose proof (cb_n _ _ Hb) as [_ Hn32]. rewrite <-Hn in Hord, Hx, Hy.
  destruct (connected_components_cached T' sch order G _ Hn32 HC Hv Hord) as (e1 & ans & E1 & _ & Ha).
  destruct (point_query_cached T' sch x y G _ HC Hv Hx Hy) as (e2 & r & E2 & _ & Hr).
  rewrite Hn in Ha. by exists (set_dsu e1 (sketching_alg d)), ans, (set_dsu e2 (sketching_alg d)), r.
Qed.
End Theorems.

(** * A concrete program *)

(** A gutter that is put on the queue when it holds three pairs. *)
Record gutters : Type := mkGutters { gu_queue : list_queue; gu_buffer : list (N * N) }.

Definition as_item (ps : list (N * N)) : list (N * list N) := (λ p, (p.1, [p.2])) <$> ps.
Definition spill (q : gutters) : gutters :=
  mkGutters (mkQueue (lq_items (gu_queue q) ++ [as_item (gu_buffer q)]) (lq_non_block (gu_queue q))) [].

#[export] Instance gutters_queue : WorkQueue gutters (list (N * list N)) := {
  wq_items q := wq_items (gu_queue q);
  wq_non_block q := wq_non_block (gu_queue q);
  set_non_block b q := mkGutters (set_non_block b (gu_queue q)) (gu_buffer q);
  get_data q := '(r, l) ← get_data (gu_queue q); Some (r, mkGutters l (gu_buffer q));
  get_data_callback x q := mkGutters (get_data_callback x (gu_queue q)) (gu_buffer q);
  wq_put x q := mkGutters (wq_put x (gu_queue q)) (gu_buffer q);
  get_batches x := x
}.

#[export] Instance gutters_system : GutteringSystem gutters (list (N * list N)) := {
  gts_insert e _ q :=
    let q := mkGutters (gu_queue q) (gu_buffer q ++ [e]) in
    if (3 <=? length (gu_buffer q))%nat then spill q else q;
  force_flush := spill;
  buffered := gu_buffer
}.

Lemma pairs_as_item ps : pairs (as_item ps) = ps.
Proof. induction ps as [|[v x] ps IH]; [done|]. change (pairs (as_item ((v, x) :: ps))) with ((v, x) :: pairs (as_item ps)). by rewrite IH. Qed.

Lemma spill_contents q : contents (spill q) ≡ₚ contents q.
Proof.
  destruct q as [[l c] buf]. unfold contents, spill. simpl.
  rewrite app_nil_r, bind_app. simpl. by rewrite app_nil_r, pairs_app, pairs_as_item.
Qed.

#[export] Instance gutters_laws : GutteringLaws gutters (list (N * list N)).
Proof.
  split.
  - split.
    + intros [l buf] x q' E. simpl in E. apply bind_Some in E as ([r l'] & E & [= -> <-]).
      exact (get_data_item (item := list (N * list N)) l x l' E).
    + intros [l buf] q' E. simpl in E. apply bind_Some in E as ([r l'] & E & [= -> <-]).
      pose proof (get_data_nothing (Q := list_queue) (item := list (N * list N)) l l' E) as (? & ? & ->). done.
    + intros [l buf] Hb. destruct (get_data_returns (item := list (N * list N)) l Hb) as [[r l'] E].
      exists (r, mkGutters l' buf). simpl in *. by rewrite E.
    + intros c [l buf]. apply (set_non_block_items (item := list (N * list N)) c l).
    + done.
    + done.
    + done.
    + intros x [l buf]. apply (put_items (item := list (N * list N)) x l).
    + done.
  - intros e t [l buf].
    assert (contents (mkGutters l (buf ++ [e])) ≡ₚ e :: contents (mkGutters l buf)) as Hadd.
    { unfold contents. simpl. rewrite app_assoc. symmetry. apply Permutation_cons_append. }
    simpl. destruct (length (buf ++ [e])) as [|[|[|k]]]; [done..|]. by rewrite spill_contents.
  - apply spill_contents.
  - done.
  - intros [l buf] r q' E. simpl in E. by apply bind_Some in E as ([r' l'] & E & [= _ <-]).
  - done.
  - done.
Qed.

(** A stream that is the list of its updates, breakpoints included. *)
#[export] Instance list_stream : GraphStream (list (GraphUpdate bool)) bool := {
  set_break_point idx s := (s, true);
  get_update_buffer size s := (drop 3 s, take 3 s);
  get_update_is_thread_safe _ := true;
  is_breakpoint t := t
}.

Definition stream_in_range (n : N) (s : list (GraphUpdate bool)) : Prop := valid_updates n s.

Lemma until_breakpoint_valid n (us : list (GraphUpdate bool)) : valid_updates n us → valid_updates n (until_breakpoint us).1.
Proof.
  intros Hv. induction Hv as [|u us Hu Hv IH]; [constructor|]. simpl. destruct (upd_type u); [constructor|].
  destruct (until_breakpoint us) as [us' st]. simpl in *. by constructor.
Qed.

Lemma list_stream_sound n : StreamSound n (stream_in_range n).
Proof.
  split; [done|]. intros size s Hs. split; [by apply Forall_drop|]. by apply until_breakpoint_valid, Forall_take.
Qed.

Section Demo.
#[local] Existing Instance demo_platform.

Definition demo_stream : list (GraphUpdate bool) :=
  (λ '(u, v, t), mkUpdate (mkEdge u v) t) <$>
    [(0, 1, false); (2, 1, false); (0, 2, false); (3, 4, false); (1, 0, false); (0, 1, true); (4, 5, false); (0, 1, true)].

Definition demo_config : DriverConfiguration unit := mkDriverConf STANDALONE EmptyString 2 tt.

Abbreviation demo_object := (GraphSketchDriver gutters (list (N * list N)) DSU_MT (list (GraphUpdate bool)) bool).

Definition demo_driver : outcome (demo_object * bool) :=
  GraphSketchDriver_new (λ _, false) (λ _ c, c) (λ _ _ _ _ _ _, mkGutters (mkQueue [] false) [])
    (fresh_object demo_platform 6) demo_stream demo_config 1.

Definition demo_start : demo_object :=
  match demo_driver with
  | Ok (d, _) => d
  | _ => mkDriver (WorkerThreadGroup_new 0 (mkGutters (mkQueue [] false) [])) (fresh_object demo_platform 6) [] 0 0 [] PhIdle []
  end.

Definition stream_moves : list driver_move :=
  [MvStream 5; MvResume; MvResume; MvResume; MvResume; MvResume; MvResume] ++ replicate 10 (MvTask 0) ++
  [MvWorker 1; MvWorker 1] ++ replicate 9 (MvTask 0) ++ [MvJoin].

Definition flush_phase_moves : list (N + bool) :=
  replicate 4 (inr false) ++ replicate 30 (inl 1) ++ replicate 30 (inl 0) ++ replicate 5 (inr true).

(** The queue and the buffers are empty at first. *)
Lemma demo_started : started (C := unit) 6 2 demo_base (stream_in_range 6) demo_start.
Proof.
  split; [apply list_stream_sound|split; [reflexivity|vm_compute; discriminate]|].
  destruct (CCSketchAlg_new_ok 6 7 CCAlgConfiguration_default (λ i, i * 5 mod 7) demo_base demo_params) as (cc & Ec & _).
  assert (match demo_driver with Ok _ => true | _ => false end = true) as Ed by (vm_compute; reflexivity).
  unfold demo_start. destruct demo_driver as [[d w]|e| |] eqn:E; [|discriminate Ed..].
  assert (fresh_object demo_platform 6 = cc) as Hcc by (unfold fresh_object; by rewrite Ec).
  unfold demo_driver in E. rewrite Hcc in E.
  exists 7, CCAlgConfiguration_default, (λ i, i * 5 mod 7), cc, (λ _, false), (λ _ c, c),
    (λ _ _ _ _ _ _, mkGutters (mkQueue [] false) []), demo_stream, demo_config, 1, w.
  split; [exact demo_params|]. split; [exact Ec|]. split; [reflexivity|].
  split; [repeat constructor; vm_compute; discriminate|]. split; [reflexivity|exact E].
Qed.

#[local] Instance demo_parts : Partitioned 6 2 :=
  exact_partitioned 6 2 (EP := exact_partition_pow2 6 1 ltac:(lia) ltac:(lia) ltac:(lia)).

(** Half of the updates are applied or with a worker, others on the queue, one
    pair is in a buffer. *)
Lemma updates_conserved_witness : ∃ d, driver_execute stream_moves demo_start = d ∧
  sent (handled d) ≡ₚ pairs (strip <$> log (worker_threads d)) ++
    pairs (pending (worker_threads d)) ++ buffered (gts (worker_threads d)) ++ (threads d ≫= t_inserts) ∧
  pairs (strip <$> log (worker_threads d)) = [(0, 1)] ∧ buffered (gts (worker_threads d)) = [(0, 1)].
Proof.
  exists (driver_execute stream_moves demo_start). split; [reflexivity|].
  destruct (updates_conserved (C := unit) 2 6 2 demo_base (stream_in_range 6) demo_start
    (driver_execute stream_moves demo_start) demo_parts demo_started
    (driver_protocol_steps _ _ _ _ _ _ _ (driver_execute_steps stream_moves demo_start))) as (_ & Hp & _).
  split; [exact Hp|]. split; vm_compute; reflexivity.
Defined.

(** [prep_query] after [ms] flushes, and has returned after [fs]; then 0 and 1
    are connected. *)
Definition connected_01 (o : outcome reply) : bool := match o with Ok (RConnected true) => true | _ => false end.

Definition prepares (ms : list driver_move) (fs : list (N + bool)) (ids : list N) (total : N) (d : demo_object) : bool :=
  match prep_query CONNECTIVITY (driver_execute ms d) with
  | Some d2 =>
      let d3 := flush_phase_execute fs d2 in
      match ph d2, ph d3 with
      | PhFlush, PhIdle => ready_to_flushb (worker_threads d2) && bool_decide (stream_ids (handled (driver_execute ms d)) = ids) &&
          (get_total_updates d3 =? total) &&
          connected_01 (run_call (U := bool) 2 (CallPoint demo_schedules 0 1) (sketching_alg d3)).2
      | _, _ => false
      end
  | None => false
  end.

Lemma prepares_sound ms fs ids total d : prepares ms fs ids total d = true →
  ∃ d1 d2 d3, rtc driver_step d d1 ∧ prep_query CONNECTIVITY d1 = Some d2 ∧ ph d2 = PhFlush ∧
    ready_to_flush (worker_threads d2) ∧ rtc flush_phase_step d2 d3 ∧ ph d3 = PhIdle ∧
    stream_ids (handled d1) = ids ∧ get_total_updates d3 = total ∧
    connected_01 (run_call (U := bool) 2 (CallPoint demo_schedules 0 1) (sketching_alg d3)).2 = true.
Proof.
  unfold prepares. pose proof (driver_execute_steps ms d) as Hs. generalize dependent (driver_execute ms d).
  intros d1 Hs. destruct (prep_query CONNECTIVITY d1) as [d2|] eqn:Ep; [|done].
  pose proof (flush_phase_execute_steps fs d2) as Hf. generalize dependent (flush_phase_execute fs d2). intros d3 Hf.
  destruct (ph d2) eqn:E2, (ph d3) eqn:E3; try done. intros [[[Hr Hi]%andb_prop Ht%N.eqb_eq]%andb_prop Hc]%andb_prop.
  apply ready_to_flushb_sound in Hr. apply bool_decide_eq_true in Hi. by exists d1, d2, d3.
Qed.

(** Five updates, the last of which deletes the first edge. *)
Definition handled_ids : list N :=
  (λ '(u, v), concat_pairing_fn u v) <$> [(0, 1); (2, 1); (0, 2); (3, 4); (0, 1)].

Lemma demo_prepares : prepares stream_moves flush_phase_moves handled_ids 10 demo_start = true.
Proof. vm_compute. reflexivity. Qed.

Lemma prepared_query_witness : ∃ d3 : demo_object, ph d3 = PhIdle ∧ cc_inv (sketching_alg d3) demo_base (toggles handled_ids) ∧
  get_total_updates d3 = 10.
Proof.
  destruct (prepares_sound _ _ _ _ _ demo_prepares) as (d1 & d2 & d3 & Hs & Ep & Hf & Hr & Hs' & Hi & Eid & Ht & _).
  destruct (prepared_query (C := unit) 2 6 2 demo_base (stream_in_range 6) demo_start d1 d2 d3 demo_parts demo_started
    (driver_protocol_steps _ _ _ _ _ _ _ Hs) Ep Hf Hr Hs' Hi) as (_ & _ & HI & _).
  rewrite Eid in HI. exists d3. split; [exact Hi|]. split; [exact HI|exact Ht].
Defined.

Lemma handled_collision_free : collision_free (sk_seed demo_base) (toggles handled_ids).
Proof.
  apply (collision_free_subseteq _ (list_to_set handled_ids)).
  - intros id Hid%elem_of_toggles. by apply elem_of_list_to_set.
  - apply collision_free_decide. vm_compute. reflexivity.
Qed.

(** After the flush: the query runs the algorithm. *)
Lemma driver_queries_witness : ∃ (d3 : demo_object) alg,
  run_call (U := bool) 2 (CallPoint demo_schedules 0 1) (sketching_alg d3) = (alg, Ok (RConnected true)) ∧
  graph_connected (toggles handled_ids) 0 1 ∧
  rtc (protocol_step 6 2 demo_base ∅ 2) demo_start (set_alg alg d3).
Proof.
  destruct (prepares_sound _ _ _ _ _ demo_prepares) as (d1 & d2 & d3 & Hs & Ep & Hf & Hr & Hs' & Hi & Eid & Ht & Hc).
  assert (rtc (protocol_step 6 2 demo_base ∅ 2) demo_start d3) as Hrun.
  { apply driver_protocol_steps. etrans; [exact Hs|]. eapply rtc_l; [exact (DriverPrep _ _ _ Ep)|].
    revert Hs'. apply rtc_subrel. intros x y. apply DriverFlush. }
  destruct (flush_done (C := unit) 2 6 2 demo_base (stream_in_range 6) demo_start d1 d2 d3 demo_parts demo_started
    (driver_protocol_steps _ _ _ _ _ _ _ Hs) Ep Hf Hr Hs' Hi) as (_ & Hdr & Eh). rewrite <-Eh in Eid.
  destruct (driver_queries (C := unit) 2 6 2 demo_base (stream_in_range 6) demo_start d3 demo_parts demo_started Hrun Hi
    (or_intror Hdr) (CallPoint demo_schedules 0 1)) as (alg & o & E & Ho).
  - reflexivity.
  - split; [exact demo_order_perm|]. split; reflexivity.
  - intros s _ _. rewrite (left_id ∅ symdiff), Eid. apply query_reliable_collision_free, handled_collision_free.
  - rewrite E in Hc. cbn [snd] in Hc. destruct o as [[| | |[]|]|e| |]; try discriminate Hc.
    destruct Ho as (Ha & _ & Hrun'). rewrite Eid in Ha. exists d3, alg. split; [exact E|]. split; [by apply Ha|exact Hrun'].
Defined.

(** Three insertions have been handled, and no batch has been applied. *)
Definition cached_driver : demo_object :=
  driver_execute (take 17 stream_moves ++ [MvTask 0]) demo_start.

Lemma cached_query_witness : ∃ cc2, 
  point_query 2 demo_schedules 0 2 (sketching_alg cached_driver) = (cc2, Ok true) ∧
  graph_connected (toggles (stream_ids (handled cached_driver))) 0 2 ∧
  log (worker_threads cached_driver) = [] ∧ length (handled cached_driver) = 3%nat.
Proof.
  destruct (cached_query (C := unit) 2 6 2 demo_base (stream_in_range 6) demo_start cached_driver demo_parts demo_started
    (driver_protocol_steps _ _ _ _ _ _ _ (driver_execute_steps _ demo_start)) ltac:(vm_compute; reflexivity) 2 demo_schedules demo_order 0 2 demo_order_perm
    ltac:(reflexivity) ltac:(reflexivity)) as (_ & _ & cc2 & r & _ & _ & E & Hr).
  assert ((point_query 2 demo_schedules 0 2 (sketching_alg cached_driver)).2 = Ok true) as Hans by (vm_compute; reflexivity).
  rewrite E in Hans. cbn [snd] in Hans. injection Hans as ->.
  exists cc2. split; [exact E|]. split; [by apply Hr|]. split; vm_compute; reflexivity.
Defined.
End Demo.
