(* ===== verification/Verifier.v ===== *)
(** The verifier (include/test/graph_verifier.h, test/util/graph_verifier.cpp).

    It keeps the graph losslessly, as the upper half of its adjacency matrix,
    finds its components with Kruskal's algorithm, and checks the answers of the
    sketch algorithm. Builds with [VERIFY_SAMPLES_F] run it on every query. *)
From stdpp Require Import pretty.
From S2P Require Import Prelude Util Dsu Boruvka.

Open Scope N_scope.

(** * State *)

(** [adj_matrix !! i !! j] is the edge between [i] and [i + j]. [kruskal_ccs] is
    [None] until [kruskal] writes it. *)
Record GraphVerifier (D : Type) : Type := mkVerifier {
  gv_num_vertices : N;
  adj_matrix : list (list bool);
  kruskal_dsu : D;
  kruskal_ccs : option N;
  need_query_compute : bool
}.
Arguments mkVerifier {D}.
Arguments gv_num_vertices {D}.
Arguments adj_matrix {D}.
Arguments kruskal_dsu {D}.
Arguments kruskal_ccs {D}.
Arguments need_query_compute {D}.

(** An entry of the matrix. *)
Definition entry (i j : N) (m : list (list bool)) : outcome bool :=
  row ← of_option (m !! i); of_option ((row : list bool) !! j).

Definition set_entry (i j : N) (x : bool) (m : list (list bool)) : outcome (list (list bool)) :=
  row ← of_option (m !! i); _ ← of_option ((row : list bool) !! j); mret (<[i := <[j := x]> row]> m).

Definition swapped (a b : N) : N * N := if b <? a then (b, a) else (a, b).

(** [adj_matrix[src][dst] = !adj_matrix[src][dst]] after the swap and the
    subtraction. *)
Definition flip (a b : N) (m : list (list bool)) : outcome (list (list bool)) :=
  let '(src, dst) := swapped a b in
  let dst := usub 32 dst src in
  x ← entry src dst m; set_entry src dst (negb x) m.

Section Verifier.
Context {D : Type} `{UF : UnionFind D}.

Abbreviation verifier := (GraphVerifier D).
Implicit Type gv : verifier.

Definition set_matrix (m : list (list bool)) gv : verifier :=
  mkVerifier (gv_num_vertices gv) m (kruskal_dsu gv) (kruskal_ccs gv) (need_query_compute gv).
Definition set_kruskal_dsu (d : D) gv : verifier :=
  mkVerifier (gv_num_vertices gv) (adj_matrix gv) d (kruskal_ccs gv) (need_query_compute gv).
Definition set_kruskal_ccs (c : option N) gv : verifier :=
  mkVerifier (gv_num_vertices gv) (adj_matrix gv) (kruskal_dsu gv) c (need_query_compute gv).
Definition set_need_query (b : bool) gv : verifier :=
  mkVerifier (gv_num_vertices gv) (adj_matrix gv) (kruskal_dsu gv) (kruskal_ccs gv) b.

(** * Construction *)

Definition empty_matrix (n : N) : list (list bool) :=
  (λ i, replicate (N.to_nat (n - i)) false) <$> seqN 0 n.

Definition GraphVerifier_new (n : N) (prio_gen : N → N) : verifier :=
  mkVerifier n (empty_matrix n) (uf_new n prio_gen) None true.

(** Copies three members; the others are initialised as in a new object. *)
Definition GraphVerifier_copy gv : verifier :=
  mkVerifier (gv_num_vertices gv) (adj_matrix gv) (kruskal_dsu gv) None true.

(** * Updates *)

Definition out_of_bounds (e : Edge) : exn :=
  BadEdgeException ("Source " +:+ pretty (src e) +:+ " or Destination " +:+ pretty (dst e) +:+ " out of bounds!").

Definition edge_update (e : Edge) : M verifier unit :=
  n ← gets gv_num_vertices;
  if (n <=? src e) || (n <=? dst e) then throw (out_of_bounds e)
  else
    m ← gets adj_matrix;
    m ← lift (flip (src e) (dst e) m);
    _ ← modify (set_matrix m);
    modify (set_need_query true).

(** Rows of different length would be read past their end. *)
Definition xor_rows (r s : list bool) : outcome (list bool) :=
  ofold (λ j r, x ← of_option (r !! j); y ← of_option (s !! j); mret (<[j := xorb x y]> r))
    (seqN 0 (N.of_nat (length r))) r.

Definition combine (oth : verifier) : M verifier unit :=
  m ← gets adj_matrix;
  m ← lift (ofold (λ i m, r ← of_option (m !! i); s ← of_option (adj_matrix oth !! i);
                          r ← xor_rows r s; mret (<[i := r]> m))
              (seqN 0 (N.of_nat (length m))) m);
  modify (set_matrix m).

(** * Kruskal's algorithm *)

Definition kruskal_entry (i j : N) : M verifier unit :=
  m ← gets adj_matrix;
  x ← lift (entry i j m);
  if x : bool then
    r ← zoom kruskal_dsu set_kruskal_dsu (uf_merge i (u32 (i + j)));
    if merged r then
      c ← gets kruskal_ccs;
      c ← lift (of_option c);
      modify (set_kruskal_ccs (Some (usub 32 c 1)))
    else mret tt
  else mret tt.

Definition kruskal_row (i : N) : M verifier unit :=
  m ← gets adj_matrix;
  row ← lift (of_option (m !! i));
  for_each (seqN 0 (N.of_nat (length row))) (kruskal_entry i).

Definition kruskal : M verifier unit :=
  need ← gets need_query_compute;
  if negb need then mret tt
  else
    n ← gets gv_num_vertices;
    _ ← modify (set_kruskal_ccs (Some n));
    _ ← modify (λ gv, set_kruskal_dsu (uf_reset (kruskal_dsu gv)) gv);
    _ ← for_each (seqN 0 n) kruskal_row;
    modify (set_need_query false).

(** Reading the count before [kruskal] has written it is undefined. *)
Definition get_num_kruskal_ccs gv : outcome N := of_option (kruskal_ccs gv).

(** The constructor from a cumulative file; [edges] is what the stream of the
    file yields before its breakpoint. It does no bounds check. *)
Definition GraphVerifier_from (n : N) (prio_gen : N → N) (edges : list Edge) : verifier * outcome unit :=
  (_ ← for_each edges (λ e, m ← gets adj_matrix;
                            m ← lift (flip (src e) (dst e) m);
                            modify (set_matrix m));
   kruskal) (GraphVerifier_new n prio_gen).

(** * Checks *)

Definition not_in_cut : exn := BadEdgeException "The edge is not in the cut of the sample!".

Definition verify_edge (e : Edge) : M verifier unit :=
  let '(src, dst) := swapped (src e) (dst e) in
  m ← gets adj_matrix;
  x ← lift (entry src (usub 32 dst src) m);
  if x : bool then mret tt else throw not_in_cut.

Definition find_kruskal_root (i : N) : M verifier N := zoom kruskal_dsu set_kruskal_dsu (uf_find_root i).

Definition check_vertex (cc : ConnectedComponents) (i : N) : M verifier unit :=
  root ← find_kruskal_root i;
  c ← lift (is_connected cc root i);
  if c : bool then mret tt else throw (IncorrectCCException "Incorrect Connectivity!").

Definition verify_connected_components (cc : ConnectedComponents) : M verifier unit :=
  _ ← kruskal;
  c ← gets kruskal_ccs;
  c ← lift (of_option c);
  if negb (c =? components_size cc) then throw (IncorrectCCException "Incorrect number of components!")
  else
    n ← gets gv_num_vertices;
    for_each (seqN 0 n) (check_vertex cc).

(** ** Spanning forests

    Inside the loops the state is the verifier and the forest's own disjoint
    set union. *)

Definition redundant (e : Edge) : exn :=
  IncorrectForestException ("Found an edge: (" +:+ pretty (src e) +:+ ", " +:+ pretty (dst e) +:+
    ") that is redundant within a single spanning forest!").
Definition mismatch : exn := IncorrectForestException "Forest does not match expected component sets!".

Definition on_verifier {A} (m : M verifier A) : M (verifier * D) A := zoom fst (λ gv p, (gv, p.2)) m.
Definition on_forest {A} (m : M D A) : M (verifier * D) A := zoom snd (λ d p, (p.1, d)) m.

(** [catch (...)]: an exception is rethrown after [adj_matrix = backup]. *)
Definition restoring {A} (backup : list (list bool)) (m : M verifier A) : M verifier A := λ gv,
  match m gv with
  | (gv, Throw e) => (set_matrix backup gv, Throw e)
  | r => r
  end.

Definition check_forest_edge (backup : list (list bool)) (e : Edge) : M (verifier * D) unit :=
  r ← on_forest (uf_merge (src e) (dst e));
  if negb (merged r) then on_verifier (restoring backup (throw (redundant e)))
  else
    _ ← on_verifier (restoring backup (verify_edge e));
    on_verifier (edge_update e).

(** [root_map] is the loop's local map. *)
Definition check_forest_vertex (backup : list (list bool)) (i : N) (root_map : gmap N N) :
    M (verifier * D) (gmap N N) :=
  kruskal_root ← on_verifier (find_kruskal_root i);
  f ← on_forest (uf_find_root i);
  match root_map !! kruskal_root with
  | None => mret (<[kruskal_root := f]> root_map)
  | Some r => if r =? f then mret root_map else on_verifier (restoring backup (throw mismatch))
  end.

Fixpoint check_forest_vertices (backup : list (list bool)) (vs : list N) (root_map : gmap N N) :
    M (verifier * D) unit :=
  match vs with
  | [] => mret tt
  | i :: vs => root_map ← check_forest_vertex backup i root_map; check_forest_vertices backup vs root_map
  end.

Definition check_forest_body (backup : list (list bool)) (forest : SpanningForest) (n : N) : M (verifier * D) unit :=
  _ ← for_each (sf_edges forest) (check_forest_edge backup);
  check_forest_vertices backup (seqN 0 n) ∅.

(** [d] lives as long as the block [m]. *)
Definition with_forest {A} (d : D) (m : M (verifier * D) A) : M verifier A := λ gv,
  let '(gv, _, o) := m (gv, d) in (gv, o).

(** A turn of the loop over the forests; [prio_gen] gives the priorities of
    [forest_ccs]. *)
Definition check_forest (backup : list (list bool)) (prio_gen : N → N) (forest : SpanningForest) : M verifier unit :=
  _ ← kruskal;
  n ← gets gv_num_vertices;
  with_forest (uf_new n prio_gen) (check_forest_body backup forest n).

Definition verify_spanning_forests (SFs : list ((N → N) * SpanningForest)) : M verifier unit :=
  backup ← gets adj_matrix;
  _ ← for_each SFs (λ '(prio_gen, forest), check_forest backup prio_gen forest);
  modify (set_matrix backup).

(** * The driver's use of it

    Each stream thread keeps a verifier of its own, which it combines into the
    driver's under a mutex when it reaches its breakpoint. *)
Definition thread_verifier (n : N) (prio_gen : N → N) (edges : list Edge) : M verifier unit := λ gv,
  match for_each edges edge_update (GraphVerifier_new n prio_gen) with
  | (local, Ok _) => combine local gv
  | (_, Throw e) => (gv, Throw e)
  | (_, Abort) => (gv, Abort)
  | (_, Undef) => (gv, Undef)
  end.

(** [threads] lists the edges of each thread in the order they finish; the copy
    goes to the algorithm. *)
Definition driver_verifier (n : N) (prio_gen : N → N) (threads : list (list Edge)) : M verifier verifier :=
  _ ← for_each threads (thread_verifier n prio_gen);
  gets GraphVerifier_copy.

Definition verifier_eqb gv (oth : verifier) : bool := bool_decide (adj_matrix gv = adj_matrix oth).

Definition check_verifier (expected : verifier) gv : outcome unit :=
  if verifier_eqb gv expected then mret tt
  else Throw (DriverException "Mismatch between driver verifier and expected verifier").
End Verifier.
