(* ===== verification/VerifierCorrect.v ===== *)
(** What the verifier accepts.

    [represents] relates the matrix to the graph of file Graph, and [holds] is
    the invariant of a verifier whose cached components, when it has any, are
    those of its matrix. Under it [verify_connected_components] accepts exactly
    the right answers ([components_verified]) and [verify_spanning_forests]
    exactly the edge-disjoint spanning forests ([forests_verified]), so a correct
    query is never rejected ([queries_pass_verification]). Two operations leave
    the invariant ([verifier_goes_stale]). *)
From S2P Require Import Prelude Float64 Platform Util XorSet Bucket Sketch Dsu DsuMT Graph Forest Config CCAlg Partition MergeInstr Round Region Programs RoundCorrect Instructions Boruvka BoruvkaCorrect Queries Session Correctness Verifier.

Open Scope N_scope.

(** * The matrix *)

Definition represents (n : N) (G : gset N) (m : list (list bool)) : Prop :=
  length m = N.to_nat n ∧
  ∀ i, i < n → ∃ row, m !! i = Some row ∧ length row = N.to_nat (n - i) ∧
    ∀ j, j < n - i → row !! j = Some (bool_decide (concat_pairing_fn i (i + j) ∈ G)).

Lemma swapped_min_max a b : swapped a b = (N.min a b, N.max a b).
Proof. unfold swapped. destruct (N.ltb_spec b a); f_equal; lia. Qed.

Lemma concat_inj n i j i' j' : n ≤ 2 ^ 32 → i ≤ j → i' ≤ j' → j < n → j' < n →
  concat_pairing_fn i j = concat_pairing_fn i' j' → i = i' ∧ j = j'.
Proof.
  intros Hn Hi Hi' Hj Hj' E.
  destruct (concat_ends i j) as [E1 E2]; [unfold is_node_id, num_bits; lia..|].
  destruct (concat_ends i' j') as [E1' E2']; [unfold is_node_id, num_bits; lia..|].
  rewrite E in E1, E2. rewrite E1 in E1'. rewrite E2 in E2'. lia.
Qed.

Lemma concat_min_max n a b : n ≤ 2 ^ 32 → a < n → b < n →
  concat_pairing_fn (N.min a b) (N.max a b) = concat_pairing_fn a b.
Proof.
  intros Hn Ha Hb. destruct (N.le_ge_cases a b).
  - by rewrite N.min_l, N.max_r by done.
  - rewrite N.min_r, N.max_l by done. apply concat_pairing_fn_comm; unfold is_node_id, num_bits; lia.
Qed.

Lemma represents_empty n : represents n ∅ (empty_matrix n).
Proof.
  unfold empty_matrix. split; [by rewrite length_fmap, length_seqN|]. intros i Hi.
  exists (replicate (N.to_nat (n - i)) false). rewrite lookupN_eq, list_lookup_fmap, <-lookupN_eq, lookup_seqN by done.
  split; [done|]. split; [by rewrite length_replicate|]. intros j Hj. rewrite lookupN_eq, lookup_replicate_2 by lia.
  by rewrite bool_decide_eq_false_2.
Qed.

Lemma matrix_graph_unique n G m m' : represents n G m → represents n G m' → m = m'.
Proof.
  intros [L H] [L' H']. apply list_eqN. intros i. destruct (N.lt_ge_cases i n) as [Hi|Hi].
  - destruct (H i Hi) as (r & -> & Lr & Hr), (H' i Hi) as (r' & -> & Lr' & Hr'). f_equal. apply list_eqN. intros j.
    destruct (N.lt_ge_cases j (n - i)) as [Hj|Hj]; [by rewrite Hr, Hr'|]. by rewrite !lookupN_ge_None by lia.
  - by rewrite !lookupN_ge_None by lia.
Qed.

Lemma represents_ids n G G' m : n ≤ 2 ^ 32 → graph n G → graph n G' → represents n G m → represents n G' m → G = G'.
Proof.
  intros Hn HG HG' [_ H] [_ H']. apply set_eq.
  assert (∀ id, edge_id n id → id ∈ G ↔ id ∈ G') as Hid.
  { intros id He. pose proof He as (Hb & Hlt & Hd). destruct (H (id_src id)) as (r & Er & _ & Hr); [lia|].
    destruct (H' (id_src id)) as (r' & Er' & _ & Hr'); [lia|]. rewrite Er in Er'. injection Er' as <-.
    specialize (Hr (id_dst id - id_src id) ltac:(lia)). specialize (Hr' (id_dst id - id_src id) ltac:(lia)).
    rewrite Hr in Hr'. replace (id_src id + (id_dst id - id_src id)) with (id_dst id) in Hr' by lia.
    rewrite (edge_id_concat n id Hn He) in Hr'. injection Hr' as Hb'.
    by rewrite <-(bool_decide_eq_true (id ∈ G)), Hb', bool_decide_eq_true. }
  intros id. split; intros Hin; apply Hid; auto.
Qed.

Lemma entry_ok n G m i j : represents n G m → i + j < n →
  entry i j m = Ok (bool_decide (concat_pairing_fn i (i + j) ∈ G)).
Proof.
  intros [_ H] Hij. destruct (H i) as (row & E & _ & Hr); [lia|]. unfold entry. rewrite E. cbn [of_option mbind outcome_bind].
  by rewrite Hr by lia.
Qed.

(** The entry of an edge, wherever its ends are. *)
Lemma edge_entry_ok n G m a b : n ≤ 2 ^ 32 → represents n G m → a < n → b < n →
  entry (N.min a b) (usub 32 (N.max a b) (N.min a b)) m = Ok (bool_decide (concat_pairing_fn a b ∈ G)).
Proof.
  intros Hn HR Ha Hb. rewrite usub_small by lia. rewrite (entry_ok n G) by (done || lia).
  replace (N.min a b + (N.max a b - N.min a b)) with (N.max a b) by lia. by rewrite (concat_min_max n).
Qed.

Lemma set_entry_ok n G G' m i j x : n ≤ 2 ^ 32 → represents n G m → i + j < n →
  (concat_pairing_fn i (i + j) ∈ G' ↔ x = true) →
  (∀ id, id ≠ concat_pairing_fn i (i + j) → id ∈ G' ↔ id ∈ G) →
  ∃ m', set_entry i j x m = Ok m' ∧ represents n G' m'.
Proof.
  intros Hn [L H] Hij Hx Hne. destruct (H i) as (row & E & Lr & Hr); [lia|]. unfold set_entry. rewrite E.
  cbn [of_option mbind outcome_bind]. rewrite Hr by lia. cbn [of_option mbind outcome_bind].
  eexists. split; [done|]. split; [by rewrite length_insertN|]. intros i' Hi'. destruct (decide (i' = i)) as [->|Hii].
  - exists (<[j := x]> row). rewrite lookupN_insert_eq by lia. split; [done|]. split; [by rewrite length_insertN|].
    intros j' Hj'. destruct (decide (j' = j)) as [->|Hjj].
    + rewrite lookupN_insert_eq by lia. f_equal. symmetry. destruct x; [apply bool_decide_eq_true_2; by apply Hx|].
      apply bool_decide_eq_false_2. intros Hc. apply Hx in Hc. done.
    + rewrite lookupN_insert_ne by done. rewrite Hr by done. f_equal. apply bool_decide_ext. symmetry. apply Hne.
      intros Hc. apply (concat_inj n) in Hc; lia.
  - destruct (H i' Hi') as (row' & E' & Lr' & Hr'). exists row'. rewrite lookupN_insert_ne by done. split; [done|].
    split; [done|]. intros j' Hj'. rewrite Hr' by done. f_equal. apply bool_decide_ext. symmetry. apply Hne.
    intros Hc. apply (concat_inj n) in Hc; lia.
Qed.

Lemma flip_ok n G m a b : n ≤ 2 ^ 32 → represents n G m → a < n → b < n →
  ∃ m', flip a b m = Ok m' ∧ represents n (G △ {[ concat_pairing_fn a b ]}) m'.
Proof.
  intros Hn HR Ha Hb. unfold flip. rewrite swapped_min_max, (edge_entry_ok n G) by done.
  cbn [mbind outcome_bind]. rewrite usub_small by lia.
  apply (set_entry_ok n G); [done|done|lia|..];
    replace (N.min a b + (N.max a b - N.min a b)) with (N.max a b) by lia; rewrite (concat_min_max n) by done.
  - rewrite elem_of_symdiff. case_bool_decide; simpl; set_solver.
  - intros id Hid. rewrite elem_of_symdiff. set_solver.
Qed.

(** ** Rows *)

Lemma xor_rows_ok n G G' i r s : length r = N.to_nat (n - i) → length s = N.to_nat (n - i) →
  (∀ j, j < n - i → r !! j = Some (bool_decide (concat_pairing_fn i (i + j) ∈ G))) →
  (∀ j, j < n - i → s !! j = Some (bool_decide (concat_pairing_fn i (i + j) ∈ G'))) →
  ∃ t, xor_rows r s = Ok t ∧ length t = N.to_nat (n - i) ∧
    ∀ j, j < n - i → t !! j = Some (bool_decide (concat_pairing_fn i (i + j) ∈ G △ G')).
Proof.
  intros Lr Ls Hr Hs. unfold xor_rows. rewrite Lr, N2Nat.id.
  destruct (ofold_range (λ k (t : list bool), length t = N.to_nat (n - i) ∧ ∀ j, j < n - i → t !! j =
      Some (bool_decide (concat_pairing_fn i (i + j) ∈ if j <? k then G △ G' else G))) 0 (n - i)
    (λ j r, x ← of_option (r !! j); y ← of_option (s !! j); mret (<[j := xorb x y]> r)))
    with (s := r) as (t & -> & Lt & Ht).
  - intros k t Hk [Lt Ht]. rewrite N.add_0_l. rewrite Ht, Hs by done. rewrite N.ltb_irrefl.
    cbn [of_option mbind outcome_bind]. eexists. split; [done|]. split; [by rewrite length_insertN|].
    intros j Hj. destruct (decide (j = k)) as [->|Hne].
    + rewrite lookupN_insert_eq by lia. f_equal. rewrite (proj2 (N.ltb_lt k (k + 1))) by lia.
      symmetry. repeat case_bool_decide; simpl; set_solver.
    + rewrite lookupN_insert_ne, Ht by done. f_equal. destruct (N.ltb_spec j k), (N.ltb_spec j (k + 1)); done || lia.
  - split; [done|]. intros j Hj. rewrite Hr by done. destruct (N.ltb_spec j 0); [lia|done].
  - exists t. split; [done|]. split; [done|]. intros j Hj. rewrite Ht by done. by rewrite (proj2 (N.ltb_lt j (n - i))).
Qed.

Lemma xor_matrix_ok n G G' m m' : represents n G m → represents n G' m' →
  ∃ t, ofold (λ i m, r ← of_option (m !! i); s ← of_option (m' !! i); r ← xor_rows r s; mret (<[i := r]> m))
         (seqN 0 (N.of_nat (length m))) m = Ok t ∧ represents n (G △ G') t.
Proof.
  intros [L H] [L' H']. rewrite L, N2Nat.id.
  destruct (ofold_range (λ k (t : list (list bool)), length t = N.to_nat n ∧ ∀ i, i < n → ∃ row, t !! i = Some row ∧
      length row = N.to_nat (n - i) ∧ ∀ j, j < n - i → row !! j =
        Some (bool_decide (concat_pairing_fn i (i + j) ∈ if i <? k then G △ G' else G))) 0 n
    (λ i m, r ← of_option (m !! i); s ← of_option (m' !! i); r ← xor_rows r s; mret (<[i := r]> m)))
    with (s := m) as (t & -> & Lt & Ht).
  - intros k t Hk [Lt Ht]. rewrite N.add_0_l. destruct (Ht k Hk) as (r & Er & Lr & Hr), (H' k Hk) as (s & Es & Ls & Hs).
    rewrite N.ltb_irrefl in Hr. rewrite Er, Es. cbn [of_option mbind outcome_bind].
    destruct (xor_rows_ok n G G' k r s Lr Ls Hr Hs) as (r' & Er' & Lr' & Hr'). rewrite Er'. cbn [mbind outcome_bind].
    eexists. split; [done|]. split; [by rewrite length_insertN|]. intros i Hi. destruct (decide (i = k)) as [->|Hne].
    + exists r'. rewrite lookupN_insert_eq by lia. rewrite (proj2 (N.ltb_lt k (k + 1))) by lia. done.
    + rewrite lookupN_insert_ne by done. destruct (Ht i Hi) as (q & Eq & Lq & Hq). exists q. split; [done|]. split; [done|].
      intros j Hj. rewrite Hq by done. destruct (N.ltb_spec i k), (N.ltb_spec i (k + 1)); done || lia.
  - split; [done|]. intros i Hi. destruct (H i Hi) as (r & Er & Lr & Hr). exists r. split; [done|]. split; [done|].
    intros j Hj. rewrite Hr by done. destruct (N.ltb_spec i 0); [lia|done].
  - exists t. split; [done|]. split; [done|]. intros i Hi. destruct (Ht i Hi) as (q & Eq & Lq & Hq). exists q.
    by rewrite (proj2 (N.ltb_lt i n)) in Hq.
Qed.

(** ** Counting *)

Lemma list_filter_ext_in {A} (P Q : A → Prop) `{∀ x, Decision (P x), ∀ x, Decision (Q x)} (l : list A) :
  (∀ x, x ∈ l → P x ↔ Q x) → filter P l = filter Q l.
Proof.
  induction l as [|x l IH]; intros Hl; [done|]. rewrite !filter_cons.
  rewrite IH by (intros y Hy; apply Hl; by right). pose proof (Hl x (list_elem_of_here _ _)). repeat case_decide; tauto.
Qed.

Lemma list_filter_all {A} (P : A → Prop) `{∀ x, Decision (P x)} (l : list A) : (∀ x, x ∈ l → P x) → filter P l = l.
Proof.
  induction l as [|x l IH]; intros Hl; [done|]. rewrite filter_cons, decide_True by (apply Hl; left).
  by rewrite IH by (intros y Hy; apply Hl; by right).
Qed.

Lemma filter_remove_one {A} `{EqDecision A} (P Q : A → Prop) `{∀ x, Decision (P x), ∀ x, Decision (Q x)} (c : A) (l : list A) :
  NoDup l → c ∈ l → P c → (∀ x, x ∈ l → Q x ↔ P x ∧ x ≠ c) → length (filter P l) = S (length (filter Q l)).
Proof.
  intros Hnd Hc HP. revert Hnd Hc. induction l as [|x l IH]; intros Hnd Hc Hl; [by apply elem_of_nil in Hc|].
  apply NoDup_cons in Hnd as [Hx Hnd]. rewrite !filter_cons. pose proof (Hl x (list_elem_of_here _ _)) as Hxq.
  destruct (decide (x = c)) as [->|Hne].
  - rewrite (decide_True (P := P c)) by done. rewrite decide_False by naive_solver. simpl. f_equal. f_equal. apply list_filter_ext_in.
    intros y Hy. rewrite (Hl y) by (by right). split; [|tauto]. intros Hy'. split; [done|]. by intros ->.
  - apply elem_of_cons in Hc as [->|Hc]; [done|]. specialize (IH Hnd Hc ltac:(intros y Hy; apply Hl; by right)).
    repeat case_decide; simpl; try tauto; by rewrite IH.
Qed.

Lemma NoDup_fmap_inj_on {A B} (f : A → B) (l : list A) x y : NoDup (f <$> l) → x ∈ l → y ∈ l → f x = f y → x = y.
Proof.
  induction l as [|z l IH]; intros Hnd Hx Hy E; [by apply elem_of_nil in Hx|].
  rewrite fmap_cons in Hnd. apply NoDup_cons in Hnd as [Hz Hnd].
  apply elem_of_cons in Hx as [->|Hx], Hy as [->|Hy]; [done|..].
  - destruct Hz. rewrite E. by apply list_elem_of_fmap_2.
  - destruct Hz. rewrite <-E. by apply list_elem_of_fmap_2.
  - by apply IH.
Qed.

(** ** Forests *)

Lemma acyclic_pairs_app_r es es' : acyclic_pairs (es ++ es') → acyclic_pairs es'.
Proof. induction es as [|[u v] es IH]; [done|]. intros [_ H]. by apply IH. Qed.

Lemma acyclic_pairs_perm es es' : es ≡ₚ es' → acyclic_pairs es → acyclic_pairs es'.
Proof.
  induction 1 as [|[u v] es es' Hp IH|[u v] [a b] es|es es' es'' _ IH1 _ IH2]; [done|..].
  - intros [Hc Ha]. split; [|by apply IH]. intros Hc'. apply Hc. revert Hc'. apply pair_connected_mono. intros p. by rewrite Hp.
  - intros (Hab & Huv & Ha). split; [|split; [|done]].
    + intros Hc. apply pair_connected_cons in Hc as [Hc|[[H1 H2]|[H1 H2]]]; [done|..]; apply Hab.
      all: assert (pair_connected ((u, v) :: es) u v) as Hin by (apply pair_connected_in; left).
      all: assert (∀ x y, pair_connected es x y → pair_connected ((u, v) :: es) x y) as Hm
        by (intros x y; apply pair_connected_mono; set_solver).
      * etrans; [symmetry; by apply Hm|]. etrans; [exact Hin|]. symmetry. by apply Hm.
      * etrans; [by apply Hm|]. etrans; [symmetry; exact Hin|]. by apply Hm.
    + intros Hc. apply Hab. revert Hc. apply pair_connected_mono. set_solver.
  - auto.
Qed.

Lemma graph_connected_range n G x y : graph n G → graph_connected G x y → x = y ∨ (x < n ∧ y < n).
Proof.
  intros HG. assert (Equivalence (λ x y, x = y ∨ (x < n ∧ y < n))) as HE by (split; red; intros; naive_solver).
  apply (pair_connected_ind (λ x y, x = y ∨ (x < n ∧ y < n)) (Equivalence0 := HE)). intros a b (id & Hid & <- & <-)%elem_of_graph_pairs. destruct (HG id Hid) as (_ & ? & ?). right. lia.
Qed.

(** The edges of a list of pairs, as ids. *)
Definition pair_ids (es : list (N * N)) : gset N := list_to_set ((λ p, concat_pairing_fn p.1 p.2) <$> es).

Definition in_range (n : N) (es : list (N * N)) : Prop := Forall (λ p, p.1 < n ∧ p.2 < n) es.

Lemma elem_of_pair_ids id es : id ∈ pair_ids es ↔ ∃ u v, (u, v) ∈ es ∧ id = concat_pairing_fn u v.
Proof.
  unfold pair_ids. rewrite elem_of_list_to_set, list_elem_of_fmap. split.
  - intros ([u v] & -> & Hin). by exists u, v.
  - intros (u & v & Hin & ->). by exists (u, v).
Qed.

(** A pair whose edge is already there joins nothing. *)
Lemma pair_ids_connected n es u v : n ≤ 2 ^ 32 → in_range n es → u < n → v < n →
  concat_pairing_fn u v ∈ pair_ids es → pair_connected es u v.
Proof.
  intros Hn Hes Hu Hv (a & b & Hab & E)%elem_of_pair_ids. unfold in_range in Hes. rewrite Forall_forall in Hes.
  destruct (Hes _ Hab) as [Ha Hb]. simpl in Ha, Hb.
  destruct (concat_ends u v) as [E1 E2]; [unfold is_node_id, num_bits; lia..|].
  destruct (concat_ends a b) as [E3 E4]; [unfold is_node_id, num_bits; lia..|]. rewrite E in E1, E2.
  assert ((u = a ∧ v = b) ∨ (u = b ∧ v = a)) as [[-> ->]|[-> ->]] by lia.
  - by apply pair_connected_in.
  - symmetry. by apply pair_connected_in.
Qed.

Lemma pair_ids_cons_graph (G : gset N) u v es :
  concat_pairing_fn u v ∈ G ∖ pair_ids es → (G ∖ pair_ids es) △ {[ concat_pairing_fn u v ]} = G ∖ pair_ids ((u, v) :: es).
Proof.
  intros Hin. unfold pair_ids. rewrite fmap_cons. cbn [fst snd list_to_set]. fold (pair_ids es).
  apply set_eq. intros id. rewrite elem_of_symdiff. revert Hin. generalize (concat_pairing_fn u v). intros x Hin.
  destruct (decide (id = x)) as [->|]; set_solver.
Qed.

(** * The verifier *)

Section Verifier.
Context {D : Type} `{UFL : UnionFindLaws D}.

Abbreviation verifier := (GraphVerifier D).
Implicit Type gv : verifier.

(** The vertices that are roots, one per class. *)
Definition roots (d : D) (n : N) : list N := filter (λ v, uf_root d v = v) (seqN 0 n).

(** The members that every operation keeps. *)
Record verifier_wf (n : N) gv : Prop := {
  vw_n : gv_num_vertices gv = n;
  vw_ok : uf_ok (kruskal_dsu gv);
  vw_size : uf_size (kruskal_dsu gv) = n
}.

Record computed (n : N) (G : gset N) gv : Prop := {
  co_ccs : kruskal_ccs gv = Some (N.of_nat (length (roots (kruskal_dsu gv) n)));
  co_root x y : x < n → y < n → uf_root (kruskal_dsu gv) x = uf_root (kruskal_dsu gv) y ↔ graph_connected G x y
}.

Record holds (n : N) (G : gset N) gv : Prop := {
  ho_wf : verifier_wf n gv;
  ho_matrix : represents n G (adj_matrix gv);
  ho_cache : need_query_compute gv = false → computed n G gv
}.

Lemma GraphVerifier_new_ok n prio_gen : holds n ∅ (GraphVerifier_new n prio_gen).
Proof using .
  destruct (uf_new_ok n prio_gen) as (Hok & Hsz & _). split; [by split|apply represents_empty|done].
Qed.

Lemma GraphVerifier_copy_ok n G gv : verifier_wf n gv → represents n G (adj_matrix gv) → holds n G (GraphVerifier_copy gv).
Proof using . intros [] HR. by split. Qed.

Lemma edge_update_ok n G gv e : n ≤ 2 ^ 32 → verifier_wf n gv → represents n G (adj_matrix gv) → src e < n → dst e < n →
  ∃ gv', edge_update e gv = (gv', Ok tt) ∧ holds n (G △ {[ concat_pairing_fn (src e) (dst e) ]}) gv' ∧
    need_query_compute gv' = true ∧ kruskal_dsu gv' = kruskal_dsu gv.
Proof using .
  intros Hn [Hnum Hok Hsz] HR Hs Hd. unfold edge_update. rewrite M_bind_gets, Hnum.
  rewrite (proj2 (N.leb_gt n (src e))), (proj2 (N.leb_gt n (dst e))) by done. cbn [orb]. rewrite M_bind_gets.
  destruct (flip_ok n G _ _ _ Hn HR Hs Hd) as (m & E & HR'). rewrite (M_bind_lift _ _ _ _ E), M_bind_modify.
  eexists. split; [done|]. split; [|done]. by split.
Qed.

Lemma edge_update_bounds n gv e : gv_num_vertices gv = n → n ≤ src e ∨ n ≤ dst e →
  edge_update e gv = (gv, Throw (out_of_bounds e)).
Proof using .
  intros Hnum Hb. unfold edge_update. rewrite M_bind_gets, Hnum.
  assert ((n <=? src e) || (n <=? dst e) = true) as ->; [|done]. rewrite orb_true_iff, !N.leb_le. done.
Qed.

Lemma combine_ok n G G' gv oth : verifier_wf n gv → represents n G (adj_matrix gv) → represents n G' (adj_matrix oth) →
  ∃ gv', combine oth gv = (gv', Ok tt) ∧ verifier_wf n gv' ∧ represents n (G △ G') (adj_matrix gv') ∧
    need_query_compute gv' = need_query_compute gv.
Proof using .
  intros [Hnum Hok Hsz] HR HR'. unfold combine. rewrite M_bind_gets.
  destruct (xor_matrix_ok n G G' _ _ HR HR') as (t & E & Ht). rewrite (M_bind_lift _ _ _ _ E).
  eexists. split; [done|]. by split.
Qed.

Lemma verify_edge_ok n G gv e : n ≤ 2 ^ 32 → represents n G (adj_matrix gv) → src e < n → dst e < n →
  verify_edge e gv = (gv, if bool_decide (concat_pairing_fn (src e) (dst e) ∈ G) then Ok tt else Throw not_in_cut).
Proof using .
  intros Hn HR Hs Hd. unfold verify_edge. rewrite swapped_min_max, M_bind_gets.
  rewrite (M_bind_lift _ _ _ _ (edge_entry_ok n G _ _ _ Hn HR Hs Hd)). by case_bool_decide.
Qed.

(** ** Kruskal's algorithm *)

(** A merge that merges leaves one root fewer. *)
Lemma merge_roots d u v : uf_ok d → u < uf_size d → v < uf_size d →
  ∃ d' r, uf_merge u v d = (d', Ok r) ∧ uf_size d' = uf_size d ∧
    length (roots d (uf_size d)) = ((if merged r then 1 else 0) + length (roots d' (uf_size d)))%nat.
Proof using .
  intros Hok Hu Hv. destruct (uf_merge_ok d u v Hok Hu Hv) as (d' & r & E & _ & Hs & Heff). exists d', r.
  split; [done|]. split; [done|]. unfold roots.
  pose proof (uf_root_idemp d u Hok Hu) as Iu. pose proof (uf_root_idemp d v Hok Hv) as Iv.
  destruct Heff as [(_ & -> & Hr)|(Hne & -> & Hc & Hr)]; simpl.
  - f_equal. apply list_filter_ext_in. intros x Hx%elem_of_seqN. rewrite Hr by lia. done.
  - assert (mroot r ≠ mchild r ∧ uf_root d (mroot r) = mroot r ∧ uf_root d (mchild r) = mchild r ∧ mchild r < uf_size d)
      as (Hrc & Ir & Ic & Hlt).
    { pose proof (uf_root_lt d u Hok Hu). pose proof (uf_root_lt d v Hok Hv).
      destruct Hc as [[-> ->]|[-> ->]]; split_and!; congruence || done. }
    apply (filter_remove_one _ _ (mchild r)); [apply NoDup_seqN|apply elem_of_seqN; lia|done|].
    intros x Hx%elem_of_seqN. rewrite Hr by lia. destruct (N.eqb_spec (uf_root d x) (mchild r)) as [Ex|Ex].
    + split; [intros <-; congruence|]. intros [E1 E2]. congruence.
    + split; [|tauto]. intros E1. split; [done|]. congruence.
Qed.

(** What the loops have done before entry [j] of row [i]. *)
Record kruskal_inv (n : N) (G : gset N) (m : list (list bool)) (i j : N) gv : Prop := {
  ki_n : gv_num_vertices gv = n;
  ki_matrix : adj_matrix gv = m;
  ki_size : uf_size (kruskal_dsu gv) = n;
  ki_ccs : kruskal_ccs gv = Some (N.of_nat (length (roots (kruskal_dsu gv) n)));
  ki_tracks : ∃ es, uf_tracks (kruskal_dsu gv) es ∧ ∀ a b, (a, b) ∈ es ↔
    a ≤ b ∧ b < n ∧ concat_pairing_fn a b ∈ G ∧ (a < i ∨ (a = i ∧ b < i + j))
}.

Lemma kruskal_entry_ok n G m i j gv : n < 2 ^ 32 → represents n G m → i + j < n → kruskal_inv n G m i j gv →
  ∃ gv', kruskal_entry i j gv = (gv', Ok tt) ∧ kruskal_inv n G m i (j + 1) gv'.
Proof using .
  intros Hn HR Hij [Hnum Hm Hsz Hccs (es & Ht & Hes)]. unfold kruskal_entry.
  rewrite M_bind_gets, Hm, (M_bind_lift _ _ _ _ (entry_ok n G m i j HR Hij)).
  case_bool_decide as Hin.
  - destruct (merge_roots (kruskal_dsu gv) i (i + j)) as (d' & r & E & Hs' & Hroots);
      [by eapply uf_tracks_ok|lia|lia|].
    destruct (uf_merge_tracks (kruskal_dsu gv) es i (i + j) Ht) as (d2 & r2 & E2 & Ht' & _); [lia|lia|].
    rewrite E in E2. injection E2 as <- <-. rewrite Hsz in Hs', Hroots.
    assert (zoom kruskal_dsu set_kruskal_dsu (uf_merge i (u32 (i + j))) gv = (set_kruskal_dsu d' gv, Ok r)) as Ez.
    { unfold zoom. rewrite wrap_small by lia. by rewrite E. }
    rewrite (M_bind_Ok _ _ _ _ _ Ez).
    assert (∀ a b, (a, b) ∈ (i, i + j) :: es ↔
      a ≤ b ∧ b < n ∧ concat_pairing_fn a b ∈ G ∧ (a < i ∨ (a = i ∧ b < i + (j + 1)))) as Hes'.
    { intros a b. rewrite elem_of_cons, Hes. split.
      - intros [[= -> ->]|(? & ? & ? & ?)]; split_and!; try done; lia.
      - intros (Hab & Hbn & HG & Hor). destruct (decide (a = i ∧ b = i + j)) as [[-> ->]|Hne]; [by left|right].
        split_and!; try done. lia. }
    destruct (merged r).
    + rewrite M_bind_gets. cbn [kruskal_ccs set_kruskal_dsu]. rewrite Hccs. cbn [of_option]. rewrite (M_bind_lift _ _ _ _ eq_refl).
      eexists. split; [done|]. split; simpl; try done; [|by exists ((i, i + j) :: es)].
      f_equal. assert (length (roots (kruskal_dsu gv) n) ≤ N.to_nat n)%nat as Hle.
      { unfold roots. etrans; [apply length_filter|]. by rewrite length_seqN. }
      rewrite usub_small by lia. lia.
    + eexists. split; [done|]. split; simpl; try done; [|by exists ((i, i + j) :: es)]. by rewrite Hccs, Hroots.
  - exists gv. split; [done|]. split; try done. exists es. split; [done|]. intros a b. rewrite Hes.
    split; intros (Hab & Hbn & HG & Hor); split_and!; try done; [lia|].
    destruct (decide (a = i ∧ b = i + j)) as [[-> ->]|Hne]; [done|lia].
Qed.

Lemma kruskal_row_ok n G m i gv : n < 2 ^ 32 → represents n G m → i < n → kruskal_inv n G m i 0 gv →
  ∃ gv', kruskal_row i gv = (gv', Ok tt) ∧ kruskal_inv n G m (i + 1) 0 gv'.
Proof using .
  intros Hn HR Hi HK. unfold kruskal_row. rewrite M_bind_gets, (ki_matrix _ _ _ _ _ _ HK).
  destruct (proj2 HR i Hi) as (row & E & Lr & _). rewrite E. cbn [of_option]. rewrite (M_bind_lift _ _ _ _ eq_refl), Lr, N2Nat.id.
  destruct (for_each_range (λ j gv, kruskal_inv n G m i j gv) 0 (n - i) (kruskal_entry i)) with (s := gv)
    as (gv' & -> & [Hnum Hm Hsz Hccs (es & Ht & Hes)]); [|done|].
  - intros j gv' Hj HK'. rewrite N.add_0_l. apply kruskal_entry_ok; [done|done|lia|done].
  - exists gv'. split; [done|]. split; try done. exists es. split; [done|]. intros a b. rewrite Hes.
    split; intros (Hab & Hbn & HG & Hor); split_and!; done || lia.
Qed.

Lemma graph_pairs_connected n G es x y : n ≤ 2 ^ 32 → graph n G →
  (∀ a b, (a, b) ∈ es ↔ a ≤ b ∧ b < n ∧ concat_pairing_fn a b ∈ G) →
  pair_connected es x y ↔ graph_connected G x y.
Proof using .
  intros Hn HG Hes. split; apply pair_connected_mono; intros [a b]; rewrite elem_of_graph_pairs, Hes.
  - intros (Hab & Hb & Hin). exists (concat_pairing_fn a b). split; [done|].
    destruct (concat_ends a b) as [-> ->]; [unfold is_node_id, num_bits; lia..|]. lia.
  - intros (id & Hin & <- & <-). pose proof (HG id Hin) as He. pose proof He as (_ & Hlt & Hd).
    rewrite (edge_id_concat n) by done. split; [lia|done].
Qed.

Lemma kruskal_ok n G gv : n < 2 ^ 32 → graph n G → holds n G gv →
  ∃ gv', kruskal gv = (gv', Ok tt) ∧ holds n G gv' ∧ computed n G gv' ∧ adj_matrix gv' = adj_matrix gv.
Proof using .
  intros Hn HG [Hwf HR HC]. unfold kruskal. rewrite M_bind_gets.
  destruct (need_query_compute gv) eqn:Hneed; cbn [negb].
  2: { exists gv. specialize (HC eq_refl). split; [done|]. by split; [split|]. }
  destruct Hwf as [Hnum Hok Hsz]. rewrite M_bind_gets, !M_bind_modify, Hnum.
  destruct (uf_reset_ok _ Hok) as (Hok' & Hsz' & Hr'). rewrite Hsz in Hsz', Hr'.
  set (gv0 := set_kruskal_dsu _ _).
  destruct (for_each_range (λ i gv, kruskal_inv n G (adj_matrix gv0) i 0 gv) 0 n kruskal_row) with (s := gv0)
    as (gv1 & E & [Hnum1 Hm1 Hsz1 Hccs1 (es & Ht & Hes)]).
  - intros i gv' Hi HK. rewrite N.add_0_l. by apply kruskal_row_ok.
  - split; simpl; try done.
    + f_equal. unfold roots. rewrite list_filter_all; [by rewrite length_seqN, N2Nat.id|].
      intros x Hx%elem_of_seqN. rewrite Hr' by lia. done.
    + exists []. split; [by apply uf_tracks_reset|]. intros a b. rewrite elem_of_nil. split; [done|]. lia.
  - rewrite (M_bind_Ok _ _ _ _ _ E). eexists. split; [done|].
    assert (computed n G (set_need_query false gv1)) as Hcomp.
    { split; simpl; [done|]. intros x y Hx Hy. rewrite (proj2 Ht) by (by rewrite Hsz1).
      apply (graph_pairs_connected n); [lia|done|]. intros a b. rewrite Hes. split; intros; naive_solver lia. }
    split; [|by split]. split; simpl; [split; simpl; [done|by eapply uf_tracks_ok|done]|by rewrite Hm1|done].
Qed.

(** Searches change nothing that is observed. *)
Lemma find_kruskal_root_ok n G gv i : verifier_wf n gv → i < n →
  ∃ gv', find_kruskal_root i gv = (gv', Ok (uf_root (kruskal_dsu gv) i)) ∧ verifier_wf n gv' ∧
    adj_matrix gv' = adj_matrix gv ∧ need_query_compute gv' = need_query_compute gv ∧
    (∀ x, x < n → uf_root (kruskal_dsu gv') x = uf_root (kruskal_dsu gv) x) ∧
    (computed n G gv → computed n G gv').
Proof using .
  intros [Hnum Hok Hsz] Hi. destruct (uf_find_ok (kruskal_dsu gv) i Hok) as (d & E & Hok' & Hsz' & Hr); [by rewrite Hsz|].
  rewrite Hsz in Hsz', Hr. exists (set_kruskal_dsu d gv). split; [unfold find_kruskal_root, zoom; by rewrite E|].
  split; [by split|]. split; [done|]. split; [done|]. split; [done|]. intros [Hc Hroot]. split; simpl.
  - rewrite Hc. unfold roots. do 3 f_equal. apply list_filter_ext_in. intros x Hx%elem_of_seqN. by rewrite Hr by lia.
  - intros x y Hx Hy. rewrite !Hr by done. by apply Hroot.
Qed.

(** ** The components *)

(** The answer gives [f v] for [v], and counts the fixed points of [f]. *)
Record answer_by (n : N) (f : N → N) (ans : ConnectedComponents) : Prop := {
  ab_root v : v < n → parent_arr ans !! v = Some (f v);
  ab_lt v : v < n → f v < n ∧ f (f v) = f v;
  ab_num : num_cc ans = N.of_nat (length (filter (λ v, f v = v) (seqN 0 n)))
}.

(** Two classifications with as many classes, one finer than the other, agree. *)
Lemma same_count n (f g : N → N) : (∀ v, v < n → f v < n ∧ f (f v) = f v) → (∀ v, v < n → g v < n ∧ g (g v) = g v) →
  (∀ v, v < n → f (g v) = f v) →
  length (filter (λ v, f v = v) (seqN 0 n)) = length (filter (λ v, g v = v) (seqN 0 n)) ↔
  ∀ x y, x < n → y < n → f x = f y ↔ g x = g y.
Proof using .
  intros Hf Hg Hfg. set (A := filter (λ v, f v = v) (seqN 0 n)). set (K := filter (λ v, g v = v) (seqN 0 n)).
  assert (∀ a, a ∈ A ↔ a < n ∧ f a = a) as HA.
  { intros a. unfold A. rewrite list_elem_of_filter, elem_of_seqN. split; intros [? ?]; split; done || lia. }
  assert (∀ a, a ∈ K ↔ a < n ∧ g a = a) as HK.
  { intros a. unfold K. rewrite list_elem_of_filter, elem_of_seqN. split; intros [? ?]; split; done || lia. }
  assert (NoDup A ∧ NoDup K) as [NA NK] by (split; apply NoDup_filter, NoDup_seqN).
  assert (A ⊆+ f <$> K) as Hsub.
  { apply NoDup_submseteq; [done|]. intros a [Ha Fa]%HA. apply list_elem_of_fmap. exists (g a). rewrite Hfg by done.
    split; [done|]. apply HK. by apply Hg. }
  split.
  - intros Hlen x y Hx Hy. split; [|intros E; rewrite <-(Hfg x), <-(Hfg y), E by done; done]. intros E.
    assert (NoDup (f <$> K)) as Hnd.
    { rewrite <-(submseteq_length_Permutation _ _ Hsub); [done|]. rewrite length_fmap. lia. }
    apply (NoDup_fmap_inj_on f K _ _ Hnd); [apply HK; by apply Hg..|]. by rewrite !Hfg.
  - intros Heq. apply Nat.le_antisymm; [rewrite <-(length_fmap f K); by apply submseteq_length|].
    rewrite <-(length_fmap f K). apply submseteq_length, NoDup_submseteq.
    + apply NoDup_fmap_2_strong; [|done]. intros x y [Hx Gx]%HK [Hy Gy]%HK E. apply Heq in E; [|done..]. congruence.
    + intros a (k & -> & [Hk _]%HK)%list_elem_of_fmap. apply HA. by apply Hf.
Qed.

(** What the checks of the vertices keep. *)
Record checking (n : N) (G : gset N) (m : list (list bool)) (g : N → N) gv : Prop := {
  ch_wf : verifier_wf n gv;
  ch_matrix : adj_matrix gv = m;
  ch_computed : computed n G gv;
  ch_root x : x < n → uf_root (kruskal_dsu gv) x = g x
}.

Lemma check_find n G m g gv i : checking n G m g gv → i < n →
  ∃ gv', find_kruskal_root i gv = (gv', Ok (g i)) ∧ checking n G m g gv'.
Proof using .
  intros [Hwf Hm Hc Hr] Hi. destruct (find_kruskal_root_ok n G gv i Hwf Hi) as (gv' & E & Hwf' & Hm' & _ & Hr' & Hc').
  exists gv'. rewrite E, Hr by done. split; [done|]. split; [done|congruence|by apply Hc'|].
  intros x Hx. by rewrite Hr', Hr.
Qed.

Lemma check_vertices n G m g (c : N → bool) ans l gv : (∀ i, i < n → is_connected ans (g i) i = Ok (c i)) →
  checking n G m g gv → (∀ i, i ∈ l → i < n) →
  ∃ gv' o, for_each l (check_vertex ans) gv = (gv', o) ∧ checking n G m g gv' ∧
    ((o = Ok tt ∧ ∀ i, i ∈ l → c i = true) ∨
     (o = Throw (IncorrectCCException "Incorrect Connectivity!") ∧ ∃ i, i ∈ l ∧ c i = false)).
Proof using .
  intros Hans. revert gv. induction l as [|i l IH]; intros gv Hch Hl.
  - exists gv, (Ok tt). split; [done|]. split; [done|]. left. split; [done|]. intros i Hi. by apply elem_of_nil in Hi.
  - cbn [for_each]. pose proof (Hl i (list_elem_of_here _ _)) as Hi.
    destruct (check_find n G m g gv i Hch Hi) as (gv1 & E & Hch1).
    assert (check_vertex ans i gv = (gv1, if c i then Ok tt else Throw (IncorrectCCException "Incorrect Connectivity!"))) as Ec.
    { unfold check_vertex. rewrite (M_bind_Ok _ _ _ _ _ E), (M_bind_lift _ _ _ _ (Hans i Hi)). by destruct (c i). }
    destruct (c i) eqn:Ef.
    + rewrite (M_bind_Ok _ _ _ _ _ Ec).
      destruct (IH gv1 Hch1) as (gv' & o & E' & Hch' & Ho); [intros j Hj; apply Hl; by right|].
      exists gv', o. split; [done|]. split; [done|]. destruct Ho as [[-> Ho]|[-> (j & Hj & Ho)]]; [left|right]; (split; [done|]).
      * intros j [->|Hj]%elem_of_cons; auto.
      * exists j. split; [by right|done].
    + exists gv1, (Throw (IncorrectCCException "Incorrect Connectivity!")).
      split; [unfold mbind, M_bind; by rewrite Ec|]. split; [done|]. right. split; [done|]. exists i. split; [left|done].
Qed.

Lemma verify_connected_components_ok n G f ans gv : n < 2 ^ 32 → graph n G → holds n G gv → answer_by n f ans →
  let right := ∀ x y, x < n → y < n → f x = f y ↔ graph_connected G x y in
  ∃ gv' o, verify_connected_components ans gv = (gv', o) ∧ holds n G gv' ∧ adj_matrix gv' = adj_matrix gv ∧
    ((o = Ok tt ∧ right) ∨ (∃ msg, o = Throw (IncorrectCCException msg) ∧ ¬ right)).
Proof using .
  intros Hn HG Hgv Hans right. destruct (kruskal_ok n G gv Hn HG Hgv) as (gv1 & E & Hgv1 & Hc1 & Hm1).
  unfold verify_connected_components. rewrite (M_bind_Ok _ _ _ _ _ E), M_bind_gets, (co_ccs _ _ _ Hc1).
  cbn [of_option]. rewrite (M_bind_lift _ _ _ _ eq_refl). unfold components_size. rewrite (ab_num _ _ _ Hans).
  pose proof (ho_wf _ _ _ Hgv1) as [Hnum Hok Hsz]. pose (g := uf_root (kruskal_dsu gv1)).
  assert (∀ v, v < n → g v < n ∧ g (g v) = g v) as Hg.
  { intros v Hv. unfold g. rewrite <-Hsz in Hv |- *. split; [by apply uf_root_lt|by apply uf_root_idemp]. }
  assert ((∀ v, v < n → f (g v) = f v) →
    length (filter (λ v, f v = v) (seqN 0 n)) = length (roots (kruskal_dsu gv1) n) ↔ right) as Hcount.
  { intros Hfg. etrans; [exact (same_count n f g (ab_lt _ _ _ Hans) Hg Hfg)|]. unfold right, g.
    split; intros HH x y Hx Hy; rewrite HH by done; [|symmetry]; by apply (co_root _ _ _ Hc1). }
  assert (right → ∀ v, v < n → f (g v) = f v) as Hfine.
  { intros Hr v Hv. apply Hr; [by apply Hg|done|]. apply (co_root _ _ _ Hc1); [by apply Hg|done|by apply Hg]. }
  destruct (N.eqb_spec (N.of_nat (length (roots (kruskal_dsu gv1) n))) (N.of_nat (length (filter (λ v, f v = v) (seqN 0 n)))))
    as [En|En]; cbn [negb].
  - rewrite M_bind_gets, Hnum.
    destruct (check_vertices n G (adj_matrix gv1) g (λ i, f (g i) =? f i) ans (seqN 0 n) gv1)
      as (gv' & o & E' & [Hwf' Hm' Hc' _] & Ho); [|by split|intros i; rewrite elem_of_seqN; lia|].
    { intros i Hi. unfold is_connected. rewrite !(ab_root _ _ _ Hans) by (done || by apply Hg). done. }
    exists gv', o. split; [done|]. split; [|split; [congruence|]].
    { split; [done|rewrite Hm'; apply Hgv1|done]. }
    destruct Ho as [[-> Ho]|[-> (i & Hi%elem_of_seqN & Ho)]]; [left|right].
    + split; [done|]. apply Hcount; [|lia]. intros v Hv. apply N.eqb_eq, Ho, elem_of_seqN. lia.
    + eexists. split; [done|]. intros Hr. apply N.eqb_neq in Ho. apply Ho, Hfine; [done|lia].
  - eexists gv1, _. split; [done|]. split; [done|]. split; [done|]. right. eexists. split; [done|].
    intros Hr. apply En. f_equal. symmetry. by apply Hcount; [apply Hfine|].
Qed.

(** ** Spanning forests *)

Abbreviation block_state := (GraphVerifier D * D)%type.

(** The block has merged and removed the pairs [es]. *)
Record block_inv (n : N) (G : gset N) (g : N → N) (es : list (N * N)) (s : block_state) : Prop := {
  bl_holds : holds n (G ∖ pair_ids es) s.1;
  bl_kruskal x : x < n → uf_root (kruskal_dsu s.1) x = g x;
  bl_size : uf_size s.2 = n;
  bl_tracks : uf_tracks s.2 es
}.

(** A check has thrown and restored the matrix. *)
Definition thrown (n : N) (backup : list (list bool)) gv {A} (o : outcome A) : Prop :=
  (∃ e, o = Throw e) ∧ verifier_wf n gv ∧ adj_matrix gv = backup.

Lemma restoring_throw {A} backup (e : exn) (s : block_state) :
  on_verifier (restoring backup (throw e)) s = ((set_matrix backup s.1, s.2), @Throw A e).
Proof using . done. Qed.

Lemma check_forest_edge_ok n G g backup es e s : n < 2 ^ 32 → block_inv n G g es s → in_range n es →
  src e < n → dst e < n →
  ∃ s' o, check_forest_edge backup e s = (s', o) ∧
    ((o = Ok tt ∧ block_inv n G g (edge_pair e :: es) s' ∧ need_query_compute s'.1 = true ∧
      concat_pairing_fn (src e) (dst e) ∈ G ∧ ¬ pair_connected es (src e) (dst e)) ∨
     (thrown n backup s'.1 o ∧ (concat_pairing_fn (src e) (dst e) ∉ G ∨ pair_connected es (src e) (dst e)))).
Proof using .
  intros Hn [Hh Hg Hsz Ht] Hes Hs Hd. destruct s as [gv d]. cbn [fst snd] in *. unfold check_forest_edge.
  destruct (uf_merge_tracks d es (src e) (dst e) Ht) as (d' & r & E & Ht' & Hs' & Hr); [lia|lia|].
  assert (on_forest (uf_merge (src e) (dst e)) (gv, d) = ((gv, d'), Ok r)) as Em
    by (unfold on_forest, zoom; cbn [fst snd]; by rewrite E).
  rewrite (M_bind_Ok _ _ _ _ _ Em). pose proof Hh as [[Hnum Hok Hksz] HR _].
  destruct (merged r) eqn:Er; cbn [negb].
  - assert (¬ pair_connected es (src e) (dst e)) as Hnc by (intros Hc; apply Hr in Hc; congruence).
    pose proof (verify_edge_ok n _ gv e ltac:(lia) HR Hs Hd) as Ev. case_bool_decide as Hin.
    + assert (on_verifier (restoring backup (verify_edge e)) (gv, d') = ((gv, d'), Ok tt)) as Ev'
        by (unfold on_verifier, zoom, restoring; cbn [fst snd]; by rewrite Ev).
      rewrite (M_bind_Ok _ _ _ _ _ Ev').
      destruct (edge_update_ok n _ gv e ltac:(lia) (ho_wf _ _ _ Hh) HR Hs Hd) as (gv' & Eu & Hh' & Hneed & Hk).
      exists (gv', d'), (Ok tt). split; [unfold on_verifier, zoom; cbn [fst snd]; by rewrite Eu|]. left. split; [done|].
      rewrite pair_ids_cons_graph in Hh' by done. cbn [fst snd].
      split; [split; cbn [fst snd]; [done|intros x Hx; rewrite Hk; by apply Hg|congruence|done]|].
      split; [done|]. apply elem_of_difference in Hin as [Hin _]. done.
    + exists (set_matrix backup gv, d'), (Throw not_in_cut).
      split; [unfold mbind, M_bind, on_verifier, zoom, restoring; cbn [fst snd]; by rewrite Ev|]. right.
      split; [split; [by eexists|]; cbn [fst snd]; by split|]. left. intros HG. apply Hnc.
      apply (pair_ids_connected n); [lia|done..|].
      destruct (decide (concat_pairing_fn (src e) (dst e) ∈ pair_ids es)); [done|]. destruct Hin. by apply elem_of_difference.
  - rewrite restoring_throw. eexists _, _. split; [done|]. right. cbn [fst snd].
    split; [split; [by eexists|]; by split|]. right. by apply Hr.
Qed.

Definition edges_of (G : gset N) (es : list (N * N)) : Prop := Forall (λ p, concat_pairing_fn p.1 p.2 ∈ G) es.

Lemma check_forest_edges_ok n G g backup l es s : n < 2 ^ 32 → block_inv n G g es s → in_range n es →
  in_range n (edge_pair <$> l) →
  let es' := reverse (edge_pair <$> l) ++ es in
  ∃ s' o, for_each l (check_forest_edge backup) s = (s', o) ∧
    ((o = Ok tt ∧ block_inv n G g es' s' ∧ (l ≠ [] → need_query_compute s'.1 = true) ∧
      edges_of G (edge_pair <$> l) ∧ (acyclic_pairs es → acyclic_pairs es')) ∨
     (thrown n backup s'.1 o ∧ ¬ (edges_of G (edge_pair <$> l) ∧ acyclic_pairs es'))).
Proof using .
  intros Hn. revert es s. induction l as [|e l IH]; intros es s Hb Hes Hl es'.
  { exists s, (Ok tt). split; [done|]. left. split; [done|]. split; [done|]. split; [done|]. split; [constructor|done]. }
  rewrite fmap_cons in Hl. apply Forall_cons in Hl as [[Hs Hd] Hl]. cbn [edge_pair fst snd] in Hs, Hd.
  destruct (check_forest_edge_ok n G g backup es e s Hn Hb Hes Hs Hd) as (s1 & o1 & E1 & Ho1).
  assert (es' = reverse (edge_pair <$> l) ++ edge_pair e :: es) as Ees.
  { unfold es'. by rewrite fmap_cons, reverse_cons, <-app_assoc. }
  cbn [for_each]. destruct Ho1 as [(-> & Hb1 & Hneed & HG & Hnc)|[Ht Hbad]].
  - rewrite (M_bind_Ok _ _ _ _ _ E1).
    destruct (IH (edge_pair e :: es) s1 Hb1) as (s' & o & E & Ho); [by constructor|done|]. rewrite <-Ees in Ho.
    exists s', o. split; [done|]. destruct Ho as [(-> & Hb' & Hneed' & HG' & Hac)|[Ht Hbad]]; [left|right].
    + split; [done|]. split; [done|]. split; [|split; [by constructor|]].
      * intros _. destruct l as [|e' l]; [|by apply Hneed']. cbn [for_each] in E. injection E as <-. done.
      * intros Hac0. apply Hac. by split.
    + split; [done|]. intros [HG' Hac]. apply Hbad. split; [|done]. by apply Forall_cons in HG' as [_ HG'].
  - destruct Ht as [[ex ->] Ht]. exists s1, (Throw ex). split; [unfold mbind, M_bind; by rewrite E1|]. right.
    split; [split; [by eexists|done]|]. intros [HG Hac]. apply Forall_cons in HG as [HG _].
    destruct Hbad as [Hbad|Hc]; [done|]. rewrite Ees in Hac. apply acyclic_pairs_app_r in Hac as [Hnc _]. done.
Qed.

(** ** The components of the forest *)

Record vertices_inv (n : N) (G : gset N) (g fr : N → N) (b : bool) (s : block_state) : Prop := {
  vi_holds : holds n G s.1;
  vi_need : need_query_compute s.1 = b;
  vi_kruskal x : x < n → uf_root (kruskal_dsu s.1) x = g x;
  vi_ok : uf_ok s.2;
  vi_size : uf_size s.2 = n;
  vi_root x : x < n → uf_root s.2 x = fr x
}.

Lemma vertex_roots_ok n G g fr b i s {A} (k : N → N → M block_state A) : vertices_inv n G g fr b s → i < n →
  ∃ s', (kr ← on_verifier (find_kruskal_root i); f ← on_forest (uf_find_root i); k kr f) s = k (g i) (fr i) s' ∧
    vertices_inv n G g fr b s'.
Proof using .
  intros [[Hwf HR HC] Hneed Hg Hok Hsz Hf] Hi. destruct s as [gv d]. cbn [fst snd] in *.
  destruct (find_kruskal_root_ok n G gv i Hwf Hi) as (gv' & E & Hwf' & Hm' & Hneed' & Hr' & HC').
  destruct (uf_find_ok d i Hok) as (d' & Ef & Hok' & Hsz' & Hrf); [by rewrite Hsz|].
  rewrite Hg in E by done. rewrite Hf in Ef by done. exists (gv', d'). split.
  - assert (on_verifier (find_kruskal_root i) (gv, d) = ((gv', d), Ok (g i))) as E1
      by (unfold on_verifier, zoom; cbn [fst snd]; by rewrite E).
    rewrite (M_bind_Ok _ _ _ _ _ E1).
    assert (on_forest (uf_find_root i) (gv', d) = ((gv', d'), Ok (fr i))) as E2
      by (unfold on_forest, zoom; cbn [fst snd]; by rewrite Ef).
    by rewrite (M_bind_Ok _ _ _ _ _ E2).
  - split; cbn [fst snd]; [|congruence| |done|congruence|].
    + split; [done|by rewrite Hm'|]. intros Hn'. apply HC', HC. congruence.
    + intros x Hx. by rewrite Hr', Hg.
    + intros x Hx. rewrite Hrf by (by rewrite Hsz). by apply Hf.
Qed.

(** The map has the forest root of every class seen. *)
Record root_map_inv (n : N) (g fr : N → N) (seen : list N) (rm : gmap N N) : Prop := {
  rm_seen i : i ∈ seen → rm !! g i = Some (fr i);
  rm_from k r : rm !! k = Some r → ∃ i, i < n ∧ g i = k ∧ fr i = r
}.

Lemma check_forest_vertices_ok n G g fr b backup vs seen rm s : vertices_inv n G g fr b s →
  root_map_inv n g fr seen rm → (∀ i, i ∈ vs → i < n) →
  ∃ s' o, check_forest_vertices backup vs rm s = (s', o) ∧
    ((o = Ok tt ∧ vertices_inv n G g fr b s' ∧ ∃ rm', root_map_inv n g fr (seen ++ vs) rm') ∨
     (thrown n backup s'.1 o ∧ ∃ i j, i < n ∧ j < n ∧ g i = g j ∧ fr i ≠ fr j)).
Proof using .
  revert seen rm s. induction vs as [|i vs IH]; intros seen rm s Hv Hrm Hvs.
  { exists s, (Ok tt). split; [done|]. left. split; [done|]. split; [done|]. exists rm. by rewrite app_nil_r. }
  pose proof (Hvs i (list_elem_of_here _ _)) as Hi. cbn [check_forest_vertices]. unfold check_forest_vertex at 1.
  assert (∀ rm', rm' !! g i = Some (fr i) → (∀ k r, rm !! k = Some r → rm' !! k = Some r) →
    (∀ k r, rm' !! k = Some r → k = g i ∧ r = fr i ∨ rm !! k = Some r) → root_map_inv n g fr (seen ++ [i]) rm') as Hnext.
  { intros rm' Hgi Hmono Hfrom. split.
    - intros j [Hj|Hj]%elem_of_app; [by apply Hmono, (rm_seen _ _ _ _ _ Hrm)|].
      by apply list_elem_of_singleton in Hj as ->.
    - intros k r Hk. destruct (Hfrom k r Hk) as [[-> ->]|Hk']; [by exists i|by apply (rm_from _ _ _ _ _ Hrm)]. }
  destruct (vertex_roots_ok n G g fr b i s (λ kr f, match rm !! kr with
    | None => mret (<[kr := f]> rm)
    | Some r => if r =? f then mret rm else on_verifier (restoring backup (throw mismatch)) end) Hv Hi) as (s1 & E & Hv1).
  destruct (rm !! g i) as [r|] eqn:Er.
  - destruct (N.eqb_spec r (fr i)) as [->|Hne].
    + rewrite (M_bind_Ok _ _ _ _ _ E).
      destruct (IH (seen ++ [i]) rm s1 Hv1) as (s' & o & E' & Ho); [apply Hnext; auto|intros j Hj; apply Hvs; by right|].
      rewrite <-app_assoc in Ho. by exists s', o.
    + exists (set_matrix backup s1.1, s1.2), (Throw mismatch).
      split; [unfold mbind at 1, M_bind at 1; by rewrite E|]. right. destruct Hv1 as [[[] _ _] _ _ _ _ _].
      split; [split; [by eexists|]; cbn [fst]; by split|].
      destruct (rm_from _ _ _ _ _ Hrm _ _ Er) as (j & Hj & Ej & Fj). exists j, i. split_and!; try done. congruence.
  - rewrite (M_bind_Ok _ _ _ _ _ E).
    destruct (IH (seen ++ [i]) (<[g i := fr i]> rm) s1 Hv1) as (s' & o & E' & Ho).
    + apply Hnext; [by rewrite lookup_insert_eq| |].
      * intros k r Hk. rewrite lookup_insert_ne; [done|]. intros <-. congruence.
      * intros k r Hk. destruct (decide (k = g i)) as [->|Hne].
        -- rewrite lookup_insert_eq in Hk. injection Hk as <-. by left.
        -- rewrite lookup_insert_ne in Hk by done. by right.
    + intros j Hj. apply Hvs. by right.
    + rewrite <-app_assoc in Ho. by exists s', o.
Qed.

(** ** One forest, and several *)

Definition forest_ids (F : SpanningForest) : gset N := pair_ids (edge_pair <$> sf_edges F).
Definition forest_in_range (n : N) (F : SpanningForest) : Prop := in_range n (edge_pair <$> sf_edges F).

Lemma edges_of_connected n G es x y : n ≤ 2 ^ 32 → in_range n es → edges_of G es → pair_connected es x y →
  graph_connected G x y.
Proof using .
  intros Hn Hr HG. apply pair_connected_ind; [apply _|]. intros a b Hab.
  unfold in_range, edges_of in Hr, HG. rewrite Forall_forall in Hr, HG.
  destruct (Hr _ Hab) as [Ha Hb]. pose proof (HG _ Hab) as Hin. cbn [fst snd] in *.
  destruct (concat_ends a b) as [E1 E2]; [unfold is_node_id, num_bits; lia..|].
  pose proof (graph_connected_edge _ _ Hin) as Hc. rewrite E1, E2 in Hc.
  destruct (N.le_ge_cases a b); [by rewrite N.min_l, N.max_r in Hc|]. rewrite N.min_r, N.max_l in Hc by done. by symmetry.
Qed.

Lemma answers_forest_iff n G F : n ≤ 2 ^ 32 → graph n G → forest_in_range n F →
  let es := edge_pair <$> sf_edges F in
  answers_forest G F ↔ edges_of G es ∧ acyclic_pairs (reverse es) ∧
    ∀ x y, x < n → y < n → graph_connected G x y → pair_connected es x y.
Proof using .
  intros Hn HG Hr es. unfold answers_forest. fold es. split.
  - intros (Hin & Hc & log & Hp & Ha). split; [|split].
    + apply Forall_forall. intros [u v] Huv. by apply (Hin u v).
    + apply (acyclic_pairs_perm log); [|done]. by rewrite Hp, reverse_Permutation.
    + intros x y _ _. apply Hc.
  - intros (Hin & Ha & Hc). split; [|split].
    + intros u v Huv. unfold edges_of, forest_in_range, in_range in Hin, Hr. rewrite Forall_forall in Hin, Hr.
      destruct (Hr (u, v) Huv) as [Hu Hv]. cbn [fst snd] in Hu, Hv. unfold is_node_id, num_bits.
      split; [lia|]. split; [lia|]. by apply (Hin (u, v)).
    + intros x y. split; [by apply (edges_of_connected n)|]. intros Hxy.
      destruct (graph_connected_range n G x y HG Hxy) as [->|[Hx Hy]]; [done|by apply Hc].
    + exists (reverse es). split; [|done]. by rewrite reverse_Permutation.
Qed.

Lemma check_forest_ok n G prio backup F gv : n < 2 ^ 32 → graph n G → holds n G gv → forest_in_range n F →
  ∃ gv' o, check_forest backup prio F gv = (gv', o) ∧
    ((o = Ok tt ∧ holds n (G ∖ forest_ids F) gv' ∧ (sf_edges F ≠ [] → need_query_compute gv' = true) ∧ answers_forest G F) ∨
     (thrown n backup gv' o ∧ ¬ answers_forest G F)).
Proof using .
  intros Hn HG Hgv HF. pose proof (answers_forest_iff n G F ltac:(lia) HG HF) as Hiff. cbn zeta in Hiff.
  destruct (kruskal_ok n G gv Hn HG Hgv) as (gv1 & E & Hgv1 & Hc1 & _). unfold check_forest.
  rewrite (M_bind_Ok _ _ _ _ _ E), M_bind_gets. pose proof (ho_wf _ _ _ Hgv1) as [-> _ _].
  destruct (uf_new_ok n prio) as (Hok & Hsz & _). pose (g := uf_root (kruskal_dsu gv1)).
  assert (block_inv n G g [] (gv1, uf_new n prio)) as Hb.
  { split; cbn [fst snd]; [|done|done|apply uf_tracks_new].
    assert (G ∖ pair_ids [] = G) as -> by (unfold pair_ids; simpl; set_solver). done. }
  destruct (check_forest_edges_ok n G g backup (sf_edges F) [] _ Hn Hb ltac:(constructor) HF) as (s1 & o1 & E1 & Ho1).
  rewrite app_nil_r in Ho1. unfold with_forest, check_forest_body.
  destruct Ho1 as [(-> & Hb1 & Hneed & HG1 & Hac)|[Ht Hbad]].
  2: { destruct Ht as [[ex ->] Ht]. destruct s1 as [gv' d']. unfold mbind, M_bind. rewrite E1. exists gv', (Throw ex).
    split; [done|]. right. split; [split; [by eexists|exact Ht]|]. intros (H1 & H2 & _)%Hiff. by apply Hbad. }
  rewrite (M_bind_Ok _ _ _ _ _ E1). destruct Hb1 as [Hh1 Hg1 Hsz1 Ht1].
  assert (pair_ids (reverse (edge_pair <$> sf_edges F)) = forest_ids F) as Eids.
  { apply set_eq. intros id. unfold forest_ids. rewrite !elem_of_pair_ids. by setoid_rewrite elem_of_reverse. }
  rewrite Eids in Hh1.
  destruct (check_forest_vertices_ok n (G ∖ forest_ids F) g (uf_root s1.2) (need_query_compute s1.1) backup (seqN 0 n) [] ∅ s1)
    as (s2 & o2 & E2 & Ho2).
  - split; try done. by eapply uf_tracks_ok.
  - split; [by intros i Hi%elem_of_nil|]. intros k r Hk. by rewrite lookup_empty in Hk.
  - intros i Hi%elem_of_seqN. lia.
  - assert (∀ x y, x < n → y < n → uf_root s1.2 x = uf_root s1.2 y ↔ pair_connected (edge_pair <$> sf_edges F) x y) as Hfr.
    { intros x y Hx Hy. rewrite (proj2 Ht1) by (by rewrite Hsz1). split; apply pair_connected_mono; intros p;
        by rewrite elem_of_reverse. }
    assert (∀ x y, x < n → y < n → g x = g y ↔ graph_connected G x y) as Hgr by apply (co_root _ _ _ Hc1).
    destruct s2 as [gv2 d2]. rewrite E2. exists gv2, o2. split; [done|].
    destruct Ho2 as [(-> & Hv & rm' & Hrm & _)|[Ht (i & j & Hi & Hj & Eg & Ef)]]; [left|right].
    + split; [done|]. split; [apply Hv|]. split; [intros HF'; pose proof (vi_need _ _ _ _ _ _ Hv) as Hn2; cbn [fst] in Hn2; rewrite Hn2; by apply Hneed|].
      apply Hiff. split; [done|]. split; [by apply Hac|]. intros x y Hx Hy Hxy. apply Hfr; [done..|].
      apply Hgr in Hxy; [|done..]. pose proof (Hrm x) as Ex. pose proof (Hrm y) as Ey. rewrite Hxy in Ex.
      rewrite Ex in Ey by (apply elem_of_seqN; lia). specialize (Ey ltac:(apply elem_of_seqN; lia)). by injection Ey.
    + split; [exact Ht|]. intros (_ & _ & Hc)%Hiff. apply Ef, Hfr; [done..|]. apply Hc; [done..|]. by apply Hgr.
Qed.

Lemma set_matrix_wf n m gv : verifier_wf n gv → verifier_wf n (set_matrix m gv).
Proof using . intros []. by split. Qed.

(** Each forest is a spanning forest of what the earlier ones leave. *)
Fixpoint disjoint_forests (G : gset N) (Fs : list SpanningForest) : Prop :=
  match Fs with
  | [] => True
  | F :: Fs => answers_forest G F ∧ disjoint_forests (G ∖ forest_ids F) Fs
  end.

Lemma graph_difference n (G X : gset N) : graph n G → graph n (G ∖ X).
Proof using . intros HG id [Hid _]%elem_of_difference. by apply HG. Qed.

Lemma verify_forests_loop n backup SFs G gv : n < 2 ^ 32 → graph n G → holds n G gv →
  Forall (λ p, forest_in_range n p.2) SFs →
  ∃ gv' o, for_each SFs (λ '(prio_gen, forest), check_forest backup prio_gen forest) gv = (gv', o) ∧
    verifier_wf n gv' ∧
    ((o = Ok tt ∧ disjoint_forests G SFs.*2) ∨
     ((∃ e, o = Throw e) ∧ adj_matrix gv' = backup ∧ ¬ disjoint_forests G SFs.*2)).
Proof using .
  intros Hn. revert G gv. induction SFs as [|[prio F] SFs IH]; intros G gv HG Hgv HSF.
  { exists gv, (Ok tt). split; [done|]. split; [apply Hgv|]. by left. }
  apply Forall_cons in HSF as [HF HSF]. cbn [for_each].
  destruct (check_forest_ok n G prio backup F gv Hn HG Hgv HF) as (gv1 & o1 & E1 & [(-> & Hgv1 & _ & Ha)|[Ht Hbad]]).
  - rewrite (M_bind_Ok _ _ _ _ _ E1).
    destruct (IH (G ∖ forest_ids F) gv1) as (gv' & o & E & Hwf & Ho); [by apply graph_difference|done|done|].
    exists gv', o. split; [done|]. split; [done|]. cbn [fmap list_fmap disjoint_forests snd]. naive_solver.
  - destruct Ht as ([ex ->] & Hwf & Hm). exists gv1, (Throw ex). split; [unfold mbind, M_bind; by rewrite E1|].
    cbn [fst snd] in Hwf. split; [done|]. right. split; [by eexists|]. split; [done|]. intros [Ha _]. done.
Qed.

Lemma verify_spanning_forests_ok n G SFs gv : n < 2 ^ 32 → graph n G → holds n G gv →
  Forall (λ p, forest_in_range n p.2) SFs →
  ∃ gv' o, verify_spanning_forests SFs gv = (gv', o) ∧ verifier_wf n gv' ∧ represents n G (adj_matrix gv') ∧
    ((o = Ok tt ∧ disjoint_forests G SFs.*2) ∨ ((∃ e, o = Throw e) ∧ ¬ disjoint_forests G SFs.*2)).
Proof using .
  intros Hn HG Hgv HSF. unfold verify_spanning_forests. rewrite M_bind_gets.
  destruct (verify_forests_loop n (adj_matrix gv) SFs G gv Hn HG Hgv HSF) as (gv1 & o & E & Hwf & [[-> Hd]|([e ->] & Hm & Hd)]).
  - rewrite (M_bind_Ok _ _ _ _ _ E). eexists _, _. split; [done|]. split; [by apply set_matrix_wf|]. split; [apply Hgv|by left].
  - exists gv1, (Throw e). split; [unfold mbind, M_bind; by rewrite E|]. split; [done|]. rewrite Hm.
    split; [apply Hgv|]. right. split; [by eexists|done].
Qed.

Lemma answers_forest_in_range n G F : graph n G → answers_forest G F → forest_in_range n F.
Proof using .
  intros HG [Ha _]. apply Forall_forall. intros [u v] Huv. destruct (Ha u v Huv) as (Iu & Iv & Hin).
  destruct (HG _ Hin) as (_ & Hlt & Hd). destruct (concat_ends u v Iu Iv) as [E1 E2]. rewrite E1, E2 in *. cbn [fst snd]. lia.
Qed.

(** A single forest, as the algorithm gives it, leaves the verifier consistent. *)
Lemma verify_one_forest n G prio F gv : n < 2 ^ 32 → graph n G → holds n G gv → forest_in_range n F → answers_forest G F →
  ∃ gv', verify_spanning_forests [(prio, F)] gv = (gv', Ok tt) ∧ holds n G gv'.
Proof using .
  intros Hn HG Hgv HF Ha. unfold verify_spanning_forests. rewrite M_bind_gets. cbn [for_each].
  destruct (check_forest_ok n G prio (adj_matrix gv) F gv Hn HG Hgv HF) as (gv1 & o & E & [(-> & Hh & Hneed & _)|[_ Hbad]]);
    [|done].
  rewrite (M_bind_Ok _ _ _ _ _ (eq_trans (M_bind_Ok _ _ _ _ _ E) eq_refl)). eexists. split; [done|].
  destruct Hh as [Hwf HR HC]. split; [by apply set_matrix_wf|apply Hgv|]. cbn [need_query_compute set_matrix].
  destruct (sf_edges F) as [|e es] eqn:EF; [|rewrite Hneed by done; done].
  assert (G ∖ forest_ids F = G) as EG.
  { unfold forest_ids. rewrite EF. unfold pair_ids. simpl. set_solver. }
  rewrite EG in HC. intros Hn'. destruct (HC Hn') as [H1 H2]. by split.
Qed.

(** ** Right answers are accepted *)

Lemma computed_count n G gv : verifier_wf n gv → computed n G gv →
  components_count n G (N.of_nat (length (roots (kruskal_dsu gv) n))).
Proof using .
  intros [_ Hok Hsz] [_ Hc]. destruct (roots_representatives (kruskal_dsu gv) n Hok Hsz) as (Hnd & Hlt & Hreps).
  eexists. split; [exact Hnd|]. split; [done|]. split; [exact Hlt|]. intros v Hv.
  destruct (Hreps v Hv) as (r & Hr & Hvr & Huniq). exists r. split; [done|]. split; [apply Hc; auto|].
  intros r' Hr' Hcr. apply Huniq; [done|]. apply Hc; auto.
Qed.

Lemma verify_right_components n G ans gv : n < 2 ^ 32 → graph n G → holds n G gv → answers_components n G ans →
  ∃ gv', verify_connected_components ans gv = (gv', Ok tt) ∧ holds n G gv'.
Proof using .
  intros Hn HG Hgv (Hconn & Hcount & _). destruct (kruskal_ok n G gv Hn HG Hgv) as (gv1 & E & Hgv1 & Hc1 & Hm1).
  unfold verify_connected_components. rewrite (M_bind_Ok _ _ _ _ _ E), M_bind_gets, (co_ccs _ _ _ Hc1).
  cbn [of_option]. rewrite (M_bind_lift _ _ _ _ eq_refl). pose proof (ho_wf _ _ _ Hgv1) as Hwf.
  rewrite (components_count_unique n G _ _ (computed_count n G gv1 Hwf Hc1) Hcount), N.eqb_refl. cbn [negb].
  rewrite M_bind_gets, (vw_n _ _ Hwf). pose proof Hwf as [_ Hok Hsz].
  destruct (check_vertices n G (adj_matrix gv1) (uf_root (kruskal_dsu gv1)) (λ _, true) ans (seqN 0 n) gv1)
    as (gv' & o & E' & [Hwf' Hm' Hc' _] & Ho); [|by split|intros i; rewrite elem_of_seqN; lia|].
  - intros i Hi. assert (uf_root (kruskal_dsu gv1) i < n) as Hlt by (rewrite <-Hsz in Hi |- *; by apply uf_root_lt).
    destruct (Hconn _ _ Hlt Hi) as ([] & -> & Hb); [done|]. exfalso. assert (false = true) as Hf; [|done]. apply Hb.
    apply (co_root _ _ _ Hc1); [done..|]. apply uf_root_idemp; [done|by rewrite Hsz].
  - exists gv'. destruct Ho as [[-> _]|[_ (i & _ & Hi)]]; [|done]. split; [done|].
    split; [done|rewrite Hm'; apply Hgv1|done].
Qed.

(** ** What the driver gives the algorithm *)

Definition valid_edge (n : N) (e : Edge) : Prop := src e < n ∧ dst e < n ∧ src e ≠ dst e.
Definition edge_ids (es : list Edge) : list N := (λ e, concat_pairing_fn (src e) (dst e)) <$> es.

Lemma edge_updates_ok n prio es : n ≤ 2 ^ 32 → Forall (valid_edge n) es →
  ∃ gv, for_each es edge_update (GraphVerifier_new n prio) = (gv, Ok tt) ∧ holds n (toggles (edge_ids es)) gv.
Proof using .
  intros Hn Hes. apply (for_each_inv (λ pre gv, holds n (toggles (edge_ids pre)) gv)); [|apply GraphVerifier_new_ok].
  intros pre e rest gv -> Hh. apply Forall_app in Hes as [_ [(Hs & Hd & _) _]%Forall_cons].
  destruct (edge_update_ok n _ gv e Hn (ho_wf _ _ _ Hh) (ho_matrix _ _ _ Hh) Hs Hd) as (gv' & E & Hh' & _).
  exists gv'. split; [done|]. unfold edge_ids. rewrite fmap_app. cbn [fmap list_fmap]. by rewrite toggles_snoc.
Qed.

Lemma thread_verifiers_ok n prio threads : n ≤ 2 ^ 32 → Forall (Forall (valid_edge n)) threads →
  ∃ gv, for_each threads (thread_verifier n prio) (GraphVerifier_new n prio) = (gv, Ok tt) ∧
    verifier_wf n gv ∧ represents n (toggles (edge_ids (concat threads))) (adj_matrix gv).
Proof using .
  intros Hn Hts.
  apply (for_each_inv (λ pre gv, verifier_wf n gv ∧ represents n (toggles (edge_ids (concat pre))) (adj_matrix gv))).
  - intros pre es rest gv -> [Hwf HR]. apply Forall_app in Hts as [_ [Hes _]%Forall_cons].
    destruct (edge_updates_ok n prio es Hn Hes) as (local & E & Hl).
    destruct (combine_ok n _ _ gv local Hwf HR (ho_matrix _ _ _ Hl)) as (gv' & Ec & Hwf' & HR' & _).
    exists gv'. split; [unfold thread_verifier; by rewrite E|]. split; [done|].
    rewrite concat_app. cbn [concat]. unfold edge_ids in *. by rewrite app_nil_r, fmap_app, toggles_app.
  - destruct (GraphVerifier_new_ok n prio) as [? ? _]. done.
Qed.

Lemma edges_graph n es : n ≤ 2 ^ 32 → Forall (valid_edge n) es → graph n (toggles (edge_ids es)).
Proof using .
  intros Hn Hes id Hid%elem_of_toggles. unfold edge_ids in Hid. apply list_elem_of_fmap in Hid as (e & -> & He).
  rewrite Forall_forall in Hes. destruct (Hes e He) as (? & ? & ?). by apply concat_edge_id.
Qed.

(** The lists of a disjoint set union's roots are such an answer. *)
Lemma lists_roots_by `{UFL' : UnionFindLaws D'} n (d : D') ans : uf_ok d → uf_size d = n → lists_roots d n ans →
  answer_by n (uf_root d) ans.
Proof using .
  intros Hok Hsz Hans. split; [apply Hans| |apply Hans]. intros v Hv. rewrite <-Hsz in Hv |- *.
  split; [by apply uf_root_lt|by apply uf_root_idemp].
Qed.

(** * Theorems *)

(** C27. The verifier the driver hands over describes the stream. However the
    updates are shared between the stream threads and in whatever order these
    finish, combining their verifiers gives one that holds the graph of the
    updates that occur an odd number of times; comparing two such verifiers
    compares their graphs; an update out of range is refused without effect. *)
Theorem verifier_tracks_stream n prio threads (Hn : n < 2 ^ 32) (Hts : Forall (Forall (valid_edge n)) threads) :
  ∃ gv0 gv : verifier, driver_verifier n prio threads (GraphVerifier_new n prio) = (gv0, Ok gv) ∧
    holds n (toggles (edge_ids (concat threads))) gv ∧
    (∀ G oth, graph n G → holds n G oth →
      check_verifier oth gv = if bool_decide (toggles (edge_ids (concat threads)) = G) then Ok tt
        else Throw (DriverException "Mismatch between driver verifier and expected verifier")) ∧
    ∀ e, n ≤ src e ∨ n ≤ dst e → edge_update e gv = (gv, Throw (out_of_bounds e)).
Proof using .
  destruct (thread_verifiers_ok n prio threads ltac:(lia) Hts) as (gv & E & Hwf & HR).
  exists gv, (GraphVerifier_copy gv). split; [unfold driver_verifier; by rewrite (M_bind_Ok _ _ _ _ _ E)|].
  split; [by apply GraphVerifier_copy_ok|]. split.
  - intros G oth HG Hoth. unfold check_verifier, verifier_eqb. cbn [adj_matrix GraphVerifier_copy].
    assert (graph n (toggles (edge_ids (concat threads)))) as HT by (apply edges_graph; [lia|by apply Forall_concat]).
    assert (adj_matrix gv = adj_matrix oth ↔ toggles (edge_ids (concat threads)) = G) as Hiff.
    { split.
      - intros Em. rewrite Em in HR. apply (represents_ids n _ _ (adj_matrix oth)); [lia|done|done|done|apply Hoth].
      - intros <-. apply (matrix_graph_unique n _ _ _ HR), Hoth. }
    by rewrite (bool_decide_ext _ _ Hiff); case_bool_decide.
  - intros e He. apply (edge_update_bounds n); [apply Hwf|done].
Qed.

(** C25. [verify_connected_components] accepts exactly the right answers: given
    the classes of any disjoint set union, it returns when they are the
    connected components of its graph and throws when they are not, and it can
    be used again in both cases. *)
Theorem components_verified `{UFL' : UnionFindLaws D'} n G (d : D') ans (gv : verifier) (Hn : n < 2 ^ 32) (HG : graph n G)
    (Hgv : holds n G gv) (Hok : uf_ok d) (Hsz : uf_size d = n) (Hans : lists_roots d n ans) :
  ∃ gv' o, verify_connected_components ans gv = (gv', o) ∧ holds n G gv' ∧
    ((o = Ok tt ∧ answers_components n G ans) ∨
     ((∃ msg, o = Throw (IncorrectCCException msg)) ∧ ¬ answers_components n G ans)).
Proof using .
  pose proof (lists_roots_by n d ans Hok Hsz Hans) as Hby.
  destruct (verify_connected_components_ok n G (uf_root d) ans gv Hn HG Hgv Hby) as (gv' & o & E & Hgv' & _ & Ho).
  exists gv', o. split; [done|]. split; [done|]. destruct Ho as [[-> Hr]|(msg & -> & Hr)].
  - left. split; [done|]. by apply (lists_roots_answer d).
  - right. split; [by eexists|]. intros [Hc _]. apply Hr. intros x y Hx Hy. destruct (Hc x y Hx Hy) as (c & Ec & <-). unfold is_connected in Ec.
    rewrite (ls_root _ _ _ Hans x Hx), (ls_root _ _ _ Hans y Hy) in Ec. cbn [of_option mbind outcome_bind] in Ec.
    injection Ec as <-. by rewrite N.eqb_eq.
Qed.

(** C26. [verify_spanning_forests] accepts exactly the lists of forests each of
    which is a spanning forest of what the earlier ones leave of the graph, and
    throws on every other; either way it puts its graph back. *)
Theorem forests_verified n G SFs (gv : verifier) (Hn : n < 2 ^ 32) (HG : graph n G) (Hgv : holds n G gv)
    (HSF : Forall (λ p, forest_in_range n p.2) SFs) :
  ∃ gv' o, verify_spanning_forests SFs gv = (gv', o) ∧ represents n G (adj_matrix gv') ∧
    ((o = Ok tt ∧ disjoint_forests G SFs.*2) ∨ ((∃ e, o = Throw e) ∧ ¬ disjoint_forests G SFs.*2)).
Proof using .
  destruct (verify_spanning_forests_ok n G SFs gv Hn HG Hgv HSF) as (gv' & o & E & _ & HR & Ho). by exists gv', o.
Qed.
End Verifier.

Section Queries.
Context `{P : Platform} `{!PlatformLaws P} {D V : Type} `{UFL : UnionFindLaws D} `{UFV : UnionFindLaws V}.

(** The verifier never rejects the algorithm: when the algorithm and a
    verifier hold the same graph, every answer a query returns passes, and the
    verifier stays consistent. *)
Theorem queries_pass_verification T s order b G (cc : CCSketchAlg D) (gv : GraphVerifier V) prio
    (HI : cc_inv cc b G) (Hready : query_ready T s b G cc) (Hord : order ≡ₚ seqN 0 (num_vertices cc))
    (Hgv : holds (num_vertices cc) G gv) :
  (∀ cc' ans, connected_components T s order cc = (cc', Ok ans) →
     ∃ gv', verify_connected_components ans gv = (gv', Ok tt) ∧ holds (num_vertices cc) G gv') ∧
  (∀ cc' F, calc_spanning_forest T s order cc = (cc', Ok F) →
     ∃ gv', verify_spanning_forests [(prio, F)] gv = (gv', Ok tt) ∧ holds (num_vertices cc) G gv').
Proof using PlatformLaws0.
  pose proof (cb_n _ _ (ci_base _ _ _ HI)) as [_ Hn]. pose proof (ci_graph _ _ _ HI) as HG. split; intros cc' ans E.
  - destruct (connected_components_ok T s order b G cc HI Hready Hord) as (c1 & o & E1 & Ho).
    rewrite E in E1. injection E1 as <- <-. apply verify_right_components; [done|done|done|apply Ho].
  - destruct (calc_spanning_forest_ok T s order b G cc HI Hready Hord) as (c1 & o & E1 & Ho).
    rewrite E in E1. injection E1 as <- <-. destruct Ho as [Ha _]. apply verify_one_forest; try done.
    by apply (answers_forest_in_range _ G).
Qed.
End Queries.

(** * A concrete verifier *)

Section Demo.
#[local] Existing Instance demo_platform.

Definition demo_prio (i : N) : N := i * 5 mod 7.
Definition demo_verifier (n : N) (es : list (N * N)) : GraphVerifier DSU :=
  (for_each ((λ p, mkEdge p.1 p.2) <$> es) edge_update (GraphVerifier_new n demo_prio)).1.

Lemma demo_verifier_holds n es : n ≤ 2 ^ 32 → Forall (valid_edge n) ((λ p, mkEdge p.1 p.2) <$> es) →
  holds n (toggles (edge_ids ((λ p, mkEdge p.1 p.2) <$> es))) (demo_verifier n es).
Proof. intros Hn Hes. unfold demo_verifier. by destruct (edge_updates_ok (D := DSU) n demo_prio _ Hn Hes) as (gv & -> & ?). Qed.

Lemma verifier_tracks_stream_witness : ∃ gv0 gv : GraphVerifier DSU,
  driver_verifier 6 demo_prio [[mkEdge 0 1; mkEdge 2 1]; [mkEdge 1 0; mkEdge 3 4]] (GraphVerifier_new 6 demo_prio) = (gv0, Ok gv) ∧
  holds 6 (toggles (edge_ids [mkEdge 0 1; mkEdge 2 1; mkEdge 1 0; mkEdge 3 4])) gv.
Proof.
  destruct (verifier_tracks_stream (D := DSU) 6 demo_prio [[mkEdge 0 1; mkEdge 2 1]; [mkEdge 1 0; mkEdge 3 4]] ltac:(reflexivity)
    ltac:(repeat constructor; discriminate)) as (gv0 & gv & E & Hgv & _).
  exists gv0, gv. split; [exact E|exact Hgv].
Defined.

(** A path on three vertices, and the answer of a structure that knows one of
    its edges, or both. *)
Definition path_verifier : GraphVerifier DSU := demo_verifier 3 [(0, 1); (2, 1)].
Definition path_ids : list N := edge_ids [mkEdge 0 1; mkEdge 2 1].

Definition merged_dsu (es : list (N * N)) : DSU := (for_each es (λ '(u, v), _ ← merge u v; mret tt) (DSU_new 3 demo_prio)).1.
Definition listed (d : DSU) : ConnectedComponents :=
  match (ConnectedComponents_new 3 [2; 0; 1] d).2 with Ok ans => ans | _ => mkComponents [] 0 0 end.

Lemma listed_ok es : Forall (λ p, p.1 < 3 ∧ p.2 < 3) es →
  uf_ok (merged_dsu es) ∧ uf_size (merged_dsu es) = 3 ∧ lists_roots (merged_dsu es) 3 (listed (merged_dsu es)).
Proof.
  intros Hes. assert (uf_ok (merged_dsu es) ∧ uf_size (merged_dsu es) = 3) as [Hok Hsz].
  { unfold merged_dsu. destruct (for_each_inv (λ _ d, uf_ok d ∧ uf_size d = 3) es (λ '(u, v), _ ← merge u v; mret tt))
      with (s := DSU_new 3 demo_prio) as (d & -> & Hd); [|destruct (uf_new_ok (D := DSU) 3 demo_prio) as (? & ? & _); done|done].
    intros pre [u v] rest d -> [Hok Hsz]. apply Forall_app in Hes as [_ [[Hu Hv] _]%Forall_cons]. rewrite <-Hsz in Hu, Hv.
    destruct (uf_merge_ok d u v Hok Hu Hv) as (d' & r & E & Hok' & Hs' & _). change (merge u v d = (d', Ok r)) in E.
    exists d'. split; [by rewrite (M_bind_Ok _ _ _ _ _ E)|]. split; [done|congruence]. }
  split; [done|]. split; [done|]. unfold listed.
  destruct (ConnectedComponents_new_ok (D := DSU) (merged_dsu es) 3 [2; 0; 1] Hok Hsz) as (d' & ans & -> & _ & Hans); [done| |done].
  apply (bool_decide_unpack _). vm_compute. exact I.
Qed.

Lemma path_holds : holds 3 (toggles path_ids) path_verifier.
Proof. exact (demo_verifier_holds 3 [(0, 1); (2, 1)] ltac:(discriminate) ltac:(repeat constructor; discriminate)). Qed.

Lemma path_graph : graph 3 (toggles path_ids).
Proof. apply edges_graph; [discriminate|repeat constructor; discriminate]. Qed.

Lemma components_verified_witness :
  answers_components 3 (toggles path_ids) (listed (merged_dsu [(1, 0); (0, 2)])) ∧
  ¬ answers_components 3 (toggles path_ids) (listed (merged_dsu [(1, 0)])).
Proof.
  destruct (listed_ok [(1, 0); (0, 2)] ltac:(repeat constructor)) as (Ho1 & Hs1 & Hl1).
  destruct (listed_ok [(1, 0)] ltac:(repeat constructor)) as (Ho2 & Hs2 & Hl2).
  destruct (components_verified (D' := DSU) 3 (toggles path_ids) _ _ path_verifier ltac:(reflexivity) path_graph path_holds Ho1 Hs1 Hl1)
    as (gv1 & o1 & E1 & _ & H1).
  destruct (components_verified (D' := DSU) 3 (toggles path_ids) _ _ path_verifier ltac:(reflexivity) path_graph path_holds Ho2 Hs2 Hl2)
    as (gv2 & o2 & E2 & _ & H2).
  assert ((verify_connected_components (listed (merged_dsu [(1, 0); (0, 2)])) path_verifier).2 = Ok tt) as A1
    by (vm_compute; reflexivity).
  assert (match (verify_connected_components (listed (merged_dsu [(1, 0)])) path_verifier).2 with Throw _ => true | _ => false end = true)
    as A2 by (vm_compute; reflexivity).
  rewrite E1 in A1. rewrite E2 in A2. cbn [snd] in A1, A2. split.
  - destruct H1 as [[_ H1]|[[msg H1] _]]; [exact H1|]. rewrite A1 in H1. discriminate.
  - destruct H2 as [[H2 _]|[_ H2]]; [|exact H2]. rewrite H2 in A2. discriminate.
Defined.

(** A triangle: a path of it, then the edge that is left. *)
Definition triangle_verifier : GraphVerifier DSU := demo_verifier 3 [(0, 1); (2, 1); (2, 0)].
Definition triangle_ids : list N := edge_ids [mkEdge 0 1; mkEdge 2 1; mkEdge 2 0].
Definition triangle_forests : list ((N → N) * SpanningForest) :=
  [(demo_prio, mkSpanningForest [mkEdge 0 1; mkEdge 1 2] 3); (demo_prio, mkSpanningForest [mkEdge 0 2] 3)].

Lemma forests_verified_witness : disjoint_forests (toggles triangle_ids) triangle_forests.*2.
Proof.
  destruct (forests_verified 3 (toggles triangle_ids) triangle_forests triangle_verifier) as (gv' & o & E & _ & Ho).
  - reflexivity.
  - apply edges_graph; [discriminate|repeat constructor; discriminate].
  - exact (demo_verifier_holds 3 [(0, 1); (2, 1); (2, 0)] ltac:(discriminate) ltac:(repeat constructor; discriminate)).
  - repeat constructor.
  - assert ((verify_spanning_forests triangle_forests triangle_verifier).2 = Ok tt) as A by (vm_compute; reflexivity).
    rewrite E in A. cbn [snd] in A. destruct Ho as [[_ Ho]|[[e Ho] _]]; [exact Ho|]. rewrite A in Ho. discriminate.
Defined.

Lemma queries_pass_verification_witness : ∃ cc' ans (gv gv' : GraphVerifier DSU),
  connected_components 2 demo_schedules demo_order demo_cc = (cc', Ok ans) ∧
  verify_connected_components ans gv = (gv', Ok tt) ∧ holds 6 demo_graph gv'.
Proof.
  destruct demo_inv as [HI En]. pose (gv := demo_verifier 6 [(0, 1); (2, 1); (0, 2); (3, 4); (0, 1)]).
  assert (holds (num_vertices demo_cc) demo_graph gv) as Hgv.
  { rewrite En. exact (demo_verifier_holds 6 [(0, 1); (2, 1); (0, 2); (3, 4); (0, 1)] ltac:(discriminate) ltac:(repeat constructor; discriminate)). }
  destruct (queries_pass_verification 2 demo_schedules demo_order demo_base demo_graph demo_cc gv demo_prio HI
    (demo_ready demo_schedules eq_refl) ltac:(rewrite En; exact demo_order_perm) Hgv) as [Hq _].
  assert (match (connected_components 2 demo_schedules demo_order demo_cc).2 with Ok _ => true | _ => false end = true) as A
    by (vm_compute; reflexivity).
  destruct (connected_components 2 demo_schedules demo_order demo_cc) as [cc' [ans|e| |]] eqn:E; try discriminate A.
  destruct (Hq cc' ans eq_refl) as (gv' & Ev & Hgv'). rewrite En in Hgv'.
  exists cc', ans, gv, gv'. split; [reflexivity|]. split; [exact Ev|exact Hgv'].
Defined.

(** The cached components can be stale. A verifier of the path accepts its
    components; it then accepts a spanning forest of it followed by an empty one,
    and although its graph is the same as before, the same answer is refused:
    the check computes the components of the graph without the first forest, and
    putting the matrix back does not mark them as out of date. Combining it with
    a verifier of one edge changes its graph, and the components of the old graph
    are still accepted. *)
Theorem verifier_goes_stale :
  let ans := listed (merged_dsu [(1, 0); (0, 2)]) in
  let gv := (verify_connected_components ans path_verifier).1 in
  let gv' := (verify_spanning_forests [(demo_prio, mkSpanningForest [mkEdge 0 1; mkEdge 1 2] 3);
                (demo_prio, mkSpanningForest [] 3)] gv).1 in
  let gv'' := (combine (demo_verifier 3 [(0, 1)]) gv).1 in
  (verify_connected_components ans gv).2 = Ok tt ∧
  adj_matrix gv' = adj_matrix gv ∧
  (verify_connected_components ans gv').2 = Throw (IncorrectCCException "Incorrect number of components!") ∧
  adj_matrix gv'' = adj_matrix (demo_verifier 3 [(1, 2)]) ∧
  (verify_connected_components ans gv'').2 = Ok tt.
Proof. vm_compute. split_and!; reflexivity. Qed.
End Demo.
