(* ===== verification/SampleChecks.v ===== *)
(** Queries under different checks of the sampled edges.

    The code of a query is monotone in the check it makes of each sampled edge
    (class [SampleCheck] of file Round), for the definedness order of file
    Prelude. So a run known to be defined under the check that is only defined on
    the edges of the graph ([only_edges]) is the run of every build whose check
    accepts those edges ([compute_answer_unchecked]). *)
From S2P Require Import Prelude Float64 Platform Util Sketch Dsu Graph Forest Config CCAlg Partition MergeInstr Round RoundCorrect Boruvka BoruvkaCorrect.

Open Scope N_scope.

Definition check_le (SC SC' : SampleCheck) : Prop := ∀ e, outcome_le (SC e) (SC' e).

Section Monotone.
Context `{P : Platform} {D : Type} `{UF : UnionFind D} (SC SC' : SampleCheck) (HSC : check_le SC SC').

Lemma sample_supernode_le : M_le (sample_supernode (D := D) (SC := SC)) (sample_supernode (SC := SC')).
Proof using HSC.
  apply M_bind_le; [reflexivity|]. intros smp. destruct (sample_result smp); [|reflexivity..].
  apply M_bind_le; [reflexivity|]. intros r. destruct (merged r); [|reflexivity].
  apply M_bind_le; [|reflexivity]. apply lift_le, HSC.
Qed.

Lemma sample_vertex_le i st : outcome_le (sample_vertex (D := D) (SC := SC) i st) (sample_vertex (SC := SC') i st).
Proof using HSC.
  destruct st as [[cc m] err]. apply outcome_bind_le; [reflexivity|]. intros s.
  destruct (sample_supernode_le (cc, s)) as [E|E]; [|by rewrite E; right].
  left. destruct (sample_supernode (SC := SC) (cc, s)) as [[cc' s'] o]. simpl in E. by subst.
Qed.

Lemma try_sample_le s err (r : region (D := D)) :
  outcome_le (try_sample (SC := SC) s err r) (try_sample (SC := SC') s err r).
Proof using HSC.
  unfold try_sample. destruct (sample_supernode_le (r_cc r, s)) as [E|E]; [|by rewrite E; right].
  left. destruct (sample_supernode (SC := SC) (r_cc r, s)) as [[cc' s'] o]. simpl in E. by subst.
Qed.

Lemma region_step_le round t (r : region (D := D)) :
  outcome_le (region_step (SC := SC) round t r) (region_step (SC := SC') round t r).
Proof using HSC.
  unfold region_step. destruct (r_threads r !! t) as [th|]; [|reflexivity].
  destruct (th_todo th) as [|a rest]; [reflexivity|]. destruct a; try reflexivity.
  - apply outcome_bind_le; [apply try_sample_le|]. intros [[s err] r']. reflexivity.
  - simpl. destruct (th_ready th); [|reflexivity]. apply outcome_bind_le; [reflexivity|]. intros gd.
    apply outcome_bind_le; [apply try_sample_le|]. intros [[s err] r']. reflexivity.
Qed.

Lemma perform_boruvka_round_le round T order sched mi globals :
  M_le (perform_boruvka_round (D := D) (SC := SC) round T order sched mi globals)
    (perform_boruvka_round (SC := SC') round T order sched mi globals).
Proof using HSC.
  unfold perform_boruvka_round. destruct (round =? 0).
  - apply M_bind_le; [|reflexivity]. intros cc. unfold run_round_zero.
    destruct (ofold_le _ _ order sample_vertex_le (cc, false, None)) as [E|E]; rewrite E; [by left|by right].
  - intros cc. match goal with |- context [match ?a with Ok _ => _ | _ => _ end] => set (x := a) end.
    match goal with |- _ ∨ _ = match ?a with Ok _ => _ | _ => _ end => set (y := a) end.
    assert (outcome_le x y) as [->| ->]; [|by left|by right].
    apply outcome_bind_le; [reflexivity|]. intros gs. apply outcome_bind_le; [reflexivity|]. intros programs.
    apply outcome_bind_le; [reflexivity|]. intros local. apply ofold_le, region_step_le.
Qed.

Lemma boruvka_loop_le fuel T s : ∀ round mi globals,
  M_le (boruvka_loop (D := D) (SC := SC) fuel T s round mi globals)
    (boruvka_loop (SC := SC') fuel T s round mi globals).
Proof using HSC.
  induction fuel as [|fuel IH]; intros round mi globals; [reflexivity|]. cbn [boruvka_loop].
  apply M_bind_le; [reflexivity|]. intros n. apply M_bind_le; [apply perform_boruvka_round_le|].
  intros [m gs]. destruct (negb m); [reflexivity|]. apply M_bind_le; [reflexivity|]. intros mi'. apply IH.
Qed.

Lemma compute_answer_le T s : M_le (compute_answer (D := D) (SC := SC) T s) (compute_answer (SC := SC') T s).
Proof using HSC.
  apply M_bind_le; [|reflexivity].
  assert (M_le (boruvka_emulation (D := D) (SC := SC) T s) (boruvka_emulation (SC := SC') T s)) as Hle.
  { apply M_bind_le; [reflexivity|]. intros fuel. apply M_bind_le; [reflexivity|]. intros [mi gs].
    apply M_bind_le; [apply boruvka_loop_le|reflexivity]. }
  intros cc. unfold catch. destruct (Hle cc) as [E|E]; [|by rewrite E; right].
  left. destruct (boruvka_emulation (SC := SC) T s cc) as [cc' o]. simpl in E. by subst.
Qed.

(** The cuts a run looks at are those of the run with the weaker check. *)
Lemma run_reliable_le `{!UnionFindLaws D} fuel T s b G : ∀ round mi globals (cc : CCSketchAlg D),
  run_reliable (SC := SC') fuel T s b G round mi globals cc → run_reliable (SC := SC) fuel T s b G round mi globals cc.
Proof using HSC.
  induction fuel as [|fuel IH]; intros round mi globals cc; [done|]. cbn [run_reliable]. intros [Hr Hrest].
  split; [done|].
  destruct (perform_boruvka_round_le round T (zero_order s) (region_schedule s round) mi globals cc) as [E|E].
  - destruct (perform_boruvka_round (SC := SC) _ _ _ _ _ _ cc) as [cc1 o]. simpl in E. by subst.
  - rewrite E. destruct (perform_boruvka_round (SC := SC') _ _ _ _ _ _ cc) as [cc1 [[[] gs]|?| |]]; try done.
    destruct (on_dsu _ cc1) as [cc2 [mi'|?| |]]; try done. by apply IH.
Qed.

Lemma query_reliable_le `{!UnionFindLaws D} T s b G (cc : CCSketchAlg D) :
  query_reliable (SC := SC') T s b G cc → query_reliable (SC := SC) T s b G cc.
Proof using HSC.
  unfold query_reliable. destruct (boruvka_start T cc) as [cc1 [[mi gs]|?| |]]; [|done..]. apply run_reliable_le.
Qed.
End Monotone.

(** * The check that only the edges of the graph pass *)

(** [e] is an edge of [G], given by its ends. *)
Definition edge_in (G : gset N) (e : Edge) : Prop :=
  is_node_id (src e) ∧ is_node_id (dst e) ∧ concat_pairing_fn (src e) (dst e) ∈ G.

#[export] Instance edge_in_dec G e : Decision (edge_in G e).
Proof. unfold edge_in, is_node_id. apply _. Defined.

Definition only_edges (G : gset N) : SampleCheck := λ e, if decide (edge_in G e) then Ok tt else Undef.

Lemma only_edges_accepts n G : n ≤ 2 ^ 32 → graph n G → CheckAccepts (only_edges G) G.
Proof.
  intros Hn HG id Hid. unfold sample_check, only_edges. destruct (HG id Hid) as (Hb & Hlt & Hd).
  fold (id_src id) (id_dst id) in *. rewrite decide_True; [done|]. unfold edge_in. fold (id_src id) (id_dst id).
  assert (concat_pairing_fn (id_src id) (id_dst id) = id) as -> by (by apply (edge_id_concat n), HG).
  unfold is_node_id, num_bits. split; [lia|]. split; [lia|done].
Qed.

Lemma only_edges_le G (SC : SampleCheck) : (∀ e, edge_in G e → SC e = Ok tt) → check_le (only_edges G) SC.
Proof. intros H e. unfold only_edges. case_decide; [right; by rewrite H|by left]. Qed.

(** The build does not change what a query computes. *)
Lemma compute_answer_unchecked `{P : Platform} `{!PlatformLaws P} {D : Type} `{UnionFindLaws D}
    (SC : SampleCheck) b G T s (cc : CCSketchAlg D) (PT : Partitioned (num_vertices cc) T) :
  cc_inv cc b G → dsu_valid cc = false → zero_order s ≡ₚ seqN 0 (num_vertices cc) →
  query_reliable (SC := no_check) T s b G cc → (∀ e, edge_in G e → SC e = Ok tt) →
  compute_answer (SC := SC) T s cc = compute_answer (SC := no_check) T s cc.
Proof.
  intros HI Hv Hord Hrel HSC. pose proof (cb_n _ _ (ci_base _ _ _ HI)) as [_ Hn].
  pose proof (only_edges_accepts _ G (N.lt_le_incl _ _ Hn) (ci_graph _ _ _ HI)) as HA.
  assert (∀ SC' : SampleCheck, (∀ e, edge_in G e → SC' e = Ok tt) →
    compute_answer (SC := only_edges G) T s cc = compute_answer (SC := SC') T s cc) as Heq.
  { intros SC' HSC'. destruct (compute_answer_le (only_edges G) SC' (only_edges_le G SC' HSC') T s cc) as [E|E]; [|done].
    destruct (compute_answer_ok (SC := only_edges G) b G T s cc PT HI Hv Hord) as (cc' & o & E' & Ho).
    - by apply (query_reliable_le _ no_check); [apply only_edges_le|].
    - rewrite E' in E. simpl in E. by subst. }
  by rewrite <-(Heq SC), <-(Heq no_check).
Qed.
