(* ===== verification/Checked.v ===== *)
(** The algorithm in builds with [VERIFY_SAMPLES_F] (src/cc_sketch_alg.cpp).

    The object then has a verifier, given to it with [set_verifier]: a pointer,
    null before. Every sampled edge that is merged is looked up in it, a query
    answered from the cache first looks up the cached forest, and every answer is
    checked before it is returned. Everything else is the code of file Boruvka,
    run with the check of its section. *)
From S2P Require Import Prelude Util Platform Sketch Dsu Graph Config CCAlg Round Boruvka Verifier Session.

Open Scope N_scope.

Record CheckedAlg (D V : Type) : Type := mkChecked {
  base : CCSketchAlg D;
  cc_verifier : option (GraphVerifier V)
}.
Arguments mkChecked {D V}.
Arguments base {D V}.
Arguments cc_verifier {D V}.

Section Checked.
Context `{P : Platform} {D V : Type} `{UF : UnionFind D} `{UV : UnionFind V}.
Implicit Type s : CheckedAlg D V.

Definition set_verifier (gv : GraphVerifier V) s : CheckedAlg D V := mkChecked (base s) (Some gv).

(** [verifier->m()]: without a verifier the pointer is null. *)
Definition on_gv {A} (m : M (GraphVerifier V) A) : M (CheckedAlg D V) A := λ s,
  match cc_verifier s with
  | Some gv => let '(gv, o) := m gv in (mkChecked (base s) (Some gv), o)
  | None => (s, Undef)
  end.

(** The look-up of a sampled edge reads the verifier only. *)
Definition check_of (v : option (GraphVerifier V)) : SampleCheck := λ e,
  match v with Some gv => (verify_edge e gv).2 | None => Undef end.

(** A call of the algorithm's code in this build. *)
Definition on_base {A} (m : SampleCheck → M (CCSketchAlg D) A) : M (CheckedAlg D V) A := λ s,
  let '(cc, o) := m (check_of (cc_verifier s)) (base s) in (mkChecked cc (cc_verifier s), o).

(** The cached forest, edge by edge. *)
Definition verify_cached : M (CheckedAlg D V) unit :=
  n ← gets (λ s, num_vertices (base s)); sf ← gets (λ s, spanning_forest (base s));
  for_each (seqN 0 n) (λ src,
    X ← lift (of_option (sf !! src));
    for_each (elements (X : gset N)) (λ dst, on_gv (verify_edge (mkEdge src dst)))).

(** [ConnectedComponents cc(num_vertices, dsu); verifier->...(cc);] *)
Definition verified_components (order : list N) : M (CheckedAlg D V) ConnectedComponents :=
  n ← gets (λ s, num_vertices (base s));
  cc ← on_base (λ _, on_dsu (ConnectedComponents_new n order));
  _ ← on_gv (verify_connected_components cc);
  mret cc.

(** The answer is in the disjoint set union, or is computed. *)
Definition ensure_answer (num_threads : N) (sch : Schedules) (cached : bool) : M (CheckedAlg D V) unit :=
  if cached then verify_cached else on_base (λ SC, compute_answer (SC := SC) num_threads sch).

Definition checked_connected_components (num_threads : N) (sch : Schedules) (order : list N) :
    M (CheckedAlg D V) ConnectedComponents :=
  cached ← gets (λ s, shared_dsu_valid (base s));
  _ ← ensure_answer num_threads sch cached;
  verified_components order.

(** [prio_gen]: the priorities of the verifier's local disjoint set union. *)
Definition checked_spanning_forest (num_threads : N) (sch : Schedules) (order : list N) (prio_gen : N → N) :
    M (CheckedAlg D V) SpanningForest :=
  _ ← checked_connected_components num_threads sch order;
  n ← gets (λ s, num_vertices (base s)); sf ← gets (λ s, spanning_forest (base s));
  ret ← lift (SpanningForest_new n sf);
  _ ← on_gv (verify_spanning_forests [(prio_gen, ret)]);
  mret ret.

Definition checked_point_query (num_threads : N) (sch : Schedules) (order : list N) (a b : N) :
    M (CheckedAlg D V) bool :=
  cached ← gets (λ s, dsu_valid (base s));
  _ ← ensure_answer num_threads sch cached;
  _ ← verified_components order;
  x ← on_base (λ _, on_dsu (uf_find_root a));
  y ← on_base (λ _, on_dsu (uf_find_root b));
  mret (x =? y).

(** ** Sessions

    The program updates the object, gives it verifiers and makes queries, each in
    its [try]. [ck_order] and [ck_prio] are what a query's checks choose. *)
Inductive checked_op (U : Type) : Type :=
| OpVerifier (gv : GraphVerifier V)
| OpCall (c : call U) (ck_order : list N) (ck_prio : N → N).

Definition checked_call {U} (T : N) (c : call U) (ck_order : list N) (ck_prio : N → N) : M (CheckedAlg D V) reply :=
  match c with
  | CallUpdate u => caught (λ _, RDone) (on_base (λ _, update u))
  | CallStream es => caught (λ _, RDone) (on_base (λ _, for_each es run_event))
  | CallConnected sch order => caught RComponents (checked_connected_components T sch order)
  | CallForest sch order => caught RForest (checked_spanning_forest T sch order ck_prio)
  | CallPoint sch x y => caught RConnected (checked_point_query T sch ck_order x y)
  end.

Fixpoint checked_session {U} (T : N) (ops : list (checked_op U)) : M (CheckedAlg D V) (list reply) :=
  match ops with
  | [] => mret []
  | OpVerifier _ gv :: ops => _ ← modify (set_verifier gv); checked_session T ops
  | OpCall _ c ck_order ck_prio :: ops =>
      r ← checked_call T c ck_order ck_prio; rs ← checked_session T ops; mret (r :: rs)
  end.
End Checked.
Arguments OpVerifier {V U}.
Arguments OpCall {V U}.
