(* ===== verification/CheckedCorrect.v ===== *)
(** Builds with [VERIFY_SAMPLES_F] check queries and do not change them.

    [checked_call_ok]: when the object is consistent with a graph and its verifier
    holds the same graph, a query of this build leaves the algorithm in the state,
    and gives the reply, of the unchecked build. [checked_session_refines]
    composes them over sessions in which the verifier is renewed when the graph
    changes. *)
From S2P Require Import Prelude Float64 Platform Util XorSet Sketch Dsu Graph Forest Config CCAlg Partition MergeInstr Round RoundCorrect Instructions Boruvka BoruvkaCorrect Queries Session Verifier VerifierCorrect SampleChecks Checked.

Open Scope N_scope.

Section Unchanged.
Context `{P : Platform} `{!PlatformLaws P} {D V : Type} `{UFL : UnionFindLaws D} `{UFV : UnionFindLaws V}.
Implicit Type cc : CCSketchAlg D.
Implicit Type gv : GraphVerifier V.

(** ** Calls on the parts *)

Lemma on_gv_run {A} (m : M (GraphVerifier V) A) cc gv gv' o : m gv = (gv', o) →
  on_gv m (mkChecked cc (Some gv)) = (mkChecked cc (Some gv'), o).
Proof using . intros E. unfold on_gv. cbn [cc_verifier base]. by rewrite E. Qed.

Lemma on_base_run {A} (m : SampleCheck → M (CCSketchAlg D) A) cc (v : option (GraphVerifier V)) cc' o :
  m (check_of v) cc = (cc', o) → on_base m (mkChecked cc v) = (mkChecked cc' v, o).
Proof using . intros E. unfold on_base. cbn [cc_verifier base]. by rewrite E. Qed.

(** Looking an edge of the graph up succeeds, in either order of its ends. *)
Lemma verify_graph_edge n G gv e : n ≤ 2 ^ 32 → graph n G → represents n G (adj_matrix gv) →
  is_node_id (src e) → is_node_id (dst e) → concat_pairing_fn (src e) (dst e) ∈ G → verify_edge e gv = (gv, Ok tt).
Proof using .
  intros Hn HG HR Hs Hd Hin. destruct (HG _ Hin) as (_ & Hlt & Hn').
  destruct (concat_ends (src e) (dst e) Hs Hd) as [E1 E2]. rewrite E1, E2 in *.
  rewrite (verify_edge_ok n G) by (done || lia). by rewrite bool_decide_eq_true_2.
Qed.

Lemma verify_cached_ok n G cc gv : n = num_vertices cc → n ≤ 2 ^ 32 → graph n G → represents n G (adj_matrix gv) →
  cc_forest cc G → verify_cached (mkChecked cc (Some gv)) = (mkChecked cc (Some gv), Ok tt).
Proof using PlatformLaws0.
  intros Hn Hn32 HG HR HF. unfold verify_cached. rewrite !M_bind_gets. cbn [base].
  destruct (for_each_range (λ _ s, s = mkChecked cc (Some gv)) 0 (num_vertices cc)
    (λ src, X ← lift (of_option (spanning_forest cc !! src));
            for_each (elements (X : gset N)) (λ dst, on_gv (verify_edge (mkEdge src dst)))))
    with (s := mkChecked cc (Some gv)) as (s' & E & ->); [|done|exact E].
  intros u s Hu ->. rewrite N.add_0_l. pose proof (fi_length _ _ _ _ HF) as HL.
  destruct (lookupN_lt_is_Some (spanning_forest cc) u) as [X HX]; [lia|].
  rewrite HX. cbn [of_option]. rewrite (M_bind_lift _ _ _ _ eq_refl).
  apply (for_each_inv (λ _ s, s = mkChecked cc (Some gv))); [|done].
  intros pre v rest s El ->. eexists. split; [|done]. apply on_gv_run.
  destruct (fi_edges _ _ _ _ HF u v) as (Huv & Hv & Hin).
  { apply elem_of_forest_pairs. exists X. split; [done|]. apply elem_of_elements. rewrite El. set_solver. }
  apply (verify_graph_edge n G); cbn [src dst]; unfold is_node_id, num_bits; (done || lia).
Qed.

(** ** The queries *)

(** The answer is computed as in the unchecked build. *)
Lemma ensure_answer_checked T sch b G cc gv : cc_inv cc b G → query_ready (SC := no_check) T sch b G cc →
  holds (num_vertices cc) G gv →
  ∃ cc1 o, ensure_answer T sch (dsu_valid cc) (mkChecked cc (Some gv)) = (mkChecked cc1 (Some gv), o) ∧
    query_outcome (λ _ : unit, True) b G cc cc1 o.
Proof using PlatformLaws0.
  intros HI Hq Hgv. pose proof (cb_n _ _ (ci_base _ _ _ HI)) as [_ Hn]. pose proof (ci_graph _ _ _ HI) as HG.
  destruct (ensure_answer_ok (SC := no_check) T sch b G cc (dsu_valid cc) HI Hq eq_refl) as (cc1 & o & E & Ho).
  exists cc1, o. split; [|done]. unfold ensure_answer. destruct (dsu_valid cc) eqn:Hd.
  - injection E as <- <-. apply (verify_cached_ok (num_vertices cc) G); [done|lia|done|apply Hgv|].
    pose proof (ci_cache _ _ _ HI) as (_ & _ & _ & _ & Hval). by apply Hval.
  - apply on_base_run. rewrite <-E.
    apply (compute_answer_unchecked _ b G T sch cc); [apply Hq|done|done|apply Hq|by apply Hq|].
    intros e (Hs & Hd' & Hin). unfold check_of.
    by rewrite (verify_graph_edge (num_vertices cc) G) by (try apply Hgv; done || lia).
Qed.

Lemma verified_components_ok b G cc gv order : cc_inv cc b G → dsu_valid cc = true →
  holds (num_vertices cc) G gv → order ≡ₚ seqN 0 (num_vertices cc) →
  ∃ d ans gv', verified_components order (mkChecked cc (Some gv)) = (mkChecked (set_dsu d cc) (Some gv'), Ok ans) ∧
    uf_same (dsu cc) d ∧ answers_components (num_vertices cc) G ans ∧ holds (num_vertices cc) G gv'.
Proof using PlatformLaws0.
  intros HI Hd Hgv Hord. pose proof (cb_n _ _ (ci_base _ _ _ HI)) as [_ Hn]. pose proof (ci_cache _ _ _ HI) as Hc.
  pose proof Hc as (Hok & Hsz & _).
  destruct (ConnectedComponents_new_ok (dsu cc) (num_vertices cc) order Hok Hsz Hn Hord) as (d & ans & Ea & Hs & Hans).
  assert (answers_components (num_vertices cc) G ans) as Ha.
  { apply (lists_roots_answer (dsu cc)); [done..|]. intros x y Hx Hy. by apply (cache_connected cc). }
  destruct (verify_right_components (num_vertices cc) G ans gv Hn (ci_graph _ _ _ HI) Hgv Ha) as (gv' & Ev & Hgv').
  exists d, ans, gv'. split; [|done]. unfold verified_components. rewrite M_bind_gets. cbn [base].
  rewrite (M_bind_Ok _ _ _ _ _ (on_base_run (λ _, on_dsu _) cc (Some gv) _ _ (on_dsu_run _ _ _ _ Ea))).
  by rewrite (M_bind_Ok _ _ _ _ _ (on_gv_run _ _ _ _ _ Ev)).
Qed.

(** A query of the checked build ends as one of the unchecked build does, and
    leaves the verifier consistent. *)
Definition checked_outcome {A} (good : A → Prop) (b : Sketch) (G : gset N) cc (r : CheckedAlg D V * outcome A) : Prop :=
  ∃ cc' gv', r.1 = mkChecked cc' (Some gv') ∧ holds (num_vertices cc) G gv' ∧ query_outcome good b G cc cc' r.2.

Lemma checked_outcome_bind {A B} (m : M (CheckedAlg D V) A) (k : A → M (CheckedAlg D V) B) good good' b G cc s :
  checked_outcome good b G cc (m s) →
  (∀ a cc1 gv1, good a → cc_inv cc1 b G → num_vertices cc1 = num_vertices cc → dsu_valid cc1 = true →
     holds (num_vertices cc) G gv1 →
     ∃ d gv' ans, k a (mkChecked cc1 (Some gv1)) = (mkChecked (set_dsu d cc1) (Some gv'), Ok ans) ∧
       uf_same (dsu cc1) d ∧ holds (num_vertices cc) G gv' ∧ good' ans) →
  checked_outcome good' b G cc ((m ≫= k) s).
Proof using .
  intros (cc1 & gv1 & E1 & Hgv1 & Ho) Hk. unfold mbind, M_bind. destruct (m s) as [s1 o]. cbn [fst snd] in *. subst s1.
  destruct o as [a|e| |].
  - destruct Ho as (Ha & HI & Hst & Hd & Hl).
    destruct (Hk a cc1 gv1 Ha HI (proj1 Hst) Hd Hgv1) as (d & gv' & ans & -> & Hs & Hgv' & Hg).
    eexists _, _. split; [done|]. split; [done|]. simpl. split_and!; try done. by apply cc_inv_same.
  - by eexists _, _.
  - by eexists _, _.
  - done.
Qed.

Lemma checked_connected_components_ok T sch order b G cc gv : cc_inv cc b G →
  query_ready (SC := no_check) T sch b G cc → order ≡ₚ seqN 0 (num_vertices cc) → holds (num_vertices cc) G gv →
  checked_outcome (answers_components (num_vertices cc) G) b G cc
    (checked_connected_components T sch order (mkChecked cc (Some gv))).
Proof using PlatformLaws0.
  intros HI Hq Hord Hgv. unfold checked_connected_components. rewrite M_bind_gets. cbn [base].
  assert (shared_dsu_valid cc = dsu_valid cc) as -> by apply HI.
  destruct (ensure_answer_checked T sch b G cc gv HI Hq Hgv) as (cc1 & o & E & Ho).
  apply (checked_outcome_bind _ _ (λ _, True)); [rewrite E; by exists cc1, gv|].
  intros _ cc2 gv2 _ HI2 En Hd Hgv2. rewrite <-En in *.
  destruct (verified_components_ok b G cc2 gv2 order HI2 Hd Hgv2 Hord) as (d & ans & gv' & Ea & Hs & Ha & Hgv').
  by exists d, gv', ans.
Qed.

Lemma checked_spanning_forest_ok T sch order prio b G cc gv : cc_inv cc b G →
  query_ready (SC := no_check) T sch b G cc → order ≡ₚ seqN 0 (num_vertices cc) → holds (num_vertices cc) G gv →
  checked_outcome (answers_forest G) b G cc (checked_spanning_forest T sch order prio (mkChecked cc (Some gv))).
Proof using PlatformLaws0.
  intros HI Hq Hord Hgv. unfold checked_spanning_forest.
  eapply checked_outcome_bind; [by apply checked_connected_components_ok|].
  intros _ cc1 gv1 _ HI1 En Hd Hgv1. rewrite !M_bind_gets. cbn [base].
  pose proof (ci_cache _ _ _ HI1) as (_ & _ & _ & _ & Hval). destruct (Hval Hd) as [HF Hc].
  pose proof (cb_n _ _ (ci_base _ _ _ HI1)) as [_ Hn]. pose proof (ci_graph _ _ _ HI1) as HG.
  destruct (forest_answer (num_vertices cc1) G _ _ (N.lt_le_incl _ _ Hn) HF Hc) as (F & EF & HFa). rewrite <-En in Hgv1.
  rewrite (M_bind_lift _ _ _ _ EF).
  destruct (verify_one_forest (num_vertices cc1) G prio F gv1 Hn HG Hgv1) as (gv' & Ev & Hgv'); [|done|].
  { by eapply answers_forest_in_range. }
  rewrite (M_bind_Ok _ _ _ _ _ (on_gv_run _ _ _ _ _ Ev)).
  pose proof (ci_cache _ _ _ HI1) as (Hok & _). exists (dsu cc1), gv', F. split; [by destruct cc1|].
  split; [done|]. rewrite <-En. done.
Qed.

Lemma checked_point_query_ok T sch order x y b G cc gv : cc_inv cc b G →
  query_ready (SC := no_check) T sch b G cc → order ≡ₚ seqN 0 (num_vertices cc) → holds (num_vertices cc) G gv →
  x < num_vertices cc → y < num_vertices cc →
  checked_outcome (λ ans, ans = true ↔ graph_connected G x y) b G cc
    (checked_point_query T sch order x y (mkChecked cc (Some gv))).
Proof using PlatformLaws0.
  intros HI Hq Hord Hgv Hx Hy. unfold checked_point_query. rewrite M_bind_gets. cbn [base].
  destruct (ensure_answer_checked T sch b G cc gv HI Hq Hgv) as (cc1 & o & E & Ho).
  apply (checked_outcome_bind _ _ (λ _, True)); [rewrite E; by exists cc1, gv|].
  intros _ cc2 gv2 _ HI2 En Hd Hgv2. rewrite <-En in *.
  destruct (verified_components_ok b G cc2 gv2 order HI2 Hd Hgv2 Hord) as (d & ans & gv' & Ea & Hs & _ & Hgv').
  pose proof (cache_connected cc2 G x y (ci_cache _ _ _ HI2) Hd Hx Hy) as Hc.
  pose proof (ci_cache _ _ _ HI2) as (Hok & Hsz & _). pose proof Hs as (Hokd & Hszd & Hrd).
  destruct (uf_find_ok d x Hokd) as (d1 & E1 & Ho1 & Hs1 & Hr1); [by rewrite Hszd, Hsz|].
  destruct (uf_find_ok d1 y Ho1) as (d2 & E2 & Ho2 & Hs2 & Hr2); [by rewrite Hs1, Hszd, Hsz|].
  rewrite (M_bind_Ok _ _ _ _ _ Ea).
  rewrite (M_bind_Ok _ _ _ _ _ (on_base_run (λ _, on_dsu _) (set_dsu d cc2) _ _ _ (on_dsu_run _ (set_dsu d cc2) _ _ E1))).
  rewrite (M_bind_Ok _ _ _ _ _ (on_base_run (λ _, on_dsu _) (set_dsu d1 cc2) _ _ _ (on_dsu_run _ (set_dsu d1 cc2) _ _ E2))).
  exists d2, gv', (uf_root d x =? uf_root d1 y). split; [done|].
  split; [|split; [done|by rewrite Hr1, N.eqb_eq, !Hrd, Hc by (by rewrite ?Hszd, Hsz)]].
  split; [done|]. split; [congruence|]. intros z Hz. by rewrite Hr2, Hr1, Hrd by congruence.
Qed.
End Unchanged.

(** * Sessions *)

Section Sessions.
Context `{P : Platform} `{!PlatformLaws P} {D V U : Type} `{UFL : UnionFindLaws D} `{UFV : UnionFindLaws V}.
Implicit Type c : call U.
Implicit Type s : CheckedAlg D V.

Definition calls (ops : list (checked_op (V := V) U)) : list (call U) :=
  ops ≫= λ op, match op with OpVerifier _ => [] | OpCall c _ _ => [c] end.

Definition verifier_holds (n : N) (G : gset N) s : Prop := ∃ gv, cc_verifier s = Some gv ∧ holds n G gv.

(** Every query is made with a verifier of the current graph ([Gv] is the graph
    of the last verifier given), and the checksums tell the truth whenever it has
    to sample. *)
Fixpoint checked_reliable (T n : N) (b : Sketch) (ops : list (checked_op U)) (G : gset N) (Gv : option (gset N)) s : Prop :=
  match ops with
  | [] => True
  | OpVerifier gv :: ops => ∃ G', holds n G' gv ∧ checked_reliable T n b ops G (Some G') (set_verifier gv s)
  | OpCall c ck_order ck_prio :: ops =>
      (is_query c = true → Gv = Some G ∧ ck_order ≡ₚ seqN 0 n) ∧
      (∀ sch, schedule_of c = Some sch → dsu_valid (base s) = false → query_reliable T sch b G (base s)) ∧
      checked_reliable T n b ops (graph_after c (update_locked (base s)) G) Gv (checked_call T c ck_order ck_prio s).1
  end.

(** One argument for the three queries. *)
Lemma checked_query_simulated {A} n k b σ c s (m : M (CheckedAlg D V) A) (f : A → reply) good :
  simulates n k b σ (base s) → is_query c = true → (∀ ans, good ans → query_answer n (g_graph σ) c (f ans)) →
  checked_outcome good b (g_graph σ) (base s) (m s) →
  ∃ s' o, caught f m s = (s', o) ∧ simulated_call n k b σ c (base s') o ∧ verifier_holds n (g_graph σ) s'.
Proof using .
  intros Hsim Hq Hgood (cc' & gv' & Es & Hgv' & Ho). rewrite (sm_n _ _ _ _ _ Hsim) in Hgv'.
  destruct (call_query_ok n k b σ c (base s) (λ cc, (cc', (m s).2)) f good cc' _ Hsim Hq Hgood eq_refl Ho) as (o & E & Hc).
  exists (mkChecked cc' (Some gv')), o. split; [|split; [done|by exists gv']].
  unfold caught in *. destruct (m s) as [s1 o1]. cbn [fst snd] in *. subst s1. by destruct o1; injection E as <-.
Qed.

Lemma checked_call_ok n k b σ c ck_order ck_prio T s (PT : Partitioned n T) : simulates n k b σ (base s) → valid_call n k c →
  (is_query c = true → verifier_holds n (g_graph σ) s ∧ ck_order ≡ₚ seqN 0 n) →
  (∀ sch, schedule_of c = Some sch → dsu_valid (base s) = false → query_reliable T sch b (g_graph σ) (base s)) →
  ∃ s' o, checked_call T c ck_order ck_prio s = (s', o) ∧ simulated_call n k b σ c (base s') o ∧
    ∀ G, (is_query c = true → G = g_graph σ) → verifier_holds n G s → verifier_holds n G s'.
Proof using PlatformLaws0.
  intros Hsim Hv Hck Hrel. destruct (is_query c) eqn:Hq.
  - destruct (Hck eq_refl) as [(gv & Egv & Hgv) Hord]. pose proof Hsim as [HI Hn _ _ _ _ _]. rewrite <-Hn in Hgv, Hord, PT.
    assert (∃ s' o, checked_call T c ck_order ck_prio s = (s', o) ∧ simulated_call n k b σ c (base s') o ∧
      verifier_holds n (g_graph σ) s') as (s' & o & E & Hs & Hv').
    { destruct s as [cc v]. cbn [cc_verifier base] in *. subst v.
      destruct c as [u|es|sch order|sch order|sch x y]; try done; cbn [valid_call schedule_of checked_call] in *;
        specialize (Hrel sch eq_refl); rewrite <-Hn in Hv.
      - destruct Hv as [Hz Ho]. eapply checked_query_simulated; [done|done| |apply checked_connected_components_ok; [done|by split|done|done]].
        intros ans Ha. by rewrite Hn in Ha.
      - destruct Hv as [Hz Ho]. by eapply checked_query_simulated; [done|done| |apply checked_spanning_forest_ok; [done|by split|done|done]].
      - destruct Hv as (Hz & Hx & Hy). by eapply checked_query_simulated; [done|done| |apply checked_point_query_ok; [done|by split|done..]]. }
    exists s', o. split; [done|]. split; [done|]. intros G HG _. by rewrite HG.
  - destruct (call_ok n k b σ c T (base s) PT Hsim Hv Hrel) as (cc' & o & E & Hs).
    exists (mkChecked cc' (cc_verifier s)), o. split; [|split; [done|by intros G _]].
    destruct c as [u|es|sch order|sch order|sch x y]; try done; cbn [checked_call run_call] in *; unfold caught, on_base in *.
    + destruct (update u (base s)) as [c1 []]; by injection E as <- <-.
    + destruct (for_each es run_event (base s)) as [c1 []]; by injection E as <- <-.
Qed.

Lemma checked_session_ok n k b T (PT : Partitioned n T) ops : ∀ σ Gv s, simulates n k b σ (base s) →
  (∀ G, Gv = Some G → verifier_holds n G s) → Forall (valid_call n k) (calls ops) →
  checked_reliable T n b ops (g_graph σ) Gv s →
  ∃ s' o, checked_session T ops s = (s', o) ∧
    match o with
    | Ok replies => ∃ σ', spec_run n σ (calls ops) replies σ' ∧ simulates n k b σ' (base s')
    | Abort => NDEBUG = false
    | _ => False
    end.
Proof using PlatformLaws0.
  induction ops as [|[gv|c ck_order ck_prio] ops IH]; intros σ Gv s Hsim HGv Hv Hrel.
  - exists s, (Ok []). split; [done|]. exists σ. by split; [constructor|].
  - destruct Hrel as (G' & Hgv & Hrel). cbn [checked_session]. rewrite M_bind_modify.
    apply (IH σ (Some G') (set_verifier gv s)); [done| |done|done]. intros G [= <-]. by exists gv.
  - apply Forall_cons in Hv as [Hv Hvs]. destruct Hrel as (Hck & Hr & Hrel).
    destruct (checked_call_ok n k b σ c ck_order ck_prio T s PT Hsim Hv) as (s1 & o & E & Ho & Hkeep); [|done|].
    { intros Hq. destruct (Hck Hq) as [EG Hord]. split; [by apply HGv|done]. }
    rewrite E, <-(sm_locked _ _ _ _ _ Hsim) in Hrel. cbn [checked_session]. destruct o as [r|e| |]; simpl in Ho.
    + destruct Ho as (σ1 & Hs & Hsim1 & Hg). cbn [fst] in Hrel. rewrite <-Hg in Hrel.
      destruct (IH σ1 Gv s1 Hsim1) as (s2 & o & E2 & Ho); [|done|done|].
      { intros G ->. apply Hkeep; [|by apply HGv]. intros Hq. destruct (Hck Hq) as [EG _]. by injection EG. }
      rewrite (M_bind_Ok _ _ _ _ _ E). destruct o as [rs|e| |]; simpl in Ho.
      * rewrite (M_bind_Ok _ _ _ _ _ E2). exists s2, (Ok (r :: rs)). split; [done|].
        destruct Ho as (σ2 & Hrun & Hsim2). exists σ2. split; [by eapply SpecCons|done].
      * done.
      * exists s2, Abort. split; [unfold mbind, M_bind; by rewrite E2|done].
      * done.
    + done.
    + exists s1, Abort. split; [unfold mbind, M_bind; by rewrite E|done].
    + done.
Qed.

(** C12. Sessions of builds with [VERIFY_SAMPLES_F] refine the graph. On a fresh
    object, any sequence of valid calls, in which every query is made while the
    object's verifier holds the current graph, and samples no set of edges with a
    colliding checksum, gives the replies of the abstract graph: no look-up of a sampled or cached edge throws, every answer passes its
    final check, and the null verifier is never reached. *)
Theorem checked_session_refines n seed conf prio_gen b k T (ops : list (checked_op (V := V) U)) (PT : Partitioned n T)
    (Hp : good_params n seed conf b) (Hops : Forall (valid_call n k) (calls ops)) :
  ∃ cc0 cc1 : CCSketchAlg D,
    CCSketchAlg_new n seed conf prio_gen = Ok cc0 ∧ allocate_worker_memory k cc0 = (cc1, Ok tt) ∧
    (checked_reliable T n b ops ∅ None (mkChecked cc1 None) →
     ∃ s o, checked_session T ops (mkChecked cc1 None) = (s, o) ∧
       match o with
       | Ok replies => ∃ σ, spec_run n (mkG ∅ true false) (calls ops) replies σ ∧ simulates n k b σ (base s)
       | Abort => NDEBUG = false
       | _ => False
       end).
Proof using PlatformLaws0.
  destruct (fresh_simulates (D := D) n seed conf prio_gen b k Hp) as (cc0 & cc1 & E0 & E1 & Hsim).
  exists cc0, cc1. split; [done|]. split; [done|]. intros Hrel.
  by apply (checked_session_ok n k b T PT ops (mkG ∅ true false) None).
Qed.
End Sessions.
