(* ===== verification/CheckedSound.v ===== *)
(** Answers of builds with [VERIFY_SAMPLES_F] are right, whatever the sketches say.

    [well_sized] is all a query keeps when nothing is known about the sketches or
    the hash: a well-formed disjoint set union of the vertices and a forest array
    without foreign vertices. It is enough for the final checks: what
    [verify_connected_components] and [verify_spanning_forests] let through is
    the answer for the verifier's graph ([checked_answers_sound]). *)
From S2P Require Import Prelude Float64 Platform Util XorSet Bucket Sketch Dsu DsuMT Graph Forest Config CCAlg Partition MergeInstr Round RoundCorrect Instructions Boruvka BoruvkaCorrect Queries Session Correctness Verifier VerifierCorrect SampleChecks Checked CheckedCorrect.

Open Scope N_scope.

Section Sized.
Context `{P : Platform} {SC : SampleCheck} {D : Type} `{UFL : UnionFindLaws D} (n : N).
Implicit Type cc : CCSketchAlg D.

Record well_sized cc : Prop := {
  ws_n : num_vertices cc = n;
  ws_ok : uf_ok (dsu cc);
  ws_size : uf_size (dsu cc) = n;
  ws_length : length (spanning_forest cc) = N.to_nat n;
  ws_range u X v : spanning_forest cc !! u = Some X → v ∈ (X : gset N) → v < n
}.

(** The same before a query: the recorded edges are only known to be ids. *)
Record object_sized cc : Prop := {
  os_n : num_vertices cc = n;
  os_ok : uf_ok (dsu cc);
  os_size : uf_size (dsu cc) = n;
  os_length : length (spanning_forest cc) = N.to_nat n;
  os_ids u X v : spanning_forest cc !! u = Some X → v ∈ (X : gset N) → is_node_id v
}.

Lemma well_sized_ext cc cc' : num_vertices cc' = num_vertices cc → dsu cc' = dsu cc →
  spanning_forest cc' = spanning_forest cc → well_sized cc → well_sized cc'.
Proof using . intros E1 E2 E3 []. split; rewrite ?E1, ?E2, ?E3; done. Qed.

Lemma well_sized_same cc d : uf_same (dsu cc) d → well_sized cc → well_sized (set_dsu d cc).
Proof using . intros (Hok & Hs & _) []. split; cbn; congruence || done. Qed.

(** A result that keeps the sizes, if there is one; an exception may be caught. *)
Definition sized_result {A} (r : CCSketchAlg D * outcome A) : Prop :=
  match r.2 with Ok _ | Throw _ => well_sized r.1 | _ => True end.

(** Only edges in range are merged. *)
Lemma merge_sized u v cc : well_sized cc →
  match on_dsu (uf_merge u v) cc with
  | (cc', Ok _) => well_sized cc' ∧ u < n ∧ v < n
  | (_, Throw _) => False
  | _ => True
  end.
Proof using .
  intros [Hn Hok Hsz HL Hr]. unfold on_dsu, zoom.
  destruct (decide (u < n ∧ v < n)) as [[Hu Hv]|Hout].
  - rewrite <-Hsz in Hu, Hv. destruct (uf_merge_ok (dsu cc) u v Hok Hu Hv) as (d' & r & -> & Hok' & Hsz' & _).
    rewrite Hsz in *. split; [|done]. by split.
  - assert (uf_size (dsu cc) ≤ u ∨ uf_size (dsu cc) ≤ v) as Ho by lia.
    destruct (uf_merge_range (dsu cc) u v Hok Ho) as [E|E]; destruct (uf_merge u v (dsu cc)) as [d' o]; simpl in E; by subst.
Qed.

Lemma insert_forest_sized u v cc : well_sized cc → u < n → v < n →
  ∃ cc', insert_forest u v cc = (cc', Ok tt) ∧ well_sized cc'.
Proof using .
  intros [Hn Hok Hsz HL Hr] Hu Hv. destruct (lookupN_lt_is_Some (spanning_forest cc) u) as [X HX]; [lia|].
  eexists. split; [by apply insert_forest_eq|]. split; cbn; try done; [by rewrite length_insertN|].
  intros w Y z Hw Hz. destruct (decide (w = u)) as [->|Hne].
  - rewrite lookupN_insert_eq in Hw by lia. injection Hw as <-.
    apply elem_of_union in Hz as [Hz| ->%elem_of_singleton]; [by eapply Hr|done].
  - rewrite lookupN_insert_ne in Hw by done. by eapply Hr.
Qed.

Lemma sample_supernode_sized cc s : well_sized cc →
  match sample_supernode (cc, s) with
  | (cc', _, Ok _) | (cc', _, Throw _) => well_sized cc'
  | _ => True
  end.
Proof using .
  intros Hw. unfold sample_supernode, zoom, mbind, M_bind. cbn [fst snd].
  destruct (sketch_sample s) as [s' [smp|e| |]]; try done. destruct (sample_result smp); try done.
  set (u := src (inv_concat_pairing_fn (sample_index smp))). set (v := dst (inv_concat_pairing_fn (sample_index smp))).
  pose proof (merge_sized u v cc Hw) as Hm. cbn [fst snd].
  destruct (on_dsu (uf_merge u v) cc) as [cc1 [r|e| |]]; try done. destruct Hm as (Hw1 & Hu & Hv). destruct (merged r); [|done].
  unfold lift. destruct (sample_check _) as [[]|e| |]; try done. cbn [fst snd].
  destruct (insert_forest_sized (N.min u v) (N.max u v) cc1 Hw1) as (cc2 & E & Hw2); [lia..|]. by rewrite E.
Qed.

Lemma ofold_keeps {S A} (I : S → Prop) (body : A → S → outcome S) l :
  (∀ x s s', I s → body x s = Ok s' → I s') → ∀ s s', I s → ofold body l s = Ok s' → I s'.
Proof using .
  intros Hb. induction l as [|x l IH]; intros s s' HI E; [by injection E as <-|]. cbn [ofold] in E.
  apply outcome_bind_inv in E as (s1 & E1 & E). eapply IH; [|exact E]. by eapply Hb.
Qed.

Lemma sample_vertex_sized i cc m err cc' m' err' : well_sized cc →
  sample_vertex i (cc, m, err) = Ok (cc', m', err') → well_sized cc'.
Proof using .
  intros Hw E. unfold sample_vertex in E. apply outcome_bind_inv in E as (s & _ & E).
  pose proof (sample_supernode_sized cc s Hw) as Hs. destruct (sample_supernode (cc, s)) as [[cc1 s1] [x|e| |]]; try done;
    injection E as <- _ _; by apply (well_sized_ext cc1).
Qed.

Lemma try_sample_sized s err (r : region) s' err' r' : well_sized (r_cc r) →
  try_sample s err r = Ok (s', err', r') → well_sized (r_cc r').
Proof using .
  intros Hw E. unfold try_sample in E. pose proof (sample_supernode_sized (r_cc r) s Hw) as Hs.
  destruct (sample_supernode (r_cc r, s)) as [[cc1 s1] [x|e| |]]; try done; by injection E as _ _ <-.
Qed.

Lemma region_step_sized round t (r r' : region) : well_sized (r_cc r) → region_step round t r = Ok r' → well_sized (r_cc r').
Proof using .
  intros Hw. unfold region_step. destruct (r_threads r !! t) as [th|]; [|by intros [= <-]].
  destruct (th_todo th) as [|a rest]; [by intros [= <-]|]. destruct a; cbn [act_step]; intros E.
  - apply outcome_bind_inv in E as (skt & _ & E). destruct (range_merge _ _ _ _) as [s []]; try done. by injection E as <-.
  - apply outcome_bind_inv in E as ([[s err] r1] & E1 & [= <-]). by eapply try_sample_sized in E1.
  - apply outcome_bind_inv in E as (s & _ & [= <-]). done.
  - apply outcome_bind_inv in E as (gd & _ & [= <-]). done.
  - apply outcome_bind_inv in E as (gd & _ & E). by apply outcome_bind_inv in E as ([gd' b] & _ & [= <-]).
  - destruct (th_ready th); [|by injection E as <-]. apply outcome_bind_inv in E as (gd & _ & E).
    apply outcome_bind_inv in E as ([[s err] r1] & E1 & [= <-]). by eapply try_sample_sized in E1.
  - by destruct (th_err th); injection E as <-.
Qed.

Lemma round_sized round T order sched mi globals cc cc' m gs : well_sized cc →
  perform_boruvka_round round T order sched mi globals cc = (cc', Ok (m, gs)) → well_sized cc'.
Proof using .
  intros Hw. unfold perform_boruvka_round. destruct (round =? 0); intros E.
  - apply M_bind_inv in E as (b & cc1 & E1 & [= <- _ _]). unfold run_round_zero in E1.
    destruct (ofold sample_vertex order (cc, false, None)) as [[[cc2 m2] err2]|e| |] eqn:E2; try done.
    assert (well_sized cc2); [|by destruct err2; [|injection E1 as <- _]].
    apply (ofold_keeps (λ st, well_sized st.1.1) sample_vertex order) in E2; [done| |done].
    intros i [[a1 a2] a3] [[b1 b2] b3] Ha Hb. cbn in *. by eapply sample_vertex_sized.
  - match type of E with context [match ?a with Ok _ => _ | _ => _ end] => destruct a as [r|e| |] eqn:Er; try done end.
    apply outcome_bind_inv in Er as (gs1 & _ & Er). apply outcome_bind_inv in Er as (progs & _ & Er).
    apply outcome_bind_inv in Er as (local & _ & Er).
    apply (ofold_keeps (λ r, well_sized (r_cc r))) in Er; [|intros t r1 r2; apply region_step_sized|done].
    unfold finish_region in E. cbn [mret outcome_ret] in E. by destruct (r_err r); [|injection E as <- _ _].
Qed.

Lemma loop_sized fuel T s `{PT : !Partitioned n T} : ∀ round mi globals cc cc' r, well_sized cc →
  instr_child <$> mi ≡ₚ seqN 0 n → boruvka_loop fuel T s round mi globals cc = (cc', Ok r) → well_sized cc'.
Proof using .
  induction fuel as [|fuel IH]; intros round mi globals cc cc' r Hw Hmi E; [done|]. cbn [boruvka_loop] in E.
  rewrite M_bind_gets in E. apply M_bind_inv in E as ([m gs] & cc1 & E1 & E).
  pose proof (round_sized _ _ _ _ _ _ _ _ _ _ Hw E1) as Hw1. destruct m; cbn [negb] in E; [|by injection E as <-].
  apply M_bind_inv in E as (mi' & cc2 & E2 & E). rewrite (ws_n _ Hw) in E2.
  assert (length mi = N.to_nat n) as HL by (by rewrite <-(length_fmap instr_child), (Permutation_length Hmi), length_seqN).
  destruct (create_merge_instructions_ok n T (capture_order s round) mi (dsu cc1) (ws_ok _ Hw1) (ws_size _ Hw1) HL Hmi)
    as (d' & mi2 & Ec & Hs & Hi).
  rewrite (on_dsu_run _ _ _ _ Ec) in E2. injection E2 as <- <-.
  eapply IH; [by apply (well_sized_same cc1)|apply Hi|exact E].
Qed.

Lemma start_sized T cc cc' mi gs : object_sized cc → boruvka_start T cc = (cc', Ok (mi, gs)) →
  well_sized cc' ∧ instr_child <$> mi ≡ₚ seqN 0 n.
Proof using .
  intros [Hn Hok Hsz HL Hr] E. unfold boruvka_start in E. rewrite M_bind_modify, !M_bind_gets in E.
  apply M_bind_inv in E as (globals & cc1 & E1 & E). injection E1 as <- _. rewrite M_bind_gets, M_bind_modify, M_bind_gets in E.
  cbn [num_vertices spanning_forest set_dsu set_update_locked dsu] in E. rewrite Hn in E.
  rewrite (M_bind_lift _ _ _ _ (clear_loop_ok n (spanning_forest cc) HL)), M_bind_modify in E. injection E as <- <- _.
  destruct (uf_reset_ok _ Hok) as (Rok & Rsz & _). split.
  - split; cbn; [done|done|congruence|by rewrite length_replicate|].
    intros u X v HX Hv. rewrite lookupN_eq in HX. apply lookup_replicate in HX as [-> _]. set_solver.
  - rewrite <-list_fmap_compose. by rewrite list_fmap_id.
Qed.

Lemma reset_samples_sized cc cc' : well_sized cc → reset_samples cc = (cc', Ok tt) → well_sized cc'.
Proof using .
  intros Hw. unfold reset_samples. rewrite M_bind_gets. generalize (seqN 0 (num_vertices cc)) as l. intros l. revert cc Hw.
  induction l as [|i l IH]; intros cc Hw E; [by injection E as <-|].
  cbn [for_each] in E. apply M_bind_inv in E as ([] & cc1 & E1%on_sketch_frame & E). eapply IH; [|exact E].
  rewrite E1. by apply (well_sized_ext cc).
Qed.

Lemma compute_answer_sized T s `{PT : !Partitioned n T} cc cc' : object_sized cc →
  compute_answer T s cc = (cc', Ok tt) → well_sized cc'.
Proof using .
  intros Hw E. unfold compute_answer in E. apply M_bind_inv in E as (err & cc1 & E1 & E).
  apply M_bind_inv in E as ([] & cc2 & E2 & E). destruct err as [e|]; [done|]. injection E as <-.
  apply (reset_samples_sized cc1); [|done]. unfold catch in E1.
  destruct (boruvka_emulation T s cc) as [cc3 [[]|e| |]] eqn:E3; try done. injection E1 as ->.
  unfold boruvka_emulation in E3. rewrite M_bind_gets in E3. apply M_bind_inv in E3 as ([mi gs] & cc4 & E4 & E3).
  destruct (start_sized _ _ _ _ _ Hw E4) as [Hw4 Hmi]. apply M_bind_inv in E3 as (r & cc5 & E5 & E3).
  pose proof (loop_sized _ _ _ _ _ _ _ _ _ Hw4 Hmi E5) as Hw5. rewrite !M_bind_modify in E3. injection E3 as <-.
  by apply (well_sized_ext cc5).
Qed.
End Sized.

(** * What the final checks let through *)

Section Sound.
Context `{P : Platform} {D V : Type} `{UFL : UnionFindLaws D} `{UFV : UnionFindLaws V}.
Implicit Type s : CheckedAlg D V.
Context (T n : N) (PT : Partitioned n T) (Hn : n < 2 ^ 32) (G : gset N) (HG : graph n G).

Lemma verify_edge_pure e (gv : GraphVerifier V) : (verify_edge e gv).1 = gv.
Proof using .
  unfold verify_edge. destruct (swapped _ _) as [a b]. rewrite M_bind_gets. unfold lift, mbind, M_bind.
  by destruct (entry _ _ _) as [[]|e'| |].
Qed.

Lemma for_each_pure {S A} (body : A → M S unit) l t t' : (∀ x t t', body x t = (t', Ok tt) → t' = t) →
  for_each l body t = (t', Ok tt) → t' = t ∧ ∀ x, x ∈ l → body x t = (t, Ok tt).
Proof using .
  intros Hb. revert t. induction l as [|x l IH]; intros t E; [by injection E as <-; split; [|intros x Hx%elem_of_nil]|].
  cbn [for_each] in E. apply M_bind_inv in E as ([] & t1 & E1 & E). pose proof (Hb _ _ _ E1) as ->.
  destruct (IH t E) as [-> Hl]. split; [done|]. intros y [->|Hy]%elem_of_cons; auto.
Qed.

(** Looking the cached forest up changes nothing, and finds it in range. *)
Lemma on_verify_edge_pure e s s' o : on_gv (verify_edge e) s = (s', o) → s' = s.
Proof using .
  unfold on_gv. destruct s as [cc [gv|]]; cbn [cc_verifier base]; [|by intros [= <- _]].
  pose proof (verify_edge_pure e gv) as Hp. destruct (verify_edge e gv) as [gv' o']. cbn in Hp. subst gv'. by intros [= <- _].
Qed.

Lemma verify_edge_range u v (gv : GraphVerifier V) : holds n G gv → u < n → is_node_id v →
  (verify_edge (mkEdge u v) gv).2 = Ok tt → v < n.
Proof using Hn.
  intros Hgv Hu Hv E. destruct (N.lt_ge_cases v n) as [|Hge]; [done|]. exfalso. unfold is_node_id, num_bits in Hv.
  unfold verify_edge in E. rewrite swapped_min_max, M_bind_gets in E. cbn [src dst] in E.
  rewrite N.min_l, N.max_r, usub_small in E by lia.
  destruct (ho_matrix _ _ _ Hgv) as [HL Hm]. unfold entry in E.
  destruct (Hm u Hu) as (row & Hrow & HLr & _). rewrite Hrow in E. cbn [of_option mbind outcome_bind] in E.
  rewrite lookupN_ge_None in E by lia. done.
Qed.

Lemma verify_cached_inv s s' : object_sized n (base s) → (∃ gv, cc_verifier s = Some gv ∧ holds n G gv) →
  verify_cached s = (s', Ok tt) → s' = s ∧ well_sized n (base s).
Proof using Hn.
  intros [Hnum Hok Hsz HL Hids] (gv & Ev & Hgv) E. unfold verify_cached in E. rewrite !M_bind_gets, Hnum in E.
  apply for_each_pure in E as [-> Hall].
  - split; [done|]. split; try done. intros u X v HX Hv. assert (u < n) as Hu by (apply lookupN_lt_Some in HX; lia).
    specialize (Hall u). rewrite HX in Hall. cbn [of_option] in Hall. rewrite (M_bind_lift _ _ _ _ eq_refl) in Hall.
    apply for_each_pure in Hall as [_ Hin]; [|by intros w t t' ?%on_verify_edge_pure|apply elem_of_seqN; lia].
    specialize (Hin v ltac:(by apply elem_of_elements)). unfold on_gv in Hin. rewrite Ev in Hin.
    apply (verify_edge_range u v gv); [done|done|by eapply Hids|]. by destruct (verify_edge _ gv) as [gv' o]; injection Hin as _ ->.
  - intros u t t' Ht. apply M_bind_inv in Ht as (X & t1 & E1 & Ht). injection E1 as -> _.
    apply for_each_pure in Ht as [-> _]; [done|]. by intros w t2 t3 ?%on_verify_edge_pure.
Qed.

(** A well-sized object whose verifier holds the graph. *)
Definition checked_sized s : Prop := well_sized n (base s) ∧ ∃ gv, cc_verifier s = Some gv ∧ holds n G gv.

Lemma ensure_answer_sized sch cached s s' : object_sized n (base s) → (∃ gv, cc_verifier s = Some gv ∧ holds n G gv) →
  ensure_answer T sch cached s = (s', Ok tt) → checked_sized s'.
Proof using PT Hn.
  intros Hw Hv E. unfold ensure_answer in E. destruct cached.
  - by destruct (verify_cached_inv s s' Hw Hv E) as [-> ?].
  - unfold on_base in E. destruct (compute_answer _ _ (base s)) as [cc' o] eqn:Ec. injection E as <- ->.
    split; [cbn [base]; apply (compute_answer_sized (SC := check_of (cc_verifier s)) n T sch (base s) cc' Hw Ec)|exact Hv].
Qed.

Lemma verified_components_inv order s s' ans : checked_sized s → order ≡ₚ seqN 0 n →
  verified_components order s = (s', Ok ans) →
  checked_sized s' ∧ answers_components n G ans ∧
  ∀ x y, x < n → y < n → uf_root (dsu (base s')) x = uf_root (dsu (base s')) y ↔ graph_connected G x y.
Proof using Hn HG.
  intros [Hw (gv & Ev & Hgv)] Hord E. destruct s as [cc v]. cbn [base cc_verifier] in *. subst v. pose proof Hw as [Hnum Hok Hsz _ _].
  destruct (ConnectedComponents_new_ok (dsu cc) n order Hok Hsz Hn Hord) as (d & ans' & Ea & Hs & Hans).
  destruct (verify_connected_components_ok n G (uf_root (dsu cc)) ans' gv Hn HG Hgv (lists_roots_by n (dsu cc) ans' Hok Hsz Hans))
    as (gv' & o & Evf & Hgv' & _ & Ho).
  unfold verified_components in E. rewrite M_bind_gets in E. cbn [base] in E. rewrite Hnum in E.
  rewrite (M_bind_Ok _ _ _ _ _ (on_base_run (λ _, on_dsu _) cc (Some gv) _ _ (on_dsu_run _ _ _ _ Ea))) in E.
  unfold mbind, M_bind in E. rewrite (on_gv_run _ _ _ _ _ Evf) in E.
  destruct Ho as [[-> Hright]|(msg & -> & _)]; [|done]. injection E as <- <-.
  split; [split; [by apply well_sized_same|by exists gv']|]. split; [by apply (lists_roots_answer (dsu cc))|].
  cbn [base dsu set_dsu]. destruct Hs as (_ & _ & Hr). rewrite Hsz in Hr. intros x y Hx Hy. rewrite !Hr by done. by apply Hright.
Qed.

Lemma checked_components_inv sch order s s' ans : object_sized n (base s) →
  (∃ gv, cc_verifier s = Some gv ∧ holds n G gv) → order ≡ₚ seqN 0 n →
  checked_connected_components T sch order s = (s', Ok ans) → checked_sized s' ∧ answers_components n G ans.
Proof using Hn HG PT.
  intros Hs Hv Hord E. unfold checked_connected_components in E. rewrite M_bind_gets in E.
  apply M_bind_inv in E as ([] & s1 & E1 & E). pose proof (ensure_answer_sized _ _ _ _ Hs Hv E1) as Hs1.
  by destruct (verified_components_inv _ _ _ _ Hs1 Hord E) as (? & ? & _).
Qed.

(** C13. Whatever the hash does, checked answers are right. In a build with
    [VERIFY_SAMPLES_F], when the verifier holds a graph, every answer a query
    returns is the answer for that graph: for any contents of the sketches, any
    hash function, any schedules, whether the answer was cached or computed. Of the object
    it is only asked that its arrays have the sizes of the constructor. *)
Theorem checked_answers_sound sch order prio s gv (Hsized : object_sized n (base s))
    (Hverifier : cc_verifier s = Some gv) (Hgv : holds n G gv) (Hord : order ≡ₚ seqN 0 n) :
  (∀ s' ans, checked_connected_components T sch order s = (s', Ok ans) → answers_components n G ans) ∧
  (∀ s' F, checked_spanning_forest T sch order prio s = (s', Ok F) → answers_forest G F) ∧
  (∀ s' x y r, x < n → y < n → checked_point_query T sch order x y s = (s', Ok r) →
     r = true ↔ graph_connected G x y).
Proof using Hn HG PT.
  assert (∃ gv, cc_verifier s = Some gv ∧ holds n G gv) as Hv by (by exists gv). clear gv Hverifier Hgv.
  split; [|split].
  - intros s' ans E. by apply (checked_components_inv sch order s s').
  - intros s' F E. unfold checked_spanning_forest in E. apply M_bind_inv in E as (ans & s1 & E1 & E).
    destruct (checked_components_inv _ _ _ _ _ Hsized Hv Hord E1) as [[[Hnum _ _ HL Hr] (gv & Ev & Hgv)] _].
    rewrite !M_bind_gets, Hnum in E. destruct (SpanningForest_new_ok n _ HL) as (F' & EF & Eedges).
    rewrite (M_bind_lift _ _ _ _ EF) in E. apply M_bind_inv in E as ([] & s2 & E2 & [= _ ->]).
    assert (forest_in_range n F) as HF.
    { unfold forest_in_range. rewrite Eedges. apply Forall_forall. intros [u v] (X & HX & HvX)%elem_of_forest_pairs.
      cbn [fst snd]. split; [|by eapply Hr]. apply lookupN_lt_Some in HX. lia. }
    destruct (verify_spanning_forests_ok n G [(prio, F)] gv Hn HG Hgv) as (gv' & o & Evf & _ & _ & Ho); [by repeat constructor|].
    destruct s1 as [cc v]. cbn in Ev. subst v. rewrite (on_gv_run _ _ _ _ _ Evf) in E2.
    destruct Ho as [[-> [Ha _]]|[[e ->] _]]; done.
  - intros s' x y r Hx Hy E. unfold checked_point_query in E. rewrite M_bind_gets in E.
    apply M_bind_inv in E as ([] & s1 & E1 & E). pose proof (ensure_answer_sized _ _ _ _ Hsized Hv E1) as Hs1.
    apply M_bind_inv in E as (ans & s2 & E2 & E).
    destruct (verified_components_inv _ _ _ _ Hs1 Hord E2) as (Hs2 & _ & Hc). destruct Hs2 as [[_ Hok Hsz _ _] _].
    destruct s2 as [cc v]. cbn [base] in *. rewrite <-Hsz in Hx, Hy.
    destruct (uf_find_ok (dsu cc) x Hok Hx) as (d1 & F1 & Ho1 & Hs1' & Hr1).
    destruct (uf_find_ok d1 y Ho1) as (d2 & F2 & _); [by rewrite Hs1'|].
    rewrite (M_bind_Ok _ _ _ _ _ (on_base_run (λ _, on_dsu _) cc _ _ _ (on_dsu_run _ cc _ _ F1))) in E.
    rewrite (M_bind_Ok _ _ _ _ _ (on_base_run (λ _, on_dsu _) (set_dsu d1 cc) _ _ _ (on_dsu_run _ (set_dsu d1 cc) _ _ F2))) in E.
    injection E as _ <-. rewrite N.eqb_eq, Hr1 by done. apply Hc; congruence.
Qed.
End Sound.

Section Demo.
#[local] Existing Instance demo_platform.

(** ** A session *)

Definition demo_edges : list (N * N) := [(0, 1); (2, 1); (0, 2); (3, 4); (0, 1)].
Definition final_edges : list (N * N) := [(2, 1); (0, 2)].
Definition demo_prios (i : N) : N := i * 3 mod 7.

Definition OpUpdate (p : N * N) : checked_op (V := DSU) unit := OpCall (CallUpdate (demo_update p.1 p.2)) [] id.
Definition OpQuery (c : call unit) : checked_op (V := DSU) unit := OpCall c demo_order demo_prios.

(** A computed answer, a cached one, and after a deletion a computed one again. *)
Definition checked_demo : list (checked_op (V := DSU) unit) :=
  (OpUpdate <$> demo_edges) ++
  [ OpVerifier (demo_verifier 6 demo_edges); OpQuery (CallConnected demo_schedules demo_order);
    OpQuery (CallForest demo_schedules demo_order); OpUpdate (4, 3); OpVerifier (demo_verifier 6 final_edges);
    OpQuery (CallPoint demo_schedules 3 4) ].

Lemma demo_edges_holds : holds 6 demo_graph (demo_verifier 6 demo_edges).
Proof. exact (demo_verifier_holds 6 demo_edges ltac:(discriminate) ltac:(repeat constructor; discriminate)). Qed.

Lemma final_edges_holds : holds 6 (toggles (edge_ids ((λ p, mkEdge p.1 p.2) <$> final_edges))) (demo_verifier 6 final_edges).
Proof. exact (demo_verifier_holds 6 final_edges ltac:(discriminate) ltac:(repeat constructor; discriminate)). Qed.

Lemma demo_query_reliable T s G (cc : CCSketchAlg DSU_MT) : G ⊆ list_to_set demo_ids → query_reliable T s demo_base G cc.
Proof.
  intros HG. apply query_reliable_collision_free, (collision_free_subseteq _ (list_to_set demo_ids)); [done|].
  exact demo_collision_free.
Qed.

Lemma checked_demo_valid : Forall (valid_call 6 2) (calls checked_demo).
Proof.
  change (calls checked_demo) with (((λ p, CallUpdate (demo_update p.1 p.2)) <$> demo_edges) ++ [CallConnected demo_schedules demo_order;
    CallForest demo_schedules demo_order; CallUpdate (demo_update 4 3); CallPoint demo_schedules 3 4]).
  apply Forall_app. split; [repeat constructor; vm_compute; discriminate|].
  apply Forall_cons_2; [by split; apply demo_order_perm|]. apply Forall_cons_2; [by split; apply demo_order_perm|].
  apply Forall_cons_2; [|apply Forall_cons_2; [|by apply Forall_nil]].
  - repeat constructor; vm_compute; discriminate.
  - split; [exact demo_order_perm|split; reflexivity].
Qed.

Lemma demo_update_reliable p ops G Gv (s : CheckedAlg DSU_MT DSU) :
  (∀ s' : CheckedAlg DSU_MT DSU, checked_reliable 2 6 demo_base ops (G △ toggles (stream_ids [demo_update p.1 p.2])) Gv s') →
  checked_reliable 2 6 demo_base (OpUpdate p :: ops) G Gv s.
Proof. intros H. split; [by intros [=]|]. split; [by intros ? [=]|]. apply H. Qed.

Lemma demo_query_step_reliable c ops G (s : CheckedAlg DSU_MT DSU) : is_query c = true → G ⊆ list_to_set demo_ids →
  (∀ s' : CheckedAlg DSU_MT DSU, checked_reliable 2 6 demo_base ops G (Some G) s') →
  checked_reliable 2 6 demo_base (OpQuery c :: ops) G (Some G) s.
Proof.
  intros Hc HG H. split; [intros _; split; [done|exact demo_order_perm]|]. split; [by intros; apply demo_query_reliable|].
  destruct c; try discriminate Hc; apply H.
Qed.

Lemma checked_demo_reliable (s : CheckedAlg DSU_MT DSU) : checked_reliable 2 6 demo_base checked_demo ∅ None s.
Proof.
  unfold checked_demo, demo_edges. cbn [fmap list_fmap app]. do 5 (apply demo_update_reliable; intros ?).
  match goal with |- context [checked_reliable _ _ _ _ ?G] => replace G with demo_graph by (apply (bool_decide_unpack _); vm_compute; exact I) end.
  exists demo_graph. split; [exact demo_edges_holds|].
  do 2 (apply demo_query_step_reliable; [reflexivity|apply (bool_decide_unpack _); vm_compute; exact I|intros ?]).
  apply demo_update_reliable. intros ?.
  match goal with |- context [checked_reliable _ _ _ _ ?G] => replace G with (toggles (edge_ids ((λ p, mkEdge p.1 p.2) <$> final_edges)))
    by (apply (bool_decide_unpack _); vm_compute; exact I) end.
  exists (toggles (edge_ids ((λ p, mkEdge p.1 p.2) <$> final_edges))). split; [exact final_edges_holds|].
  by apply demo_query_step_reliable; [reflexivity|apply (bool_decide_unpack _); vm_compute; exact I|intros ?].
Qed.

(** The vertices 3 and 4 are no longer connected. *)
Definition checked_replies (o : outcome (list reply)) : bool :=
  match o with Ok [RDone; RDone; RDone; RDone; RDone; RComponents _; RForest _; RDone; RConnected b] => negb b | _ => false end.

Lemma checked_session_refines_witness : ∃ cc0 cc1 : CCSketchAlg DSU_MT, ∃ (s : CheckedAlg DSU_MT DSU) replies σ,
  CCSketchAlg_new 6 7 CCAlgConfiguration_default (λ i, i * 5 mod 7) = Ok cc0 ∧
  allocate_worker_memory 2 cc0 = (cc1, Ok tt) ∧
  checked_session 2 checked_demo (mkChecked cc1 None) = (s, Ok replies) ∧
  checked_replies (Ok replies) = true ∧ spec_run 6 (mkG ∅ true false) (calls checked_demo) replies σ.
Proof.
  destruct (checked_session_refines (D := DSU_MT) 6 7 CCAlgConfiguration_default (λ i, i * 5 mod 7) demo_base 2 2 checked_demo
    (exact_partitioned 6 2 (EP := exact_partition_pow2 6 1 ltac:(lia) ltac:(lia) ltac:(lia)))
    demo_params checked_demo_valid) as (cc0 & cc1 & E0 & E1 & Hrun).
  destruct Hrun as (s & o & E & Ho); [apply checked_demo_reliable|].
  assert (match CCSketchAlg_new 6 7 CCAlgConfiguration_default (λ i, i * 5 mod 7) with
          | Ok cc0 => match allocate_worker_memory 2 (cc0 : CCSketchAlg DSU_MT) with
                      | (cc1, Ok _) => checked_replies (checked_session 2 checked_demo (mkChecked cc1 None)).2
                      | _ => false
                      end
          | _ => false
          end = true) as Hr by (vm_compute; reflexivity).
  rewrite E0, E1, E in Hr. cbn [snd] in Hr. destruct o as [replies|e| |]; try discriminate Hr.
  destruct Ho as (σ & Hspec & _). exists cc0, cc1, s, replies, σ. split_and!; assumption.
Defined.

(** ** An answer *)

Lemma demo_object_sized : object_sized 6 demo_cc.
Proof.
  destruct demo_inv as [HI En]. destruct (ci_cache _ _ _ HI) as (Hok & Hsz & HL & _). rewrite En in Hsz, HL.
  split; [exact En|exact Hok|exact Hsz|exact HL|].
  intros u X v HX Hv. assert (Forall (λ X : gset N, set_Forall (λ v, v < 2 ^ num_bits) X) (spanning_forest demo_cc)) as Hall
    by (apply (bool_decide_unpack _); vm_compute; exact I).
  rewrite lookupN_eq in HX. exact (proj1 (Forall_lookup _ _) Hall _ X HX v Hv).
Qed.

Lemma demo_graph_ok : graph 6 demo_graph.
Proof. destruct demo_inv as [HI En]. rewrite <-En. exact (ci_graph _ _ _ HI). Qed.

Lemma checked_answers_sound_witness : ∃ (s' : CheckedAlg DSU_MT DSU) ans,
  checked_connected_components 2 demo_schedules demo_order (mkChecked demo_cc (Some (demo_verifier 6 demo_edges))) = (s', Ok ans) ∧
  answers_components 6 demo_graph ans.
Proof.
  destruct (checked_answers_sound (D := DSU_MT) (V := DSU) 2 6
    (exact_partitioned 6 2 (EP := exact_partition_pow2 6 1 ltac:(lia) ltac:(lia) ltac:(lia))) ltac:(reflexivity) demo_graph demo_graph_ok
    demo_schedules demo_order demo_prios (mkChecked demo_cc (Some (demo_verifier 6 demo_edges))) (demo_verifier 6 demo_edges)
    demo_object_sized eq_refl demo_edges_holds demo_order_perm) as [Hc _].
  assert (match (checked_connected_components 2 demo_schedules demo_order (mkChecked demo_cc (Some (demo_verifier 6 demo_edges)))).2 with
          | Ok _ => true | _ => false end = true) as A by (vm_compute; reflexivity).
  destruct (checked_connected_components _ _ _ _) as [s' [ans|e| |]]; try discriminate A.
  exists s', ans. split; [reflexivity|]. exact (Hc s' ans eq_refl).
Defined.
End Demo.
