(* ===== verification/SketchTesting.v ===== *)
(** The experiment on the sampling rate (src/tools/sketch_testing.cpp).

    For every number of indices the tool counts in how many of its 500 trials a
    one-column sketch of them can be sampled. A trial keeps a single sketch and
    samples it after every update, which counts what building a sketch anew for
    every number of indices would ([column_loop]). The counters are those of a new
    array that nobody initialises; a cell without a value is undefined to read.
    [testing_report]: so the tool has no defined result; with counters that start
    at zero the report is the table of the rates and of the least lower confidence
    bound. Printing is the value returned. *)
From Stdlib Require Import Floats.SpecFloat.
From S2P Require Import Prelude Float64 Platform XorSet Bucket Sketch SketchOps.

Open Scope N_scope.

(** * Definitions *)

Inductive ResultType : Type := R_GOOD | R_BAD | R_HASHFAIL.

Definition dsub : double → double → double := SFsub prec64 emax64.

Definition fit_to_binomial (ngood ntrials : N) : double * double :=
  let p := ddiv (double_of_N ngood) (dmul (double_of_N 1) (double_of_N ntrials)) in
  let variance := dmul (dmul (double_of_N ntrials) p) (dsub (double_of_N 1) p) in
  let stddev := dsqrt variance in
  (p, ddiv stddev (double_of_N ntrials)).

(** [ans - 3 * stddev] *)
Definition lower_bound (pair : double * double) : double := dsub pair.1 (dmul (double_of_N 3) pair.2).

Section Tool.
Context `{P : Platform}.

(** The state is the global [seed]. *)
Definition gen_seed : M N N := λ seed, (u64 (seed + 1), Ok seed).

(** [rand_type] arguments become [vec_t] ones. *)
Definition to_vec (i : N) : N := wrap vec_bits i.

Definition test_z (n z : N) : M N ResultType :=
  _ ← cassert NDEBUG (1 <=? z);
  _ ← cassert NDEBUG (z <=? u64 (n * n));
  sd ← gen_seed;
  lift (sketch ← Sketch_new (to_vec n) sd 1 1;
        sketch ← ofold (λ i s, sketch_update s (to_vec i)) (seqN 0 z) sketch;
        query_ret ← (sketch_sample sketch).2;
        let ret_code := sample_result query_ret in
        _ ← oassert NDEBUG (negb (bool_decide (ret_code = ZERO)));
        mret (if bool_decide (ret_code = GOOD) then R_GOOD else R_BAD)).

(** [results[r]++] *)
Definition count_result (results : N * N * N) (r : ResultType) : N * N * N :=
  let '(a, b, c) := results in
  match r with R_GOOD => (a + 1, b, c) | R_BAD => (a, b + 1, c) | R_HASHFAIL => (a, b, c + 1) end.

Fixpoint trials (k : nat) (n z : N) (results : N * N * N) : M N (N * N * N) :=
  match k with
  | O => mret results
  | S k => r ← test_z n z; trials k n z (count_result results r)
  end.

Definition test_nz_pair (n z : N) : M N (double * double) :=
  results ← trials 500 n z (0, 0, 0);
  mret (fit_to_binomial results.1.1 500).

(** Reading a cell of an array; [None]: it has no value yet. *)
Definition read_cell (good : list (option N)) (i : N) : outcome N :=
  cell ← of_option (good !! i); of_option cell.

(** Body of the loop of [test_n_one]. *)
Definition test_column_step (i : N) (st : Sketch * list (option N)) : outcome (Sketch * list (option N)) :=
  let '(sketch, good) := st in
  sketch ← sketch_update sketch (to_vec i);
  let '(sketch, query_ret) := sketch_sample sketch in
  query_ret ← query_ret;
  good ← (if bool_decide (sample_result query_ret = GOOD)
          then g ← read_cell good i; mret (<[i := Some (u64 (g + 1))]> good) else mret good);
  mret (reset_sample_state sketch, good).

Definition test_n_one (n : N) (good : list (option N)) (max_z : N) : M N (list (option N)) :=
  sd ← gen_seed;
  lift (sketch ← Sketch_new (to_vec (u64 (n * n))) sd 1 1;
        '(_, good) ← ofold test_column_step (seqN 0 max_z) (sketch, good);
        mret good).

Fixpoint test_n_trials (k : nat) (n : N) (good : list (option N)) (max_z : N) : M N (list (option N)) :=
  match k with
  | O => mret good
  | S k => good ← test_n_one n good max_z; test_n_trials k n good max_z
  end.

(** The worst value so far, its index, and the lines printed. *)
Definition report_step (good : list (option N)) (ntrials : N) (i : N)
    (st : double * N * list (N * (double * double))) : outcome (double * N * list (N * (double * double))) :=
  let '(worst_3sigma, worst_i, out) := st in
  g ← read_cell good i;
  let pair := fit_to_binomial g ntrials in
  let out := out ++ [(i, pair)] in
  mret (if SFltb (lower_bound pair) worst_3sigma then (lower_bound pair, i, out) else (worst_3sigma, worst_i, out)).

Definition report (good : list (option N)) (ntrials max_z : N) : outcome (list (N * (double * double)) * (N * (double * double))) :=
  '(_, worst_i, out) ← ofold (report_step good ntrials) (seqN 0 max_z) (double_of_N 1, 0, []);
  g ← read_cell good worst_i;
  mret (out, (worst_i, fit_to_binomial g ntrials)).

Definition test_n_max (n : N) : N := u64 (1 + u64 (n * n) / 4).

(** [test_n] once the array [good] is there. *)
Definition test_n_on (good : list (option N)) (n : N) : M N (list (N * (double * double)) * (N * (double * double))) :=
  let max_z := test_n_max n in
  good ← test_n_trials 500 n good max_z;
  lift (report good 500 max_z).

(** [new rand_type[max_z]] initialises nothing. *)
Definition test_n (n : N) : M N (list (N * (double * double)) * (N * (double * double))) :=
  test_n_on (replicate (N.to_nat (test_n_max n)) None) n.

(** [main] of the tool. *)
Definition testing_main : M N (list (N * (double * double)) * (N * (double * double))) := test_n (2 ^ 13).
End Tool.

(** * The order of [double] *)

Definition is_number (d : double) : bool := match d with S754_nan => false | _ => true end.

(** Sign, exponent and mantissa in the order of the values. *)
Definition sort_key (d : double) : Z * Z * Z :=
  match d with
  | S754_zero _ | S754_nan => (0, 0, 0)
  | S754_infinity s => (if s then -2 else 2, 0, 0)
  | S754_finite s m e => if s then (-1, - e, - Z.pos m) else (1, e, Z.pos m)
  end%Z.

Definition key_lt (a b : Z * Z * Z) : Prop :=
  (a.1.1 < b.1.1 ∨ (a.1.1 = b.1.1 ∧ (a.1.2 < b.1.2 ∨ (a.1.2 = b.1.2 ∧ a.2 < b.2))))%Z.

Lemma SFltb_key x y : is_number x = true → is_number y = true → SFltb x y = true ↔ key_lt (sort_key x) (sort_key y).
Proof.
  unfold SFltb, SFcompare, key_lt.
  destruct x as [sx|sx| |sx mx ex], y as [sy|sy| |sy my ey]; intros Hx Hy; try discriminate;
    try destruct sx; try destruct sy; cbn [sort_key fst snd];
    try (split; [discriminate|lia]); try (split; [lia|done]);
    destruct (Z.compare_spec ex ey); try (split; [discriminate|lia]); try (split; [lia|done]);
    change (Pos.compare_cont Eq mx my) with (mx ?= my)%positive;
    destruct (Pos.compare_spec mx my); cbn [CompOpp]; (split; [discriminate|lia]) || (split; [lia|done]).
Qed.

(** * A trial *)

Section Column.
Context `{P : Platform}.

(** Sampling a sketch built for the indices below [k] alone. *)
Definition fresh_sample (len sd k : N) : outcome SketchSample :=
  s ← Sketch_new len sd 1 1;
  s ← sketch_stream (to_vec <$> seqN 0 k) s;
  (sketch_sample s).2.

Definition found (len sd k : N) : bool :=
  match fresh_sample len sd k with Ok r => bool_decide (sample_result r = GOOD) | _ => false end.

(** How many of [k] trials find an index among the first [i + 1]. *)
Fixpoint successes (len sd : N) (k : nat) (i : N) : N :=
  match k with
  | O => 0
  | S k => (if found len sd (i + 1) then 1 else 0) + successes len (u64 (sd + 1)) k i
  end.

Lemma successes_le len k i : ∀ sd, successes len sd k i ≤ N.of_nat k.
Proof using . induction k as [|k IH]; intros sd; cbn [successes]; [done|]. specialize (IH (u64 (sd + 1))). destruct (found _ _ _); lia. Qed.

Context `{!PlatformLaws P} (len b : N) (Hb : calc_bkt_per_col len = Ok b) (Hbkt : 1 ≤ b < 64).

Lemma column_new sd : sd < 2 ^ 64 → ∃ s0, Sketch_new len sd 1 1 = Ok s0 ∧ wf_sketch s0 ∧ represents s0 ∅ ∧
  sample_idx s0 = 0 ∧ num_samples s0 = 1 ∧ cols_per_sample s0 = 1 ∧ sk_seed s0 = sd.
Proof using Hb Hbkt.
  intros Hsd. destruct (Sketch_new len sd 1 1) as [s0|e| |] eqn:E;
    try (unfold Sketch_new, sketch_layout in E; rewrite Hb in E; discriminate).
  exists s0. split; [done|]. destruct (Sketch_new_ok _ _ _ _ _ E Hsd) as (W & R & I & H1 & H2 & H3); [done| |by split_and!].
  unfold Sketch_new, sketch_layout in E. rewrite Hb in E. injection E as <-. exact Hbkt.
Qed.

(** The sketch of the first [k] indices, and its sample. *)
Lemma column_sketch sd k : sd < 2 ^ 64 → ∃ s0 s r, Sketch_new len sd 1 1 = Ok s0 ∧ sketch_stream (to_vec <$> seqN 0 k) s0 = Ok s ∧
  wf_sketch s ∧ represents s (toggles (to_vec <$> seqN 0 k)) ∧ sample_idx s = 0 ∧ num_samples s = 1 ∧ cols_per_sample s = 1 ∧
  sketch_sample s = (set_sample_idx 1 s, Ok r) ∧ fresh_sample len sd k = Ok r.
Proof using Hb Hbkt PlatformLaws0.
  intros Hsd. destruct (column_new sd Hsd) as (s0 & E0 & W0 & R0 & I0 & N0 & C0 & _).
  destruct (sketch_stream_ok (to_vec <$> seqN 0 k) s0 ∅ W0 R0) as (s & E & W & (L1 & L2 & L3 & _) & I & R).
  rewrite (left_id ∅ symdiff) in R. destruct (sample_returns s W) as (r & Er); [rewrite I, I0, <-L2, N0; lia|rewrite <-L3, C0; lia|].
  rewrite I, I0 in Er. exists s0, s, r. split_and!; try done; try congruence. unfold fresh_sample. rewrite E0. cbn [mbind outcome_bind].
  rewrite E. cbn [mbind outcome_bind]. by rewrite Er.
Qed.

Lemma reset_set_sample_idx s i : sample_idx s = 0 → reset_sample_state (set_sample_idx i s) = s.
Proof using . destruct s. simpl. by intros ->. Qed.

(** An iteration of the loop, from the sketch of the indices before [k]. *)
Lemma column_step sd s0 s good k : sd < 2 ^ 64 → Sketch_new len sd 1 1 = Ok s0 → sketch_stream (to_vec <$> seqN 0 k) s0 = Ok s →
  ∃ s1, sketch_stream (to_vec <$> seqN 0 (k + 1)) s0 = Ok s1 ∧
    test_column_step k (s, good) =
      good' ← (if found len sd (k + 1) then g ← read_cell good k; mret (<[k := Some (u64 (g + 1))]> good) else mret good);
      mret (s1, good').
Proof using Hb Hbkt PlatformLaws0.
  intros Hsd E0 Es. destruct (column_sketch sd (k + 1) Hsd) as (s0' & s1 & r & E0' & Es1 & W & R & I & _ & _ & Er & Ef).
  rewrite E0 in E0'. injection E0' as <-. exists s1. split; [done|]. unfold test_column_step.
  rewrite N.add_1_r, seqN_S_end, fmap_app in Es1. unfold sketch_stream in Es1, Es.
  rewrite ofold_app, Es in Es1. cbn [fmap list_fmap ofold mbind outcome_bind] in Es1. rewrite N.add_0_l in Es1.
  destruct (sketch_update s (to_vec k)) as [s1'|e| |]; try done. injection Es1 as ->.
  cbn [mbind outcome_bind]. rewrite Er. cbn [mbind outcome_bind]. rewrite (reset_set_sample_idx s1) by done.
  unfold found. by rewrite Ef.
Qed.

Lemma read_cell_value (good : list N) (i : N) g : good !! i = Some g → read_cell (Some <$> good) i = Ok g.
Proof using . intros Hi. unfold read_cell. rewrite lookupN_eq in Hi. by rewrite lookupN_eq, list_lookup_fmap, Hi. Qed.

(** A trial samples, after each update, the sketch of the indices so far. *)
Lemma column_loop sd s0 good max_z : sd < 2 ^ 64 → Sketch_new len sd 1 1 = Ok s0 → max_z ≤ N.of_nat (length good) →
  ∃ s good', ofold test_column_step (seqN 0 max_z) (s0, Some <$> good) = Ok (s, Some <$> good') ∧ length good' = length good ∧
    ∀ i g, good !! i = Some g → good' !! i = Some (if (i <? max_z) && found len sd (i + 1) then u64 (g + 1) else g).
Proof using Hb Hbkt PlatformLaws0.
  intros Hsd E0 Hlen.
  destruct (ofold_range (λ k '(s, cells), sketch_stream (to_vec <$> seqN 0 k) s0 = Ok s ∧ ∃ good', cells = Some <$> good' ∧ length good' = length good ∧
    ∀ i g, good !! i = Some g → good' !! i = Some (if (i <? k) && found len sd (i + 1) then u64 (g + 1) else g)) 0 max_z test_column_step)
    with (s := (s0, Some <$> good)) as ([s cells] & E & _ & good' & -> & HL & Hg).
  - intros k [s cells] Hk (Es & good' & -> & HL & Hg). rewrite N.add_0_l.
    destruct (column_step sd s0 s (Some <$> good') k Hsd E0 Es) as (s1 & Es1 & ->).
    destruct (lookupN_lt_is_Some good k) as [gk Hgk]; [lia|].
    pose proof (Hg k gk Hgk) as Hk'. rewrite N.ltb_irrefl in Hk'. cbn [andb] in Hk'. rewrite (read_cell_value _ _ _ Hk').
    exists (s1, Some <$> if found len sd (k + 1) then <[k := u64 (gk + 1)]> good' else good'). split.
    { destruct (found len sd (k + 1)); [|done]. cbn [mbind outcome_bind mret outcome_ret]. do 2 f_equal.
      symmetry. apply (list_fmap_insert Some good' (N.to_nat k)). }
    split; [done|]. eexists. split; [done|]. split; [destruct (found _ _ _); [by rewrite length_insertN|done]|].
    intros i g Hi. destruct (decide (i = k)) as [->|Hne].
    + rewrite Hgk in Hi. injection Hi as ->. rewrite (proj2 (N.ltb_lt _ _)) by lia. cbn [andb].
      destruct (found len sd (k + 1)); [rewrite lookupN_insert_eq by lia|]; done.
    + replace (i <? k + 1) with (i <? k) by (apply eq_true_iff_eq; rewrite !N.ltb_lt; lia).
      destruct (found len sd (k + 1)); [rewrite lookupN_insert_ne by done|]; by apply Hg.
  - split; [done|]. exists good. split; [done|]. split; [done|]. intros i g ->. by destruct i.
  - by exists s, good'.
Qed.

(** All trials. *)
Lemma trials_count n (Hlen : len = to_vec (u64 (n * n))) max_z k : ∀ sd good, sd < 2 ^ 64 → max_z ≤ N.of_nat (length good) →
  Forall (λ g, g + N.of_nat k < 2 ^ 64) good →
  ∃ sd' good', test_n_trials k n (Some <$> good) max_z sd = (sd', Ok (Some <$> good')) ∧ length good' = length good ∧
    ∀ i g, good !! i = Some g → good' !! i = Some (g + if i <? max_z then successes len sd k i else 0).
Proof using Hb Hbkt PlatformLaws0.
  induction k as [|k IH]; intros sd good Hsd HL Hg; cbn [test_n_trials successes].
  { exists sd, good. split; [done|]. split; [done|]. intros i g ->. f_equal. destruct (_ <? _); lia. }
  destruct (column_new sd Hsd) as (s0 & E0 & _).
  destruct (column_loop sd s0 good max_z Hsd E0 HL) as (s & good1 & E & HL1 & Hg1).
  assert (test_n_one n (Some <$> good) max_z sd = (u64 (sd + 1), Ok (Some <$> good1))) as E1.
  { unfold test_n_one, gen_seed, mbind, M_bind, lift. rewrite <-Hlen, E0. cbn [outcome_bind]. by rewrite E. }
  rewrite (M_bind_Ok _ _ _ _ _ E1). destruct (IH (u64 (sd + 1)) good1) as (sd' & good' & E2 & HL2 & Hg2); [apply wrap_lt|lia| |].
  { apply Forall_forall. intros g' Hg'. apply list_elem_of_lookup in Hg' as [j Hj].
    destruct (lookup_lt_is_Some_2 good j) as [g0 Hg0]; [apply lookup_lt_Some in Hj; lia|].
    pose proof (Forall_lookup_1 _ _ _ _ Hg Hg0) as Hb0. cbn beta in Hb0.
    assert (good !! N.of_nat j = Some g0) as Hg0' by (by rewrite lookupN_eq, Nat2N.id).
    specialize (Hg1 _ _ Hg0'). rewrite lookupN_eq, Nat2N.id, Hj in Hg1. injection Hg1 as ->.
    destruct (_ && _); [rewrite wrap_small|]; lia. }
  exists sd', good'. split; [done|]. split; [congruence|]. intros i g Hi.
  rewrite lookupN_eq in Hi. pose proof (Forall_lookup_1 _ _ _ _ Hg Hi) as Hb0. cbn beta in Hb0. rewrite <-lookupN_eq in Hi.
  rewrite (Hg2 _ _ (Hg1 _ _ Hi)). f_equal. destruct (i <? max_z); cbn [andb]; [|done].
  destruct (found len sd (i + 1)); [rewrite wrap_small|]; lia.
Qed.

(** ** Without values in the array *)

Definition no_values (l : nat) : list (option N) := replicate l None.

Lemma read_no_values l i : read_cell (no_values l) i = Undef.
Proof using .
  unfold read_cell, no_values. rewrite lookupN_eq. destruct (replicate l None !! N.to_nat i) as [c|] eqn:E; [|done].
  apply lookup_replicate in E as [-> _]. done.
Qed.

(** A trial finds nothing, or reads a counter. *)
Lemma column_loop_undefined sd s0 l max_z : sd < 2 ^ 64 → Sketch_new len sd 1 1 = Ok s0 →
  (∃ s, ofold test_column_step (seqN 0 max_z) (s0, no_values l) = Ok (s, no_values l) ∧ sketch_stream (to_vec <$> seqN 0 max_z) s0 = Ok s) ∨
  ofold test_column_step (seqN 0 max_z) (s0, no_values l) = Undef.
Proof using Hb Hbkt PlatformLaws0.
  intros Hsd E0. induction max_z as [|k IH] using N.peano_ind; [by left; exists s0|].
  rewrite seqN_S_end, ofold_app, N.add_0_l. destruct IH as [(s & -> & Es)| ->]; [|by right]. cbn [mbind outcome_bind ofold].
  destruct (column_step sd s0 s (no_values l) k Hsd E0 Es) as (s1 & Es1 & ->). rewrite read_no_values.
  rewrite N.add_1_r, seqN_S_end, N.add_0_l in Es1. destruct (found _ _ _); [by right|]. left. by exists s1.
Qed.

Lemma trials_undefined n (Hlen : len = to_vec (u64 (n * n))) l max_z k : ∀ sd, sd < 2 ^ 64 →
  (∃ sd', test_n_trials k n (no_values l) max_z sd = (sd', Ok (no_values l))) ∨ (test_n_trials k n (no_values l) max_z sd).2 = Undef.
Proof using Hb Hbkt PlatformLaws0.
  induction k as [|k IH]; intros sd Hsd; cbn [test_n_trials]; [by left; exists sd|].
  destruct (column_new sd Hsd) as (s0 & E0 & _). destruct (column_loop_undefined sd s0 l max_z Hsd E0) as [(s & E & _)|E].
  - assert (test_n_one n (no_values l) max_z sd = (u64 (sd + 1), Ok (no_values l))) as E1.
    { unfold test_n_one, gen_seed, mbind, M_bind, lift. rewrite <-Hlen, E0. cbn [outcome_bind]. by rewrite E. }
    rewrite (M_bind_Ok _ _ _ _ _ E1). apply IH, wrap_lt.
  - right. assert (test_n_one n (no_values l) max_z sd = (u64 (sd + 1), Undef)) as E1.
    { unfold test_n_one, gen_seed, mbind, M_bind, lift. rewrite <-Hlen, E0. cbn [outcome_bind]. by rewrite E. }
    unfold mbind, M_bind. by rewrite E1.
Qed.

(** The report reads the first counter in any case. *)
Lemma report_undefined l ntrials max_z : 0 < max_z → report (no_values l) ntrials max_z = Undef.
Proof using .
  intros Hpos. clear Hbkt Hb b. unfold report. replace max_z with (1 + N.pred max_z) by lia.
  assert (seqN 0 (1 + N.pred max_z) = 0 :: seqN 1 (N.pred max_z)) as -> by (unfold seqN; by rewrite N2Nat.inj_add).
  cbn [ofold report_step mbind outcome_bind]. unfold report_step. by rewrite read_no_values.
Qed.
End Column.

(** * The trials on one number of indices *)

Section OneSize.
Context `{P : Platform} `{!PlatformLaws P} (n b : N) (Hb : calc_bkt_per_col (to_vec n) = Ok b) (Hbkt : 1 ≤ b < 64).

(** Only an assertion can fail. *)
Definition asserted {A} (Q : N → A → Prop) (o : N * outcome A) : Prop :=
  match o.2 with Ok a => Q o.1 a | Abort => NDEBUG = false | _ => False end.

(** [test_z] samples the sketch of the first [z] indices. *)
Lemma test_z_ok z sd : sd < 2 ^ 64 →
  asserted (λ sd' r, sd' = u64 (sd + 1) ∧ r = if found (to_vec n) sd z then R_GOOD else R_BAD) (test_z n z sd).
Proof using Hb Hbkt PlatformLaws0.
  intros Hsd. destruct (column_sketch (to_vec n) b Hb Hbkt sd z Hsd) as (s0 & s & r & E0 & Es & _ & _ & _ & _ & _ & Er & Ef).
  unfold found. rewrite Ef. unfold asserted, test_z, cassert, oassert, mbind, M_bind, lift, gen_seed.
  destruct (NDEBUG || (1 <=? z)) eqn:E1; [|by destruct NDEBUG].
  destruct (NDEBUG || (z <=? _)) eqn:E2; [|by destruct NDEBUG].
  rewrite E0. cbn [snd fst outcome_bind].
  assert (ofold (λ i s, sketch_update s (to_vec i)) (seqN 0 z) s0 = Ok s) as ->.
  { rewrite <-Es. unfold sketch_stream. generalize (seqN 0 z) as l. intros l. clear. revert s0.
    induction l as [|i l IH]; intros s0; [done|]. cbn [ofold fmap list_fmap]. unfold mbind, outcome_bind. by destruct (sketch_update s0 (to_vec i)). }
  cbn [outcome_bind]. rewrite Er. cbn [snd outcome_bind].
  destruct (NDEBUG || negb _) eqn:E3; cbn [outcome_bind]; [done|by destruct NDEBUG].
Qed.

Lemma trials_ok i k : ∀ sd results, sd < 2 ^ 64 →
  asserted (λ _ r, r.1.1 = results.1.1 + successes (to_vec n) sd k i ∧
      r.1.1 + r.1.2 = results.1.1 + results.1.2 + N.of_nat k ∧ r.2 = results.2) (trials k n (i + 1) results sd).
Proof using Hb Hbkt PlatformLaws0.
  induction k as [|k IH]; intros sd [[x y] w] Hsd; cbn [trials successes]; [cbn; lia|].
  pose proof (test_z_ok (i + 1) sd Hsd) as Hz. unfold mbind, M_bind. unfold asserted in Hz.
  destruct (test_z n (i + 1) sd) as [sd1 [r|e| |]]; cbn [fst snd] in Hz; try done. destruct Hz as [-> ->].
  specialize (IH (u64 (sd + 1)) (count_result (x, y, w) (if found (to_vec n) sd (i + 1) then R_GOOD else R_BAD)) (wrap_lt _ _)).
  unfold asserted in *. destruct (trials _ _ _ _ _) as [sd' [r|e| |]]; try done. cbn [fst snd] in *.
  destruct (found _ _ _); cbn [count_result fst snd] in IH; lia.
Qed.

(** The rate that is fitted is that of the trials that find an index; none is
    counted as a failure of the hash. *)
Lemma test_nz_pair_ok i sd : sd < 2 ^ 64 →
  asserted (λ _ pair, pair = fit_to_binomial (successes (to_vec n) sd 500 i) 500) (test_nz_pair n (i + 1) sd).
Proof using Hb Hbkt PlatformLaws0.
  intros Hsd. pose proof (trials_ok i 500 sd (0, 0, 0) Hsd) as Ht. unfold asserted in *. unfold test_nz_pair, mbind, M_bind.
  destruct (trials _ _ _ _ _) as [sd' [r|e| |]]; try done. cbn [fst snd mret M_ret] in *. by destruct Ht as [-> _].
Qed.
End OneSize.

(** * The report *)

Definition finite (d : double) : bool := match d with S754_zero _ | S754_finite _ _ _ => true | _ => false end.

(** A rate between 0 and 1, a deviation, and a bound that is at most 1. *)
Definition fit_ok (pair : double * double) : bool :=
  SFleb (double_of_N 0) pair.1 && SFleb pair.1 (double_of_N 1) && finite pair.2 && SFleb (double_of_N 0) pair.2 &&
  is_number (lower_bound pair) && negb (SFltb (double_of_N 1) (lower_bound pair)).

(** For every count of 500 trials. *)
Lemma fits_ok k : k ≤ 500 → fit_ok (fit_to_binomial k 500) = true.
Proof.
  intros Hk. assert (forallb (λ k, fit_ok (fit_to_binomial k 500)) (seqN 0 501) = true) as Hall by (vm_compute; reflexivity).
  rewrite forallb_forall in Hall. apply Hall, list_elem_of_In, elem_of_seqN. lia.
Qed.

Lemma fit_number k : k ≤ 500 → is_number (lower_bound (fit_to_binomial k 500)) = true ∧
  SFltb (double_of_N 1) (lower_bound (fit_to_binomial k 500)) = false.
Proof. intros Hk%fits_ok. unfold fit_ok in Hk. rewrite !andb_true_iff, negb_true_iff in Hk. tauto. Qed.

Definition not_below (x y : double) : Prop := SFltb x y = false.

Lemma not_below_key x y : is_number x = true → is_number y = true → not_below x y ↔ ¬ key_lt (sort_key x) (sort_key y).
Proof. intros Hx Hy. unfold not_below. rewrite <-(SFltb_key x y Hx Hy). symmetry. apply not_true_iff_false. Qed.

Lemma not_below_refl x : is_number x = true → not_below x x.
Proof. intros Hx. rewrite not_below_key by done. unfold key_lt. lia. Qed.

Lemma not_below_trans x y z : is_number x = true → is_number y = true → is_number z = true →
  not_below x y → not_below y z → not_below x z.
Proof. intros Hx Hy Hz. rewrite !not_below_key by done. unfold key_lt. lia. Qed.

Lemma below_not_below x y : is_number x = true → is_number y = true → SFltb y x = true → not_below x y.
Proof. intros Hx Hy. rewrite SFltb_key, not_below_key by done. unfold key_lt. lia. Qed.

Lemma report_ok (good : list N) max_z : 0 < max_z → length good = N.to_nat max_z → Forall (λ g, g ≤ 500) good →
  ∃ out worst_i g, report (Some <$> good) 500 max_z = Ok (out, (worst_i, fit_to_binomial g 500)) ∧ good !! worst_i = Some g ∧
    length out = N.to_nat max_z ∧
    ∀ i gi, good !! i = Some gi → out !! i = Some (i, fit_to_binomial gi 500) ∧
      not_below (lower_bound (fit_to_binomial gi 500)) (lower_bound (fit_to_binomial g 500)).
Proof.
  intros Hpos HL Hg. set (low g := lower_bound (fit_to_binomial g 500)). set (one := double_of_N 1).
  assert (is_number one = true) as Hone by reflexivity.
  destruct (ofold_range (λ k '(worst, worst_i, out), length out = N.to_nat k ∧
      (worst = one ∧ worst_i = 0 ∨ ∃ g, good !! worst_i = Some g ∧ worst = low g) ∧
      ∀ i g, i < k → good !! i = Some g → out !! i = Some (i, fit_to_binomial g 500) ∧ not_below (low g) worst)
    0 max_z (report_step (Some <$> good) 500)) with (s := (one, 0, [] : list (N * (double * double)))) as ([[worst worst_i] out] & E & HLo & Hw & Hall).
  - intros k [[worst worst_i] out] Hk (HLo & Hw & Hall). rewrite N.add_0_l. unfold report_step.
    destruct (lookupN_lt_is_Some good k) as [gk Hgk]; [lia|]. rewrite (read_cell_value _ _ _ Hgk). cbn [mbind outcome_bind].
    assert (∀ i g, good !! i = Some g → is_number (low g) = true ∧ not_below one (low g)) as Hnum.
    { intros i g Hi. apply fit_number. exact (Forall_lookup_1 _ _ _ _ Hg Hi). }
    assert (is_number worst = true) as Hnw by (destruct Hw as [[-> _]|(g & Hi & ->)]; [done|by eapply Hnum]).
    assert (∀ i g, i < k + 1 → good !! i = Some g →
      (out ++ [(k, fit_to_binomial gk 500)]) !! i = Some (i, fit_to_binomial g 500)) as Hout.
    { intros i g Hi Hgi. destruct (decide (i = k)) as [->|Hne].
      - rewrite Hgk in Hgi. injection Hgi as ->. by rewrite lookupN_eq, lookup_app_r, HLo, Nat.sub_diag by lia.
      - rewrite lookupN_eq, lookup_app_l by lia. rewrite <-lookupN_eq. apply Hall; [lia|done]. }
    assert (∀ i g, i < k + 1 → good !! i = Some g → i = k ∧ g = gk ∨ not_below (low g) worst) as Hcase.
    { intros i g Hi Hgi. destruct (decide (i = k)) as [->|Hne]; [left; split; congruence|right; apply (Hall i g); [lia|done]]. }
    change (lower_bound (fit_to_binomial gk 500)) with (low gk).
    destruct (SFltb (low gk) worst) eqn:Elt; eexists; (split; [reflexivity|]); (split; [rewrite length_app; cbn; lia|]).
    + split; [right; by exists gk|]. intros i g Hi Hgi. split; [by apply Hout|].
      destruct (Hcase i g Hi Hgi) as [[_ ->]|Hn]; [by apply not_below_refl; eapply Hnum|].
      apply (not_below_trans _ worst); [by eapply Hnum|done|by eapply Hnum|done|]. apply below_not_below; [done|by eapply Hnum|done].
    + split; [done|]. intros i g Hi Hgi. split; [by apply Hout|]. by destruct (Hcase i g Hi Hgi) as [[_ ->]|Hn].
  - split; [done|]. split; [by left|]. intros i g Hi. lia.
  - unfold report. fold one. rewrite E. cbn [mbind outcome_bind].
    assert (∃ g, good !! worst_i = Some g ∧ ∀ i gi, good !! i = Some gi → not_below (low gi) (low g)) as (g & Hgi & Hmin).
    { assert (∀ i g, good !! i = Some g → is_number (low g) = true ∧ not_below one (low g)) as Hnum.
      { intros i g Hi. apply fit_number. exact (Forall_lookup_1 _ _ _ _ Hg Hi). }
      assert (∀ i g, good !! i = Some g → i < max_z) as Hlt by (intros i g Hi%lookupN_lt_Some; lia).
      destruct Hw as [[-> ->]|(g & Hgi & ->)]; [|exists g; split; [done|]; intros i gi Hi; apply (Hall i); eauto].
      destruct (lookupN_lt_is_Some good 0) as [g0 Hg0]; [lia|]. exists g0. split; [done|]. intros i gi Hi.
      apply (not_below_trans _ one); [by eapply Hnum|done|by eapply Hnum|apply (Hall i); eauto|by eapply Hnum]. }
    exists out, worst_i, g. rewrite (read_cell_value _ _ _ Hgi). split; [done|]. split; [done|]. split; [done|].
    intros i gi Hi. split; [apply Hall; [by apply lookupN_lt_Some in Hi; lia|done]|by eapply Hmin].
Qed.

(** * Theorems *)

Lemma test_n_max_bounds n : 0 < test_n_max n < 2 ^ 64.
Proof.
  unfold test_n_max. pose proof (wrap_lt 64 (n * n)) as Hw. change (u64 (n * n)) with (wrap 64 (n * n)).
  generalize dependent (wrap 64 (n * n)). intros q Hq.
  assert (q / 4 < 2 ^ 62) as Hr by (by apply N.Div0.div_lt_upper_bound).
  generalize dependent (q / 4). intros r Hr. rewrite wrap_small by lia. lia.
Qed.

Section Theorems.
Context `{P : Platform} `{!PlatformLaws P}.

(** C37. What the experiment measures. As it is written it has no defined result:
    the counters are those of a new array without initial values, and every run
    reads one of them. If they are zero to begin with and the rest of [test_n] is
    as it is, the tool returns a line for every number of indices: the rate, out
    of 500 trials, at which a sketch built for exactly these indices can be
    sampled, although each trial keeps one sketch and samples it after every
    update. The same line is what the trials of [test_nz_pair], each with a new
    sketch, give (in a debug build their assertions may fail instead). Rates lie
    between 0 and 1, deviations are finite, and the line reported as the worst one
    has the least lower bound. *)
Theorem testing_report n seed b (Hb : calc_bkt_per_col (to_vec (u64 (n * n))) = Ok b) (Hbkt : 1 ≤ b < 64)
    (Hseed : seed < 2 ^ 64) :
  (test_n n seed).2 = Undef ∧
  ∃ seed' out worst_i pair,
    test_n_on (replicate (N.to_nat (test_n_max n)) (Some 0)) n seed = (seed', Ok (out, (worst_i, pair))) ∧
    N.of_nat (length out) = test_n_max n ∧ out !! worst_i = Some (worst_i, pair) ∧
    ∀ i, i < test_n_max n → ∃ line,
      line = fit_to_binomial (successes (to_vec (u64 (n * n))) seed 500 i) 500 ∧ out !! i = Some (i, line) ∧
      fit_ok line = true ∧ SFltb (lower_bound line) (lower_bound pair) = false ∧
      asserted (λ _ pair, pair = line) (test_nz_pair (u64 (n * n)) (i + 1) seed).
Proof using PlatformLaws0.
  set (max_z := test_n_max n). set (len := to_vec (u64 (n * n))). set (good0 := replicate (N.to_nat max_z) 0).
  pose proof (test_n_max_bounds n) as Hmax. fold max_z in Hmax. split.
  { unfold test_n, test_n_on. fold max_z. fold (no_values (N.to_nat max_z)).
    destruct (trials_undefined len b Hb Hbkt n eq_refl (N.to_nat max_z) max_z 500 seed Hseed) as [(sd' & E)|E].
    - rewrite (M_bind_Ok _ _ _ _ _ E). unfold lift. by rewrite report_undefined by lia.
    - revert E. unfold mbind, M_bind. by destruct (test_n_trials _ _ _ _ _) as [sd' []]. }
  destruct (trials_count len b Hb Hbkt n eq_refl max_z 500 seed good0 Hseed) as (seed' & good & E & HL & Hg).
  { unfold good0. rewrite length_replicate. lia. }
  { apply Forall_replicate. reflexivity. }
  unfold good0 in HL. rewrite length_replicate in HL.
  assert (∀ i, i < max_z → good !! i = Some (successes len seed 500 i)) as Hgood.
  { intros i Hi. rewrite (Hg i 0) by (unfold good0; rewrite lookupN_eq; apply lookup_replicate_2; lia).
    by rewrite (proj2 (N.ltb_lt _ _)) by done. }
  destruct (report_ok good max_z) as (out & worst_i & g & Er & Hw & HLo & Hout); [lia|done| |].
  { apply Forall_lookup. intros j x Hj. assert (j < length good)%nat by (by eapply lookup_lt_Some).
    specialize (Hgood (N.of_nat j) ltac:(lia)). rewrite lookupN_eq, Nat2N.id, Hj in Hgood. apply (inj Some) in Hgood as ->.
    exact (successes_le len 500 (N.of_nat j) seed). }
  exists seed', out, worst_i, (fit_to_binomial g 500). split.
  { unfold test_n_on. fold max_z. rewrite <-(fmap_replicate Some). fold good0. rewrite (M_bind_Ok _ _ _ _ _ E). unfold lift. by rewrite Er. }
  split; [lia|]. split; [by apply (Hout worst_i g)|]. intros i Hi. eexists. split; [done|].
  destruct (Hout i _ (Hgood i Hi)) as [Ho Hn]. split; [done|]. split; [apply fits_ok; exact (successes_le len 500 i seed)|]. split; [done|].
  by apply (test_nz_pair_ok (u64 (n * n)) b Hb Hbkt).
Qed.
End Theorems.

(** The bound is not monotonic in the rate: one to eight successes in 500 trials
    count as worse than none, because a rate of 0 is fitted with deviation 0. A
    number of indices that is never sampled is not reported as the worst one. *)
Theorem worst_is_not_lowest :
  ∀ k, 1 ≤ k ≤ 8 → SFltb (lower_bound (fit_to_binomial k 500)) (lower_bound (fit_to_binomial 0 500)) = true.
Proof.
  intros k Hk. assert (forallb (λ k, SFltb (lower_bound (fit_to_binomial k 500)) (lower_bound (fit_to_binomial 0 500))) (seqN 1 8) = true)
    as Hall by (vm_compute; reflexivity).
  rewrite forallb_forall in Hall. apply Hall, list_elem_of_In, elem_of_seqN. lia.
Qed.

Section Demo.
#[local] Existing Instance demo_platform.

(** Five numbers of indices; a single index is always found. *)
Lemma testing_report_witness : ∃ seed' out worst_i pair,
  (test_n 4 7).2 = Undef ∧ test_n_on (replicate 5 (Some 0)) 4 7 = (seed', Ok (out, (worst_i, pair))) ∧ length out = 5%nat ∧
  fit_ok (fit_to_binomial (successes 16 7 500 3) 500) = true ∧ successes 16 7 500 0 = 500.
Proof.
  destruct (testing_report 4 7 (from_outcome (calc_bkt_per_col 16))) as (Hu & seed' & out & worst_i & pair & E & HL & _ & Hout).
  - vm_compute. reflexivity.
  - vm_compute. split; [discriminate|reflexivity].
  - reflexivity.
  - exists seed', out, worst_i, pair. split; [exact Hu|]. split; [exact E|]. split; [apply Nat2N.inj; rewrite HL; reflexivity|].
    destruct (Hout 3) as (line & -> & _ & Hfit & _); [reflexivity|]. split; [exact Hfit|]. vm_compute. reflexivity.
Defined.
End Demo.
