(* ===== verification/TestCorrectness.v ===== *)
(** The correctness tool (src/tools/test_correctness.cpp).

    The tool builds random paths, inserts each into several algorithms, and counts
    the queries that throw and the rounds they take. Shuffles, seeds and
    priorities are arguments. It is built with [VERIFY_SAMPLES_F]: the algorithm
    is that of file Checked. [path_test_reports]: no access leaves the histogram,
    every query is counted once; and in the default build, with the eager
    disjoint set union, every query is answered from it, so that the tool reports
    no failure and no round whatever the sketches hold. *)
From S2P Require Import Prelude Float64 Platform Util XorSet Bucket Sketch Dsu DsuMT Graph Forest Config CCAlg Partition MergeInstr Round RoundCorrect Boruvka BoruvkaCorrect Queries Session Correctness Verifier VerifierCorrect SampleChecks Checked CheckedCorrect.

Open Scope N_scope.

(** * Definitions *)

Record CorrectnessResults : Type := mkResults { num_failures : N; num_round_hist : list N }.

(** What is not determined by the code for a sample: the seed and the priorities
    of the algorithm, the schedule of the query, and the order of its answer. *)
Record sample_choices : Type := mkChoices {
  sc_seed : N;
  sc_prio : N → N;
  sc_schedules : Schedules;
  sc_order : list N
}.

(** The edges along [copy_vertices]. *)
Fixpoint path_from (cur_node : N) (vs : list N) : list Edge :=
  match vs with [] => [] | v :: vs => mkEdge cur_node v :: path_from v vs end.
Definition path_edges (copy_vertices : list N) : list Edge :=
  match copy_vertices with [] => [] | v :: vs => path_from v vs end.

(** A call on an object, with what it throws. *)
Definition exec {S A} (r : S * outcome A) : outcome (S * A) :=
  match r with
  | (s, Ok a) => Ok (s, a)
  | (_, Throw e) => Throw e
  | (_, Abort) => Abort
  | (_, Undef) => Undef
  end.

(** [try { ... } catch (...)]: whether it threw. *)
Definition attempt {S A} (r : S * outcome A) : outcome (S * bool) :=
  match r with
  | (s, Ok _) => Ok (s, false)
  | (s, Throw _) => Ok (s, true)
  | (_, Abort) => Abort
  | (_, Undef) => Undef
  end.

Section Tool.
Context `{P : Platform} {D V U : Type} `{UF : UnionFind D} `{UV : UnionFind V}.
Context (num_threads : N) (INSERT : U).
Context (shuffled : N → list N → list N) (verifier_prio : N → N → N) (chosen : N → N → sample_choices).

(** One query. *)
Definition test_sample (num_vertices : N) (edges : list Edge) (verifier : GraphVerifier V) (c : sample_choices)
    (results : CorrectnessResults) : outcome CorrectnessResults :=
  cc_alg ← CCSketchAlg_new (D := D) (wrap 32 num_vertices) (sc_seed c) CCAlgConfiguration_default (sc_prio c);
  '(cc_alg, _) ← exec (for_each edges (λ e, update (mkUpdate e INSERT)) cc_alg);
  let cc_alg := set_verifier (GraphVerifier_copy verifier) (mkChecked cc_alg None) in
  '(cc_alg, failed) ← attempt (checked_connected_components num_threads (sc_schedules c) (sc_order c) cc_alg);
  let rounds := last_query_rounds (base cc_alg) in
  count ← of_option (num_round_hist results !! rounds);
  mret (mkResults (if failed : bool then u64 (num_failures results + 1) else num_failures results)
          (<[rounds := u64 (count + 1)]> (num_round_hist results))).

Definition test_graph (num_vertices samples_per_graph g : N) (vertices : list N) (results : CorrectnessResults) :
    outcome CorrectnessResults :=
  let copy_vertices := shuffled g vertices in
  _ ← of_option (copy_vertices !! 0);
  let edges := path_edges copy_vertices in
  '(verifier, _) ← exec (for_each edges edge_update (GraphVerifier_new (wrap 32 num_vertices) (verifier_prio g)));
  ofold (λ s, test_sample num_vertices edges verifier (chosen g s)) (seqN 0 samples_per_graph) results.

Definition test_path_correctness (num_vertices num_graphs samples_per_graph : N) : outcome CorrectnessResults :=
  num_rounds ← calc_cc_samples (wrap 32 num_vertices) (double_of_N 1);
  let vertices := wrap 32 <$> seqN 0 num_vertices in
  ofold (λ g, test_graph num_vertices samples_per_graph g vertices) (seqN 0 num_graphs)
    (mkResults 0 (replicate (N.to_nat num_rounds) 0)).

(** [main], given what [std::stol] and [std::stoi] make of the arguments: the
    numbers of samples and of failures it prints, and the lines of the histogram.
    [None]: [exit(EXIT_FAILURE)]. *)
Definition test_correctness_main (argc a1 a2 a3 : Z) : outcome (option (N * N * list (N * N))) :=
  if negb (argc =? 4)%Z then mret None
  else
    let vertices := Z.to_N (a1 mod 2 ^ 32) in
    let graphs := Z.to_N (a2 mod 2 ^ 32) in
    let samples := Z.to_N (a3 mod 2 ^ 32) in
    results ← test_path_correctness vertices graphs samples;
    mret (Some (wrap 32 (graphs * samples), num_failures results,
      zip (N.succ <$> seqN 0 (N.of_nat (length (num_round_hist results)))) (num_round_hist results))).
End Tool.

(** * The path *)

Lemma path_from_ends cur vs e : e ∈ path_from cur vs → src e ∈ cur :: vs ∧ dst e ∈ vs.
Proof.
  revert cur. induction vs as [|v vs IH]; intros cur; cbn [path_from]; [by intros ?%elem_of_nil|].
  intros [->|He]%elem_of_cons; [split; left|]. destruct (IH v He) as [Hs Hd]. split; right; done.
Qed.

Lemma path_from_valid n cur vs : NoDup (cur :: vs) → Forall (λ v, v < n) (cur :: vs) → Forall (valid_edge n) (path_from cur vs).
Proof.
  revert cur. induction vs as [|v vs IH]; intros cur; cbn [path_from]; [by intros; constructor|].
  intros [Hcur Hnd]%NoDup_cons [Hc [Hv Hvs]%Forall_cons]%Forall_cons. constructor; [|by apply IH; [|constructor]].
  split; [done|]. split; [done|]. intros E. apply Hcur. cbn in E. rewrite E. left.
Qed.

(** The two ends can be read off an id. *)
Lemma edge_id_ends n e e' : n ≤ 2 ^ 32 → valid_edge n e → valid_edge n e' →
  concat_pairing_fn (src e) (dst e) = concat_pairing_fn (src e') (dst e') → src e' = src e ∨ src e' = dst e.
Proof.
  intros Hn (Hs & Hd & _) (Hs' & Hd' & _) E.
  destruct (concat_ends (src e) (dst e)) as [E1 E2]; [unfold is_node_id, num_bits; lia..|].
  destruct (concat_ends (src e') (dst e')) as [E1' E2']; [unfold is_node_id, num_bits; lia..|].
  rewrite E in E1, E2. lia.
Qed.

Lemma path_from_NoDup n cur vs : n ≤ 2 ^ 32 → NoDup (cur :: vs) → Forall (λ v, v < n) (cur :: vs) → NoDup (edge_ids (path_from cur vs)).
Proof.
  intros Hn. revert cur. induction vs as [|v vs IH]; intros cur Hnd Hlt; [constructor|].
  pose proof (path_from_valid n cur (v :: vs) Hnd Hlt) as Hval. cbn [path_from] in *. unfold edge_ids in *. rewrite fmap_cons.
  apply Forall_cons in Hval as [Hve Hval]. apply NoDup_cons in Hnd as [Hcur Hnd]. apply Forall_cons in Hlt as [Hc Hlt]. 
  constructor; [|by apply IH]. intros (e & E & He)%list_elem_of_fmap. destruct (path_from_ends v vs e He) as [Hs Hd].
  rewrite Forall_forall in Hval. specialize (Hval e He).
  destruct (edge_id_ends n e (mkEdge cur v) Hn Hval Hve (eq_sym E)) as [E'|E']; cbn in E'; apply Hcur; rewrite E'; [done|by right].
Qed.

(** * One query *)

Section Correct.
Context `{P : Platform} `{!PlatformLaws P} {D V U : Type} `{UFL : UnionFindLaws D} `{UFV : UnionFindLaws V}.
Context (num_threads : N) (INSERT : U).
Implicit Type cc : CCSketchAlg D.

(** What must hold of the choices for a sample: the object can be built, the
    orders list the vertices, and in builds without the eager disjoint set union
    no checksum lies about a set of edges of the path. *)
Record good_choice (n : N) (edges : list Edge) (c : sample_choices) (b : Sketch) : Prop := {
  gc_params : good_params n (sc_seed c) CCAlgConfiguration_default b;
  gc_order : sc_order c ≡ₚ seqN 0 n;
  gc_zero : zero_order (sc_schedules c) ≡ₚ seqN 0 n;
  gc_hash : NO_EAGER_DSU = true → collision_free (sk_seed b) (list_to_set (edge_ids edges))
}.

Lemma pre_insert_rounds (u : GraphUpdate U) cc cc' : pre_insert u cc = (cc', Ok tt) → last_query_rounds cc' = last_query_rounds cc.
Proof using .
  unfold pre_insert. intros E. rewrite M_bind_gets in E. destruct NO_EAGER_DSU, (dsu_valid cc); try by injection E as <-.
  rewrite M_bind_gets in E. apply M_bind_inv in E as (X & c1 & E1 & E). injection E1 as <- _.
  apply M_bind_inv in E as (r & c1 & E1 & E). unfold on_dsu, zoom in E1. destruct (uf_merge _ _ (dsu cc)) as [d o]. injection E1 as <- ->.
  destruct (merged r).
  - unfold insert_forest in E. rewrite M_bind_gets in E. apply M_bind_inv in E as (Y & c2 & E2 & E). injection E2 as <- _. by injection E as <-.
  - rewrite M_bind_gets in E. apply M_bind_inv in E as (Y & c2 & E2 & E). injection E2 as <- _. case_decide; by injection E as <-.
Qed.

Lemma update_rounds (u : GraphUpdate U) cc cc' : update u cc = (cc', Ok tt) → last_query_rounds cc' = last_query_rounds cc.
Proof using .
  intros E. unfold update in E. apply M_bind_inv in E as ([] & cc1 & E1 & E). apply M_bind_inv in E as ([] & cc2 & E2%on_sketch_frame & E3%on_sketch_frame).
  rewrite E3, E2. cbn. by apply pre_insert_rounds in E1.
Qed.

Lemma updates_rounds (es : list Edge) : ∀ cc cc', for_each es (λ e, update (mkUpdate e INSERT)) cc = (cc', Ok tt) →
  last_query_rounds cc' = last_query_rounds cc.
Proof using .
  induction es as [|e es IH]; intros cc cc' E; [by injection E as <-|]. cbn [for_each] in E.
  apply M_bind_inv in E as ([] & cc1 & E1 & E). apply IH in E. apply update_rounds in E1. congruence.
Qed.

Lemma for_each_fmap {S A B} (f : A → B) (body : B → M S unit) l : ∀ s, for_each l (λ x, body (f x)) s = for_each (f <$> l) body s.
Proof using .
  induction l as [|x l IH]; intros s; [done|]. cbn [fmap list_fmap for_each]. unfold mbind, M_bind.
  destruct (body (f x) s) as [s' []]; [apply IH|done..].
Qed.

(** The algorithm with the path inserted. *)
Lemma path_inserted n edges c b : good_choice n edges c b → Forall (valid_edge n) edges → NoDup (edge_ids edges) →
  ∃ cc0 cc : CCSketchAlg D, CCSketchAlg_new n (sc_seed c) CCAlgConfiguration_default (sc_prio c) = Ok cc0 ∧
    for_each edges (λ e, update (mkUpdate e INSERT)) cc0 = (cc, Ok tt) ∧ cc_inv cc b (list_to_set (edge_ids edges)) ∧
    num_vertices cc = n ∧ last_query_rounds cc = 0 ∧ (NO_EAGER_DSU = false → dsu_valid cc = true).
Proof using PlatformLaws0.
  intros Hc Hes Hnd. destruct (CCSketchAlg_new_ok (D := D) n (sc_seed c) CCAlgConfiguration_default (sc_prio c) b (gc_params _ _ _ _ Hc))
    as (cc0 & E0 & HI0 & En0 & Hv0 & _).
  set (us := (λ e, mkUpdate e INSERT) <$> edges).
  assert (stream_ids us = edge_ids edges) as Eids by (unfold us, stream_ids; by rewrite <-list_fmap_compose).
  assert (valid_updates (num_vertices cc0) us) as Hus.
  { rewrite En0. unfold us, valid_updates. rewrite Forall_fmap. apply Hes. }
  destruct (updates_ok us cc0 b ∅ Hus HI0) as (cc & E & HI & En).
  assert (last_query_rounds cc0 = 0) as Hr0.
  { unfold CCSketchAlg_new in E0. apply outcome_bind_inv in E0 as (l & _ & E0). apply outcome_bind_inv in E0 as (k & _ & E0).
    apply outcome_bind_inv in E0 as ([reps ss] & _ & E0). by injection E0 as <-. }
  rewrite Eids, (left_id ∅ symdiff), toggles_NoDup in HI by done.
  assert (for_each edges (λ e, update (mkUpdate e INSERT)) cc0 = (cc, Ok tt)) as E' by (by rewrite (for_each_fmap (λ e, mkUpdate e INSERT))).
  exists cc0, cc. split_and!; [done..|congruence|by rewrite (updates_rounds _ _ _ E')|].
  intros He. apply (updates_cached us cc0 cc b ∅ Hus HI0 E); [done..|]. rewrite Eids. split; [done|set_solver].
Qed.

(** The query, and the rounds it leaves. *)
Lemma path_query n edges c b cc gv (PT : Partitioned n num_threads) : good_choice n edges c b →
  cc_inv cc b (list_to_set (edge_ids edges)) → num_vertices cc = n → last_query_rounds cc = 0 →
  (NO_EAGER_DSU = false → dsu_valid cc = true) → (NO_EAGER_DSU = true → NDEBUG = true) →
  holds n (list_to_set (edge_ids edges)) gv →
  ∃ s failed, attempt (checked_connected_components num_threads (sc_schedules c) (sc_order c) (mkChecked cc (Some gv))) = Ok (s, failed) ∧
    last_query_rounds (base s) < num_samples b ∧ (failed = true → last_query_rounds (base s) = 0) ∧
    (NO_EAGER_DSU = false → failed = false ∧ last_query_rounds (base s) = 0).
Proof using PlatformLaws0.
  intros Hc HI En Hr Heager Hbuild Hgv. set (G := list_to_set (edge_ids edges)) in *.
  destruct (good_params_base _ _ _ _ (gc_params _ _ _ _ Hc)) as (_ & _ & _ & [Hsam _] & _).
  pose proof (cb_n _ _ (ci_base _ _ _ HI)) as [_ Hn]. pose proof (ci_graph _ _ _ HI) as HG.
  pose proof (gc_order _ _ _ _ Hc) as Hord. pose proof (gc_zero _ _ _ _ Hc) as Hzero. rewrite <-En in Hord, Hzero, Hgv, PT.
  unfold checked_connected_components. rewrite M_bind_gets. cbn [base].
  assert (shared_dsu_valid cc = dsu_valid cc) as -> by apply HI.
  destruct (dsu_valid cc) eqn:Hd.
  - pose proof (ci_cache _ _ _ HI) as (_ & _ & _ & _ & Hval).
    rewrite (M_bind_Ok _ _ _ (mkChecked cc (Some gv)) tt) by (apply (verify_cached_ok (num_vertices cc) G); [done|lia|done|apply Hgv|by apply Hval]).
    destruct (verified_components_ok b G cc gv _ HI Hd Hgv Hord) as (d & ans & gv' & -> & _).
    eexists _, false. split; [done|]. cbn. rewrite Hr. split; [lia|done].
  - assert (NO_EAGER_DSU = true) as He by (destruct NO_EAGER_DSU; [done|by specialize (Heager eq_refl)]).
    pose proof (query_reliable_collision_free num_threads (sc_schedules c) b G cc (gc_hash _ _ _ _ Hc He)) as Hrel.
    destruct (compute_answer_ok (SC := no_check) b G num_threads (sc_schedules c) cc PT HI Hd Hzero Hrel) as (cc1 & o & E & Ho).
    assert (compute_answer (SC := check_of (Some gv)) num_threads (sc_schedules c) cc = (cc1, o)) as E'.
    { rewrite <-E. apply (compute_answer_unchecked _ b G num_threads (sc_schedules c) cc PT HI Hd Hzero Hrel). intros e (Hs & Hd' & Hin).
      unfold check_of. by rewrite (verify_graph_edge (num_vertices cc) G) by (try apply Hgv; done || lia). }
    unfold ensure_answer. pose proof (on_base_run (λ SC, compute_answer (SC := SC) num_threads (sc_schedules c)) cc (Some gv) cc1 o E') as Eb.
    destruct o as [[]|e| |]; cbn [answer_result] in Ho.
    + destruct Ho as (HI1 & (En1 & _) & Hd1 & _ & Hlt). rewrite (M_bind_Ok _ _ _ _ _ Eb). rewrite <-En1 in Hgv, Hord.
      destruct (verified_components_ok b G cc1 gv _ HI1 Hd1 Hgv Hord) as (d & ans & gv' & -> & _).
      eexists _, false. split; [done|]. cbn. split; [done|]. split; [done|]. intros He'. congruence.
    + destruct Ho as (_ & _ & _ & _ & _ & _ & Hr1). unfold mbind, M_bind. rewrite Eb. eexists _, true. split; [done|].
      cbn. rewrite Hr1, Hr. split; [lia|]. split; [done|]. intros He'. congruence.
    + rewrite (Hbuild He) in Ho. done.
    + done.
Qed.
(** ** Counting *)

Definition total (l : list N) : N := foldr N.add 0 l.

Lemma total_insert l (i x : N) : l !! i = Some x → total (<[i := x + 1]> l) = total l + 1 ∧ x ≤ total l.
Proof using .
  rewrite lookupN_eq. unfold insert, list_insertN. generalize (N.to_nat i). clear i.
  induction l as [|y l IH]; intros [|i] Hx; [done..|injection Hx as ->; cbn; lia|]. destruct (IH i Hx) as [E Hle].
  change (total (y :: <[i := x + 1]> l) = total (y :: l) + 1 ∧ x ≤ total (y :: l)).
  unfold total in *. cbn [foldr]. lia.
Qed.

(** After [k] queries. *)
Record counted (rounds k : N) (r : CorrectnessResults) : Prop := {
  ct_length : N.of_nat (length (num_round_hist r)) = rounds;
  ct_total : total (num_round_hist r) = k;
  ct_failures : num_failures r ≤ default 0 (num_round_hist r !! 0);
  ct_eager : NO_EAGER_DSU = false → num_failures r = 0 ∧ num_round_hist r = k :: replicate (N.to_nat rounds - 1) 0
}.

Lemma counted_start rounds : 0 < rounds → counted rounds 0 (mkResults 0 (replicate (N.to_nat rounds) 0)).
Proof using .
  intros Hr. split; cbn [num_failures num_round_hist].
  - rewrite length_replicate. lia.
  - unfold total. by induction (N.to_nat rounds).
  - lia.
  - intros _. split; [done|]. destruct (N.to_nat rounds) as [|j] eqn:E; [lia|]. cbn. by rewrite Nat.sub_0_r.
Qed.

Lemma test_sample_counted n edges gv c b rounds k r (PT : Partitioned n num_threads) : good_choice n edges c b →
  Forall (valid_edge n) edges → NoDup (edge_ids edges) → (NO_EAGER_DSU = true → NDEBUG = true) →
  holds n (list_to_set (edge_ids edges)) gv → num_samples b = rounds → k + 1 < 2 ^ 64 → counted rounds k r →
  ∃ r', test_sample (D := D) (V := V) num_threads INSERT n edges gv c r = Ok r' ∧ counted rounds (k + 1) r'.
Proof using PlatformLaws0 UFL UFV.
  intros Hc Hes Hnd Hbuild Hgv Hb Hk [Hlen Htot Hfail Heag]. pose proof (gp_n _ _ _ _ (gc_params _ _ _ _ Hc)) as Hn.
  destruct (path_inserted n edges c b Hc Hes Hnd) as (cc0 & cc & E0 & E & HI & En & Hr & Hd).
  destruct (path_query n edges c b cc (GraphVerifier_copy gv) PT Hc HI En Hr Hd Hbuild) as (s & failed & Eq & Hlt & Hf0 & He).
  { apply GraphVerifier_copy_ok; apply Hgv. }
  destruct (lookupN_lt_is_Some (num_round_hist r) (last_query_rounds (base s))) as [x Hx]; [lia|].
  destruct (total_insert _ _ _ Hx) as [Hins Hle].
  unfold test_sample. rewrite (wrap_small 32) by lia. rewrite E0. cbn [mbind outcome_bind]. rewrite E. cbn [exec mbind outcome_bind].
  unfold set_verifier. cbn [base]. rewrite Eq. cbn [mbind outcome_bind]. rewrite Hx. cbn [of_option mbind outcome_bind].
  rewrite (wrap_small 64 (x + 1)) by lia. eexists. split; [done|].
  assert (num_failures r + 1 < 2 ^ 64) as Hnf.
  { destruct (num_round_hist r !! 0) as [y|] eqn:Hy; cbn in Hfail; [|lia]. destruct (total_insert _ _ _ Hy). lia. }
  rewrite (wrap_small 64 (num_failures r + 1)) by done.
  split; cbn [num_failures num_round_hist].
  - by rewrite length_insertN.
  - by rewrite Hins, Htot.
  - destruct failed.
    + specialize (Hf0 eq_refl). rewrite Hf0 in *. rewrite lookupN_insert_eq by lia. rewrite Hx in Hfail. cbn in *. lia.
    + destruct (decide (last_query_rounds (base s) = 0)) as [E1|Hne].
      * rewrite E1 in *. rewrite lookupN_insert_eq by lia. rewrite Hx in Hfail. cbn in *. lia.
      * by rewrite lookupN_insert_ne by done.
  - intros Hno. destruct (Heag Hno) as [Hz Eh]. destruct (He Hno) as [-> Er]. split; [done|]. rewrite Er in *. rewrite Eh in *.
    cbn in Hx. by injection Hx as <-.
Qed.

Lemma default_rounds n seed b : good_params n seed CCAlgConfiguration_default b →
  calc_cc_samples n (double_of_N 1) = Ok (num_samples b).
Proof using .
  intros Hp. destruct (new_sketch_inv _ _ _ _ (gp_new _ _ _ _ Hp)) as (len & samples & _ & E & Es & _).
  destruct (Sketch_new_members _ _ _ _ _ Es) as [-> _]. exact E.
Qed.
End Correct.

(** * Theorem *)

Section Reports.
Context `{P : Platform} `{!PlatformLaws P} {D V U : Type} `{UFL : UnionFindLaws D} `{UFV : UnionFindLaws V}.

(** C36. What the tool reports. For any number of graphs and samples, any shuffles,
    and the choices of the samples as [good_choice] says, the tool returns: no
    access leaves the histogram, every query is counted in it once, and every
    failure is counted among the queries of no round. In builds with the eager
    disjoint set union, which are the default, there is no failure and all
    queries are among those, whatever the hash function does: the sketches are
    not tested. *)
Theorem path_test_reports num_threads (INSERT : U) shuffled verifier_prio chosen n num_graphs samples_per_graph rounds
    (PT : Partitioned n num_threads) (Hn : 1 ≤ n < 2 ^ 32) (Hshuffle : ∀ g l, shuffled g l ≡ₚ l)
    (Hcount : num_graphs * samples_per_graph < 2 ^ 64) (Hrounds : calc_cc_samples n (double_of_N 1) = Ok rounds)
    (Hchosen : ∀ g s, g < num_graphs → s < samples_per_graph → ∃ b, good_choice n (path_edges (shuffled g (seqN 0 n))) (chosen g s) b)
    (Hbuild : NO_EAGER_DSU = true → NDEBUG = true) :
  ∃ r, test_path_correctness (D := D) (V := V) num_threads INSERT shuffled verifier_prio chosen n num_graphs samples_per_graph = Ok r ∧
    N.of_nat (length (num_round_hist r)) = rounds ∧ total (num_round_hist r) = num_graphs * samples_per_graph ∧
    num_failures r ≤ default 0 (num_round_hist r !! 0) ∧
    (NO_EAGER_DSU = false → num_failures r = 0 ∧
      num_round_hist r = num_graphs * samples_per_graph :: replicate (N.to_nat rounds - 1) 0).
Proof using PlatformLaws0 UFL UFV.
  assert (0 < rounds) as Hpos.
  { unfold calc_cc_samples in Hrounds. apply outcome_bind_inv in Hrounds as (c & _ & [= <-]). lia. }
  assert (wrap 32 <$> seqN 0 n = seqN 0 n) as Ev.
  { etrans; [apply (list_fmap_ext _ id)|apply list_fmap_id]. intros i x Hx%list_elem_of_lookup_2%elem_of_seqN. cbn [id]. apply wrap_small. lia. }
  unfold test_path_correctness. rewrite (wrap_small 32) by lia. rewrite Hrounds. cbn [mbind outcome_bind]. rewrite Ev.
  destruct (ofold_range (λ g r, counted rounds (g * samples_per_graph) r) 0 num_graphs
    (λ g, test_graph (D := D) (V := V) num_threads INSERT shuffled verifier_prio chosen n samples_per_graph g (seqN 0 n)))
    with (s := mkResults 0 (replicate (N.to_nat rounds) 0)) as (r & -> & [? ? ? ?]); [|rewrite N.mul_0_l; by apply counted_start|by exists r].
  intros g r Hg Hr. rewrite N.add_0_l. unfold test_graph. set (vs := shuffled g (seqN 0 n)).
  assert (NoDup vs) as Hnd by (unfold vs; rewrite Hshuffle; apply NoDup_seqN).
  assert (Forall (λ v, v < n) vs) as Hlt by (unfold vs; rewrite Hshuffle; apply Forall_forall; intros v Hv%elem_of_seqN; lia).
  assert (length vs = N.to_nat n) as Hlen by (unfold vs; by rewrite (Permutation_length (Hshuffle g _)), length_seqN).
  pose proof (Hchosen g) as Hch. fold vs in Hch. clearbody vs. destruct vs as [|v vs]; [cbn in Hlen; lia|]. cbn [path_edges] in *.
  change ((v :: vs) !! 0) with (Some v). cbn [of_option mbind outcome_bind].
  pose proof (path_from_valid n v vs Hnd Hlt) as Hes. pose proof (path_from_NoDup n v vs ltac:(lia) Hnd Hlt) as Hids.
  destruct (edge_updates_ok (D := V) n (verifier_prio g) _ ltac:(lia) Hes) as (gv & Egv & Hgv). rewrite (wrap_small 32) by lia.
  rewrite Egv. cbn [exec mbind outcome_bind]. rewrite toggles_NoDup in Hgv by done.
  destruct (ofold_range (λ s r, counted rounds (g * samples_per_graph + s) r) 0 samples_per_graph
    (λ s, test_sample (D := D) (V := V) num_threads INSERT n (path_from v vs) gv (chosen g s))) with (s := r) as (r' & Er & Hr'); [|by rewrite N.add_0_r|].
  - intros s r1 Hs Hr1. rewrite N.add_0_l, N.add_assoc. destruct (Hch s Hg Hs) as [b Hc].
    assert (num_samples b = rounds) as Hb by (pose proof (default_rounds _ _ _ (gc_params _ _ _ _ Hc)); congruence).
    apply (test_sample_counted num_threads INSERT n (path_from v vs) gv _ b); try done. nia.
  - exists r'. split; [exact Er|]. by replace ((g + 1) * samples_per_graph) with (g * samples_per_graph + samples_per_graph) by lia.
Qed.
End Reports.

(** * Concrete experiments *)

Definition back_and_forth (g : N) (l : list N) : list N := if N.even g then l else reverse l.

Lemma back_and_forth_perm g l : back_and_forth g l ≡ₚ l.
Proof. unfold back_and_forth. destruct (N.even g); [done|apply reverse_Permutation]. Qed.

Section DefaultBuild.
#[local] Existing Instance demo_platform.

Definition demo_choices : sample_choices := mkChoices 7 (λ i, i * 5 mod 7) demo_schedules demo_order.

(** Four queries on two paths. *)
Lemma path_test_reports_witness :
  test_path_correctness (D := DSU_MT) (V := DSU) 2 tt back_and_forth (λ _ i, i) (λ _ _, demo_choices) 6 2 2 =
    Ok (mkResults 0 (4 :: replicate 17 0)).
Proof.
  destruct (path_test_reports (D := DSU_MT) (V := DSU) 2 tt back_and_forth (λ _ i, i) (λ _ _, demo_choices) 6 2 2 18
    (exact_partitioned 6 2 (EP := exact_partition_pow2 6 1 ltac:(lia) ltac:(lia) ltac:(lia))) ltac:(split; [discriminate|reflexivity])
    back_and_forth_perm ltac:(reflexivity) ltac:(vm_compute; reflexivity)) as (r & E & _ & _ & _ & He).
  - intros g s _ _. exists demo_base. split; [exact demo_params|exact demo_order_perm|exact demo_order_perm|discriminate].
  - discriminate.
  - destruct (He eq_refl) as [Hf Hh]. rewrite E. destruct r as [f h]. cbn in Hf, Hh. by rewrite Hf, Hh.
Defined.
End DefaultBuild.

Section LazyBuild.
#[local] Existing Instance failing_platform.

Definition lazy_choices : sample_choices := mkChoices 7 (λ i, i * 5 mod 7) square_schedules square_order.

(** Without the eager disjoint set union the same experiment takes two rounds. *)
Example lazy_rounds :
  test_path_correctness (D := DSU_MT) (V := DSU) 2 tt back_and_forth (λ _ i, i) (λ _ _, lazy_choices) 4 2 2 =
    Ok (mkResults 0 (0 :: 0 :: 4 :: replicate 15 0)).
Proof. vm_compute. reflexivity. Qed.
End LazyBuild.
