(* ===== verification/Destroy.v ===== *)
(** The destructor of the driver (include/graph_sketch_driver.h) and of its
    workers (include/worker_thread_group.h), while the workers run.

    [~GraphSketchDriver] deletes the worker group, whose destructor stops and
    joins the workers, then the guttering system. [destructor_safe]: no worker
    acts once the guttering system is gone, nothing that was flushed is lost, and
    if no worker holds a stale result the queue is emptied. A waiting worker may
    wake up at any time here; whether the destructor ends is the matter of files
    Notify and Delete. *)
From stdpp Require Import relations.
From S2P Require Import Prelude Platform Util XorSet Bucket Sketch Dsu DsuMT Graph Forest Config CCAlg Partition MergeInstr Round Boruvka Queries Session Workers WorkersCorrect Driver DriverCorrect.

Open Scope N_scope.

(** * The group *)

Section Group.
Context {Q item : Type} `{WQL : WorkQueueLaws Q item}.
Implicit Type g : WorkerThreadGroup Q item.
Implicit Type w : WorkerThread item.

Definition ending (m : main_pc) : bool := match m with MDestroy | MStop _ | MJoin _ | MEnd => true | _ => false end.

(** Who holds the mutex; and nobody stops before the destructor runs. *)
Record group_ok g : Prop := {
  go_lock i w : workers g !! i = Some w → flush_lock g = Some (OwnedByWorker i) ↔ holds_lock (w_pc w) = true;
  go_main : flush_lock g = Some OwnedByMain ↔ main_holds (main g) = true;
  go_owner i : flush_lock g = Some (OwnedByWorker i) → i < num_workers g;
  go_alive i w : ending (main g) = false → workers g !! i = Some w → shutdown w = false ∧ w_pc w ≠ PExit
}.

(** One step of worker [i]. *)
Lemma do_work_lock i w g g' : do_work i w g = Some g' →
  (flush_lock g = Some (OwnedByWorker i) ↔ holds_lock (w_pc w) = true) →
  ∃ w', workers g' = <[i := w']> (workers g) ∧ main g' = main g ∧ shutdown w' = shutdown w ∧
    (flush_lock g' = Some (OwnedByWorker i) ↔ holds_lock (w_pc w') = true) ∧
    (flush_lock g' = flush_lock g ∨ (flush_lock g = None ∨ flush_lock g = Some (OwnedByWorker i)) ∧
      (flush_lock g' = None ∨ flush_lock g' = Some (OwnedByWorker i))) ∧
    (w_pc w' = PExit → shutdown w = true ∧ w_pc w = PTestShutdown) ∧ w_pc w ≠ PExit ∧
    queue_shrinks (gts g) (gts g') ∧ wq_non_block (gts g') = wq_non_block (gts g) ∧
    (w_pc w' = PTestShutdown → wq_items (gts g') = [] ∧ wq_non_block (gts g') = true).
Proof using WQL.
  intros E Hl. unfold do_work in E. destruct w as [pc sh dp pa]. cbn [w_pc shutdown do_pause paused] in *.
  assert (∀ q : Q, queue_shrinks q q) as Hrefl by done.
  destruct pc as [|x [|[v dsts] bs]| | | | | | | |]; try done.
  - destruct (get_data (gts g)) as [[[x|] q]|] eqn:Eg; [..|done]; injection E as <-; eexists; (split; [done|]); cbn.
    + destruct (get_data_item _ _ _ Eg) as [_ Hb]. split_and!; try done; [by left|by apply (get_data_shrinks _ (Some x))].
    + destruct (get_data_nothing _ _ Eg) as (Hq & Hb & ->). split_and!; try done. by left.
  - injection E as <-. eexists. split; [done|]. cbn. split_and!; try done; [by left| |apply callback_flag].
    intros Hq Hb. by rewrite callback_items, callback_flag.
  - injection E as <-. eexists. split; [by destruct (0 <? _)%nat|].
    destruct (0 <? length dsts)%nat; cbn; split_and!; try done; by left.
  - injection E as <-. eexists. split; [done|]. cbn. destruct sh; cbn; split_and!; try done; by left.
  - injection E as <-. eexists. split; [done|]. cbn. destruct dp; cbn; split_and!; try done; by left.
  - destruct (flush_lock g) eqn:El; [done|]. injection E as <-. eexists. split; [done|]. cbn. split_and!; try done. right. auto.
  - injection E as <-. eexists. split; [done|]. cbn. split_and!; try done. by left.
  - assert (flush_lock g = Some (OwnedByWorker i)) as El by by apply Hl.
    destruct (negb dp || sh); injection E as <-; (eexists; split; [done|]); cbn; split_and!; try done; [by left|right; auto].
  - destruct (flush_lock g) eqn:El; [done|]. injection E as <-. eexists. split; [done|]. cbn. split_and!; try done. right. auto.
  - assert (flush_lock g = Some (OwnedByWorker i)) as El by by apply Hl. injection E as <-.
    eexists. split; [done|]. cbn. split_and!; try done. right. auto.
Qed.

Lemma group_ok_worker i g g' : group_ok g → worker_step i g = Some g' → group_ok g'.
Proof using WQL.
  intros [Hl Hm Ho Ha] E. unfold worker_step in E. destruct (workers g !! i) as [w|] eqn:Hi; [|done]. cbn [mbind option_bind] in E.
  destruct (do_work_lock i w g g' E (Hl i w Hi)) as (w' & Ew & Em & Es & Hl' & Hstep & Hexit & _).
  assert (num_workers g' = num_workers g) as En by (unfold num_workers; by rewrite Ew, length_insertN).
  assert (i < num_workers g) as Hin by (apply lookupN_lt_Some in Hi; unfold num_workers; lia).
  split.
  - intros j wj Hj. rewrite Ew in Hj. destruct (decide (j = i)) as [->|Hne].
    + rewrite lookupN_insert_eq in Hj by (apply lookupN_lt_Some in Hi; lia). by injection Hj as <-.
    + rewrite lookupN_insert_ne in Hj by done. rewrite <-(Hl j wj Hj).
      destruct Hstep as [->|[Hs Hs']]; [done|]. destruct Hs as [->| ->], Hs' as [->| ->]; split; intros [=]; congruence.
  - rewrite Em, <-Hm. destruct Hstep as [->|[Hs Hs']]; [done|]. by destruct Hs as [->| ->], Hs' as [->| ->].
  - intros j Hj. rewrite En. destruct Hstep as [Hs|[_ [Hs|Hs]]]; rewrite Hs in Hj; [auto|done|]. by injection Hj as <-.
  - rewrite Em. intros j wj He Hj. rewrite Ew in Hj. destruct (decide (j = i)) as [->|Hne].
    + rewrite lookupN_insert_eq in Hj by (apply lookupN_lt_Some in Hi; lia). injection Hj as <-.
      destruct (Ha i w He Hi) as [Hs _]. split; [congruence|]. intros Hx. destruct (Hexit Hx) as [? _]. congruence.
    + rewrite lookupN_insert_ne in Hj by done. by apply (Ha j).
Qed.

(** A change of the counter, and of flags of one worker. *)
Lemma group_ok_main m lock f (j : N) g g' : group_ok g →
  workers g' = workers (update_worker j f g) → main g' = m → flush_lock g' = lock →
  (∀ w, w_pc (f w) = w_pc w ∧ (shutdown (f w) = shutdown w ∨ ending m = true)) →
  (lock = flush_lock g ∨ (flush_lock g = None ∨ flush_lock g = Some OwnedByMain) ∧ (lock = None ∨ lock = Some OwnedByMain)) →
  main_holds m = bool_decide (lock = Some OwnedByMain) → (ending (main g) = true → ending m = true) → group_ok g'.
Proof using .
  intros [Hl Hm Ho Ha] Ew Em El Hf Hlock Hh He.
  assert (∀ i w, workers g' !! i = Some w → ∃ w0, workers g !! i = Some w0 ∧ w_pc w = w_pc w0 ∧ (shutdown w = shutdown w0 ∨ ending m = true)) as Hw.
  { intros i w Hi. rewrite Ew in Hi. unfold update_worker in Hi. destruct (workers g !! j) as [wj|] eqn:Hj; [|by exists w; auto].
    cbn in Hi. destruct (decide (i = j)) as [->|Hne].
    - rewrite lookupN_insert_eq in Hi by (apply lookupN_lt_Some in Hj; lia). injection Hi as <-. exists wj. destruct (Hf wj). auto.
    - rewrite lookupN_insert_ne in Hi by done. exists w. auto. }
  assert (num_workers g' = num_workers g) as En.
  { unfold num_workers. rewrite Ew. unfold update_worker. destruct (workers g !! j); [cbn; by rewrite length_insertN|done]. }
  split.
  - intros i w Hi. destruct (Hw i w Hi) as (w0 & Hi0 & -> & _). rewrite El, <-(Hl i w0 Hi0).
    destruct Hlock as [->|[Hs Hs']]; [done|]. by destruct Hs as [->| ->], Hs' as [->| ->].
  - by rewrite El, Em, Hh, bool_decide_eq_true.
  - intros i Hi. rewrite El in Hi. rewrite En. destruct Hlock as [->|[_ [->| ->]]]; [auto|done|done].
  - intros i w Hend Hi. rewrite Em in Hend. destruct (Hw i w Hi) as (w0 & Hi0 & Ep & [Es|Es]); [|congruence].
    rewrite Ep, Es. apply (Ha i w0); [|done]. apply not_true_is_false. intros Hx. rewrite He in Hend by done. done.
Qed.

Lemma update_worker_id j g : workers (update_worker j id g) = workers g.
Proof using .
  unfold update_worker. destruct (workers g !! j) as [w|] eqn:Hj; [|done]. cbn. rewrite lookupN_eq in Hj.
  by apply list_insert_id.
Qed.

Lemma update_worker_lock j f g : flush_lock (update_worker j f g) = flush_lock g.
Proof using . unfold update_worker. by destruct (workers g !! j). Qed.

(** No worker changes. *)
Lemma group_ok_same m lock g g' : group_ok g → workers g' = workers g → main g' = m → flush_lock g' = lock →
  (lock = flush_lock g ∨ (flush_lock g = None ∨ flush_lock g = Some OwnedByMain) ∧ (lock = None ∨ lock = Some OwnedByMain)) →
  main_holds m = bool_decide (lock = Some OwnedByMain) → (ending (main g) = true → ending m = true) → group_ok g'.
Proof using .
  intros Hg Ew Em El. apply (group_ok_main m lock id 0); [done|by rewrite update_worker_id|done|done|]. auto.
Qed.

(** Outside the two places where main holds the mutex. *)
Lemma main_not_owner g : group_ok g → main_holds (main g) = false → false = bool_decide (flush_lock g = Some OwnedByMain).
Proof using . intros Hg Hm. symmetry. apply bool_decide_eq_false. rewrite (go_main g Hg), Hm. done. Qed.

Lemma group_ok_flush t g g' : group_ok g → flush_workers t g = Some g' → group_ok g'.
Proof using .
  intros Hg E. pose proof (main_not_owner g Hg) as Hno. pose proof (go_main g Hg) as Hm. unfold flush_workers in E.
  destruct (main g) as [| |i| | | | | | | | | | |] eqn:Em; try done; cbn in Hno, Hm.
  - injection E as <-. apply (group_ok_same (MPause 0) (flush_lock g) g); auto. by rewrite Em.
  - case_match; injection E as <-.
    + apply (group_ok_main (MPause (i + 1)) (flush_lock g) pause i g); auto; [by rewrite <-(update_worker_lock i pause g)|by rewrite Em].
    + apply (group_ok_same MLock (flush_lock g) g); auto. by rewrite Em.
  - destruct (flush_lock g) eqn:El; [done|]. injection E as <-. apply (group_ok_same MWaitFor (Some OwnedByMain) g); auto. by rewrite Em.
  - case_match; injection E as <-.
    + apply (group_ok_same MCheck (flush_lock g) g); auto; [|by rewrite Em]. symmetry. apply bool_decide_eq_true. by apply Hm.
    + apply (group_ok_same MSleep None g); auto; [|by rewrite Em]. right. split; [right; by apply Hm|by left].
  - destruct (flush_lock g) eqn:El; [done|]. injection E as <-.
    destruct t; [apply (group_ok_same MCheck (Some OwnedByMain) g)|apply (group_ok_same MWaitFor (Some OwnedByMain) g)]; auto; by rewrite Em.
  - injection E as <-. assert (flush_lock g = Some OwnedByMain) as El by by apply Hm.
    destruct (all_paused g); [apply (group_ok_same MFlushed None g)|apply (group_ok_same MLock None g)]; auto; by rewrite Em.
Qed.

Lemma group_ok_resume g g' : group_ok g → resume_workers g = Some g' → group_ok g'.
Proof using .
  intros Hg E. pose proof (main_not_owner g Hg) as Hno. unfold resume_workers in E.
  destruct (main g) as [| | | | | | | |i|i| | | |] eqn:Em; try done; cbn in Hno.
  - case_match; injection E as <-.
    + apply (group_ok_main (MClear i) (flush_lock g) unpause i g); auto; [by rewrite <-(update_worker_lock i unpause g)|by rewrite Em].
    + apply (group_ok_same MIdle (flush_lock g) g); auto. by rewrite Em.
  - injection E as <-. apply (group_ok_main (MUnpause (i + 1)) (flush_lock g) (set_paused false) i g); auto; [|by rewrite Em].
    by rewrite <-(update_worker_lock i (set_paused false) g).
Qed.

Lemma group_ok_start c g g' : group_ok g → start c g = Some g' → group_ok g'.
Proof using .
  intros Hg E. pose proof (main_not_owner g Hg) as Hno. unfold start in E.
  destruct c; destruct (main g) eqn:Em; try done; injection E as <-; cbn in Hno;
    (eapply (group_ok_same _ (flush_lock g) g); [done..|by left|by apply Hno|by rewrite Em]).
Qed.

Lemma group_ok_queue q g : group_ok g → group_ok (set_gts q g).
Proof using . intros [Hl Hm Ho Ha]. by split. Qed.

Lemma group_ok_new k (q : Q) : group_ok (WorkerThreadGroup_new k q).
Proof using .
  split; cbn; try done.
  - intros i w Hi. rewrite lookupN_eq in Hi. apply lookup_replicate in Hi as [-> _]. done.
  - intros i w _ Hi. rewrite lookupN_eq in Hi. apply lookup_replicate in Hi as [-> _]. done.
Qed.

Lemma group_ok_destroy g g' : group_ok g → destroy g = Some g' → group_ok g'.
Proof using .
  intros Hg E. pose proof (main_not_owner g Hg) as Hno. unfold destroy in E.
  destruct (main g) as [| | | | | | | | | | |i|i|] eqn:Em; try done; cbn in Hno.
  - injection E as <-. apply (group_ok_same (MStop 0) (flush_lock g) g); auto.
  - case_match; injection E as <-.
    + apply (group_ok_main (MStop (i + 1)) (flush_lock g) stop i g); auto. by rewrite <-(update_worker_lock i stop g).
    + apply (group_ok_same (MJoin 0) (flush_lock g) g); auto.
  - repeat (case_match; try done); injection E as <-;
      [apply (group_ok_same (MJoin (i + 1)) (flush_lock g) g)|apply (group_ok_same MEnd (flush_lock g) g)]; auto.
Qed.

(** ** While the destructor runs *)

Definition stopped (n : N) (m : main_pc) : N := match m with MStop i => i | MJoin _ | MEnd => n | _ => 0 end.
Definition joined (n : N) (m : main_pc) : N := match m with MJoin i => i | MEnd => n | _ => 0 end.

Record dying_inv (n : N) g : Prop := {
  dy_ok : group_ok g;
  dy_n : num_workers g = n;
  dy_ending : ending (main g) = true;
  dy_block : main g ≠ MDestroy → wq_non_block (gts g) = true;
  dy_bound : stopped n (main g) ≤ n ∧ joined n (main g) ≤ n;
  dy_stopped i w : i < stopped n (main g) → workers g !! i = Some w → shutdown w = true;
  dy_joined i w : i < joined n (main g) → workers g !! i = Some w → w_pc w = PExit
}.

Lemma dying_start g g' : group_ok g → start CDestroy g = Some g' → dying_inv (num_workers g) g' ∧ workers g' = workers g ∧ gts g' = gts g.
Proof using .
  intros Hg E. pose proof (group_ok_start CDestroy g g' Hg E) as Hg'. unfold start in E.
  destruct (main g); try done; injection E as <-; (split; [|done]; split; cbn; [done|done|done|done|lia|lia|lia]).
Qed.

Lemma dying_worker n i g g' : dying_inv n g → worker_step i g = Some g' → dying_inv n g' ∧ main g' = main g.
Proof using WQL.
  intros [Hok Hn He Hb Hbd Hs Hj] E. pose proof (group_ok_worker i g g' Hok E) as Hok'. unfold worker_step in E.
  destruct (workers g !! i) as [w|] eqn:Hi; [|done]. cbn [mbind option_bind] in E.
  destruct (do_work_lock i w g g' E (go_lock g Hok i w Hi)) as (w' & Ew & Em & Esh & _ & _ & _ & Hpc & _ & Enb & _).
  assert (∀ j wj, workers g' !! j = Some wj → j = i ∧ wj = w' ∨ j ≠ i ∧ workers g !! j = Some wj) as Hcase.
  { intros j wj Hj'. rewrite Ew in Hj'. destruct (decide (j = i)) as [->|Hne].
    - rewrite lookupN_insert_eq in Hj' by (apply lookupN_lt_Some in Hi; lia). injection Hj' as <-. by left.
    - rewrite lookupN_insert_ne in Hj' by done. by right. }
  split; [|done]. split; rewrite ?Em, ?Enb; try done.
  - unfold num_workers in *. by rewrite Ew, length_insertN.
  - intros j wj Hlt Hj'. destruct (Hcase j wj Hj') as [[-> ->]|[_ Hj0]]; [rewrite Esh; by apply (Hs i)|by apply (Hs j)].
  - intros j wj Hlt Hj'. destruct (Hcase j wj Hj') as [[-> ->]|[_ Hj0]]; [destruct (Hpc (Hj i w Hlt Hi))|by apply (Hj j)].
Qed.

Lemma dying_destroy n g g' : dying_inv n g → destroy g = Some g' → dying_inv n g' ∧
  (∀ i w', workers g' !! i = Some w' → ∃ w, workers g !! i = Some w ∧ w_pc w' = w_pc w) ∧
  (gts g' = gts g ∨ gts g' = set_non_block true (gts g)).
Proof using WQL.
  intros [Hok Hn He Hb Hbd Hs Hj] E. pose proof (group_ok_destroy g g' Hok E) as Hok'. unfold destroy in E.
  destruct (main g) as [| | | | | | | | | | |i|i|] eqn:Em; try done; cbn in Hbd, Hs, Hj.
  - injection E as <-. split; [|split; [by eauto|by right]]. split; cbn; try done; try lia.
    + intros _. apply set_non_block_flag.
  - rewrite Hn in E. destruct (N.ltb_spec i n) as [Hlt|Hge]; injection E as <-.
    + assert (num_workers (update_worker i stop g) = num_workers g) as En.
      { unfold update_worker, num_workers. destruct (workers g !! i); [cbn; by rewrite length_insertN|done]. }
      destruct (lookupN_lt_is_Some (workers g) i) as [wi Hwi]; [unfold num_workers in Hn; lia|].
      assert (∀ j w', workers (update_worker i stop g) !! j = Some w' → j = i ∧ w' = stop wi ∨ j ≠ i ∧ workers g !! j = Some w') as Hcase.
      { intros j w' Hj'. unfold update_worker in Hj'. rewrite Hwi in Hj'. cbn in Hj'. destruct (decide (j = i)) as [->|Hne].
        - rewrite lookupN_insert_eq in Hj' by (apply lookupN_lt_Some in Hwi; lia). injection Hj' as <-. by left.
        - rewrite lookupN_insert_ne in Hj' by done. by right. }
      assert (gts (update_worker i stop g) = gts g) as Eg by (unfold update_worker; by rewrite Hwi).
      split; [|split; [|by left]].
      * split; cbn; try done; try lia.
        -- by rewrite <-Hn, <-En.
        -- intros _. rewrite Eg. by apply Hb.
        -- intros j w' Hlt' Hj'. destruct (Hcase j w' Hj') as [[-> ->]|[Hne Hj0]]; [done|]. apply (Hs j); [lia|done].
      * intros j w' Hj'. destruct (Hcase j w' Hj') as [[-> ->]|[Hne Hj0]]; eauto.
    + split; [|split; [by eauto|by left]]. split; cbn; try done; try lia.
      * intros _. by apply Hb.
      * intros j w Hlt Hj'. apply (Hs j); [lia|done].
  - destruct (workers g !! i) as [w|] eqn:Hi.
    + destruct (w_pc w) eqn:Epc; try done. injection E as <-. split; [|split; [by eauto|by left]].
      assert (i < n) as Hin by (apply lookupN_lt_Some in Hi; unfold num_workers in Hn; lia).
      split; cbn; try done; try lia.
      * intros _. by apply Hb.
      * intros j wj Hlt Hj'. destruct (decide (j = i)) as [->|Hne]; [congruence|]. apply (Hj j); [lia|done].
    + injection E as <-. split; [|split; [by eauto|by left]]. split; cbn; try done; try lia.
      * intros _. by apply Hb.
      * intros j wj Hlt Hj'. apply (Hj j); [|done]. rewrite lookupN_eq in Hi. apply lookup_ge_None in Hi. unfold num_workers in Hn.
        apply lookupN_lt_Some in Hj'. lia.
Qed.

Lemma destroy_batches g g' : destroy g = Some g' → same_batches g g'.
Proof using WQL.
  unfold destroy. intros E.
  destruct (main g) as [| | | | | | | | | | |i|i|]; try done; repeat (case_match; try done); injection E as <-;
    first [apply set_non_block_batches|by apply update_worker_batches|by apply (same_batches_lock (flush_lock g))].
Qed.

(** ** Results that are not stale *)

(** Who is about to stop has seen the queue empty. *)
Definition seen_empty g : Prop := ∀ i w, workers g !! i = Some w → w_pc w = PTestShutdown ∨ w_pc w = PExit →
  wq_items (gts g) = [] ∧ wq_non_block (gts g) = true.

Lemma seen_empty_worker i g g' : group_ok g → seen_empty g → worker_step i g = Some g' → seen_empty g'.
Proof using WQL.
  intros Hok Hs E. unfold worker_step in E. destruct (workers g !! i) as [w|] eqn:Hi; [|done]. cbn [mbind option_bind] in E.
  destruct (do_work_lock i w g g' E (go_lock g Hok i w Hi)) as (w' & Ew & _ & _ & _ & _ & Hexit & _ & Hq & _ & Hempty).
  intros j wj Hj Hpc. rewrite Ew in Hj. destruct (decide (j = i)) as [->|Hne].
  - rewrite lookupN_insert_eq in Hj by (apply lookupN_lt_Some in Hi; lia). injection Hj as <-.
    destruct Hpc as [Hpc|Hpc]; [by apply Hempty|]. destruct (Hexit Hpc) as [_ Hw]. destruct (Hs i w Hi (or_introl Hw)). auto.
  - rewrite lookupN_insert_ne in Hj by done. destruct (Hs j wj Hj Hpc). auto.
Qed.

Lemma seen_empty_destroy n g g' : dying_inv n g → seen_empty g → destroy g = Some g' → seen_empty g'.
Proof using WQL.
  intros Hd Hs E. destruct (dying_destroy n g g' Hd E) as (_ & Hw & Hq). intros i w' Hi Hpc.
  destruct (Hw i w' Hi) as (w & Hi0 & Epc). rewrite Epc in Hpc. destruct (Hs i w Hi0 Hpc) as [Hq0 Hb].
  destruct Hq as [->| ->]; [done|]. by rewrite set_non_block_items, set_non_block_flag.
Qed.

(** ** What the destructor waits for *)

(** Steps before the worker has exited. *)
Definition exit_weight w : nat :=
  match w_pc w with
  | PExit => 0
  | PTestShutdown => 1
  | PGet => 2
  | PUnpause => 3
  | PTestWait => 4
  | PPause | PWait => 5
  | PLock => 6
  | PTestPause => 7
  | PBatches _ todo => 3 + length todo
  end.

Definition dying_weight g : nat :=
  weight exit_weight (workers g) + weight (λ x, 2 + length (get_batches x))%nat (wq_items (gts g)).

(** Steps of the destructor itself. *)
Definition main_weight (n : N) (m : main_pc) : nat :=
  match m with
  | MDestroy => 2 * N.to_nat n + 4
  | MStop i => (N.to_nat n - N.to_nat i) + N.to_nat n + 3
  | MJoin i => (N.to_nat n - N.to_nat i) + 1
  | _ => 0
  end%nat.

Ltac weigh Hwi :=
  unfold dying_weight; cbn [gts workers put_worker set_gts set_lock batch_callback];
  match goal with |- context [<[_ := ?w']> (workers _)] => specialize (Hwi w') end;
  cbv [exit_weight w_pc set_pc set_paused shutdown do_pause paused negb orb andb] in Hwi |- *; simpl in Hwi |- *; lia.

(** A worker that was stopped moves towards its end, unless it needs the lock. *)
Lemma stopped_moves n g i w : dying_inv n g → stopped n (main g) = n → workers g !! i = Some w → w_pc w ≠ PExit →
  (w_pc w = PLock ∨ w_pc w = PWait → flush_lock g = None) →
  ∃ g', worker_step i g = Some g' ∧ (dying_weight g' < dying_weight g)%nat.
Proof using WQL.
  intros Hd Hst Hi Hpc Hlk. assert (i < n) as Hin.
  { rewrite <-(dy_n n g Hd). apply lookupN_lt_Some in Hi. unfold num_workers. lia. }
  assert (shutdown w = true) as Hs by (apply (dy_stopped n g Hd i w); [by rewrite Hst|done]).
  assert (wq_non_block (gts g) = true) as Hb.
  { apply (dy_block n g Hd). intros Em. rewrite Em in Hst. cbn in Hst. lia. }
  pose proof (λ w', weight_insert exit_weight (workers g) i w w' Hi) as Hwi.
  unfold worker_step. rewrite Hi. cbn [mbind option_bind]. unfold do_work.
  destruct w as [pc sh dp pa]. cbn [w_pc shutdown do_pause paused] in *. subst sh.
  destruct pc as [|x [|[v dsts] bs]| | | | | | | |]; try done.
  - destruct (get_data_returns (gts g) Hb) as [[[x|] q] Eg]; rewrite Eg; (eexists; split; [done|]).
    + destruct (get_data_item _ _ _ Eg) as [Hp _]. unfold dying_weight at 2. rewrite (weight_perm _ _ _ Hp). weigh Hwi.
    + destruct (get_data_nothing _ _ Eg) as (_ & _ & ->). weigh Hwi.
  - eexists. split; [done|]. unfold dying_weight at 1. cbn [gts put_worker set_gts]. rewrite callback_items. weigh Hwi.
  - eexists. split; [done|]. destruct (0 <? length dsts)%nat; weigh Hwi.
  - eexists. split; [done|]. weigh Hwi.
  - eexists. split; [done|]. destruct dp; weigh Hwi.
  - rewrite Hlk by auto. eexists. split; [done|]. weigh Hwi.
  - eexists. split; [done|]. weigh Hwi.
  - rewrite orb_true_r. eexists. split; [done|]. weigh Hwi.
  - rewrite Hlk by auto. eexists. split; [done|]. weigh Hwi.
  - eexists. split; [done|]. weigh Hwi.
Qed.

(** So some worker moves, the owner of the lock first. *)
Lemma some_worker_moves n g i w : dying_inv n g → stopped n (main g) = n → workers g !! i = Some w → w_pc w ≠ PExit →
  ∃ j g', worker_step j g = Some g' ∧ (dying_weight g' < dying_weight g)%nat.
Proof using WQL.
  intros Hd Hst Hi Hpc. pose proof (dy_ok n g Hd) as Hok. destruct (flush_lock g) as [[j|]|] eqn:El.
  - pose proof (go_owner g Hok j El) as Hj. destruct (lookupN_lt_is_Some (workers g) j) as [wj Hwj]; [unfold num_workers in Hj; lia|].
    pose proof (proj1 (go_lock g Hok j wj Hwj) El) as Hh. exists j.
    apply (stopped_moves n g j wj Hd Hst Hwj); [intros E; by rewrite E in Hh|intros [E|E]; by rewrite E in Hh].
  - apply (go_main g Hok) in El. pose proof (dy_ending n g Hd) as He. by destruct (main g).
  - exists i. by apply (stopped_moves n g i w Hd Hst Hi Hpc).
Qed.

Lemma update_worker_weight (i : N) g : weight exit_weight (workers (update_worker i stop g)) = weight exit_weight (workers g).
Proof using .
  unfold update_worker. destruct (workers g !! i) as [w|] eqn:Hi; [|done]. cbn [workers put_worker].
  pose proof (weight_insert exit_weight (workers g) i w (stop w) Hi) as Hw. unfold exit_weight at 2 4 in Hw. cbn in Hw. lia.
Qed.

Lemma destroy_lighter n g g' : dying_inv n g → destroy g = Some g' →
  dying_weight g' = dying_weight g ∧ (main_weight n (main g') < main_weight n (main g))%nat.
Proof using WQL.
  intros Hd E. pose proof (dy_n n g Hd) as Hn. pose proof (dy_bound n g Hd) as Hbd. unfold destroy in E. unfold dying_weight.
  destruct (main g) as [| | | | | | | | | | |i|i|] eqn:Em; try done; cbn in Hbd.
  - injection E as <-. cbn. rewrite set_non_block_items. split; [done|]. cbn. lia.
  - rewrite Hn in E. destruct (N.ltb_spec i n) as [Hlt|Hge]; injection E as <-; cbn [workers gts main set_main].
    + rewrite update_worker_weight. split; [unfold update_worker; by destruct (workers g !! i)|]. cbn. lia.
    + split; [done|]. cbn. lia.
  - destruct (workers g !! i) as [w|] eqn:Hi.
    + destruct (w_pc w); try done. injection E as <-. split; [done|]. cbn. apply lookupN_lt_Some in Hi. unfold num_workers in Hn. lia.
    + injection E as <-. split; [done|]. cbn. lia.
Qed.
End Group.

(** * The driver *)

(** Where [~GraphSketchDriver] is; what follows [AtGts] concerns only memory. *)
Inductive destructor_pc : Type :=
| AtWorkers  (** [delete worker_threads] *)
| AtGts      (** [delete gts] *)
| AtEnd.

Record destructing (Q item D S U : Type) : Type := mkDestructing {
  x_pc : destructor_pc;
  x_driver : GraphSketchDriver Q item D S U
}.
Arguments mkDestructing {Q item D S U}.
Arguments x_pc {Q item D S U}.
Arguments x_driver {Q item D S U}.

Section Driver.
Context `{P : Platform} {Q item D S U : Type} `{GTS : GutteringSystem Q item} `{UF : UnionFind D}
  `{ST : GraphStream S U}.
Implicit Type d : GraphSketchDriver Q item D S U.
Implicit Type x : destructing Q item D S U.

(** The owner deletes the driver between two calls. *)
Definition begin_destructor d : option (destructing Q item D S U) :=
  match ph d with
  | PhIdle => g ← start CDestroy (worker_threads d); Some (mkDestructing AtWorkers (set_group g d))
  | _ => None
  end.

Definition destructor x : option (destructing Q item D S U) :=
  let d := x_driver x in
  match x_pc x with
  | AtWorkers =>
      match main (worker_threads d) with
      | MEnd => Some (mkDestructing AtGts d)
      | _ => g ← destroy (worker_threads d); Some (mkDestructing AtWorkers (set_group g d))
      end
  | AtGts => Some (mkDestructing AtEnd d)
  | AtEnd => None
  end.

Inductive destructor_step : relation (destructing Q item D S U) :=
| DestructorWorker i x d' : running (x_driver x) = true → driver_worker i (x_driver x) = Some d' →
    destructor_step x (mkDestructing (x_pc x) d')
| DestructorMain x x' : destructor x = Some x' → destructor_step x x'.

Definition destructor_perform (m : option N) x : option (destructing Q item D S U) :=
  match m with
  | Some i => if running (x_driver x) then mkDestructing (x_pc x) <$> driver_worker i (x_driver x) else None
  | None => destructor x
  end.

(** Moves that are not possible are skipped. *)
Definition destructor_execute (ms : list (option N)) x : destructing Q item D S U :=
  foldl (λ x m, default x (destructor_perform m x)) x ms.

Lemma destructor_execute_steps ms x : rtc destructor_step x (destructor_execute ms x).
Proof using .
  unfold destructor_execute. revert x. induction ms as [|m ms IH]; intros x; [done|]. simpl.
  destruct (destructor_perform m x) as [x1|] eqn:E; [|apply IH]. apply (rtc_l _ _ x1); [|apply IH].
  destruct m as [i|]; simpl in E; [|by apply DestructorMain]. destruct (running (x_driver x)) eqn:Er; [|done].
  destruct (driver_worker i (x_driver x)) as [d'|] eqn:Ed; [|done]. injection E as <-. by apply (DestructorWorker i).
Qed.
End Driver.

(** ** The group in every run *)

Section Runs.
Context `{P : Platform} `{!PlatformLaws P} {Q item D S U : Type} `{GL : GutteringLaws Q item}
  `{UFL : UnionFindLaws D} `{ST : GraphStream S U}.
Implicit Type d : GraphSketchDriver Q item D S U.
Implicit Type x : destructing Q item D S U.

Context (n k : N) (b : Sketch) (G : gset N) (stream_ok : S → Prop).

Abbreviation inv := (driver_inv n k b G stream_ok).

(** Outside its destructor; idle between calls. *)
Record driver_ok d : Prop := {
  ok_group : group_ok (worker_threads d);
  ok_alive : ending (main (worker_threads d)) = false;
  ok_idle : ph d = PhIdle → main (worker_threads d) = MIdle ∨ main (worker_threads d) = MFlushed;
  ok_stream : ph d = PhStream → main (worker_threads d) = MIdle
}.

Lemma driver_ok_worker i d d' : inv d → driver_ok d → driver_worker i d = Some d' → driver_ok d'.
Proof using GL PlatformLaws0.
  intros HI [Hg Ha Hi Hs] E. destruct (driver_worker_inv n k b G stream_ok i d d' HI E) as (_ & Ep & _ & Ew).
  destruct (worker_step_effect i _ _ Ew) as (_ & _ & Em & _).
  split; rewrite ?Em, ?Ep; try done. by apply (group_ok_worker i (worker_threads d)).
Qed.

Lemma driver_ok_flush t d d' : driver_ok d → driver_flush t d = Some d' → driver_ok d'.
Proof using .
  intros [Hg Ha Hi Hs] E. unfold driver_flush in E. destruct (ph d) eqn:Eph; try done.
  assert (∀ g, flush_workers t (worker_threads d) = Some g → driver_ok (set_group g d)) as Hrun.
  { intros g Eg. split; cbn; [by apply (group_ok_flush t (worker_threads d))| |by rewrite Eph..].
    unfold flush_workers in Eg. destruct (main (worker_threads d)); try done; repeat (case_match; try done); by injection Eg as <-. }
  destruct (main (worker_threads d)) eqn:Em; try (destruct (flush_workers t _) as [g|]; [|done]; injection E as <-; by apply Hrun).
  injection E as <-. split; cbn; [done|by rewrite Em|by right|done].
Qed.

Lemma driver_ok_resume d d' : driver_ok d → driver_resume d = Some d' → driver_ok d'.
Proof using .
  intros [Hg Ha Hi Hs] E. unfold driver_resume in E. destruct (ph d) eqn:Eph; try done.
  assert (∀ g, resume_workers (worker_threads d) = Some g → driver_ok (set_group g d)) as Hrun.
  { intros g Eg. split; cbn; [by apply (group_ok_resume (worker_threads d))| |by rewrite Eph..].
    unfold resume_workers in Eg. destruct (main (worker_threads d)); try done; repeat (case_match; try done); by injection Eg as <-. }
  destruct (main (worker_threads d)) eqn:Em; try (destruct (resume_workers _) as [g|]; [|done]; injection E as <-; by apply Hrun).
  injection E as <-. split; cbn; [done|by rewrite Em|done|done].
Qed.

Lemma driver_ok_start c g d p : (c = CFlush ∨ c = CResume) → driver_ok d → start c (worker_threads d) = Some g →
  p ≠ PhIdle → p ≠ PhStream → driver_ok (set_ph p (set_group g d)).
Proof using .
  intros Hc [Hg Ha Hi Hs] E Hp Hp'. split; cbn; [by apply (group_ok_start c (worker_threads d))| |done|done].
  unfold start in E. destruct Hc as [->| ->], (main (worker_threads d)); try done; by injection E as <-.
Qed.

Lemma driver_ok_step d d' : inv d → driver_ok d → driver_step d d' → driver_ok d'.
Proof using GL PlatformLaws0.
  intros HI Hok Hs. destruct Hs as [d d' Hf|idx d d' E|d d' E|t d d' E|d d' E|code d d' E].
  - destruct Hf as [i d d' _ E|t d d' E]; [by apply (driver_ok_worker i d)|by apply (driver_ok_flush t d)].
  - unfold process_stream_until in E. destruct (ph d) eqn:Eph; try done. destruct (set_break_point idx (stream d)) as [s [|]].
    + destruct (start CResume (worker_threads d)) as [g|] eqn:Eg; [|done]. injection E as <-.
      apply (driver_ok_start CResume g (set_stream s d)); auto. by destruct Hok.
    + injection E as <-. by destruct Hok.
  - by apply driver_ok_resume with d.
  - destruct Hok as [Hg Ha Hi Hs]. unfold stream_task in E. destruct (ph d) eqn:Eph; try done.
    destruct (threads d !! t) as [[[|e ins] [|u us] st]|]; try done; cbn [mbind option_bind t_inserts t_updates t_done] in E;
      [destruct st; [done|]; destruct (get_update_buffer _ _) as [s us]; destruct (until_breakpoint us)|
       destruct (pre_insert _ _) as [alg []]|..]; injection E as <-; split; cbn; rewrite ?Eph; auto using group_ok_queue.
  - unfold join_threads in E. destruct Hok as [Hg Ha Hi Hs]. destruct (ph d) eqn:Eph; try done. destruct (forallb finished (threads d)); [|done].
    injection E as <-. split; cbn; auto.
  - unfold prep_query in E. destruct (ph d) eqn:Eph; try done. destruct (has_cached_query code (sketching_alg d)); [by injection E as <-|].
    destruct (start CFlush _) as [g|] eqn:Eg; [|done]. injection E as <-.
    apply (driver_ok_start CFlush g (set_queue (force_flush (gts (worker_threads d))) d)); auto.
    destruct Hok as [Hg Ha Hi Hs]. split; cbn; auto using group_ok_queue.
Qed.

Lemma driver_ok_protocol T (PT : Partitioned n T) (HG : graph n G) (stream_valid : StreamSound n stream_ok) d d' :
  rtc (protocol_step n k b G T) d d' → inv d → driver_ok d → inv d' ∧ driver_ok d'.
Proof using GL PlatformLaws0.
  induction 1 as [|d d1 d2 Hs _ IH]; [done|]. intros HI Hok. apply IH; [by apply (protocol_step_inv n k b G stream_ok stream_valid T PT HG d)|].
  destruct Hs as [d d1 Hs|c d d1 r _ _ _ _ E]; [by apply (driver_ok_step d)|]. unfold driver_query in E.
  destruct (ph d) eqn:Eph; try done. assert (∀ alg, driver_ok (set_alg alg d)) as Hq by (intros alg; by destruct Hok).
  destruct (run_call T c (sketching_alg d)) as [alg [[]|e| |]]; try done; injection E as <- _; apply Hq.
Qed.
(** ** While the destructor runs *)

(** No worker has been told, before, that there is nothing to do. *)
Definition fresh_results (g : WorkerThreadGroup Q item) : Prop :=
  ∀ i w, workers g !! i = Some w → w_pc w ≠ PTestShutdown.

(** [d] is the driver before the call. *)
Record destructing_inv d x : Prop := {
  xi_inv : inv (x_driver x);
  xi_phase : ph (x_driver x) = PhIdle;
  xi_group : dying_inv k (worker_threads (x_driver x));
  xi_end : x_pc x ≠ AtWorkers → main (worker_threads (x_driver x)) = MEnd;
  xi_handled : handled (x_driver x) = handled d;
  xi_flow : (strip <$> log (worker_threads (x_driver x))) ++ pending (worker_threads (x_driver x)) ≡ₚ
    (strip <$> log (worker_threads d)) ++ pending (worker_threads d);
  xi_log : log (worker_threads d) `prefix_of` log (worker_threads (x_driver x));
  xi_buffered : buffered (gts (worker_threads (x_driver x))) = buffered (gts (worker_threads d));
  xi_fresh : fresh_results (worker_threads d) → seen_empty (worker_threads (x_driver x))
}.

Lemma same_batches_buffered (g g' : WorkerThreadGroup Q item) : same_batches g g' → buffered (gts g') = buffered (gts g).
Proof using GL. intros (_ & _ & _ & [->|[c ->]]); [done|apply set_non_block_buffered]. Qed.

Lemma begin_destructor_inv d x : inv d → driver_ok d → begin_destructor d = Some x → destructing_inv d x.
Proof using GL.
  intros HI Hok E. unfold begin_destructor in E. destruct (ph d) eqn:Eph; try done.
  destruct (start CDestroy (worker_threads d)) as [g|] eqn:Eg; [|done]. injection E as <-.
  destruct (dying_start _ g (ok_group d Hok) Eg) as (Hd & Ew & Eq). rewrite (di_workers _ _ _ _ _ _ HI) in Hd.
  pose proof (start_batches CDestroy (worker_threads d) g ltac:(done) Eg) as Hb. pose proof (same_batches_buffered _ _ Hb) as Hbuf.
  split; cbn; try done.
  - apply (set_group_inv n k b G stream_ok d g (ph d)); [done|done|by rewrite Eph|done].
  - destruct Hb as (_ & -> & -> & _). done.
  - destruct Hb as (_ & -> & _). done.
  - intros Hf i w Hi. rewrite Ew in Hi. pose proof (Hf i w Hi). destruct (go_alive _ (ok_group d Hok) i w (ok_alive d Hok) Hi) as [_ Hx].
    by intros [?|?].
Qed.

Lemma begin_destructor_idle d : driver_ok d → ph d = PhIdle → is_Some (begin_destructor d).
Proof using .
  intros Hok Ep. unfold begin_destructor. rewrite Ep. unfold start. destruct (ok_idle d Hok Ep) as [->| ->]; by eexists.
Qed.

(** A step of the group's destructor is one of the driver's. *)
Lemma destructing_group d x g : destructing_inv d x → destroy (worker_threads (x_driver x)) = Some g →
  destructing_inv d (mkDestructing AtWorkers (set_group g (x_driver x))).
Proof using GL.
  intros [HI Hp Hg He Hh Hf Hl Hb Hfr] E. pose proof (destroy_batches _ g E) as Hs. pose proof (same_batches_buffered _ _ Hs) as Hbuf.
  split; cbn; try done.
  - apply (set_group_inv n k b G stream_ok (x_driver x) g (ph (x_driver x))); [done|done|by rewrite Hp|done].
  - by apply (dying_destroy k (worker_threads (x_driver x))).
  - destruct Hs as (_ & -> & -> & _). exact Hf.
  - by destruct Hs as (_ & -> & _).
  - congruence.
  - intros Hfr'. by apply (seen_empty_destroy k (worker_threads (x_driver x))); [|apply Hfr|].
Qed.

Lemma destructing_worker i d x d' : destructing_inv d x → driver_worker i (x_driver x) = Some d' →
  destructing_inv d (mkDestructing (x_pc x) d').
Proof using GL PlatformLaws0.
  intros [HI Hp Hg He Hh Hf Hl Hb Hfr] E.
  destruct (driver_worker_inv n k b G stream_ok i _ d' HI E) as (HI' & Ep & Eh & Ew).
  destruct (worker_step_effect i _ _ Ew) as (_ & _ & Em & Hq & (new & El & _) & Hperm).
  split; cbn; try congruence.
  - by apply (dying_worker k i (worker_threads (x_driver x))).
  - intros Hpc. rewrite Em. by apply He.
  - by rewrite Hperm.
  - rewrite El. by apply prefix_app_r.
  - by rewrite (queue_step_buffered _ _ Hq).
  - intros Hfr'. apply (seen_empty_worker i (worker_threads (x_driver x))); [apply Hg|by apply Hfr|done].
Qed.

Lemma destructing_step d x x' : destructing_inv d x → destructor_step x x' → destructing_inv d x'.
Proof using GL PlatformLaws0.
  intros HX Hs. destruct Hs as [i x d' _ E|x x' E]; [by apply (destructing_worker i)|].
  unfold destructor in E. destruct (x_pc x) eqn:Epc; [|injection E as <-; by destruct HX as [? ? ? He]; split; cbn; try done; intros _; apply He; rewrite Epc|done].
  destruct (main (worker_threads (x_driver x))) eqn:Em;
    try (destruct (destroy _) as [g|] eqn:Eg; [|done]; injection E as <-; by apply destructing_group).
  injection E as <-. destruct HX. by split.
Qed.

Lemma destructing_steps d x x' : rtc destructor_step x x' → destructing_inv d x → destructing_inv d x'.
Proof using GL PlatformLaws0. induction 1; [done|]. intros HX. eauto using destructing_step. Qed.

(** Once the workers are gone. *)
Lemma destructing_exited d x : destructing_inv d x → x_pc x ≠ AtWorkers →
  ∀ i w, workers (worker_threads (x_driver x)) !! i = Some w → w_pc w = PExit.
Proof using .
  intros HX Hpc i w Hi. pose proof (xi_group d x HX) as Hd. apply (dy_joined k _ Hd i w); [|done].
  rewrite (xi_end d x HX Hpc). cbn. rewrite <-(dy_n k _ Hd). apply lookupN_lt_Some in Hi. unfold num_workers. lia.
Qed.

Lemma destructing_still d x i : destructing_inv d x → x_pc x ≠ AtWorkers → worker_step i (worker_threads (x_driver x)) = None.
Proof using .
  intros HX Hpc. unfold worker_step. destruct (workers (worker_threads (x_driver x)) !! i) as [w|] eqn:Hi; [|done].
  cbn [mbind option_bind]. unfold do_work. by rewrite (destructing_exited d x HX Hpc i w Hi).
Qed.

(** Then nothing is pending, unless a worker went by an old result. *)
Lemma destructing_drained d x : 0 < k → destructing_inv d x → x_pc x ≠ AtWorkers →
  fresh_results (worker_threads d) ∨ pending (worker_threads d) = [] → pending (worker_threads (x_driver x)) = [].
Proof using .
  intros Hk HX Hpc [Hf|Hd].
  - pose proof (destructing_exited d x HX Hpc) as Hex. unfold pending, queued.
    pose proof (xi_fresh d x HX Hf) as Hs. pose proof (dy_n k _ (xi_group d x HX)) as Hn. unfold num_workers in Hn.
    destruct (lookupN_lt_is_Some (workers (worker_threads (x_driver x))) 0) as [w Hw]; [lia|].
    destruct (Hs 0 w Hw) as [-> _]; [by right; apply (Hex 0)|]. cbn. rewrite app_nil_r.
    assert (∀ l : list (WorkerThread item), (∀ w, w ∈ l → w_pc w = PExit) → l ≫= in_progress = []) as Hnil.
    { induction l as [|v l IH]; intros Hl; [done|]. cbn [mbind list_bind]. unfold in_progress at 1.
      rewrite (Hl v) by left. apply IH. intros v' Hv. apply Hl. by right. }
    apply Hnil. intros v [i Hi]%list_elem_of_lookup. apply (Hex (N.of_nat i)). by rewrite lookupN_eq, Nat2N.id.
  - pose proof (Permutation_length (xi_flow d x HX)) as Hl. destruct (xi_log d x HX) as [new El].
    rewrite Hd, El, !length_app, !length_fmap, length_app in Hl. cbn in Hl. apply length_zero_iff_nil. lia.
Qed.
End Runs.

(** * Theorems *)

Section Theorems.
Context `{P : Platform} `{!PlatformLaws P} {Q item D S U : Type} `{GL : GutteringLaws Q item}
  `{UFL : UnionFindLaws D} `{ST : GraphStream S U} {C : Type}.
Implicit Type d : GraphSketchDriver Q item D S U.
Implicit Type x : destructing Q item D S U.

Lemma started_ok n workers b stream_ok d : started (C := C) n workers b stream_ok d → driver_ok d.
Proof using .
  intros [_ _ (seed & conf & prio & cc & un & sb & mk & s & config & th & w & _ & _ & _ & _ & _ & E)].
  unfold GraphSketchDriver_new in E. destruct (allocate_worker_memory _ cc) as [alg [u|e| |]]; try done.
  apply outcome_bind_inv in E as (cf & _ & E). injection E as <- _. split; cbn; auto. apply group_ok_new.
Qed.

Lemma runs_ok n workers b stream_ok T (PT : Partitioned n T) d0 d : started (C := C) n workers b stream_ok d0 →
  rtc (protocol_step n workers b ∅ T) d0 d → driver_inv n workers b ∅ stream_ok d ∧ driver_ok d.
Proof using GL PlatformLaws0.
  intros Hstart Hsteps. apply (driver_ok_protocol n workers b ∅ stream_ok T PT (empty_graph n) (sd_stream _ _ _ _ _ Hstart) d0 d Hsteps);
    [by apply (started_inv (C := C) n workers b stream_ok d0)|by apply (started_ok n workers b stream_ok)].
Qed.

(** C7. The driver can be deleted while its workers run. From the first moment of
    the destructor and in every interleaving with the workers, no thread dies of
    an exception; as soon as the worker group is gone no worker can take another
    step, so that none touches the guttering system after it is deleted; and if
    no worker had been told, before, that there is nothing to do (or nothing was
    pending), every update that had left the buffers is then applied: what is
    lost is what the buffers held, and if they were empty the algorithm, which
    outlives the driver, describes the graph of all the updates handled. *)
Theorem destructor_safe n workers b stream_ok T (PT : Partitioned n T) d0 d x0 x
    (Hstart : started (C := C) n workers b stream_ok d0) (Hsteps : rtc (protocol_step n workers b ∅ T) d0 d)
    (Hbegin : begin_destructor d = Some x0) (Hrun : rtc destructor_step x0 x) :
  let g := worker_threads (x_driver x) in
  ph (x_driver x) = PhIdle ∧
  sent (handled d) ≡ₚ pairs (strip <$> log g) ++ pairs (pending g) ++ buffered (gts (worker_threads d)) ∧
  (x_pc x ≠ AtWorkers → (∀ i, worker_step i g = None) ∧
    (fresh_results (worker_threads d) ∨ pending (worker_threads d) = [] →
      sent (handled d) ≡ₚ pairs (strip <$> log g) ++ buffered (gts (worker_threads d)) ∧
      (buffered (gts (worker_threads d)) = [] → cc_inv (sketching_alg (x_driver x)) b (toggles (stream_ids (handled d)))))).
Proof using GL PlatformLaws0 UFL.
  destruct (runs_ok _ _ _ _ _ PT _ _ Hstart Hsteps) as [HI Hok].
  pose proof (destructing_steps n workers b ∅ stream_ok d x0 x Hrun (begin_destructor_inv n workers b ∅ stream_ok d x0 HI Hok Hbegin)) as HX.
  pose proof (xi_inv _ _ _ _ _ _ _ HX) as HIx. pose proof (di_joined _ _ _ _ _ _ HIx) as Hth. rewrite (xi_phase _ _ _ _ _ _ _ HX) in Hth.
  pose proof (di_pairs _ _ _ _ _ _ HIx) as Hp. unfold inflight in Hp.
  rewrite Hth, (xi_handled _ _ _ _ _ _ _ HX), (xi_buffered _ _ _ _ _ _ _ HX) in Hp by done. cbn [mbind list_bind] in Hp. rewrite app_nil_r in Hp.
  intros g. split; [apply HX|]. split; [done|]. intros Hpc. split; [intros i; by eapply destructing_still|]. intros Hf.
  destruct (sd_workers _ _ _ _ _ Hstart) as [Hk _].
  pose proof (destructing_drained n workers b ∅ stream_ok d x Hk HX Hpc Hf) as Hnil. split; [by rewrite Hnil in Hp|]. intros Hbuf.
  rewrite <-(xi_handled _ _ _ _ _ _ _ HX), <-(left_id ∅ symdiff (toggles _)).
  apply (drained_inv n workers b ∅ stream_ok (x_driver x) HIx); [|apply empty_graph].
  split; [done|]. split; [by rewrite (xi_buffered _ _ _ _ _ _ _ HX)|by apply Hth].
Qed.
End Theorems.

(** * A concrete deletion *)

Section Demo.
#[local] Existing Instance demo_platform.
#[local] Instance demo_partition : Partitioned 6 2 :=
  exact_partitioned 6 2 (EP := exact_partition_pow2 6 1 ltac:(lia) ltac:(lia) ltac:(lia)).

Abbreviation demo_object := (GraphSketchDriver gutters (list (N * list N)) DSU_MT (list (GraphUpdate bool)) bool).

(** Two calls of [process_stream_until]; the buffers are then empty, and ten of
    the twelve pairs are still to be applied. *)
Definition delete_moves : list driver_move :=
  stream_moves ++ [MvStream 6] ++ replicate 6 MvResume ++ replicate 4 (MvTask 0) ++ [MvJoin].

Definition destructor_moves : list (option N) :=
  replicate 2 None ++ replicate 3 (Some 0) ++ replicate 4 None ++ replicate 40 (Some 1) ++ replicate 30 (Some 0) ++ replicate 5 None.

Definition fresh_resultsb {item} (ws : list (WorkerThread item)) : bool :=
  forallb (λ w, match w_pc w with PTestShutdown => false | _ => true end) ws.

Lemma fresh_resultsb_sound {Q item} (g : WorkerThreadGroup Q item) : fresh_resultsb (workers g) = true → fresh_results g.
Proof.
  unfold fresh_resultsb. rewrite forallb_forall. intros Hf i w Hi Epc. rewrite lookupN_eq in Hi.
  apply list_elem_of_lookup_2, list_elem_of_In in Hi. specialize (Hf w Hi). by rewrite Epc in Hf.
Qed.

(** The driver is deleted after [ms], with [left] pairs to apply and none in the
    buffers. *)
Definition deletes (ms : list driver_move) (dms : list (option N)) (ids : list N) (left : nat)
    (d : demo_object) : bool :=
  let d := driver_execute ms d in
  match begin_destructor d with
  | Some x0 =>
      match x_pc (destructor_execute dms x0), buffered (gts (worker_threads d)) with
      | AtEnd, [] => fresh_resultsb (workers (worker_threads d)) && bool_decide (stream_ids (handled d) = ids) &&
          (length (pairs (pending (worker_threads d))) =? left)%nat
      | _, _ => false
      end
  | None => false
  end.

Lemma deletes_sound ms dms ids left d0 : deletes ms dms ids left d0 = true →
  ∃ d x0 x, rtc driver_step d0 d ∧ begin_destructor d = Some x0 ∧ rtc destructor_step x0 x ∧ x_pc x = AtEnd ∧
    buffered (gts (worker_threads d)) = [] ∧ fresh_results (worker_threads d) ∧ stream_ids (handled d) = ids ∧
    length (pairs (pending (worker_threads d))) = left.
Proof.
  unfold deletes. pose proof (driver_execute_steps ms d0) as Hs. generalize dependent (driver_execute ms d0).
  intros d Hs. destruct (begin_destructor d) as [x0|] eqn:Eb; [|done].
  pose proof (destructor_execute_steps dms x0) as Hx. generalize dependent (destructor_execute dms x0). intros x Hx.
  destruct (x_pc x) eqn:Epc; [done..|]. destruct (buffered (gts (worker_threads d))) eqn:Ebuf; [|done].
  intros [[Hf Hi]%andb_prop Hl]%andb_prop. apply fresh_resultsb_sound in Hf. apply bool_decide_eq_true in Hi. apply Nat.eqb_eq in Hl.
  by exists d, x0, x.
Qed.

Definition deleted_ids : list N :=
  (λ '(u, v), concat_pairing_fn u v) <$> [(0, 1); (2, 1); (0, 2); (3, 4); (0, 1); (4, 5)].

Lemma demo_deletes : deletes delete_moves destructor_moves deleted_ids 11 demo_start = true.
Proof. vm_compute. reflexivity. Qed.

(** Eleven pairs are applied while the destructor waits for the workers. *)
Lemma destructor_safe_witness : ∃ (d : demo_object) (x : destructing gutters (list (N * list N)) DSU_MT (list (GraphUpdate bool)) bool),
  length (pairs (pending (worker_threads d))) = 11%nat ∧ x_pc x = AtEnd ∧ ph (x_driver x) = PhIdle ∧
  (∀ i, worker_step i (worker_threads (x_driver x)) = None) ∧
  sent (handled d) ≡ₚ pairs (strip <$> log (worker_threads (x_driver x))) ∧
  cc_inv (sketching_alg (x_driver x)) demo_base (toggles deleted_ids).
Proof.
  destruct (deletes_sound _ _ _ _ _ demo_deletes) as (d & x0 & x & Hs & Eb & Hx & Epc & Ebuf & Hf & Eid & El).
  destruct (destructor_safe (C := unit) 6 2 demo_base (stream_in_range 6) 2 demo_partition demo_start d x0 x demo_started
    (driver_protocol_steps _ _ _ _ _ _ _ Hs) Eb Hx) as (Hp & _ & Hend).
  destruct Hend as [Hstill Hall]; [by rewrite Epc|]. destruct (Hall (or_introl Hf)) as [Hsent Hcc].
  rewrite Ebuf, app_nil_r in Hsent. rewrite Eid in Hcc. exists d, x. split_and!; try assumption. exact (Hcc Ebuf).
Defined.
End Demo.
