(* ===== verification/Notify.v ===== *)
(** Notifications of the condition variable (include/worker_thread_group.h).

    In file Workers a wait may wake up at any time. Here it needs a notification:
    a worker evaluates the predicate of its wait, blocks in a second step, and
    leaves the wait only when a [notify_all] has found it there; [notify_all] goes
    with the statement before it. A [stop] between the two steps is missed, and
    then the destructor never ends ([destructor_can_hang]); when no worker has
    missed it, the destructor ends without any other wake-up ([told_finishes],
    [dying_finishes]). *)
From stdpp Require Import relations.
From S2P Require Import Prelude CCAlg Workers WorkersCorrect Destroy.

Open Scope N_scope.

(** [blocking]: the worker that holds the mutex and is about to block; [woken]:
    those that a notification has found waiting. *)
Record waits : Type := mkWaits { blocking : option N; woken : gset N }.

Record notify_state (Q item : Type) : Type := mkNotify {
  n_group : WorkerThreadGroup Q item;
  n_waits : waits
}.
Arguments mkNotify {Q item}.
Arguments n_group {Q item}.
Arguments n_waits {Q item}.

Section Machine.
Context {Q item : Type} `{WQ : WorkQueue Q item}.
Implicit Type g : WorkerThreadGroup Q item.
Implicit Type s : notify_state Q item.
Implicit Type ws : waits.

Definition is_waiting g (i : N) : bool :=
  match workers g !! i with Some w => match w_pc w with PWait => true | _ => false end | None => false end.

(** [flush_condition.notify_all()] *)
Definition notify_all g ws : waits :=
  mkWaits (blocking ws) (woken ws ∪ list_to_set (filter (λ i, is_waiting g i = true) (seqN 0 (num_workers g)))).

Definition notify_worker (i : N) s : option (notify_state Q item) :=
  let g := n_group s in
  let ws := n_waits s in
  w ← workers g !! i;
  match w_pc w with
  | PTestWait =>
      if decide (blocking ws = Some i) then
        Some (mkNotify (put_worker i (set_pc PWait w) (set_lock None g)) (mkWaits None (woken ws)))
      else if negb (do_pause w) || shutdown w then g' ← do_work i w g; Some (mkNotify g' ws)
      else Some (mkNotify g (mkWaits (Some i) (woken ws)))
  | PWait =>
      if decide (i ∈ woken ws) then g' ← do_work i w g; Some (mkNotify g' (mkWaits (blocking ws) (woken ws ∖ {[ i ]})))
      else None
  | PPause | PUnpause => g' ← do_work i w g; Some (mkNotify g' (notify_all g' ws))
  | _ => g' ← do_work i w g; Some (mkNotify g' ws)
  end.

(** A step of the driving thread from [g] to [g']: the end of [resume_workers],
    and the last [stop] of the destructor, come with a [notify_all]. *)
Definition main_notifies g g' ws : waits :=
  match main g, main g' with
  | MUnpause _, MIdle | MStop _, MJoin _ => notify_all g' ws
  | _, _ => ws
  end.

Definition main_moves g' s : notify_state Q item := mkNotify g' (main_notifies (n_group s) g' (n_waits s)).

(** The driving thread; it waits with a timeout, and may wake up at any time. *)
Definition notify_main (timeout : bool) s : option (notify_state Q item) :=
  match flush_workers timeout (n_group s), resume_workers (n_group s), destroy (n_group s) with
  | Some g, _, _ | None, Some g, _ | None, None, Some g => Some (main_moves g s)
  | None, None, None => None
  end.

Definition notify_start (c : command) s : option (notify_state Q item) :=
  g ← start c (n_group s); Some (mkNotify g (n_waits s)).

Inductive notify_step : relation (notify_state Q item) :=
| NotifyWorker i s s' : notify_worker i s = Some s' → notify_step s s'
| NotifyMain timeout s s' : notify_main timeout s = Some s' → notify_step s s'
| NotifyStart c s s' : notify_start c s = Some s' → notify_step s s'.

Definition notify_perform (m : move (item := item)) s : option (notify_state Q item) :=
  match m with MoveWorker i => notify_worker i s | MoveMain t => notify_main t s | MoveStart c => notify_start c s end.

(** Moves that are not possible are skipped. *)
Fixpoint notify_execute (ms : list (move (item := item))) s : notify_state Q item :=
  match ms with [] => s | m :: ms => notify_execute ms (default s (notify_perform m s)) end.

Lemma notify_execute_steps ms s : rtc notify_step s (notify_execute ms s).
Proof using .
  revert s. induction ms as [|m ms IH]; intros s; simpl; [done|].
  destruct (notify_perform m s) as [s1|] eqn:E; [|apply IH]. apply (rtc_l _ _ s1); [|apply IH].
  destruct m; [by apply (NotifyWorker i)|by apply (NotifyMain timeout)|by apply (NotifyStart c)].
Qed.

Definition no_waits : waits := mkWaits None ∅.

Definition notify_new (num_workers : N) (q : Q) : notify_state Q item := mkNotify (WorkerThreadGroup_new num_workers q) no_waits.

(** A wait may also end without a notification. *)
Definition wake (i : N) ws : waits := mkWaits (blocking ws) (woken ws ∪ {[ i ]}).

(** Who is about to block has evaluated its predicate. *)
Definition blocking_has (P : WorkerThread item → Prop) s : Prop :=
  ∀ i, blocking (n_waits s) = Some i → ∃ w, workers (n_group s) !! i = Some w ∧ w_pc w = PTestWait ∧ P w.

Definition waits_ok s : Prop := blocking_has (λ _, True) s.

(** The predicate has not changed since. *)
Definition will_block s : Prop := blocking_has (λ w, do_pause w = true ∧ shutdown w = false) s.

(** Nobody is about to block, and who waits has been notified. *)
Definition told s : Prop :=
  blocking (n_waits s) = None ∧ ∀ i, is_waiting (n_group s) i = true → i ∈ woken (n_waits s).

(** The destructor without its owner. *)
Inductive notify_destroy_step : relation (notify_state Q item) :=
| NotifyDestroyWorker i s s' : notify_worker i s = Some s' → notify_destroy_step s s'
| NotifyDestroyMain g s : destroy (n_group s) = Some g → notify_destroy_step s (main_moves g s).

Lemma elem_of_notified g ws i : i ∈ woken (notify_all g ws) ↔ i ∈ woken ws ∨ is_waiting g i = true.
Proof using .
  unfold notify_all. cbn [woken]. rewrite elem_of_union, elem_of_list_to_set, list_elem_of_filter, elem_of_seqN.
  split; [naive_solver|]. intros [?|Hw]; [by left|right]. split; [done|]. unfold is_waiting in Hw.
  destruct (workers g !! i) as [w|] eqn:Hi; [|done]. apply lookupN_lt_Some in Hi. unfold num_workers. lia.
Qed.

(** Blocking, as a change of the group. *)
Definition block (i : N) g : WorkerThreadGroup Q item := update_worker i (set_pc PWait) (set_lock None g).

Lemma block_workers i w g : workers g !! i = Some w → workers (block i g) = <[i := set_pc PWait w]> (workers g).
Proof using . intros Hi. unfold block, update_worker. cbn [workers set_lock]. by rewrite Hi. Qed.

(** A worker evaluates its predicate, blocks, or takes a step of file Workers. *)
Lemma notify_worker_cases i s s' : notify_worker i s = Some s' →
  (∃ w, workers (n_group s) !! i = Some w ∧ w_pc w = PTestWait ∧ do_pause w = true ∧ shutdown w = false ∧
     s' = mkNotify (n_group s) (mkWaits (Some i) (woken (n_waits s)))) ∨
  (∃ w, workers (n_group s) !! i = Some w ∧ w_pc w = PTestWait ∧ blocking (n_waits s) = Some i ∧
     s' = mkNotify (block i (n_group s)) (mkWaits None (woken (n_waits s)))) ∨
  worker_step i (n_group s) = Some (n_group s') ∧ blocking (n_waits s') = blocking (n_waits s) ∧
    ∀ w, workers (n_group s) !! i = Some w → w_pc w = PTestWait → blocking (n_waits s) ≠ Some i.
Proof using .
  unfold notify_worker, worker_step. destruct (workers (n_group s) !! i) as [w|] eqn:Hi; [|done]. cbn [mbind option_bind]. intros E.
  destruct (w_pc w) eqn:Epc; try (destruct (do_work i w (n_group s)) as [g'|]; [|done]; injection E as <-; right; right; split; [done|]; split; [done|];
    intros w' [= <-]; congruence).
  - case_decide as Hb; [injection E as <-; right; left; exists w; split_and!; [done..|]; unfold block, update_worker; cbn [workers set_lock]; by rewrite Hi|].
    destruct (negb (do_pause w) || shutdown w) eqn:Ep.
    + destruct (do_work i w (n_group s)) as [g'|]; [|done]. injection E as <-. right. right. by split_and!.
    + injection E as <-. left. exists w. apply orb_false_iff in Ep as [Ed%negb_false_iff Es]. by split_and!.
  - case_decide; [|done]. destruct (do_work i w (n_group s)) as [g'|]; [|done]. injection E as <-. right. right. split; [done|]. split; [done|].
    intros w' [= <-]. congruence.
Qed.

(** The other way round: a step of file Workers that does not leave a wait takes
    one step, or two of which the first evaluates the predicate. *)
Lemma notify_worker_runs i w g g' ws : workers g !! i = Some w → w_pc w ≠ PWait →
  (blocking ws = Some i → do_pause w = true ∧ shutdown w = false) → do_work i w g = Some g' →
  ∃ ws1 ws', (ws1 = ws ∨ notify_worker i (mkNotify g ws) = Some (mkNotify g ws1)) ∧
    notify_worker i (mkNotify g ws1) = Some (mkNotify g' ws').
Proof using .
  intros Hi Hpc Hb E.
  assert (w_pc w ≠ PTestWait → ∃ ws', notify_worker i (mkNotify g ws) = Some (mkNotify g' ws')) as Hone.
  { intros Hne. unfold notify_worker. cbn [n_group n_waits]. rewrite Hi. cbn [mbind option_bind]. destruct (w_pc w); try done; rewrite E; by eexists. }
  assert (w_pc w = PTestWait ∨ w_pc w ≠ PTestWait) as [Ew|Hne] by (destruct (w_pc w); first [by left|by right]).
  2: { destruct (Hone Hne) as [ws' E']. exists ws, ws'. split; [by left|done]. }
  assert (∀ ws0, blocking ws0 = Some i → negb (do_pause w) || shutdown w = false →
    ∃ ws', notify_worker i (mkNotify g ws0) = Some (mkNotify g' ws')) as Hblock.
  { intros ws0 Hb0 Ep. unfold do_work in E. rewrite Ew, Ep in E. injection E as <-. unfold notify_worker. cbn [n_group n_waits]. rewrite Hi.
    cbn [mbind option_bind]. rewrite Ew, decide_True by done. by eexists. }
  destruct (decide (blocking ws = Some i)) as [Hbi|Hbi].
  - destruct (Hb Hbi) as [Hd Hs]. destruct (Hblock ws Hbi) as [ws' E']; [by rewrite Hd, Hs|]. exists ws, ws'. split; [by left|done].
  - destruct (negb (do_pause w) || shutdown w) eqn:Ep.
    + exists ws, ws. split; [by left|]. unfold notify_worker. cbn [n_group n_waits]. rewrite Hi. cbn [mbind option_bind]. by rewrite Ew, decide_False, Ep, E by done.
    + destruct (Hblock (mkWaits (Some i) (woken ws))) as [ws' E']; [done|done|]. exists (mkWaits (Some i) (woken ws)), ws'. split; [right|done].
      unfold notify_worker. cbn [n_group n_waits]. rewrite Hi. cbn [mbind option_bind]. by rewrite Ew, decide_False, Ep by done.
Qed.
End Machine.

(** * A destructor whose notification is not missed ends *)

Section Ending.
Context {Q item : Type} `{WQL : WorkQueueLaws Q item}.
Implicit Type g : WorkerThreadGroup Q item.
Implicit Type s : notify_state Q item.

(** ** Blocking keeps the invariants of file Destroy *)

Lemma group_ok_block i w g : group_ok g → workers g !! i = Some w → w_pc w = PTestWait → group_ok (block i g).
Proof using .
  intros [Hl Hm Ho Ha] Hi Hpc. assert (flush_lock g = Some (OwnedByWorker i)) as El by (apply (Hl i w Hi); by rewrite Hpc).
  unfold block, update_worker. cbn [workers set_lock]. rewrite Hi. split; cbn.
  - intros j wj Hj. destruct (decide (j = i)) as [->|Hne].
    + rewrite lookupN_insert_eq in Hj by (apply lookupN_lt_Some in Hi; lia). by injection Hj as <-.
    + rewrite lookupN_insert_ne in Hj by done. rewrite <-(Hl j wj Hj), El. split; [done|]. intros [=]. congruence.
  - by rewrite <-Hm, El.
  - done.
  - intros j wj He Hj. destruct (decide (j = i)) as [->|Hne].
    + rewrite lookupN_insert_eq in Hj by (apply lookupN_lt_Some in Hi; lia). injection Hj as <-. cbn. by destruct (Ha i w He Hi).
    + rewrite lookupN_insert_ne in Hj by done. by apply (Ha j).
Qed.

Lemma dying_block n i w g : dying_inv n g → workers g !! i = Some w → w_pc w = PTestWait → dying_inv n (block i g).
Proof using .
  intros [Hok Hn He Hb Hbd Hs Hj] Hi Hpc. pose proof (group_ok_block i w g Hok Hi Hpc) as Hok'. pose proof (block_workers i w g Hi) as Ew.
  assert (main (block i g) = main g ∧ gts (block i g) = gts g) as [Em Eg] by (unfold block, update_worker; cbn [workers set_lock]; by rewrite Hi).
  assert (∀ j wj, workers (block i g) !! j = Some wj → j = i ∧ wj = set_pc PWait w ∨ j ≠ i ∧ workers g !! j = Some wj) as Hcase.
  { intros j wj Hj'. rewrite Ew in Hj'. destruct (decide (j = i)) as [->|Hne].
    - rewrite lookupN_insert_eq in Hj' by (apply lookupN_lt_Some in Hi; lia). injection Hj' as <-. by left.
    - rewrite lookupN_insert_ne in Hj' by done. by right. }
  split; rewrite ?Em, ?Eg; try done.
  - unfold num_workers in *. by rewrite Ew, length_insertN.
  - intros j wj Hlt Hj'. destruct (Hcase j wj Hj') as [[-> ->]|[_ Hj0]]; [by apply (Hs i w)|by apply (Hs j)].
  - intros j wj Hlt Hj'. destruct (Hcase j wj Hj') as [[-> ->]|[_ Hj0]]; [pose proof (Hj i w Hlt Hi); congruence|by apply (Hj j)].
Qed.

Lemma block_batches i w g : workers g !! i = Some w → w_pc w = PTestWait → same_batches g (block i g).
Proof using .
  intros Hi Hpc. unfold block, update_worker. cbn [workers set_lock]. rewrite Hi.
  unfold same_batches, num_workers, pending. cbn [workers log gts put_worker set_lock]. rewrite length_insertN. split_and!; try done; [|by left].
  apply Permutation_app_tail. rewrite lookupN_eq in Hi. pose proof (bind_insert_swap in_progress (workers g) (N.to_nat i) w (set_pc PWait w) Hi) as Hbi.
  unfold in_progress at 2 4 in Hbi. cbn [w_pc set_pc] in Hbi. rewrite Hpc in Hbi. by apply Permutation_app_inv_r in Hbi.
Qed.

(** ** Who is about to block stays where it is *)

Definition keeps_pcs g g' : Prop :=
  ∀ i w, workers g !! i = Some w → ∃ w', workers g' !! i = Some w' ∧ w_pc w' = w_pc w.

Lemma same_workers_pcs g g' : workers g' = workers g → keeps_pcs g g'.
Proof using . intros E i w Hi. rewrite E. by exists w. Qed.

Lemma update_worker_pcs j f g h : (∀ w, w_pc (f w) = w_pc w) → workers h = workers (update_worker j f g) → keeps_pcs g h.
Proof using .
  intros Hf E i w Hi. rewrite E. unfold update_worker. destruct (workers g !! j) as [v|] eqn:Hj; [|by exists w]. cbn.
  destruct (decide (i = j)) as [->|Hne].
  - rewrite lookupN_insert_eq by (apply lookupN_lt_Some in Hj; lia). exists (f v). split; [done|]. rewrite Hf. congruence.
  - rewrite lookupN_insert_ne by done. by exists w.
Qed.

Lemma destroy_pcs g g' : destroy g = Some g' → keeps_pcs g g'.
Proof using .
  unfold destroy. intros E. destruct (main g); try done; repeat (case_match; try done); injection E as <-;
    first [by apply same_workers_pcs|by apply (update_worker_pcs i stop)].
Qed.

Lemma main_notifies_blocking g g' ws : blocking (main_notifies g g' ws) = blocking ws.
Proof using . unfold main_notifies. by destruct (main g), (main g'). Qed.

Lemma waits_ok_main g g' ws : waits_ok (mkNotify g ws) → keeps_pcs g g' → waits_ok (mkNotify g' (main_notifies g g' ws)).
Proof using .
  intros Hok Hk i Hb. cbn [n_waits] in Hb. rewrite main_notifies_blocking in Hb. destruct (Hok i Hb) as (w & Hi & Hpc & _).
  destruct (Hk i w Hi) as (w' & Hi' & Epc). exists w'. split_and!; [done|congruence|done].
Qed.

Lemma blocking_has_worker P i s s' : (∀ w, do_pause w = true → shutdown w = false → P w) →
  blocking_has P s → notify_worker i s = Some s' → blocking_has P s'.
Proof using WQL.
  intros HP Hok E. destruct (notify_worker_cases i s s' E) as [(w & Hi & Hpc & Hd & Hs & ->)|[(w & Hi & _ & _ & ->)|(Es & Eb & Hne)]].
  - intros j [= <-]. exists w. auto.
  - done.
  - unfold worker_step in Es. destruct (workers (n_group s) !! i) as [w|] eqn:Hi; [|done]. cbn [mbind option_bind] in Es.
    destruct (do_work_effect i w _ _ Es) as (w' & new & Ew & _). intros j Hb. rewrite Eb in Hb. destruct (Hok j Hb) as (wj & Hj & Hpc & Hw).
    exists wj. rewrite Ew. destruct (decide (j = i)) as [->|Hji]; [|by rewrite lookupN_insert_ne].
    rewrite Hi in Hj. injection Hj as <-. by destruct (Hne w eq_refl Hpc).
Qed.

Lemma waits_ok_worker i s s' : waits_ok s → notify_worker i s = Some s' → waits_ok s'.
Proof using WQL. by apply blocking_has_worker. Qed.

Lemma will_block_worker i s s' : will_block s → notify_worker i s = Some s' → will_block s'.
Proof using WQL. by apply blocking_has_worker. Qed.

Lemma will_block_same g g' ws ws' : workers g' = workers g → blocking ws' = blocking ws → will_block (mkNotify g ws) → will_block (mkNotify g' ws').
Proof using . unfold will_block, blocking_has. cbn [n_group n_waits]. by intros -> ->. Qed.

Lemma will_block_flush t g g' ws : will_block (mkNotify g ws) → flush_workers t g = Some g' → will_block (mkNotify g' (main_notifies g g' ws)).
Proof using .
  intros Hw E. pose proof (main_notifies_blocking g g' ws) as Hb.
  assert (∀ i, workers g' = workers (update_worker i pause g) → will_block (mkNotify g' (main_notifies g g' ws))) as Hpause.
  { intros i Ew j Hj. cbn [n_waits n_group] in *. rewrite Hb in Hj. destruct (Hw j Hj) as (w & Hl & Hpc & Hd & Hs). cbn [n_group] in Hl.
    rewrite Ew. unfold update_worker. destruct (workers g !! i) as [wi|] eqn:Hi; [|by exists w]. cbn [workers put_worker].
    destruct (decide (j = i)) as [->|Hne]; [|exists w; by rewrite lookupN_insert_ne].
    rewrite Hl in Hi. injection Hi as <-. exists (pause w). rewrite lookupN_insert_eq by (apply lookupN_lt_Some in Hl; lia). done. }
  assert (workers g' = workers g → will_block (mkNotify g' (main_notifies g g' ws))) as Hsame by (intros Ew; by apply (will_block_same g g' ws)).
  unfold flush_workers in E. destruct (main g) as [| |i| | | | | | | | | | |]; try done; repeat (case_match; try done); simplify_eq;
    first [by apply Hsame|by apply (Hpause i)].
Qed.

Lemma will_block_ok s : will_block s → waits_ok s.
Proof using . intros Hw i Hb. destruct (Hw i Hb) as (w & Hi & Hpc & _). by exists w. Qed.

(** Then blocking is a step of file Workers. *)
Lemma will_block_step i s : will_block s → blocking (n_waits s) = Some i → worker_step i (n_group s) = Some (block i (n_group s)).
Proof using .
  intros Hw Hb. destruct (Hw i Hb) as (w & Hi & Hpc & Hd & Hs). unfold worker_step. rewrite Hi. cbn [mbind option_bind]. unfold do_work.
  rewrite Hpc, Hd, Hs. cbn [negb orb]. unfold block, update_worker. cbn [workers set_lock]. by rewrite Hi.
Qed.

(** ** After the notification *)

Definition joining (m : main_pc) : bool := match m with MJoin _ | MEnd => true | _ => false end.

Lemma joining_stopped n m : joining m = true → stopped n m = n.
Proof using . by destruct m. Qed.

(** Every move of a worker is possible. *)
Lemma told_moves n s j g' : dying_inv n (n_group s) → joining (main (n_group s)) = true → told s → worker_step j (n_group s) = Some g' →
  ∃ s', notify_worker j s = Some s' ∧ n_group s' = g' ∧ told s'.
Proof using WQL.
  intros Hd Hm [Hb Hw] E. unfold worker_step in E. destruct (workers (n_group s) !! j) as [w|] eqn:Hj; [|done]. cbn [mbind option_bind] in E.
  assert (j < n) as Hin by (rewrite <-(dy_n n _ Hd); apply lookupN_lt_Some in Hj; unfold num_workers; lia).
  assert (shutdown w = true) as Hs by (apply (dy_stopped n _ Hd j w); [by rewrite joining_stopped|done]).
  destruct (do_work_lock j w _ g' E (go_lock _ (dy_ok n _ Hd) j w Hj)) as (w' & Ew & _).
  assert (w_pc w' ≠ PWait) as Hpc'.
  { assert (workers g' !! j = Some w') as Hj' by (rewrite Ew; apply lookupN_insert_eq; apply lookupN_lt_Some in Hj; lia).
    unfold do_work in E. destruct w as [pc sh dp pa]. cbn [w_pc shutdown do_pause paused] in *. subst sh. rewrite ?orb_true_r in E.
    destruct pc as [|x [|[v dsts] bs]| | | | | | | |]; try done; repeat (case_match; try done); simplify_eq; cbn [workers put_worker set_lock set_gts batch_callback] in Hj';
      rewrite lookupN_insert_eq in Hj' by (apply lookupN_lt_Some in Hj; lia); injection Hj' as <-; cbn; by repeat case_match. }
  assert (∀ i, is_waiting g' i = true → i ≠ j ∧ is_waiting (n_group s) i = true) as Hback.
  { intros i. unfold is_waiting. rewrite Ew. destruct (decide (i = j)) as [->|Hne].
    - rewrite lookupN_insert_eq by (apply lookupN_lt_Some in Hj; lia). by destruct (w_pc w').
    - by rewrite lookupN_insert_ne. }
  unfold notify_worker. rewrite Hj. cbn [mbind option_bind]. rewrite Hb, E.
  destruct (w_pc w) eqn:Epc; cbn [mbind option_bind]; try (eexists; split; [done|]; split; [done|]; split; [done|]; cbn; intros i [_ Hi]%Hback; by apply Hw).
  - eexists. split; [done|]. split; [done|]. split; [done|]. cbn [n_group n_waits]. intros i Hi. apply elem_of_notified. by right.
  - rewrite Hs, orb_true_r. eexists. split; [done|]. split; [done|]. split; [done|]. cbn. intros i [_ Hi]%Hback. by apply Hw.
  - rewrite decide_True by (apply Hw; unfold is_waiting; by rewrite Hj, Epc). eexists. split; [done|]. split; [done|]. split; [done|]. cbn.
    intros i [Hne Hi]%Hback. apply Hw in Hi. set_solver.
  - eexists. split; [done|]. split; [done|]. split; [done|]. cbn [n_group n_waits]. intros i Hi. apply elem_of_notified. by right.
Qed.

(** The workers exit one after the other, and the destructor joins them. *)
Lemma told_finishes n s : dying_inv n (n_group s) → joining (main (n_group s)) = true → told s →
  ∃ s', rtc notify_destroy_step s s' ∧ main (n_group s') = MEnd.
Proof using WQL.
  intros Hd Hm Ht. destruct (rtc_measure notify_destroy_step (λ s, dying_inv n (n_group s) ∧ joining (main (n_group s)) = true ∧ told s)
    (λ s, main (n_group s) = MEnd) (λ s, (dying_weight (n_group s) + main_weight n (main (n_group s)))%nat)) with (x := s) as (s' & Hs & _ & He);
    [|done|by exists s'].
  clear s Hd Hm Ht. intros s (Hd & Hm & Ht).
  assert (∀ g', destroy (n_group s) = Some g' → ∃ y, rtc notify_destroy_step s y ∧ (dying_inv n (n_group y) ∧ joining (main (n_group y)) = true ∧ told y) ∧
    (dying_weight (n_group y) + main_weight n (main (n_group y)) < dying_weight (n_group s) + main_weight n (main (n_group s)))%nat) as Hmain.
  { intros g' E. exists (main_moves g' s). destruct (destroy_lighter n _ g' Hd E). split; [by apply rtc_once, NotifyDestroyMain|]. cbn [n_group main_moves].
    split; [|lia]. split; [by apply (dying_destroy n (n_group s))|]. unfold told, main_moves, main_notifies. cbn [n_group n_waits]. unfold destroy in E.
    destruct (main (n_group s)) as [| | | | | | | | | | |i|i|]; try done.
    destruct Ht as [Hb Hw]. destruct (workers (n_group s) !! i) as [w|]; [destruct (w_pc w); try done|]; injection E as <-; done. }
  destruct (main (n_group s)) as [| | | | | | | | | | |i|i|] eqn:Em; try done; [right|by left].
  unfold destroy in Hmain. rewrite Em in Hmain. destruct (workers (n_group s) !! i) as [w|] eqn:Hi; [|by eapply Hmain].
  assert (w_pc w = PExit ∨ w_pc w ≠ PExit) as [Epc|Hpc] by (destruct (w_pc w); first [by left|by right]); [rewrite Epc in Hmain; by eapply Hmain|].
  destruct (some_worker_moves n (n_group s) i w Hd) as (j & g' & E & Hlt); [by rewrite Em|done|done|].
  destruct (told_moves n s j g' Hd ltac:(by rewrite Em) Ht E) as (s' & E' & <- & Ht').
  destruct (dying_worker n j (n_group s) (n_group s') Hd E) as [Hd' Em']. exists s'. split; [by apply rtc_once, (NotifyDestroyWorker j)|].
  rewrite Em', Em. split; [done|lia].
Qed.

(** ** Up to the notification *)

(** Nobody has missed it: it has not come yet, or it has reached everybody. *)
Definition on_time s : Prop := joining (main (n_group s)) = true → told s.

Definition on_timeb s : bool :=
  negb (joining (main (n_group s))) ||
  bool_decide (blocking (n_waits s) = None) &&
  forallb (λ i, negb (is_waiting (n_group s) i) || bool_decide (i ∈ woken (n_waits s))) (seqN 0 (num_workers (n_group s))).

Lemma on_timeb_sound s : on_timeb s = true → on_time s.
Proof using .
  unfold on_timeb, on_time. intros Hb Hj. rewrite Hj in Hb. cbn [negb orb] in Hb. apply andb_prop in Hb as [Hn%bool_decide_eq_true Hw].
  split; [done|]. intros i Hi. rewrite forallb_forall in Hw. specialize (Hw i). rewrite Hi in Hw. cbn [negb orb] in Hw.
  eapply bool_decide_eq_true, Hw, list_elem_of_In, elem_of_seqN. unfold is_waiting in Hi.
  destruct (workers (n_group s) !! i) as [w|] eqn:E; [|done]. apply lookupN_lt_Some in E. unfold num_workers. lia.
Qed.

(** The destructor's steps up to its [notify_all], nobody being about to block. *)
Lemma stops_finish n s : dying_inv n (n_group s) → blocking (n_waits s) = None → on_time s →
  ∃ s', rtc notify_destroy_step s s' ∧ main (n_group s') = MEnd.
Proof using WQL.
  intros Hd Hb Ho. destruct (rtc_measure notify_destroy_step (λ s, dying_inv n (n_group s) ∧ blocking (n_waits s) = None ∧ on_time s)
    (λ s, joining (main (n_group s)) = true) (λ s, main_weight n (main (n_group s)))) with (x := s) as (s1 & Hs & (Hd1 & Hb1 & Ho1) & Hm);
    [|done|destruct (told_finishes n s1 Hd1 Hm (Ho1 Hm)) as (s2 & Hs2 & He); exists s2; split; [by etrans|done]].
  clear s Hd Hb Ho. intros s (Hd & Hb & Ho). pose proof (dy_ending n _ Hd) as He.
  destruct (joining (main (n_group s))) eqn:Hm; [by left|right].
  assert (is_Some (destroy (n_group s))) as [g' E] by (unfold destroy; destruct (main (n_group s)); try done; repeat case_match; by eexists).
  destruct (destroy_lighter n _ g' Hd E) as [_ Hlt]. exists (main_moves g' s). split; [by apply rtc_once, NotifyDestroyMain|].
  cbn [n_group main_moves]. split; [|done]. split; [by apply (dying_destroy n (n_group s))|].
  assert (blocking (main_notifies (n_group s) g' (n_waits s)) = None) as Hb' by (unfold main_notifies; destruct (main (n_group s)), (main g'); done).
  split; [done|]. intros Hm'. split; [done|]. cbn [n_group n_waits main_moves] in *. intros i Hi. unfold main_notifies, destroy in *.
  destruct (main (n_group s)) as [| | | | | | | | | | |k|k|]; try done; [injection E as <-; done|]. destruct (k <? _); injection E as <-; [done|].
  apply elem_of_notified. by right.
Qed.

(** A worker that is about to block may do so first. *)
Lemma dying_finishes n s : dying_inv n (n_group s) → waits_ok s → on_time s →
  ∃ s', rtc notify_destroy_step s s' ∧ main (n_group s') = MEnd.
Proof using WQL.
  intros Hd Hok Ho. destruct (blocking (n_waits s)) as [i|] eqn:Hb; [|by apply (stops_finish n)].
  destruct (Hok i Hb) as (w & Hi & Hpc & _). set (s1 := mkNotify (block i (n_group s)) (mkWaits None (woken (n_waits s)))).
  assert (notify_worker i s = Some s1) as E.
  { unfold notify_worker. rewrite Hi. cbn [mbind option_bind]. rewrite Hpc, decide_True by done. unfold s1, block, update_worker.
    cbn [workers set_lock]. by rewrite Hi. }
  destruct (stops_finish n s1) as (s2 & Hs & He); [by apply (dying_block n i w)|done| |].
  - intros Hm. assert (joining (main (n_group s)) = true) as Hm0.
    { revert Hm. cbn. unfold block, update_worker. cbn [workers set_lock]. by rewrite Hi. }
    destruct (Ho Hm0) as [Hb' _]. congruence.
  - exists s2. split; [|done]. eapply rtc_l; [by apply (NotifyDestroyWorker i)|done].
Qed.
End Ending.

(** ** A notification that comes too early *)

(** Both workers pause, and the destructor begins: worker 0 has been told to stop
    and leaves; worker 1 evaluates its predicate, is told to stop, and blocks. *)
Definition too_early : list (move (item := list (N * list N))) :=
  [MoveStart CFlush] ++ replicate 4 (MoveMain false) ++ replicate 7 (MoveWorker 0) ++ replicate 7 (MoveWorker 1) ++
  replicate 3 (MoveMain false) ++ [MoveStart CDestroy] ++ replicate 2 (MoveMain false) ++ replicate 5 (MoveWorker 0) ++
  replicate 2 (MoveWorker 1) ++ replicate 2 (MoveMain false) ++ [MoveWorker 1; MoveMain false].

Definition early_state : notify_state list_queue (list (N * list N)) :=
  notify_execute too_early (notify_new 2 (mkQueue [] false)).

Lemma early_state_eq : early_state = mkNotify (mkGroup (mkQueue [] true)
  [mkWorker PExit true true false; mkWorker PWait true true true] None [] (MJoin 1)) no_waits.
Proof. vm_compute. reflexivity. Qed.

(** C9. The destructor of the group can hang. From the construction of a group of
    two workers an execution reaches a state in which the destructor waits for a
    worker to end, the worker waits to be notified, and no thread can take a step:
    the worker had evaluated the predicate of its wait, but not yet blocked, when
    [stop] and [notify_all] were called without the mutex. *)
Theorem destructor_can_hang :
  ∃ s : notify_state list_queue (list (N * list N)), rtc notify_step (notify_new 2 (mkQueue [] false)) s ∧
    main (n_group s) = MJoin 1 ∧ ∀ s', ¬ notify_step s s'.
Proof.
  exists early_state. split; [apply notify_execute_steps|]. rewrite early_state_eq. split; [done|].
  intros s' Hs. inversion Hs as [i ? ? E|t ? ? E|c ? ? E]; subst; [|done|by destruct c].
  unfold notify_worker in E. rewrite lookupN_eq in E. by destruct (N.to_nat i) as [|[|k]].
Qed.
