(* ===== verification/Delete.v ===== *)
(** The destructor of the driver with notifications (include/graph_sketch_driver.h
    and include/worker_thread_group.h).

    The machine of file Destroy in which, as in file Notify, a worker blocks in a
    step of its own and leaves its wait when it has been notified, or spuriously.
    [destructor_can_finish]: unless a worker has missed the notification, the
    destructor can end without any spurious wake-up. *)
From stdpp Require Import relations.
From S2P Require Import Prelude Platform Util XorSet Bucket Sketch Dsu DsuMT Graph Forest Config CCAlg Partition MergeInstr Round Boruvka Queries Session Workers WorkersCorrect Driver DriverCorrect Destroy Notify.

Open Scope N_scope.

(** * The workers of a driver *)

Record deletion (Q item D S U : Type) : Type := mkDeletion {
  del_x : destructing Q item D S U;
  del_waits : waits
}.
Arguments mkDeletion {Q item D S U}.
Arguments del_x {Q item D S U}.
Arguments del_waits {Q item D S U}.

Section Machine.
Context `{P : Platform} {Q item D S U : Type} `{GTS : GutteringSystem Q item} `{UF : UnionFind D}
  `{ST : GraphStream S U}.
Implicit Type d : GraphSketchDriver Q item D S U.
Implicit Type x : destructing Q item D S U.
Implicit Type y : deletion Q item D S U.

Definition notify_of d (ws : waits) : notify_state Q item := mkNotify (worker_threads d) ws.

(** A worker's step; the batches it applies are the new entries of the log, as in
    [driver_worker]. *)
Definition driver_notify_worker (i : N) d (ws : waits) : option (GraphSketchDriver Q item D S U * waits) :=
  s ← notify_worker i (notify_of d ws);
  let new := drop (length (log (worker_threads d))) (log (n_group s)) in
  Some (foldl (λ d b, driver_batch_callback b d) (set_group (n_group s) d) new, n_waits s).

(** A step of the thread that drives the workers, from [d] to [d']. *)
Definition driver_notifies d d' (ws : waits) : waits := main_notifies (worker_threads d) (worker_threads d') ws.

(** [spurious]: whether waits may end without a notification. *)
Inductive deletion_step (spurious : bool) : relation (deletion Q item D S U) :=
| DeletionWorker i x d' ws ws' : running (x_driver x) = true → driver_notify_worker i (x_driver x) ws = Some (d', ws') →
    deletion_step spurious (mkDeletion x ws) (mkDeletion (mkDestructing (x_pc x) d') ws')
| DeletionMain x x' ws : destructor x = Some x' →
    deletion_step spurious (mkDeletion x ws) (mkDeletion x' (driver_notifies (x_driver x) (x_driver x') ws))
| DeletionWake i x ws : spurious = true → is_waiting (worker_threads (x_driver x)) i = true →
    deletion_step spurious (mkDeletion x ws) (mkDeletion x (wake i ws)).

Definition deletion_perform (m : option N) y : option (deletion Q item D S U) :=
  let x := del_x y in
  match m with
  | Some i =>
      if running (x_driver x) then
        '(d, ws) ← driver_notify_worker i (x_driver x) (del_waits y); Some (mkDeletion (mkDestructing (x_pc x) d) ws)
      else None
  | None => x' ← destructor x; Some (mkDeletion x' (driver_notifies (x_driver x) (x_driver x') (del_waits y)))
  end.

(** Moves that are not possible are skipped. *)
Definition deletion_execute (ms : list (option N)) y : deletion Q item D S U :=
  foldl (λ y m, default y (deletion_perform m y)) y ms.

Lemma deletion_perform_step spurious m y y' : deletion_perform m y = Some y' → deletion_step spurious y y'.
Proof using .
  destruct y as [x ws], m as [i|]; cbn [deletion_perform del_x del_waits].
  - destruct (running (x_driver x)) eqn:Er; [|done]. destruct (driver_notify_worker _ _ _) as [[d ws']|] eqn:E; [|done].
    intros [= <-]. by apply (DeletionWorker _ i).
  - destruct (destructor x) as [x'|] eqn:E; [|done]. intros [= <-]. by apply DeletionMain.
Qed.

Lemma deletion_execute_steps spurious ms y : rtc (deletion_step spurious) y (deletion_execute ms y).
Proof using .
  unfold deletion_execute. revert y. induction ms as [|m ms IH]; intros y; [done|]. cbn [foldl].
  destruct (deletion_perform m y) as [y1|] eqn:E; [|apply IH]. eapply rtc_l; [by apply (deletion_perform_step spurious m)|apply IH].
Qed.

(** No worker has missed the notification of the destructor. *)
Definition notified_on_time y : Prop := x_pc (del_x y) = AtWorkers → on_time (notify_of (x_driver (del_x y)) (del_waits y)).

(** What a worker's step is for the driver: nothing, blocking, or a step of file
    Driver. *)
Lemma driver_notify_cases i d d' ws ws' : driver_notify_worker i d ws = Some (d', ws') →
  d' = d ∨
  (∃ w, workers (worker_threads d) !! i = Some w ∧ w_pc w = PTestWait ∧ blocking ws = Some i ∧ d' = set_group (block i (worker_threads d)) d) ∨
  driver_worker i d = Some d'.
Proof using .
  unfold driver_notify_worker. destruct (notify_worker i (notify_of d ws)) as [s|] eqn:E; [|done]. cbn [mbind option_bind]. intros [= <- <-].
  destruct (notify_worker_cases i _ s E) as [(w & Hi & Hpc & _ & _ & ->)|[(w & Hi & Hpc & Hb & ->)|(Es & _)]]; cbn [n_group notify_of n_waits] in *.
  - left. rewrite drop_all. cbn. by destruct d.
  - right. left. exists w. split_and!; try done. assert (log (block i (worker_threads d)) = log (worker_threads d)) as ->.
    { unfold block, update_worker. cbn [workers set_lock]. by rewrite Hi. }
    by rewrite drop_all.
  - right. right. unfold driver_worker. by rewrite Es.
Qed.

Lemma driver_notify_will_block i d d' ws ws' : will_block (notify_of d ws) → driver_notify_worker i d ws = Some (d', ws') →
  d' = d ∨ driver_worker i d = Some d'.
Proof using .
  intros Hw E. destruct (driver_notify_cases i d d' ws ws' E) as [?|[(w & Hi & _ & Hb & ->)|?]]; [by left| |by right].
  right. unfold driver_worker. pose proof (will_block_step i _ Hw Hb) as Ew. cbn [n_group notify_of] in Ew. rewrite Ew. cbn [mbind option_bind].
  assert (log (block i (worker_threads d)) = log (worker_threads d)) as ->.
  { unfold block, update_worker. cbn [workers set_lock]. by rewrite Hi. }
  by rewrite drop_all.
Qed.

(** The group and the waits change as in file Notify. *)
Lemma callbacks_group bs : ∀ d, worker_threads (foldl (λ d b, driver_batch_callback b d) d bs) = worker_threads d.
Proof using .
  induction bs as [|[[thr v] dsts] bs IH]; intros d; [done|]. cbn [foldl]. rewrite IH. unfold driver_batch_callback.
  cbn [sketching_alg set_total]. by destruct (apply_update_batch _ _ _ _) as [alg []].
Qed.

Lemma driver_notify_group i d ws s : notify_worker i (notify_of d ws) = Some s →
  ∃ d', driver_notify_worker i d ws = Some (d', n_waits s) ∧ worker_threads d' = n_group s.
Proof using .
  intros E. unfold driver_notify_worker. rewrite E. cbn [mbind option_bind]. eexists. split; [done|]. by rewrite callbacks_group.
Qed.

Lemma driver_notify_back i d ws d' ws' : driver_notify_worker i d ws = Some (d', ws') → notify_worker i (notify_of d ws) = Some (notify_of d' ws').
Proof using .
  unfold driver_notify_worker. destruct (notify_worker i (notify_of d ws)) as [s|]; [|done]. cbn [mbind option_bind]. intros [= <- <-].
  unfold notify_of. rewrite callbacks_group. by destruct s.
Qed.
End Machine.

(** * The invariant *)

Section Runs.
Context `{P : Platform} `{!PlatformLaws P} {Q item D S U : Type} `{GL : GutteringLaws Q item}
  `{UFL : UnionFindLaws D} `{ST : GraphStream S U}.
Implicit Type d : GraphSketchDriver Q item D S U.
Implicit Type x : destructing Q item D S U.
Implicit Type y : deletion Q item D S U.

Context (n k : N) (b : Sketch) (G : gset N) (stream_ok : S → Prop).

Abbreviation inv := (driver_inv n k b G stream_ok).

Lemma block_driver_inv i w d : inv d → workers (worker_threads d) !! i = Some w → w_pc w = PTestWait →
  inv (set_group (block i (worker_threads d)) d).
Proof using GL.
  intros HI Hi Hpc. apply (set_group_inv n k b G stream_ok d (block i (worker_threads d)) (ph d)); [done|by apply (block_batches i w)|apply HI|done].
Qed.

Lemma destructing_block i w d x : destructing_inv n k b G stream_ok d x → workers (worker_threads (x_driver x)) !! i = Some w → w_pc w = PTestWait →
  destructing_inv n k b G stream_ok d (mkDestructing (x_pc x) (set_group (block i (worker_threads (x_driver x))) (x_driver x))).
Proof using GL.
  intros [HI Hp Hg He Hh Hf Hl Hb Hfr] Hi Hpc. pose proof (block_batches i w _ Hi Hpc) as Hs. pose proof (same_batches_buffered _ _ Hs) as Hbuf.
  assert (main (block i (worker_threads (x_driver x))) = main (worker_threads (x_driver x)) ∧
    gts (block i (worker_threads (x_driver x))) = gts (worker_threads (x_driver x))) as [Em Eg].
  { unfold block, update_worker. cbn [workers set_lock]. by rewrite Hi. }
  split; cbn; try done.
  - by apply (block_driver_inv i w).
  - by apply (dying_block k i w).
  - intros Hx. rewrite Em. by apply He.
  - destruct Hs as (_ & -> & -> & _). exact Hf.
  - by destruct Hs as (_ & -> & _).
  - congruence.
  - intros Hfr' j wj Hj Hpcj. rewrite Eg. rewrite (block_workers i w _ Hi) in Hj. destruct (decide (j = i)) as [->|Hne].
    + rewrite lookupN_insert_eq in Hj by (apply lookupN_lt_Some in Hi; lia). injection Hj as <-. by destruct Hpcj.
    + rewrite lookupN_insert_ne in Hj by done. by apply (Hfr Hfr' j wj).
Qed.

(** [d] is the driver before the call. *)
Record deletion_inv d y : Prop := {
  de_x : destructing_inv n k b G stream_ok d (del_x y);
  de_waits : waits_ok (notify_of (x_driver (del_x y)) (del_waits y))
}.

Lemma destructor_pcs x x' : destructor x = Some x' → keeps_pcs (worker_threads (x_driver x)) (worker_threads (x_driver x')).
Proof using .
  unfold destructor. destruct (x_pc x); [|by intros [= <-]; apply same_workers_pcs|done].
  destruct (main (worker_threads (x_driver x))); try (destruct (destroy _) as [g|] eqn:E; [|done]; intros [= <-]; by apply destroy_pcs).
  intros [= <-]. by apply same_workers_pcs.
Qed.

Lemma deletion_inv_step spurious d y y' : deletion_inv d y → deletion_step spurious y y' → deletion_inv d y'.
Proof using GL PlatformLaws0.
  intros [HX Hw] Hs. destruct Hs as [i x d' ws ws' Hr E|x x' ws E|i x ws _ _]; cbn [del_x del_waits] in *; split; cbn [del_x del_waits x_driver].
  - destruct (driver_notify_cases i _ _ _ _ E) as [->|[(w & Hi & Hpc & _ & ->)|E']];
      [by destruct x|by apply (destructing_block i w)|by apply (destructing_worker n k b G stream_ok i)].
  - by apply (waits_ok_worker i _ _ Hw), driver_notify_back.
  - apply (destructing_step n k b G stream_ok d x); [done|by apply DestructorMain].
  - apply (waits_ok_main _ _ _ Hw). by apply destructor_pcs.
  - done.
  - exact Hw.
Qed.

Lemma deletion_inv_steps spurious d y y' : rtc (deletion_step spurious) y y' → deletion_inv d y → deletion_inv d y'.
Proof using GL PlatformLaws0. induction 1; [done|]. intros HX. eauto using deletion_inv_step. Qed.

(** * The end *)

(** The steps of the group's destructor are steps of the driver's. *)
Lemma notify_destroy_deletion d y s : deletion_inv d y → x_pc (del_x y) = AtWorkers →
  notify_destroy_step (notify_of (x_driver (del_x y)) (del_waits y)) s →
  ∃ y', deletion_step false y y' ∧ x_pc (del_x y') = AtWorkers ∧ notify_of (x_driver (del_x y')) (del_waits y') = s.
Proof using .
  destruct y as [x ws]. cbn [del_x del_waits]. intros [HX _] Epc Hs. inversion Hs as [i ? ? E|g ? E]; subst; cbn [del_x] in HX.
  - destruct (driver_notify_group i _ _ _ E) as (d' & Ed & Eg). exists (mkDeletion (mkDestructing (x_pc x) d') (n_waits s)).
    split; [|split; [done|cbn; unfold notify_of; rewrite Eg; by destruct s]]. apply (DeletionWorker _ i); [|done].
    unfold running. by rewrite (xi_phase _ _ _ _ _ _ _ HX).
  - exists (mkDeletion (mkDestructing AtWorkers (set_group g (x_driver x))) (main_notifies (worker_threads (x_driver x)) g ws)).
    split; [|split; reflexivity]. apply (DeletionMain _ x (mkDestructing AtWorkers (set_group g (x_driver x)))). unfold destructor. rewrite Epc.
      cbn [notify_of n_group] in E. rewrite E.
      by destruct (main (worker_threads (x_driver x))) eqn:Em; try (unfold destroy in E; rewrite Em in E).
Qed.

Lemma notify_destroy_deletions d y s : deletion_inv d y → x_pc (del_x y) = AtWorkers →
  rtc notify_destroy_step (notify_of (x_driver (del_x y)) (del_waits y)) s →
  ∃ y', rtc (deletion_step false) y y' ∧ x_pc (del_x y') = AtWorkers ∧ notify_of (x_driver (del_x y')) (del_waits y') = s.
Proof using GL PlatformLaws0.
  intros HX Epc Hs. remember (notify_of (x_driver (del_x y)) (del_waits y)) as s0 eqn:E0. revert y HX Epc E0.
  induction Hs as [s0|s0 s1 s2 H01 _ IH]; intros y HX Epc ->; [by exists y|].
  destruct (notify_destroy_deletion d y s1 HX Epc H01) as (y1 & Hy1 & Epc1 & E1).
  destruct (IH y1) as (y2 & Hy2 & ?); [by apply (deletion_inv_step false d y)|done|done|]. exists y2. split; [by eapply rtc_l|done].
Qed.

Lemma deletion_ends d y : deletion_inv d y → notified_on_time y → ∃ y', rtc (deletion_step false) y y' ∧ x_pc (del_x y') = AtEnd.
Proof using GL PlatformLaws0.
  intros HX Ho. assert (∀ y, x_pc (del_x y) = AtGts → ∃ y', rtc (deletion_step false) y y' ∧ x_pc (del_x y') = AtEnd) as Hgts.
  { intros [x ws] Ey. cbn in Ey. eexists. split; [apply rtc_once, DeletionMain; unfold destructor; by rewrite Ey|done]. }
  destruct (x_pc (del_x y)) eqn:Epc; [|by apply Hgts|by exists y].
  destruct (dying_finishes k (notify_of (x_driver (del_x y)) (del_waits y))) as (s & Hs & Em).
  - apply (xi_group _ _ _ _ _ _ _ (de_x d y HX)).
  - apply HX.
  - by apply Ho.
  - destruct (notify_destroy_deletions d y s HX Epc Hs) as ([x1 ws1] & Hs1 & Epc1 & E1). cbn [del_x del_waits] in *.
    destruct (Hgts (mkDeletion (mkDestructing AtGts (x_driver x1)) (driver_notifies (x_driver x1) (x_driver x1) ws1)) eq_refl) as (y2 & Hs2 & Epc2).
    exists y2. split; [|done]. etrans; [exact Hs1|]. eapply rtc_l; [|exact Hs2].
    apply (DeletionMain _ x1 (mkDestructing AtGts (x_driver x1))). unfold destructor. subst s. cbn [notify_of n_group] in Em. by rewrite Epc1, Em.
Qed.
End Runs.

(** * Theorems *)

Section Theorems.
Context `{P : Platform} `{!PlatformLaws P} {Q item D S U : Type} `{GL : GutteringLaws Q item}
  `{UFL : UnionFindLaws D} `{ST : GraphStream S U} {C : Type}.
Implicit Type d : GraphSketchDriver Q item D S U.

Lemma begin_deletion_inv n k b stream_ok d x ws : driver_inv n k b ∅ stream_ok d → driver_ok d → waits_ok (notify_of d ws) →
  begin_destructor d = Some x → deletion_inv n k b ∅ stream_ok d (mkDeletion x ws).
Proof using GL.
  intros HI Hok Hw E. split; cbn [del_x del_waits]; [by apply begin_destructor_inv|].
  unfold begin_destructor in E. destruct (ph d) eqn:Eph; try done. destruct (start CDestroy (worker_threads d)) as [g|] eqn:Eg; [|done]. injection E as <-.
  destruct (dying_start _ g (ok_group d Hok) Eg) as (_ & Ew & _). intros j Hj. destruct (Hw j Hj) as (w & Hl & Hpc & _). exists w. cbn. by rewrite Ew.
Qed.

(** C8. The destructor can end, unless its notification came too early. Between
    two calls of any run the driver can be deleted, whichever worker is about to
    block and whichever ones have been woken. From every state that some
    interleaving of the destructor with the workers then reaches, and in which no
    worker has missed the destructor's [notify_all] (when it has been called, no
    worker is about to block and every waiting worker has been notified), some
    continuation reaches the end, and in it a worker leaves its wait only when it
    has been notified. File Notify shows that a worker can miss the notification,
    and that the destructor then hangs. *)
Theorem destructor_can_finish n workers b stream_ok T (PT : Partitioned n T) d0 d ws
    (Hstart : started (C := C) n workers b stream_ok d0) (Hsteps : rtc (protocol_step n workers b ∅ T) d0 d)
    (Hidle : ph d = PhIdle) (Hwaits : waits_ok (notify_of d ws)) :
  ∃ x0, begin_destructor d = Some x0 ∧
    ∀ y, rtc (deletion_step true) (mkDeletion x0 ws) y → notified_on_time y →
      ∃ y', rtc (deletion_step false) y y' ∧ x_pc (del_x y') = AtEnd.
Proof using GL PlatformLaws0 UFL.
  destruct (runs_ok _ _ _ _ _ PT _ _ Hstart Hsteps) as [HI Hok].
  destruct (begin_destructor_idle d Hok Hidle) as [x0 E]. exists x0. split; [done|]. intros y Hrun Ho.
  apply (deletion_ends n workers b ∅ stream_ok d); [|done].
  apply (deletion_inv_steps n workers b ∅ stream_ok true d (mkDeletion x0 ws) y Hrun). by apply begin_deletion_inv.
Qed.
End Theorems.

(** * A concrete deletion *)

Section Demo.
#[local] Existing Instance demo_platform.
#[local] Instance demo_partition : Partitioned 6 2 :=
  exact_partitioned 6 2 (EP := exact_partition_pow2 6 1 ltac:(lia) ltac:(lia) ltac:(lia)).

Abbreviation demo_object := (GraphSketchDriver gutters (list (N * list N)) DSU_MT (list (GraphUpdate bool)) bool).
Abbreviation demo_deletion := (deletion gutters (list (N * list N)) DSU_MT (list (GraphUpdate bool)) bool).

(** A query has been prepared: both workers wait. *)
Definition paused_moves : list driver_move :=
  stream_moves ++ [MvPrep CONNECTIVITY] ++ ((λ m, match m with inl i => MvWorker i | inr t => MvFlush t end) <$> flush_phase_moves).

(** Up to the [notify_all] of the destructor, and a step of worker 0. *)
Definition notified_moves : list (option N) := replicate 4 None ++ [Some 0].

(** Both have been notified, and worker 1 still waits. *)
Definition notified_state (d : demo_object) (x0 : destructing gutters (list (N * list N)) DSU_MT (list (GraphUpdate bool)) bool) : bool :=
  let y : demo_deletion := deletion_execute notified_moves (mkDeletion x0 no_waits) in
  let s := notify_of (x_driver (del_x y)) (del_waits y) in
  joining (main (n_group s)) && is_waiting (n_group s) 1 && on_timeb s.

Lemma notified_state_sound d x0 : notified_state d x0 = true →
  let y : demo_deletion := deletion_execute notified_moves (mkDeletion x0 no_waits) in
  notified_on_time y ∧ is_waiting (worker_threads (x_driver (del_x y))) 1 = true.
Proof.
  unfold notified_state. generalize (deletion_execute notified_moves (mkDeletion x0 no_waits)). intros y. cbn zeta.
  intros [[_ Hw]%andb_prop Ht%on_timeb_sound]%andb_prop. split; [|exact Hw]. intros _. exact Ht.
Qed.

Lemma demo_notified :
  match ph (driver_execute paused_moves demo_start), begin_destructor (driver_execute paused_moves demo_start) with
  | PhIdle, Some x0 => notified_state (driver_execute paused_moves demo_start) x0
  | _, _ => false
  end = true.
Proof. vm_compute. reflexivity. Qed.

Lemma destructor_can_finish_witness : ∃ y : demo_deletion, is_waiting (worker_threads (x_driver (del_x y))) 1 = true ∧
  ∃ y', rtc (deletion_step false) y y' ∧ x_pc (del_x y') = AtEnd.
Proof.
  pose proof demo_notified as Hd. pose proof (driver_execute_steps paused_moves demo_start) as Hs.
  generalize dependent (driver_execute paused_moves demo_start). intros d Hd Hs.
  destruct (ph d) eqn:Hp; try discriminate Hd.
  destruct (destructor_can_finish (C := unit) 6 2 demo_base (stream_in_range 6) 2 demo_partition demo_start d no_waits demo_started
    (driver_protocol_steps _ _ _ _ _ _ _ Hs) Hp ltac:(discriminate)) as (x0 & E & Hend).
  rewrite E in Hd. destruct (notified_state_sound d x0 Hd) as [Ho Hw].
  exists (deletion_execute notified_moves (mkDeletion x0 no_waits)). split; [exact Hw|].
  exact (Hend _ (deletion_execute_steps true notified_moves _) Ho).
Defined.
End Demo.
