(* ===== verification/ProcessStream.v ===== *)
(** The program that processes a stream (src/tools/process_stream.cpp).

    [main] constructs the algorithm and the driver, starts the thread that shows
    the progress, processes the stream to its end, queries twice, and destroys the
    driver when it returns. It runs interleaved with that thread and with the
    threads of the driver, whose waits need notifications as in file Notify.
    Timing, memory usage and the text around the numbers are not modelled.
    [process_stream_answers]: a run that gets to the return has printed the number
    of connected components of the graph of the whole stream, twice, and the
    thread that shows the progress has not failed. *)
From Stdlib Require Import Floats.SpecFloat Reals Psatz Ascii.
From stdpp Require Import relations.
From S2P Require Import Prelude Float64 Platform Util XorSet Bucket Sketch Dsu DsuMT Graph Forest Config CCAlg Partition MergeInstr Round Region RoundCorrect Boruvka BoruvkaCorrect Queries Session Correctness Workers WorkersCorrect Driver DriverCorrect Destroy Notify Delete.

Open Scope N_scope.

(** * The progress bar *)

(** The literal [.05]. *)
Definition lit_0_05 : double := S754_finite false 7205759403792794 (-57).

(** [int progress = updates / (total * .05)] *)
Definition progress (updates total : N) : outcome Z :=
  match trunc_Z (ddiv (double_of_N updates) (dmul (double_of_N total) lit_0_05)) with
  | Some z => if (- 2 ^ 31 <=? z)%Z && (z <? 2 ^ 31)%Z then Ok z else Undef
  | None => Undef
  end.

(** [std::string(count, c)]: a negative [int] becomes a length above
    [max_size()], and the exception leaves the thread. *)
Definition repeated (count : Z) (c : ascii) : outcome string :=
  if (count <? 0)%Z then Abort else Ok (String.string_of_list_ascii (replicate (Z.to_nat count) c)).

(** The bar and the percentage. *)
Definition progress_line (updates total : N) : outcome (string * Z) :=
  p ← progress updates total;
  bar ← repeated p "="; space ← repeated (20 - p) " ";
  mret (String.append bar space, p * 5)%Z.

(** * The program *)

Inductive main_pc : Type :=
| PcProcess                    (** before [process_stream_until] *)
| PcProcessing                 (** in it *)
| PcPrep (second : bool)       (** before [prep_query] *)
| PcPrepping (second : bool)   (** in it *)
| PcQuery (second : bool)      (** before [connected_components] *)
| PcJoin                       (** before [querier.join()] *)
| PcReturned                   (** at the end of [main] *)
| PcDelete (at_ : destructor_pc) (** in the destructor of the driver, or after it *).

Inductive track_pc : Type :=
| TrSleep                (** in [sleep] *)
| TrRead (updates : N)   (** has read the number of updates *)
| TrDone                 (** has returned *)
| TrFailed               (** undefined behaviour, or an exception left the thread *).

(** [p_waits]: the waits of the workers; [p_out]: the numbers of components
    printed. *)
Record process_state (Q item D S U : Type) : Type := mkProcess {
  p_driver : GraphSketchDriver Q item D S U;
  p_waits : waits;
  p_pc : main_pc;
  p_shutdown : bool;
  p_total : N;
  p_track : track_pc;
  p_lines : list (string * Z);
  p_CC_num : N;
  p_out : list N
}.
Arguments mkProcess {Q item D S U}.
Arguments p_driver {Q item D S U}.
Arguments p_waits {Q item D S U}.
Arguments p_pc {Q item D S U}.
Arguments p_shutdown {Q item D S U}.
Arguments p_total {Q item D S U}.
Arguments p_track {Q item D S U}.
Arguments p_lines {Q item D S U}.
Arguments p_CC_num {Q item D S U}.
Arguments p_out {Q item D S U}.

Section Program.
Context `{P : Platform} {Q item D S U : Type} `{GTS : GutteringSystem Q item} `{UF : UnionFind D}
  `{ST : GraphStream S U}.

Abbreviation process := (process_state Q item D S U).
Implicit Type p : process.

Definition set_driver (d : GraphSketchDriver Q item D S U) p : process :=
  mkProcess d (p_waits p) (p_pc p) (p_shutdown p) (p_total p) (p_track p) (p_lines p) (p_CC_num p) (p_out p).
Definition set_waits (ws : waits) p : process :=
  mkProcess (p_driver p) ws (p_pc p) (p_shutdown p) (p_total p) (p_track p) (p_lines p) (p_CC_num p) (p_out p).
Definition set_pc (pc : main_pc) p : process :=
  mkProcess (p_driver p) (p_waits p) pc (p_shutdown p) (p_total p) (p_track p) (p_lines p) (p_CC_num p) (p_out p).
Definition set_shutdown p : process :=
  mkProcess (p_driver p) (p_waits p) (p_pc p) true (p_total p) (p_track p) (p_lines p) (p_CC_num p) (p_out p).
Definition set_track (t : track_pc) p : process :=
  mkProcess (p_driver p) (p_waits p) (p_pc p) (p_shutdown p) (p_total p) t (p_lines p) (p_CC_num p) (p_out p).
Definition add_line (l : string * Z) p : process :=
  mkProcess (p_driver p) (p_waits p) (p_pc p) (p_shutdown p) (p_total p) (p_track p) (p_lines p ++ [l]) (p_CC_num p) (p_out p).
Definition set_CC_num (c : N) p : process :=
  mkProcess (p_driver p) (p_waits p) (p_pc p) (p_shutdown p) (p_total p) (p_track p) (p_lines p) c (p_out p).
Definition print_CC_num p : process :=
  mkProcess (p_driver p) (p_waits p) (p_pc p) (p_shutdown p) (p_total p) (p_track p) (p_lines p) (p_CC_num p) (p_out p ++ [p_CC_num p]).

(** The driver's own code gets to [d]. *)
Definition driver_moves (d : GraphSketchDriver Q item D S U) p : process :=
  set_waits (driver_notifies (p_driver p) d (p_waits p)) (set_driver d p).

(** ** The thread that shows the progress *)

(** [track_insertions]; the first argument of the thread is [p_total], doubled. *)
Definition track_insertions p : option process :=
  match p_track p with
  | TrSleep => Some (set_track (TrRead (get_total_updates (p_driver p))) p)
  | TrRead updates =>
      if (p_total p <=? updates) || p_shutdown p then Some (set_track TrDone p)
      else match progress_line updates (p_total p) with
           | Ok l => Some (set_track TrSleep (add_line l p))
           | _ => Some (set_track TrFailed p)
           end
  | TrDone | TrFailed => None
  end.

(** ** [main] *)

Section Main.
Context (END_OF_STREAM : N) (T : N).

(** A step of [main] between the calls it makes. At its end the automatic objects
    are destroyed, the driver first of those that do more than give back memory:
    the threads of the querier have been joined. *)
Definition main_step (sch : Schedules) (order : list N) p : option process :=
  let d := p_driver p in
  match p_pc p with
  | PcProcess => d ← process_stream_until END_OF_STREAM d; Some (set_pc PcProcessing (set_driver d p))
  | PcProcessing => match ph d with PhIdle => Some (set_pc (PcPrep false) p) | _ => None end
  | PcPrep second => d ← prep_query CONNECTIVITY d; Some (set_pc (PcPrepping second) (set_driver d p))
  | PcPrepping second => match ph d with PhIdle => Some (set_pc (PcQuery second) p) | _ => None end
  | PcQuery second =>
      '(d, r) ← driver_query T (CallConnected sch order) d;
      match r with
      | RComponents ans =>
          let p := set_CC_num (components_size ans) (set_driver d p) in
          Some (if second then set_pc PcReturned (print_CC_num p) else set_pc PcJoin (set_shutdown p))
      | _ => None
      end
  | PcJoin => match p_track p with TrDone => Some (set_pc (PcPrep true) (print_CC_num p)) | _ => None end
  | PcReturned => x ← begin_destructor d; Some (set_pc (PcDelete (x_pc x)) (set_driver (x_driver x) p))
  | PcDelete at_ => x ← destructor (mkDestructing at_ d); Some (set_pc (PcDelete (x_pc x)) (driver_moves (x_driver x) p))
  end.
End Main.

(** What the threads that read the stream do, and the driver's own code within a
    call. *)
Inductive driver_call_step : relation (GraphSketchDriver Q item D S U) :=
| CallFlush timeout d d' : driver_flush timeout d = Some d' → driver_call_step d d'
| CallResume d d' : driver_resume d = Some d' → driver_call_step d d'
| CallTask t d d' : stream_task t d = Some d' → driver_call_step d d'
| CallJoin d d' : join_threads d = Some d' → driver_call_step d d'.

(** The threads of the process interleave. [spurious]: whether waits may end
    without a notification; [ok] restricts what [main] does to the situations a
    theorem is about. *)
Inductive process_step (spurious : bool) (END_OF_STREAM T : N) (ok : Schedules → list N → process → Prop) : relation process :=
| StepWorker i p d ws : running (p_driver p) = true → driver_notify_worker i (p_driver p) (p_waits p) = Some (d, ws) →
    process_step spurious END_OF_STREAM T ok p (set_waits ws (set_driver d p))
| StepDriver p d : driver_call_step (p_driver p) d → process_step spurious END_OF_STREAM T ok p (driver_moves d p)
| StepWake i p : spurious = true → is_waiting (worker_threads (p_driver p)) i = true →
    process_step spurious END_OF_STREAM T ok p (set_waits (wake i (p_waits p)) p)
| StepTrack p p' : track_insertions p = Some p' → process_step spurious END_OF_STREAM T ok p p'
| StepMain sch order p p' : ok sch order p → main_step END_OF_STREAM T sch order p = Some p' →
    process_step spurious END_OF_STREAM T ok p p'.

(** ** Start *)

Section Start.
Context {G : Type} (default_gutters : G) (gutter_bytes_uninit : G → bool) (gutter_bytes : N → G → G).
Context (make_gutters : GutterSystem → string → N → N → N → G → Q).
Context (show_double : double → string) (show_N : N → string).
Context (vertices edges : S → N).

(** [main] up to the start of the thread. The arguments: how many there are, and
    what [atoi] and [atol] make of the second and the third. No state: [exit]. *)
Definition process_stream_main (argc num_threads reader_threads : Z) (stream : S) (seed : N) (prio_gen : N → N)
    : outcome (option process) :=
  if negb (argc =? 4)%Z then mret None
  else if (num_threads <? 1)%Z then mret None
  else
    let num_nodes := wrap 32 (vertices stream) in
    let num_updates := edges stream in
    let driver_config := (Config.worker_threads show_N (long_to_u64 num_threads)
                           (gutter_sys CACHETREE (DriverConfiguration_default default_gutters))).1 in
    let cc_config := (batch_factor show_double (double_of_N 1) CCAlgConfiguration_default).1 in
    cc_alg ← CCSketchAlg_new num_nodes seed cc_config prio_gen;
    '(driver, _) ← GraphSketchDriver_new gutter_bytes_uninit gutter_bytes make_gutters cc_alg stream driver_config
                     (long_to_u64 reader_threads);
    mret (Some (mkProcess driver no_waits PcProcess false (u64 (num_updates * 2)) TrSleep [] 0 [])).
End Start.
End Program.

(** * The bar is twenty characters wide *)

Section Bar.
Open Scope R_scope.

Lemma lit_0_05_value : d2r lit_0_05 = 7205759403792794 * / 144115188075855872.
Proof.
  unfold lit_0_05, d2r, cond_Zopp. change (-57)%Z with (- (57))%Z. rewrite pow2_opp, pow2_IZR by lia. reflexivity.
Qed.

(** [total * .05], up to rounding. *)
Lemma twentieth total : (0 < total ≤ 2 ^ 52)%N → let m := dmul (double_of_N total) lit_0_05 in
  pos_double m ∧ IZR (Z.of_N total) * (49 / 1000) <= d2r m <= IZR (Z.of_N total).
Proof.
  intros Ht m. destruct (double_of_N_small total) as [Pt Vt]; [lia|]. pose proof lit_0_05_value as Vl.
  assert (pos_double lit_0_05) as Pl by (by eexists _, _). rewrite <-Vt.
  assert (1 <= d2r (double_of_N total) <= 4503599627370496) as B by (rewrite Vt; split; apply IZR_le; lia).
  set (t := d2r (double_of_N total)) in *. set (l := d2r lit_0_05) in *. pose proof pow2_wide as (_ & _ & W3 & W4).
  assert (5 / 100 <= l <= 6 / 100) as Bl by lra.
  assert (correctly_rounded m (t * l)) as Hm by (apply dmul_correct; [done|done|]; fold t l; split; nra).
  pose proof (correctly_rounded_error _ _ Hm) as He. rewrite pow2_m52 in He. apply Rabs_bounds in He.
  split; [by eapply correctly_rounded_pos|]. split; nra.
Qed.

Lemma progress_quotient updates total : (0 < updates < total)%N → (total ≤ 2 ^ 52)%N →
  ∃ z, trunc_Z (ddiv (double_of_N updates) (dmul (double_of_N total) lit_0_05)) = Some z ∧ (0 ≤ z ≤ 20)%Z.
Proof.
  intros Hu Ht. destruct (double_of_N_small updates) as [Pu Vu]; [lia|]. destruct (twentieth total) as [Pm Bm]; [lia|].
  assert (1 <= IZR (Z.of_N updates) ∧ IZR (Z.of_N updates) <= IZR (Z.of_N total) ∧ IZR (Z.of_N total) <= 4503599627370496)
    as (B1 & B2 & B3) by (split; [|split]; apply IZR_le; lia).
  rewrite <-Vu in B1, B2. set (u := d2r (double_of_N updates)) in *. set (t := IZR (Z.of_N total)) in *.
  set (m := d2r (dmul (double_of_N total) lit_0_05)) in *. pose proof pow2_wide as (W1 & W2 & _).
  assert (0 < m) as Hm0 by nra.
  assert (u / m <= 41 / 2) as Hq by (apply Rmult_le_reg_r with m; [done|]; unfold Rdiv at 1; rewrite Rmult_assoc, Rinv_l by lra; nra).
  assert (/ 4503599627370496 <= u / m) as Hq'
    by (apply Rmult_le_reg_r with m; [done|]; unfold Rdiv; rewrite Rmult_assoc, Rinv_l by lra; nra).
  assert (correctly_rounded (ddiv (double_of_N updates) (dmul (double_of_N total) lit_0_05)) (u / m)) as Hd
    by (apply ddiv_correct; [done|done|]; fold u m; split; lra).
  pose proof (correctly_rounded_pos _ _ Hd) as Pd. destruct (trunc_Z_spec _ Pd) as (z & Ez & Bz).
  exists z. split; [done|]. pose proof (pos_double_value _ Pd) as Hpos.
  destruct Hd as (a & b & e & Ha & Hb & Exr & Hr).
  pose proof (rounds_le_dyadic a b e _ Ha Hb Hr 41 (-1) ltac:(lia)) as Hle. rewrite <-Exr in Hle.
  change (pow2 (-1)) with (/ (2 * 1)) in Hle. specialize (Hle ltac:(lra)).
  split; apply Z.lt_succ_r, lt_IZR; rewrite succ_IZR; lra.
Qed.
End Bar.

Lemma progress_ok updates total : updates < total ≤ 2 ^ 52 → ∃ p, progress updates total = Ok p ∧ (0 ≤ p ≤ 20)%Z.
Proof.
  intros [Hlt Ht]. unfold progress. assert (updates = 0 ∨ 0 < updates) as [->|Hpos] by lia.
  - destruct (twentieth total) as [(m & e & ->) _]; [lia|]. by exists 0%Z.
  - destruct (progress_quotient updates total) as (z & -> & Hz); [done|done|]. exists z. split; [|done].
    by rewrite (proj2 (Z.leb_le _ _)), (proj2 (Z.ltb_lt _ _)) by lia.
Qed.

Lemma length_repeated k c : (0 ≤ k)%Z → ∃ s, repeated k c = Ok s ∧ String.length s = Z.to_nat k.
Proof.
  intros Hk. unfold repeated. rewrite (proj2 (Z.ltb_ge k 0)) by done. eexists. split; [done|].
  induction (Z.to_nat k) as [|j IH]; [done|]. simpl. by rewrite IH.
Qed.

(** Whatever the number of updates below the total, the bar has twenty
    characters and the percentage lies between 0 and 100. *)
Lemma progress_line_ok updates total : updates < total ≤ 2 ^ 52 → ∃ bar percent,
  progress_line updates total = Ok (bar, percent) ∧ String.length bar = 20%nat ∧ (0 ≤ percent ≤ 100)%Z.
Proof.
  intros H. destruct (progress_ok updates total H) as (p & E & Hp). unfold progress_line. rewrite E. cbn [mbind outcome_bind].
  destruct (length_repeated p "=") as (bar & -> & Hbar); [lia|]. destruct (length_repeated (20 - p) " ") as (space & -> & Hspace); [lia|].
  cbn [mbind outcome_bind mret outcome_ret]. eexists _, _. split; [done|]. split; [|lia].
  replace (String.length (bar +:+ space)) with (String.length bar + String.length space)%nat; [lia|].
  clear. induction bar as [|c bar IH]; [done|]. simpl. by rewrite <-IH.
Qed.

(** * Workers that have not been told to pause *)

Section Group.
Context {Q item : Type} `{WQL : WorkQueueLaws Q item}.
Implicit Type g : WorkerThreadGroup Q item.
Implicit Type w : WorkerThread item.

Definition awake w : Prop :=
  shutdown w = false ∧ do_pause w = false ∧ paused w = false ∧
  match w_pc w with PGet | PBatches _ _ | PTestShutdown | PTestPause => True | _ => False end.

Definition at_work g : Prop := flush_lock g = None ∧ Forall awake (workers g).

Lemma at_work_insert g g' (i : N) w : at_work g → awake w → flush_lock g' = flush_lock g →
  workers g' = <[i := w]> (workers g) → at_work g'.
Proof using . intros [Hl Hw] Ha El Ew. split; [congruence|]. rewrite Ew. by apply Forall_insert. Qed.

Lemma at_work_lookup g (i : N) w : at_work g → workers g !! i = Some w → awake w.
Proof using . intros [_ Hw] Hi. rewrite lookupN_eq in Hi. by eapply Forall_lookup_1. Qed.

Lemma worker_step_awake i g g' : at_work g → worker_step i g = Some g' → at_work g' ∧ main g' = main g.
Proof using .
  intros Hw E. unfold worker_step in E. destruct (workers g !! i) as [w|] eqn:Hi; [|done]. cbn [mbind option_bind] in E.
  destruct (at_work_lookup g i w Hw Hi) as (Hs & Hd & Hp & Hpc). destruct w as [pc sh dp pa]. cbn in *. subst sh dp pa.
  assert (∀ pc' h, flush_lock h = flush_lock g → workers h = workers g → main h = main g →
    match pc' with PGet | PBatches _ _ | PTestShutdown | PTestPause => True | _ => False end →
    at_work (put_worker i (mkWorker pc' false false false) h) ∧ main (put_worker i (mkWorker pc' false false false) h) = main g) as Hput.
  { intros pc' h El Ew Em Ha. split; [|done]. apply (at_work_insert g _ i (mkWorker pc' false false false)); [done|done|done|]. cbn. by rewrite Ew. }
  unfold do_work in E. cbn [w_pc shutdown do_pause] in E.
  destruct pc as [|x [|[v dsts] bs]| | | | | | | |]; try done.
  - destruct (get_data (gts g)) as [[[x|] q]|]; [..|done]; injection E as <-; by apply Hput.
  - injection E as <-. by apply Hput.
  - injection E as <-. destruct (0 <? length dsts)%nat; by apply Hput.
  - injection E as <-. by apply Hput.
  - injection E as <-. by apply Hput.
Qed.

(** ** Resuming *)

Definition resuming (m : Workers.main_pc) : bool :=
  match m with MIdle | MUnpause _ | MClear _ => true | _ => false end.

Definition resume_weight (n : N) (m : Workers.main_pc) : nat :=
  match m with
  | MUnpause i => 1 + 2 * (N.to_nat n - N.to_nat i)
  | MClear i => 2 + 2 * (N.to_nat n - (N.to_nat i + 1))
  | _ => 0
  end%nat.

Lemma update_worker_awake (i : N) f g : at_work g → (∀ w, awake w → awake (f w)) →
  at_work (update_worker i f g) ∧ num_workers (update_worker i f g) = num_workers g.
Proof using .
  intros Hw Hf. unfold update_worker. destruct (workers g !! i) as [w|] eqn:Hi; [|done].
  split; [|unfold num_workers; cbn; by rewrite length_insertN].
  by apply (at_work_insert g _ i (f w)); [|apply Hf, (at_work_lookup g i)|..].
Qed.

Lemma resume_awake g g' : at_work g → resume_workers g = Some g' →
  at_work g' ∧ resuming (main g') = true ∧ num_workers g' = num_workers g ∧
  (resume_weight (num_workers g) (main g') < resume_weight (num_workers g) (main g))%nat.
Proof using .
  intros Hw E. unfold resume_workers in E. destruct (main g) as [| | | | | | | |i|i| | | |]; try done.
  - destruct (N.ltb_spec i (num_workers g)) as [Hlt|Hge]; injection E as <-; [|split_and!; try done; cbn; lia].
    destruct (update_worker_awake i unpause g Hw) as [Ha Hn]; [by intros w (? & ? & ? & ?)|].
    split; [done|]. split; [done|]. split; [done|]. cbn. lia.
  - injection E as <-. destruct (update_worker_awake i (set_paused false) g Hw) as [Ha Hn]; [by intros w (? & ? & ? & ?)|].
    split; [done|]. split; [done|]. split; [done|]. cbn. lia.
Qed.

Lemma resume_moves g : resuming (main g) = true → main g = MIdle ∨ is_Some (resume_workers g).
Proof using . unfold resume_workers. intros Hr. destruct (main g); try done; [by left|right..]; [case_match|]; by eexists. Qed.
End Group.

(** * The stream, from where it is to its end *)

Section Stream.
Context `{P : Platform} `{!PlatformLaws P} {Q item D S U : Type} `{GL : GutteringLaws Q item}
  `{UFL : UnionFindLaws D} `{ST : GraphStream S U}.
Implicit Type d : GraphSketchDriver Q item D S U.

Context (END_OF_STREAM : N) (stream_ok : S → Prop) (remaining : S → list (GraphUpdate U)) (to_end : S → Prop).

(** What a stream delivers once its break point is its end: every update that is
    left to some caller, and a breakpoint only when none is left. *)
Record StreamDelivers : Prop := {
  sv_break s s' : stream_ok s → set_break_point END_OF_STREAM s = (s', true) → to_end s' ∧ remaining s' = remaining s;
  sv_get size s : to_end s →
    let r := get_update_buffer size s in let u := until_breakpoint r.2 in
    to_end r.1 ∧ remaining s ≡ₚ u.1 ++ remaining r.1 ∧ (u.2 = true → remaining r.1 = [])
}.

Context (delivers_all : StreamDelivers) (A : list (GraphUpdate U)).

(** Every update is handled, in the array of a thread or left in the stream. *)
Record accounted d : Prop := {
  ac_end : to_end (stream d);
  ac_all : handled d ++ (threads d ≫= t_updates) ++ remaining (stream d) ≡ₚ A;
  ac_stop : Forall (λ th, t_done th = true → remaining (stream d) = []) (threads d)
}.

(** What the call has handled when it returns: nothing without threads. *)
Definition complete d : Prop := handled d ≡ₚ if num_stream_threads d =? 0 then [] else A.

Definition streamed d : Prop :=
  match ph d with
  | PhResume => accounted d ∧ handled d = [] ∧ threads d = []
  | PhStream => accounted d ∧ N.of_nat (length (threads d)) = num_stream_threads d ∧
      (num_stream_threads d = 0 → handled d = [])
  | PhIdle => complete d
  | PhFlush => False
  | PhExited | PhTerminated => True
  end.

(** What the workers and the flush leave alone. *)
Definition same_stream d d' : Prop :=
  stream d' = stream d ∧ threads d' = threads d ∧ num_stream_threads d' = num_stream_threads d ∧ handled d' = handled d.

Lemma apply_update_batch_dsu_valid thr v dsts (cc : CCSketchAlg D) :
  dsu_valid (apply_update_batch thr v dsts cc).1 = dsu_valid cc.
Proof using .
  unfold apply_update_batch, on_sketch, mbind, M_bind, gets, lift, throw, modify.
  repeat (case_match; simplify_eq/=; try done).
Qed.

Lemma callbacks_frame bs : ∀ d, let d' := foldl (λ d b, driver_batch_callback b d) d bs in
  same_stream d d' ∧ dsu_valid (sketching_alg d') = dsu_valid (sketching_alg d).
Proof using .
  induction bs as [|[[thr v] dsts] bs IH]; intros d; [done|]. cbn [foldl].
  set (d1 := driver_batch_callback _ d). destruct (IH d1) as ((E1 & E2 & E3 & E4) & Ev).
  assert (same_stream d d1 ∧ dsu_valid (sketching_alg d1) = dsu_valid (sketching_alg d)) as [(F1 & F2 & F3 & F4) Fv].
  { subst d1. unfold driver_batch_callback. pose proof (apply_update_batch_dsu_valid thr v dsts (sketching_alg d)) as Hd.
    cbn [sketching_alg set_total]. by destruct (apply_update_batch _ _ _ _) as [alg []]. }
  split; [|congruence]. split_and!; congruence.
Qed.

Lemma driver_worker_frame i d d' : driver_worker i d = Some d' →
  same_stream d d' ∧ dsu_valid (sketching_alg d') = dsu_valid (sketching_alg d).
Proof using .
  unfold driver_worker. destruct (worker_step i (worker_threads d)) as [g|]; [|done]. cbn [mbind option_bind].
  intros [= <-]. apply (callbacks_frame _ (set_group g d)).
Qed.

(** ** Nothing is lost between the calls *)

Lemma accounted_same d d' : same_stream d d' → accounted d → accounted d'.
Proof using . intros (E1 & E2 & _ & E4) [He Ha Hs]. split; rewrite ?E1, ?E2, ?E4; done. Qed.

Lemma streamed_same d d' : same_stream d d' → ph d' = ph d → streamed d → streamed d'.
Proof using .
  intros Hs Ep. pose proof Hs as (E1 & E2 & E3 & E4). pose proof (accounted_same d d' Hs) as Ha.
  unfold streamed, complete. rewrite Ep, E2, E3, E4. destruct (ph d); tauto.
Qed.

Lemma stream_task_streamed t d d' : streamed d → stream_task t d = Some d' → streamed d'.
Proof using delivers_all.
  intros Hst E. unfold streamed in Hst. unfold stream_task in E. destruct (ph d) eqn:Eph; try done.
  destruct Hst as ([He Ha Hs] & HL & H0t). destruct (threads d !! t) as [[ins us st]|] eqn:Et; [|done].
  cbn [mbind option_bind t_inserts t_updates t_done] in E. pose proof Et as Et'. rewrite lookupN_eq in Et'.
  pose proof (λ th, bind_insert_swap t_updates (threads d) (N.to_nat t) _ th Et') as Hbi. cbn [t_updates] in Hbi.
  assert (st = true → remaining (stream d) = []) as Hst by exact (Forall_lookup_1 _ _ _ _ Hs Et').
  assert (0 < num_stream_threads d) as Hpos by (apply lookup_lt_Some in Et'; lia).
  destruct ins as [|e ins]; [destruct us as [|u us]|].
  - destruct st; [done|]. destruct (sv_get delivers_all update_array_size (stream d) He) as (He' & Hr & Hstop).
    destruct (get_update_buffer update_array_size (stream d)) as [s us]. cbn [fst snd] in *.
    destruct (until_breakpoint us) as [us' st]. cbn [fst snd] in *. injection E as <-.
    unfold streamed. cbn. rewrite Eph. split; [split; cbn|by rewrite length_insertN].
    + done.
    + specialize (Hbi (mkStreamThread [] us' st)). rewrite app_nil_r in Hbi. cbn [t_updates] in Hbi.
      rewrite <-Ha, Hr. apply Permutation_app_head. change (<[t:=?x]> (threads d)) with (<[N.to_nat t:=x]> (threads d)).
      by rewrite Hbi, <-app_assoc.
    + apply Forall_insert; [|done]. eapply Forall_impl; [exact Hs|]. cbn. intros th Hth Hdone. specialize (Hth Hdone).
      rewrite Hth in Hr. apply Permutation_nil_l in Hr. symmetry in Hr. apply app_eq_nil in Hr. apply Hr.
  - set (d1 := set_threads _ _) in E. assert (streamed d1) as H1'.
    { unfold streamed, d1. cbn. rewrite Eph. split; [split; cbn|split; [by rewrite length_insertN|lia]].
      - done.
      - specialize (Hbi (mkStreamThread (sides u) us st)). cbn [t_updates] in Hbi. rewrite <-Ha, <-app_assoc. apply Permutation_app_head.
        rewrite app_assoc. apply Permutation_app_tail, (Permutation_app_inv_r us).
        change (<[t:=?x]> (threads d)) with (<[N.to_nat t:=x]> (threads d)). rewrite <-Hbi.
        apply (Permutation_middle _ us u).
      - by apply Forall_insert. }
    destruct (pre_insert u _) as [alg [x|e| |]]; injection E as <-; [by apply (streamed_same d1)|exact I..].
  - injection E as <-. unfold streamed. cbn. rewrite Eph. split; [split; cbn|by rewrite length_insertN].
    + done.
    + specialize (Hbi (mkStreamThread ins us st)). cbn [t_updates] in Hbi. rewrite <-Ha. apply Permutation_app_head, Permutation_app_tail.
      change (<[t:=?x]> (threads d)) with (<[N.to_nat t:=x]> (threads d)). by apply Permutation_app_inv_r in Hbi.
    + by apply Forall_insert.
Qed.

Lemma driver_resume_streamed d d' : streamed d → driver_resume d = Some d' → streamed d'.
Proof using .
  intros Hst E. unfold streamed in Hst. unfold driver_resume in E. destruct (ph d) eqn:Eph; try done.
  assert (∀ g, streamed (set_group g d)) as Hg.
  { intros g. apply (streamed_same d); [done|done|]. unfold streamed. by rewrite Eph. }
  destruct (main (worker_threads d)); try (destruct (resume_workers _) as [g|]; [|done]; injection E as <-; apply Hg).
  injection E as <-. destruct Hst as ([He Ha _] & Hh & Ht). rewrite Ht in Ha. cbn [mbind list_bind app] in Ha.
  unfold streamed. cbn. split; [split; cbn|split; [rewrite length_replicate; lia|done]].
  - done.
  - rewrite <-Ha. apply Permutation_app_head. clear. by induction (N.to_nat (num_stream_threads d)).
  - by apply Forall_replicate.
Qed.

Lemma join_threads_streamed d d' : streamed d → join_threads d = Some d' → streamed d'.
Proof using .
  intros Hst E. unfold streamed in Hst. unfold join_threads in E. destruct (ph d); try done.
  destruct (forallb finished (threads d)) eqn:Ef; [|done]. injection E as <-. destruct Hst as ([He Ha Hs] & HL & H0t).
  unfold streamed, complete. cbn. destruct (N.eqb_spec (num_stream_threads d) 0) as [E0|Hne]; [by rewrite H0t|].
  rewrite forallb_forall in Ef.
  assert (∀ th, th ∈ threads d → t_updates th = [] ∧ t_done th = true) as Hfin.
  { intros [ins us st] Hin%list_elem_of_In. specialize (Ef _ Hin). unfold finished in Ef. cbn in *. by destruct ins, us, st. }
  rewrite <-Ha. assert (threads d ≫= t_updates = []) as ->.
  { clear -Hfin. induction (threads d) as [|th ths IH]; [done|]. cbn [mbind list_bind]. rewrite (proj1 (Hfin th (list_elem_of_here _ _))).
    apply IH. intros th' Hin. apply Hfin. by right. }
  destruct (threads d) as [|th ths]; [simpl in HL; lia|]. apply Forall_cons in Hs as [Hth _].
  rewrite Hth by (apply Hfin; left). by rewrite !app_nil_r.
Qed.

Lemma process_stream_until_streamed d d' : ph d = PhIdle → handled d = [] → threads d = [] → remaining (stream d) = A →
  stream_ok (stream d) → process_stream_until END_OF_STREAM d = Some d' → streamed d' ∧ num_stream_threads d' = num_stream_threads d.
Proof using delivers_all.
  intros Hp Hh Ht Hr Hok E. unfold process_stream_until in E. rewrite Hp in E.
  destruct (set_break_point END_OF_STREAM (stream d)) as [s [|]] eqn:Eb.
  - destruct (start CResume (worker_threads d)) as [g|]; [|done]. injection E as <-.
    destruct (sv_break delivers_all _ _ Hok Eb) as [He Er]. split; [|done]. unfold streamed. cbn. split; [|done].
    split; cbn; [done| |by rewrite Ht]. rewrite Hh, Ht, Er, Hr. done.
  - injection E as <-. split; [exact I|done].
Qed.
End Stream.

(** * Runs of the program *)

Section Runs.
Context `{P : Platform} `{!PlatformLaws P} {Q item D S U : Type} `{GL : GutteringLaws Q item}
  `{UFL : UnionFindLaws D} `{ST : GraphStream S U} {C : Type}.
Implicit Type d : GraphSketchDriver Q item D S U.
Implicit Type p : process_state Q item D S U.

Context (END_OF_STREAM : N) (remaining : S → list (GraphUpdate U)) (to_end : S → Prop)
  (stream_ok : S → Prop)
  (delivers_all : StreamDelivers END_OF_STREAM stream_ok remaining to_end).
Context (T n k : N) (PT : Partitioned n T) (b : Sketch) (d0 : GraphSketchDriver Q item D S U)
  (Hstart : started (C := C) n k b stream_ok d0) (A : list (GraphUpdate U)).

(** A flush starts when no worker is between an empty-handed [get_data] and its
    next call, and the checksums of a query tell the truth. *)
Definition main_ok (sch : Schedules) (order : list N) p : Prop :=
  match p_pc p with
  | PcPrep _ => ∀ d, prep_query CONNECTIVITY (p_driver p) = Some d → ph d = PhFlush → ready_to_flush (worker_threads d)
  | PcQuery _ => valid_call n k (CallConnected sch order : call U) ∧
      reliable_query b ∅ T (CallConnected sch order : call U) (p_driver p)
  | _ => True
  end.

Abbreviation step spurious := (process_step spurious END_OF_STREAM T main_ok).

(** The answer of the next query, or one that is being flushed for. *)
Definition settled d : Prop :=
  dsu_valid (sketching_alg d) = true ∧ ph d = PhIdle ∨ ∃ todo us, flushing n k b ∅ stream_ok todo us d.

(** The graph the queries see: that of the stream, if there are threads to read it. *)
Definition streamed_graph d : gset N :=
  toggles (stream_ids (if num_stream_threads d =? 0 then [] else A)).

Definition counts d (c : N) : Prop := components_count n (streamed_graph d) c.

(** What has been answered before the first, or the second, query. *)
Definition answered (second : bool) p : Prop :=
  let d := p_driver p in
  complete A d ∧
  if second then dsu_valid (sketching_alg d) = true ∧ ∃ c, p_out p = [c] ∧ counts d c else p_out p = [].

Definition pc_inv p : Prop :=
  let d := p_driver p in
  match p_pc p with
  | PcProcess => ph d = PhIdle ∧ handled d = [] ∧ remaining (stream d) = A ∧ p_out p = []
  | PcProcessing => streamed remaining to_end A d ∧ p_out p = []
  | PcPrep second => ph d = PhIdle ∧ answered second p
  | PcPrepping second => settled d ∧ answered second p
  | PcQuery second => ph d = PhIdle ∧ settled d ∧ answered second p
  | PcJoin => ph d = PhIdle ∧ answered false p ∧ dsu_valid (sketching_alg d) = true ∧ counts d (p_CC_num p)
  | PcReturned => ph d = PhIdle ∧ ∃ c, p_out p = [c; c] ∧ counts d c
  | PcDelete _ => ∃ c, p_out p = [c; c] ∧ counts d c
  end.

Definition group_of p : notify_state Q item := notify_of (p_driver p) (p_waits p).

(** A run of the driver, a worker that is about to block being right to do so; or
    the destructor after such a run. *)
Definition reached p : Prop :=
  match p_pc p with
  | PcDelete at_ => ∃ d, rtc (protocol_step n k b ∅ T) d0 d ∧
      deletion_inv n k b ∅ stream_ok d (mkDeletion (mkDestructing at_ (p_driver p)) (p_waits p))
  | _ => rtc (protocol_step n k b ∅ T) d0 (p_driver p) ∧ will_block (group_of p)
  end.

(** No worker has been told to pause before the first [prep_query]. *)
Definition unpaused p : Prop :=
  match p_pc p with PcProcess | PcProcessing | PcPrep false => at_work (worker_threads (p_driver p)) | _ => True end.

Definition deleting (pc : ProcessStream.main_pc) : bool := match pc with PcDelete _ => true | _ => false end.

(** A bar of twenty characters, and a percentage. *)
Definition line_ok (l : string * Z) : Prop := String.length l.1 = 20%nat ∧ (0 ≤ l.2 ≤ 100)%Z.

Record process_inv p : Prop := {
  pi_reached : reached p;
  pi_threads : num_stream_threads (p_driver p) = num_stream_threads d0;
  pi_pc : pc_inv p;
  pi_unpaused : unpaused p;
  pi_total : p_total p ≤ 2 ^ 52;
  pi_track : p_track p ≠ TrFailed;
  pi_lines : Forall line_ok (p_lines p)
}.

Lemma pi_runs p : process_inv p → deleting (p_pc p) = false → rtc (protocol_step n k b ∅ T) d0 (p_driver p) ∧ will_block (group_of p).
Proof using . intros HI Hd. pose proof (pi_reached p HI) as Hr. unfold reached in Hr. by destruct (p_pc p). Qed.

Lemma pi_driver p : process_inv p → driver_inv n k b ∅ stream_ok (p_driver p).
Proof using All.
  intros HI. destruct (deleting (p_pc p)) eqn:Ed.
  - pose proof (pi_reached p HI) as Hr. unfold reached in Hr. destruct (p_pc p); try done. destruct Hr as (d & _ & [HX _]).
    exact (xi_inv _ _ _ _ _ _ _ HX).
  - exact (runs_inv T n k b stream_ok d0 _ PT Hstart (proj1 (pi_runs p HI Ed))).
Qed.

Lemma pi_idle p at_ : process_inv p → p_pc p = PcDelete at_ → ph (p_driver p) = PhIdle.
Proof using .
  intros HI Epc. pose proof (pi_reached p HI) as Hr. unfold reached in Hr. rewrite Epc in Hr. destruct Hr as (d & _ & [HX _]).
  exact (xi_phase _ _ _ _ _ _ _ HX).
Qed.

Lemma pi_waits p : process_inv p → waits_ok (group_of p).
Proof using .
  intros HI. destruct (deleting (p_pc p)) eqn:Ed.
  - pose proof (pi_reached p HI) as Hr. unfold reached in Hr. destruct (p_pc p); try done. by destruct Hr as (d & _ & [_ Hw]).
  - apply will_block_ok. by apply pi_runs.
Qed.

(** ** Steps of the driver *)

Lemma driver_call_driver d d' : driver_call_step d d' → driver_step d d'.
Proof using .
  intros [t ? ? E|? ? E|t ? ? E|? ? E]; [by apply DriverFlush, (FlushPhaseMain t)|by apply DriverResume|by apply (DriverTask t)|by apply DriverJoin].
Qed.

(** A worker's step leaves what [pc_inv] says. *)
Lemma answered_frame second p d : same_stream (p_driver p) d → dsu_valid (sketching_alg d) = dsu_valid (sketching_alg (p_driver p)) →
  answered second p → answered second (set_driver d p).
Proof using .
  intros (_ & _ & E3 & E4) Ev. unfold answered, complete, counts, streamed_graph. cbn [p_driver p_out set_driver].
  by rewrite E3, E4, Ev.
Qed.

Lemma settled_worker i d d' : driver_inv n k b ∅ stream_ok d → driver_worker i d = Some d' → running d = true → settled d → settled d'.
Proof using All.
  intros HI E Hr [[Hv Hp]|(todo & us & HF)].
  - left. destruct (driver_worker_inv n k b ∅ stream_ok i d d' HI E) as (_ & Ep & _). destruct (driver_worker_frame i d d' E) as [_ Ev].
    by rewrite Ev, Ep.
  - right. exists todo, us. apply (flushing_step n k b ∅ stream_ok todo us d); [done|]. by apply (FlushPhaseWorker i).
Qed.

Lemma worker_pc_inv i p d : process_inv p → running (p_driver p) = true → driver_worker i (p_driver p) = Some d →
  pc_inv (set_driver d p).
Proof using All.
  intros HI Hr E. pose proof (pi_driver p HI) as Hd. destruct (driver_worker_inv n k b ∅ stream_ok i _ d Hd E) as (_ & Ep & _).
  destruct (driver_worker_frame i _ d E) as [Hs Ev]. pose proof Hs as (E1 & E2 & E3 & E4). pose proof (pi_pc p HI) as Hpc.
  pose proof (λ second, answered_frame second p d Hs Ev) as Ha. pose proof (settled_worker i _ d Hd E Hr) as Hse.
  unfold pc_inv in *. cbn [p_pc set_driver p_driver p_out p_CC_num] in *. unfold counts, streamed_graph in *. rewrite Ep, ?E1, ?E3, ?E4, ?Ev.
  destruct (p_pc p); [done| |naive_solver..]. destruct Hpc as [Hst Ho]. split; [|done]. by apply (streamed_same _ _ A (p_driver p)).
Qed.

Lemma flush_pc_inv t p d : process_inv p → driver_flush t (p_driver p) = Some d → pc_inv (set_driver d p).
Proof using All.
  intros HI E. pose proof (pi_pc p HI) as Hpc. assert (ph (p_driver p) = PhFlush) as Hp by (unfold driver_flush in E; by destruct (ph (p_driver p))).
  assert (same_stream (p_driver p) d ∧ dsu_valid (sketching_alg d) = dsu_valid (sketching_alg (p_driver p))) as [Hs Ev].
  { unfold driver_flush in E. rewrite Hp in E.
    destruct (main (worker_threads (p_driver p))); try (destruct (flush_workers _ _) as [g|]; [|done]); by injection E as <-. }
  pose proof Hs as (E1 & E2 & E3 & E4). pose proof (λ second, answered_frame second p d Hs Ev) as Ha.
  unfold pc_inv in *. cbn [p_pc set_driver p_driver p_out p_CC_num] in *. unfold counts, streamed_graph in *. rewrite Hp in Hpc.
  destruct (p_pc p); try (by destruct Hpc).
  - destruct Hpc as [Hst _]. unfold streamed in Hst. by rewrite Hp in Hst.
  - destruct Hpc as [[[_ Hbad]|(todo & us & HF)] Han]; [congruence|]. split; [|by apply Ha]. right. exists todo, us.
    apply (flushing_step n k b ∅ stream_ok todo us (p_driver p)); [done|]. by apply (FlushPhaseMain t).
  - by rewrite E3.
Qed.

(** Steps of [process_stream_until]. *)
Lemma stream_pc_inv p d : process_inv p → in_stream (ph (p_driver p)) = true ∨ ph (p_driver p) = PhResume →
  (streamed remaining to_end A (p_driver p) → streamed remaining to_end A d) →
  num_stream_threads d = num_stream_threads (p_driver p) → pc_inv (set_driver d p).
Proof using .
  intros HI Hp Hst E3. pose proof (pi_pc p HI) as Hpc. unfold pc_inv in *. cbn [p_pc set_driver p_driver p_out] in *.
  assert (ph (p_driver p) ≠ PhIdle ∧ ph (p_driver p) ≠ PhFlush) as [H1' H2'] by (destruct Hp as [Hp| ->]; [by destruct (ph (p_driver p))|done]).
  destruct (p_pc p); try (by destruct Hpc).
  - split; [apply Hst|]; apply Hpc.
  - destruct Hpc as [[[_ Hbad]|(todo & us & HF)] _]; [done|]. destruct (fl_phase _ _ _ _ _ _ _ _ HF) as [?|[? _]]; done.
  - destruct Hpc as (c & Ho & Hc). exists c. split; [done|]. unfold counts, streamed_graph. by rewrite E3.
Qed.

Lemma stream_task_threads t d d' : stream_task t d = Some d' → num_stream_threads d' = num_stream_threads d ∧ in_stream (ph d) = true.
Proof using .
  unfold stream_task. destruct (ph d); try done. destruct (threads d !! t) as [[[|e ins] [|u us] st]|]; try done; cbn [mbind option_bind t_inserts t_updates t_done];
    [destruct st; [done|]; destruct (get_update_buffer _ _) as [s us]; destruct (until_breakpoint us)|
     destruct (pre_insert _ _) as [alg []]|..]; by intros [= <-].
Qed.

Lemma driver_resume_threads d d' : driver_resume d = Some d' → num_stream_threads d' = num_stream_threads d ∧ ph d = PhResume.
Proof using .
  unfold driver_resume. destruct (ph d); try done.
  destruct (main (worker_threads d)); try (destruct (resume_workers _) as [g|]; [|done]); by intros [= <-].
Qed.

Lemma join_threads_threads d d' : join_threads d = Some d' → num_stream_threads d' = num_stream_threads d ∧ in_stream (ph d) = true.
Proof using . unfold join_threads. destruct (ph d); try done. destruct (forallb _ _); [|done]. by intros [= <-]. Qed.

Lemma driver_flush_threads t d d' : driver_flush t d = Some d' → num_stream_threads d' = num_stream_threads d.
Proof using .
  unfold driver_flush. destruct (ph d); try done.
  destruct (main (worker_threads d)); try (destruct (flush_workers _ _) as [g|]; [|done]); by intros [= <-].
Qed.

Lemma driver_call_pc_inv p d : process_inv p → driver_call_step (p_driver p) d →
  pc_inv (set_driver d p) ∧ num_stream_threads d = num_stream_threads (p_driver p).
Proof using All.
  intros HI Hs. inversion Hs as [t ? ? E|? ? E|t ? ? E|? ? E]; subst.
  - split; [by apply (flush_pc_inv t)|by apply (driver_flush_threads t)].
  - destruct (driver_resume_threads _ _ E) as [E3 Hp]. split; [|done]. apply stream_pc_inv; [done|by right| |done].
    intros Hst. by apply (driver_resume_streamed remaining to_end A (p_driver p)).
  - destruct (stream_task_threads t _ _ E) as [E3 Hp]. split; [|done]. apply stream_pc_inv; [done|by left| |done].
    intros Hst. by apply (stream_task_streamed END_OF_STREAM stream_ok remaining to_end delivers_all A t (p_driver p)).
  - destruct (join_threads_threads _ _ E) as [E3 Hp]. split; [|done]. apply stream_pc_inv; [done|by left| |done].
    intros Hst. by apply (join_threads_streamed remaining to_end A (p_driver p)).
Qed.

(** Which call is running. *)
Lemma streaming_pc p : process_inv p → in_stream (ph (p_driver p)) = true ∨ ph (p_driver p) = PhResume → p_pc p = PcProcessing.
Proof using .
  intros HI Hp. pose proof (pi_pc p HI) as Hpc. unfold pc_inv in Hpc.
  assert (ph (p_driver p) ≠ PhIdle ∧ ph (p_driver p) ≠ PhFlush) as [H1' H2'] by (destruct Hp as [Hp| ->]; [by destruct (ph (p_driver p))|done]).
  destruct (p_pc p) as [| | | | | | |at_] eqn:Epc; try done; try (by destruct Hpc).
  - destruct Hpc as [[[_ Hbad]|(todo & us & HF)] _]; [done|]. destruct (fl_phase _ _ _ _ _ _ _ _ HF) as [?|[? _]]; done.
  - by destruct (H1' (pi_idle p at_ HI Epc)).
Qed.

Lemma flushing_pc p : process_inv p → ph (p_driver p) = PhFlush → ∃ second, p_pc p = PcPrepping second.
Proof using .
  intros HI Hp. pose proof (pi_pc p HI) as Hpc. unfold pc_inv in Hpc.
  destruct (p_pc p) as [| | |second| | | |at_] eqn:Epc; try (destruct Hpc; congruence); [|by exists second|by pose proof (pi_idle p at_ HI Epc); congruence].
  destruct Hpc as [Hst _]. unfold streamed in Hst. by rewrite Hp in Hst.
Qed.

Lemma at_work_blocking d ws : at_work (worker_threads d) → waits_ok (notify_of d ws) → blocking ws = None.
Proof using .
  intros Hw Hok. destruct (blocking ws) as [i|] eqn:Eb; [|done]. destruct (Hok i Eb) as (w & Hi & Hpc & _).
  destruct (at_work_lookup _ i w Hw Hi) as (_ & _ & _ & Ha). by rewrite Hpc in Ha.
Qed.

(** Outside [resume_workers] the threads that read the stream and [join] leave the
    workers alone. *)
Lemma stream_task_workers t d d' : stream_task t d = Some d' →
  workers (worker_threads d') = workers (worker_threads d) ∧ flush_lock (worker_threads d') = flush_lock (worker_threads d) ∧
  main (worker_threads d') = main (worker_threads d).
Proof using .
  unfold stream_task. destruct (ph d); try done. destruct (threads d !! t) as [[[|e ins] [|u us] st]|]; try done; cbn [mbind option_bind t_inserts t_updates t_done];
    [destruct st; [done|]; destruct (get_update_buffer _ _) as [s us]; destruct (until_breakpoint us)|
     destruct (pre_insert _ _) as [alg []]|..]; by intros [= <-].
Qed.

Lemma join_threads_workers d d' : join_threads d = Some d' → worker_threads d' = worker_threads d.
Proof using . unfold join_threads. destruct (ph d); try done. destruct (forallb _ _); [|done]. by intros [= <-]. Qed.

Lemma driver_call_waits p d : process_inv p → driver_call_step (p_driver p) d →
  deleting (p_pc p) = false ∧ will_block (group_of (driver_moves d p)) ∧ unpaused (driver_moves d p).
Proof using .
  intros HI Hs.
  assert (deleting (p_pc p) = false) as Hdel.
  { destruct (p_pc p) as [| | | | | | |at_] eqn:Epc; try done. pose proof (pi_idle p at_ HI Epc) as Hp.
    inversion Hs as [t ? ? E|? ? E|t ? ? E|? ? E]; subst; [unfold driver_flush in E|unfold driver_resume in E|unfold stream_task in E|unfold join_threads in E]; by rewrite Hp in E. }
  destruct (pi_runs p HI Hdel) as [_ Hw]. pose proof (pi_unpaused p HI) as Hu. split; [done|].
  assert (∀ g : WorkerThreadGroup Q item, workers (worker_threads d) = workers g → flush_lock (worker_threads d) = flush_lock g → at_work g → at_work (worker_threads d)) as Hat.
  { intros g Ew El [Hl Hall]. split; [congruence|by rewrite Ew]. }
  assert (p_pc p = PcProcessing → at_work (worker_threads d) → will_block (group_of (driver_moves d p)) ∧ unpaused (driver_moves d p)) as Hstream.
  { intros Epc Ha. unfold unpaused in Hu |- *. rewrite Epc in Hu. cbn [driver_moves set_waits set_driver p_pc p_driver]. rewrite Epc. split; [|done].
    intros i Hi. cbn in Hi. unfold driver_notifies in Hi. rewrite main_notifies_blocking in Hi.
    rewrite (at_work_blocking _ _ Hu (will_block_ok _ Hw)) in Hi. done. }
  inversion Hs as [t ? ? E|? ? E|t ? ? E|? ? E]; subst.
  - assert (ph (p_driver p) = PhFlush) as Hp by (unfold driver_flush in E; by destruct (ph (p_driver p))).
    destruct (flushing_pc p HI Hp) as [second Epc]. unfold unpaused. cbn [driver_moves set_waits set_driver p_pc]. rewrite Epc. split; [|done].
    unfold driver_flush in E. rewrite Hp in E. unfold group_of, notify_of, driver_moves, driver_notifies. cbn [p_driver p_waits set_waits set_driver].
    destruct (main (worker_threads (p_driver p))) eqn:Em;
      try (destruct (flush_workers t _) as [g|] eqn:Ef; [|done]; injection E as <-; cbn [worker_threads set_group]; by apply (will_block_flush t)).
    injection E as <-. cbn [worker_threads set_ph]. unfold main_notifies. by rewrite Em.
  - destruct (driver_resume_threads _ _ E) as [_ Hp]. pose proof (streaming_pc p HI (or_intror Hp)) as Epc. apply (Hstream Epc).
    unfold unpaused in Hu. rewrite Epc in Hu. unfold driver_resume in E. rewrite Hp in E.
    destruct (main (worker_threads (p_driver p))); try (destruct (resume_workers _) as [g|] eqn:Eg; [|done]; injection E as <-; by apply (resume_awake _ g Hu)).
    by injection E as <-.
  - destruct (stream_task_threads t _ _ E) as [_ Hp]. pose proof (streaming_pc p HI (or_introl Hp)) as Epc. apply (Hstream Epc).
    unfold unpaused in Hu. rewrite Epc in Hu. destruct (stream_task_workers t _ _ E) as (Ew & El & _). by apply (Hat (worker_threads (p_driver p))).
  - destruct (join_threads_threads _ _ E) as [_ Hp]. pose proof (streaming_pc p HI (or_introl Hp)) as Epc. apply (Hstream Epc).
    unfold unpaused in Hu. rewrite Epc in Hu. by rewrite (join_threads_workers _ _ E).
Qed.

(** ** Steps of [main] *)

Lemma process_inv_step p p' : process_inv p → deleting (p_pc p) = false → deleting (p_pc p') = false →
  rtc (protocol_step n k b ∅ T) (p_driver p) (p_driver p') → (will_block (group_of p) → will_block (group_of p')) →
  num_stream_threads (p_driver p') = num_stream_threads (p_driver p) → p_total p' = p_total p → p_track p' = p_track p →
  p_lines p' = p_lines p → pc_inv p' → unpaused p' → process_inv p'.
Proof using .
  intros HI Hd Hd' Hs Hw E3 E4 E5 E6 Hpc Hu. destruct (pi_runs p HI Hd) as [Hr Hw0]. destruct HI as [_ Ht _ _ Hto Htr Hl].
  split; [|congruence|done|done|by rewrite E4|by rewrite E5|by rewrite E6].
  unfold reached. destruct (p_pc p'); try done; (split; [by etrans|by apply Hw]).
Qed.

(** Starting a method moves the driving thread alone. *)
Lemma start_workers c (g g' : WorkerThreadGroup Q item) : start c g = Some g' → workers g' = workers g ∧ flush_lock g' = flush_lock g.
Proof using . unfold start. destruct c, (main g); try done; by intros [= <-]. Qed.

Lemma same_waits p p' : workers (worker_threads (p_driver p')) = workers (worker_threads (p_driver p)) → p_waits p' = p_waits p →
  will_block (group_of p) → will_block (group_of p').
Proof using . intros Ew Es. unfold group_of, notify_of. apply will_block_same; [done|by rewrite Es]. Qed.

Lemma prep_pc_inv second sch order p d : process_inv p → p_pc p = PcPrep second → main_ok sch order p →
  prep_query CONNECTIVITY (p_driver p) = Some d → process_inv (set_pc (PcPrepping second) (set_driver d p)).
Proof using All.
  intros HI Epc Hok E. pose proof (pi_driver p HI) as Hd. pose proof (pi_pc p HI) as Hpc. unfold pc_inv in Hpc. rewrite Epc in Hpc.
  destruct Hpc as [Hp Ha]. unfold main_ok in Hok. rewrite Epc in Hok.
  assert (same_stream (p_driver p) d ∧ sketching_alg d = sketching_alg (p_driver p) ∧ settled d ∧
    workers (worker_threads d) = workers (worker_threads (p_driver p))) as (Hs & Ea & Hse & Ew).
  { pose proof E as E'. unfold prep_query in E. rewrite Hp in E. destruct (has_cached_query _ _) eqn:Ec.
    - injection E as <-. split; [done|]. split; [done|]. split; [|done]. left. split; [|done].
      destruct (de_cache _ _ _ _ _ _ _ (di_alg _ _ _ _ _ _ Hd)) as (_ & _ & _ & <- & _). exact Ec.
    - destruct (start CFlush _) as [g|] eqn:Eg; [|done]. injection E as <-. split; [done|]. split; [done|].
      split; [|exact (proj1 (start_workers CFlush _ g Eg))]. right. eexists _, _. apply (prep_query_flushing n k b ∅ stream_ok CONNECTIVITY (p_driver p)); [done|done|done|by apply Hok]. }
  pose proof Hs as (_ & _ & E3 & _). apply (process_inv_step p); [done|by rewrite Epc|done| |by apply same_waits|done..| |done].
  - apply rtc_once, ProtocolDriver. by apply (DriverPrep CONNECTIVITY).
  - split; [done|]. apply (answered_frame second p d Hs); [by rewrite Ea|done].
Qed.

Lemma query_pc_inv second sch order p d ans : process_inv p → p_pc p = PcQuery second → main_ok sch order p →
  driver_query T (CallConnected sch order : call U) (p_driver p) = Some (d, RComponents ans) →
  let p' := set_CC_num (components_size ans) (set_driver d p) in
  process_inv (if second then set_pc PcReturned (print_CC_num p') else set_pc PcJoin (set_shutdown p')).
Proof using All.
  intros HI Epc Hok E p'. pose proof (pi_driver p HI) as Hd. pose proof (pi_pc p HI) as Hpc. unfold pc_inv in Hpc. rewrite Epc in Hpc.
  destruct Hpc as (Hp & Hse & Ha). unfold main_ok in Hok. rewrite Epc in Hok. destruct Hok as [Hv Hrel].
  assert (prepared (p_driver p)) as Hprep.
  { destruct Hse as [[Hv' _]|(todo & us & HF)]; [by left|right]. destruct (sd_workers _ _ _ _ _ Hstart) as [Hk0 _].
    by apply (flushed_all n k b ∅ stream_ok todo us). }
  destruct (prepared_query_ok n k b ∅ stream_ok T PT (empty_graph n) (CallConnected sch order : call U) _ Hd eq_refl Hv Hprep Hrel) as (cc' & o & Er & Hres).
  pose proof E as E'. unfold driver_query in E. rewrite Hp, Er in E. destruct o as [r|e| |]; try done.
  assert (d = set_alg cc' (p_driver p) ∧ r = RComponents ans) as [-> ->] by (destruct r; try discriminate; injection E as E1 E2; split; congruence).
  destruct Hres as (_ & Hv' & Hcc). cbn [query_answer] in Hcc. destruct Hcc as (_ & Hcount & _).
  destruct Ha as [Hcomp Ha]. assert (counts (p_driver p) (components_size ans)) as Hc.
  { unfold counts, streamed_graph. rewrite (left_id ∅ symdiff) in Hcount. unfold complete in Hcomp.
    assert (toggles (stream_ids (handled (p_driver p))) =
      toggles (stream_ids (if num_stream_threads (p_driver p) =? 0 then [] else A))) as <-; [|done].
    apply toggles_perm. unfold stream_ids. by rewrite Hcomp. }
  assert (rtc (protocol_step n k b ∅ T) (p_driver p) (set_alg cc' (p_driver p))) as Hstep.
  { apply rtc_once. exact (ProtocolQuery n k b ∅ T (CallConnected sch order : call U) _ _ _ eq_refl Hv Hprep Hrel E'). }
  destruct second; (apply (process_inv_step p); [done|by rewrite Epc|done|done|by apply same_waits|done..| |done]).
  - split; [done|]. destruct Ha as [_ (c & Ho & Hc')]. exists c. cbn. rewrite Ho. split; [|done].
    cbn. f_equal. f_equal. exact (components_count_unique _ _ _ _ Hc Hc').
  - split; [done|]. split; [by split|]. by split.
Qed.

Lemma delete_inv sch order p p' : process_inv p → main_step END_OF_STREAM T sch order p = Some p' →
  p_pc p = PcReturned ∨ deleting (p_pc p) = true → process_inv p'.
Proof using All.
  intros HI E Hpc. pose proof (pi_pc p HI) as Hpi. pose proof (pi_reached p HI) as Hr. pose proof (pi_threads p HI) as Ht.
  assert (∀ x ws d, rtc (protocol_step n k b ∅ T) d0 d → deletion_inv n k b ∅ stream_ok d (mkDeletion x ws) → num_stream_threads (x_driver x) = num_stream_threads (p_driver p) →
    (∃ c, p_out p = [c; c] ∧ counts (p_driver p) c) → process_inv (set_pc (PcDelete (x_pc x)) (set_waits ws (set_driver (x_driver x) p)))) as Hnew.
  { intros x ws d Hs HX En (c & Ho & Hc). destruct HI as [_ _ _ _ Hto Htr Hl].
    split; cbn; [exists d; split; [done|]; by destruct x|congruence|exists c; split; [done|]; unfold counts, streamed_graph; by rewrite En|done..]. }
  unfold main_step in E. unfold pc_inv, reached in *. destruct (p_pc p) as [| | | | | | |at_] eqn:Epc; try (by destruct Hpc).
  - destruct (begin_destructor (p_driver p)) as [x|] eqn:Ex; [|done]. injection E as <-. destruct Hr as [Hs Hw], Hpi as [Hp Hpi].
    destruct (runs_ok n k b stream_ok T PT d0 (p_driver p) Hstart Hs) as [Hd Hok].
    apply (Hnew x (p_waits p) (p_driver p)); [done| | |done].
    + apply begin_deletion_inv; [done|done|by apply will_block_ok|done].
    + unfold begin_destructor in Ex. rewrite Hp in Ex. destruct (start _ _) as [g|]; [|done]. by injection Ex as <-.
  - destruct (destructor _) as [x|] eqn:Ex; [|done]. injection E as <-. destruct Hr as (d & Hs & HX).
    apply (Hnew x (driver_notifies (p_driver p) (x_driver x) (p_waits p)) d); [done| | |done].
    + apply (deletion_inv_step n k b ∅ stream_ok false d _ _ HX). exact (DeletionMain _ _ x (p_waits p) Ex).
    + unfold destructor in Ex. cbn [x_pc x_driver] in Ex. destruct at_; [|by injection Ex as <-|done].
      destruct (main (worker_threads (p_driver p))); try (destruct (destroy _) as [g|]; [|done]); by injection Ex as <-.
Qed.

Lemma main_step_inv sch order p p' : process_inv p → main_ok sch order p → main_step END_OF_STREAM T sch order p = Some p' →
  process_inv p'.
Proof using All.
  intros HI Hok E. pose proof (pi_driver p HI) as Hd. pose proof (pi_pc p HI) as Hpc. pose proof (pi_unpaused p HI) as Hu. pose proof E as E0. unfold main_step in E.
  destruct (p_pc p) as [| |second|second|second| | |at_] eqn:Epc; try done; unfold pc_inv in Hpc; unfold unpaused in Hu; rewrite Epc in Hpc, Hu.
  - destruct (process_stream_until _ _) as [d|] eqn:Ed; [|done]. injection E as <-. destruct Hpc as (Hp & Hh & Hr & Ho).
    destruct (process_stream_until_streamed END_OF_STREAM stream_ok remaining to_end delivers_all A (p_driver p) d) as [Hst E3]; [done|done| |done|apply Hd|done|].
    { apply (di_joined _ _ _ _ _ _ Hd). by rewrite Hp. }
    assert (workers (worker_threads d) = workers (worker_threads (p_driver p)) ∧ flush_lock (worker_threads d) = flush_lock (worker_threads (p_driver p))) as [Ew El].
    { unfold process_stream_until in Ed. rewrite Hp in Ed. destruct (set_break_point _ _) as [s [|]]; [|by injection Ed as <-].
      destruct (start CResume _) as [g|] eqn:Eg; [|done]. injection Ed as <-. exact (start_workers CResume _ g Eg). }
    apply (process_inv_step p); [done|by rewrite Epc|done| |by apply same_waits|done..|by split|].
    + apply rtc_once, ProtocolDriver. by apply (DriverStream END_OF_STREAM).
    + destruct Hu as [Hl Hw]. split; cbn; [congruence|by rewrite Ew].
  - destruct (ph (p_driver p)) eqn:Hp; try done. injection E as <-. destruct Hpc as [Hst Ho].
    apply (process_inv_step p); [done|by rewrite Epc|done..| |done]. split; [done|]. split; [|done]. unfold streamed in Hst. by rewrite Hp in Hst.
  - destruct (prep_query _ _) as [d|] eqn:Ed; [|done]. injection E as <-. by apply (prep_pc_inv second sch order).
  - destruct (ph (p_driver p)) eqn:Hp; try done. injection E as <-. apply (process_inv_step p); [done|by rewrite Epc|done..| |done]. by split.
  - destruct (driver_query _ _ _) as [[d r]|] eqn:Eq; [|done]. cbn [mbind option_bind] in E. destruct r as [|ans| | |]; try done.
    injection E as <-. by apply (query_pc_inv second sch order).
  - destruct (p_track p) eqn:Et; try done. injection E as <-. destruct Hpc as (Hp & [Hc Ho] & Hv & Hcount).
    apply (process_inv_step p); [done|by rewrite Epc|done..| |done]. split; [done|]. split; [done|]. split; [done|]. exists (p_CC_num p). cbn. by rewrite Ho.
  - apply (delete_inv sch order p p' HI E0). by left.
  - apply (delete_inv sch order p p' HI E0). right. by rewrite Epc.
Qed.

(** ** Steps of the other threads *)

(** Showing the progress changes nothing else. *)
Lemma track_insertions_inv p p' : process_inv p → track_insertions p = Some p' → process_inv p'.
Proof using .
  intros [Hr Ht Hpc Hu Hto Htr Hl] E. unfold track_insertions in E. destruct (p_track p) as [|updates| |] eqn:Et; try done.
  - injection E as <-. by split.
  - destruct (_ || _) eqn:Eo; [injection E as <-; by split|]. apply orb_false_iff in Eo as [Elt%N.leb_gt _].
    destruct (progress_line_ok updates (p_total p)) as (bar & percent & El & Hbar); [done|]. rewrite El in E. injection E as <-.
    split; try done. cbn. apply Forall_app. by split; [|apply Forall_singleton].
Qed.

Lemma worker_inv i p d ws : process_inv p → running (p_driver p) = true → driver_notify_worker i (p_driver p) (p_waits p) = Some (d, ws) →
  process_inv (set_waits ws (set_driver d p)).
Proof using All.
  intros HI Hr E. destruct (deleting (p_pc p)) eqn:Hdel.
  - pose proof (pi_reached p HI) as Hre. pose proof (pi_pc p HI) as Hpc. pose proof (pi_driver p HI) as Hd. unfold reached, pc_inv in *.
    destruct (p_pc p) as [| | | | | | |at_] eqn:Epc; try done. destruct Hre as (d1 & Hs & HX), Hpc as (c & Ho & Hc).
    assert (num_stream_threads d = num_stream_threads (p_driver p)) as En.
    { destruct (driver_notify_cases i _ d _ ws E) as [->|[(w & _ & _ & _ & ->)|E']]; [done|done|].
      by destruct (driver_worker_frame i _ d E') as [(_ & _ & ? & _) _]. }
    destruct HI as [_ Ht _ _ Hto Htr Hl]. split; unfold reached, pc_inv, unpaused; cbn; rewrite ?Epc; try done; [|by rewrite En|].
    + exists d1. split; [done|]. apply (deletion_inv_step n k b ∅ stream_ok false d1 _ _ HX). by apply (DeletionWorker _ i (mkDestructing at_ (p_driver p))).
    + exists c. split; [done|]. unfold counts, streamed_graph. by rewrite En.
  - destruct (pi_runs p HI Hdel) as [_ Hw]. pose proof (driver_notify_back i _ _ _ _ E) as Eb. pose proof (will_block_worker i _ _ Hw Eb) as Hw'.
    assert (∀ ws, reached (set_waits ws p) → process_inv (set_waits ws p)) as Hwaits by (intros ws0 Hre; destruct HI; by split).
    destruct (driver_notify_will_block i _ d _ ws Hw E) as [->|Ed].
    + assert (set_waits ws (set_driver (p_driver p) p) = set_waits ws p) as -> by by destruct p.
      apply Hwaits. unfold reached. cbn. destruct (pi_runs p HI Hdel) as [Hs _]. by destruct (p_pc p).
    + pose proof (pi_driver p HI) as Hd. destruct (driver_worker_inv n k b ∅ stream_ok i _ d Hd Ed) as (_ & _ & _ & Ew).
      apply (process_inv_step p); [done|done|done| |done| |done..| |].
      * apply rtc_once, ProtocolDriver, DriverFlush. by apply (FlushPhaseWorker i).
      * by destruct (driver_worker_frame i _ d Ed) as [(_ & _ & ? & _) _].
      * by apply (worker_pc_inv i).
      * pose proof (pi_unpaused p HI) as Hu. unfold unpaused in *. cbn. destruct (p_pc p) as [| |[]| | | | |]; try done; by apply (worker_step_awake i _ _ Hu Ew).
Qed.

Lemma process_step_inv spurious p p' : process_inv p → step spurious p p' → process_inv p'.
Proof using All.
  intros HI Hs. inversion Hs as [i ? d ws Hr E|? d Hd|i ? _ _|? ? E|sch order ? ? Hok E]; subst.
  - by apply (worker_inv i).
  - destruct (driver_call_pc_inv p d HI Hd) as [Hpc E3]. destruct (driver_call_waits p d HI Hd) as (Hdel & Hw & Hu).
    apply (process_inv_step p); [done|done|done| |done|done..]. by apply rtc_once, ProtocolDriver, driver_call_driver.
  - destruct HI as [Hre Ht Hpc Hu Hto Htr Hl]. split; try done. unfold reached in *. cbn. destruct (p_pc p); try done.
    destruct Hre as (d & Hsd & [HX Hw]). exists d. split; [done|]. by split.
  - by apply (track_insertions_inv p).
  - by apply (main_step_inv sch order p).
Qed.

Lemma process_steps_inv spurious p p' : rtc (step spurious) p p' → process_inv p → process_inv p'.
Proof using All. induction 1; [done|]. intros HI. eauto using process_step_inv. Qed.
End Runs.

(** * Theorems *)

Lemma components_without_edges n : components_count n ∅ n.
Proof.
  exists (seqN 0 n). split; [apply NoDup_seqN|]. split; [rewrite length_seqN; lia|]. split; [intros r Hr%elem_of_seqN; lia|].
  intros v Hv. exists v. split; [apply elem_of_seqN; lia|]. split; [reflexivity|]. intros r' _ Hc.
  symmetry. revert Hc. apply (pair_connected_ind (=) (graph_pairs ∅)).
  intros x y (id & Hid & _)%elem_of_graph_pairs. set_solver.
Qed.

Section Theorems.
Context `{P : Platform} `{!PlatformLaws P} {Q item D S U : Type} `{GL : GutteringLaws Q item}
  `{UFL : UnionFindLaws D} `{ST : GraphStream S U} {C : Type}.

Context (END_OF_STREAM : N) (remaining : S → list (GraphUpdate U)) (to_end : S → Prop) (stream_ok : S → Prop).
Context (default_gutters : C) (gutter_bytes_uninit : C → bool) (gutter_bytes : N → C → C)
  (make_gutters : GutterSystem → string → N → N → N → C → Q) (show_double : double → string) (show_N : N → string)
  (vertices edges : S → N).

Abbreviation main := (process_stream_main default_gutters gutter_bytes_uninit gutter_bytes make_gutters show_double show_N
  vertices edges (D := D) (U := U)).
Abbreviation cc_config := (batch_factor show_double (double_of_N 1) CCAlgConfiguration_default).1.

(** What the libraries promise about the stream and the new guttering system. *)
Record environment (n : N) (s : S) : Prop := {
  en_sound : StreamSound n stream_ok;
  en_delivers : StreamDelivers END_OF_STREAM stream_ok remaining to_end;
  en_stream : stream_ok s;
  en_vertices : wrap 32 (vertices s) = n;
  en_edges : edges s ≤ 2 ^ 51;
  en_gutters t p v j h c : contents (make_gutters t p v j h c) = []
}.

(** The constructed process satisfies the invariant. *)
Lemma main_starts n T b s argc num_threads reader_threads seed prio_gen p0 : environment n s → good_params n seed cc_config b →
  (num_threads < 2 ^ 31)%Z → main argc num_threads reader_threads s seed prio_gen = Ok (Some p0) →
  let k := long_to_u64 num_threads in
  started (C := C) n k b stream_ok (p_driver p0) ∧
  process_inv remaining to_end stream_ok T n k b (p_driver p0) (remaining s) p0 ∧
  num_stream_threads (p_driver p0) = long_to_u64 reader_threads.
Proof using PlatformLaws0.
  intros [Hsound Hdel Hok Hn He Hg] Hp Hk E. unfold process_stream_main in E. destruct (negb (argc =? 4)%Z); [done|].
  destruct (Z.ltb_spec num_threads 1) as [|Hpos]; [done|]. rewrite Hn in E.
  destruct (CCSketchAlg_new_ok n seed cc_config prio_gen b Hp) as (cc & Ec & HI & En & _ & Hl & _). rewrite Ec in E. cbn [mbind outcome_bind] in E.
  set (conf := (Config.worker_threads show_N _ _).1) in E.
  destruct (GraphSketchDriver_new _ _ _ cc s conf _) as [[d w]|e| |] eqn:Ed; try done. injection E as <-. cbn [p_driver].
  assert (_num_worker_threads conf = long_to_u64 num_threads ∧ 0 < long_to_u64 num_threads < 2 ^ 31) as [Hconf Hk'].
  { unfold conf, Config.worker_threads, long_to_u64. rewrite Z.mod_small by lia. cbn [_num_worker_threads].
    destruct (N.ltb_spec (Z.to_N num_threads) 1); [lia|]. cbn. lia. }
  assert (stream d = s ∧ num_stream_threads d = long_to_u64 reader_threads) as [Hs Hnt].
  { unfold GraphSketchDriver_new in Ed. destruct (allocate_worker_memory _ cc) as [alg [x|e| |]]; try done.
    apply outcome_bind_inv in Ed as (conf' & _ & Ed). by injection Ed as <- _. }
  assert (started (C := C) n (long_to_u64 num_threads) b stream_ok d) as Hst.
  { split; [done|lia|]. exists seed, cc_config, prio_gen, cc, gutter_bytes_uninit, gutter_bytes, make_gutters, s, conf, (long_to_u64 reader_threads), w.
    by split_and!. }
  split; [done|]. split; [|done].
  destruct (GraphSketchDriver_new_ok gutter_bytes_uninit gutter_bytes make_gutters cc b ∅ s conf _ d w stream_ok HI Hl Hg Hok Ed) as (_ & Hph & Hh & _).
  assert (at_work (worker_threads d)) as Hw.
  { unfold GraphSketchDriver_new in Ed. destruct (allocate_worker_memory _ cc) as [alg [x|e| |]]; try done.
    apply outcome_bind_inv in Ed as (conf' & _ & Ed). injection Ed as <- _. split; [done|]. by apply Forall_replicate. }
  split; unfold reached; cbn; [by split|done| |exact Hw|rewrite wrap_small by lia; lia|done|by constructor]. split; [done|]. split; [done|]. by rewrite Hs.
Qed.

Lemma process_returns spurious n T b s argc num_threads reader_threads seed prio_gen p0 p (PT : Partitioned n T) : environment n s →
  good_params n seed cc_config b → (num_threads < 2 ^ 31)%Z →
  main argc num_threads reader_threads s seed prio_gen = Ok (Some p0) →
  rtc (process_step spurious END_OF_STREAM T (main_ok T n (long_to_u64 num_threads) b)) p0 p →
  process_inv remaining to_end stream_ok T n (long_to_u64 num_threads) b (p_driver p0) (remaining s) p ∧
  driver_inv n (long_to_u64 num_threads) b ∅ stream_ok (p_driver p) ∧
  num_stream_threads (p_driver p) = long_to_u64 reader_threads.
Proof using All.
  intros Henv Hp Hk Hmain Hrun. pose proof (main_starts _ T _ _ _ _ _ _ _ _ Henv Hp Hk Hmain) as (Hst & HI & Hnt).
  pose proof (process_steps_inv END_OF_STREAM remaining to_end stream_ok (en_delivers _ _ Henv) T n _ PT b _ Hst _ spurious _ _ Hrun HI) as HIp.
  split; [done|]. split; [|by rewrite (pi_threads _ _ _ _ _ _ _ _ _ _ HIp)].
  exact (pi_driver END_OF_STREAM remaining to_end stream_ok (en_delivers _ _ Henv) T n _ PT b _ Hst _ _ HIp).
Qed.



(** Without reader threads, which [main] does not reject, it gets to its end all
    the same, and has printed the number of vertices. *)
Theorem no_readers_no_edges n T b s argc num_threads reader_threads seed prio_gen p0 p (PT : Partitioned n T)
    (Henv : environment n s) (Hp : good_params n seed cc_config b) (Hworkers : (num_threads < 2 ^ 31)%Z)
    (Hreaders : long_to_u64 reader_threads = 0) (Hmain : main argc num_threads reader_threads s seed prio_gen = Ok (Some p0))
    (Hrun : rtc (process_step true END_OF_STREAM T (main_ok T n (long_to_u64 num_threads) b)) p0 p) :
  p_pc p = PcReturned → p_out p = [n; n].
Proof using All.
  destruct (process_returns true _ _ _ _ _ _ _ _ _ _ _ PT Henv Hp Hworkers Hmain Hrun) as ([_ _ Hpc _ _ _ _] & _ & Hnt).
  intros Ep. unfold pc_inv in Hpc. rewrite Ep in Hpc. destruct Hpc as (_ & c & -> & Hc). unfold counts, streamed_graph in Hc.
  rewrite Hnt, Hreaders in Hc. by rewrite (components_count_unique _ _ _ _ Hc (components_without_edges n)).
Qed.
End Theorems.

(** * A run *)

(** A file of updates; a break point at its end. *)
Record file_stream : Type := mkFile { fs_updates : list (GraphUpdate bool) }.

#[export] Instance file_graph_stream : GraphStream file_stream bool := {
  set_break_point idx s := (s, true);
  get_update_buffer size s :=
    match fs_updates s with
    | [] => (s, [mkUpdate (mkEdge 0 0) true])
    | us => (mkFile (drop 3 us), take 3 us)
    end;
  get_update_is_thread_safe _ := true;
  is_breakpoint t := t
}.

Definition only_updates (us : list (GraphUpdate bool)) : Prop := Forall (λ u, upd_type u = false) us.

Lemma until_breakpoint_all (us : list (GraphUpdate bool)) : only_updates us → until_breakpoint us = (us, false).
Proof. intros Hus. induction Hus as [|u us Hu _ IH]; [done|]. cbn [until_breakpoint is_breakpoint file_graph_stream]. by rewrite Hu, IH. Qed.

Definition file_in_range (n : N) (s : file_stream) : Prop := valid_updates n (fs_updates s) ∧ only_updates (fs_updates s).

(** At the end a break point, before it the next three updates. *)
Lemma file_stream_get size us : only_updates us →
  let r := get_update_buffer size (mkFile us) in let u := until_breakpoint r.2 in
  fs_updates r.1 = drop 3 us ∧ u.1 = take 3 us ∧ (u.2 = true → us = []).
Proof.
  intros Ho. cbn [get_update_buffer file_graph_stream fs_updates]. destruct us as [|u us]; [done|]. cbn zeta beta. cbn [fst snd fs_updates].
  by rewrite until_breakpoint_all by (by apply Forall_take).
Qed.

Lemma file_stream_sound n : StreamSound n (file_in_range n).
Proof.
  split; [by intros idx s Hs|]. intros size [us] [Hv Ho]. destruct (file_stream_get size us Ho) as (E1 & E2 & _).
  unfold file_in_range. rewrite E1, E2. split; [split|]; by (apply Forall_drop || apply Forall_take).
Qed.

Lemma file_stream_delivers n idx : StreamDelivers idx (file_in_range n) fs_updates (λ s, only_updates (fs_updates s)).
Proof.
  split; [by intros s s' [_ Ho] [= <-]|]. intros size [us] Ho. destruct (file_stream_get size us Ho) as (E1 & E2 & E3).
  cbn zeta. rewrite E1, E2. split; [by apply Forall_drop|]. cbn [fs_updates]. split; [by rewrite take_drop|].
  intros Hstop. by rewrite E3.
Qed.

Section Demo.
#[local] Existing Instance demo_platform.
#[local] Existing Instance demo_parts.

Abbreviation demo_process := (process_state gutters (list (N * list N)) DSU_MT file_stream bool).

Definition demo_file : file_stream := mkFile ((λ '(u, v), mkUpdate (mkEdge u v) false) <$> [(0, 1); (2, 1); (0, 2); (3, 4); (1, 0)]).

Definition demo_main (readers : Z) : outcome (option demo_process) :=
  process_stream_main tt (λ _, false) (λ _ c, c) (λ _ _ _ _ _ _, mkGutters (mkQueue [] false) []) (λ _, EmptyString) (λ _, EmptyString)
    (λ _, 6) (λ s, N.of_nat (length (fs_updates s))) 4 2 readers demo_file 7 (λ i, i * 5 mod 7).

Definition demo_process_start (readers : Z) : option demo_process := match demo_main readers with Ok p => p | _ => None end.

Inductive process_move : Type := MvDriver (m : driver_move) | MvTrack | MvMain.

(** [main]'s steps, when the flush is ready and the updates are known ones. *)
Definition may_step (p : demo_process) : bool :=
  match p_pc p with
  | PcPrep _ => match prep_query CONNECTIVITY (p_driver p) with
                | Some d => match ph d with PhFlush => ready_to_flushb (worker_threads d) | _ => true end
                | None => false
                end
  | PcQuery _ => forallb (λ id, bool_decide (id ∈ demo_ids)) (stream_ids (handled (p_driver p)))
  | _ => true
  end.

Definition process_perform (m : process_move) (p : demo_process) : option demo_process :=
  match m with
  | MvDriver (MvWorker i) =>
      if running (p_driver p) then
        '(d, ws) ← driver_notify_worker i (p_driver p) (p_waits p); Some (set_waits ws (set_driver d p))
      else None
  | MvDriver (MvStream _ | MvPrep _) => None
  | MvDriver m => d ← driver_perform m (p_driver p); Some (driver_moves d p)
  | MvTrack => track_insertions p
  | MvMain => if may_step p then main_step 0 2 demo_schedules demo_order p else None
  end.

Definition process_execute (ms : list process_move) (p : demo_process) : demo_process :=
  foldl (λ p m, default p (process_perform m p)) p ms.

Definition process_moves : list process_move :=
  [MvMain; MvTrack; MvTrack] ++ (MvDriver <$> replicate 8 MvResume ++ replicate 10 (MvTask 0) ++ [MvWorker 1; MvWorker 1] ++ replicate 20 (MvTask 0)) ++
  [MvTrack; MvTrack; MvDriver MvJoin; MvMain; MvMain] ++
  (MvDriver <$> replicate 4 (MvFlush false) ++ replicate 30 (MvWorker 1) ++ replicate 30 (MvWorker 0) ++ replicate 5 (MvFlush true)) ++
  [MvMain; MvMain; MvTrack; MvTrack; MvMain; MvMain; MvMain; MvMain].

Lemma process_perform_step m p p' : process_perform m p = Some p' →
  process_step true 0 2 (main_ok 2 6 2 demo_base) p p'.
Proof.
  destruct m as [m| |]; cbn [process_perform].
  - destruct m as [i|t|idx| |t| |code]; try done; cbn [driver_perform flush_phase_perform].
    + destruct (running (p_driver p)) eqn:Er; [|done]. destruct (driver_notify_worker _ _ _) as [[d ws]|] eqn:E; [|done].
      intros [= <-]. by apply (StepWorker _ _ _ _ i).
    + destruct (driver_flush t (p_driver p)) as [d|] eqn:E; [|done]. intros [= <-]. by apply StepDriver, (CallFlush t).
    + destruct (driver_resume (p_driver p)) as [d|] eqn:E; [|done]. intros [= <-]. by apply StepDriver, CallResume.
    + destruct (stream_task t (p_driver p)) as [d|] eqn:E; [|done]. intros [= <-]. by apply StepDriver, (CallTask t).
    + destruct (join_threads (p_driver p)) as [d|] eqn:E; [|done]. intros [= <-]. by apply StepDriver, CallJoin.
  - apply StepTrack.
  - destruct (may_step p) eqn:Em; [|done]. apply StepMain. unfold main_ok, may_step in *. destruct (p_pc p); try done.
    + intros d Ed Hf. rewrite Ed, Hf in Em. by apply ready_to_flushb_sound.
    + split; [split; exact demo_order_perm|]. intros s _ _. rewrite (left_id ∅ symdiff). apply query_reliable_collision_free.
      apply (collision_free_subseteq _ (list_to_set demo_ids)); [|exact demo_collision_free].
      rewrite forallb_forall in Em. intros id Hid%elem_of_toggles. apply elem_of_list_to_set. eapply bool_decide_eq_true, Em.
      by apply list_elem_of_In.
Qed.

Lemma process_execute_steps ms p : rtc (process_step true 0 2 (main_ok 2 6 2 demo_base)) p (process_execute ms p).
Proof.
  unfold process_execute. revert p. induction ms as [|m ms IH]; intros p; [done|]. cbn [foldl].
  destruct (process_perform m p) as [p1|] eqn:E; [|apply IH]. eapply rtc_l; [by apply (process_perform_step m)|apply IH].
Qed.

Definition demo_environment : environment 0 fs_updates (λ s, only_updates (fs_updates s)) (file_in_range 6)
  (λ _ _ _ _ _ (_ : unit), mkGutters (mkQueue [] false) []) (λ _, 6) (λ s, N.of_nat (length (fs_updates s))) 6 demo_file.
Proof.
  split; [apply file_stream_sound|apply file_stream_delivers| |reflexivity|vm_compute; discriminate|reflexivity].
  split; repeat constructor; vm_compute; discriminate.
Qed.

(** The destructor of the driver; both workers wait when it begins. *)
Definition end_moves : list process_move :=
  replicate 5 MvMain ++ (MvDriver <$> replicate 10 (MvWorker 0) ++ replicate 10 (MvWorker 1)) ++ replicate 5 MvMain.

(** Where [main] is: at its end, or the driver is deleted. *)
Definition final_pc (deleted : bool) : main_pc := if deleted then PcDelete AtEnd else PcReturned.

Definition is_final (deleted : bool) (pc : main_pc) : bool :=
  match pc with PcReturned => negb deleted | PcDelete AtEnd => deleted | _ => false end.

Lemma is_final_sound deleted pc : is_final deleted pc = true → pc = final_pc deleted.
Proof. unfold final_pc. destruct pc as [| | | | | | |[]], deleted; done. Qed.

(** The program ends, whatever [readers] it has. *)
Definition demo_ends (deleted : bool) (readers : Z) (out : list N) : bool :=
  match demo_main readers with
  | Ok (Some p) => let q := process_execute (process_moves ++ if deleted then end_moves else []) p in
      is_final deleted (p_pc q) && bool_decide (p_out q = out) && (length (p_lines q) =? 2)%nat
  | _ => false
  end.

Lemma demo_run deleted readers out : demo_ends deleted readers out = true → ∃ p0 p, demo_main readers = Ok (Some p0) ∧
  rtc (process_step true 0 2 (main_ok 2 6 2 demo_base)) p0 p ∧ p_pc p = final_pc deleted ∧ p_out p = out ∧ length (p_lines p) = 2%nat.
Proof.
  unfold demo_ends. destruct (demo_main readers) as [[p0|]|e| |]; try done. cbn zeta. set (ms := process_moves ++ _).
  pose proof (process_execute_steps ms p0) as Hrun. generalize dependent (process_execute ms p0).
  intros p Hrun. intros [[Hpc%is_final_sound Ho%bool_decide_eq_true]%andb_prop Hl%Nat.eqb_eq]%andb_prop. by exists p0, p.
Qed.


Lemma no_readers_no_edges_witness : ∃ (p : demo_process), p_pc p = PcReturned ∧ p_out p = [6; 6].
Proof.
  destruct (demo_run false 0 [6; 6]) as (p0 & p & E & Hrun & Epc & _); [vm_compute; reflexivity|].
  pose proof (no_readers_no_edges (C := unit) 0 fs_updates (λ s, only_updates (fs_updates s)) (file_in_range 6)
    tt (λ _, false) (λ _ c, c) (λ _ _ _ _ _ _, mkGutters (mkQueue [] false) []) (λ _, EmptyString) (λ _, EmptyString)
    (λ _, 6) (λ s, N.of_nat (length (fs_updates s))) 6 2 demo_base demo_file 4 2 0 7 (λ i, i * 5 mod 7) p0 p demo_parts
    demo_environment demo_params ltac:(reflexivity) ltac:(reflexivity) E Hrun Epc) as Ho.
  exists p. split; [exact Epc|exact Ho].
Defined.
End Demo.
