(* ===== verification/ProcessLive.v ===== *)
(** process_stream can always end (src/tools/process_stream.cpp).

    From every state a run of the program reaches, unless a worker has missed the
    notification of the destructor, some continuation without spurious wake-ups
    lets [main] return and destroy the driver, or makes its first query fail for
    want of samples ([process_stream_can_end]): resuming ends, the readers of the
    stream finish, the workers become ready for the flush, the flush returns, the
    thread that shows the progress is joined, and the workers exit. *)
From Stdlib Require Import Reals Psatz.
From stdpp Require Import relations.
From S2P Require Import Prelude Float64 Platform Util XorSet Bucket Sketch Dsu DsuMT Graph Forest Config CCAlg Partition MergeInstr Round Region RoundCorrect Boruvka BoruvkaCorrect Queries Session Correctness Workers WorkersCorrect Driver DriverCorrect Destroy Notify Delete ProcessStream.

Open Scope N_scope.

(** * Ready for the flush *)

Section Group.
Context {Q item : Type} `{WQL : WorkQueueLaws Q item}.
Implicit Type g : WorkerThreadGroup Q item.
Implicit Type w : WorkerThread item.

(** Steps before the next [get_data]. *)
Definition ready_weight w : nat :=
  match w_pc w with PTestShutdown => 2 | PTestPause => 1 | _ => 0 end.

#[local] Instance ready_dec w : Decision (past_get (w_pc w) = false).
Proof using . apply _. Defined.

Lemma ready_moves g : at_work g → ¬ Forall (λ w, past_get (w_pc w) = false) (workers g) →
  ∃ i g', worker_step i g = Some g' ∧ (weight ready_weight (workers g') < weight ready_weight (workers g))%nat.
Proof using .
  intros Hw [w [Hin Hpc]]%not_Forall_Exists%Exists_exists; [|apply _].
  apply list_elem_of_lookup in Hin as [i0 Hi]. exists (N.of_nat i0). set (i := N.of_nat i0).
  assert (workers g !! i = Some w) as Hi' by (unfold i; by rewrite lookupN_eq, Nat2N.id). clear Hi. clearbody i.
  pose proof (λ w', weight_insert ready_weight (workers g) i w w' Hi') as Hwi.
  unfold worker_step. rewrite Hi'. cbn [mbind option_bind]. unfold do_work.
  destruct (at_work_lookup g i w Hw Hi') as (Hs & Hd & _ & Ha). destruct w as [pc sh dp pa]. cbn in *. subst sh dp.
  destruct pc; try done; (eexists; split; [done|]);
    (cbn [workers put_worker]; match goal with |- context [<[_ := ?w']> _] => specialize (Hwi w') end; cbn in *; lia).
Qed.
End Group.

(** * Calls of the driver *)

Section Driver.
Context `{P : Platform} `{!PlatformLaws P} {Q item D S U : Type} `{GL : GutteringLaws Q item}
  `{UFL : UnionFindLaws D} `{ST : GraphStream S U}.
Implicit Type d : GraphSketchDriver Q item D S U.

Context (n k : N) (b : Sketch) (stream_ok : S → Prop) (stream_valid : StreamSound n stream_ok).
Context (END_OF_STREAM : N) (remaining : S → list (GraphUpdate U)) (to_end : S → Prop)
  (delivers_all : StreamDelivers END_OF_STREAM stream_ok remaining to_end) (A : list (GraphUpdate U)).

Abbreviation inv := (driver_inv n k b ∅ stream_ok).

(** What else the stream promises: its end can be a break point, and a call that
    hands out no update ends in a breakpoint. *)
Record StreamEnds : Prop := {
  se_break s : stream_ok s → (set_break_point END_OF_STREAM s).2 = true;
  se_get size s : to_end s → let u := until_breakpoint (get_update_buffer size s).2 in u.1 = [] → u.2 = true
}.

Context (stream_ends : StreamEnds).

(** Steps of the driver in which no worker leaves its wait. *)
Inductive quiet_step : relation (GraphSketchDriver Q item D S U) :=
| QuietStepWorker i w d d' : running d = true → workers (worker_threads d) !! i = Some w → w_pc w ≠ PWait →
    driver_worker i d = Some d' → quiet_step d d'
| QuietStepCall d d' : driver_call_step d d' → quiet_step d d'.

(** A step of a worker is one of the driver. *)
Lemma worker_step_driver i d g : inv d → worker_step i (worker_threads d) = Some g →
  ∃ d', driver_worker i d = Some d' ∧ worker_threads d' = g ∧ inv d' ∧ ph d' = ph d.
Proof using GL PlatformLaws0.
  intros HI E. destruct (driver_worker i d) as [d'|] eqn:Ed.
  - destruct (driver_worker_inv n k b ∅ stream_ok i d d' HI Ed) as (HI' & Ep & _ & Ew). exists d'. split; [done|]. by simplify_eq.
  - unfold driver_worker in Ed. by rewrite E in Ed.
Qed.

(** ** The workers become ready *)

Lemma worker_threads_at i d d' : driver_worker i d = Some d' → ∃ w, workers (worker_threads d) !! i = Some w.
Proof using . unfold driver_worker, worker_step. destruct (workers (worker_threads d) !! i) as [w|]; [by exists w|done]. Qed.

Lemma can_be_ready d : inv d → ph d = PhIdle → at_work (worker_threads d) →
  ∃ d', rtc quiet_step d d' ∧ Forall (λ w, past_get (w_pc w) = false) (workers (worker_threads d')).
Proof using GL PlatformLaws0.
  intros HI Hp Hw.
  destruct (rtc_measure quiet_step (λ d, inv d ∧ ph d = PhIdle ∧ at_work (worker_threads d))
    (λ d, Forall (λ w, past_get (w_pc w) = false) (workers (worker_threads d)))
    (λ d, weight ready_weight (workers (worker_threads d)))) with (x := d) as (d' & Hs & _ & Hr); [|done|by exists d'].
  clear d HI Hp Hw. intros d (HI & Hp & Hw). destruct (decide (Forall (λ w, past_get (w_pc w) = false) (workers (worker_threads d)))) as [Hr|Hr]; [by left|right].
  destruct (ready_moves _ Hw Hr) as (i & g & E & Hlt). destruct (worker_step_driver i d g HI E) as (d' & Ed & <- & HI' & Ep).
  exists d'. split; [|split; [split_and!; [done|congruence|by apply (worker_step_awake i (worker_threads d))]|done]].
  destruct (worker_threads_at i d d' Ed) as (w & Hi). apply rtc_once, (QuietStepWorker i w); [unfold running; by rewrite Hp|done| |done].
  destruct (at_work_lookup _ i w Hw Hi) as (_ & _ & _ & Ha). by destruct (w_pc w).
Qed.

(** ** The flush returns *)

Lemma flush_step_driver todo us d g : flushing n k b ∅ stream_ok todo us d → quiet_flush_step (worker_threads d) g →
  ∃ d', quiet_step d d' ∧ flush_phase_step d d' ∧ worker_threads d' = g.
Proof using GL PlatformLaws0.
  intros HF Hs. inversion Hs as [i w ? ? Hi Hpc E|t ? ? E]; subst.
  - destruct (worker_step_driver i d g (fl_inv _ _ _ _ _ _ _ _ HF) E) as (d' & Ed & Eg & _). exists d'.
    assert (running d = true) as Hr by (unfold running; by destruct (fl_phase _ _ _ _ _ _ _ _ HF) as [->|[-> _]]).
    split; [by apply (QuietStepWorker i w)|]. split; [by apply (FlushPhaseWorker i)|done].
  - assert (driver_flush t d = Some (set_group g d)) as Ef.
    { unfold driver_flush. destruct (fl_phase _ _ _ _ _ _ _ _ HF) as [->|[_ Em]]; [|unfold flush_workers in E; by rewrite Em in E].
      rewrite E. by destruct (main (worker_threads d)) eqn:Em; try (unfold flush_workers in E; rewrite Em in E). }
    exists (set_group g d). split; [by apply QuietStepCall, (CallFlush t)|]. split; [by apply (FlushPhaseMain t)|done].
Qed.

Lemma flush_steps_driver todo us d g : flushing n k b ∅ stream_ok todo us d → rtc quiet_flush_step (worker_threads d) g →
  ∃ d', rtc quiet_step d d' ∧ flushing n k b ∅ stream_ok todo us d' ∧ worker_threads d' = g.
Proof using GL PlatformLaws0.
  intros HF Hs. remember (worker_threads d) as g0 eqn:E0. revert d HF E0. induction Hs as [g0|g0 g1 g2 H01 _ IH]; intros d HF ->.
  - by exists d.
  - destruct (flush_step_driver todo us d g1 HF H01) as (d1 & Hd1 & Hf1 & E1).
    destruct (IH d1) as (d2 & Hd2 & ?); [by apply (flushing_step n k b ∅ stream_ok todo us d)|done|].
    exists d2. split; [by eapply rtc_l|done].
Qed.

Lemma flushing_returns todo us d : flushing n k b ∅ stream_ok todo us d → ∃ d', rtc quiet_step d d' ∧ ph d' = PhIdle.
Proof using GL PlatformLaws0.
  intros HF. destruct (flush_finishes k todo _ (fl_group _ _ _ _ _ _ _ _ HF)) as (g & Hg & Em).
  destruct (flush_steps_driver todo us d g HF Hg) as (d1 & Hd1 & HF1 & <-).
  destruct (fl_phase _ _ _ _ _ _ _ _ HF1) as [Hp|[Hp _]]; [|by exists d1].
  exists (set_ph PhIdle d1). split; [|done]. eapply rtc_r; [exact Hd1|]. apply QuietStepCall, (CallFlush false).
  unfold driver_flush. by rewrite Hp, Em.
Qed.

(** ** [resume_workers] returns *)

Lemma resume_ends d : ph d = PhResume → at_work (worker_threads d) → resuming (main (worker_threads d)) = true →
  ∃ d', rtc quiet_step d d' ∧ ph d' = PhStream.
Proof using .
  intros Hp Hw Hr.
  destruct (rtc_measure quiet_step
    (λ d, ph d = PhResume ∧ at_work (worker_threads d) ∧ resuming (main (worker_threads d)) = true)
    (λ d, main (worker_threads d) = MIdle)
    (λ d, resume_weight (num_workers (worker_threads d)) (main (worker_threads d)))) with (x := d)
    as (d1 & Hs & (Hp1 & _) & Em); [|done|].
  - clear d Hp Hw Hr. intros d (Hp & Hw & Hr). destruct (resume_moves _ Hr) as [Em|[g E]]; [by left|right].
    destruct (resume_awake _ g Hw E) as (Hw' & Hr' & En & Hlt). exists (set_group g d). cbn. rewrite En. split; [|done].
    apply rtc_once, QuietStepCall, CallResume. unfold driver_resume. rewrite Hp.
    by destruct (main (worker_threads d)) eqn:Em; try (by unfold resume_workers in E; rewrite Em in E); rewrite E.
  - eexists. split; [eapply rtc_r; [exact Hs|]; apply QuietStepCall, CallResume; unfold driver_resume; by rewrite Hp1, Em|done].
Qed.

(** ** The readers finish *)

Definition thread_weight (th : stream_thread U) : nat :=
  length (t_inserts th) + 3 * length (t_updates th) + (if t_done th then 0 else 1).

(** What is left of the stream: an update costs the call that fetches it, one for
    [pre_insert] and two insertions. *)
Definition stream_weight d : nat := weight thread_weight (threads d) + 4 * length (remaining (stream d)).

Lemma stream_task_moves d : inv d → streamed remaining to_end A d → ph d = PhStream → forallb finished (threads d) = false →
  ∃ t d', stream_task t d = Some d' ∧ ph d' = PhStream ∧ (stream_weight d' < stream_weight d)%nat.
Proof using GL PlatformLaws0 delivers_all stream_ends stream_valid.
  intros HI Hst Hp Hf.
  assert (∃ (t : N) th, threads d !! t = Some th ∧ finished th = false) as (t & [ins us stop] & Et & Hth).
  { apply not_true_iff_false in Hf. rewrite forallb_forall in Hf.
    assert (¬ Forall (λ th, finished th = true) (threads d)) as Hall.
    { rewrite Forall_forall. intros Hall. apply Hf. intros th Hin%list_elem_of_In. by apply Hall. }
    apply not_Forall_Exists in Hall as [th [Hin Hth]]%Exists_exists; [|apply _].
    apply list_elem_of_lookup in Hin as [i Hi]. exists (N.of_nat i), th. rewrite lookupN_eq, Nat2N.id. split; [done|by apply not_true_is_false]. }
  exists t. pose proof (λ th, weight_insert thread_weight (threads d) t _ th Et) as Hw.
  pose proof (stream_task_inv n k b ∅ stream_ok stream_valid t d) as Hinv.
  assert (∀ d', stream_task t d = Some d' → ph d' = PhStream) as Hph.
  { intros d' E. pose proof (di_running _ _ _ _ _ _ (Hinv d' HI E)) as Hr. revert E Hr. clear -Hp Et. unfold stream_task. rewrite Hp, Et.
    cbn [mbind option_bind t_inserts t_updates t_done]. destruct ins as [|e ins], us as [|u us]; [destruct stop; [done|]| | |];
      [destruct (get_update_buffer _ _) as [s us]; destruct (until_breakpoint us)|destruct (pre_insert _ _) as [alg []]|..]; by intros [= <-]. }
  assert (∃ d', stream_task t d = Some d' ∧ (stream_weight d' < stream_weight d)%nat) as (d' & E & Hlt); [|by eauto].
  clear Hph Hinv. unfold streamed in Hst. rewrite Hp in Hst. destruct Hst as ([He _ _] & _). unfold stream_task, stream_weight. rewrite Hp, Et.
  cbn [mbind option_bind t_inserts t_updates t_done]. destruct ins as [|e ins]; [destruct us as [|u us]|].
  - destruct stop; [done|]. destruct (sv_get _ _ _ _ delivers_all update_array_size (stream d) He) as (_ & Hr & _).
    pose proof (se_get stream_ends update_array_size (stream d) He) as Hend. apply Permutation_length in Hr. rewrite length_app in Hr.
    destruct (get_update_buffer update_array_size (stream d)) as [s us]. cbn [fst snd] in *.
    destruct (until_breakpoint us) as [us' st]. cbn [fst snd] in *. eexists. split; [done|].
    specialize (Hw (mkStreamThread [] us' st)). unfold thread_weight in Hw at 2 4. cbn in Hw |- *.
    destruct us' as [|u us']; [rewrite Hend in * by done|destruct st]; cbn in *; lia.
  - set (d1 := set_threads _ _). specialize (Hw (mkStreamThread (sides u) us stop)). unfold thread_weight in Hw at 2 4. cbn in Hw.
    destruct (pre_insert u _) as [alg [x|e| |]]; (eexists; split; [done|]; cbn; unfold sides in Hw; lia).
  - eexists. split; [done|]. specialize (Hw (mkStreamThread ins us stop)). unfold thread_weight in Hw at 2 4. cbn in Hw |- *. lia.
Qed.

Lemma stream_ends_call d : inv d → streamed remaining to_end A d → ph d = PhStream →
  ∃ d', rtc quiet_step d d' ∧ ph d' = PhIdle.
Proof using GL PlatformLaws0 delivers_all stream_ends stream_valid.
  intros HI Hst Hp.
  destruct (rtc_measure quiet_step (λ d, inv d ∧ streamed remaining to_end A d ∧ ph d = PhStream)
    (λ d, forallb finished (threads d) = true) stream_weight) with (x := d) as (d1 & Hs & (_ & _ & Hp1) & Hf); [|done|].
  - clear d HI Hst Hp. intros d (HI & Hst & Hp). destruct (forallb finished (threads d)) eqn:Hf; [by left|right].
    destruct (stream_task_moves d HI Hst Hp Hf) as (t & d' & E & Hp' & Hlt). exists d'. split; [by apply rtc_once, QuietStepCall, (CallTask t)|].
    split; [|done]. split; [by apply (stream_task_inv n k b ∅ stream_ok stream_valid t d)|]. split; [|done].
    by apply (stream_task_streamed END_OF_STREAM stream_ok remaining to_end delivers_all A t d).
  - eexists. split; [eapply rtc_r; [exact Hs|]; apply QuietStepCall, CallJoin; unfold join_threads; by rewrite Hp1, Hf|done].
Qed.
End Driver.

(** * Runs of the program *)

Section Runs.
Context `{P : Platform} `{!PlatformLaws P} {Q item D S U : Type} `{GL : GutteringLaws Q item}
  `{UFL : UnionFindLaws D} `{ST : GraphStream S U} {C : Type}.
Implicit Type d : GraphSketchDriver Q item D S U.
Implicit Type p : process_state Q item D S U.

Context (END_OF_STREAM : N) (remaining : S → list (GraphUpdate U)) (to_end : S → Prop)
  (stream_ok : S → Prop)
  (delivers_all : StreamDelivers END_OF_STREAM stream_ok remaining to_end)
  (stream_ends : StreamEnds stream_ok END_OF_STREAM to_end).
Context (T n k : N) (PT : Partitioned n T) (b : Sketch) (d0 : GraphSketchDriver Q item D S U)
  (Hstart : started (C := C) n k b stream_ok d0) (A : list (GraphUpdate U)).

Abbreviation step spurious := (process_step spurious END_OF_STREAM T (main_ok T n k b)).
Abbreviation inv := (process_inv remaining to_end stream_ok T n k b d0 A).

Abbreviation driver_of p := (pi_driver END_OF_STREAM remaining to_end stream_ok delivers_all T n k PT b d0 Hstart A p).

(** Where the group's methods are before the first flush, and that the progress
    thread has been told to end. *)
Definition live_inv p : Prop :=
  let g := worker_threads (p_driver p) in
  match p_pc p with
  | PcProcess | PcPrep false => main g = MIdle
  | PcProcessing => resuming (main g) = true ∧
      match ph (p_driver p) with PhResume => True | PhStream | PhIdle => main g = MIdle | _ => False end
  | PcJoin => p_shutdown p = true
  | _ => True
  end.

Lemma live_worker i p d ws : inv p → live_inv p → driver_notify_worker i (p_driver p) (p_waits p) = Some (d, ws) → live_inv (set_waits ws (set_driver d p)).
Proof using All.
  intros HI HL E.
  assert (ph d = ph (p_driver p) ∧ main (worker_threads d) = main (worker_threads (p_driver p))) as [Ep Em].
  { destruct (driver_notify_cases i _ d _ ws E) as [->|[(w & Hi & _ & _ & ->)|E']]; [done| |].
    - split; [done|]. cbn. unfold block, update_worker. cbn [workers set_lock]. by rewrite Hi.
    - destruct (driver_worker_inv n k b ∅ stream_ok i _ d (driver_of p HI) E') as (_ & ? & _ & Ew).
      by destruct (worker_step_effect i _ _ Ew) as (_ & _ & ? & _). }
  unfold live_inv in *. cbn [p_pc set_waits set_driver p_driver p_shutdown]. by rewrite Ep, Em.
Qed.

Lemma live_call p d : inv p → live_inv p → driver_call_step (p_driver p) d → live_inv (driver_moves d p).
Proof using All.
  intros HI HL Hs. pose proof (driver_of p HI) as Hd.
  assert (p_pc p = PcProcessing → resuming (main (worker_threads d)) = true →
    match ph d with PhResume => True | PhStream | PhIdle => main (worker_threads d) = MIdle | _ => False end → live_inv (driver_moves d p)) as Hnew.
  { intros Epc Hr Hm. unfold live_inv. cbn. by rewrite Epc. }
  inversion Hs as [t ? ? E|? ? E|t ? ? E|? ? E]; subst.
  - assert (ph (p_driver p) = PhFlush) as Hp by (unfold driver_flush in E; by destruct (ph (p_driver p))).
    destruct (flushing_pc _ _ _ _ _ _ _ _ _ p HI Hp) as [second Epc]. unfold live_inv. cbn. by rewrite Epc.
  - destruct (driver_resume_threads _ _ E) as [_ Hp].
    pose proof (streaming_pc _ _ _ _ _ _ _ _ _ p HI (or_intror Hp)) as Epc. pose proof (pi_unpaused _ _ _ _ _ _ _ _ _ _ HI) as Hw.
    unfold live_inv, unpaused in HL, Hw. rewrite Epc in HL, Hw. destruct HL as [Hr _]. apply (Hnew Epc); unfold driver_resume in E; rewrite Hp in E;
      (destruct (main (worker_threads (p_driver p))) eqn:Em; try done; [injection E as <-; cbn; by rewrite Em| |];
        (destruct (resume_workers _) as [g|] eqn:Eg; [|done]; injection E as <-; cbn; rewrite ?Hp; try done; by destruct (resume_awake _ g Hw Eg) as (_ & ? & _))).
  - destruct (stream_task_threads t _ _ E) as [_ Hp].
    pose proof (streaming_pc _ _ _ _ _ _ _ _ _ p HI (or_introl Hp)) as Epc. pose proof (stream_task_inv n k b ∅ stream_ok (sd_stream _ _ _ _ _ Hstart) t _ d Hd E) as Hd'.
    assert (ph d ≠ PhTerminated) as Hr' by apply Hd'. destruct (stream_task_workers t _ _ E) as (_ & _ & Em).
    unfold live_inv in HL. rewrite Epc in HL. destruct HL as [Hr Hm]. apply (Hnew Epc); [by rewrite Em|]. rewrite Em.
    unfold stream_task in E. destruct (ph (p_driver p)) eqn:Hph; try done.
    destruct (threads (p_driver p) !! t) as [[[|e ins] [|u us] st]|]; try done; cbn [mbind option_bind t_inserts t_updates t_done] in E;
      [destruct st; [done|]; destruct (get_update_buffer _ _) as [s us]; destruct (until_breakpoint us)|
       destruct (pre_insert _ _) as [alg []]|..]; injection E as <-; cbn; try rewrite Hph; try done; by destruct Hr'.
  - destruct (join_threads_threads _ _ E) as [_ Hp].
    pose proof (streaming_pc _ _ _ _ _ _ _ _ _ p HI (or_introl Hp)) as Epc. unfold live_inv in HL. rewrite Epc in HL. destruct HL as [Hr Hm].
    unfold join_threads in E. destruct (ph (p_driver p)) eqn:Hph; try done. destruct (forallb _ _); [|done]. injection E as <-. by apply (Hnew Epc).
Qed.

Lemma live_main sch order p p' : inv p → live_inv p → main_step END_OF_STREAM T sch order p = Some p' → live_inv p'.
Proof using All.
  intros HI HL E. pose proof (driver_of p HI) as Hd. pose proof (pi_pc _ _ _ _ _ _ _ _ _ _ HI) as Hpc. unfold live_inv in HL. unfold main_step in E. unfold pc_inv in Hpc.
  destruct (p_pc p) as [| |second|second|second| | |at_] eqn:Epc; try done.
  - destruct (process_stream_until _ _) as [d|] eqn:Ed; [|done]. injection E as <-. destruct Hpc as (Hp & _).
    unfold process_stream_until in Ed. rewrite Hp in Ed. pose proof (se_break _ _ _ stream_ends _ (di_stream _ _ _ _ _ _ Hd)) as Hb.
    destruct (set_break_point _ _) as [s [|]]; [|done]. cbn in Ed. rewrite HL in Ed. injection Ed as <-. unfold live_inv. by cbn.
  - destruct (ph (p_driver p)) eqn:Hp; try done. injection E as <-. unfold live_inv. cbn. tauto.
  - destruct (prep_query _ _) as [d|]; [|done]. by injection E as <-.
  - destruct (ph (p_driver p)); try done. by injection E as <-.
  - destruct (driver_query _ _ _) as [[d r]|]; [|done]. cbn [mbind option_bind] in E. destruct r; try done. injection E as <-. by destruct second.
  - destruct (p_track p); try done. by injection E as <-.
  - destruct (begin_destructor _) as [x|]; [|done]. by injection E as <-.
  - destruct (destructor _) as [x|]; [|done]. by injection E as <-.
Qed.

Lemma live_track p p' : live_inv p → track_insertions p = Some p' → live_inv p'.
Proof using .
  intros HL E. unfold track_insertions in E. destruct (p_track p); try done; [by injection E as <-|].
  destruct (_ || _); [by injection E as <-|]. destruct (progress_line _ _); by injection E as <-.
Qed.

Lemma live_steps spurious p p' : rtc (step spurious) p p' → inv p → live_inv p → inv p' ∧ live_inv p'.
Proof using All.
  induction 1 as [p|p p1 p2 Hs _ IH]; [done|]. intros HI HL. apply IH.
  - by apply (process_step_inv END_OF_STREAM remaining to_end stream_ok delivers_all T n k PT b d0 Hstart A spurious p).
  - inversion Hs as [i ? d ws _ E|? d Hd|i ? _ _|? ? E|sch order ? ? _ E]; subst;
      [by apply (live_worker i)|by apply live_call|done|by apply (live_track p)|by apply (live_main sch order p)].
Qed.

(** ** [main] can always go on *)

(** Quiet steps of the driver, as steps of the program. *)
Lemma quiet_step_runs p d : inv p → deleting (p_pc p) = false → quiet_step (p_driver p) d →
  ∃ ws, rtc (step false) p (set_waits ws (set_driver d p)).
Proof using .
  intros HI Hdel Hs. destruct (pi_runs _ _ _ _ _ _ _ _ _ p HI Hdel) as [_ Hw]. inversion Hs as [i w ? ? Hr Hi Hpc E|? ? E]; subst.
  - unfold driver_worker, worker_step in E. rewrite Hi in E. cbn [mbind option_bind] in E.
    destruct (do_work i w (worker_threads (p_driver p))) as [g|] eqn:Eg; [|done]. cbn [mbind option_bind] in E.
    destruct (notify_worker_runs i w _ g (p_waits p) Hi Hpc) as (ws1 & ws' & H1' & E2); [|done|].
    { intros Hb. destruct (Hw i Hb) as (w' & Hi' & _ & Hf). cbn in Hi'. rewrite Hi in Hi'. by injection Hi' as <-. }
    assert (process_step false END_OF_STREAM T (main_ok T n k b) (set_waits ws1 p) (set_waits ws' (set_driver d p))) as Hlast.
    { apply (StepWorker _ _ _ _ i (set_waits ws1 p) d ws' Hr). unfold driver_notify_worker, notify_of. cbn [p_driver p_waits set_waits]. rewrite E2. injection E as E. cbn [mbind option_bind n_group n_waits]. by rewrite <-E. }
    exists ws'. destruct H1' as [->|E1].
    + apply rtc_once. by destruct p.
    + eapply rtc_l; [|by apply rtc_once]. replace (set_waits ws1 p) with (set_waits ws1 (set_driver (p_driver p) p)) by by destruct p.
      apply (StepWorker _ _ _ _ i); [done|]. unfold driver_notify_worker, notify_of. rewrite E1. cbn [mbind option_bind n_group n_waits].
      rewrite drop_all. cbn [foldl]. by destruct (p_driver p).
  - exists (driver_notifies (p_driver p) d (p_waits p)). by apply rtc_once, (StepDriver _ _ _ _ p d).
Qed.

Lemma quiet_steps p d : inv p → deleting (p_pc p) = false → rtc quiet_step (p_driver p) d →
  ∃ ws, rtc (step false) p (set_waits ws (set_driver d p)).
Proof using All.
  intros HI Hdel Hs. remember (p_driver p) as d1 eqn:E. revert p HI Hdel E. induction Hs as [d1|d1 d2 d3 H12 _ IH]; intros p HI Hdel ->.
  - exists (p_waits p). by destruct p.
  - destruct (quiet_step_runs p d2 HI Hdel H12) as [ws1 Hs1]. set (p1 := set_waits ws1 (set_driver d2 p)) in *.
    destruct (IH p1) as [ws2 Hs2]; [|done|done|exists ws2; by etrans].
    exact (process_steps_inv END_OF_STREAM remaining to_end stream_ok delivers_all T n k PT b d0 Hstart A false p p1 Hs1 HI).
Qed.

Context (sch : Schedules) (order : list N).

(** [main] gets from where it is to one of the next places. *)
Definition leads_to p (next : process_state Q item D S U → Prop) : Prop := ∃ p', rtc (step false) p p' ∧ next p'.

Definition at_pc (pc : ProcessStream.main_pc) p : Prop := p_pc p = pc.

Lemma leads_quiet p d next : inv p → live_inv p → deleting (p_pc p) = false → rtc quiet_step (p_driver p) d →
  (∀ ws, let p' := set_waits ws (set_driver d p) in inv p' → live_inv p' → leads_to p' next) → leads_to p next.
Proof using All.
  intros HI HL Hdel Hs Hnext. destruct (quiet_steps p d HI Hdel Hs) as [ws Hp]. destruct (live_steps false p _ Hp HI HL) as [HI' HL'].
  destruct (Hnext ws HI' HL') as (p' & Hp' & Hn). exists p'. split; [by etrans|done].
Qed.

Lemma leads_main p p' (next : process_state Q item D S U → Prop) : main_ok T n k b sch order p →
  main_step END_OF_STREAM T sch order p = Some p' → next p' → leads_to p next.
Proof using . intros Hok E Hn. exists p'. split; [|done]. by apply rtc_once, (StepMain _ _ _ _ sch order). Qed.

Lemma process_leads p : inv p → live_inv p → p_pc p = PcProcess → leads_to p (at_pc PcProcessing).
Proof using All.
  intros HI HL Epc. pose proof (driver_of p HI) as Hd.
  pose proof (pi_pc _ _ _ _ _ _ _ _ _ _ HI) as Hpc. unfold pc_inv in Hpc. unfold live_inv in HL. rewrite Epc in Hpc, HL.
  destruct Hpc as (Hp & _). pose proof (se_break _ _ _ stream_ends _ (di_stream _ _ _ _ _ _ Hd)) as Hb.
  destruct (process_stream_until END_OF_STREAM (p_driver p)) as [d|] eqn:Ed.
  - apply (leads_main p (set_pc PcProcessing (set_driver d p))); [unfold main_ok; by rewrite Epc|unfold main_step; by rewrite Epc, Ed|done].
  - unfold process_stream_until in Ed. rewrite Hp in Ed. destruct (set_break_point _ _) as [s [|]]; [|done]. cbn in Ed. by rewrite HL in Ed.
Qed.

(** The call of [process_stream_until] returns. *)
Lemma processing_leads p : inv p → live_inv p → p_pc p = PcProcessing → leads_to p (at_pc (PcPrep false)).
Proof using All.
  intros HI HL Epc.
  assert (∀ p, p_pc p = PcProcessing → ph (p_driver p) = PhIdle → leads_to p (at_pc (PcPrep false))) as Hidle.
  { clear p HI HL Epc. intros p Epc Hp. apply (leads_main p (set_pc (PcPrep false) p)); [unfold main_ok; by rewrite Epc|unfold main_step; by rewrite Epc, Hp|done]. }
  assert (∀ p, inv p → live_inv p → p_pc p = PcProcessing → ph (p_driver p) = PhStream → leads_to p (at_pc (PcPrep false))) as Hstream.
  { clear p HI HL Epc. intros p HI HL Epc Hp. pose proof (pi_pc _ _ _ _ _ _ _ _ _ _ HI) as Hpc. unfold pc_inv in Hpc. rewrite Epc in Hpc.
    destruct (stream_ends_call n k b stream_ok (sd_stream _ _ _ _ _ Hstart) END_OF_STREAM remaining to_end delivers_all A stream_ends (p_driver p)) as (d & Hs & Hd).
    - exact (driver_of p HI).
    - apply Hpc.
    - done.
    - apply (leads_quiet p d); [done|done|by rewrite Epc|done|]. intros ws p' _ _. by apply Hidle. }
  pose proof HL as HL'. unfold live_inv in HL'. rewrite Epc in HL'. destruct HL' as (Hr & Hm).
  pose proof (pi_unpaused _ _ _ _ _ _ _ _ _ _ HI) as Hw. unfold unpaused in Hw. rewrite Epc in Hw.
  destruct (ph (p_driver p)) eqn:Hp; try done; [by apply Hidle| |by apply Hstream].
  destruct (resume_ends (p_driver p) Hp Hw Hr) as (d & Hs & Hd). apply (leads_quiet p d); [done|done|by rewrite Epc|done|].
  intros ws p' HI' HL'. by apply Hstream.
Qed.

(** The preparation starts, at once or when the workers are ready. *)
Lemma prep_now second p : inv p → p_pc p = PcPrep second →
  dsu_valid (sketching_alg (p_driver p)) = true ∨
  at_work (worker_threads (p_driver p)) ∧ main (worker_threads (p_driver p)) = MIdle ∧
    Forall (λ w, past_get (w_pc w) = false) (workers (worker_threads (p_driver p))) →
  leads_to p (at_pc (PcPrepping second)).
Proof using All.
  intros HI Epc Hr. pose proof (driver_of p HI) as Hd.
  pose proof (pi_pc _ _ _ _ _ _ _ _ _ _ HI) as Hpc. unfold pc_inv in Hpc. rewrite Epc in Hpc. destruct Hpc as [Hp _].
  assert (∃ d, prep_query CONNECTIVITY (p_driver p) = Some d ∧ (ph d = PhFlush → ready_to_flush (worker_threads d))) as (d & Ed & Hok).
  { unfold prep_query. rewrite Hp. destruct (has_cached_query _ _) eqn:Ec.
    - exists (p_driver p). split; [done|]. by rewrite Hp.
    - destruct Hr as [Hv|(Hw & Hm & Hr)].
      + destruct (de_cache _ _ _ _ _ _ _ (di_alg _ _ _ _ _ _ Hd)) as (_ & _ & _ & Es & _). unfold has_cached_query in Ec. cbn in Ec. congruence.
      + cbn. rewrite Hm. eexists. split; [done|]. intros _. destruct Hw as [Hl Hw]. split; [done|]. split; [done|]. intros i w Hi. cbn in Hi.
        rewrite lookupN_eq in Hi. destruct (Forall_lookup_1 _ _ _ _ Hw Hi) as (? & ? & ? & _). pose proof (Forall_lookup_1 _ _ _ _ Hr Hi). done. }
  apply (leads_main p (set_pc (PcPrepping second) (set_driver d p))); [|unfold main_step; by rewrite Epc, Ed|done].
  unfold main_ok. rewrite Epc. intros d' Ed'. by simplify_eq.
Qed.

Lemma prep_leads second p : inv p → live_inv p → p_pc p = PcPrep second → leads_to p (at_pc (PcPrepping second)).
Proof using All.
  intros HI HL Epc. pose proof (driver_of p HI) as Hd.
  pose proof (pi_pc _ _ _ _ _ _ _ _ _ _ HI) as Hpc. unfold pc_inv in Hpc. rewrite Epc in Hpc. destruct Hpc as [Hp [_ Ha]].
  destruct second; [apply prep_now; [done|done|left; apply Ha]|].
  pose proof (pi_unpaused _ _ _ _ _ _ _ _ _ _ HI) as Hw. unfold unpaused in Hw. rewrite Epc in Hw.
  destruct (can_be_ready n k b stream_ok (p_driver p) Hd Hp Hw) as (d & Hs & Hr). apply (leads_quiet p d); [done|done|by rewrite Epc|done|].
  intros ws p' HI' HL'. apply prep_now; [done|done|]. right. pose proof (pi_unpaused _ _ _ _ _ _ _ _ _ _ HI') as Hw'.
  unfold unpaused in Hw'. unfold live_inv in HL'. subst p'. cbn in HL', Hw' |- *. rewrite Epc in HL', Hw'. done.
Qed.

Lemma prepping_leads second p : inv p → live_inv p → p_pc p = PcPrepping second → leads_to p (at_pc (PcQuery second)).
Proof using All.
  intros HI HL Epc. pose proof (pi_pc _ _ _ _ _ _ _ _ _ _ HI) as Hpc. unfold pc_inv in Hpc. rewrite Epc in Hpc. destruct Hpc as [Hse _].
  assert (∃ d, rtc quiet_step (p_driver p) d ∧ ph d = PhIdle) as (d & Hs & Hd).
  { destruct Hse as [[_ Hp]|(todo & us & HF)]; [by exists (p_driver p)|]. by apply (flushing_returns n k b stream_ok todo us). }
  apply (leads_quiet p d); [done|done|by rewrite Epc|done|]. intros ws p' _ _.
  apply (leads_main _ (set_pc (PcQuery second) p')); [unfold main_ok; cbn; by rewrite Epc|unfold main_step; cbn; by rewrite Epc, Hd|done].
Qed.

(** ** The queries *)

Context (Hvalid : valid_call n k (CallConnected sch order : call U)).
Context (Hfree : collision_free (sk_seed b) (toggles (stream_ids A))).

(** The query runs the algorithm and has no samples left. *)
Definition query_fails p : Prop :=
  dsu_valid (sketching_alg (p_driver p)) = false ∧
  match (run_call T (CallConnected sch order : call U) (sketching_alg (p_driver p))).2 with
  | Ok (RThrown e) => NDEBUG = true ∧ out_of_samples e
  | Abort => NDEBUG = false
  | _ => False
  end.

Lemma query_ok second p : inv p → p_pc p = PcQuery second → main_ok T n k b sch order p ∧ prepared (p_driver p).
Proof using All.
  intros HI Epc. pose proof (pi_pc _ _ _ _ _ _ _ _ _ _ HI) as Hpc. unfold pc_inv in Hpc. rewrite Epc in Hpc. destruct Hpc as (Hp & Hse & [Hc _]).
  unfold main_ok. rewrite Epc. split; [split; [done|]|].
  - intros s _ _. rewrite (left_id ∅ symdiff). apply query_reliable_collision_free. apply (collision_free_subseteq _ (toggles (stream_ids A))); [|done].
    unfold complete in Hc. destruct (_ =? 0).
    + apply Permutation_nil_r in Hc. rewrite Hc. set_solver.
    + assert (toggles (stream_ids (handled (p_driver p))) = toggles (stream_ids A)) as ->; [|done]. apply toggles_perm. unfold stream_ids. by rewrite Hc.
  - destruct Hse as [[Hv _]|(todo & us & HF)]; [by left|right]. destruct (sd_workers _ _ _ _ _ Hstart) as [Hk0 _].
    by apply (flushed_all n k b ∅ stream_ok todo us).
Qed.

Lemma query_leads second p : inv p → p_pc p = PcQuery second →
  leads_to p (at_pc (if second then PcReturned else PcJoin)) ∨ second = false ∧ query_fails p.
Proof using All.
  intros HI Epc. pose proof (driver_of p HI) as Hd.
  pose proof (pi_pc _ _ _ _ _ _ _ _ _ _ HI) as Hpc. unfold pc_inv in Hpc. rewrite Epc in Hpc. destruct Hpc as (Hp & _ & [_ Ha]).
  destruct (query_ok second p HI Epc) as [Hok Hprep].
  assert (∀ cc ans, run_call T (CallConnected sch order : call U) (sketching_alg (p_driver p)) = (cc, Ok (RComponents ans)) →
    leads_to p (at_pc (if second then PcReturned else PcJoin))) as Hans.
  { intros cc ans E. eapply leads_main; [exact Hok|unfold main_step; rewrite Epc; unfold driver_query; rewrite Hp, E; reflexivity|by destruct second]. }
  destruct (dsu_valid (sketching_alg (p_driver p))) eqn:Hv.
  - left. pose proof (di_alg _ _ _ _ _ _ Hd) as HD. pose proof (de_n _ _ _ _ _ _ _ HD) as Hn. pose proof (cb_n _ _ (de_base _ _ _ _ _ _ _ HD)) as [_ Hn32].
    destruct Hvalid as [_ Hord]. rewrite <-Hn in Hord.
    destruct (connected_components_cached T sch order _ _ Hn32 (de_cache _ _ _ _ _ _ _ HD) Hv Hord) as (e & ans & E & _).
    apply (Hans (set_dsu e (sketching_alg (p_driver p))) ans). cbn [run_call]. unfold caught. by rewrite E.
  - unfold main_ok in Hok. rewrite Epc in Hok. destruct Hok as [_ Hrel].
    destruct (prepared_query_ok n k b ∅ stream_ok T PT (empty_graph n) (CallConnected sch order : call U) _ Hd eq_refl Hvalid Hprep Hrel) as (cc & o & E & Ho).
    destruct second; [by destruct Ha|]. unfold query_fails. rewrite E. cbn [snd]. unfold queried in Ho.
    destruct o as [[|ans| | |e]|e| |]; try done; [by destruct Ho as (_ & _ & [])|left; by apply (Hans cc ans)|by destruct Ho as (_ & _ & [])..|right|right].
    + by destruct Ho as (? & ? & _).
    + done.
Qed.

(** ** The progress thread ends, and so does [main] *)

Lemma track_ends p : p_shutdown p = true → p_track p ≠ TrFailed → rtc (step false) p (set_track TrDone p).
Proof using .
  intros Hsh Ht.
  assert (∀ p updates, p_shutdown p = true → p_track p = TrRead updates → rtc (step false) p (set_track TrDone p)) as Hread.
  { clear p Hsh Ht. intros p updates Hsh Et. apply rtc_once, StepTrack. unfold track_insertions. by rewrite Et, Hsh, orb_true_r. }
  destruct (p_track p) as [|updates| |] eqn:Et; [|by apply (Hread p updates)| |done].
  - eapply rtc_l; [apply StepTrack; unfold track_insertions; by rewrite Et|].
    apply (Hread (set_track (TrRead (get_total_updates (p_driver p))) p) (get_total_updates (p_driver p))); done.
  - destruct p. cbn in Et. by subst.
Qed.

Lemma join_leads p : inv p → live_inv p → p_pc p = PcJoin → leads_to p (at_pc (PcPrep true)).
Proof using sch order.
  intros HI HL Epc. unfold live_inv in HL. rewrite Epc in HL.
  exists (set_pc (PcPrep true) (print_CC_num (set_track TrDone p))). split; [|done].
  eapply rtc_r; [by apply track_ends; [|apply HI]|]. apply (StepMain _ _ _ _ sch order); [unfold main_ok; cbn; by rewrite Epc|].
  unfold main_step. cbn. by rewrite Epc.
Qed.

Lemma leads_trans p (next next' : process_state Q item D S U → Prop) : inv p → live_inv p → leads_to p next →
  (∀ p', inv p' → live_inv p' → next p' → leads_to p' next') → leads_to p next'.
Proof using All.
  intros HI HL (p1 & Hs & Hn) H'. destruct (live_steps false p p1 Hs HI HL) as [HI1 HL1]. destruct (H' p1 HI1 HL1 Hn) as (p2 & Hs' & Hn').
  exists p2. split; [by etrans|done].
Qed.

(** ** The driver is destroyed *)

(** No worker has missed the notification of the destructor. *)
Definition told_in_time p : Prop := p_pc p = PcDelete AtWorkers → on_time (group_of p).

(** Steps of the destructor, as steps of the program. *)
Definition in_destructor p (y : deletion Q item D S U) : process_state Q item D S U :=
  set_pc (PcDelete (x_pc (del_x y))) (set_waits (del_waits y) (set_driver (x_driver (del_x y)) p)).

Lemma deletion_step_process p y y' : deletion_step false y y' → step false (in_destructor p y) (in_destructor p y').
Proof using sch order.
  intros Hs. destruct Hs as [i x d ws ws' Hr E|x x' ws E|i x ws Hf _]; [| |done].
  - exact (StepWorker _ _ _ _ i (in_destructor p (mkDeletion x ws)) d ws' Hr E).
  - apply (StepMain _ _ _ _ sch order); [done|]. unfold main_step, in_destructor. cbn. destruct x as [at_ d]. cbn. by rewrite E.
Qed.

Lemma delete_leads p at_ : inv p → p_pc p = PcDelete at_ → told_in_time p → leads_to p (at_pc (PcDelete AtEnd)).
Proof using All.
  intros HI Epc Ht. pose proof (pi_reached _ _ _ _ _ _ _ _ _ _ HI) as Hr. unfold reached in Hr. rewrite Epc in Hr. destruct Hr as (d & _ & HX).
  destruct (deletion_ends n k b ∅ stream_ok d _ HX) as (y & Hs & Ey).
  { intros Eat. cbn in Eat. subst at_. by apply Ht. }
  exists (in_destructor p y). split; [|unfold at_pc, in_destructor; cbn; by rewrite Ey].
  assert (p = in_destructor p (mkDeletion (mkDestructing at_ (p_driver p)) (p_waits p))) as Ep by (unfold in_destructor; cbn; rewrite <-Epc; by destruct p).
  rewrite Ep at 1. clear -Hs sch order. induction Hs as [|y1 y2 y3 H12 _ IH]; [done|]. eapply rtc_l; [by apply deletion_step_process|done].
Qed.

Lemma return_leads p : inv p → p_pc p = PcReturned → leads_to p (at_pc (PcDelete AtEnd)).
Proof using All.
  intros HI Epc. pose proof (pi_pc _ _ _ _ _ _ _ _ _ _ HI) as Hpc. unfold pc_inv in Hpc. rewrite Epc in Hpc. destruct Hpc as [Hp _].
  destruct (pi_runs _ _ _ _ _ _ _ _ _ p HI) as [Hs _]; [by rewrite Epc|].
  destruct (runs_ok n k b stream_ok T PT d0 (p_driver p) Hstart Hs) as [_ Hok].
  destruct (begin_destructor_idle (p_driver p) Hok Hp) as [x Ex].
  set (p1 := set_pc (PcDelete (x_pc x)) (set_driver (x_driver x) p)).
  assert (step false p p1) as H1'.
  { apply (StepMain _ _ _ _ sch order); [unfold main_ok; by rewrite Epc|]. unfold main_step. by rewrite Epc, Ex. }
  pose proof (process_step_inv END_OF_STREAM remaining to_end stream_ok delivers_all T n k PT b d0 Hstart A false p p1 HI H1') as HI1.
  destruct (delete_leads p1 (x_pc x) HI1 eq_refl) as (p2 & Hs2 & Hn); [|exists p2; split; [by eapply rtc_l|done]].
  intros _ Hj. exfalso. revert Hj. unfold begin_destructor in Ex. rewrite Hp in Ex. unfold p1. cbn. unfold start in Ex.
  destruct (main (worker_threads (p_driver p))); try done; by injection Ex as <-.
Qed.

(** [main] has returned and the driver is gone, or its first query has failed. *)
Definition ended p : Prop := p_pc p = PcDelete AtEnd ∨ p_pc p = PcQuery false ∧ query_fails p.

Lemma can_end p : inv p → live_inv p → told_in_time p → leads_to p ended.
Proof using All.
  assert (∀ p, inv p → live_inv p → at_pc PcReturned p → leads_to p ended) as Hr.
  { clear p. intros p HI HL Epc. apply (leads_trans p _ _ HI HL (return_leads p HI Epc)).
    intros p' _ _ Hp'. exists p'. split; [done|by left]. }
  assert (∀ p, inv p → live_inv p → at_pc (PcQuery true) p → leads_to p ended) as Hq2.
  { clear p. intros p HI HL Epc. destruct (query_leads true p HI Epc) as [Hl|[? _]]; [|done]. exact (leads_trans p _ _ HI HL Hl Hr). }
  assert (∀ p, inv p → live_inv p → at_pc (PcPrepping true) p → leads_to p ended) as Hpp2.
  { clear p. intros p HI HL Epc. exact (leads_trans p _ _ HI HL (prepping_leads true p HI HL Epc) Hq2). }
  assert (∀ p, inv p → live_inv p → at_pc (PcPrep true) p → leads_to p ended) as Hp2.
  { clear p. intros p HI HL Epc. exact (leads_trans p _ _ HI HL (prep_leads true p HI HL Epc) Hpp2). }
  assert (∀ p, inv p → live_inv p → at_pc PcJoin p → leads_to p ended) as Hj.
  { clear p. intros p HI HL Epc. exact (leads_trans p _ _ HI HL (join_leads p HI HL Epc) Hp2). }
  assert (∀ p, inv p → live_inv p → at_pc (PcQuery false) p → leads_to p ended) as Hq1.
  { clear p. intros p HI HL Epc. destruct (query_leads false p HI Epc) as [Hl|[_ Hf]]; [by apply (leads_trans p _ _ HI HL Hl)|].
    exists p. split; [done|by right]. }
  assert (∀ p, inv p → live_inv p → at_pc (PcPrepping false) p → leads_to p ended) as Hpp1.
  { clear p. intros p HI HL Epc. exact (leads_trans p _ _ HI HL (prepping_leads false p HI HL Epc) Hq1). }
  assert (∀ p, inv p → live_inv p → at_pc (PcPrep false) p → leads_to p ended) as Hp1.
  { clear p. intros p HI HL Epc. exact (leads_trans p _ _ HI HL (prep_leads false p HI HL Epc) Hpp1). }
  assert (∀ p, inv p → live_inv p → at_pc PcProcessing p → leads_to p ended) as Hs.
  { clear p. intros p HI HL Epc. exact (leads_trans p _ _ HI HL (processing_leads p HI HL Epc) Hp1). }
  intros HI HL Ht. destruct (p_pc p) as [| |[]|[]|[]| | |at_] eqn:Epc; try by auto.
  - exact (leads_trans p _ _ HI HL (process_leads p HI HL Epc) Hs).
  - apply (leads_trans p _ _ HI HL (delete_leads p at_ HI Epc Ht)). intros p' _ _ Hp'. exists p'. split; [done|by left].
Qed.
End Runs.

(** * Construction succeeds *)

(** Multiplying by the batch factor 1. *)
Lemma times_one m : 0 < m ≤ 2 ^ 50 → ∃ z, trunc_Z (dmul (double_of_N m) (double_of_N 1)) = Some z ∧ (0 ≤ z < 2 ^ 64)%Z.
Proof.
  intros Hm. destruct (double_of_N_small m) as [Pm Vm]; [lia|]. destruct (double_of_N_small 1) as [P1 V1]; [lia|].
  assert (1 <= IZR (Z.of_N m) <= 1125899906842624)%R as B by (split; apply IZR_le; lia).
  change (IZR (Z.of_N 1)) with 1%R in V1. pose proof pow2_wide as (_ & _ & W3 & W4).
  assert (correctly_rounded (dmul (double_of_N m) (double_of_N 1)) (d2r (double_of_N m) * d2r (double_of_N 1))) as Hd
    by (apply dmul_correct; [done|done|]; rewrite Vm, V1; lra).
  pose proof (correctly_rounded_error _ _ Hd) as He. rewrite pow2_m52, Vm, V1 in He. apply Rabs_bounds in He.
  destruct (trunc_Z_spec _ (correctly_rounded_pos _ _ Hd)) as (z & Ez & Bz). exists z. split; [done|].
  split; [apply Z.lt_succ_r, lt_IZR; rewrite succ_IZR; lra|]. apply lt_IZR. change (IZR (2 ^ 64)) with 18446744073709551616%R. lra.
Qed.

Section Construct.
Context `{P : Platform} `{!PlatformLaws P} {Q item D S U : Type} `{GL : GutteringLaws Q item}
  `{UFL : UnionFindLaws D} `{ST : GraphStream S U} {C : Type}.

(** The bytes of a sketch are few enough for the detour through [double]. *)
Lemma desired_updates_ok (cc : CCSketchAlg D) s : sketches cc !! 0 = Some s → bucket_array_bytes s < 2 ^ 50 →
  _batch_factor (config cc) = double_of_N 1 → ∃ num, get_desired_updates_per_batch cc = Ok num.
Proof using .
  intros Hs Hb Hf. unfold get_desired_updates_per_batch. rewrite Hs, Hf. cbn [of_option mbind outcome_bind].
  assert (bucket_array_bytes s / 4 ≤ 2 ^ 50) as Hm by (etrans; [apply N.Div0.div_le_upper_bound with (q := 2 ^ 50); lia|done]).
  generalize dependent (bucket_array_bytes s / 4). intros m Hm.
  assert (m = 0 ∨ 0 < m) as [->|Hpos] by lia; [by eexists|].
  destruct (times_one m) as (z & -> & Hz); [done|]. unfold to_unsigned. exists (Z.to_N z).
  by rewrite (proj2 (Z.leb_le _ _)), (proj2 (Z.ltb_lt _ _)) by lia.
Qed.

Lemma CCSketchAlg_new_config n seed conf prio_gen (cc : CCSketchAlg D) : CCSketchAlg_new n seed conf prio_gen = Ok cc → config cc = conf.
Proof using .
  unfold CCSketchAlg_new. intros E. apply outcome_bind_inv in E as (? & _ & E). apply outcome_bind_inv in E as (? & _ & E).
  apply outcome_bind_inv in E as ([] & _ & E). by injection E as <-.
Qed.

Context (END_OF_STREAM : N) (remaining : S → list (GraphUpdate U)) (to_end : S → Prop) (stream_ok : S → Prop).
Context (default_gutters : C) (gutter_bytes_uninit : C → bool) (gutter_bytes : N → C → C)
  (make_gutters : GutterSystem → string → N → N → N → C → Q) (show_double : double → string) (show_N : N → string)
  (vertices edges : S → N).

Abbreviation main := (process_stream_main default_gutters gutter_bytes_uninit gutter_bytes make_gutters show_double show_N
  vertices edges (item := item) (D := D) (U := U)).
Abbreviation cc_config := (batch_factor show_double (double_of_N 1) CCAlgConfiguration_default).1.
Abbreviation env := (environment END_OF_STREAM remaining to_end stream_ok make_gutters vertices edges).

(** With three arguments and at least one worker, [main] gets going. *)
Lemma main_succeeds n b s num_threads reader_threads seed prio_gen : env n s → good_params n seed cc_config b →
  (0 < num_threads)%Z → ∃ p0, main 4 num_threads reader_threads s seed prio_gen = Ok (Some p0) ∧ live_inv p0.
Proof using PlatformLaws0 UFL.
  intros [_ _ _ Hn _ _] Hp Hk. unfold process_stream_main. cbn [Z.eqb Pos.eqb negb].
  rewrite (proj2 (Z.ltb_ge num_threads 1)) by lia. rewrite Hn.
  destruct (CCSketchAlg_new_ok n seed cc_config prio_gen b Hp) as (cc & Ec & HI & En & _ & _ & Hs). rewrite Ec. cbn [mbind outcome_bind].
  set (conf := (Config.worker_threads show_N _ _).1). unfold GraphSketchDriver_new.
  destruct (allocate_ok cc b (_num_worker_threads conf) (ci_base _ _ _ HI)) as (cc1 & -> & _ & F & Hs1).
  destruct F as (_ & _ & _ & _ & _ & _ & _ & _ & Fc & _).
  assert (∃ num, get_desired_updates_per_batch cc1 = Ok num) as [num Enum].
  { pose proof (gp_n _ _ _ _ Hp) as Hn1. pose proof (cb_wf _ _ (ci_base _ _ _ HI)) as W. apply (desired_updates_ok cc1 b).
    - rewrite Hs1, Hs, lookupN_eq. apply lookup_replicate. split; [done|lia].
    - pose proof (wf_total_bound b W). pose proof vec_bytes_8. pose proof vec_hash_bytes_range. unfold bucket_array_bytes, bucket_bytes. rewrite wrap_small; nia.
    - cbn in Fc. by rewrite Fc, (CCSketchAlg_new_config _ _ _ _ _ Ec). }
  destruct (gutter_bytes_uninit _); [rewrite Enum|]; (eexists; split; [done|]; done).
Qed.

(** C3. process_stream can end. Given three arguments of which the first asks for
    at least one worker (and fewer than 2^31), [main] gets going. Provided the
    checksums of the edges of the stream do not collide, and each flush starts
    when no worker stands between an empty-handed [get_data] and its next call:
    from every state that some such interleaving of [main], the thread that shows
    the progress, the readers of the stream and the workers reaches, and in which
    no worker has missed the [notify_all] of the driver's destructor (it has not
    been called yet, or nobody was about to block when it was), some continuation
    lets [main] return and the driver be destroyed, or else its first query, run
    on the sketches, fails because they are exhausted; and in that continuation no
    wait ends without a notification. *)
Theorem process_stream_can_end n T b s num_threads reader_threads seed prio_gen sch order (PT : Partitioned n T) (Henv : env n s)
    (Hends : StreamEnds stream_ok END_OF_STREAM to_end) (Hp : good_params n seed cc_config b) (Hworkers : (0 < num_threads < 2 ^ 31)%Z)
    (Hvalid : valid_call n (long_to_u64 num_threads) (CallConnected sch order : call U))
    (Hfree : collision_free (sk_seed b) (toggles (stream_ids (remaining s)))) :
  let step spurious := process_step spurious END_OF_STREAM T (main_ok T n (long_to_u64 num_threads) b) in
  ∃ p0, main 4 num_threads reader_threads s seed prio_gen = Ok (Some p0) ∧
    ∀ p, rtc (step true) p0 p → told_in_time p → ∃ p', rtc (step false) p p' ∧
      (p_pc p' = PcDelete AtEnd ∨ p_pc p' = PcQuery false ∧ query_fails T sch order p').
Proof using GL PlatformLaws0 UFL.
  destruct (main_succeeds n b s num_threads reader_threads seed prio_gen Henv Hp) as (p0 & Emain & HL); [lia|].
  exists p0. split; [done|]. intros p Hrun Ht.
  destruct (main_starts END_OF_STREAM remaining to_end stream_ok default_gutters gutter_bytes_uninit gutter_bytes make_gutters
    show_double show_N vertices edges n T b s 4 num_threads reader_threads seed prio_gen p0 Henv Hp) as (Hst & HI & _); [lia|done|].
  pose proof (en_delivers _ _ _ _ _ _ _ _ _ Henv) as Hdel.
  destruct (live_steps END_OF_STREAM remaining to_end stream_ok Hdel Hends T n _ PT b _ Hst _ true p0 p Hrun HI HL) as [HIp HLp].
  exact (can_end END_OF_STREAM remaining to_end stream_ok Hdel Hends T n _ PT b _ Hst _ sch order Hvalid Hfree p HIp HLp Ht).
Qed.
End Construct.

(** * A run *)

Section Demo.
#[local] Existing Instance demo_platform.
#[local] Existing Instance demo_parts.

Abbreviation demo_process := (process_state gutters (list (N * list N)) DSU_MT file_stream bool).

Lemma file_stream_ends n idx : StreamEnds (file_in_range n) idx (λ s, only_updates (fs_updates s)).
Proof.
  split; [done|]. intros size [us] Ho. destruct us as [|u us]; [done|]. cbn [get_update_buffer file_graph_stream fs_updates snd].
  rewrite until_breakpoint_all by (by apply Forall_take). done.
Qed.

(** Up to the [notify_all] of the destructor, which both workers wait for. *)
Definition told_moves : list process_move := process_moves ++ replicate 5 MvMain ++ [MvDriver (MvWorker 0)].

Definition demo_told (p : demo_process) : bool :=
  match p_pc p with PcDelete AtWorkers => true | _ => false end &&
  is_waiting (worker_threads (p_driver p)) 1 && on_timeb (group_of p).

Lemma demo_told_reached : match demo_main 1 with Ok (Some p0) => demo_told (process_execute told_moves p0) | _ => false end = true.
Proof. vm_compute. reflexivity. Qed.

Lemma process_stream_can_end_witness : ∃ p : demo_process, p_pc p = PcDelete AtWorkers ∧ is_waiting (worker_threads (p_driver p)) 1 = true ∧
  ∃ p', rtc (process_step false 0 2 (main_ok 2 6 2 demo_base)) p p' ∧
    (p_pc p' = PcDelete AtEnd ∨ p_pc p' = PcQuery false ∧ query_fails 2 demo_schedules demo_order p').
Proof.
  pose proof demo_told_reached as Ht.
  assert (valid_call 6 2 (CallConnected demo_schedules demo_order : call bool)) as Hv by (split; exact demo_order_perm).
  assert (collision_free (sk_seed demo_base) (toggles (stream_ids (fs_updates demo_file)))) as Hfree.
  { apply (collision_free_subseteq _ (list_to_set demo_ids)); [|exact demo_collision_free].
    intros id Hid%elem_of_toggles. apply elem_of_list_to_set. revert id Hid. apply Forall_forall.
    apply (bool_decide_eq_true (Forall (λ id, id ∈ demo_ids) (stream_ids (fs_updates demo_file)))). vm_compute. reflexivity. }
  destruct (process_stream_can_end (C := unit) 0 fs_updates (λ s, only_updates (fs_updates s)) (file_in_range 6)
    tt (λ _, false) (λ _ c, c) (λ _ _ _ _ _ _, mkGutters (mkQueue [] false) []) (λ _, EmptyString) (λ _, EmptyString)
    (λ _, 6) (λ s, N.of_nat (length (fs_updates s))) 6 2 demo_base demo_file 2 1 7 (λ i, i * 5 mod 7) demo_schedules demo_order demo_parts
    demo_environment (file_stream_ends 6 0) demo_params ltac:(split; reflexivity) Hv Hfree) as (p0 & E & H).
  assert (demo_main 1 = Ok (Some p0)) as E1 by exact E. rewrite E1 in Ht. clear E E1. pose proof (process_execute_steps told_moves p0) as Hrun. generalize dependent (process_execute told_moves p0).
  intros p Ht Hrun. unfold demo_told in Ht. apply andb_prop in Ht as [[Hpc Hw]%andb_prop Hon%on_timeb_sound].
  destruct (H p Hrun (λ _, Hon)) as (p' & Hs & Hp'). exists p. split; [|split; [exact Hw|exists p'; split; [exact Hs|exact Hp']]].
  destruct (p_pc p) as [| | | | | | |[| |]]; try discriminate Hpc. reflexivity.
Defined.
End Demo.
