(* ===== verification/MemLogic.v ===== *)
(** A separation logic for allocated memory.

    The free store is a finite map from addresses to blocks. [heapProp] are the
    predicates on parts of it, as an instance of Iris's interface [bi], so that
    proofs use its proof mode. The logic is linear: a part of the memory cannot
    be forgotten, so a call that ends in [emp] has freed what it allocated. [wp]
    is the weakest precondition of a call: it does not go wrong, it ends, and it
    leaves the rest of the memory alone. *)
From iris.proofmode Require Import proofmode.
From S2P Require Import Prelude.

Open Scope N_scope.

(** * Memory *)

(** What an address holds, as far as it owns memory. *)
Inductive block : Type :=
| BArray                          (** an array whose elements own nothing here *)
| BPointers (ps : list N)         (** an array of pointers *)
| BObject                         (** an object that owns nothing here *)
| BSketch (buckets : N)           (** a [Sketch] *)
| BWorker (gts : N)               (** a [WorkerThread] *)
| BGroup (workers num_workers gts : N)  (** a [WorkerThreadGroup] *).

Definition heap : Type := gmap N block.

Definition nullptr : N := 0.

(** [new]: any address that is free. *)
Definition new (b : block) : M heap N := λ h,
  let p := fresh ({[ nullptr ]} ∪ dom h) in (<[p := b]> h, Ok p).

Definition load (p : N) : M heap block := λ h, (h, of_option (h !! p)).
Definition store (p : N) (b : block) : M heap unit := λ h,
  match h !! p with Some _ => (<[p := b]> h, Ok tt) | None => (h, Undef) end.

(** The storage goes; what it held. *)
Definition free (p : N) : M heap block := λ h,
  match h !! p with Some b => (delete p h, Ok b) | None => (h, Undef) end.

Definition is_array (b : block) : bool := match b with BArray | BPointers _ => true | _ => false end.

(** [delete[] p] *)
Definition delete_array (p : N) : M heap unit :=
  if p =? nullptr then mret tt else b ← free p; lift (if is_array b then Ok tt else Undef).

(** Scopes: the destructor runs when the body ends, by an exception as well. *)
Definition finally {A} (m : M heap A) (destructor : M heap unit) : M heap A := λ h,
  match m h with
  | (h, Ok a) => (destructor ≫= λ _, mret a) h
  | (h, Throw e) => (destructor ≫= λ _, throw e) h
  | r => r
  end.

(** * Predicates *)

Record heapProp : Type := HeapProp { holds_in : heap → Prop }.
Bind Scope bi_scope with heapProp.

Section Logic.
Implicit Types (P Q R : heapProp) (σ : heap).

Inductive hp_entails P Q : Prop := HpEntails { hp_in : ∀ σ, holds_in P σ → holds_in Q σ }.

#[export] Instance hp_equiv : Equiv heapProp := λ P Q, ∀ σ, holds_in P σ ↔ holds_in Q σ.
#[local] Instance hp_equivalence : Equivalence (≡@{heapProp}).
Proof. split; [done|by intros P Q H σ|]. intros P Q R H1 H2 σ. by rw (H1 σ). Qed.
#[local] Instance hp_dist : Dist heapProp := λ _, (≡).
Definition hp_ofe_mixin : OfeMixin heapProp := discrete_ofe_mixin hp_equivalence.

Definition hp_emp : heapProp := HeapProp (λ σ, σ = ∅).
Definition hp_pure (φ : Prop) : heapProp := HeapProp (λ _, φ).
Definition hp_and P Q : heapProp := HeapProp (λ σ, holds_in P σ ∧ holds_in Q σ).
Definition hp_or P Q : heapProp := HeapProp (λ σ, holds_in P σ ∨ holds_in Q σ).
Definition hp_impl P Q : heapProp := HeapProp (λ σ, holds_in P σ → holds_in Q σ).
Definition hp_forall A (Φ : A → heapProp) : heapProp := HeapProp (λ σ, ∀ a, holds_in (Φ a) σ).
Definition hp_exist A (Φ : A → heapProp) : heapProp := HeapProp (λ σ, ∃ a, holds_in (Φ a) σ).
Definition hp_sep P Q : heapProp :=
  HeapProp (λ σ, ∃ σ1 σ2, σ = σ1 ∪ σ2 ∧ σ1 ##ₘ σ2 ∧ holds_in P σ1 ∧ holds_in Q σ2).
Definition hp_wand P Q : heapProp :=
  HeapProp (λ σ, ∀ σ', σ ##ₘ σ' → holds_in P σ' → holds_in Q (σ ∪ σ')).
Definition hp_persistently P : heapProp := hp_pure (hp_entails hp_emp P).

Ltac unfold_hp := unfold hp_emp, hp_pure, hp_and, hp_or, hp_impl, hp_forall, hp_exist, hp_sep, hp_wand; cbn [holds_in].

Lemma hp_mixin : BiMixin hp_entails hp_emp hp_pure hp_and hp_or hp_impl hp_forall hp_exist hp_sep hp_wand.
Proof.
  split.
  - split; [by intros P; split|]. intros P Q R [H1] [H2]. split. auto.
  - intros P Q. split; [intros H; split; split; apply H|]. intros [[H1] [H2]] σ. split; auto.
  - intros n φ ψ H σ. exact H.
  - intros n P P' HP Q Q' HQ σ. unfold_hp. by rw (HP σ) (HQ σ).
  - intros n P P' HP Q Q' HQ σ. unfold_hp. by rw (HP σ) (HQ σ).
  - intros n P P' HP Q Q' HQ σ. unfold_hp. by rw (HP σ) (HQ σ).
  - intros A n Φ Ψ H σ. split; intros HΦ a; by apply (H a σ), HΦ.
  - intros A n Φ Ψ H σ. split; intros [a HΦ]; exists a; by apply (H a σ), HΦ.
  - intros n P P' HP Q Q' HQ σ. split; intros (σ1 & σ2 & ? & ? & H1 & H2); exists σ1, σ2;
      (split_and!; [done|done|by apply (HP σ1)|by apply (HQ σ2)]).
  - intros n P P' HP Q Q' HQ σ. split; intros H σ' Hd Hp; apply (HQ (σ ∪ σ')), H; [done|by apply (HP σ')|done|by apply (HP σ')].
  - intros φ P H. by split.
  - intros φ P H. split. intros σ Hφ. by apply (H Hφ).
  - intros P Q. split. by intros σ [? ?].
  - intros P Q. split. by intros σ [? ?].
  - intros P Q R [H1] [H2]. split. intros σ HP. split; auto.
  - intros P Q. split. by left.
  - intros P Q. split. by right.
  - intros P Q R [H1] [H2]. split. intros σ [?|?]; auto.
  - intros P Q R [H]. split. intros σ HP HQ. by apply H.
  - intros P Q R [H]. split. intros σ [HP HQ]. by apply H.
  - intros A P Ψ H. split. intros σ HP a. by apply (H a).
  - intros A Ψ a. split. intros σ H. apply H.
  - intros A Ψ a. split. intros σ H. by exists a.
  - intros A Φ Q H. split. intros σ [a HΦ]. by apply (H a).
  - intros P P' Q Q' [HP] [HQ]. split. intros σ (σ1 & σ2 & ? & ? & H1 & H2). exists σ1, σ2. auto.
  - intros P. split. intros σ HP. exists ∅, σ. split_and!; [by rw map_empty_union|apply map_disjoint_empty_l|done|done].
  - intros P. split. intros σ (σ1 & σ2 & -> & _ & E & HP). cbn in E. subst. by rw map_empty_union.
  - intros P Q. split. intros σ (σ1 & σ2 & -> & Hd & HP & HQ). exists σ2, σ1. split_and!; [by apply map_union_comm|done|done|done].
  - intros P Q R. split. intros σ (σ12 & σ3 & -> & Hd & (σ1 & σ2 & -> & Hd' & HP & HQ) & HR).
    apply map_disjoint_union_l in Hd as [Hd1 Hd2].
    exists σ1, (σ2 ∪ σ3). split_and!; [by rw map_union_assoc|by apply map_disjoint_union_r_2|done|]. by exists σ2, σ3.
  - intros P Q R [H]. split. intros σ HP σ' Hd HQ. apply H. by exists σ, σ'.
  - intros P Q R [H]. split. intros σ (σ1 & σ2 & -> & Hd & HP & HQ). by apply (H σ1 HP σ2).
Qed.

#[local] Instance hp_cofe : Cofe (Ofe heapProp hp_ofe_mixin) := discrete_cofe hp_equivalence.

Lemma hp_persistently_mixin : BiPersistentlyMixin hp_entails hp_emp hp_and hp_exist hp_sep hp_persistently.
Proof.
  eapply bi_persistently_mixin_discrete, hp_mixin; [done| |done].
  intros A Φ [H]. destruct (H ∅) as [a Ha]; [done|]. exists a. split. by intros σ ->.
Qed.

Lemma hp_later_mixin : BiLaterMixin hp_entails hp_pure hp_or hp_impl hp_forall hp_exist hp_sep hp_persistently id.
Proof. eapply bi_later_mixin_id; [done|apply hp_mixin]. Qed.
End Logic.

Canonical Structure heapPropI : bi := {|
  bi_ofe_mixin := hp_ofe_mixin; bi_cofe_aux := hp_cofe; bi_bi_mixin := hp_mixin;
  bi_bi_persistently_mixin := hp_persistently_mixin; bi_bi_later_mixin := hp_later_mixin |}.

#[export] Instance hp_pure_forall : BiPureForall heapPropI.
Proof. intros A φ. split. by intros σ. Qed.

(** [p] points to [b], and nothing else is there. *)
Definition points_to (p : N) (b : block) : heapProp := HeapProp (λ σ, σ = {[ p := b ]} ∧ p ≠ nullptr).
Notation "p ↦ b" := (points_to p b) (at level 20, format "p  ↦  b") : bi_scope.

(** So many blocks, that nobody points to. *)
Definition blocks (n : nat) : heapProp := HeapProp (λ σ, size σ = n).

(** * Weakest preconditions *)

Definition wp {A} (m : M heap A) (Φ : outcome A → heapProp) : heapProp :=
  HeapProp (λ σ, ∀ h, σ ##ₘ h → ∃ o σ', m (σ ∪ h) = (σ' ∪ h, o) ∧ σ' ##ₘ h ∧ holds_in (Φ o) σ').

(** For calls that return. *)
Definition returns {A} (Φ : A → heapProp) (o : outcome A) : heapProp :=
  match o with Ok a => Φ a | _ => False%I end.

Section Rules.
Implicit Types (P Q R : heapProp) (σ h : heap).

Lemma wp_wand {A} (m : M heap A) Φ Ψ : wp m Φ -∗ (∀ o, Φ o -∗ Ψ o) -∗ wp m Ψ.
Proof.
  apply bi.wand_intro_r, bi.wand_intro_r. rw left_id. split. intros σ (σ1 & σ2 & -> & Hd & Hwp & HΦ) h Hh.
  apply map_disjoint_union_l in Hh as [Hh1 Hh2].
  destruct (Hwp (σ2 ∪ h)) as (o & σ' & E & Hd' & Ho); [by apply map_disjoint_union_r_2|].
  apply map_disjoint_union_r in Hd' as [Hd1 Hd2].
  exists o, (σ' ∪ σ2). split; [by rw -!map_union_assoc E|]. split; [by apply map_disjoint_union_l_2|].
  rw map_union_comm; [|done]. apply (HΦ o); [by apply map_disjoint_sym|done].
Qed.

Lemma wp_ret {A} (a : A) Φ : Φ (Ok a) ⊢ wp (mret a) Φ.
Proof. split. intros σ HΦ h Hd. by exists (Ok a), σ. Qed.

Lemma wp_throw {A} e (Φ : outcome A → heapProp) : Φ (Throw e) ⊢ wp (throw e) Φ.
Proof. split. intros σ HΦ h Hd. by exists (Throw e), σ. Qed.

Lemma wp_bind {A B} (m : M heap A) (k : A → M heap B) Φ :
  wp m (λ o, match o with Ok a => wp (k a) Φ | Throw e => Φ (Throw e) | Abort => Φ Abort | Undef => Φ Undef end) ⊢
  wp (m ≫= k) Φ.
Proof.
  split. intros σ Hm h Hd. destruct (Hm h Hd) as (o & σ1 & E & Hd1 & Ho). unfold mbind, M_bind. rw E.
  destruct o as [a|e| |]; [by apply (Ho h Hd1)|by exists (Throw e), σ1|by exists Abort, σ1|by exists Undef, σ1].
Qed.

Lemma wp_finally {A} (m : M heap A) d Φ :
  wp m (λ o, match o with
             | Ok a => wp d (returns (λ _, Φ (Ok a)))
             | Throw e => wp d (returns (λ _, Φ (Throw e)))
             | _ => False
             end) ⊢ wp (finally m d) Φ.
Proof.
  split. intros σ Hm h Hd. destruct (Hm h Hd) as (o & σ1 & E & Hd1 & Ho). unfold finally, mbind, M_bind. rw E.
  destruct o as [a|e| |]; [..|done|done]; destruct (Ho h Hd1) as ([[]|?| |] & σ2 & E2 & Hd2 & Ho2); try done; rw E2;
    [by exists (Ok a), σ2|by exists (Throw e), σ2].
Qed.

Lemma wp_new b Φ : (∀ p, p ↦ b -∗ Φ (Ok p)) ⊢ wp (new b) Φ.
Proof.
  split. intros σ HΦ h Hd. set (p := fresh ({[ nullptr ]} ∪ dom (σ ∪ h))).
  assert (p ∉ {[ nullptr ]} ∪ dom (σ ∪ h)) as Hp by apply is_fresh.
  apply not_elem_of_union in Hp as [Hp0 Hp]. apply not_elem_of_singleton in Hp0. apply not_elem_of_dom in Hp.
  pose proof Hp as [Hs Hh]%lookup_union_None. assert (σ ##ₘ {[ p := b ]}) as Hdp by by apply map_disjoint_singleton_r.
  exists (Ok p), (σ ∪ {[ p := b ]}). split_and!.
  - unfold new. fold p. f_equal. rw insert_union_singleton_l map_union_assoc. f_equal. by apply map_union_comm, map_disjoint_sym.
  - apply map_disjoint_union_l_2; [done|]. by apply map_disjoint_singleton_l.
  - by apply (HΦ p {[ p := b ]}).
Qed.

(** A block that is pointed to is there. *)
Lemma points_to_inv p b P σ h : holds_in (p ↦ b ∗ P)%I σ → σ ##ₘ h → ∃ σ', holds_in P σ' ∧ σ = {[ p := b ]} ∪ σ' ∧
  {[ p := b ]} ##ₘ σ' ∧ (σ' ∪ h) !! p = None ∧ σ ∪ h = <[ p := b ]> (σ' ∪ h) ∧ σ' ##ₘ h ∧ p ≠ nullptr.
Proof.
  intros (σ1 & σ' & -> & Hd & [-> Hp] & HP) [Hph Hh]%map_disjoint_union_l. exists σ'. split_and!; try done.
  - apply lookup_union_None. split; [by apply map_disjoint_singleton_l in Hd|by apply map_disjoint_singleton_l in Hph].
  - by rw insert_union_singleton_l map_union_assoc.
Qed.

Lemma wp_load p b Φ : p ↦ b ∗ (p ↦ b -∗ Φ (Ok b)) ⊢ wp (load p) Φ.
Proof.
  split. intros σ HP h Hd. destruct (points_to_inv _ _ _ _ _ HP Hd) as (σ' & HΦ & -> & Hd' & _ & E & _ & Hp).
  exists (Ok b), ({[ p := b ]} ∪ σ'). unfold load. rw {2}E lookup_insert_eq. split_and!; [done|done|].
  rw map_union_comm; [|done]. by apply HΦ; [apply map_disjoint_sym|].
Qed.

Lemma wp_store p b b' Φ : p ↦ b ∗ (p ↦ b' -∗ Φ (Ok tt)) ⊢ wp (store p b') Φ.
Proof.
  split. intros σ HP h Hd. destruct (points_to_inv _ _ _ _ _ HP Hd) as (σ' & HΦ & -> & Hd' & Hn & E & Hh & Hp).
  apply lookup_union_None in Hn as [Hn1 Hn2].
  exists (Ok tt), (σ' ∪ {[ p := b' ]}). unfold store. rw E lookup_insert_eq insert_insert_eq. split_and!.
  - f_equal. rw insert_union_singleton_l map_union_assoc. f_equal. apply map_union_comm. by apply map_disjoint_singleton_l.
  - apply map_disjoint_union_l_2; [done|]. by apply map_disjoint_singleton_l.
  - apply HΦ; [by apply map_disjoint_singleton_r|done].
Qed.

Lemma wp_free p b Φ : p ↦ b ∗ Φ (Ok b) ⊢ wp (free p) Φ.
Proof.
  split. intros σ HP h Hd. destruct (points_to_inv _ _ _ _ _ HP Hd) as (σ' & HΦ & -> & Hd' & Hn & E & Hh & Hp).
  exists (Ok b), σ'. unfold free. rw E lookup_insert_eq. split_and!; [|done|done]. by rw delete_insert_id.
Qed.

Lemma wp_delete_null Φ : Φ (Ok tt) ⊢ wp (delete_array nullptr) Φ.
Proof. apply wp_ret. Qed.

Lemma points_to_nonnull p b : p ↦ b ⊢ ⌜p ≠ nullptr⌝.
Proof. split. by intros σ [_ Hp]. Qed.

Lemma wp_delete_array p b Φ : is_array b = true → p ↦ b ∗ Φ (Ok tt) ⊢ wp (delete_array p) Φ.
Proof.
  iIntros (Hb) "[Hp HΦ]". iDestruct (points_to_nonnull with "Hp") as %Hp. unfold delete_array.
  rw (proj2 (N.eqb_neq _ _) Hp). iApply wp_bind. iApply wp_free. iFrame "Hp". rw Hb. by iApply wp_ret.
Qed.

(** A loop, with what is done so far and what is left. *)
Lemma wp_for_each {A} (l : list A) body (I : list A → heapProp) :
  (∀ done x rest, l = done ++ x :: rest → I done ⊢ wp (body x) (returns (λ _, I (done ++ [x])))) →
  I [] ⊢ wp (for_each l body) (returns (λ _, I l)).
Proof.
  assert (∀ rest done, l = done ++ rest →
    (∀ done x rest, l = done ++ x :: rest → I done ⊢ wp (body x) (returns (λ _, I (done ++ [x])))) →
    I done ⊢ wp (for_each rest body) (returns (λ _, I l))) as H; [|intros Hb; by apply (H l [])].
  induction rest as [|x rest IH]; intros d El Hb.
  - rw app_nil_r in El. subst d. exact (wp_ret tt (returns (λ _, I l))).
  - iIntros "HI". cbn [for_each]. iApply wp_bind. iApply (wp_wand with "[HI]"); [by iApply (Hb d x rest)|].
    iIntros ([[]|e| |]) "H"; try done. iApply (IH (d ++ [x])); [by rw -app_assoc|done|done].
Qed.

(** ** What a proof means *)

Lemma wp_sound {A} (m : M heap A) Φ : (⊢ wp m (returns Φ)) → ∀ h, ∃ a σ, m h = (σ ∪ h, Ok a) ∧ σ ##ₘ h ∧ holds_in (Φ a) σ.
Proof.
  intros [Hm] h. destruct (Hm ∅ eq_refl h (map_disjoint_empty_l _)) as (o & σ & E & Hd & Ho). rw map_empty_union in E.
  destruct o as [a| | |]; try done. by exists a, σ.
Qed.

(** ** Lost blocks *)

Lemma blocks_none : emp ⊣⊢ blocks 0.
Proof. apply bi.equiv_entails. split; split; intros σ; [intros ->; by apply map_size_empty|by intros H%map_size_empty_inv]. Qed.

Lemma blocks_one p b : p ↦ b ⊢ blocks 1.
Proof. split. intros σ [-> _]. apply map_size_singleton. Qed.

Lemma blocks_plus m n : blocks m ∗ blocks n ⊢ blocks (m + n).
Proof. split. intros σ (σ1 & σ2 & -> & Hd & H1 & H2). cbn in *. rw map_size_disj_union; [|done]. by subst. Qed.
End Rules.
