(* ===== verification/Memory.v ===== *)
(** What the classes allocate and free.

    Constructors, destructors and copies of the classes that own memory (Sketch,
    both disjoint set unions, ConnectedComponents, CCSketchAlg, WorkerThreadGroup
    and the driver), and what a query allocates on the way, on the memory of file
    MemLogic. Only what the source allocates with [new] counts; the standard
    library's containers own theirs. [new] does not fail. The workers of a driver
    access the guttering system, their group and the sketches from its
    construction until they are joined. [memory_session]: in any session with any
    number of drivers, queries (failing ones included) and answers nothing is
    freed twice, what the workers access is there, and at the end exactly the
    worker sketches that a second driver replaced are left. *)
From iris.proofmode Require Import proofmode.
From S2P Require Import Prelude MemLogic.

Open Scope N_scope.

(** * Classes *)

(** ** Arrays of pointers *)

Definition load_pointer (p i : N) : M heap N :=
  b ← load p; lift (match b with BPointers ps => of_option (ps !! i) | _ => Undef end).

Definition store_pointer (p i x : N) : M heap unit :=
  b ← load p;
  match b with
  | BPointers ps => if i <? N.of_nat (length ps) then store p (BPointers (<[i := x]> ps)) else lift Undef
  | _ => lift Undef
  end.

(** An array, and the loop that fills it; the loop that deletes what it points to. *)
Definition new_pointers (n : N) (make : M heap N) : M heap N :=
  p ← new (BPointers (replicate (N.to_nat n) nullptr));
  _ ← for_each (seqN 0 n) (λ i, x ← make; store_pointer p i x);
  mret p.

Definition delete_each (p n : N) (destroy : N → M heap unit) : M heap unit :=
  for_each (seqN 0 n) (λ i, x ← load_pointer p i; destroy x).

(** ** Sketches *)

(** The constructors of [Sketch] allocate the buckets, and so does its copy
    constructor; the member [buckets]. *)
Definition Sketch_construct : M heap N := new BArray.
Definition Sketch_destruct (buckets : N) : M heap unit := delete_array buckets.

(** [new Sketch(...)] and [delete s] *)
Definition new_Sketch : M heap N := buckets ← Sketch_construct; new (BSketch buckets).
Definition delete_Sketch (s : N) : M heap unit :=
  b ← load s;
  match b with BSketch buckets => _ ← Sketch_destruct buckets; _ ← free s; mret tt | _ => lift Undef end.

(** ** Disjoint set unions *)

Record dsu_memory : Type := mkDsuMemory { d_parent : N; d_priority : N }.

(** Both classes, and both copy constructors. *)
Definition DSU_construct : M heap dsu_memory :=
  parent ← new BArray; priority ← new BArray; mret (mkDsuMemory parent priority).
Definition DSU_destruct (d : dsu_memory) : M heap unit :=
  _ ← delete_array (d_parent d); delete_array (d_priority d).
Definition DSU_copy_memory (oth : dsu_memory) : M heap dsu_memory := DSU_construct.

(** The move constructor: the new object, and the old one. *)
Definition DSU_move_memory (oth : dsu_memory) : dsu_memory * dsu_memory :=
  (mkDsuMemory (d_parent oth) (d_priority oth), mkDsuMemory nullptr nullptr).

(** The defaulted [operator=] of [DisjointSetUnion_MT]. *)
Definition DSU_MT_assign (d oth : dsu_memory) : dsu_memory := oth.

(** ** [ConnectedComponents]: the member [parent_arr] *)

Definition ConnectedComponents_construct : M heap N := new BArray.
Definition ConnectedComponents_destruct (parent_arr : N) : M heap unit := delete_array parent_arr.

(** The copy constructor the compiler adds. *)
Definition ConnectedComponents_copy (parent_arr : N) : N := parent_arr.

(** ** [CCSketchAlg] *)

Record alg_memory : Type := mkAlgMemory {
  a_representatives : N;
  a_sketches : N;
  a_dsu : dsu_memory;
  a_spanning_forest : N;
  a_spanning_forest_mtx : N;
  a_delta_sketches : N;
  a_num_delta_sketches : N
}.

(** Both constructors. *)
Definition CCSketchAlg_construct (num_vertices : N) : M heap alg_memory :=
  dsu ← DSU_construct;
  representatives ← new BObject;
  sketches ← new_pointers num_vertices new_Sketch;
  spanning_forest ← new BArray;
  spanning_forest_mtx ← new BArray;
  mret (mkAlgMemory representatives sketches dsu spanning_forest spanning_forest_mtx nullptr 0).

Definition allocate_worker_memory (num_workers : N) (a : alg_memory) : M heap alg_memory :=
  delta_sketches ← new_pointers num_workers new_Sketch;
  mret (mkAlgMemory (a_representatives a) (a_sketches a) (a_dsu a) (a_spanning_forest a) (a_spanning_forest_mtx a)
    delta_sketches num_workers).

(** The destructor, and that of the member [dsu]. *)
Definition CCSketchAlg_destruct (num_vertices : N) (a : alg_memory) : M heap unit :=
  _ ← delete_each (a_sketches a) num_vertices delete_Sketch;
  _ ← delete_array (a_sketches a);
  _ ← (if a_delta_sketches a =? nullptr then mret tt
       else _ ← delete_each (a_delta_sketches a) (a_num_delta_sketches a) delete_Sketch; delete_array (a_delta_sketches a));
  _ ← free (a_representatives a);
  _ ← delete_array (a_spanning_forest a);
  _ ← delete_array (a_spanning_forest_mtx a);
  DSU_destruct (a_dsu a).

(** ** Queries *)

(** A round; [result] is the exception it throws, if any. Round zero allocates
    nothing, in the others every thread has a sketch of its own. *)
Definition perform_boruvka_round_memory (cur_round num_threads : N) (result : option exn) : M heap unit :=
  _ ← (if cur_round =? 0 then mret tt
       else for_each (seqN 0 num_threads) (λ _, local_sketch ← Sketch_construct; Sketch_destruct local_sketch));
  match result with Some e => throw e | None => mret tt end.

Fixpoint rounds_memory (cur_round num_threads : N) (results : list (option exn)) : M heap unit :=
  match results with
  | [] => mret tt
  | r :: results => _ ← perform_boruvka_round_memory cur_round num_threads r; rounds_memory (cur_round + 1) num_threads results
  end.

(** [global_merges]: room for all is reserved, so no element moves. *)
Fixpoint global_merges_construct (num_threads : nat) : M heap (list N) :=
  match num_threads with
  | O => mret []
  | S t => sketch ← Sketch_construct; sketches ← global_merges_construct t; mret (sketch :: sketches)
  end.

Definition boruvka_emulation_memory (num_threads : N) (results : list (option exn)) : M heap unit :=
  global_merges ← global_merges_construct (N.to_nat num_threads);
  finally (rounds_memory 0 num_threads results) (for_each global_merges Sketch_destruct).

(** How an answer comes about: from the cache, whose look-up may throw in builds
    with [VERIFY_SAMPLES_F], or by rounds. *)
Inductive answer_path : Type := Cached (result : option exn) | Computed (results : list (option exn)).

Definition throwing (r : option exn) : M heap unit := match r with Some e => throw e | None => mret tt end.

Definition ensure_answer_memory (num_threads : N) (path : answer_path) : M heap unit :=
  match path with Cached r => throwing r | Computed results => boruvka_emulation_memory num_threads results end.

(** [check]: what the final check throws, in those builds. The object is returned
    in place. *)
Definition connected_components_memory (num_threads : N) path (check : option exn) : M heap N :=
  _ ← ensure_answer_memory num_threads path;
  cc ← ConnectedComponents_construct;
  match check with Some e => _ ← ConnectedComponents_destruct cc; throw e | None => mret cc end.

(** [verify]: the build with [VERIFY_SAMPLES_F]. *)
Definition point_query_memory (verify : bool) (num_threads : N) path (check : option exn) : M heap unit :=
  _ ← ensure_answer_memory num_threads path;
  if verify then cc ← ConnectedComponents_construct; finally (throwing check) (ConnectedComponents_destruct cc) else mret tt.

(** The components it computes first are dropped. *)
Definition calc_spanning_forest_memory (num_threads : N) path (check forest_check : option exn) : M heap unit :=
  cc ← connected_components_memory num_threads path check;
  _ ← ConnectedComponents_destruct cc;
  throwing forest_check.

(** ** Workers and driver *)

Definition WorkerThreadGroup_construct (num_workers gts : N) : M heap N :=
  workers ← new_pointers num_workers (new (BWorker gts));
  new (BGroup workers num_workers gts).

(** Reading or writing what is at [p]; of a sketch, its buckets. *)
Definition touch (p : N) : M heap unit := _ ← load p; mret tt.

Definition touch_Sketch (s : N) : M heap unit :=
  b ← load s; match b with BSketch buckets => touch buckets | _ => lift Undef end.

Definition touch_element (sketches i : N) : M heap unit := s ← load_pointer sketches i; touch_Sketch s.

(** What a worker does from time to time: [get_data] and its callback; the mutex
    and the condition variable; a batch for a vertex. *)
Inductive worker_use : Type := UseGutters | UsePause | UseBatch (src_vertex : N).

(** Thread [use.1] of group [g]. It accesses its own members in any case. *)
Definition worker_access (a : alg_memory) (g : N) (use : N * worker_use) : M heap unit :=
  b ← load g;
  match b with
  | BGroup workers num_workers _ =>
      if use.1 <? num_workers then
        w ← load_pointer workers use.1; this ← load w;
        match this, use.2 with
        | BWorker gts, UseGutters => touch gts
        | BWorker _, UsePause => touch g
        | BWorker _, UseBatch src_vertex =>
            _ ← touch_element (a_delta_sketches a) use.1; touch_element (a_sketches a) src_vertex
        | _, _ => lift Undef
        end
      else mret tt
  | _ => lift Undef
  end.

(** The threads from [first] on run; the others have been joined. *)
Definition workers_run (a : alg_memory) (g first : N) (uses : list (N * worker_use)) : M heap unit :=
  for_each (filter (λ use, first ≤ use.1) uses) (worker_access a g).

(** [uses]: what the workers do before the first, the second ... is joined and
    deleted. *)
Definition delete_WorkerThreadGroup (a : alg_memory) (uses : list (list (N * worker_use))) (g : N) : M heap unit :=
  b ← load g;
  match b with
  | BGroup workers num_workers gts =>
      _ ← touch gts;
      _ ← for_each (seqN 0 num_workers) (λ i, w ← load_pointer workers i; touch w);
      _ ← for_each (seqN 0 num_workers) (λ i,
            _ ← workers_run a g i (default [] (uses !! i)); w ← load_pointer workers i; _ ← free w; mret tt);
      _ ← delete_array workers;
      _ ← free g; mret tt
  | _ => lift Undef
  end.

Record driver_memory : Type := mkDriverMemory { dr_gts : N; dr_worker_threads : N; dr_verifier : option N }.

(** The algorithm and the driver. *)
Definition GraphSketchDriver_construct (verify : bool) (num_workers : N) (a : alg_memory) : M heap (alg_memory * driver_memory) :=
  a ← allocate_worker_memory num_workers a;
  gts ← new BObject;
  worker_threads ← WorkerThreadGroup_construct num_workers gts;
  verifier ← (if verify then v ← new BObject; mret (Some v) else mret None);
  mret (a, mkDriverMemory gts worker_threads verifier).

Definition GraphSketchDriver_destruct (a : alg_memory) (uses : list (list (N * worker_use))) (d : driver_memory) : M heap unit :=
  _ ← delete_WorkerThreadGroup a uses (dr_worker_threads d);
  _ ← free (dr_gts d);
  match dr_verifier d with Some v => _ ← free v; mret tt | None => mret tt end.

(** * Sessions *)

(** What a program does with an algorithm: drivers come and go, their workers run,
    queries are made, and answers are dropped. *)
Inductive memory_call : Type :=
| MemDriver (num_workers : N)
| MemWork (i : nat) (uses : list (N * worker_use))
| MemDropDriver (i : nat) (uses : list (list (N * worker_use)))
| MemConnected (num_threads : N) (path : answer_path) (check : option exn)
| MemForest (num_threads : N) (path : answer_path) (check forest_check : option exn)
| MemPoint (num_threads : N) (path : answer_path) (check : option exn)
| MemDropAnswer (i : nat).

Record memory_state : Type := mkMemory { ms_alg : alg_memory; ms_drivers : list driver_memory; ms_answers : list N }.

(** The caller catches what a query throws. *)
Definition try_call {A} (m : M heap A) (f : A → memory_state) (s : memory_state) : M heap memory_state := λ h,
  match m h with
  | (h, Ok a) => (h, Ok (f a))
  | (h, Throw _) => (h, Ok s)
  | (h, Abort) => (h, Abort)
  | (h, Undef) => (h, Undef)
  end.

Definition run_memory_call (verify : bool) (c : memory_call) (s : memory_state) : M heap memory_state :=
  match c with
  | MemDriver k =>
      '(a, d) ← GraphSketchDriver_construct verify k (ms_alg s); mret (mkMemory a (d :: ms_drivers s) (ms_answers s))
  | MemWork i uses =>
      match ms_drivers s !! i with
      | Some d => _ ← workers_run (ms_alg s) (dr_worker_threads d) 0 uses; mret s
      | None => mret s
      end
  | MemDropDriver i uses =>
      match ms_drivers s !! i with
      | Some d => _ ← GraphSketchDriver_destruct (ms_alg s) uses d; mret (mkMemory (ms_alg s) (base.delete i (ms_drivers s)) (ms_answers s))
      | None => mret s
      end
  | MemConnected t p check => try_call (connected_components_memory t p check) (λ cc, mkMemory (ms_alg s) (ms_drivers s) (cc :: ms_answers s)) s
  | MemForest t p check check' => try_call (calc_spanning_forest_memory t p check check') (λ _, s) s
  | MemPoint t p check => try_call (point_query_memory verify t p check) (λ _, s) s
  | MemDropAnswer i =>
      match ms_answers s !! i with
      | Some cc => _ ← ConnectedComponents_destruct cc; mret (mkMemory (ms_alg s) (ms_drivers s) (base.delete i (ms_answers s)))
      | None => mret s
      end
  end.

Fixpoint run_memory_calls (verify : bool) (cs : list memory_call) (s : memory_state) : M heap memory_state :=
  match cs with [] => mret s | c :: cs => s ← run_memory_call verify c s; run_memory_calls verify cs s end.

(** From the construction of the algorithm to the end of everything. [last]: what
    the workers of the drivers that are left do while these are destroyed. *)
Definition memory_program (verify : bool) (num_vertices : N) (cs : list memory_call) (last : list (list (list (N * worker_use)))) : M heap unit :=
  a ← CCSketchAlg_construct num_vertices;
  s ← run_memory_calls verify cs (mkMemory a [] []);
  _ ← for_each (ms_answers s) ConnectedComponents_destruct;
  _ ← for_each (imap (λ i d, (default [] (last !! i), d)) (ms_drivers s)) (λ '(uses, d), GraphSketchDriver_destruct (ms_alg s) uses d);
  CCSketchAlg_destruct num_vertices (ms_alg s).

(** The workers of the last driver. *)
Definition workers_after (c : memory_call) (current : option N) : option N :=
  match c with MemDriver k => Some k | _ => current end.

(** A batch is for a vertex, and for a thread that the last driver has as well. *)
Definition use_ok (n : N) (current : option N) (use : N * worker_use) : bool :=
  match use.2, current with
  | UseBatch src_vertex, Some k => (src_vertex <? n) && (use.1 <? k)
  | UseBatch _, None => false
  | _, _ => true
  end.

Fixpoint uses_ok (n : N) (current : option N) (cs : list memory_call) (last : list (list (list (N * worker_use)))) : bool :=
  match cs with
  | [] => forallb (forallb (forallb (use_ok n current))) last
  | c :: cs =>
      match c with
      | MemWork _ uses => forallb (use_ok n current) uses
      | MemDropDriver _ uses => forallb (forallb (use_ok n current)) uses
      | _ => true
      end && uses_ok n (workers_after c current) cs last
  end.

(** The blocks lost: those of the worker sketches that are replaced. *)
Fixpoint leaked (current : option N) (cs : list memory_call) : nat :=
  match cs with
  | [] => 0
  | MemDriver k :: cs => (match current with Some j => 1 + 2 * N.to_nat j | None => 0 end + leaked (Some k) cs)%nat
  | _ :: cs => leaked current cs
  end.

(** * What each class owns *)

Definition own_sketch (s : N) : heapProp := ∃ buckets, s ↦ BSketch buckets ∗ buckets ↦ BArray.

Definition own_pointers (p n : N) (own : N → heapProp) : heapProp :=
  ∃ ps, <affine> ⌜length ps = N.to_nat n⌝ ∗ p ↦ BPointers ps ∗ [∗ list] x ∈ ps, own x.

Definition own_dsu (d : dsu_memory) : heapProp := d_parent d ↦ BArray ∗ d_priority d ↦ BArray.

Definition own_delta (current : option N) (p k : N) : heapProp :=
  match current with
  | Some j => <affine> ⌜j = k ∧ p ≠ nullptr⌝ ∗ own_pointers p k own_sketch
  | None => <affine> ⌜p = nullptr⌝
  end.

Definition own_alg (n : N) (current : option N) (a : alg_memory) : heapProp :=
  own_dsu (a_dsu a) ∗ a_representatives a ↦ BObject ∗ own_pointers (a_sketches a) n own_sketch ∗
  a_spanning_forest a ↦ BArray ∗ a_spanning_forest_mtx a ↦ BArray ∗
  own_delta current (a_delta_sketches a) (a_num_delta_sketches a).

Definition own_worker (gts p : N) : heapProp := p ↦ BWorker gts.
Definition own_array (p : N) : heapProp := p ↦ BArray.

Definition own_driver (d : driver_memory) : heapProp :=
  dr_gts d ↦ BObject ∗
  (∃ workers k, dr_worker_threads d ↦ BGroup workers k (dr_gts d) ∗ own_pointers workers k (own_worker (dr_gts d))) ∗
  match dr_verifier d with Some v => v ↦ BObject | None => emp end.

Section Specs.
Implicit Types (p n k : N).

(** ** Arrays of pointers *)

Lemma insert_next (ps : list N) (n : nat) (i x : N) : N.to_nat i = length ps → (length ps < n)%nat →
  <[i := x]> (ps ++ replicate (n - length ps) nullptr) = (ps ++ [x]) ++ replicate (n - length (ps ++ [x])) nullptr.
Proof.
  intros Hi Hn. unfold insert, list_insertN. rw Hi -{1}(Nat.add_0_r (length ps)) insert_app_r.
  rw length_app. cbn [length]. replace (n - length ps)%nat with (S (n - (length ps + 1)))%nat by lia. cbn. by rw -app_assoc.
Qed.

Lemma wp_new_pointers n make (own : N → heapProp) Φ :
  (∀ Ψ, (∀ x, own x -∗ Ψ (Ok x)) ⊢ wp make Ψ) →
  (∀ p, <affine> ⌜p ≠ nullptr⌝ ∗ own_pointers p n own -∗ Φ (Ok p)) ⊢ wp (new_pointers n make) Φ.
Proof.
  iIntros (Hmake) "HΦ". unfold new_pointers. iApply wp_bind. iApply wp_new. iIntros (p) "Hp".
  iDestruct (points_to_nonnull with "Hp") as %Hnull. iApply wp_bind.
  set (I := λ done : list N, (∃ ps, <affine> ⌜length ps = length done⌝ ∗
    p ↦ BPointers (ps ++ replicate (N.to_nat n - length ps) nullptr) ∗ [∗ list] x ∈ ps, own x)%I).
  iApply (wp_wand with "[Hp]").
  - iApply (wp_for_each (seqN 0 n) _ I); [|iExists []; cbn; rw Nat.sub_0_r; by iFrame].
    iIntros (done i rest E) "(%ps & %Hlen & Hp & Hps)". apply seqN_split in E as [Hlt ->]. rw -Hlen in Hlt *.
    iApply wp_bind. iApply Hmake. iIntros (x) "Hx". unfold store_pointer. iApply wp_bind. iApply wp_load. iFrame "Hp". iIntros "Hp".
    rw (proj2 (N.ltb_lt _ _)); [|rw length_app length_replicate; lia].
    rw insert_next; [|lia|lia]. iApply wp_store. iFrame "Hp". iIntros "Hp". iExists (ps ++ [x]). iFrame "Hp".
    rw big_sepL_snoc. iFrame. iPureIntro. rw !length_app. cbn. lia.
  - iIntros ([[]|e| |]) "H"; try done. iDestruct "H" as "(%ps & %Hlen & Hp & Hps)". rw length_seqN in Hlen.
    rw Hlen Nat.sub_diag app_nil_r. iApply (wp_ret p). iApply "HΦ". iSplitR; [done|]. iExists ps. by iFrame.
Qed.

Lemma wp_load_pointer p ps i x Φ : ps !! i = Some x → p ↦ BPointers ps ∗ (p ↦ BPointers ps -∗ Φ (Ok x)) ⊢ wp (load_pointer p i) Φ.
Proof. iIntros (Hi) "[Hp HΦ]". iApply wp_bind. iApply wp_load. iFrame "Hp". iIntros "Hp". rw Hi. iApply (wp_ret x). by iApply "HΦ". Qed.

(** A loop that deletes element after element; [F] is needed by the way. *)
Lemma wp_delete_each_with p n (own : N → heapProp) (F : heapProp) body ps Φ : length ps = N.to_nat n →
  (∀ i x, ps !! i = Some x →
    F ∗ p ↦ BPointers ps ∗ ([∗ list] y ∈ drop (N.to_nat i) ps, own y) ⊢
    wp (body i) (returns (λ _, F ∗ p ↦ BPointers ps ∗ [∗ list] y ∈ drop (S (N.to_nat i)) ps, own y))) →
  F ∗ p ↦ BPointers ps ∗ ([∗ list] x ∈ ps, own x) ∗ (F -∗ p ↦ BPointers ps -∗ Φ (Ok tt)) ⊢ wp (for_each (seqN 0 n) body) Φ.
Proof.
  iIntros (Hlen Hbody) "(HF & Hp & Hps & HΦ)".
  set (I := λ done : list N, (F ∗ p ↦ BPointers ps ∗ [∗ list] x ∈ drop (length done) ps, own x)%I).
  iApply (wp_wand with "[HF Hp Hps]").
  - iApply (wp_for_each (seqN 0 n) _ I); [|iFrame]. iIntros (done i rest E) "H". apply seqN_split in E as [Hlt ->].
    destruct (lookup_lt_is_Some_2 ps (length done)) as [x Hx]; [lia|]. rw N.add_0_l. unfold I. rw length_app Nat.add_1_r.
    specialize (Hbody (N.of_nat (length done)) x). rw lookupN_eq Nat2N.id in Hbody. by iApply Hbody.
  - iIntros ([[]|e| |]) "H"; try done. iDestruct "H" as "(HF & Hp & Hps)". rw drop_ge; [|rw length_seqN; lia]. cbn. iApply ("HΦ" with "HF Hp").
Qed.

Lemma wp_delete_each p n (own : N → heapProp) destroy ps Φ : length ps = N.to_nat n →
  (∀ x Ψ, own x ∗ Ψ (Ok tt) ⊢ wp (destroy x) Ψ) →
  p ↦ BPointers ps ∗ ([∗ list] x ∈ ps, own x) ∗ (p ↦ BPointers ps -∗ Φ (Ok tt)) ⊢ wp (delete_each p n destroy) Φ.
Proof.
  iIntros (Hlen Hdestroy) "(Hp & Hps & HΦ)". iApply (wp_delete_each_with p n own emp _ ps); [done| |iFrame; by iIntros "_"].
  iIntros (i x Hx) "(_ & Hp & Hps)". rw lookupN_eq in Hx. rw (drop_S _ _ _ Hx). iDestruct "Hps" as "[Hx Hps]".
  iApply wp_bind. iApply (wp_load_pointer _ ps i x); [by rw lookupN_eq|]. iFrame "Hp". iIntros "Hp". iApply Hdestroy. iFrame.
Qed.

Lemma wp_delete_pointers p n (own : N → heapProp) destroy Φ : (∀ x Ψ, own x ∗ Ψ (Ok tt) ⊢ wp (destroy x) Ψ) →
  own_pointers p n own ∗ Φ (Ok tt) ⊢ wp (_ ← delete_each p n destroy; delete_array p) Φ.
Proof.
  iIntros (Hdestroy) "[(%ps & %Hlen & Hp & Hps) HΦ]". iApply wp_bind. iApply (wp_delete_each p n own); [done|done|].
  iFrame "Hp Hps". iIntros "Hp". iApply (wp_delete_array _ (BPointers ps)); [done|]. iFrame.
Qed.

(** ** Objects *)

Lemma wp_new_Sketch Φ : (∀ s, own_sketch s -∗ Φ (Ok s)) ⊢ wp new_Sketch Φ.
Proof.
  iIntros "HΦ". iApply wp_bind. iApply wp_new. iIntros (bk) "Hb". iApply wp_new. iIntros (s) "Hs". iApply "HΦ". iExists bk. iFrame.
Qed.

Lemma wp_delete_Sketch s Φ : own_sketch s ∗ Φ (Ok tt) ⊢ wp (delete_Sketch s) Φ.
Proof.
  iIntros "[(%bk & Hs & Hb) HΦ]". iApply wp_bind. iApply wp_load. iFrame "Hs". iIntros "Hs". iApply wp_bind.
  iApply (wp_delete_array _ BArray); [done|]. iFrame "Hb". iApply wp_bind. iApply wp_free. iFrame "Hs". by iApply (wp_ret tt).
Qed.

Lemma wp_DSU_construct Φ : (∀ d, own_dsu d -∗ Φ (Ok d)) ⊢ wp DSU_construct Φ.
Proof.
  iIntros "HΦ". iApply wp_bind. iApply wp_new. iIntros (x) "Hx". iApply wp_bind. iApply wp_new. iIntros (y) "Hy".
  iApply (wp_ret (mkDsuMemory x y)). iApply "HΦ". iFrame.
Qed.

Lemma wp_DSU_destruct d Φ : own_dsu d ∗ Φ (Ok tt) ⊢ wp (DSU_destruct d) Φ.
Proof.
  iIntros "[[Hx Hy] HΦ]". iApply wp_bind. iApply (wp_delete_array _ BArray); [done|]. iFrame "Hx". iApply (wp_delete_array _ BArray); [done|]. iFrame.
Qed.

Lemma wp_CCSketchAlg_construct n Φ : (∀ a, own_alg n None a -∗ Φ (Ok a)) ⊢ wp (CCSketchAlg_construct n) Φ.
Proof.
  iIntros "HΦ". iApply wp_bind. iApply wp_DSU_construct. iIntros (d) "Hd". iApply wp_bind. iApply wp_new. iIntros (r) "Hr".
  iApply wp_bind. iApply (wp_new_pointers n _ own_sketch); [apply wp_new_Sketch|]. iIntros (s) "[_ Hs]".
  iApply wp_bind. iApply wp_new. iIntros (f) "Hf". iApply wp_bind. iApply wp_new. iIntros (m) "Hm".
  iApply (wp_ret (mkAlgMemory r s d f m nullptr 0)). iApply "HΦ". unfold own_alg. cbn. by iFrame.
Qed.

Lemma wp_CCSketchAlg_destruct n current a Φ : own_alg n current a ∗ Φ (Ok tt) ⊢ wp (CCSketchAlg_destruct n a) Φ.
Proof.
  iIntros "[(Hd & Hr & Hs & Hf & Hm & Hdelta) HΦ]". iDestruct "Hs" as (ps) "(%Hlen & Hs & Hps)".
  iApply wp_bind. iApply (wp_delete_each _ n own_sketch); [done|apply wp_delete_Sketch|]. iFrame "Hs Hps". iIntros "Hs".
  iApply wp_bind. iApply (wp_delete_array _ (BPointers ps)); [done|]. iFrame "Hs". iApply wp_bind.
  iAssert (∀ Ψ, Ψ (Ok tt) -∗ wp (if a_delta_sketches a =? nullptr then mret tt
    else _ ← delete_each (a_delta_sketches a) (a_num_delta_sketches a) delete_Sketch; delete_array (a_delta_sketches a)) Ψ)%I
    with "[Hdelta]" as "Hdelta".
  { iIntros (Ψ) "HΨ". destruct current as [j|]; cbn [own_delta].
    - iDestruct "Hdelta" as "[%Hj Hp]". destruct Hj as [_ Hnull]. rw (proj2 (N.eqb_neq _ _) Hnull).
      iApply (wp_delete_pointers _ _ own_sketch); [apply wp_delete_Sketch|]. iFrame.
    - iDestruct "Hdelta" as %->. by iApply (wp_ret tt). }
  iApply "Hdelta". iApply wp_bind. iApply wp_free. iFrame "Hr".
  iApply wp_bind. iApply (wp_delete_array _ BArray); [done|]. iFrame "Hf". iApply wp_bind. iApply (wp_delete_array _ BArray); [done|]. iFrame "Hm".
  iApply wp_DSU_destruct. iFrame.
Qed.

(** The sketches that a second allocation replaces. *)
Lemma own_sketches_blocks ps : ([∗ list] s ∈ ps, own_sketch s) ⊢ blocks (2 * length ps).
Proof.
  induction ps as [|s ps IH]; [rw big_sepL_nil blocks_none; reflexivity|]. rw big_sepL_cons IH. iIntros "[(%bk & Hs & Hb) H]".
  rw !blocks_one. replace (2 * length (s :: ps))%nat with (1 + (1 + 2 * length ps))%nat by (cbn; lia).
  iApply blocks_plus. iFrame "Hs". iApply blocks_plus. iFrame.
Qed.

Lemma own_delta_blocks j p k : own_delta (Some j) p k ⊢ blocks (1 + 2 * N.to_nat j).
Proof.
  iIntros "[%Hj (%ps & %Hlen & Hp & Hps)]". destruct Hj as [-> _]. rw -Hlen. iApply blocks_plus. rw own_sketches_blocks blocks_one. iFrame.
Qed.

(** ** Scopes and loops *)

Lemma wp_destroy_all {A} (own : A → heapProp) destroy (l : list A) Φ : (∀ x Ψ, own x ∗ Ψ (Ok tt) ⊢ wp (destroy x) Ψ) →
  ([∗ list] x ∈ l, own x) ∗ Φ (Ok tt) ⊢ wp (for_each l destroy) Φ.
Proof.
  intros Hd. induction l as [|x l IH]; iIntros "[Hl HΦ]"; cbn [for_each]; [by iApply (wp_ret tt)|].
  iDestruct "Hl" as "[Hx Hl]". iApply wp_bind. iApply Hd. iFrame "Hx". iApply IH. iFrame.
Qed.

Lemma wp_try_call {A} (m : M heap A) f s Φ :
  wp m (λ o, match o with Ok a => Φ (Ok (f a)) | Throw _ => Φ (Ok s) | _ => False end) ⊢ wp (try_call m f s) Φ.
Proof.
  split. intros σ Hm h Hd. destruct (Hm h Hd) as (o & σ1 & E & Hd1 & Ho). unfold try_call. rw E.
  destruct o as [a|e| |]; [by exists (Ok (f a)), σ1|by exists (Ok s), σ1|done|done].
Qed.

(** ** Queries: nothing is left behind, whether they answer or throw *)

Definition either (Φ : outcome unit → heapProp) : heapProp := Φ (Ok tt) ∧ ∀ e, Φ (Throw e).

Lemma wp_round cur t r Φ : either Φ ⊢ wp (perform_boruvka_round_memory cur t r) Φ.
Proof.
  iIntros "HΦ". iApply wp_bind. iAssert (∀ Ψ, Ψ (Ok tt) -∗ wp (if cur =? 0 then mret tt
    else for_each (seqN 0 t) (λ _, local_sketch ← Sketch_construct; Sketch_destruct local_sketch)) Ψ)%I as "Hloop".
  { iIntros (Ψ) "HΨ". destruct (cur =? 0); [by iApply (wp_ret tt)|].
    iApply (wp_destroy_all (λ _, emp)%I); [|iFrame; by iApply big_sepL_emp].
    iIntros (x Ψ') "[_ HΨ]". iApply wp_bind. iApply wp_new. iIntros (p) "Hp". iApply (wp_delete_array _ BArray); [done|]. iFrame. }
  iApply "Hloop". destruct r as [e|]; [iApply wp_throw; by iDestruct "HΦ" as "[_ HΦ]"|iApply (wp_ret tt); by iDestruct "HΦ" as "[HΦ _]"].
Qed.

Lemma wp_rounds cur t rs Φ : either Φ ⊢ wp (rounds_memory cur t rs) Φ.
Proof.
  revert cur. induction rs as [|r rs IH]; intros cur; cbn [rounds_memory]; [iIntros "[HΦ _]"; by iApply (wp_ret tt)|].
  iIntros "HΦ". iApply wp_bind. iApply wp_round. iSplit; [by iApply IH|]. iIntros (e). by iDestruct "HΦ" as "[_ HΦ]".
Qed.

Lemma wp_globals t Φ : (∀ l, ([∗ list] x ∈ l, own_array x) -∗ Φ (Ok l)) ⊢ wp (global_merges_construct t) Φ.
Proof.
  revert Φ. induction t as [|t IH]; intros Φ; iIntros "HΦ"; cbn [global_merges_construct]; [iApply (wp_ret []); by iApply "HΦ"|].
  iApply wp_bind. iApply wp_new. iIntros (p) "Hp". iApply wp_bind. iApply IH. iIntros (l) "Hl". iApply (wp_ret (p :: l)). iApply "HΦ". iFrame.
Qed.

Lemma wp_array_destroy x Ψ : own_array x ∗ Ψ (Ok tt) ⊢ wp (delete_array x) Ψ.
Proof. by apply wp_delete_array. Qed.

Lemma wp_throwing r Φ : either Φ ⊢ wp (throwing r) Φ.
Proof.
  iIntros "HΦ". destruct r as [e|]; [iApply wp_throw; by iDestruct "HΦ" as "[_ HΦ]"|iApply (wp_ret tt); by iDestruct "HΦ" as "[HΦ _]"].
Qed.

Lemma wp_ensure_answer t path Φ : either Φ ⊢ wp (ensure_answer_memory t path) Φ.
Proof.
  iIntros "HΦ". destruct path as [r|rs]; cbn [ensure_answer_memory]; [by iApply wp_throwing|].
  iApply wp_bind. iApply wp_globals. iIntros (l) "Hl". iApply wp_finally. iApply wp_rounds.
  iSplit; [|iIntros (e)]; (iApply (wp_destroy_all own_array); [apply wp_array_destroy|]; iFrame "Hl");
    [by iDestruct "HΦ" as "[HΦ _]"|by iDestruct "HΦ" as "[_ HΦ]"].
Qed.

Lemma wp_connected_components t path check Φ :
  (∀ cc, own_array cc -∗ Φ (Ok cc)) ∧ (∀ e, Φ (Throw e)) ⊢ wp (connected_components_memory t path check) Φ.
Proof.
  iIntros "HΦ". iApply wp_bind. iApply wp_ensure_answer. iSplit; [|by iDestruct "HΦ" as "[_ HΦ]"].
  iApply wp_bind. iApply wp_new. iIntros (p) "Hp". destruct check as [e|]; [|iApply (wp_ret p); by iApply "HΦ"].
  iApply wp_bind. iApply wp_array_destroy. iFrame "Hp". iApply wp_throw. by iDestruct "HΦ" as "[_ HΦ]".
Qed.

Lemma wp_spanning_forest t path check check' Φ : either Φ ⊢ wp (calc_spanning_forest_memory t path check check') Φ.
Proof.
  iIntros "HΦ". iApply wp_bind. iApply wp_connected_components. iSplit; [|by iDestruct "HΦ" as "[_ HΦ]"].
  iIntros (cc) "Hcc". iApply wp_bind. iApply wp_array_destroy. iFrame "Hcc". by iApply wp_throwing.
Qed.

Lemma wp_point_query verify t path check Φ : either Φ ⊢ wp (point_query_memory verify t path check) Φ.
Proof.
  iIntros "HΦ". iApply wp_bind. iApply wp_ensure_answer. iSplit; [|by iDestruct "HΦ" as "[_ HΦ]"].
  destruct verify; [|iApply (wp_ret tt); by iDestruct "HΦ" as "[HΦ _]"].
  iApply wp_bind. iApply wp_new. iIntros (cc) "Hcc". iApply wp_finally. iApply wp_throwing.
  iSplit; [|iIntros (e)]; (iApply wp_array_destroy; iFrame "Hcc"); [by iDestruct "HΦ" as "[HΦ _]"|by iDestruct "HΦ" as "[_ HΦ]"].
Qed.

(** ** Drivers *)

Lemma wp_touch p b Φ : p ↦ b ∗ (p ↦ b -∗ Φ (Ok tt)) ⊢ wp (touch p) Φ.
Proof. iIntros "[Hp HΦ]". iApply wp_bind. iApply wp_load. iFrame "Hp". iIntros "Hp". iApply (wp_ret tt). by iApply "HΦ". Qed.

Lemma wp_touch_element p n i Φ : i < n → own_pointers p n own_sketch ∗ (own_pointers p n own_sketch -∗ Φ (Ok tt)) ⊢ wp (touch_element p i) Φ.
Proof.
  iIntros (Hi) "[(%ps & %Hlen & Hp & Hps) HΦ]". destruct (lookupN_lt_is_Some ps i) as [s Hs]; [lia|].
  iApply wp_bind. iApply (wp_load_pointer _ ps i s); [done|]. iFrame "Hp". iIntros "Hp". rw lookupN_eq in Hs.
  iDestruct (big_sepL_lookup_acc _ _ _ _ Hs with "Hps") as "[(%bk & Hs & Hb) Hps]".
  iApply wp_bind. iApply wp_load. iFrame "Hs". iIntros "Hs". iApply wp_touch. iFrame "Hb". iIntros "Hb".
  iApply "HΦ". iExists ps. iSplitR; [done|]. iFrame "Hp". iApply "Hps". iExists bk. iFrame.
Qed.

(** What the workers from [first] on may access. *)
Definition shared (n : N) (current : option N) (a : alg_memory) (g workers k gts : N) : heapProp :=
  own_alg n current a ∗ g ↦ BGroup workers k gts ∗ gts ↦ BObject.

Lemma wp_worker_access n current a g workers k gts ps first use Φ :
  length ps = N.to_nat k → first ≤ use.1 → use_ok n current use = true →
  shared n current a g workers k gts ∗ workers ↦ BPointers ps ∗ ([∗ list] w ∈ drop (N.to_nat first) ps, own_worker gts w) ∗
  (shared n current a g workers k gts -∗ workers ↦ BPointers ps -∗ ([∗ list] w ∈ drop (N.to_nat first) ps, own_worker gts w) -∗ Φ (Ok tt)) ⊢
  wp (worker_access a g use) Φ.
Proof.
  iIntros (Hlen Hfirst Hok) "((Ha & Hg & Hgts) & Hp & Hps & HΦ)". iApply wp_bind. iApply wp_load. iFrame "Hg". iIntros "Hg".
  destruct (N.ltb_spec use.1 k) as [Hlt|Hge]; [|iApply (wp_ret tt); iApply ("HΦ" with "[Ha Hg Hgts] Hp Hps"); iFrame].
  destruct (lookupN_lt_is_Some ps use.1) as [w Hw]; [lia|].
  iApply wp_bind. iApply (wp_load_pointer _ ps use.1 w); [done|]. iFrame "Hp". iIntros "Hp".
  assert (drop (N.to_nat first) ps !! (N.to_nat use.1 - N.to_nat first)%nat = Some w) as Hd.
  { rw lookup_drop -Hw lookupN_eq. f_equal. lia. }
  iDestruct (big_sepL_lookup_acc _ _ _ _ Hd with "Hps") as "[Hw Hps]".
  iApply wp_bind. iApply wp_load. iFrame "Hw". iIntros "Hw". iDestruct ("Hps" with "Hw") as "Hps".
  unfold use_ok in Hok. destruct (use.2) as [| |v].
  - iApply wp_touch. iFrame "Hgts". iIntros "Hgts". iApply ("HΦ" with "[Ha Hg Hgts] Hp Hps"). iFrame.
  - iApply wp_touch. iFrame "Hg". iIntros "Hg". iApply ("HΦ" with "[Ha Hg Hgts] Hp Hps"). iFrame.
  - destruct current as [j|]; [|done]. apply andb_prop in Hok as [Hv%N.ltb_lt Hthr%N.ltb_lt].
    iDestruct "Ha" as "(H1 & H2 & Hs & H3 & H4 & [%Hj Hdelta])". destruct Hj as [-> Hnull].
    iApply wp_bind. iApply wp_touch_element; [exact Hthr|]. iFrame "Hdelta". iIntros "Hdelta".
    iApply wp_touch_element; [exact Hv|]. iFrame "Hs". iIntros "Hs". iApply ("HΦ" with "[-Hp Hps] Hp Hps"). unfold shared, own_alg. iFrame. done.
Qed.

Lemma wp_workers_run n current a g workers k gts ps first uses Φ :
  length ps = N.to_nat k → forallb (use_ok n current) uses = true →
  shared n current a g workers k gts ∗ workers ↦ BPointers ps ∗ ([∗ list] w ∈ drop (N.to_nat first) ps, own_worker gts w) ∗
  (shared n current a g workers k gts -∗ workers ↦ BPointers ps -∗ ([∗ list] w ∈ drop (N.to_nat first) ps, own_worker gts w) -∗ Φ (Ok tt)) ⊢
  wp (workers_run a g first uses) Φ.
Proof.
  intros Hlen. unfold workers_run. induction uses as [|use uses IH]; intros Hok.
  - iIntros "(H1 & H2 & H3 & HΦ)". iApply (wp_ret tt). iApply ("HΦ" with "H1 H2 H3").
  - cbn [forallb] in Hok. apply andb_prop in Hok as [Huse Hok]. rw filter_cons. case_decide as Hf; [|by apply IH].
    cbn [for_each]. iIntros "(H1 & H2 & H3 & HΦ)". iApply wp_bind. iApply (wp_worker_access n current a g workers k gts ps first); [done..|].
    iFrame "H1 H2 H3". iIntros "H1 H2 H3". iApply IH; [done|]. iFrame.
Qed.

Lemma wp_stops workers k gts ps Φ : length ps = N.to_nat k →
  workers ↦ BPointers ps ∗ ([∗ list] w ∈ ps, own_worker gts w) ∗ (workers ↦ BPointers ps -∗ ([∗ list] w ∈ ps, own_worker gts w) -∗ Φ (Ok tt)) ⊢
  wp (for_each (seqN 0 k) (λ i, w ← load_pointer workers i; touch w)) Φ.
Proof.
  iIntros (Hlen) "(Hp & Hps & HΦ)". set (I := λ done : list N, (workers ↦ BPointers ps ∗ [∗ list] w ∈ ps, own_worker gts w)%I).
  iApply (wp_wand with "[Hp Hps]").
  - iApply (wp_for_each (seqN 0 k) _ I); [|iFrame]. iIntros (done i rest E) "[Hp Hps]". apply seqN_split in E as [Hlt ->]. rw N.add_0_l.
    destruct (lookup_lt_is_Some_2 ps (length done)) as [x Hx]; [lia|].
    iApply wp_bind. iApply (wp_load_pointer _ ps _ x); [by rw lookupN_eq Nat2N.id|]. iFrame "Hp". iIntros "Hp".
    iDestruct (big_sepL_lookup_acc _ _ _ _ Hx with "Hps") as "[Hx Hps]". iApply wp_touch. iFrame "Hx". iIntros "Hx". iFrame "Hp". by iApply "Hps".
  - iIntros ([[]|e| |]) "H"; try done. iDestruct "H" as "[Hp Hps]". iApply ("HΦ" with "Hp Hps").
Qed.

Lemma wp_delete_group n current a uses g gts Φ : forallb (forallb (use_ok n current)) uses = true →
  own_alg n current a ∗ gts ↦ BObject ∗ (∃ workers k, g ↦ BGroup workers k gts ∗ own_pointers workers k (own_worker gts)) ∗
  (own_alg n current a -∗ gts ↦ BObject -∗ Φ (Ok tt)) ⊢
  wp (delete_WorkerThreadGroup a uses g) Φ.
Proof.
  iIntros (Hok) "(Ha & Hgts & (%ws & %k & Hg & (%ps & %Hlen & Hp & Hps)) & HΦ)". iApply wp_bind. iApply wp_load. iFrame "Hg". iIntros "Hg".
  iApply wp_bind. iApply wp_touch. iFrame "Hgts". iIntros "Hgts".
  iApply wp_bind. iApply (wp_stops ws k gts ps); [done|]. iFrame "Hp Hps". iIntros "Hp Hps".
  iApply wp_bind. iApply (wp_delete_each_with ws k (own_worker gts) (shared n current a g ws k gts) _ ps); [done| |].
  { iIntros (i x Hx) "(Hs & Hp & Hps)". iApply wp_bind. iApply (wp_workers_run n current a g ws k gts ps i); [done| |].
    - destruct (uses !! i) as [us|] eqn:Eu; [|done]. cbn [default]. rw lookupN_eq in Eu. apply list_elem_of_lookup_2, list_elem_of_In in Eu.
      rw forallb_forall in Hok. by apply Hok.
    - iFrame "Hs Hp Hps". iIntros "Hs Hp Hps". iApply wp_bind. iApply (wp_load_pointer _ ps i x); [done|]. iFrame "Hp". iIntros "Hp".
      rw lookupN_eq in Hx. rw (drop_S _ _ _ Hx). iDestruct "Hps" as "[Hx Hps]". iApply wp_bind. iApply wp_free. iFrame "Hx".
      iApply (wp_ret tt). cbn [returns]. iFrame. }
  unfold shared. iFrame "Ha Hg Hgts Hp Hps". iIntros "(Ha & Hg & Hgts) Hp". iApply wp_bind. iApply (wp_delete_array _ (BPointers ps)); [done|]. iFrame "Hp".
  iApply wp_bind. iApply wp_free. iFrame "Hg". iApply (wp_ret tt). iApply ("HΦ" with "Ha Hgts").
Qed.

Lemma wp_driver_construct verify n current k a Φ :
  own_alg n current a ∗ (∀ a' d, own_alg n (Some k) a' -∗ own_driver d -∗
    blocks (match current with Some j => 1 + 2 * N.to_nat j | None => 0 end) -∗ Φ (Ok (a', d))) ⊢
  wp (GraphSketchDriver_construct verify k a) Φ.
Proof.
  iIntros "[(Hd & Hr & Hs & Hf & Hm & Hdelta) HΦ]". iApply wp_bind. iApply wp_bind.
  iApply (wp_new_pointers k _ own_sketch); [apply wp_new_Sketch|]. iIntros (p) "[%Hnull Hp]".
  iApply (wp_ret (mkAlgMemory _ _ _ _ _ p k)). iApply wp_bind. iApply wp_new. iIntros (gts) "Hgts".
  iApply wp_bind. iApply wp_bind. iApply (wp_new_pointers k _ (own_worker gts)); [intros Ψ; apply wp_new|]. iIntros (ws) "[_ Hws]".
  iApply wp_new. iIntros (g) "Hg".
  iAssert (blocks (match current with Some j => 1 + 2 * N.to_nat j | None => 0 end)) with "[Hdelta]" as "Hlost".
  { destruct current as [j|]; [by iApply own_delta_blocks|]. iDestruct "Hdelta" as "_". by rw -blocks_none. }
  iApply wp_bind. destruct verify.
  - iApply wp_bind. iApply wp_new. iIntros (v) "Hv". iApply (wp_ret (Some v)). iApply (wp_ret (_, mkDriverMemory gts g (Some v))).
    iApply ("HΦ" with "[Hd Hr Hs Hf Hm Hp] [-Hlost] Hlost"); [by iFrame|]. iFrame.
  - iApply (wp_ret None). iApply (wp_ret (_, mkDriverMemory gts g None)).
    iApply ("HΦ" with "[Hd Hr Hs Hf Hm Hp] [-Hlost] Hlost"); [by iFrame|]. iFrame.
Qed.

Lemma wp_driver_destruct n current a uses d Φ : forallb (forallb (use_ok n current)) uses = true →
  own_alg n current a ∗ own_driver d ∗ (own_alg n current a -∗ Φ (Ok tt)) ⊢ wp (GraphSketchDriver_destruct a uses d) Φ.
Proof.
  iIntros (Hok) "(Ha & (Hgts & Hg & Hv) & HΦ)". iApply wp_bind. iApply (wp_delete_group n current); [done|]. iFrame "Ha Hgts Hg".
  iIntros "Ha Hgts". iApply wp_bind. iApply wp_free. iFrame "Hgts". destruct (dr_verifier d) as [v|]; [|iApply (wp_ret tt); by iApply "HΦ"].
  iApply wp_bind. iApply wp_free. iFrame "Hv". iApply (wp_ret tt). by iApply "HΦ".
Qed.

Lemma wp_driver_work n current a uses d Φ : forallb (use_ok n current) uses = true →
  own_alg n current a ∗ own_driver d ∗ (own_alg n current a -∗ own_driver d -∗ Φ (Ok tt)) ⊢
  wp (workers_run a (dr_worker_threads d) 0 uses) Φ.
Proof.
  iIntros (Hok) "(Ha & (Hgts & (%ws & %k & Hg & (%ps & %Hlen & Hp & Hps)) & Hv) & HΦ)".
  iApply (wp_workers_run n current a _ ws k (dr_gts d) ps); [done|done|]. unfold shared. cbn [drop]. iFrame "Ha Hg Hgts Hp Hps".
  iIntros "(Ha & Hg & Hgts) Hp Hps". iApply ("HΦ" with "Ha"). iFrame. done.
Qed.

(** The drivers that are left are destroyed one after the other. *)
Lemma wp_destroy_drivers n current a (last : nat → list (list (N * worker_use))) ds Φ : (∀ i, forallb (forallb (use_ok n current)) (last i) = true) →
  own_alg n current a ∗ ([∗ list] d ∈ ds, own_driver d) ∗ (own_alg n current a -∗ Φ (Ok tt)) ⊢
  wp (for_each (imap (λ i d, (last i, d)) ds) (λ '(uses, d), GraphSketchDriver_destruct a uses d)) Φ.
Proof.
  revert last. induction ds as [|d ds IH]; intros last Hok; iIntros "(Ha & Hds & HΦ)"; [iApply (wp_ret tt); by iApply "HΦ"|].
  cbn [imap for_each]. iDestruct "Hds" as "[Hd Hds]". iApply wp_bind. iApply (wp_driver_destruct n current); [by apply Hok|]. iFrame "Ha Hd".
  iIntros "Ha". iApply (IH (last ∘ S)); [intros i; apply Hok|]. iFrame.
Qed.
End Specs.

(** * Whole sessions *)

Section Session.
Context (verify : bool) (n : N).

Definition own_state (current : option N) (s : memory_state) : heapProp :=
  own_alg n current (ms_alg s) ∗ ([∗ list] d ∈ ms_drivers s, own_driver d) ∗ [∗ list] x ∈ ms_answers s, own_array x.

Definition lost_by (c : memory_call) (current : option N) : nat :=
  match c, current with MemDriver _, Some j => 1 + 2 * N.to_nat j | _, _ => 0 end.

Lemma leaked_cons c cs current : leaked current (c :: cs) = (lost_by c current + leaked (workers_after c current) cs)%nat.
Proof using . by destruct c, current. Qed.

(** What the workers do during a call. *)
Definition call_ok (c : memory_call) (current : option N) : bool := uses_ok n current [c] [].

Lemma uses_ok_cons c cs current last : uses_ok n current (c :: cs) last = true →
  call_ok c current = true ∧ uses_ok n (workers_after c current) cs last = true.
Proof using . unfold call_ok. cbn. rw andb_true_r. by intros [? ?]%andb_prop. Qed.

Lemma wp_memory_call c current s Φ : call_ok c current = true →
  own_state current s ∗ (∀ s', own_state (workers_after c current) s' -∗ blocks (lost_by c current) -∗ Φ (Ok s')) ⊢
  wp (run_memory_call verify c s) Φ.
Proof using .
  unfold call_ok. cbn [uses_ok]. rw andb_true_r. iIntros (Hok) "[(Ha & Hd & Hc) HΦ]".
  destruct c as [k|i uses|i uses|t p ck|t p ck ck'|t p ck|i]; cbn [run_memory_call workers_after lost_by].
  - iApply wp_bind. iApply wp_driver_construct. iFrame "Ha". iIntros (a' d) "Ha Hdr Hlost".
    iApply (wp_ret (mkMemory a' (d :: ms_drivers s) (ms_answers s))). iApply ("HΦ" with "[-Hlost]"); [|done]. iFrame.
  - destruct (ms_drivers s !! i) as [d|] eqn:Ei.
    + iDestruct (big_sepL_lookup_acc _ _ _ _ Ei with "Hd") as "[Hx Hd]". iApply wp_bind. iApply (wp_driver_work n current); [done|]. iFrame "Ha Hx".
      iIntros "Ha Hx". iApply (wp_ret s). iApply ("HΦ" with "[-]"); [|by rw -blocks_none]. iFrame "Ha Hc". by iApply "Hd".
    + iApply (wp_ret s). iApply ("HΦ" with "[-]"); [iFrame|by rw -blocks_none].
  - destruct (ms_drivers s !! i) as [d|] eqn:Ei.
    + rw {1}(delete_Permutation _ _ _ Ei). iDestruct "Hd" as "[Hx Hd]". iApply wp_bind. iApply (wp_driver_destruct n current); [done|]. iFrame "Ha Hx".
      iIntros "Ha". iApply (wp_ret (mkMemory (ms_alg s) _ (ms_answers s))). iApply ("HΦ" with "[-]"); [iFrame|by rw -blocks_none].
    + iApply (wp_ret s). iApply ("HΦ" with "[-]"); [iFrame|by rw -blocks_none].
  - iApply wp_try_call. iApply wp_connected_components. iSplit.
    + iIntros (cc) "Hcc". iApply ("HΦ" with "[-]"); [|by rw -blocks_none]. iFrame.
    + iIntros (e). iApply ("HΦ" with "[-]"); [iFrame|by rw -blocks_none].
  - iApply wp_try_call. iApply wp_spanning_forest. iSplit; [|iIntros (e)]; (iApply ("HΦ" with "[-]"); [iFrame|by rw -blocks_none]).
  - iApply wp_try_call. iApply wp_point_query. iSplit; [|iIntros (e)]; (iApply ("HΦ" with "[-]"); [iFrame|by rw -blocks_none]).
  - destruct (ms_answers s !! i) as [cc|] eqn:Ei.
    + rw {1}(delete_Permutation _ _ _ Ei). iDestruct "Hc" as "[Hx Hc]". iApply wp_bind. iApply wp_array_destroy. iFrame "Hx".
      iApply (wp_ret (mkMemory (ms_alg s) (ms_drivers s) _)). iApply ("HΦ" with "[-]"); [iFrame|by rw -blocks_none].
    + iApply (wp_ret s). iApply ("HΦ" with "[-]"); [iFrame|by rw -blocks_none].
Qed.

Lemma wp_memory_calls last cs : ∀ current s Φ, uses_ok n current cs last = true →
  own_state current s ∗ (∀ current' s', <affine> ⌜uses_ok n current' [] last = true⌝ -∗ own_state current' s' -∗ blocks (leaked current cs) -∗ Φ (Ok s')) ⊢
  wp (run_memory_calls verify cs s) Φ.
Proof using .
  induction cs as [|c cs IH]; intros current s Φ Hok; iIntros "[Hs HΦ]"; cbn [run_memory_calls].
  - iApply (wp_ret s). iApply ("HΦ" with "[] Hs"); [done|]. by rw -blocks_none.
  - apply uses_ok_cons in Hok as [Hc Hok]. iApply wp_bind. iApply wp_memory_call; [done|]. iFrame "Hs". iIntros (s') "Hs Hlost". iApply IH; [done|]. iFrame "Hs".
    iIntros (current' s'') "Hl Hs Hlost'". iApply ("HΦ" with "Hl Hs"). rw leaked_cons. iApply blocks_plus. iFrame.
Qed.

Lemma wp_memory_program cs last : uses_ok n None cs last = true → ⊢ wp (memory_program verify n cs last) (returns (λ _, blocks (leaked None cs))).
Proof using .
  intros Hok. iApply wp_bind. iApply wp_CCSketchAlg_construct. iIntros (a) "Ha". iApply wp_bind. iApply (wp_memory_calls last cs None); [done|].
  iSplitL "Ha"; [unfold own_state; cbn; iFrame; iSplit; done|]. iIntros (current s) "%Hlast (Ha & Hd & Hc) Hlost".
  iApply wp_bind. iApply (wp_destroy_all own_array); [apply wp_array_destroy|]. iFrame "Hc".
  iApply wp_bind. iApply (wp_destroy_drivers n current (ms_alg s) (λ i, default [] (last !! i))).
  { intros i. cbn [uses_ok] in Hlast. rw forallb_forall in Hlast. destruct (last !! i) as [us|] eqn:Eu; [|done].
    apply Hlast. by apply list_elem_of_lookup_2, list_elem_of_In in Eu. }
  iFrame "Ha Hd". iIntros "Ha". iApply wp_CCSketchAlg_destruct. by iFrame.
Qed.

Definition is_driver (c : memory_call) : bool := match c with MemDriver _ => true | _ => false end.

Lemma leaked_nothing cs : forallb (negb ∘ is_driver) cs = true → ∀ current, leaked current cs = 0%nat.
Proof using .
  induction cs as [|c cs IH]; [done|]. cbn [forallb]. intros [Hc Hcs]%andb_prop current. rw leaked_cons. destruct c; try done; by apply IH.
Qed.
End Session.

(** C11. Nothing is freed twice, the workers use nothing that is gone, and little
    is lost. Whatever drivers a program makes and drops on an algorithm, whatever
    queries it makes, from the cache or in any number of rounds and whether they
    return or throw, and whenever it drops the answers; and whatever the workers
    of the drivers do, from time to time and until they are joined in the
    destructor: access the guttering system, the group's mutex, and for a batch
    their own worker sketch and the sketch of its vertex (a vertex of the graph,
    and a worker that the last driver has as well): from the constructor of the
    algorithm to the destructors at the end no freed or unallocated memory is
    accessed, and memory is left as it was but for the worker sketches of every
    driver that another one followed, two blocks each and their array; with one
    driver, nothing. *)
Theorem memory_session verify n cs last h (Huses : uses_ok n None cs last = true) :
  ∃ lost, memory_program verify n cs last h = (lost ∪ h, Ok tt) ∧ lost ##ₘ h ∧ size lost = leaked None cs ∧
    ((length (filter (λ c, is_driver c = true) cs) ≤ 1)%nat → lost = ∅).
Proof.
  destruct (wp_sound _ _ (wp_memory_program verify n cs last Huses) h) as ([] & lost & E & Hd & Hsize). exists lost.
  split_and!; [done..|]. intros Hone. apply map_size_empty_inv. rw Hsize. clear -Hone.
  induction cs as [|c cs IH]; [done|]. rw filter_cons in Hone. case_decide as Hc; [|destruct c; try done; by apply IH].
  rw leaked_cons. rw leaked_nothing; [by destruct c|]. cbn in Hone. apply forallb_forall. intros c' Hin%list_elem_of_In.
  destruct (is_driver c') eqn:Ec; [|by cbn; rw Ec]. exfalso.
  assert (c' ∈ filter (λ c, is_driver c = true) cs) as Hf by by apply list_elem_of_filter.
  destruct (filter _ cs); [by apply elem_of_nil in Hf|cbn in Hone; lia].
Qed.

(** A driver whose workers run, a query that throws in its second round, one that
    answers from the cache, one whose check fails, the end of the driver, and a
    second driver for three workers: seven blocks are lost. *)
Definition two_drivers : list memory_call :=
  [MemDriver 3; MemWork 0 [(2, UseGutters); (1, UseBatch 3); (0, UsePause)];
   MemPoint 2 (Computed [None; Some (OutOfSamplesException 1 2 3)]) None; MemConnected 2 (Cached None) None;
   MemConnected 2 (Cached None) (Some (IncorrectCCException String.EmptyString));
   MemDropDriver 0 [[(2, UseBatch 0); (0, UseGutters)]; [(1, UsePause)]; [(2, UseGutters)]]; MemDriver 1].

Definition two_drivers_last : list (list (list (N * worker_use))) := [[[(0, UseBatch 1); (0, UseGutters)]]].

Lemma memory_session_witness : ∃ lost, memory_program true 4 two_drivers two_drivers_last ∅ = (lost, Ok tt) ∧ size lost = 7%nat ∧
  memory_program true 4 (take 6 two_drivers) [] ∅ = (∅, Ok tt).
Proof.
  destruct (memory_session true 4 two_drivers two_drivers_last ∅ ltac:(vm_compute; reflexivity)) as (lost & E & _ & Hsize & _).
  destruct (memory_session true 4 (take 6 two_drivers) [] ∅ ltac:(vm_compute; reflexivity)) as (lost' & E' & _ & _ & Hnone).
  exists lost. rw map_union_empty in E. split; [exact E|]. split; [exact Hsize|].
  rw E' Hnone; [reflexivity|]. vm_compute. lia.
Defined.

(** The condition on batches is needed: a second driver with fewer workers
    replaces the array of worker sketches under the threads of the first. *)
Lemma second_driver_out_of_bounds :
  (memory_program false 4 [MemDriver 3; MemDriver 1; MemWork 1 [(2, UseBatch 0)]] [] ∅).2 = Undef.
Proof. vm_compute. reflexivity. Qed.

(** * Copies *)

(** A copied or moved disjoint set union and the original can both go. *)
Lemma dsu_copies_safe h :
  (d ← DSU_construct; c ← DSU_copy_memory d; let '(m, d) := DSU_move_memory d in
   _ ← DSU_destruct c; _ ← DSU_destruct m; DSU_destruct d) h = (h, Ok tt).
Proof.
  assert (⊢ wp (d ← DSU_construct; c ← DSU_copy_memory d; let '(m, d) := DSU_move_memory d in
    _ ← DSU_destruct c; _ ← DSU_destruct m; DSU_destruct d) (returns (λ _, blocks 0))) as Hwp.
  { iApply wp_bind. iApply wp_DSU_construct. iIntros (d) "Hd". iApply wp_bind. iApply wp_DSU_construct. iIntros (c) "Hc".
    iApply wp_bind. iApply wp_DSU_destruct. iFrame "Hc". iApply wp_bind. iApply wp_DSU_destruct. iFrame "Hd".
    iApply wp_bind. iApply wp_delete_null. iApply wp_delete_null. cbn. by rw -blocks_none. }
  destruct (wp_sound _ _ Hwp h) as ([] & σ & E & _ & Hs). apply map_size_empty_inv in Hs. rw Hs map_empty_union in E. exact E.
Qed.

Lemma deleted_twice h : (p ← new BArray; _ ← delete_array p; delete_array p) h = (h, Undef).
Proof.
  unfold new, mbind, M_bind. set (p := fresh _).
  assert (p ∉ {[ nullptr ]} ∪ dom h) as [Hp0 Hp]%not_elem_of_union by apply is_fresh.
  apply not_elem_of_singleton in Hp0. apply not_elem_of_dom in Hp. unfold delete_array.
  rw (proj2 (N.eqb_neq _ _) Hp0). unfold mbind, M_bind, free. rw lookup_insert_eq delete_insert_id; [|done]. cbn. by rw Hp.
Qed.

(** [ConnectedComponents] has a destructor but the compiler's copy constructor:
    a copy and the original free the same array. *)
Lemma copied_answer_freed_twice h :
  (cc ← ConnectedComponents_construct; let copy := ConnectedComponents_copy cc in
   _ ← ConnectedComponents_destruct copy; ConnectedComponents_destruct cc) h = (h, Undef).
Proof. apply deleted_twice. Qed.

(** The assignment operator the compiler adds to [DisjointSetUnion_MT]. *)
Lemma assigned_dsu_freed_twice h :
  (d ← DSU_construct; oth ← DSU_construct; let d := DSU_MT_assign d oth in
   _ ← DSU_destruct d; DSU_destruct oth : M heap unit) h = ((DSU_construct h).1, Undef).
Proof.
  assert (∀ h, ∃ p q, DSU_construct h = (<[ q := BArray ]> (<[ p := BArray ]> h), Ok (mkDsuMemory p q)) ∧
    p ≠ nullptr ∧ q ≠ nullptr ∧ p ≠ q ∧ h !! p = None ∧ h !! q = None) as Hnew.
  { clear h. intros h. unfold DSU_construct, new, mbind, M_bind. set (p := fresh ({[ nullptr ]} ∪ dom h)).
    set (q := fresh ({[ nullptr ]} ∪ dom (<[ p := BArray ]> h))). exists p, q.
    assert (p ∉ {[ nullptr ]} ∪ dom h) as Hp by apply is_fresh.
    assert (q ∉ {[ nullptr ]} ∪ dom (<[ p := BArray ]> h)) as Hq by apply is_fresh.
    rw dom_insert in Hq. rw -!not_elem_of_dom. split; [done|]. set_solver. }
  destruct (Hnew h) as (p & q & E & _). unfold mbind, M_bind. rw E. cbn [fst]. set (h1 := <[ q := _ ]> _).
  destruct (Hnew h1) as (p' & q' & E' & Hp & Hq & Hpq & Hnp & Hnq). rw E'. unfold DSU_MT_assign, DSU_destruct, delete_array, mbind, M_bind, free.
  cbn [d_parent d_priority]. rw (proj2 (N.eqb_neq _ _) Hp) (proj2 (N.eqb_neq _ _) Hq).
  rw lookup_insert_ne; [|done]. rw lookup_insert_eq. cbn. rw delete_insert_ne; [|done]. rw delete_insert_id; [|done].
  rw lookup_insert_eq. cbn. rw delete_insert_id; [|done]. by rw Hnp.
Qed.
